(* ===== verification/_CoqProject ===== *)
-Q . S2P
Prelude.v
Memory.v
Triples.v
MetaTypes.v
MetaShard.v
BucketRegistry.v
MetaCheckpoint.v
MetaServer.v
MetaTyping.v
MetaRestore.v
ErasureCoding.v
ManifestCache.v
Placement.v
Replication.v
Gateway.v
GatewayLife.v
StorageProtocol.v
StorageServer.v
RpcSystem.v
StatFs.v
EngineConfig.v
EngineBdev.v
EngineMkfs.v
StorageEngine.v
StorageLifecycle.v
EtcdBackend.v
Cluster.v
HttpText.v
AccessRoutes.v
HttpResponse.v
HttpParser.v
HttpServer.v
HttpSession.v
HttpClients.v
StressTest.v
