(* ===== verification/Prelude.v ===== *)
(** * LightFS: a verification library

    LightFS is an object store in C: an access layer that speaks S3 over HTTP, a gateway
    that cuts objects into erasure-coded fragments, metadata servers that keep manifests in
    shards, storage servers that offer a local storage engine by RPC, and cluster code that
    announces nodes in a key-value store.  This library translates its C code into
    executable definitions, with the names of the source, and proves what each part does.

    ** How the parts fit, and where they are

    - Foundations.  [Prelude] (this file): bytes, machine integers ([wrap], [u32], [u64],
      [i32]), C strings, little-endian fields, association lists, the hint database [lfs].
      [Memory]: [malloc] and [free] by explicit state passing ([M]); an oracle
      ([AllocOracle]) says which allocations fail, [None] is undefined behaviour.
      [Triples]: a small separation logic over [M]: [triple P f Q] says that [f], owning
      the blocks [P] and whatever else is live, is defined and ends owning [Q]; [sep] is
      the disjoint union of listed pieces; [heap_of] a heap that is exactly the blocks of
      some items, each of which a run may work on alone.
    - Metadata ([src/meta/]).  [MetaTypes] the structs; [MetaShard] a shard, an array of
      manifests searched front to back, with its listing and splitting
      ([meta_shard.c]); [BucketRegistry] ([meta_bucket_registry.c]); [MetaCheckpoint] the
      image a shard is written to and read from ([meta_checkpoint.c]); [MetaServer] the
      server that stamps and routes manifests to its shard ([meta_server.c],
      [meta_recovery.c]); [MetaTyping] the ranges of all the fields, through any calls of
      the server, its shard and the checkpoints; [MetaRestore] a shard that is
      checkpointed and restored.
    - Gateway ([src/gateway/]).  [ErasureCoding] ([gateway_ec.c]), [ManifestCache]
      ([gateway_manifest_cache.c]), [Placement] ([gateway_placement.c],
      [gateway_fragment_router.c]), [Replication] ([gateway_replication.c]), and [Gateway]
      ([gateway.c]), which calls all of them: a put selects a policy, places, encodes,
      sends the fragments, caches the manifest and appends it to the batch.  [GatewayLife] has
      the same constructors by the blocks they take, and the destructors.
    - Storage RPC ([src/storage_client/], [src/storage_server/]).  [StorageProtocol] the
      requests and the client's pending calls; [StorageServer] the handlers, the completion
      bridge and the deferred reply ([rpc_handler.c], [callback_bridge.c]), and the whole
      path of a call from the client to the engine and back; [RpcSystem] a client and a
      server with any number of calls under way, as a system whose steps are the entries
      of the code in any order; [StatFs] the one handler that
      runs on all shards at once, as interleaved steps of their threads and the RPC thread
      over the server's heap, refining a counting machine without memory; [StorageLifecycle] starting
      and stopping ([storage_server.c], [storage_client.c]): the start of the process calls
      the start of the engine and, when it fails, the engine's asynchronous stop.
    - Engine ([src/engine/src/]).  [EngineConfig] reading and validating the configuration,
      [EngineBdev] the block device (both [config.c]), [EngineMkfs] formatting a volume,
      [StorageEngine] arguments, core affinity, mounting, the start that calls all of these,
      and the two ways of stopping ([storage_engine.c]); [StressTest] the program that
      drives the engine and checks what it reads back ([test/test_main.c]).
    - Cluster ([src/cluster/]).  [EtcdBackend] the key-value store as an interface and the
      mock the program is built against ([test/mocks/mock_etcd.c]); [Cluster] the client,
      a node's life and discovery ([etcd_client.c], [cluster_node.c],
      [cluster_discovery.c], [cluster_config.c]).
    - Access ([src/access/]).  [HttpText] the C text functions it calls; [AccessRoutes]
      routing and the signature check ([access_routes.c], [sigv4.c]); [HttpResponse] the
      handlers, their XML and the bytes of a response ([access_handlers.c], [s3_xml.c],
      [http_response.c]); [HttpParser] the callbacks under llhttp ([http_parser.c]);
      [HttpServer] connections, the poller and the server ([http_server.c],
      [access_server.c]), which calls the other four; [HttpSession] the requests of one
      client on one connection, from the bytes that arrive to the bytes that are sent;
      [HttpClients] any number of clients whose requests come whole, served by the polls of
      one server.

    A struct is a [Record] with the fields of the source, a [char] array the C string it
    holds, a function a [Definition] of the same name that returns the new state, with the
    statements in the order of the source.  A block of a long function that has a name of
    its own here (a loop, a guard) is called where the source has it.

    ** Interfaces

    What is not in the repository is a class with its operations, and another with the laws
    the proofs use, for which a file gives an instance: [Llhttp]/[LlhttpLaws] (the order of
    its callbacks; [small_llhttp]), [EtcdBackend]/[EtcdLaws] (the mock), [JsonLib]/[JsonLaws]
    (SPDK's JSON decoder), [CpuSets]/[CpuSetLaws], [SegmentEnv] and [StorageEnv] (constants
    of the segment layer and of the engine), [Tunables]/[TunablesOk] (what the stress test is
    compiled with).  Inside the program, [Resource]/[ResourceLaws]
    ([GatewayLife]) is what a part promises to the part that creates and destroys it.  The
    answers of SPDK, of the RPC library, of
    the sockets and of the clock are arguments.

    ** What the theorems show

    - Refinement: a shard answers as a finite map ([MetaShard]), also after it was
      checkpointed and restored ([MetaRestore]), the registry as a bounded one
      ([BucketRegistry]); clients' calls, however their requests, completions, replies
      and failures interleave, are the atomic calls of a specification in which a callback
      is told once what became of its own operation, unless somebody reads 2^32 - 8 bytes
      or more at once, which overflows the reply ([RpcSystem]; for one call, with its
      memory step by step, [StorageServer]); the clients of a polled server are
      written to as a specification without buffers says, and while no two answers are pending at
      once the buffers hold what it says ([HttpClients]).
    - Types: every field of the metadata stays in the range of its C type and every name in
      its array, whatever a checkpoint holds ([MetaTyping]).
    - Invariants over all histories: the cache ([ManifestCache]), the steps of a STATFS
      under every interleaving, down to every block freed ([StatFs]), a configuration that loads ([EngineConfig]), an
      engine that starts ([StorageEngine]).
    - Memory safety, with every allocation allowed to fail: puts ([Gateway]), the life of a
      gateway ([GatewayLife]), RPC handlers
      ([StorageServer]), the exact blocks of the RPC client and server at any time
      ([RpcSystem]), the HTTP parser on any bytes and the HTTP server from its start
      over any polls to its end, but for the receive buffers it loses when one cannot grow
      ([HttpParser], [HttpServer]), shards ([MetaShard]), the
      life of the RPC server ([StorageLifecycle]), the stress test under any engine
      ([StressTest]); formatting stays inside its arrays and the device ([StorageEngine]).
    - Round trips: encoding and decoding ([ErasureCoding]), checkpoints
      ([MetaCheckpoint]), numbers ([HttpText]), joining and leaving ([Cluster]).
    - Exact behaviour: what is routed ([AccessRoutes]), what a message parses to
      ([HttpParser]), what is on the wire ([HttpResponse]), which bytes answer each request
      of a session ([HttpSession]), listings ([MetaShard]), cache lookups, pushed batches, placement,
      affinity, formatting ([EngineMkfs]).
    - Termination and progress: the loop that makes room for a body, whose divergence is
      characterised exactly ([HttpParser]); what a poll leaves open ([HttpServer]); no state
      of the RPC system keeps a call from its answer ([RpcSystem]); the stress test ends,
      with the verdict it is meant to give, when its requests are accepted ([StressTest]).
    - Starting a process: it serves, or it is told to stop, and what it still holds then is
      stated for every way to fail: the device stays open when the engine fails after it has
      opened it, or when no memory is left for the shutdown; without a core mask it never serves ([StorageLifecycle]).  An engine that
      formats gives its device back ([StorageEngine]).
    - Where the code does not do what it means to, a theorem says what it does: both that a
      property fails and on which inputs.

    ** Bounds and fuel

    Loops over arrays and lists are structural, or recurse on the number of slots or
    operations left, so nothing runs out; a process that is called back takes as many steps
    as asked for, and a theorem says how many are enough ([StressTest.max_steps]).  [HttpParser.GROW_FUEL] is 64: a 64-bit capacity that is not 0
    doubles at most 64 times before it is large enough ([grow_fuel]).  Sizes such as the
    1 MiB of a checkpoint, the 4096 bytes of a URI or the 64 headers of a request are
    those of the source.  [HttpParser.MAX_SAFE_BODY] (2 GiB) is a hypothesis of the theorems
    on the HTTP server, since above it the code can loop forever; the number of manifests,
    connections and shards is bounded by the width of their counters where a theorem says so.

    ** Not modelled

    The B-tree and the block store ([include/lightfs/bs.h], [bs_config.h],
    [bs_cow_btree.h]) are declared and not defined; the segment, shard, object, journal and
    logging sources of the engine are not in the repository.  Printing, usage texts and log
    lines are output only.  Early returns on NULL handles are left out where the callers
    pass none.  [s3_xml_parse] and the watch, keep-alive and recovery functions that do
    nothing are stubs in the source.  Text that SPDK, llhttp or libc handle is theirs.  The
    mock gateway records calls and stands in for the gateway that is modelled. *)
From stdpp Require Export base list gmap strings.
From coqutil Require Export Byte.
From coqutil Require Export Word.LittleEndianList.
From Stdlib Require Export ZArith Lia.
From Stdlib Require Numbers.DecimalString Strings.Byte.
From stdpp Require Import options.

(** ** Bytes and machine integers *)

Abbreviation bytes := (list byte).

#[export] Instance byte_eq_dec : EqDecision byte := Byte.byte_eq_dec.
#[export] Instance byte_inhabited : Inhabited byte := populate Byte.x00.

#[export] Program Instance byte_countable : Countable byte :=
  inj_countable Byte.to_N Byte.of_N _.
Next Obligation. intros b. apply Byte.of_to_N. Qed.

(** A string literal of the source, as the bytes before its terminator. *)
Definition cs (s : string) : bytes := String.list_byte_of_string s.


(** Unsigned [w]-bit arithmetic wraps; signed 32-bit arithmetic wraps in two's
    complement. *)
Definition wrap (w z : Z) : Z := (z mod 2 ^ w)%Z.
Abbreviation u8 := (wrap 8).
Abbreviation u16 := (wrap 16).
Abbreviation u32 := (wrap 32).
Abbreviation u64 := (wrap 64).
Definition i32 (z : Z) : Z := ((z + 2 ^ 31) mod 2 ^ 32 - 2 ^ 31)%Z.

(** [z] is a value of an unsigned [w]-bit type. *)
Definition fits (w z : Z) : Prop := (0 ≤ z < 2 ^ w)%Z.
#[export] Instance fits_dec w z : Decision (fits w z).
Proof. unfold fits. apply _. Defined.

(** ** C strings

    A C string is the list of its bytes before the terminating NUL; raw memory
    is a list of bytes in which NULs are ordinary. *)

Abbreviation NUL := Byte.x00.
Abbreviation SLASH := Byte.x2f.

(** The C string that starts at the first byte of a memory region. *)
Fixpoint cstr (m : bytes) : bytes :=
  match m with
  | [] => []
  | c :: m' => if decide (c = NUL) then [] else c :: cstr m'
  end.

(** A list of bytes is the value of a C string when it holds no NUL. *)
Definition c_ok (s : bytes) : Prop := NUL ∉ s.
#[export] Instance c_ok_dec s : Decision (c_ok s).
Proof. unfold c_ok. apply _. Defined.

(** The sign of [strcmp]: bytes compare unsigned, and a proper prefix is
    smaller because its terminator is 0. *)
Fixpoint strcmp (s t : bytes) : comparison :=
  match s, t with
  | [], [] => Eq
  | [], _ :: _ => Lt
  | _ :: _, [] => Gt
  | c :: s', d :: t' =>
      match Z.compare (byte.unsigned c) (byte.unsigned d) with
      | Eq => strcmp s' t'
      | r => r
      end
  end.

Definition strncmp (s t : bytes) (n : nat) : comparison := strcmp (take n s) (take n t).

#[export] Instance comparison_eq_dec : EqDecision comparison.
Proof. solve_decision. Defined.

(** [strncpy(dst, src, n)] into a field whose byte [n] stays NUL: the string
    the field then holds. *)
Definition strncpy (src : bytes) (n : nat) : bytes := take n src.

Arguments strncpy : simpl never.

(** Offset of the first occurrence of a byte, and of a string. *)
Definition strchr (s : bytes) (c : byte) : option nat := fst <$> list_find (c =.) s.

Fixpoint strstr (hay needle : bytes) : option nat :=
  if decide (take (length needle) hay = needle) then Some 0
  else match hay with
       | [] => None
       | _ :: hay' => S <$> strstr hay' needle
       end.

(** ** Little-endian fields: [memcpy] of an unsigned integer on x86-64 *)

Definition put_le (n : nat) (z : Z) : bytes := le_split n z.
Definition get_le (n : nat) (m : bytes) : Z := le_combine (take n m).


(** [memcpy(buf + off, data, n)] into a buffer whose size is known; [None] when the
    copy would leave it. *)
Definition overlay (off : nat) (data buf : bytes) : option bytes :=
  if decide (off + length data ≤ length buf)
  then Some (take off buf ++ data ++ drop (off + length data) buf)
  else None.

(** [errno] values of Linux. *)
Definition EIO : Z := 5.
Definition ENOMEM : Z := 12.
Definition EBUSY : Z := 16.
Definition EINVAL : Z := 22.
Definition ENOTCONN : Z := 107.

(** Offset of the last occurrence of a byte. *)
Definition strrchr (s : bytes) (c : byte) : option nat :=
  (λ i, length s - S i) <$> strchr (reverse s) c.

(** [snprintf(buf, cap, "%s", s)]: the result and the string left in the buffer. *)
Definition snprintf_s (cap : nat) (s : bytes) : nat * bytes := (length s, take (cap - 1) s).

(** [%u], [%lu] and [%d] of [printf]. *)
Definition fmt_u (z : Z) : bytes :=
  cs (DecimalString.NilZero.string_of_uint (N.to_uint (Z.to_N z))).
Definition fmt_d (z : Z) : bytes :=
  if decide (z < 0)%Z then cs "-" ++ fmt_u (- z) else fmt_u z.

(** ** Lemmas on integers *)

Create HintDb lfs.
Create Rewrite HintDb lfs.

Lemma wrap_small w z : fits w z → wrap w z = z.
Proof. unfold wrap, fits. apply Z.mod_small. Qed.

Lemma wrap_fits w z : (0 ≤ w)%Z → fits w (wrap w z).
Proof. intros ?. unfold wrap, fits. apply Z.mod_pos_bound, Z.pow_pos_nonneg; lia. Qed.

Lemma wrap_idemp w z : (0 ≤ w)%Z → wrap w (wrap w z) = wrap w z.
Proof. intros. by apply wrap_small, wrap_fits. Qed.

Lemma wrap_add_l w a b : (0 ≤ w)%Z → wrap w (wrap w a + b) = wrap w (a + b).
Proof. intros Hw. unfold wrap. by rewrite Zplus_mod_idemp_l. Qed.

Lemma i32_le z : (0 ≤ z)%Z → (i32 z ≤ z)%Z.
Proof. intros ?. unfold i32. pose proof (Z.mod_le (z + 2 ^ 31) (2 ^ 32)). lia. Qed.

Lemma i32_range z : (- 2 ^ 31 ≤ i32 z < 2 ^ 31)%Z.
Proof. unfold i32. pose proof (Z.mod_pos_bound (z + 2 ^ 31) (2 ^ 32)). lia. Qed.

Lemma i32_small z : (- 2 ^ 31 ≤ z < 2 ^ 31)%Z → i32 z = z.
Proof. unfold i32. intros ?. rewrite Z.mod_small; lia. Qed.

#[export] Hint Resolve wrap_fits : lfs.

(** ** Lemmas on C strings *)

Lemma strcmp_eq s t : strcmp s t = Eq ↔ s = t.
Proof.
  revert t. induction s as [|c s IH]; intros [|d t]; simpl; [done..|].
  destruct (Z.compare_spec (byte.unsigned c) (byte.unsigned d)) as [E|E|E].
  - apply byte.unsigned_inj in E as ->. rewrite IH. naive_solver.
  - split; [done|]. intros [= -> ->]. lia.
  - split; [done|]. intros [= -> ->]. lia.
Qed.

Lemma strcmp_refl s : strcmp s s = Eq.
Proof. by apply strcmp_eq. Qed.

Lemma strcmp_antisym s t : strcmp t s = CompOpp (strcmp s t).
Proof.
  revert t. induction s as [|c s IH]; intros [|d t]; simpl; [done..|].
  rewrite (Z.compare_antisym (byte.unsigned c)).
  destruct (_ ?= _)%Z; simpl; auto.
Qed.

Lemma strcmp_trans_gt s t u : strcmp s t = Gt → strcmp t u = Gt → strcmp s u = Gt.
Proof.
  revert t u. induction s as [|c s IH]; intros [|d t] [|e u]; simpl; try done.
  destruct (Z.compare_spec (byte.unsigned c) (byte.unsigned d)) as [E1|E1|E1],
    (Z.compare_spec (byte.unsigned d) (byte.unsigned e)) as [E2|E2|E2],
    (Z.compare_spec (byte.unsigned c) (byte.unsigned e)) as [E3|E3|E3];
    try done; try lia; eauto.
Qed.

Lemma cstr_ok m : c_ok (cstr m).
Proof.
  unfold c_ok. induction m as [|c m IH]; simpl; [set_solver|].
  case_decide; set_solver.
Qed.

Lemma cstr_length (s : bytes) : length (cstr s) ≤ length s.
Proof. induction s as [|b s IH]; simpl; [lia|]. case_decide; simpl; lia. Qed.

Lemma cstr_id s : c_ok s → cstr s = s.
Proof.
  unfold c_ok. induction s as [|b s IH]; [done|]. rewrite not_elem_of_cons. intros [? ?]. simpl.
  rewrite decide_False by done. by rewrite IH.
Qed.

Lemma cstr_terminated s m : c_ok s → cstr (s ++ NUL :: m) = s.
Proof.
  unfold c_ok. induction s as [|c s IH]; simpl; intros Hs; [done|].
  rewrite decide_False by set_solver. f_equal. apply IH. set_solver.
Qed.

Lemma c_ok_nil : c_ok [].
Proof. unfold c_ok. set_solver. Qed.

Lemma c_ok_app s t : c_ok (s ++ t) ↔ c_ok s ∧ c_ok t.
Proof. unfold c_ok. set_solver. Qed.

Lemma c_ok_take n s : c_ok s → c_ok (take n s).
Proof. unfold c_ok. intros H ?. by eapply H, subseteq_take. Qed.

Lemma c_ok_drop n s : c_ok s → c_ok (drop n s).
Proof. unfold c_ok. intros H ?. by eapply H, subseteq_drop. Qed.

Lemma strncpy_short src n : length src ≤ n → strncpy src n = src.
Proof. apply take_ge. Qed.

Lemma strncpy_length src n : length (strncpy src n) ≤ n.
Proof. unfold strncpy. rewrite length_take. lia. Qed.

#[export] Hint Resolve cstr_ok c_ok_nil c_ok_take c_ok_drop : lfs.
#[export] Hint Rewrite strcmp_eq : lfs.

Lemma strchr_Some s c i :
  strchr s c = Some i ↔ s !! i = Some c ∧ c ∉ take i s.
Proof.
  unfold strchr. rewrite fmap_Some. split.
  - intros [[j x] [Hj ->]]. apply list_find_Some in Hj as (Hj & <- & Hlt).
    split; [done|]. intros Hin. apply list_elem_of_lookup in Hin as [k Hk].
    apply lookup_take_Some in Hk as [Hk ?]. by eapply Hlt.
  - intros [Hi Hnin]. exists (i, c). split; [|done].
    apply list_find_Some. split_and!; [done..|]. intros j y Hj Hlt <-.
    apply Hnin, list_elem_of_lookup. exists j. by apply lookup_take_Some.
Qed.

Lemma strchr_None s c : strchr s c = None ↔ c ∉ s.
Proof.
  unfold strchr. rewrite fmap_None, list_find_None, Forall_forall. naive_solver.
Qed.

Lemma strrchr_Some s c i :
  strrchr s c = Some i → s !! i = Some c ∧ c ∉ drop (i + 1) s.
Proof.
  unfold strrchr. intros (j & Hj & ->)%fmap_Some.
  apply strchr_Some in Hj as [Hj Hnin].
  apply reverse_lookup_Some in Hj as [Hj Hlt].
  rewrite take_reverse, elem_of_reverse in Hnin.
  split; [done|]. by replace (length s - S j + 1) with (length s - j) by lia.
Qed.

Lemma strrchr_None s c : strrchr s c = None ↔ c ∉ s.
Proof. unfold strrchr. by rewrite fmap_None, strchr_None, elem_of_reverse. Qed.

(** ** Lemmas on little-endian fields *)

Lemma put_le_length n z : length (put_le n z) = n.
Proof. apply length_le_split. Qed.

Lemma get_put_le n z m :
  fits (8 * Z.of_nat n) z → get_le n (put_le n z ++ m) = z.
Proof.
  intros Hz. unfold get_le, put_le.
  rewrite take_app_length' by (symmetry; apply length_le_split).
  rewrite le_combine_split. apply Z.mod_small. unfold fits in Hz.
  by replace (Z.of_nat n * 8)%Z with (8 * Z.of_nat n)%Z by lia.
Qed.

Lemma get_put_le_end n z : fits (8 * Z.of_nat n) z → get_le n (put_le n z) = z.
Proof. intros Hz. rewrite <-(app_nil_r (put_le n z)). by apply get_put_le. Qed.

Lemma get_le_fits n m : fits (8 * Z.of_nat n) (get_le n m).
Proof.
  unfold get_le, fits. pose proof (le_combine_bound (take n m)) as [? Hlt].
  split; [done|]. eapply Z.lt_le_trans; [exact Hlt|].
  apply Z.pow_le_mono_r; [lia|]. rewrite length_take. lia.
Qed.

Lemma drop_put_le n z m : drop n (put_le n z ++ m) = m.
Proof. apply drop_app_length'. symmetry. apply length_le_split. Qed.

#[global] Opaque put_le get_le.
#[export] Hint Rewrite put_le_length drop_put_le : lfs.

Lemma overlay_length off data buf buf' :
  overlay off data buf = Some buf' → length buf' = length buf.
Proof.
  unfold overlay. case_decide; [|done]. intros [= <-].
  rewrite !length_app, length_take, length_drop. lia.
Qed.

(** A copy leaves the bytes outside its range alone. *)
Lemma overlay_outside off data buf buf' b :
  overlay off data buf = Some buf' → b < off ∨ off + length data ≤ b → buf' !! b = buf !! b.
Proof.
  unfold overlay. case_decide; [|done]. intros [= <-] [Hb|Hb].
  - rewrite lookup_app_l by (rewrite length_take; lia). by apply lookup_take_lt.
  - rewrite lookup_app_r by (rewrite length_take; lia).
    rewrite lookup_app_r by (rewrite length_take; lia).
    rewrite lookup_drop, length_take. f_equal. lia.
Qed.

(** Copies that continue each other are one copy. *)
Lemma overlay_app off d1 d2 buf :
  (buf' ← overlay off d1 buf; overlay (off + length d1) d2 buf') = overlay off (d1 ++ d2) buf.
Proof.
  unfold overlay. rewrite length_app. case_decide as H1; simpl.
  2: { by rewrite decide_False by lia. }
  rewrite !length_app, length_take, length_drop.
  replace (off `min` length buf + (length d1 + (length buf - (off + length d1)))) with (length buf) by lia.
  rewrite Nat.add_assoc. case_decide; [|done]. f_equal.
  rewrite (app_assoc (take off buf)), take_app_length' by (rewrite length_app, length_take; lia).
  rewrite drop_app_ge by (rewrite length_app, length_take; lia).
  rewrite <-!app_assoc. do 3 f_equal. rewrite drop_drop, length_app, length_take. f_equal. lia.
Qed.

(** ** Association lists: the arrays the components search front to back *)

Section assoc.
Context {A K : Type} `{EqDecision K} (key : A → K).
Implicit Types (l : list A) (k : K).

Definition assoc_find k l : option (nat * A) := list_find (λ a, key a = k) l.
Definition assoc_get k l : option A := snd <$> assoc_find k l.

(** The first match is the element at index [i]. *)
Lemma assoc_find_Some k l i a :
  assoc_find k l = Some (i, a) ↔
  l !! i = Some a ∧ key a = k ∧ ∀ j b, l !! j = Some b → j < i → key b ≠ k.
Proof. unfold assoc_find. by rewrite list_find_Some. Qed.

Lemma assoc_find_None k l : assoc_find k l = None ↔ k ∉ (key <$> l).
Proof.
  unfold assoc_find. rewrite list_find_None, Forall_forall, list_elem_of_fmap.
  split; [intros H (y & -> & Hy); by eapply H|intros H y Hy <-; eauto].
Qed.

Lemma assoc_get_None k l : assoc_get k l = None ↔ k ∉ (key <$> l).
Proof. unfold assoc_get. by rewrite fmap_None, assoc_find_None. Qed.

Lemma assoc_get_Some_elem k l a : assoc_get k l = Some a → a ∈ l ∧ key a = k.
Proof.
  unfold assoc_get. intros ([i b] & (Hi & Hk & _)%assoc_find_Some & ->)%fmap_Some.
  split; [|done]. apply list_elem_of_lookup. eauto.
Qed.

Lemma assoc_get_cons k a l :
  assoc_get k (a :: l) = if decide (key a = k) then Some a else assoc_get k l.
Proof.
  unfold assoc_get, assoc_find. simpl. case_decide; [done|].
  by destruct (list_find _ l) as [[]|].
Qed.

Lemma assoc_get_app k l1 l2 :
  assoc_get k (l1 ++ l2) = match assoc_get k l1 with Some a => Some a | None => assoc_get k l2 end.
Proof.
  induction l1 as [|a l1 IH]; simpl; [done|].
  rewrite !assoc_get_cons. by case_decide.
Qed.

(** With distinct keys, every element is the one its key finds. *)
Lemma assoc_get_elem l a :
  NoDup (key <$> l) → a ∈ l → assoc_get (key a) l = Some a.
Proof.
  induction l as [|b l IH]; intros Hnd Ha; [set_solver|].
  rewrite assoc_get_cons. apply NoDup_cons in Hnd as [Hb Hnd].
  apply elem_of_cons in Ha as [->|Ha]; [by rewrite decide_True|].
  rewrite decide_False; [by apply IH|].
  intros E. apply Hb. rewrite E. apply list_elem_of_fmap. eauto.
Qed.

(** Overwriting the element found for [k] with one of the same key. *)
Lemma assoc_get_insert k l i a a' k' :
  assoc_find k l = Some (i, a) → key a' = k →
  assoc_get k' (<[i := a']> l) = if decide (k' = k) then Some a' else assoc_get k' l.
Proof.
  intros (Hi & Hk & Hlt)%assoc_find_Some Hk'.
  revert i Hi Hlt. induction l as [|b l IH]; intros i Hi Hlt; [done|].
  destruct i as [|i]; simplify_eq/=; rewrite !assoc_get_cons.
  - repeat case_decide; congruence.
  - assert (key b ≠ key a) by (eapply (Hlt 0); [done|lia]).
    destruct (decide (key b = k')) as [<-|].
    + by rewrite decide_False.
    + apply IH; [done|]. intros j c Hj ?. eapply (Hlt (S j)); [done|lia].
Qed.

Lemma keys_insert k l i a a' :
  assoc_find k l = Some (i, a) → key a' = k → key <$> <[i := a']> l = key <$> l.
Proof.
  intros (Hi & Hk & _)%assoc_find_Some Hk'.
  rewrite list_fmap_insert. apply list_insert_id. rewrite list_lookup_fmap, Hi. simpl. congruence.
Qed.

(** An element among others of distinct keys. *)
Lemma assoc_get_middle k l1 l2 a :
  NoDup (key <$> l1 ++ a :: l2) →
  assoc_get k (l1 ++ a :: l2) = if decide (key a = k) then Some a else assoc_get k (l1 ++ l2).
Proof.
  rewrite fmap_app, fmap_cons. intros (_ & Hd & _)%NoDup_app.
  rewrite !assoc_get_app, assoc_get_cons. destruct (decide (key a = k)) as [<-|]; [|done].
  assert (assoc_get (key a) l1 = None) as ->; [|done].
  apply assoc_get_None. intros Hin. apply (Hd _ Hin). by left.
Qed.

Lemma keys_middle_NoDup l1 l2 a :
  NoDup (key <$> l1 ++ a :: l2) ↔ key a ∉ (key <$> l1 ++ l2) ∧ NoDup (key <$> l1 ++ l2).
Proof.
  rewrite <-NoDup_cons. rewrite !fmap_app, fmap_cons. by rewrite <-Permutation_middle.
Qed.

(** Removing the element found for [k]. *)
Lemma assoc_get_delete k l i a k' :
  NoDup (key <$> l) → assoc_find k l = Some (i, a) →
  assoc_get k' (delete i l) = if decide (k' = k) then None else assoc_get k' l.
Proof.
  intros Hnd (Hi & Hk & _)%assoc_find_Some.
  revert i Hi. induction l as [|b l IH]; intros i Hi; [done|].
  apply NoDup_cons in Hnd as [Hb Hnd].
  destruct i as [|i]; simplify_eq/=; rewrite ?assoc_get_cons.
  - case_decide; subst; [|by rewrite decide_False].
    by apply assoc_get_None.
  - assert (key b ≠ key a).
    { intros E. apply Hb. rewrite E. apply list_elem_of_fmap. exists a. split; [done|].
      apply list_elem_of_lookup. eauto. }
    destruct (decide (key b = k')) as [<-|]; [by rewrite decide_False|]. by apply IH.
Qed.

Lemma keys_delete l i : key <$> delete i l = delete i (key <$> l).
Proof. revert i. induction l as [|a l IH]; intros [|i]; simpl; [done..|]. f_equal. apply IH. Qed.

Lemma keys_delete_NoDup l i : NoDup (key <$> l) → NoDup (key <$> delete i l).
Proof.
  intros. rewrite keys_delete. eapply sublist_NoDup; [done|]. apply sublist_delete.
Qed.
End assoc.

(** An element of another index survives a deletion. *)
Lemma elem_of_delete_ne {A} (l : list A) (i j : nat) (x : A) :
  i ≠ j → l !! j = Some x → x ∈ delete i l.
Proof.
  intros Hne Hj. apply list_elem_of_lookup. destruct (decide (j < i)).
  - exists j. by rewrite list_lookup_delete_lt.
  - exists (j - 1). rewrite list_lookup_delete_ge by lia. by replace (S (j - 1)) with j by lia.
Qed.

Lemma list_filter_all {A} (P : A → Prop) `{!∀ x, Decision (P x)} (l : list A) :
  Forall P l → filter P l = l.
Proof. induction 1 as [|x l Hx _ IH]; [done|]. rewrite filter_cons_True by done. by rewrite IH. Qed.

(** A filter that keeps as many elements as there are keeps them all. *)
Lemma filter_full {A} (P : A → Prop) `{!∀ x, Decision (P x)} (l : list A) :
  length l ≤ length (filter P l) → Forall P l.
Proof.
  induction l as [|x l IH]; [constructor|]. pose proof (length_filter P l) as Hle.
  destruct (decide (P x)).
  - rewrite filter_cons_True by done. simpl. intros. constructor; [done|]. apply IH. lia.
  - rewrite filter_cons_False by done. simpl. lia.
Qed.

Lemma filter_none {A} (P : A → Prop) `{!∀ x, Decision (P x)} (l : list A) :
  Forall (λ x, ¬ P x) l → filter P l = [].
Proof. induction 1; [done|]. by rewrite filter_cons, decide_False. Qed.

(** Replacing an element that is kept by one that is not drops one. *)
Lemma filter_insert_out {A} (P : A → Prop) `{!∀ x, Decision (P x)} (l : list A) i x y :
  l !! i = Some x → P x → ¬ P y → length (filter P l) = S (length (filter P (<[i := y]> l))).
Proof.
  intros Hi Hx Hy. rewrite <-(take_drop_middle _ _ _ Hi) at 1.
  rewrite (insert_take_drop _ _ _ (lookup_lt_Some _ _ _ Hi)), !filter_app, !filter_cons.
  rewrite decide_True, decide_False by done. rewrite !length_app. simpl. lia.
Qed.

Lemma elem_of_insert_inv {A} (l : list A) i x y : x ∈ <[i := y]> l → x = y ∨ x ∈ l.
Proof.
  rewrite !list_elem_of_lookup. intros [j Hj]. rewrite list_lookup_insert in Hj.
  case_decide; [left; congruence|right; by exists j].
Qed.

Lemma length_concat_const {A} (n : nat) (ls : list (list A)) :
  Forall (λ l, length l = n) ls → length (concat ls) = length ls * n.
Proof. induction 1 as [|l ls Hl _ IH]; [done|]. simpl. rewrite length_app. lia. Qed.

(** ** Sums of integers over a list *)

Definition zsum {A} (f : A → Z) (l : list A) : Z := foldr (λ x s, (f x + s)%Z) 0%Z l.

Lemma zsum_insert {A} (f : A → Z) (l : list A) i x y :
  l !! i = Some x → zsum f (<[i := y]> l) = (zsum f l - f x + f y)%Z.
Proof.
  revert i. induction l as [|z l IH]; intros [|i] Hi; simplify_eq/=; [lia|].
  rewrite IH by done. lia.
Qed.

Lemma zsum_nonneg {A} (f : A → Z) (l : list A) : (∀ x, 0 ≤ f x)%Z → (0 ≤ zsum f l)%Z.
Proof. intros Hf. induction l as [|x l IH]; simpl; [lia|]. specialize (Hf x). lia. Qed.

Lemma zsum_zero {A} (f : A → Z) (l : list A) i x :
  (∀ x, 0 ≤ f x)%Z → zsum f l = 0%Z → l !! i = Some x → f x = 0%Z.
Proof.
  intros Hf. revert i. induction l as [|y l IH]; intros [|i] Hs Hi; simplify_eq/=;
    pose proof (zsum_nonneg f l Hf).
  - specialize (Hf x). lia.
  - apply (IH i); [|done]. specialize (Hf y). lia.
Qed.

Lemma zsum_ext {A} (f g : A → Z) (l : list A) :
  (∀ i x, l !! i = Some x → f x = g x) → zsum f l = zsum g l.
Proof.
  induction l as [|x l IH]; intros Hfg; simpl; [done|]. rewrite (Hfg 0 x eq_refl), IH; [done|].
  intros i y. apply (Hfg (S i)).
Qed.

(** ** The values an array's elements point to *)

Section omap.
Context {A B : Type} (f : A → option B).
Implicit Types (l : list A).

Lemma omap_insert_elem l i y b :
  b ∈ omap f (<[i := y]> l) → b ∈ omap f l ∨ f y = Some b.
Proof.
  rewrite !list_elem_of_omap. intros (x & Hx & Hb).
  apply list_elem_of_lookup in Hx as [j Hj].
  apply list_lookup_insert_Some in Hj as [(_ & <- & _)|[_ Hj]]; [by right|left].
  exists x. split; [by eapply list_elem_of_lookup_2|done].
Qed.

Lemma omap_insert_NoDup l i y :
  NoDup (omap f l) → (∀ b, f y = Some b → b ∉ omap f l) → NoDup (omap f (<[i := y]> l)).
Proof.
  revert i. induction l as [|x l IH]; intros [|i] Hnd Hy; simpl in *; [done..| |].
  - assert (NoDup (omap f l)) by (destruct (f x); [by apply NoDup_cons in Hnd as [_ ?]|done]).
    destruct (f y) as [b|]; [|done]. apply NoDup_cons. split; [|done].
    specialize (Hy b eq_refl). destruct (f x); set_solver.
  - destruct (f x) as [b|] eqn:Hx.
    + apply NoDup_cons in Hnd as [Hb Hnd]. apply NoDup_cons. split.
      * intros [?|Hyb]%omap_insert_elem; [done|]. by apply (Hy b); set_solver.
      * apply IH; [done|]. intros c ?%Hy. set_solver.
    + apply IH; done.
Qed.

Lemma sublist_omap l1 l2 : l1 `sublist_of` l2 → omap f l1 `sublist_of` omap f l2.
Proof.
  induction 1 as [|x l1 l2 _ IH|x l1 l2 _ IH]; simpl; [done| |];
    destruct (f x); by repeat constructor.
Qed.

Lemma omap_delete_not_elem l i x b :
  NoDup (omap f l) → l !! i = Some x → f x = Some b → b ∉ omap f (delete i l).
Proof.
  revert i. induction l as [|y l IH]; intros [|i] Hnd Hi Hb; simplify_eq/=.
  - rewrite Hb in Hnd. by apply NoDup_cons in Hnd as [? _].
  - change (delete (S i) (y :: l)) with (y :: delete i l). simpl.
    destruct (f y) as [c|] eqn:Hy; [|by eapply IH].
    apply NoDup_cons in Hnd as [Hc Hnd]. apply not_elem_of_cons. split; [|by eapply IH].
    intros ->. apply Hc, list_elem_of_omap. exists x. split; [by eapply list_elem_of_lookup_2|done].
Qed.
End omap.
