(* ===== verification/Memory.v ===== *)
(** * The allocator

    [malloc]/[calloc]/[free] as explicit state passing.  A memory holds the live
    blocks of one kind (fragment arrays, RPC contexts, ...); an oracle decides
    which allocations fail.  [None] is undefined behaviour: a [free] or an access
    of a block that is not live. *)
From S2P Require Import Prelude.
From stdpp Require Import options.

(** Whether the [n]-th allocation of the run succeeds. *)
Class AllocOracle := alloc_ok : nat → bool.

(** The oracle of a machine that never runs out of memory. *)
Definition no_oom : AllocOracle := λ _, true.

Record mem (A : Type) := Mem {
  mem_next : nat;
  mem_cells : gmap nat A
}.
Arguments Mem {A}.
Arguments mem_next {A}.
Arguments mem_cells {A}.

Definition mem_empty {A} : mem A := Mem 0 ∅.

(** A computation over a memory; [None] is undefined behaviour. *)
Definition M (A T : Type) : Type := mem A → option (T * mem A).

#[export] Instance M_ret A : MRet (M A) := λ T x h, Some (x, h).
#[export] Instance M_bind A : MBind (M A) := λ T U f m h,
  match m h with Some (x, h') => f x h' | None => None end.

(** Undefined behaviour. *)
Definition undefined {A T} : M A T := λ _, None.

Lemma M_bind_Some {A T U} (m : M A T) (f : T → M A U) h x h' :
  m h = Some (x, h') → (m ≫= f) h = f x h'.
Proof. unfold mbind, M_bind. by intros ->. Qed.

Section alloc.
Context {O : AllocOracle} {A : Type}.

(** [malloc]: a fresh block holding [a], or [NULL]. *)
Definition malloc (a : A) : M A (option nat) := λ h,
  let n := mem_next h in
  if alloc_ok n then Some (Some n, Mem (S n) (<[n := a]> (mem_cells h)))
  else Some (None, Mem (S n) (mem_cells h)).

(** An allocation whose block the model does not track: only its outcome. *)
Definition try_alloc : M A bool := λ h,
  Some (alloc_ok (mem_next h), Mem (S (mem_next h)) (mem_cells h)).

(** [free(p)]; [free(NULL)] does nothing. *)
Definition mfree (p : option nat) : M A unit := λ h,
  match p with
  | None => Some (tt, h)
  | Some l =>
      match mem_cells h !! l with
      | Some _ => Some (tt, Mem (mem_next h) (delete l (mem_cells h)))
      | None => None
      end
  end.

(** Read through a pointer. *)
Definition mload (l : nat) : M A A := λ h, (λ a, (a, h)) <$> mem_cells h !! l.

(** Write through a pointer. *)
Definition mstore (l : nat) (a : A) : M A unit := λ h,
  match mem_cells h !! l with
  | Some _ => Some (tt, Mem (mem_next h) (<[l := a]> (mem_cells h)))
  | None => None
  end.
End alloc.

(** Every live block was allocated before. *)
Definition mem_wf {A} (h : mem A) : Prop := ∀ l, is_Some (mem_cells h !! l) → l < mem_next h.

Section laws.
Context {O : AllocOracle} {A : Type}.
Implicit Types (h : mem A) (a : A) (l : nat).

(** On a concrete memory, well-formedness is decided by computation. *)
Lemma mem_wf_bool h :
  bool_decide (map_Forall (λ l _, l < mem_next h) (mem_cells h)) = true → mem_wf h.
Proof. intros H%bool_decide_eq_true l [a Ha]. by eapply H. Qed.

Lemma mem_wf_empty : mem_wf (mem_empty (A := A)).
Proof. intros l [a Ha]. simpl in Ha. by rewrite lookup_empty in Ha. Qed.

Lemma mem_wf_fresh h : mem_wf h → mem_cells h !! mem_next h = None.
Proof.
  intros Hwf. destruct (mem_cells h !! mem_next h) eqn:E; [|done].
  specialize (Hwf (mem_next h)). rewrite E in Hwf. specialize (Hwf ltac:(eauto)). lia.
Qed.

Lemma mem_wf_insert h n a : mem_wf h → n = mem_next h → mem_wf (Mem (S n) (<[n := a]> (mem_cells h))).
Proof.
  intros Hwf -> l. simpl. rewrite lookup_insert. case_decide; [lia|].
  intros ?%Hwf. lia.
Qed.

Lemma mem_wf_tick h n : mem_wf h → n = mem_next h → mem_wf (Mem (S n) (mem_cells h)).
Proof. intros Hwf -> l ?%Hwf. simpl. lia. Qed.

Lemma mem_wf_delete h l : mem_wf h → mem_wf (Mem (mem_next h) (delete l (mem_cells h))).
Proof.
  intros Hwf l'. simpl. rewrite lookup_delete. case_decide; [by intros []|]. apply Hwf.
Qed.

Lemma mfree_live h l a :
  mem_cells h !! l = Some a →
  mfree (Some l) h = Some (tt, Mem (mem_next h) (delete l (mem_cells h))).
Proof. simpl. by intros ->. Qed.

Lemma mfree_defined p h h' :
  mfree p h = Some (tt, h') → mem_next h' = mem_next h ∧
    mem_cells h' = match p with Some l => delete l (mem_cells h) | None => mem_cells h end.
Proof.
  destruct p as [l|]; simpl; [|by intros [= <-]].
  destruct (mem_cells h !! l); [|done]. by intros [= <-].
Qed.
End laws.

(** The same laws for memories written as records, as symbolic execution leaves them. *)
Section records.
Context {A : Type}.
Implicit Types (n : nat) (cs : gmap nat A).

Lemma mem_wf_record (h : mem A) : mem_wf h → mem_wf (Mem (mem_next h) (mem_cells h)).
Proof. by destruct h. Qed.
Lemma mem_wf_del n cs l : mem_wf (Mem n cs) → mem_wf (Mem n (delete l cs)).
Proof. apply (mem_wf_delete (Mem n cs)). Qed.
Lemma mem_wf_ins n cs a : mem_wf (Mem n cs) → mem_wf (Mem (S n) (<[n := a]> cs)).
Proof. intros H. by apply (mem_wf_insert (Mem n cs)). Qed.
Lemma mem_wf_skip n cs : mem_wf (Mem n cs) → mem_wf (Mem (S n) cs).
Proof. intros H. by apply (mem_wf_tick (Mem n cs)). Qed.
Lemma mem_wf_set n cs l a : is_Some (cs !! l) → mem_wf (Mem n cs) → mem_wf (Mem n (<[l := a]> cs)).
Proof.
  intros Hl H k. simpl. rewrite lookup_insert. case_decide as Hk; [|apply H].
  intros _. apply H. by rewrite <-Hk.
Qed.
Lemma mem_wf_above n cs l : mem_wf (Mem n cs) → n ≤ l → cs !! l = None.
Proof.
  intros H Hl. destruct (cs !! l) eqn:E; [|done]. specialize (H l). simpl in H. rewrite E in H.
  specialize (H ltac:(eauto)). lia.
Qed.
End records.

(** Well-formedness of a memory reached by allocations and frees. *)
Ltac solve_wf :=
  repeat first [apply mem_wf_del | apply mem_wf_ins | apply mem_wf_skip];
  first [assumption | apply mem_wf_record; assumption].

#[export] Hint Resolve mem_wf_empty mem_wf_insert mem_wf_tick mem_wf_delete : lfs.

(** Run the monad operations at the head of a goal. *)
Ltac m_simpl := unfold mbind, mret, M_bind, M_ret; simpl.
Tactic Notation "m_simpl" "in" hyp(H) := unfold mbind, mret, M_bind, M_ret in H; simpl in H.
