(* ===== verification/Triples.v ===== *)
(** * Triples over the allocator

    A computation of [Memory.v] with the blocks it owns before and after: whatever else is
    live is left alone, so owning nothing at the end means having freed everything.  The
    footprint is the map of the heap_of blocks itself, and composition is the disjoint union
    of maps. *)
From S2P Require Import Prelude Memory.
From stdpp Require Import options.

Section triples.
Context {O : AllocOracle} {A : Type}.
Implicit Types (h : mem A) (P F R : gmap nat A) (a : A) (l : nat).

(** From the blocks [P] the computation is defined and ends with [x] and blocks [P'] such
    that [Q x P']. *)
Definition triple {T} P (m : M A T) (Q : T → gmap nat A → Prop) : Prop :=
  ∀ h F, mem_wf h → mem_cells h = P ∪ F → P ##ₘ F →
  ∃ x h' P', m h = Some (x, h') ∧ mem_wf h' ∧ mem_cells h' = P' ∪ F ∧ P' ##ₘ F ∧ Q x P'.

Lemma triple_ret {T} P (x : T) (Q : T → gmap nat A → Prop) : Q x P → triple P (mret x) Q.
Proof. intros HQ h F Hwf Hc Hd. exists x, h, P. by split_and!. Qed.

Lemma triple_bind {T U} P (m : M A T) (f : T → M A U) (I : T → gmap nat A → Prop) (Q : U → gmap nat A → Prop) :
  triple P m I → (∀ x P', I x P' → triple P' (f x) Q) → triple P (m ≫= f) Q.
Proof.
  intros Hm Hf h F Hwf Hc Hd. destruct (Hm h F) as (x & h1 & P1 & Hr & Hwf1 & Hc1 & Hd1 & HR); [done..|].
  rewrite (M_bind_Some _ _ _ _ _ Hr). by apply (Hf x P1).
Qed.

Lemma triple_mono {T} P (m : M A T) (Q Q' : T → gmap nat A → Prop) :
  triple P m Q → (∀ x P', Q x P' → Q' x P') → triple P m Q'.
Proof. intros Hm HQ h F Hwf Hc Hd. destruct (Hm h F) as (x & h1 & P1 & ? & ? & ? & ? & ?); [done..|].
  exists x, h1, P1. split_and!; auto. Qed.

(** What every run of the computation returns. *)
Lemma triple_and {T} P (m : M A T) (Q : T → gmap nat A → Prop) (R : T → Prop) :
  triple P m Q → (∀ h x h', m h = Some (x, h') → R x) → triple P m (λ x P', Q x P' ∧ R x).
Proof.
  intros Hm HR h F Hwf Hc Hd. destruct (Hm h F) as (x & h1 & P1 & ? & ? & ? & ? & ?); [done..|].
  exists x, h1, P1. split_and!; eauto.
Qed.

(** Two triples of one run: it has one result, and leaves one footprint. *)
Lemma triple_conj {T} P (m : M A T) (Q Q' : T → gmap nat A → Prop) :
  triple P m Q → triple P m Q' → triple P m (λ x P', Q x P' ∧ Q' x P').
Proof.
  intros H1 H2 h F Hwf Hc Hd. destruct (H1 h F) as (x & h1 & P1 & Hr & Hwf1 & Hc1 & Hd1 & HQ); [done..|].
  destruct (H2 h F) as (x2 & h2 & P2 & Hr2 & _ & Hc2 & Hd2 & HQ'); [done..|].
  rewrite Hr in Hr2. injection Hr2 as <- <-. rewrite Hc1 in Hc2. apply map_union_cancel_r in Hc2 as <-; [|done..].
  by exists x, h1, P1.
Qed.

(** The frame rule. *)
Lemma triple_frame {T} P R (m : M A T) (Q : T → gmap nat A → Prop) :
  triple P m Q → P ##ₘ R → triple (P ∪ R) m (λ x P', ∃ P0, P' = P0 ∪ R ∧ P0 ##ₘ R ∧ Q x P0).
Proof.
  intros Hm HR h F Hwf Hc Hd. apply map_disjoint_union_l in Hd as [HPF HRF].
  destruct (Hm h (R ∪ F)) as (x & h1 & P1 & Hrun & Hwf1 & Hc1 & Hd1 & HQ).
  - done.
  - by rewrite (assoc_L (∪)).
  - by apply map_disjoint_union_r.
  - apply map_disjoint_union_r in Hd1 as [? ?]. exists x, h1, (P1 ∪ R). split_and!; [done|done| | |].
    + by rewrite <-(assoc_L (∪)).
    + by apply map_disjoint_union_l.
    + by exists P1.
Qed.

(** The frame rule for one block. *)
Lemma triple_frame_cell {T} P l a (m : M A T) (Q : T → gmap nat A → Prop) :
  P !! l = None → triple P m Q → triple (<[l := a]> P) m (λ x P', ∃ P0, P' = <[l := a]> P0 ∧ P0 !! l = None ∧ Q x P0).
Proof.
  intros Hl Hm. assert (∀ P0, P0 !! l = None → <[l := a]> P0 = P0 ∪ <[l := a]> ∅) as Heq.
  { intros P0 ?. by rewrite <-insert_union_r, (right_id_L ∅ (∪)). }
  rewrite Heq by done. eapply triple_mono; [apply triple_frame; [exact Hm|by apply map_disjoint_insert_r_2; [|apply map_disjoint_empty_r]]|].
  intros x ? (P0 & -> & Hd & HQ). pose proof (map_disjoint_Some_r _ _ l _ Hd (lookup_insert_eq _ _ _)). exists P0.
  split_and!; [symmetry; by apply Heq|done..].
Qed.

Lemma triple_malloc P a (Q : option nat → gmap nat A → Prop) :
  (∀ l, P !! l = None → Q (Some l) (<[l := a]> P)) → Q None P → triple P (malloc a) Q.
Proof.
  intros Hs Hn h F Hwf Hc Hd. unfold malloc. pose proof (mem_wf_fresh h Hwf) as Hf. rewrite Hc in Hf.
  apply lookup_union_None in Hf as [HfP HfF]. case_match.
  - eexists _, _, (<[mem_next h := a]> P). split_and!; [done| | | |by apply Hs].
    + by apply mem_wf_insert.
    + simpl. by rewrite Hc, insert_union_l.
    + by apply map_disjoint_insert_l_2.
  - eexists _, _, P. split_and!; [done|by apply mem_wf_tick|done..].
Qed.

(** A failing allocation is the oracle's. *)
Lemma triple_malloc_fail P a (Q : option nat → gmap nat A → Prop) :
  (∀ l, P !! l = None → Q (Some l) (<[l := a]> P)) → ((∃ n, alloc_ok n = false) → Q None P) → triple P (malloc a) Q.
Proof.
  intros Hs Hn h F Hwf Hc Hd.
  destruct (triple_malloc P a (λ p P', p ≠ None ∧ Q p P' ∨ p = None ∧ P' = P)) with (h := h) (F := F)
    as (p & h' & P' & Hr & ? & ? & ? & HQ); [auto|auto|done..|].
  exists p, h', P'. split_and!; [done..|]. destruct HQ as [[_ ?]|[-> ->]]; [done|]. apply Hn. exists (mem_next h).
  unfold malloc in Hr. by destruct (alloc_ok (mem_next h)).
Qed.

(** When allocations succeed. *)
Lemma triple_malloc_ok P a (Q : option nat → gmap nat A → Prop) :
  (∀ n, alloc_ok n = true) → (∀ l, P !! l = None → Q (Some l) (<[l := a]> P)) → triple P (malloc a) Q.
Proof.
  intros Hok Hs h F Hwf Hc Hd.
  destruct (triple_malloc P a (λ p P', p ≠ None → Q p P')) with (h := h) (F := F) as (p & h' & P' & Hr & ? & ? & ? & HQ);
    [auto|done..|].
  exists p, h', P'. split_and!; [done..|]. apply HQ. intros ->. unfold malloc in Hr. by rewrite Hok in Hr.
Qed.

Lemma triple_try_alloc_ok P (Q : bool → gmap nat A → Prop) :
  (∀ n, alloc_ok n = true) → Q true P → triple P try_alloc Q.
Proof. intros Hok HQ h F Hwf Hc Hd. eexists _, _, P. rewrite <-(Hok (mem_next h)) in HQ. split_and!; [done|by apply mem_wf_tick|done..]. Qed.

Lemma triple_try_alloc_fail P (Q : bool → gmap nat A → Prop) :
  Q true P → ((∃ n, alloc_ok n = false) → Q false P) → triple P try_alloc Q.
Proof.
  intros Ht Hf h F Hwf Hc Hd. eexists _, _, P. split_and!; [done|by apply mem_wf_tick|done|done|].
  destruct (alloc_ok (mem_next h)) eqn:Hok; [done|]. by apply Hf; eexists.
Qed.

Lemma triple_try_alloc_ask P (Q : bool → gmap nat A → Prop) : (∀ n, Q (alloc_ok n) P) → triple P try_alloc Q.
Proof. intros HQ h F Hwf Hc Hd. eexists _, _, P. split_and!; [done|by apply mem_wf_tick|done|done|apply HQ]. Qed.

Lemma triple_try_alloc P (Q : bool → gmap nat A → Prop) : (∀ b, Q b P) → triple P try_alloc Q.
Proof. intros HQ h F Hwf Hc Hd. eexists _, _, P. split_and!; [done|by apply mem_wf_tick|done|done|apply HQ]. Qed.

Lemma triple_free_null P (Q : unit → gmap nat A → Prop) : Q tt P → triple P (mfree None) Q.
Proof. intros HQ h F Hwf Hc Hd. by exists tt, h, P. Qed.

Lemma triple_free P l (Q : unit → gmap nat A → Prop) :
  is_Some (P !! l) → Q tt (delete l P) → triple P (mfree (Some l)) Q.
Proof.
  intros [a Ha] HQ h F Hwf Hc Hd. pose proof (map_disjoint_Some_l _ _ _ _ Hd Ha) as HF.
  assert (mem_cells h !! l = Some a) as Hl by (rewrite Hc; by apply lookup_union_Some_l).
  eexists _, _, (delete l P). split_and!; [by rewrite (mfree_live _ _ _ Hl)|by apply mem_wf_delete| | |done].
  - simpl. rewrite Hc, delete_union. by rewrite (delete_id F).
  - by apply map_disjoint_delete_l.
Qed.

Lemma triple_load P l a (Q : A → gmap nat A → Prop) : P !! l = Some a → Q a P → triple P (mload l) Q.
Proof.
  intros Ha HQ h F Hwf Hc Hd. exists a, h, P. split_and!; [|done..].
  unfold mload. rewrite Hc. by rewrite (lookup_union_Some_l _ _ _ _ Ha).
Qed.

Lemma triple_store P l a (Q : unit → gmap nat A → Prop) :
  is_Some (P !! l) → Q tt (<[l := a]> P) → triple P (mstore l a) Q.
Proof.
  intros [b Hb] HQ h F Hwf Hc Hd. pose proof (map_disjoint_Some_l _ _ _ _ Hd Hb) as HF.
  assert (mem_cells h !! l = Some b) as Hl by (rewrite Hc; by apply lookup_union_Some_l).
  unfold mstore. rewrite Hl. eexists _, _, (<[l := a]> P). split_and!; [done| | | |done].
  - destruct h as [n cs]. apply mem_wf_set; [by rewrite Hl|done].
  - simpl. by rewrite Hc, insert_union_l.
  - by apply map_disjoint_insert_l_2.
Qed.

(** ** Blocks heap_of piece by piece *)

(** [P] is the disjoint union of the pieces. *)
Fixpoint sep (ms : list (gmap nat A)) P : Prop :=
  match ms with
  | [] => P = ∅
  | M :: ms => ∃ R, P = M ∪ R ∧ M ##ₘ R ∧ sep ms R
  end.

Lemma sep_perm ms ms' : ms ≡ₚ ms' → ∀ P, sep ms P → sep ms' P.
Proof.
  induction 1 as [|M ms ms' _ IH|M N ms|ms ms' ms'' _ IH1 _ IH2]; intros P; [done| | |eauto].
  - intros (R & -> & ? & ?). exists R. auto.
  - intros (R & -> & HM & R' & -> & HN & Hl). apply map_disjoint_union_r in HM as [HMN HMR].
    exists (N ∪ R'). split_and!.
    + by rewrite !(assoc_L (∪)), (map_union_comm M N).
    + apply map_disjoint_union_r. split; [by symmetry|done].
    + by exists R'.
Qed.

(** The order of the pieces does not matter, so they can be rewritten. *)
#[global] Instance sep_proper : Proper ((≡ₚ) ==> (=) ==> iff) sep.
Proof. intros ms ms' Hms P ? <-. split; apply sep_perm; by rewrite Hms. Qed.

(** A piece to the front and back. *)
Lemma sep_pull i ms N P : ms !! i = Some N → sep ms P → sep (N :: delete i ms) P.
Proof. intros Hi. by apply sep_perm, delete_Permutation. Qed.
Lemma sep_put i ms N P : ms !! i = Some N → sep (N :: delete i ms) P → sep ms P.
Proof. intros Hi. apply sep_perm. symmetry. by apply delete_Permutation. Qed.

(** A piece changed in its place. *)
Lemma sep_update i ms N N' P : ms !! i = Some N → sep (N' :: delete i ms) P → sep (<[i := N']> ms) P.
Proof.
  intros Hi. apply sep_perm. rewrite (delete_Permutation (<[i := N']> ms) i N').
  - f_equiv. revert i Hi. induction ms as [|M ms IH]; intros [|i] Hi; simpl in *; [done..|]. f_equiv. by apply IH.
  - apply list_lookup_insert_eq. by eapply lookup_lt_Some.
Qed.

Lemma sep_empty ms P : sep ms P → sep (∅ :: ms) P.
Proof. intros H. exists P. split_and!; [by rewrite (left_id_L ∅ (∪))|apply map_disjoint_empty_l|done]. Qed.

Lemma sep_drop_empty ms P : sep (∅ :: ms) P → sep ms P.
Proof. intros (R & -> & _ & H). by rewrite (left_id_L ∅ (∪)). Qed.

Lemma sep_second_empty M P : sep [M; ∅] P ↔ sep [M] P.
Proof.
  split; intros H.
  - by apply sep_drop_empty, (sep_perm [M; ∅]); [apply Permutation_swap|].
  - apply (sep_perm [∅; M]); [apply Permutation_swap|by apply sep_empty].
Qed.

(** Two pieces as one. *)
Lemma sep_group M N ms P : sep (M :: N :: ms) P → ∃ R, sep [M; N] R ∧ sep (R :: ms) P.
Proof.
  intros (R & -> & HM & R' & -> & HN & Hs). apply map_disjoint_union_r in HM as [HMN HMR]. exists (M ∪ N). split.
  - exists N. split_and!; [done..|]. exists ∅. split_and!; [by rewrite (right_id_L ∅ (∪))|apply map_disjoint_empty_r|done].
  - exists R'. split_and!; [by rewrite (assoc_L (∪))|by apply map_disjoint_union_l|done].
Qed.

Lemma sep_single P : sep [P] P.
Proof. exists ∅. split_and!; [by rewrite (right_id_L ∅ (∪))|apply map_disjoint_empty_r|done]. Qed.

(** The frame rule by pieces. *)
Lemma triple_sep {T} N ms P (m : M A T) (Q : T → gmap nat A → Prop) :
  sep (N :: ms) P → triple N m Q → triple P m (λ x P', ∃ N', sep (N' :: ms) P' ∧ Q x N').
Proof.
  intros (R & -> & HMR & Hl) Hm. eapply triple_mono; [by apply triple_frame|].
  intros x ? (M' & -> & ? & ?). exists M'. split; [|done]. by exists R.
Qed.

Lemma triple_sep_malloc ms P a : sep ms P →
  triple P (malloc a) (λ p P', match p with
    | Some n => sep ({[n := a]} :: ms) P'
    | None => sep ms P' ∧ ∃ n, alloc_ok n = false end).
Proof.
  intros Hl. eapply triple_mono.
  - apply (triple_sep ∅ ms); [by apply sep_empty|].
    apply (triple_malloc_fail _ _ (λ p M', match p with Some n => M' = {[n := a]} | None => M' = ∅ ∧ ∃ n, alloc_ok n = false end)); auto.
  - intros [n|] P' (M' & Hs & HM'); [by subst|]. destruct HM' as [-> ?]. split; [by apply sep_drop_empty|done].
Qed.

Lemma triple_sep_free n a ms P : sep ({[n := a]} :: ms) P → triple P (mfree (Some n)) (λ _ P', sep ms P').
Proof.
  intros Hl. eapply triple_mono; [eapply triple_sep; [exact Hl|]|].
  - apply (triple_free _ _ (λ _ M', M' = ∅)); [by rewrite lookup_singleton_eq|apply delete_singleton_eq].
  - intros _ P' (M' & Hs & ->). by apply sep_drop_empty.
Qed.

Lemma triple_sep_store n a b ms P :
  sep ({[n := a]} :: ms) P → triple P (mstore n b) (λ _ P', sep ({[n := b]} :: ms) P').
Proof.
  intros Hs. eapply triple_mono; [eapply triple_sep; [exact Hs|]|].
  - apply (triple_store _ _ _ (λ _ M, M = {[n := b]})); [by rewrite lookup_singleton_eq|apply insert_singleton_eq].
  - by intros ? P' (M & Hs' & ->).
Qed.

Lemma sep_lookup n a ms P : sep ({[n := a]} :: ms) P → P !! n = Some a.
Proof. intros (R & -> & _ & _). apply lookup_union_Some_l. by rewrite lookup_singleton_eq. Qed.

(** Distinct pieces hold distinct blocks. *)
Lemma sep_ne n n' a a' ms P : sep ({[n := a]} :: {[n' := a']} :: ms) P → n ≠ n'.
Proof.
  intros (R & _ & Hd & R' & -> & _ & _) ->. apply map_disjoint_union_r in Hd as [Hd _].
  by apply map_disjoint_singleton_l in Hd; rewrite lookup_singleton_eq in Hd.
Qed.

(** A triple that ends owning nothing is a run that leaks nothing. *)
Lemma triple_run {T} P (m : M A T) (Q : T → gmap nat A → Prop) h F :
  triple P m Q → mem_wf h → mem_cells h = P ∪ F → P ##ₘ F →
  ∃ x h' P', m h = Some (x, h') ∧ mem_wf h' ∧ mem_cells h' = P' ∪ F ∧ P' ##ₘ F ∧ Q x P'.
Proof. intros Ht. apply Ht. Qed.

(** A run over the whole heap. *)
Lemma triple_whole {T} (m : M A T) (Q : T → gmap nat A → Prop) h :
  triple (mem_cells h) m Q → mem_wf h → ∃ x h', m h = Some (x, h') ∧ mem_wf h' ∧ Q x (mem_cells h').
Proof.
  intros Hm Hwf. destruct (Hm h ∅ Hwf) as (x & h' & P' & Hr & Hwf' & Hc & _ & HQ).
  - by rewrite (right_id_L ∅ (∪)).
  - apply map_disjoint_empty_r.
  - rewrite (right_id_L ∅ (∪)) in Hc. subst P'. by exists x, h'.
Qed.

(** A run that works on one piece of the whole heap. *)
Lemma triple_sep_run {T} N ms (m : M A T) (Q : T → gmap nat A → Prop) h :
  triple N m Q → mem_wf h → sep (N :: ms) (mem_cells h) →
  ∃ x h' N', m h = Some (x, h') ∧ mem_wf h' ∧ sep (N' :: ms) (mem_cells h') ∧ Q x N'.
Proof.
  intros Hm Hwf Hsep. destruct (triple_sep N ms _ m Q Hsep Hm h ∅) as (x & h' & P' & Hr & Hwf' & Hc & _ & N' & Hs & HQ).
  - done.
  - by rewrite (right_id_L ∅ (∪)).
  - apply map_disjoint_empty_r.
  - rewrite (right_id_L ∅ (∪)) in Hc. subst P'. by exists x, h', N'.
Qed.

(** A heap that is exactly the blocks of some items, in any order. *)
Definition heap_of {I} (ok : I → gmap nat A → Prop) (items : list I) (h : mem A) : Prop :=
  mem_wf h ∧ ∃ ms, Forall2 ok items ms ∧ sep ms (mem_cells h).

Lemma heap_of_perm {I} (ok : I → gmap nat A → Prop) items items' h : items ≡ₚ items' → heap_of ok items h → heap_of ok items' h.
Proof.
  intros Hp [Hwf (ms & Hok & Hs)]. split; [done|].
  assert (∃ ms', ms ≡ₚ ms' ∧ Forall2 ok items' ms') as (ms' & Hms & Hok'); [|exists ms'; split; [done|by eapply sep_perm]].
  clear -Hp Hok. revert ms Hok. induction Hp as [|x l l' _ IH|x y l|l l' l'' _ IH1 _ IH2]; intros ms Hok.
  - by exists ms.
  - inversion Hok as [|? N ? ms0 Hx Hl]; subst. destruct (IH _ Hl) as (ms' & Hp & Hl').
    exists (N :: ms'). split; [by rewrite Hp|by constructor].
  - inversion Hok as [|? N ? ms0 Hx Hl]; subst. inversion Hl as [|? N' ? ms1 Hy Hl']; subst.
    exists (N' :: N :: ms1). split; [constructor|by repeat constructor].
  - destruct (IH1 _ Hok) as (ms' & Hp & Hl'). destruct (IH2 _ Hl') as (ms'' & Hp' & Hl''). exists ms''. split; [by etrans|done].
Qed.

Lemma heap_of_mono {I} (ok ok' : I → gmap nat A → Prop) items h :
  (∀ i N, ok i N → ok' i N) → heap_of ok items h → heap_of ok' items h.
Proof. intros Hi [Hwf (ms & Hok & Hs)]. split; [done|]. exists ms. split; [by eapply Forall2_impl|done]. Qed.

(** A heap that is the blocks of some items and [N]. *)
Definition heap_with {I} (ok : I → gmap nat A → Prop) (items : list I) N h : Prop :=
  mem_wf h ∧ ∃ ms, Forall2 ok items ms ∧ sep (N :: ms) (mem_cells h).

Lemma heap_of_open {I} (ok : I → gmap nat A → Prop) i items h : heap_of ok (i :: items) h → ∃ N, ok i N ∧ heap_with ok items N h.
Proof.
  intros [Hwf (ms & (N & ms' & HN & Hl & ->)%Forall2_cons_inv_l & Hs)]. exists N. split; [done|]. split; [done|]. by exists ms'.
Qed.

Lemma heap_of_empty {I} (ok : I → gmap nat A → Prop) items h : heap_with ok items ∅ h ↔ heap_of ok items h.
Proof.
  split; intros [Hwf (ms & Hok & Hs)]; (split; [done|]); exists ms; (split; [done|]); [by apply sep_drop_empty|by apply sep_empty].
Qed.

Lemma heap_of_close {I} (ok : I → gmap nat A → Prop) i items N h : heap_with ok items N h → ok i N → heap_of ok (i :: items) h.
Proof. intros [Hwf (ms & Hok & Hs)] HN. split; [done|]. exists (N :: ms). split; [by constructor|done]. Qed.

Lemma heap_with_mono {I} (ok ok' : I → gmap nat A → Prop) items N h :
  (∀ i N, ok i N → ok' i N) → heap_with ok items N h → heap_with ok' items N h.
Proof. intros Hi [Hwf (ms & Hok & Hs)]. split; [done|]. exists ms. split; [by eapply Forall2_impl|done]. Qed.

(** A run next to the blocks of the items. *)
Lemma heap_of_run {I T} (ok : I → gmap nat A → Prop) items N h (m : M A T) (Q : T → gmap nat A → Prop) :
  triple N m Q → heap_with ok items N h → ∃ x h' N', m h = Some (x, h') ∧ Q x N' ∧ heap_with ok items N' h'.
Proof.
  intros Hm [Hwf (ms & Hok & Hs)]. destruct (triple_sep_run N ms m Q h Hm Hwf Hs) as (x & h' & N' & Hr & Hwf' & Hs' & HQ).
  exists x, h', N'. split; [done|]. split; [done|]. split; [done|]. by exists ms.
Qed.

(** As many blocks as the items have. *)
Lemma heap_of_size {I} (ok : I → gmap nat A → Prop) (blocks : I → nat) items h :
  (∀ i N, ok i N → size N = blocks i) → heap_of ok items h → size (mem_cells h) = sum_list_with blocks items.
Proof.
  intros Hone [_ (ms & Hok & Hs)]. revert Hs. generalize (mem_cells h) as P.
  induction Hok as [|i N items ms HN _ IH]; intros P.
  - by intros ->.
  - intros (R & -> & Hd & Hs). rewrite map_size_disj_union by done. simpl. by rewrite (Hone _ _ HN), (IH _ Hs).
Qed.
End triples.

(** Appended lists in another order, the last one in its place. *)
Ltac solve_app_perm :=
  rewrite <-?(assoc_L (++));
  repeat first
    [ reflexivity
    | match goal with |- ?a ++ _ ≡ₚ _ =>
        repeat match goal with |- _ ≡ₚ ?rhs =>
          match rhs with context [?x ++ a ++ ?y] => rewrite (Permutation_app_swap_app x a y) end end;
        apply Permutation_app_head
      end ].

(** A separation that only orders the pieces of a known one differently. *)
Ltac sep_reorder H := eapply sep_perm; [|exact H]; solve_app_perm.
