(* ===== verification/MetaTypes.v ===== *)
(** * Metadata types

    [include/lightfs/bs_types.h] and [include/lightfs/meta/meta_types.h]: blob
    locations and object manifests.  A [char] array is the C string it holds; a
    pointer is an address of the memory of [Memory.v] or NULL. *)
From S2P Require Import Prelude Memory.
From stdpp Require Import options.

Record blob_location := BlobLocation {
  bl_segment_id : Z;
  bl_offset : Z;
  bl_size : Z;
  bl_checksum : Z
}.

Definition META_MAX_BUCKET_LENGTH : nat := 255.
Definition META_MAX_KEY_LENGTH : nat := 1024.

Record object_manifest := Manifest {
  m_bucket : bytes;
  m_key : bytes;
  m_size : Z;
  m_checksum : Z;
  m_write_sequence : Z;
  m_datacenter_id : Z;
  m_fragment_count : Z;
  m_fragments : option nat
}.

(** The memory that holds the [fragments] arrays. *)
Abbreviation heap := (mem (list blob_location)).

(** What names an object. *)
Definition manifest_key (m : object_manifest) : bytes * bytes := (m_bucket m, m_key m).

Definition set_fragments (m : object_manifest) (p : option nat) : object_manifest :=
  Manifest (m_bucket m) (m_key m) (m_size m) (m_checksum m) (m_write_sequence m)
    (m_datacenter_id m) (m_fragment_count m) p.

(** The fields of a manifest hold what their C types can hold. *)
Definition manifest_typed (m : object_manifest) : Prop :=
  c_ok (m_bucket m) ∧ length (m_bucket m) ≤ META_MAX_BUCKET_LENGTH ∧
  c_ok (m_key m) ∧ length (m_key m) ≤ META_MAX_KEY_LENGTH ∧
  fits 64 (m_size m) ∧ fits 32 (m_checksum m) ∧ fits 64 (m_write_sequence m) ∧
  fits 32 (m_datacenter_id m) ∧ fits 32 (m_fragment_count m).

#[export] Instance blob_location_eq_dec : EqDecision blob_location.
Proof. solve_decision. Defined.
#[export] Instance object_manifest_eq_dec : EqDecision object_manifest.
Proof. solve_decision. Defined.

#[export] Instance manifest_typed_dec m : Decision (manifest_typed m).
Proof. unfold manifest_typed. apply _. Defined.

Lemma set_fragments_key m p : manifest_key (set_fragments m p) = manifest_key m.
Proof. done. Qed.
