(* ===== verification/MetaShard.v ===== *)
(** * The metadata shard ([src/meta/meta_shard.c])

    A shard is an array of manifests searched front to back.  The model keeps the
    array, its capacity and the memory of the [fragments] arrays, so that who owns
    which array is part of the state.  The [btree] field, which no function sets,
    is not modelled. *)
From S2P Require Import Prelude Memory MetaTypes.
From stdpp Require Import options.

Record meta_shard := Shard {
  sh_shard_id : Z;
  sh_parent_shard_id : Z;
  sh_bucket_name : bytes;
  sh_key_min : bytes;
  sh_key_max : bytes;
  sh_has_loading_child : Z;
  sh_entries : list object_manifest;   (* entries[0 .. entry_count-1] *)
  sh_entry_capacity : Z
}.

Definition SHARD_DEFAULT_CAPACITY : Z := 1024.

Definition entry_count (sh : meta_shard) : Z := Z.of_nat (length (sh_entries sh)).

Definition with_entries (sh : meta_shard) (l : list object_manifest) (cap : Z) : meta_shard :=
  Shard (sh_shard_id sh) (sh_parent_shard_id sh) (sh_bucket_name sh) (sh_key_min sh)
    (sh_key_max sh) (sh_has_loading_child sh) l cap.

Definition with_loading_child (sh : meta_shard) (b : Z) : meta_shard :=
  Shard (sh_shard_id sh) (sh_parent_shard_id sh) (sh_bucket_name sh) (sh_key_min sh)
    (sh_key_max sh) b (sh_entries sh) (sh_entry_capacity sh).

(** The entry [find_entry] looks for. *)
Definition entry_matches (bucket key : bytes) (e : object_manifest) : Prop :=
  strcmp (m_bucket e) bucket = Eq ∧ strcmp (m_key e) key = Eq.
#[export] Instance entry_matches_dec bucket key e : Decision (entry_matches bucket key e).
Proof. unfold entry_matches. apply _. Defined.

Definition find_entry (sh : meta_shard) (bucket key : bytes) : option nat :=
  fst <$> list_find (entry_matches bucket key) (sh_entries sh).

(** [for (i = index; i < entry_count - 1; i++) entries[i] = entries[i + 1];] *)
Fixpoint shift_down (fuel i : nat) (l : list object_manifest) : list object_manifest :=
  match fuel with
  | 0 => l
  | S fuel => shift_down fuel (S i)
                match l !! S i with Some e => <[i := e]> l | None => l end
  end.

Section shard.
Context {O : AllocOracle}.
Local Open Scope Z_scope.

Definition meta_shard_create (shard_id parent_shard_id : Z) (bucket_name : option bytes)
    : M (list blob_location) (option meta_shard) :=
  ok ← try_alloc;
  if negb ok then mret None else
  ok_entries ← try_alloc;
  if negb ok_entries then mret None else
  mret (Some (Shard shard_id parent_shard_id
                (default [] ((λ b, strncpy b META_MAX_BUCKET_LENGTH) <$> bucket_name))
                [] [] 0 [] SHARD_DEFAULT_CAPACITY)).

(** The loop of [meta_shard_destroy] that frees the fragment arrays. *)
Fixpoint free_entries (l : list object_manifest) : M (list blob_location) unit :=
  match l with
  | [] => mret tt
  | e :: l' => _ ← mfree (m_fragments e); free_entries l'
  end.

Definition meta_shard_destroy (shard : option meta_shard) : M (list blob_location) unit :=
  match shard with
  | None => mret tt
  | Some sh => free_entries (sh_entries sh)
  end.

(** The [fragments] pointer of the stored copy of [manifest]: a fresh copy of
    the array when there is one, else whatever the struct copy left there. *)
Definition copy_fragments (manifest : object_manifest)
    : M (list blob_location) (option nat) :=
  match m_fragments manifest with
  | Some src =>
      if decide (0 < m_fragment_count manifest) then
        dst ← malloc [];
        match dst with
        | None => mret None
        | Some d =>
            arr ← mload src;
            if decide (m_fragment_count manifest ≤ Z.of_nat (length arr)) then
              _ ← mstore d (take (Z.to_nat (m_fragment_count manifest)) arr);
              mret (Some d)
            else λ _, None
        end
      else mret (Some src)
  | None => mret None
  end.

(** Room for one more entry: the capacity afterwards, [None] when [realloc] fails. *)
Definition grow_entries (sh : meta_shard) : M (list blob_location) (option Z) :=
  if decide (entry_count sh >= sh_entry_capacity sh) then
    let new_capacity := i32 (sh_entry_capacity sh * 2) in
    ok ← try_alloc;
    mret (if (ok : bool) then Some new_capacity else None)
  else mret (Some (sh_entry_capacity sh)).

Definition meta_shard_insert (shard : option meta_shard) (manifest : option object_manifest)
    : M (list blob_location) (Z * option meta_shard) :=
  match shard, manifest with
  | Some sh, Some m =>
      match find_entry sh (m_bucket m) (m_key m) with
      | Some index =>
          frags ← copy_fragments m;
          mret (0, Some (with_entries sh
                           (<[index := set_fragments m frags]> (sh_entries sh))
                           (sh_entry_capacity sh)))
      | None =>
          grown ← grow_entries sh;
          match grown with
          | None => mret (-1, Some sh)
          | Some cap =>
              frags ← copy_fragments m;
              mret (0, Some (with_entries sh (sh_entries sh ++ [set_fragments m frags]) cap))
          end
      end
  | _, _ => mret (-1, shard)
  end.

Definition meta_shard_lookup (shard : option meta_shard) (bucket key : option bytes)
    (manifest_out : option object_manifest) : Z * option object_manifest :=
  match shard, bucket, key, manifest_out with
  | Some sh, Some bucket, Some key, Some _ =>
      match find_entry sh bucket key with
      | None => (-1, manifest_out)
      | Some index => (0, sh_entries sh !! index)
      end
  | _, _, _, _ => (-1, manifest_out)
  end.

Definition meta_shard_delete (shard : option meta_shard) (bucket key : option bytes)
    : M (list blob_location) (Z * option meta_shard) :=
  match shard, bucket, key with
  | Some sh, Some bucket, Some key =>
      match find_entry sh bucket key with
      | None => mret (-1, shard)
      | Some index =>
          _ ← mfree (sh_entries sh !! index ≫= m_fragments);
          let n := length (sh_entries sh) in
          mret (0, Some (with_entries sh
                           (take (n - 1) (shift_down (n - 1 - index) index (sh_entries sh)))
                           (sh_entry_capacity sh)))
      end
  | _, _, _ => mret (-1, shard)
  end.

(** The loop that looks for the marker from entry [i] on; [start] stays 0 when it finds none. *)
Fixpoint find_start (marker : bytes) (l : list object_manifest) (i : nat) : nat :=
  match l with
  | [] => 0%nat
  | e :: l => if decide (strcmp (m_key e) marker = Gt) then i else find_start marker l (S i)
  end.

(** Where listing starts: without a marker at 0. *)
Definition list_start (sh : meta_shard) (marker : option bytes) : nat :=
  match marker with
  | None | Some [] => 0%nat
  | Some marker => find_start marker (sh_entries sh) 0
  end.

(** The keys the listing loop writes from [l] on, [count] being written already. *)
Fixpoint list_loop (bucket prefix : bytes) (max_keys : Z) (l : list object_manifest)
    (count : Z) : list bytes :=
  match l with
  | [] => []
  | e :: l' =>
      if decide (count < max_keys) then
        if decide (strcmp (m_bucket e) bucket ≠ Eq) then
          list_loop bucket prefix max_keys l' count
        else if decide ((0 < length prefix)%nat ∧
                        strncmp (m_key e) prefix (length prefix) ≠ Eq) then
          list_loop bucket prefix max_keys l' count
        else strncpy (m_key e) 63 :: list_loop bucket prefix max_keys l' (count + 1)
      else []
  end.

(** The result code and, on success, the keys written to [keys_out], whose
    number is stored in [*count_out]. [outs] says both out pointers are set. *)
Definition meta_shard_list (shard : option meta_shard) (bucket prefix marker : option bytes)
    (max_keys : Z) (outs : bool) : Z * option (list bytes) :=
  match shard, bucket, outs with
  | Some sh, Some bucket, true =>
      (0, Some (list_loop bucket (default [] prefix) max_keys
                  (drop (list_start sh marker) (sh_entries sh)) 0))
  | _, _, _ => (-1, None)
  end.

Definition meta_shard_count (shard : option meta_shard) : Z :=
  match shard with Some sh => entry_count sh | None => 0 end.

(** The child, if any, and the parent afterwards. *)
Definition meta_shard_split (shard : option meta_shard) (new_shard_id : Z)
    : M (list blob_location) (option meta_shard * option meta_shard) :=
  match shard with
  | None => mret (None, shard)
  | Some sh =>
      if decide (sh_has_loading_child sh ≠ 0) then mret (None, shard) else
      let midpoint := entry_count sh `quot` 2 in
      if decide (midpoint <= 0) then mret (None, shard) else
      child ← meta_shard_create new_shard_id (sh_shard_id sh) (Some (sh_bucket_name sh));
      match child with
      | None => mret (None, shard)
      | Some c => mret (Some (with_loading_child c 1), Some (with_loading_child sh 1))
      end
  end.

Definition meta_shard_has_loading_child (shard : option meta_shard) : Z :=
  match shard with Some sh => sh_has_loading_child sh | None => 0 end.

Definition meta_shard_get_id (shard : option meta_shard) : Z :=
  match shard with Some sh => sh_shard_id sh | None => 0 end.

Definition meta_shard_get_count (shard : option meta_shard) : Z :=
  match shard with Some sh => entry_count sh | None => 0 end.

Definition meta_shard_get_entries (shard : option meta_shard) : option (list object_manifest) :=
  sh_entries <$> shard.

Definition meta_shard_child_activated (shard : option meta_shard) : option meta_shard :=
  (λ sh, with_loading_child sh 0) <$> shard.
End shard.

Arguments meta_shard_create : simpl never.
Arguments meta_shard_insert : simpl never.
Arguments meta_shard_lookup : simpl never.
Arguments meta_shard_delete : simpl never.
Arguments meta_shard_list : simpl never.
Arguments meta_shard_split : simpl never.

(** ** Abstract specification

    A shard is a finite map from (bucket, key) to the value of the stored
    manifest, fragment locations included. *)

Record manifest_value := MValue {
  mv_size : Z;
  mv_checksum : Z;
  mv_write_sequence : Z;
  mv_datacenter_id : Z;
  mv_fragment_count : Z;
  mv_fragments : option (list blob_location)
}.

(** What a manifest denotes in a memory. *)
Definition value_in (cells : gmap nat (list blob_location)) (m : object_manifest) : manifest_value :=
  MValue (m_size m) (m_checksum m) (m_write_sequence m) (m_datacenter_id m)
    (m_fragment_count m) (m_fragments m ≫= λ p, cells !! p).

(** What inserting [m] stores: the first [fragment_count] locations of its array. *)
Definition stored_value (cells : gmap nat (list blob_location)) (m : object_manifest) : manifest_value :=
  MValue (m_size m) (m_checksum m) (m_write_sequence m) (m_datacenter_id m)
    (m_fragment_count m)
    (take (Z.to_nat (m_fragment_count m)) <$> (m_fragments m ≫= λ p, cells !! p)).

Inductive shard_op :=
  | OpInsert (m : object_manifest)
  | OpLookup (bucket key : bytes)
  | OpDelete (bucket key : bytes).

Inductive shard_result :=
  | RCode (rc : Z)
  | RFound (rc : Z) (v : option manifest_value).

Abbreviation spec_map := (gmap (bytes * bytes) manifest_value).

Definition spec_step (ext : gmap nat (list blob_location)) (op : shard_op) (a : spec_map)
    : shard_result * spec_map :=
  match op with
  | OpInsert m => (RCode 0, <[manifest_key m := stored_value ext m]> a)
  | OpLookup b k =>
      (match a !! (b, k) with Some v => RFound 0 (Some v) | None => RFound (-1) None end, a)
  | OpDelete b k =>
      match a !! (b, k) with
      | Some _ => (RCode 0, delete (b, k) a)
      | None => (RCode (-1), a)
      end
  end.

Fixpoint spec_run (ext : gmap nat (list blob_location)) (ops : list shard_op) (a : spec_map)
    : list shard_result * spec_map :=
  match ops with
  | [] => ([], a)
  | op :: ops =>
      let '(r, a) := spec_step ext op a in
      let '(rs, a) := spec_run ext ops a in (r :: rs, a)
  end.

Section run.
Context {O : AllocOracle}.
Local Open Scope Z_scope.

(** A manifest no caller cares about: the initial content of an out parameter. *)
Definition manifest_zero : object_manifest := Manifest [] [] 0 0 0 0 0 None.

Definition shard_step (op : shard_op) (sh : option meta_shard)
    : M (list blob_location) (shard_result * option meta_shard) :=
  match op with
  | OpInsert m => '(rc, sh) ← meta_shard_insert sh (Some m); mret (RCode rc, sh)
  | OpLookup b k => λ h,
      let '(rc, out) := meta_shard_lookup sh (Some b) (Some k) (Some manifest_zero) in
      Some ((RFound rc (if decide (rc = 0) then value_in (mem_cells h) <$> out else None), sh), h)
  | OpDelete b k => '(rc, sh) ← meta_shard_delete sh (Some b) (Some k); mret (RCode rc, sh)
  end.

Fixpoint shard_run (ops : list shard_op) (sh : option meta_shard)
    : M (list blob_location) (list shard_result * option meta_shard) :=
  match ops with
  | [] => mret ([], sh)
  | op :: ops =>
      '(r, sh) ← shard_step op sh;
      '(rs, sh) ← shard_run ops sh;
      mret (r :: rs, sh)
  end.
End run.

(** ** Well-formedness and the refinement relation *)

(** The fragment arrays a shard owns. *)
Definition owned (sh : meta_shard) : list nat := omap m_fragments (sh_entries sh).

Definition shard_keys (sh : meta_shard) : list (bytes * bytes) := manifest_key <$> sh_entries sh.

(** No key twice; every owned array is live, owned once, and none of the
    caller's ([ext]), which are live too; the array fits its capacity. *)
Record shard_wf (ext : gmap nat (list blob_location)) (sh : meta_shard) (h : heap) : Prop := {
  wf_mem : mem_wf h;
  wf_keys : NoDup (shard_keys sh);
  wf_owned : NoDup (owned sh);
  wf_live : ∀ p, p ∈ owned sh → is_Some (mem_cells h !! p) ∧ ext !! p = None;
  wf_ext : ext ⊆ mem_cells h;
  wf_capacity : (0 < sh_entry_capacity sh)%Z ∧ (entry_count sh ≤ sh_entry_capacity sh)%Z
}.

(** What a caller must pass: no array, or a live one of at least [fragment_count] > 0. *)
Definition manifest_valid (ext : gmap nat (list blob_location)) (m : object_manifest) : Prop :=
  match m_fragments m with
  | None => True
  | Some p => (0 < m_fragment_count m)%Z ∧
      ∃ arr, ext !! p = Some arr ∧ (m_fragment_count m ≤ Z.of_nat (length arr))%Z
  end.

Definition op_valid ext (op : shard_op) : Prop :=
  match op with OpInsert m => manifest_valid ext m | _ => True end.

(** [a] is the abstract map of the shard. *)
Definition shard_rel (a : spec_map) (sh : meta_shard) (h : heap) : Prop :=
  ∀ k, a !! k = value_in (mem_cells h) <$> assoc_get manifest_key k (sh_entries sh).

(** ** Lemmas *)

Lemma entry_matches_key b k e : entry_matches b k e ↔ manifest_key e = (b, k).
Proof. unfold entry_matches, manifest_key. rewrite !strcmp_eq. naive_solver. Qed.

Lemma find_entry_assoc sh b k :
  find_entry sh b k = fst <$> assoc_find manifest_key (b, k) (sh_entries sh).
Proof.
  unfold find_entry, assoc_find. f_equal. apply list_find_ext.
  intros e. apply entry_matches_key.
Qed.

Lemma find_entry_Some sh b k i :
  find_entry sh b k = Some i →
  ∃ e, assoc_find manifest_key (b, k) (sh_entries sh) = Some (i, e) ∧ sh_entries sh !! i = Some e.
Proof.
  rewrite find_entry_assoc. intros ([i' e] & He & ->)%fmap_Some.
  exists e. split; [done|]. by apply assoc_find_Some in He as [? _].
Qed.

Lemma find_entry_None sh b k :
  find_entry sh b k = None ↔ (b, k) ∉ shard_keys sh.
Proof. rewrite find_entry_assoc, fmap_None. apply assoc_find_None. Qed.

Lemma shift_down_lookup fuel i l j :
  i + fuel < length l →
  shift_down fuel i l !! j = if decide (i ≤ j < i + fuel) then l !! S j else l !! j.
Proof.
  revert i l. induction fuel as [|fuel IH]; intros i l Hi; simpl.
  - by rewrite decide_False by lia.
  - destruct (lookup_lt_is_Some_2 l (S i)) as [e He]; [lia|]. rewrite He.
    rewrite IH by (rewrite length_insert; lia).
    destruct (decide (j = i)) as [->|].
    + repeat case_decide; try lia. by rewrite list_lookup_insert_eq by lia.
    + repeat case_decide; try lia; by rewrite list_lookup_insert_ne by lia.
Qed.

(** The shifting loop removes the element at its start. *)
Lemma shift_down_delete l i :
  i < length l → take (length l - 1) (shift_down (length l - 1 - i) i l) = delete i l.
Proof.
  intros Hi. apply list_eq. intros j.
  destruct (decide (j < length l - 1)).
  - rewrite lookup_take_lt by lia. rewrite shift_down_lookup by lia.
    destruct (decide (j < i)).
    + rewrite decide_False by lia. by rewrite list_lookup_delete_lt by lia.
    + rewrite decide_True by lia. by rewrite list_lookup_delete_ge by lia.
  - rewrite lookup_take_ge by lia. symmetry. apply lookup_ge_None_2.
    rewrite length_delete by (by apply lookup_lt_is_Some_2). lia.
Qed.

Section refinement.
#[local] Set Default Proof Using "Type*".
Context {O : AllocOracle}.
Context (never_oom : ∀ n, alloc_ok n = true).
Context (ext : gmap nat (list blob_location)).
Implicit Types (sh : meta_shard) (h : heap) (m : object_manifest) (a : spec_map).

(** What [copy_fragments] leaves: nothing, or a fresh array holding the copy. *)
Lemma copy_fragments_spec m h :
  mem_wf h → ext ⊆ mem_cells h → manifest_valid ext m →
  (m_fragments m = None ∧ copy_fragments m h = Some (None, h)) ∨
  (∃ p arr, m_fragments m = Some p ∧ ext !! p = Some arr ∧
     copy_fragments m h = Some (Some (mem_next h),
       Mem (S (mem_next h))
         (<[mem_next h := take (Z.to_nat (m_fragment_count m)) arr]> (mem_cells h)))).
Proof.
  intros Hwf Hext Hm. unfold manifest_valid, copy_fragments in *.
  destruct (m_fragments m) as [p|]; [right|by left].
  destruct Hm as (Hpos & arr & Harr & Hlen). exists p, arr. split_and!; [done..|].
  rewrite decide_True by done. m_simpl. unfold malloc. rewrite never_oom.
  unfold mload. simpl.
  assert (mem_cells h !! p = Some arr) as Hp by (by eapply lookup_weaken).
  assert (mem_next h ≠ p) by (intros <-; rewrite mem_wf_fresh in Hp; done).
  rewrite lookup_insert_ne, Hp by done. simpl. rewrite decide_True by done.
  unfold mstore. simpl. rewrite lookup_insert_eq. by rewrite insert_insert_eq.
Qed.

(** A memory that agrees on the arrays a manifest names gives it the same value. *)
Lemma value_in_agree cells cells' m :
  (∀ p, m_fragments m = Some p → cells' !! p = cells !! p) →
  value_in cells' m = value_in cells m.
Proof.
  intros Hag. unfold value_in. f_equal.
  destruct (m_fragments m) as [p|]; simpl; auto.
Qed.

Lemma owned_elem sh e p : e ∈ sh_entries sh → m_fragments e = Some p → p ∈ owned sh.
Proof. intros. unfold owned. apply list_elem_of_omap. eauto. Qed.

(** The memory after [copy_fragments]: it only grows, by arrays of its own. *)
Record heap_grows (h h' : heap) (frags : option nat) (v : option (list blob_location)) : Prop := {
  hg_mem : mem_wf h';
  hg_mono : mem_cells h ⊆ mem_cells h';
  hg_value : frags ≫= (λ p, mem_cells h' !! p) = v;
  hg_fresh : ∀ p, frags = Some p → is_Some (mem_cells h' !! p) ∧ mem_cells h !! p = None
}.

Lemma copy_fragments_grows m h :
  mem_wf h → ext ⊆ mem_cells h → manifest_valid ext m →
  ∃ frags h', copy_fragments m h = Some (frags, h') ∧
    heap_grows h h' frags (mv_fragments (stored_value ext m)).
Proof.
  intros Hwf Hext Hm.
  destruct (copy_fragments_spec m h) as [[Hn E]|(p & arr & Hp & Harr & E)]; [done..| |].
  - exists None, h. split; [done|]. split; [done..| |naive_solver].
    unfold stored_value. simpl. by rewrite Hn.
  - eexists _, _. split; [exact E|]. pose proof (mem_wf_fresh h Hwf) as Hf. split; simpl.
    + by apply mem_wf_insert.
    + by apply insert_subseteq.
    + rewrite lookup_insert_eq. rewrite Hp. simpl. by rewrite Harr.
    + intros q [= <-]. rewrite lookup_insert_eq. eauto.
Qed.

(** The fresh array of a stored copy is none of the arrays in use. *)
Lemma grows_not_owned sh h h' frags v p :
  shard_wf ext sh h → heap_grows h h' frags v → frags = Some p → p ∉ owned sh.
Proof.
  intros Hwf Hg ->. destruct (hg_fresh _ _ _ _ Hg p eq_refl) as [_ Hn].
  intros [[? Hl] _]%(wf_live _ _ _ Hwf). congruence.
Qed.

Lemma grows_not_ext sh h h' frags v p :
  shard_wf ext sh h → heap_grows h h' frags v → frags = Some p → ext !! p = None.
Proof.
  intros Hwf Hg ->. destruct (hg_fresh _ _ _ _ Hg p eq_refl) as [_ Hn].
  destruct (ext !! p) eqn:E; [|done].
  pose proof (lookup_weaken _ _ _ _ E (wf_ext _ _ _ Hwf)). congruence.
Qed.

Lemma grows_agree sh h h' frags v p :
  shard_wf ext sh h → heap_grows h h' frags v → p ∈ owned sh →
  mem_cells h' !! p = mem_cells h !! p.
Proof.
  intros Hwf Hg Hp. destruct (wf_live _ _ _ Hwf p Hp) as [[x Hx] _].
  rewrite Hx. eapply lookup_weaken; [done|apply Hg].
Qed.

Lemma grows_live sh h h' frags v p :
  shard_wf ext sh h → heap_grows h h' frags v → p ∈ owned sh → is_Some (mem_cells h' !! p).
Proof. intros Hwf Hg Hp. erewrite grows_agree by done. by apply (wf_live _ _ _ Hwf). Qed.

(** An element stored by an insertion denotes the abstract value. *)
Lemma stored_value_in h h' m frags :
  heap_grows h h' frags (mv_fragments (stored_value ext m)) →
  value_in (mem_cells h') (set_fragments m frags) = stored_value ext m.
Proof. intros Hg. unfold value_in, stored_value. f_equal. apply (hg_value _ _ _ _ Hg). Qed.

Lemma grows_value sh h h' frags v e :
  shard_wf ext sh h → heap_grows h h' frags v → e ∈ sh_entries sh →
  value_in (mem_cells h') e = value_in (mem_cells h) e.
Proof.
  intros Hwf Hg He. apply value_in_agree. intros p Hp.
  by eapply grows_agree; [| |eapply owned_elem].
Qed.

(** Replacing the entry found for a manifest's key. *)
Lemma insert_existing_rel a sh h h' m frags index e :
  shard_wf ext sh h → shard_rel a sh h →
  assoc_find manifest_key (manifest_key m) (sh_entries sh) = Some (index, e) →
  heap_grows h h' frags (mv_fragments (stored_value ext m)) →
  let sh' := with_entries sh (<[index := set_fragments m frags]> (sh_entries sh)) (sh_entry_capacity sh) in
  shard_wf ext sh' h' ∧ shard_rel (<[manifest_key m := stored_value ext m]> a) sh' h'.
Proof.
  intros Hwf Hrel Hfind Hg sh'. split.
  - split.
    + apply (hg_mem _ _ _ _ Hg).
    + unfold shard_keys, sh'. simpl. erewrite keys_insert; [apply Hwf|done|done].
    + unfold owned, sh'. simpl. apply omap_insert_NoDup; [apply Hwf|].
      intros p Hp. by eapply grows_not_owned.
    + intros p [Hp|Hp]%omap_insert_elem; simpl in *.
      * split; [by eapply grows_live|]. by apply Hwf.
      * split; [by eapply hg_fresh|]. by eapply grows_not_ext.
    + etrans; [apply Hwf|apply Hg].
    + unfold entry_count, sh'. simpl. rewrite length_insert. apply Hwf.
  - intros k. unfold sh'. simpl. erewrite assoc_get_insert by done.
    rewrite lookup_insert. destruct (decide (k = manifest_key m)) as [->|].
    + rewrite decide_True by done. simpl. by erewrite stored_value_in.
    + rewrite decide_False by done. rewrite Hrel.
      destruct (assoc_get manifest_key k (sh_entries sh)) eqn:E; simpl; [|done].
      apply assoc_get_Some_elem in E as [? _]. f_equal. by eapply symmetry, grows_value.
Qed.

(** Appending an entry under a key the shard does not hold. *)
Lemma insert_new_rel a sh h h' m frags cap :
  shard_wf ext sh h → shard_rel a sh h →
  manifest_key m ∉ shard_keys sh → (0 < cap ∧ entry_count sh + 1 ≤ cap)%Z →
  heap_grows h h' frags (mv_fragments (stored_value ext m)) →
  let sh' := with_entries sh (sh_entries sh ++ [set_fragments m frags]) cap in
  shard_wf ext sh' h' ∧ shard_rel (<[manifest_key m := stored_value ext m]> a) sh' h'.
Proof.
  intros Hwf Hrel Hnew Hcap Hg sh'. split.
  - split.
    + apply (hg_mem _ _ _ _ Hg).
    + unfold shard_keys, sh' in *. simpl. rewrite fmap_app. simpl.
      apply NoDup_app. split_and!; [apply Hwf| |apply NoDup_singleton].
      by intros k Hk ->%list_elem_of_singleton.
    + unfold owned, sh'. simpl. rewrite omap_app. apply NoDup_app. simpl.
      split_and!; [apply Hwf| |destruct frags; [apply NoDup_singleton|apply NoDup_nil_2]].
      intros p Hp. destruct frags as [q|]; [|apply not_elem_of_nil].
      intros ->%list_elem_of_singleton. by eapply grows_not_owned in Hp.
    + intros p. unfold owned, sh'. simpl. rewrite omap_app, elem_of_app. simpl.
      intros [Hp|Hp].
      * split; [by eapply grows_live|]. by apply Hwf.
      * assert (frags = Some p) as E.
        { destruct frags; [by apply list_elem_of_singleton in Hp as ->|by apply elem_of_nil in Hp]. }
        split; [by eapply hg_fresh|]. by eapply grows_not_ext.
    + etrans; [apply Hwf|apply Hg].
    + unfold entry_count, sh' in *. simpl. rewrite length_app. simpl. lia.
  - intros k. unfold sh'. simpl. rewrite assoc_get_app, assoc_get_cons, lookup_insert.
    rewrite set_fragments_key. destruct (decide (manifest_key m = k)) as [<-|].
    + apply assoc_get_None in Hnew. rewrite Hnew. simpl. by erewrite stored_value_in.
    + rewrite Hrel. destruct (assoc_get manifest_key k (sh_entries sh)) eqn:E; simpl; [|done].
      apply assoc_get_Some_elem in E as [? _]. f_equal. by eapply symmetry, grows_value.
Qed.

Lemma grow_entries_spec sh h :
  mem_wf h → (0 < sh_entry_capacity sh)%Z ∧ (entry_count sh ≤ sh_entry_capacity sh)%Z →
  (entry_count sh < 2 ^ 30)%Z →
  ∃ cap h1, grow_entries sh h = Some (Some cap, h1) ∧ mem_wf h1 ∧
    mem_cells h1 = mem_cells h ∧ (0 < cap ∧ entry_count sh + 1 ≤ cap)%Z.
Proof.
  intros Hwf Hcap Hsize. unfold grow_entries. case_decide; m_simpl.
  - rewrite never_oom. do 2 eexists. split_and!; [done|by apply mem_wf_tick|done|..];
      rewrite i32_small; lia.
  - do 2 eexists. split_and!; [done..|lia|lia].
Qed.

Lemma insert_step a sh h m :
  shard_wf ext sh h → shard_rel a sh h → manifest_valid ext m →
  (entry_count sh < 2 ^ 30)%Z →
  ∃ sh' h', meta_shard_insert (Some sh) (Some m) h = Some ((0%Z, Some sh'), h') ∧
    shard_wf ext sh' h' ∧ shard_rel (<[manifest_key m := stored_value ext m]> a) sh' h' ∧
    (entry_count sh' ≤ entry_count sh + 1)%Z.
Proof.
  intros Hwf Hrel Hm Hsize. unfold meta_shard_insert.
  destruct (find_entry sh (m_bucket m) (m_key m)) as [index|] eqn:Hf.
  - apply find_entry_Some in Hf as (e & He & _).
    destruct (copy_fragments_grows m h) as (frags & h' & E & Hg); [apply Hwf|apply Hwf|done|].
    m_simpl. rewrite E. do 2 eexists. split; [done|].
    destruct (insert_existing_rel a sh h h' m frags index e) as [? ?]; [done..|].
    split_and!; [done..|]. unfold entry_count. simpl. rewrite length_insert. lia.
  - apply find_entry_None in Hf.
    destruct (grow_entries_spec sh h) as (cap & h1 & E1 & Hwf1 & Hc1 & Hcap); [apply Hwf|apply Hwf|done|].
    m_simpl. rewrite E1.
    destruct (copy_fragments_grows m h1) as (frags & h' & E & Hg);
      [done|rewrite Hc1; apply Hwf|done|].
    rewrite E. do 2 eexists. split; [done|].
    assert (heap_grows h h' frags (mv_fragments (stored_value ext m))) as Hg'.
    { destruct Hg as [? Hm1 ? Hf1]. rewrite Hc1 in Hm1, Hf1. by split. }
    destruct (insert_new_rel a sh h h' m frags cap) as [? ?]; [done..|].
    split_and!; [done..|]. unfold entry_count. simpl. rewrite length_app. simpl. lia.
Qed.

(** Freeing the array of a removed entry keeps every array of the others. *)
Lemma delete_frees sh h index e :
  shard_wf ext sh h → sh_entries sh !! index = Some e →
  let sh' := with_entries sh (delete index (sh_entries sh)) (sh_entry_capacity sh) in
  ∃ h', mfree (m_fragments e) h = Some (tt, h') ∧ shard_wf ext sh' h' ∧
    ∀ p, p ∈ owned sh' → mem_cells h' !! p = mem_cells h !! p.
Proof.
  intros Hwf Hi sh'.
  assert (Hsub : owned sh' `sublist_of` owned sh) by (apply sublist_omap, sublist_delete).
  assert (Hlen : (entry_count sh' ≤ sh_entry_capacity sh')%Z).
  { unfold entry_count, sh'. simpl.
    rewrite length_delete by (by eapply mk_is_Some).
    pose proof (wf_capacity _ _ _ Hwf). unfold entry_count in *. lia. }
  destruct (m_fragments e) as [p|] eqn:Hp; simpl.
  - assert (p ∈ owned sh) as Hown
      by (eapply owned_elem; [by eapply list_elem_of_lookup_2|done]).
    assert (p ∉ owned sh') as Hnown by (by eapply omap_delete_not_elem; [apply Hwf| |]).
    destruct (wf_live _ _ _ Hwf p Hown) as [[arr Harr] Hne]. rewrite Harr.
    eexists. split; [done|]. split.
    + split; simpl.
      * apply mem_wf_delete, Hwf.
      * unfold shard_keys, sh'. simpl. apply keys_delete_NoDup, Hwf.
      * eapply sublist_NoDup; [apply Hwf|done].
      * intros q Hq. rewrite lookup_delete_ne by (by intros ->).
        by apply (wf_live _ _ _ Hwf), (elem_of_sublist _ _ _ Hq).
      * apply map_subseteq_spec. intros q x Hx. rewrite lookup_delete_ne by congruence.
        eapply lookup_weaken; [done|apply Hwf].
      * split; [apply Hwf|done].
    + intros q Hq. simpl. by rewrite lookup_delete_ne by (by intros ->).
  - eexists. split; [done|]. split; [|done]. split.
    + apply Hwf.
    + unfold shard_keys, sh'. simpl. apply keys_delete_NoDup, Hwf.
    + eapply sublist_NoDup; [apply Hwf|done].
    + intros q Hq. by apply (wf_live _ _ _ Hwf), (elem_of_sublist _ _ _ Hq).
    + apply Hwf.
    + split; [apply Hwf|done].
Qed.

(** Removing the entry found for a key, and its array. *)
Lemma delete_step a sh h b k :
  shard_wf ext sh h → shard_rel a sh h →
  ∃ sh' h', meta_shard_delete (Some sh) (Some b) (Some k) h =
      Some ((match a !! (b, k) with Some _ => 0%Z | None => (-1)%Z end, Some sh'), h') ∧
    shard_wf ext sh' h' ∧ shard_rel (delete (b, k) a) sh' h' ∧
    (entry_count sh' ≤ entry_count sh)%Z.
Proof.
  intros Hwf Hrel. unfold meta_shard_delete.
  destruct (find_entry sh b k) as [index|] eqn:Hf.
  - apply find_entry_Some in Hf as (e & He & Hi).
    assert (Hlt : index < length (sh_entries sh)) by (by eapply lookup_lt_Some).
    assert (a !! (b, k) = Some (value_in (mem_cells h) e)) as ->.
    { rewrite Hrel. unfold assoc_get. by rewrite He. }
    rewrite shift_down_delete by done. rewrite Hi. simpl.
    destruct (delete_frees sh h index e) as (h' & E & Hwf' & Hagree); [done..|].
    m_simpl. rewrite E. do 2 eexists. split; [done|]. split; [done|]. split.
    + intros k'. simpl. erewrite assoc_get_delete by (apply Hwf || done).
      rewrite lookup_delete. destruct (decide (k' = (b, k))) as [->|].
      * by rewrite decide_True.
      * rewrite decide_False by done. rewrite Hrel.
        destruct (assoc_get manifest_key k' (sh_entries sh)) as [e'|] eqn:E'; simpl; [|done].
        f_equal. symmetry. apply value_in_agree. intros p Hp. apply Hagree.
        apply assoc_get_Some_elem in E' as [He' Hk'].
        apply assoc_find_Some in He as (_ & Hk & _).
        apply list_elem_of_omap. exists e'. split; [|done].
        apply list_elem_of_lookup in He' as [j Hj].
        eapply elem_of_delete_ne; [|done]. congruence.
    + unfold entry_count. simpl. rewrite length_delete by done. lia.
  - apply find_entry_None, (assoc_get_None manifest_key) in Hf.
    pose proof (Hrel (b, k)) as Hn. rewrite Hf in Hn. simpl in Hn. rewrite Hn.
    m_simpl. do 2 eexists. split_and!; [done..| |done].
    by rewrite delete_id.
Qed.

Lemma lookup_step a sh h b k out :
  shard_rel a sh h →
  ∃ rc found, meta_shard_lookup (Some sh) (Some b) (Some k) (Some out) = (rc, found) ∧
    match a !! (b, k) with
    | Some v => rc = 0%Z ∧ value_in (mem_cells h) <$> found = Some v
    | None => rc = (-1)%Z ∧ found = Some out
    end.
Proof.
  intros Hrel. unfold meta_shard_lookup. rewrite (Hrel (b, k)).
  unfold assoc_get. rewrite find_entry_assoc.
  destruct (assoc_find _ _ _) as [[i e]|] eqn:He; simpl; [|eauto].
  apply assoc_find_Some in He as (Hi & _ & _).
  do 2 eexists. split; [done|]. by rewrite Hi.
Qed.

(** One operation of the implementation simulates one of the specification. *)
Lemma shard_step_simulates a sh h op :
  shard_wf ext sh h → shard_rel a sh h → op_valid ext op → (entry_count sh < 2 ^ 30)%Z →
  let '(r, a') := spec_step ext op a in
  ∃ sh' h', shard_step op (Some sh) h = Some ((r, Some sh'), h') ∧
    shard_wf ext sh' h' ∧ shard_rel a' sh' h' ∧ (entry_count sh' ≤ entry_count sh + 1)%Z.
Proof.
  intros Hwf Hrel Hop Hsize. destruct op as [m|b k|b k]; simpl in *.
  - destruct (insert_step a sh h m) as (sh' & h' & E & ?); [done..|].
    exists sh', h'. by m_simpl; rewrite E.
  - destruct (lookup_step a sh h b k manifest_zero Hrel) as (rc & found & E & Hv).
    destruct (a !! (b, k)) as [v|]; destruct Hv as [-> Hv]; exists sh, h; rewrite E;
      [rewrite decide_True, Hv by done|rewrite decide_False by done]; split_and!; done || lia.
  - destruct (delete_step a sh h b k) as (sh' & h' & E & Hwf' & Hrel' & ?); [done..|].
    m_simpl. rewrite E. destruct (a !! (b, k)) eqn:Ha; exists sh', h'; split_and!; try done; try lia.
    by rewrite delete_id in Hrel'.
Qed.

Lemma shard_run_simulates ops a sh h :
  shard_wf ext sh h → shard_rel a sh h → Forall (op_valid ext) ops →
  (entry_count sh + Z.of_nat (length ops) < 2 ^ 30)%Z →
  ∃ sh' h', shard_run ops (Some sh) h = Some (((spec_run ext ops a).1, Some sh'), h') ∧
    shard_wf ext sh' h' ∧ shard_rel (spec_run ext ops a).2 sh' h'.
Proof.
  intros Hwf Hrel Hops. revert a sh h Hwf Hrel.
  induction Hops as [|op ops Hop Hops IH]; intros a sh h Hwf Hrel Hsize; simpl in *; [eauto|].
  pose proof (shard_step_simulates a sh h op Hwf Hrel Hop ltac:(lia)) as Hstep.
  destruct (spec_step ext op a) as [r a1].
  destruct Hstep as (sh1 & h1 & E1 & Hwf1 & Hrel1 & ?).
  destruct (IH a1 sh1 h1) as (sh2 & h2 & E2 & ?); [done..|lia|].
  destruct (spec_run ext ops a1) as [rs a2]. simpl in *.
  exists sh2, h2. m_simpl. rewrite E1. m_simpl. rewrite E2. done.
Qed.

Lemma create_rel id parent name h :
  mem_wf h → ext ⊆ mem_cells h →
  ∃ sh h', meta_shard_create id parent name h = Some (Some sh, h') ∧
    sh_entries sh = [] ∧ shard_wf ext sh h' ∧ shard_rel ∅ sh h'.
Proof.
  intros Hwf Hext. unfold meta_shard_create. m_simpl. do 2 (rewrite never_oom; simpl).
  do 2 eexists. split; [done|]. split; [done|]. split.
  - split; simpl; try done.
    + apply (mem_wf_tick (Mem (S (mem_next h)) (mem_cells h))); [|done].
      by apply mem_wf_tick.
    + apply NoDup_nil_2.
    + apply NoDup_nil_2.
    + by intros p ?%elem_of_nil.
  - intros k. by rewrite lookup_empty.
Qed.
End refinement.

(** ** Sequences of inserts *)

(** Storing manifests one after the other: the last one under a key stays. *)
Definition store_all (ext : gmap nat (list blob_location)) (ms : list object_manifest)
    (a : spec_map) : spec_map :=
  foldl (λ a m, <[manifest_key m := stored_value ext m]> a) a ms.

Lemma store_all_lookup_ne ext ms a k :
  k ∉ (manifest_key <$> ms) → store_all ext ms a !! k = a !! k.
Proof.
  unfold store_all. revert a. induction ms as [|m ms IH]; intros a Hk; simpl in *; [done|].
  apply not_elem_of_cons in Hk as [Hne Hk]. rewrite IH by done. by apply lookup_insert_ne.
Qed.

Lemma store_all_last ext ms a i m :
  ms !! i = Some m → manifest_key m ∉ (manifest_key <$> drop (S i) ms) →
  store_all ext ms a !! manifest_key m = Some (stored_value ext m).
Proof.
  revert a i. induction ms as [|m' ms IH]; intros a [|i] Hi Hlast; simplify_eq/=.
  - rewrite drop_0 in Hlast. rewrite store_all_lookup_ne by done. apply lookup_insert_eq.
  - by eapply IH.
Qed.

(** ** Freeing everything *)

Lemma free_entries_spec (l : list object_manifest) (h : heap) :
  NoDup (omap m_fragments l) → (∀ p, p ∈ omap m_fragments l → is_Some (mem_cells h !! p)) →
  ∃ h', free_entries l h = Some (tt, h') ∧
    ∀ p, mem_cells h' !! p = if decide (p ∈ omap m_fragments l) then None else mem_cells h !! p.
Proof.
  revert h. induction l as [|e l IH]; intros h Hnd Hlive; simpl in *.
  - by exists h.
  - m_simpl. destruct (m_fragments e) as [p|] eqn:Hp; simpl in *.
    + apply NoDup_cons in Hnd as [Hnp Hnd].
      destruct (Hlive p) as [arr Harr]; [by left|]. rewrite Harr.
      destruct (IH (Mem (mem_next h) (delete p (mem_cells h)))) as (h' & E & Hh'); [done| |].
      { intros q Hq. simpl. rewrite lookup_delete_ne by (by intros ->). apply Hlive. by right. }
      exists h'. split; [done|]. intros q. rewrite Hh'. simpl.
      rewrite lookup_delete. repeat case_decide; set_solver.
    + by apply IH.
Qed.

(** ** Listing *)

(** The entries a listing keeps. *)
Definition list_keep (bucket prefix : bytes) (e : object_manifest) : Prop :=
  m_bucket e = bucket ∧ take (length prefix) (m_key e) = prefix.
#[export] Instance list_keep_dec bucket prefix e : Decision (list_keep bucket prefix e).
Proof. unfold list_keep. apply _. Defined.

(** The string [s] comes after [t] in the order of unsigned bytes: it continues [t], or is
    larger at the first place where they differ. *)
Definition string_after (s t : bytes) : Prop :=
  (∃ c r, s = t ++ c :: r) ∨
  (∃ p c d r r', s = p ++ c :: r ∧ t = p ++ d :: r' ∧ (byte.unsigned d < byte.unsigned c)%Z).

Lemma strcmp_gt s t : strcmp s t = Gt ↔ string_after s t.
Proof.
  split.
  - revert t. induction s as [|c s IH]; intros [|d t]; simpl; [done..|intros _; left; by exists c, s|].
    destruct (Z.compare_spec (byte.unsigned c) (byte.unsigned d)) as [E|E|E]; [|done|].
    + apply byte.unsigned_inj in E as ->. intros [(x & r & ->)|(p & x & y & r & r' & -> & -> & Hlt)]%IH.
      * left. by exists x, r.
      * right. by exists (d :: p), x, y, r, r'.
    + intros _. right. exists [], c, d, s, t. split_and!; [done|done|lia].
  - intros [(c & r & ->)|(p & c & d & r & r' & -> & -> & Hlt)].
    + induction t as [|d t IH]; simpl; [done|]. by rewrite Z.compare_refl.
    + induction p as [|x p IH]; simpl; [|by rewrite Z.compare_refl].
      by destruct (Z.compare_spec (byte.unsigned c) (byte.unsigned d)); [lia|lia|].
Qed.

(** The marker splits the entries: what is kept starts at the first key after it. Without a
    marker, or when no key is after it, everything is kept. *)
Definition starts_after (marker : bytes) (skipped kept : list object_manifest) : Prop :=
  let after e := string_after (m_key e) marker in
  (skipped = [] ∧ (marker = [] ∨ Forall (λ e, ¬ after e) kept)) ∨
  (marker ≠ [] ∧ Forall (λ e, ¬ after e) skipped ∧ ∃ e, head kept = Some e ∧ after e).

Lemma find_start_spec marker l : ∀ i, (find_start marker l i = 0 ∧ Forall (λ e, strcmp (m_key e) marker ≠ Gt) l) ∨
  ∃ l1 e l2, l = l1 ++ e :: l2 ∧ find_start marker l i = i + length l1 ∧
    Forall (λ e, strcmp (m_key e) marker ≠ Gt) l1 ∧ strcmp (m_key e) marker = Gt.
Proof.
  induction l as [|e l IH]; intros i; simpl; [by left|]. case_decide as Hgt.
  - right. exists [], e, l. simpl. split_and!; [done|lia|done|done].
  - destruct (IH (S i)) as [[-> Hall]|(l1 & e' & l2 & -> & -> & Hall & He)]; [left; by split; [|constructor]|].
    right. exists (e :: l1), e', l2. simpl. split_and!; [done|lia|by constructor|done].
Qed.

Lemma list_start_spec sh marker : ∃ skipped, sh_entries sh = skipped ++ drop (list_start sh marker) (sh_entries sh) ∧
  starts_after (default [] marker) skipped (drop (list_start sh marker) (sh_entries sh)).
Proof.
  unfold starts_after. destruct marker as [[|c m]|]; simpl; [by exists []; split; [|left; split; [|left]]| |by exists []; split; [|left; split; [|left]]].
  destruct (find_start_spec (c :: m) (sh_entries sh) 0) as [[-> Hall]|(l1 & e & l2 & Hl & -> & Hall & He)].
  - exists []. split; [done|]. left. split; [done|]. right. eapply Forall_impl; [exact Hall|]. intros x Hx Ha. apply Hx. by apply strcmp_gt.
  - exists l1. rewrite Hl, Nat.add_0_l, drop_app_length. split; [done|]. right. split; [done|]. split.
    + eapply Forall_impl; [exact Hall|]. intros x Hx Ha. apply Hx. by apply strcmp_gt.
    + exists e. split; [done|]. by apply strcmp_gt.
Qed.

Lemma list_loop_spec bucket prefix max_keys l count :
  list_loop bucket prefix max_keys l count =
  take (Z.to_nat (max_keys - count))
    ((λ e, strncpy (m_key e) 63) <$> filter (list_keep bucket prefix) l).
Proof.
  revert count. induction l as [|e l IH]; intros count; simpl; [by rewrite take_nil|].
  destruct (decide (count < max_keys)%Z) as [Hlt|Hge].
  - destruct (decide (list_keep bucket prefix e)) as [[Hb Hp]|Hk].
    + rewrite filter_cons_True by done. rewrite decide_False by (by rewrite strcmp_eq; auto).
      rewrite decide_False.
      * rewrite IH. replace (Z.to_nat (max_keys - count)) with (S (Z.to_nat (max_keys - (count + 1)))) by lia.
        done.
      * intros [_ Hn]. apply Hn. unfold strncmp. rewrite Hp, take_ge by done. apply strcmp_refl.
    + rewrite filter_cons_False by done.
      destruct (decide (strcmp (m_bucket e) bucket ≠ Eq)) as [|Hb]; [by rewrite IH|].
      rewrite decide_True; [by rewrite IH|].
      assert (m_bucket e = bucket) as Hb' by (apply strcmp_eq; by destruct (decide (strcmp (m_bucket e) bucket = Eq))).
      split.
      * destruct prefix; simpl; [|lia]. exfalso. apply Hk. split; [done|]. by rewrite take_0.
      * unfold strncmp. rewrite strcmp_eq, (take_ge prefix) by done. intros Hp. by apply Hk.
  - replace (Z.to_nat (max_keys - count)) with 0 by lia. by rewrite take_0.
Qed.

(** ** Properties *)

(** C1. Refinement: starting from [meta_shard_create], any sequence of inserts,
    lookups and deletes returns exactly what the finite map specification
    returns, and leaves a shard that represents the specification's map and is
    well-formed: keys distinct, every fragment array live and owned once. *)
Theorem meta_shard_refines_map `{O : AllocOracle} ext h id parent name ops :
  (∀ n, alloc_ok n = true) →
  mem_wf h → ext ⊆ mem_cells h → Forall (op_valid ext) ops →
  (Z.of_nat (length ops) < 2 ^ 30)%Z →
  ∃ sh0 h0 sh h', meta_shard_create id parent name h = Some (Some sh0, h0) ∧
    shard_run ops (Some sh0) h0 = Some (((spec_run ext ops ∅).1, Some sh), h') ∧
    shard_rel (spec_run ext ops ∅).2 sh h' ∧ shard_wf ext sh h'.
Proof.
  intros Hok Hwf Hext Hops Hlen.
  destruct (create_rel Hok ext id parent name h) as (sh0 & h0 & E0 & Hnil & Hwf0 & Hrel0); [done..|].
  destruct (shard_run_simulates Hok ext ops ∅ sh0 h0) as (sh & h' & E & ? & ?); [done..| |].
  { unfold entry_count. by rewrite Hnil. }
  by exists sh0, h0, sh, h'.
Qed.

(** Two objects of one bucket, one with a fragment array of the caller. *)
Definition example_cells : gmap nat (list blob_location) := {[0 := [BlobLocation 7 0 64 0; BlobLocation 8 0 64 0]]}.
Definition example_heap : heap := Mem 1 example_cells.
Definition example_object : object_manifest :=
  Manifest (cs "bucket") (cs "a.txt") 128 0 1 1 2 (Some 0).
Definition example_plain : object_manifest :=
  Manifest (cs "bucket") (cs "b.txt") 64 0 2 1 0 None.

Lemma meta_shard_refines_map_witness :
  ∃ sh0 h0 sh h', meta_shard_create (O := no_oom) 1 0 None example_heap = Some (Some sh0, h0) ∧
    shard_run (O := no_oom)
      [OpInsert example_object; OpInsert example_plain; OpLookup (cs "bucket") (cs "a.txt");
       OpDelete (cs "bucket") (cs "a.txt"); OpLookup (cs "bucket") (cs "a.txt")] (Some sh0) h0 =
    Some (((spec_run example_cells
      [OpInsert example_object; OpInsert example_plain; OpLookup (cs "bucket") (cs "a.txt");
       OpDelete (cs "bucket") (cs "a.txt"); OpLookup (cs "bucket") (cs "a.txt")] ∅).1, Some sh), h') ∧
    shard_rel (spec_run example_cells
      [OpInsert example_object; OpInsert example_plain; OpLookup (cs "bucket") (cs "a.txt");
       OpDelete (cs "bucket") (cs "a.txt"); OpLookup (cs "bucket") (cs "a.txt")] ∅).2 sh h' ∧
    shard_wf example_cells sh h'.
Proof.
  apply meta_shard_refines_map; [done| |done| |done].
  - by apply mem_wf_bool.
  - repeat constructor. eexists. split; [reflexivity|done].
Defined.

(** C23. [meta_shard_destroy] is memory-safe and complete: on a well-formed shard it
    never frees an array twice, frees every array the shard owns and no other. *)
Theorem meta_shard_destroy_frees_owned ext sh h :
  shard_wf ext sh h →
  ∃ h', meta_shard_destroy (Some sh) h = Some (tt, h') ∧ ext ⊆ mem_cells h' ∧
    ∀ p, mem_cells h' !! p = if decide (p ∈ owned sh) then None else mem_cells h !! p.
Proof.
  intros Hwf. destruct (free_entries_spec (sh_entries sh) h) as (h' & E & Hh').
  { apply Hwf. } { intros p Hp. by apply (wf_live _ _ _ Hwf). }
  exists h'. split; [done|]. split; [|done].
  apply map_subseteq_spec. intros p arr Hp. rewrite Hh', decide_False.
  - eapply lookup_weaken; [done|apply Hwf].
  - intros Hown. destruct (wf_live _ _ _ Hwf p Hown). congruence.
Qed.

Definition example_shard : meta_shard :=
  Shard 1 0 [] [] [] 0 [set_fragments example_object (Some 3); example_plain] 1024.
Definition example_shard_heap : heap :=
  Mem 4 (<[3 := [BlobLocation 7 0 64 0; BlobLocation 8 0 64 0]]> example_cells).

Lemma example_shard_wf : shard_wf example_cells example_shard example_shard_heap.
Proof.
  split.
  - by apply mem_wf_bool.
  - vm_compute. repeat constructor; set_solver.
  - apply NoDup_singleton.
  - by intros p ->%list_elem_of_singleton.
  - by apply insert_subseteq.
  - done.
Qed.

Lemma meta_shard_destroy_frees_owned_witness :
  ∃ h', meta_shard_destroy (Some example_shard) example_shard_heap = Some (tt, h') ∧
    example_cells ⊆ mem_cells h' ∧
    ∀ p, mem_cells h' !! p =
      if decide (p ∈ owned example_shard) then None else mem_cells example_shard_heap !! p.
Proof. apply meta_shard_destroy_frees_owned, example_shard_wf. Defined.

(** Overwriting an entry leaks its fragment array: the array the replaced entry
    owned stays live, but no entry owns it any more, so nothing will free it. *)
Theorem meta_shard_update_leaks `{O : AllocOracle} ext sh h m index e p :
  (∀ n, alloc_ok n = true) →
  shard_wf ext sh h → manifest_valid ext m →
  find_entry sh (m_bucket m) (m_key m) = Some index → sh_entries sh !! index = Some e →
  m_fragments e = Some p →
  ∃ sh' h', meta_shard_insert (Some sh) (Some m) h = Some ((0%Z, Some sh'), h') ∧
    is_Some (mem_cells h' !! p) ∧ p ∉ owned sh'.
Proof.
  intros Hok Hwf Hm Hf Hi Hp.
  assert (Hown : p ∈ owned sh) by (eapply owned_elem; [by eapply list_elem_of_lookup_2|done]).
  unfold meta_shard_insert. rewrite Hf.
  destruct (copy_fragments_grows Hok ext m h) as (frags & h' & E & Hg); [apply Hwf|apply Hwf|done|].
  m_simpl. rewrite E. do 2 eexists. split; [done|]. split; [by eapply grows_live|].
  unfold owned. simpl. rewrite list_elem_of_omap. intros (e' & He' & Hp').
  apply list_elem_of_lookup in He' as [j Hj].
  apply list_lookup_insert_Some in Hj as [(_ & <- & _)|[Hne Hj]].
  - by eapply grows_not_owned.
  - pose proof (omap_delete_not_elem m_fragments (sh_entries sh) index e p (wf_owned _ _ _ Hwf) Hi Hp) as Hn.
    apply Hn, list_elem_of_omap. exists e'. split; [|done].
    by apply (elem_of_delete_ne _ index j).
Qed.

Lemma meta_shard_update_leaks_witness :
  ∃ sh' h', meta_shard_insert (O := no_oom) (Some example_shard) (Some example_object) example_shard_heap =
      Some ((0%Z, Some sh'), h') ∧
    is_Some (mem_cells h' !! 3) ∧ 3 ∉ owned sh'.
Proof.
  apply (meta_shard_update_leaks (O := no_oom) example_cells example_shard example_shard_heap
           example_object 0 (set_fragments example_object (Some 3))); try done.
  - apply example_shard_wf.
  - split; [done|]. eexists. split; [reflexivity|done].
Defined.

(** Out of memory: when the table is full and [realloc] fails, inserting a new
    key returns -1 and changes neither the shard nor any array. *)
Theorem meta_shard_insert_realloc_fails `{O : AllocOracle} sh m h :
  find_entry sh (m_bucket m) (m_key m) = None →
  (entry_count sh >= sh_entry_capacity sh)%Z → alloc_ok (mem_next h) = false →
  ∃ h', meta_shard_insert (Some sh) (Some m) h = Some (((-1)%Z, Some sh), h') ∧
    mem_cells h' = mem_cells h.
Proof.
  intros Hf Hfull Hoom. unfold meta_shard_insert, grow_entries.
  rewrite Hf, decide_True by done. m_simpl. rewrite Hoom. simpl. by eexists.
Qed.

Lemma list_from_start sh bucket prefix marker max_keys :
  meta_shard_list (Some sh) (Some bucket) prefix marker max_keys true =
  (0%Z, Some (take (Z.to_nat max_keys)
     ((λ e, strncpy (m_key e) 63) <$>
        filter (list_keep bucket (default [] prefix)) (drop (list_start sh marker) (sh_entries sh))))).
Proof. unfold meta_shard_list. rewrite list_loop_spec. by rewrite Z.sub_0_r. Qed.

(** C39. Listing returns, in storage order, the first [max_keys] keys of the bucket
    with the prefix among the entries from the first one on whose key comes after the marker
    (in the order of unsigned bytes, whatever bucket it is of), each cut to the 63
    bytes a result buffer holds; a NULL or empty prefix keeps every key, and the listing
    starts at the beginning when there is no marker and also when no key comes after it. *)
Theorem meta_shard_list_spec sh bucket prefix marker max_keys :
  ∃ skipped kept, sh_entries sh = skipped ++ kept ∧ starts_after (default [] marker) skipped kept ∧
  meta_shard_list (Some sh) (Some bucket) prefix marker max_keys true =
  (0%Z, Some (take (Z.to_nat max_keys)
     ((λ e, take 63 (m_key e)) <$> filter (list_keep bucket (default [] prefix)) kept))).
Proof.
  destruct (list_start_spec sh marker) as (skipped & Hsplit & Hstart).
  exists skipped, (drop (list_start sh marker) (sh_entries sh)). split; [exact Hsplit|]. split; [exact Hstart|].
  apply list_from_start.
Qed.

(** A marker after every stored key does not end the listing but restarts it:
    the same keys come back as with no marker at all. *)
Theorem meta_shard_list_restarts sh bucket prefix marker max_keys :
  Forall (λ e, strcmp (m_key e) marker ≠ Gt) (sh_entries sh) →
  meta_shard_list (Some sh) (Some bucket) prefix (Some marker) max_keys true =
  meta_shard_list (Some sh) (Some bucket) prefix None max_keys true.
Proof.
  intros Hall. rewrite !list_from_start. do 5 f_equal. destruct marker as [|c marker]; [done|].
  simpl. destruct (find_start_spec (c :: marker) (sh_entries sh) 0) as [[-> _]|(l1 & e & l2 & Hl & _ & _ & He)]; [done|].
  rewrite Hl, Forall_app, Forall_cons in Hall. by destruct Hall as (_ & Hn & _).
Qed.

Lemma meta_shard_list_restarts_witness :
  meta_shard_list (Some example_shard) (Some (cs "bucket")) None (Some (cs "b.txt")) 10 true =
    meta_shard_list (Some example_shard) (Some (cs "bucket")) None None 10 true ∧
  meta_shard_list (Some example_shard) (Some (cs "bucket")) None None 10 true =
    (0%Z, Some [cs "a.txt"; cs "b.txt"]).
Proof.
  split; [|by vm_compute].
  apply meta_shard_list_restarts. repeat constructor; by vm_compute.
Defined.

(** A split is refused while a child is loading and for fewer than two entries;
    otherwise the parent keeps all its entries, the child starts empty in the same
    bucket, and the next split is refused until the child is activated. *)
Theorem meta_shard_split_protocol `{O : AllocOracle} sh id h :
  (∀ n, alloc_ok n = true) →
  let refused := sh_has_loading_child sh ≠ 0%Z ∨ length (sh_entries sh) < 2 in
  ∃ child parent h', meta_shard_split (Some sh) id h = Some ((child, Some parent), h') ∧
    mem_cells h' = mem_cells h ∧ sh_entries parent = sh_entries sh ∧
    (refused → child = None ∧ parent = sh) ∧
    (¬ refused → ∃ c, child = Some c ∧ sh_entries c = [] ∧ sh_parent_shard_id c = sh_shard_id sh ∧
       sh_bucket_name c = strncpy (sh_bucket_name sh) META_MAX_BUCKET_LENGTH ∧
       (∀ id' h'', meta_shard_split (Some parent) id' h'' = Some ((None, Some parent), h'')) ∧
       meta_shard_has_loading_child (meta_shard_child_activated (Some parent)) = 0%Z).
Proof.
  intros Hok refused. unfold meta_shard_split, entry_count.
  destruct (decide (sh_has_loading_child sh ≠ 0%Z)) as [Hl|Hl].
  { m_simpl. do 3 eexists. split_and!; [done..|]. intros []. by left. }
  pose proof (Z.quot_div_nonneg (Z.of_nat (length (sh_entries sh))) 2 ltac:(lia) ltac:(lia)) as Hq.
  case_decide as Hm.
  { m_simpl. do 3 eexists. split_and!; [done..|]. intros []. right.
    rewrite Hq in Hm. Z.to_euclidean_division_equations. lia. }
  unfold meta_shard_create. m_simpl. do 2 (rewrite Hok; simpl).
  do 3 eexists. split; [done|]. split_and!; [done|done| |].
  { intros [?|?]; [done|]. exfalso. apply Hm. rewrite Hq. rewrite Z.div_small; lia. }
  intros _. eexists. split_and!; done.
Qed.

Lemma meta_shard_insert_realloc_fails_witness :
  ∃ h', meta_shard_insert (O := λ _, false) (Some (Shard 1 0 [] [] [] 0 [example_plain] 1))
      (Some example_object) example_heap =
      Some (((-1)%Z, Some (Shard 1 0 [] [] [] 0 [example_plain] 1)), h') ∧
    mem_cells h' = mem_cells example_heap.
Proof. by apply (meta_shard_insert_realloc_fails (O := λ _, false)); vm_compute. Defined.

Lemma meta_shard_split_protocol_witness :
  ∃ child parent h', meta_shard_split (O := no_oom) (Some example_shard) 2 example_shard_heap =
      Some ((child, Some parent), h') ∧
    sh_entries parent = sh_entries example_shard ∧ is_Some child.
Proof.
  destruct (meta_shard_split_protocol (O := no_oom) example_shard 2 example_shard_heap)
    as (child & parent & h' & E & _ & Hp & _ & Hc); [done|].
  exists child, parent, h'. split; [done|]. split; [done|].
  destruct Hc as (c & -> & _); [vm_compute; intros [?|?]; [done|lia]|done].
Defined.
