(* ===== verification/BucketRegistry.v ===== *)
(** * The bucket registry ([src/meta/meta_bucket_registry.c])

    A bounded append-only array of bucket entries with distinct names. *)
From S2P Require Import Prelude Memory.
From stdpp Require Import options.

(** [bucket_entry_t] of [meta_types.h]. *)
Record bucket_entry := BucketEntry {
  be_name : bytes;
  be_shard_id : Z;
  be_replication_mode : Z;
  be_erasure_coding_policy : Z
}.

#[export] Instance bucket_entry_eq_dec : EqDecision bucket_entry.
Proof. solve_decision. Defined.

Definition REGISTRY_MAXIMUM : nat := N.to_nat 10000.

(** [entries[0 .. count-1]]. *)
Record bucket_registry := Registry { br_entries : list bucket_entry }.

Definition br_count (r : bucket_registry) : nat := length (br_entries r).

Section registry.
Context {O : AllocOracle} {A : Type}.

Definition bucket_registry_create : M A (option bucket_registry) :=
  ok ← try_alloc; mret (if (ok : bool) then Some (Registry []) else None).
End registry.

Definition bucket_registry_add (registry : option bucket_registry) (entry : option bucket_entry)
    : Z * option bucket_registry :=
  match registry, entry with
  | Some r, Some e =>
      if decide (REGISTRY_MAXIMUM ≤ br_count r) then ((-1)%Z, registry)
      else match list_find (λ e', strcmp (be_name e') (be_name e) = Eq) (br_entries r) with
           | Some _ => ((-1)%Z, registry)
           | None => (0%Z, Some (Registry (br_entries r ++ [e])))
           end
  | _, _ => ((-1)%Z, registry)
  end.

Definition bucket_registry_lookup (registry : option bucket_registry) (bucket : option bytes)
    (entry_out : option bucket_entry) : Z * option bucket_entry :=
  match registry, bucket, entry_out with
  | Some r, Some b, Some _ =>
      match list_find (λ e, strcmp (be_name e) b = Eq) (br_entries r) with
      | Some (_, e) => (0%Z, Some e)
      | None => ((-1)%Z, entry_out)
      end
  | _, _, _ => ((-1)%Z, entry_out)
  end.

Arguments bucket_registry_add : simpl never.
Arguments bucket_registry_lookup : simpl never.

(** ** The map a registry stands for *)

(** Names are distinct and the array is within its bound. *)
Definition registry_wf (r : bucket_registry) : Prop :=
  NoDup (be_name <$> br_entries r) ∧ br_count r ≤ REGISTRY_MAXIMUM.

Definition registry_rel (a : gmap bytes bucket_entry) (r : bucket_registry) : Prop :=
  ∀ n, a !! n = assoc_get be_name n (br_entries r).

(** The specification: the first entry added under a name stays, and [full] says
    that no further name is accepted. *)
Definition registry_spec_add (a : gmap bytes bucket_entry) (e : bucket_entry)
    : Z * gmap bytes bucket_entry :=
  if decide (size a = REGISTRY_MAXIMUM) then ((-1)%Z, a)
  else match a !! be_name e with
       | Some _ => ((-1)%Z, a)
       | None => (0%Z, <[be_name e := e]> a)
       end.

Fixpoint registry_spec_run (es : list bucket_entry) (a : gmap bytes bucket_entry)
    : list Z * gmap bytes bucket_entry :=
  match es with
  | [] => ([], a)
  | e :: es =>
      let '(rc, a) := registry_spec_add a e in
      let '(rcs, a) := registry_spec_run es a in (rc :: rcs, a)
  end.

Fixpoint registry_run (es : list bucket_entry) (r : option bucket_registry)
    : list Z * option bucket_registry :=
  match es with
  | [] => ([], r)
  | e :: es =>
      let '(rc, r) := bucket_registry_add r (Some e) in
      let '(rcs, r) := registry_run es r in (rc :: rcs, r)
  end.

Lemma registry_find n r :
  list_find (λ e, strcmp (be_name e) n = Eq) (br_entries r) = assoc_find be_name n (br_entries r).
Proof. apply list_find_ext. intros e. apply strcmp_eq. Qed.

(** Distinct names: the map has as many entries as the array. *)
Lemma registry_size a r : registry_wf r → registry_rel a r → size a = br_count r.
Proof.
  intros [Hnd _] Hrel.
  assert (a = list_to_map ((λ e, (be_name e, e)) <$> br_entries r)) as ->.
  { apply map_eq. intros n. rewrite Hrel. clear Hrel.
    induction (br_entries r) as [|e l IH]; [done|].
    rewrite assoc_get_cons. simpl. apply NoDup_cons in Hnd as [_ Hnd].
    rewrite lookup_insert. case_decide; [done|]. by apply IH. }
  rewrite <-length_map_to_list, map_to_list_to_map.
  - by rewrite length_fmap.
  - by rewrite <-list_fmap_compose.
Qed.

Lemma registry_add_simulates a r e :
  registry_wf r → registry_rel a r →
  ∃ r', bucket_registry_add (Some r) (Some e) = ((registry_spec_add a e).1, Some r') ∧
    registry_wf r' ∧ registry_rel (registry_spec_add a e).2 r'.
Proof.
  intros Hwf Hrel. unfold bucket_registry_add, registry_spec_add.
  rewrite registry_find. erewrite registry_size by done.
  destruct Hwf as [Hnd Hle].
  destruct (decide (br_count r = REGISTRY_MAXIMUM)) as [Hfull|Hfull].
  { rewrite decide_True by lia. by exists r. }
  rewrite decide_False by lia. rewrite Hrel. unfold assoc_get.
  destruct (assoc_find be_name (be_name e) (br_entries r)) as [[i e']|] eqn:Hf; simpl.
  { by exists r. }
  eexists. split; [done|]. apply assoc_find_None in Hf. split; [split|].
  - simpl. rewrite fmap_app. apply NoDup_app. split_and!; [done| |apply NoDup_singleton].
    by intros n Hn ->%list_elem_of_singleton.
  - unfold br_count in *. simpl. rewrite length_app. simpl. lia.
  - intros n. simpl. rewrite assoc_get_app, assoc_get_cons, lookup_insert, Hrel.
    destruct (decide (be_name e = n)) as [<-|].
    + by apply (assoc_get_None be_name) in Hf as ->.
    + by destruct (assoc_get be_name n (br_entries r)).
Qed.

(** ** Properties *)

(** C36. Refinement: whatever entries are added to an empty registry, the result
    codes and the final content are those of a finite map in which the first entry
    under a name stays and the 10001st name is refused, and a lookup returns the
    map's entry or -1 with the out parameter untouched. *)
Theorem bucket_registry_refines_map (es : list bucket_entry) (n : bytes) (out : bucket_entry) :
  ∃ r, registry_run es (Some (Registry [])) = ((registry_spec_run es ∅).1, Some r) ∧
    registry_wf r ∧
    bucket_registry_lookup (Some r) (Some n) (Some out) =
      match (registry_spec_run es ∅).2 !! n with
      | Some e => (0%Z, Some e)
      | None => ((-1)%Z, Some out)
      end.
Proof.
  assert (∀ a r, registry_wf r → registry_rel a r →
    ∃ r', registry_run es (Some r) = ((registry_spec_run es a).1, Some r') ∧
      registry_wf r' ∧ registry_rel (registry_spec_run es a).2 r') as Hrun.
  { induction es as [|e es IH]; intros a r Hwf Hrel; simpl; [by exists r|].
    destruct (registry_add_simulates a r e) as (r1 & E1 & Hwf1 & Hrel1); [done..|].
    destruct (registry_spec_add a e) as [rc a1]. rewrite E1. simpl in *.
    destruct (IH a1 r1) as (r2 & E2 & ?); [done..|].
    destruct (registry_spec_run es a1) as [rcs a2]. rewrite E2. by exists r2. }
  destruct (Hrun ∅ (Registry [])) as (r & E & Hwf & Hrel).
  { split; [apply NoDup_nil_2|unfold br_count; simpl; lia]. } { done. }
  exists r. split; [done|]. split; [done|].
  unfold bucket_registry_lookup. rewrite registry_find, Hrel. unfold assoc_get.
  by destruct (assoc_find be_name n (br_entries r)) as [[i e]|].
Qed.
