(* ===== verification/MetaCheckpoint.v ===== *)
(** * Checkpoints ([src/meta/meta_checkpoint.c])

    A checkpoint is an image in one static buffer of 1 MiB: a header and, for each
    entry, its names as C strings and four little-endian fields.  Every access is
    checked against the buffer; one outside it is undefined behaviour ([None]). *)
From S2P Require Import Prelude Memory MetaTypes MetaShard.
From stdpp Require Import options.

Definition CHECKPOINT_HEADER_MAGIC : Z := 0x4D434B50.
Definition CHECKPOINT_BUFFER_SIZE : Z := 1024 * 1024.
(** [sizeof(checkpoint_header_t)]. *)
Definition CHECKPOINT_HEADER_SIZE : nat := 32.

(** [g_checkpoint_buffer] and [g_checkpoint_id_counter]. *)
Record checkpoint_globals := CheckpointGlobals {
  g_checkpoint_buffer : bytes;
  g_checkpoint_id_counter : Z
}.

Definition globals_wf (g : checkpoint_globals) : Prop :=
  Z.of_nat (length (g_checkpoint_buffer g)) = CHECKPOINT_BUFFER_SIZE.

(** [memcpy(cursor, data, n); cursor += n;] with the cursor as an offset. *)
Definition put_at (data : bytes) (st : nat * bytes) : option (nat * bytes) :=
  buf ← overlay st.1 data st.2; Some (st.1 + length data, buf).

Fixpoint put_all (fields : list bytes) (st : nat * bytes) : option (nat * bytes) :=
  match fields with
  | [] => Some st
  | data :: fields => st ← put_at data st; put_all fields st
  end.

Definition header_fields (sequence shard_id count : Z) : list bytes :=
  [put_le 8 CHECKPOINT_HEADER_MAGIC; put_le 8 sequence; put_le 8 shard_id;
   put_le 4 (u32 count); put_le 4 0].

Definition entry_fields (m : object_manifest) : list bytes :=
  [m_bucket m ++ [NUL]; m_key m ++ [NUL]; put_le 8 (m_size m); put_le 4 (m_checksum m);
   put_le 8 (m_write_sequence m); put_le 4 (m_datacenter_id m)].

(** The code, the id stored through [checkpoint_blob_id_out] and the globals. *)
Definition meta_checkpoint_write (shard : option meta_shard) (sequence : Z) (out : bool)
    (g : checkpoint_globals) : option (Z * option Z * checkpoint_globals) :=
  match shard, out with
  | Some sh, true =>
      st ← put_all (header_fields sequence (meta_shard_get_id shard) (meta_shard_get_count shard))
             (0, g_checkpoint_buffer g);
      '(cursor, buf) ← put_all (default [] (meta_shard_get_entries shard) ≫= entry_fields) st;
      let id := u64 (g_checkpoint_id_counter g + 1) in
      Some (i32 (Z.of_nat cursor), Some id, CheckpointGlobals buf id)
  | _, _ => Some ((-1)%Z, None, g)
  end.

(** [strlen(cursor)] and [strncpy]: the string at the cursor and what follows its
    terminator. *)
Fixpoint read_string (m : bytes) : option (bytes * bytes) :=
  match m with
  | [] => None
  | c :: m' => if decide (c = NUL) then Some ([], m')
               else '(s, rest) ← read_string m'; Some (c :: s, rest)
  end.

(** [memcpy] of an [n]-byte field at the cursor. *)
Definition read_field (n : nat) (m : bytes) : option (Z * bytes) :=
  if decide (n ≤ length m) then Some (get_le n m, drop n m) else None.

(** One iteration's manifest and the cursor after it. *)
Definition read_entry (m : bytes) : option (object_manifest * bytes) :=
  '(bucket, m) ← read_string m;
  '(key, m) ← read_string m;
  '(size, m) ← read_field 8 m;
  '(checksum, m) ← read_field 4 m;
  '(seq, m) ← read_field 8 m;
  '(dc, m) ← read_field 4 m;
  Some (Manifest (strncpy bucket META_MAX_BUCKET_LENGTH) (strncpy key META_MAX_KEY_LENGTH)
          size checksum seq dc 0 None, m).

Section read.
Context {O : AllocOracle}.

Fixpoint read_entries (n : nat) (m : bytes) (shard : option meta_shard)
    : M (list blob_location) (option meta_shard) :=
  match n with
  | 0 => mret shard
  | S n =>
      match read_entry m with
      | None => λ _, None
      | Some (manifest, m) =>
          '(_, shard) ← meta_shard_insert shard (Some manifest);
          read_entries n m shard
      end
  end.

Definition meta_checkpoint_read (shard : option meta_shard) (checkpoint_blob_id : Z)
    (g : checkpoint_globals) : M (list blob_location) (Z * option meta_shard) :=
  match shard with
  | None => mret ((-1)%Z, shard)
  | Some _ =>
      let buf := g_checkpoint_buffer g in
      if decide (get_le 8 buf ≠ CHECKPOINT_HEADER_MAGIC) then mret ((-1)%Z, shard) else
      let entry_count := get_le 4 (drop 24 buf) in
      shard ← read_entries (Z.to_nat entry_count) (drop CHECKPOINT_HEADER_SIZE buf) shard;
      mret (0%Z, shard)
  end.
End read.

(** ** The image *)

(** The bytes a checkpoint consists of. *)
Definition checkpoint_image (sequence : Z) (sh : meta_shard) : bytes :=
  concat (header_fields sequence (sh_shard_id sh) (entry_count sh)) ++
  concat (sh_entries sh ≫= entry_fields).

(** What a checkpoint keeps of a manifest: everything but the fragments. *)
Definition checkpointed (m : object_manifest) : object_manifest :=
  Manifest (m_bucket m) (m_key m) (m_size m) (m_checksum m) (m_write_sequence m)
    (m_datacenter_id m) 0 None.

Lemma put_all_app fs1 fs2 st :
  put_all (fs1 ++ fs2) st = st ← put_all fs1 st; put_all fs2 st.
Proof.
  revert st. induction fs1 as [|f fs1 IH]; intros st; simpl; [done|].
  destruct (put_at f st); simpl; [apply IH|done].
Qed.

(** Consecutive copies overlay their concatenation, when it fits. *)
Lemma put_all_spec fs cursor buf :
  cursor ≤ length buf →
  put_all fs (cursor, buf) =
    (buf ← overlay cursor (concat fs) buf; Some (cursor + length (concat fs), buf)).
Proof.
  revert cursor buf. induction fs as [|f fs IH]; intros cursor buf Hc; simpl.
  - unfold overlay. rewrite decide_True by (simpl; lia). simpl. by rewrite Nat.add_0_r, take_drop.
  - rewrite <-overlay_app. unfold put_at. simpl.
    destruct (overlay cursor f buf) as [buf1|] eqn:E; simpl; [|done].
    rewrite IH; [|unfold overlay in E; case_decide; [|done]; injection E as <-;
                  rewrite !length_app, length_take, length_drop; lia].
    rewrite length_app, Nat.add_assoc. done.
Qed.

Lemma header_length sequence shard_id count :
  length (concat (header_fields sequence shard_id count)) = CHECKPOINT_HEADER_SIZE.
Proof. unfold header_fields. simpl. by rewrite !length_app, !put_le_length. Qed.

(** What the reader finds in a header. *)
Lemma header_read sequence shard_id count rest :
  let image := concat (header_fields sequence shard_id count) ++ rest in
  get_le 8 image = CHECKPOINT_HEADER_MAGIC ∧ get_le 4 (drop 24 image) = u32 count ∧
  drop CHECKPOINT_HEADER_SIZE image = rest.
Proof.
  intros image. split_and!.
  - unfold image, header_fields. simpl. rewrite <-!app_assoc. by apply get_put_le.
  - unfold image, header_fields. simpl. rewrite <-!app_assoc.
    change 24 with (8 + (8 + 8)). rewrite <-!drop_drop, !drop_put_le.
    apply get_put_le, wrap_fits. lia.
  - apply drop_app_length'. by rewrite header_length.
Qed.

(** A write overlays the image on the buffer, or runs over its end. *)
Lemma write_overlays sh sequence g :
  meta_checkpoint_write (Some sh) sequence true g =
    let image := checkpoint_image sequence sh in
    let id := u64 (g_checkpoint_id_counter g + 1) in
    if decide (length image ≤ length (g_checkpoint_buffer g))
    then Some (i32 (Z.of_nat (length image)), Some id,
           CheckpointGlobals (image ++ drop (length image) (g_checkpoint_buffer g)) id)
    else None.
Proof.
  unfold meta_checkpoint_write.
  change (meta_shard_get_id (Some sh)) with (sh_shard_id sh).
  change (meta_shard_get_count (Some sh)) with (entry_count sh).
  change (default [] (meta_shard_get_entries (Some sh))) with (sh_entries sh).
  assert (concat (header_fields sequence (sh_shard_id sh) (entry_count sh) ++
            (sh_entries sh ≫= entry_fields)) = checkpoint_image sequence sh) as Himg
    by apply concat_app.
  generalize dependent (header_fields sequence (sh_shard_id sh) (entry_count sh)).
  generalize dependent (checkpoint_image sequence sh). intros image hf Himg.
  pose proof (put_all_app hf (sh_entries sh ≫= entry_fields) (0, g_checkpoint_buffer g)) as Happ.
  rewrite put_all_spec, Himg in Happ by lia. simpl in Happ.
  unfold overlay in Happ. destruct (put_all hf _) as [st|]; simpl in Happ |- *; [rewrite <-Happ|]; by case_decide.
Qed.

(** ** Reading back *)

Lemma read_string_terminated s rest : c_ok s → read_string (s ++ NUL :: rest) = Some (s, rest).
Proof.
  unfold c_ok. induction s as [|c s IH]; intros Hs; simpl; [done|].
  rewrite decide_False by set_solver. by rewrite IH by set_solver.
Qed.

Lemma read_field_put n z rest :
  fits (8 * Z.of_nat n) z → read_field n (put_le n z ++ rest) = Some (z, rest).
Proof.
  intros Hz. unfold read_field. rewrite length_app, put_le_length, decide_True by lia.
  by rewrite get_put_le, drop_put_le.
Qed.

Lemma read_entry_fields m rest :
  manifest_typed m → read_entry (concat (entry_fields m) ++ rest) = Some (checkpointed m, rest).
Proof.
  intros (Hb & Hbl & Hk & Hkl & Hs & Hc & Hw & Hd & _). unfold read_entry, entry_fields. simpl.
  rewrite <-!app_assoc. simpl.
  rewrite read_string_terminated by done. simpl.
  rewrite read_string_terminated by done. simpl.
  do 4 (rewrite read_field_put by done; simpl). by rewrite !strncpy_short.
Qed.

(** ** Size *)

(** The bytes an entry takes: its names with their terminators, 8 + 4 + 8 + 4. *)
Definition entry_size (m : object_manifest) : Z :=
  Z.of_nat (length (m_bucket m)) + Z.of_nat (length (m_key m)) + 26.

Definition checkpoint_size (sh : meta_shard) : Z :=
  32 + foldr (λ m n, entry_size m + n)%Z 0%Z (sh_entries sh).

Lemma entry_fields_length m : Z.of_nat (length (concat (entry_fields m))) = entry_size m.
Proof.
  unfold entry_fields, entry_size. simpl.
  rewrite !length_app, !put_le_length. simpl. lia.
Qed.

Lemma checkpoint_image_length sequence sh :
  Z.of_nat (length (checkpoint_image sequence sh)) = checkpoint_size sh.
Proof.
  unfold checkpoint_image, checkpoint_size. rewrite length_app, header_length, Nat2Z.inj_add.
  f_equal. induction (sh_entries sh) as [|m l IH]; [done|].
  rewrite bind_cons, concat_app, length_app, Nat2Z.inj_add, IH, entry_fields_length. done.
Qed.

(** ** The round trip *)

Section roundtrip.
#[local] Set Default Proof Using "Type*".
Context {O : AllocOracle} (never_oom : ∀ n, alloc_ok n = true).
Context (ext : gmap nat (list blob_location)).

Lemma read_entries_spec ms rest a sh h :
  shard_wf ext sh h → shard_rel a sh h → Forall manifest_typed ms →
  (entry_count sh + Z.of_nat (length ms) < 2 ^ 30)%Z →
  ∃ sh' h', read_entries (length ms) (concat (ms ≫= entry_fields) ++ rest) (Some sh) h =
      Some (Some sh', h') ∧
    shard_wf ext sh' h' ∧ shard_rel (store_all ext (checkpointed <$> ms) a) sh' h' ∧
    (entry_count sh' ≤ entry_count sh + Z.of_nat (length ms))%Z.
Proof.
  intros Hwf Hrel Hms. revert a sh h Hwf Hrel.
  induction Hms as [|m ms Hm Hms IH]; intros a sh h Hwf Hrel Hsize.
  { exists sh, h. split_and!; [done..|simpl; lia]. }
  rewrite bind_cons, concat_app, <-app_assoc. cbn [length read_entries] in *.
  rewrite read_entry_fields by done.
  destruct (insert_step never_oom ext a sh h (checkpointed m)) as (sh1 & h1 & E1 & Hwf1 & Hrel1 & Hc1);
    [done..|lia|].
  destruct (IH _ sh1 h1 Hwf1 Hrel1) as (sh2 & h2 & E2 & Hwf2 & Hrel2 & Hc2); [lia|].
  exists sh2, h2. m_simpl. rewrite E1. split_and!; [done..|lia].
Qed.

(** Reading an image stores its entries over what the shard holds. *)
Lemma read_image sequence id sh0 cnt rest a sh h :
  Forall manifest_typed (sh_entries sh0) → (entry_count sh0 < 2 ^ 29)%Z →
  shard_wf ext sh h → shard_rel a sh h → (entry_count sh < 2 ^ 29)%Z →
  ∃ sh' h', meta_checkpoint_read (Some sh) id
      (CheckpointGlobals (checkpoint_image sequence sh0 ++ rest) cnt) h = Some ((0%Z, Some sh'), h') ∧
    shard_wf ext sh' h' ∧ shard_rel (store_all ext (checkpointed <$> sh_entries sh0) a) sh' h' ∧
    (entry_count sh' ≤ entry_count sh + entry_count sh0)%Z.
Proof.
  intros Hty H0 Hwf Hrel Hsize.
  destruct (read_entries_spec (sh_entries sh0) rest a sh h) as (sh' & h' & E & ?); [done..| |].
  { unfold entry_count in *. lia. }
  exists sh', h'. split; [|done]. unfold meta_checkpoint_read. cbn [g_checkpoint_buffer].
  unfold checkpoint_image. rewrite <-app_assoc.
  destruct (header_read sequence (sh_shard_id sh0) (entry_count sh0)
    (concat (sh_entries sh0 ≫= entry_fields) ++ rest)) as (-> & -> & ->).
  rewrite decide_False by auto. rewrite wrap_small by (unfold fits, entry_count in *; lia).
  unfold entry_count. rewrite Nat2Z.id. by rewrite (M_bind_Some _ _ _ _ _ E).
Qed.

(** A shard that fits is written, and read back over what another shard holds. *)
Lemma write_then_read sh0 sequence g a sh h id :
  globals_wf g → (checkpoint_size sh0 <= CHECKPOINT_BUFFER_SIZE)%Z →
  Forall manifest_typed (sh_entries sh0) → (entry_count sh0 < 2 ^ 29)%Z →
  shard_wf ext sh h → shard_rel a sh h → (entry_count sh < 2 ^ 29)%Z →
  ∃ id0 g' sh' h',
    meta_checkpoint_write (Some sh0) sequence true g = Some (checkpoint_size sh0, Some id0, g') ∧
    meta_checkpoint_read (Some sh) id g' h = Some ((0%Z, Some sh'), h') ∧
    shard_wf ext sh' h' ∧ shard_rel (store_all ext (checkpointed <$> sh_entries sh0) a) sh' h' ∧
    (entry_count sh' ≤ entry_count sh + entry_count sh0)%Z.
Proof.
  intros Hg Hfit Hty Hc0 Hwf Hrel Hc. unfold globals_wf in Hg.
  pose proof (checkpoint_image_length sequence sh0) as Hlen.
  rewrite write_overlays. cbn zeta. rewrite decide_True by lia.
  assert (i32 (Z.of_nat (length (checkpoint_image sequence sh0))) = checkpoint_size sh0) as ->.
  { rewrite Hlen. apply i32_small. unfold CHECKPOINT_BUFFER_SIZE in Hfit. lia. }
  destruct (read_image sequence id sh0 (u64 (g_checkpoint_id_counter g + 1))
    (drop (length (checkpoint_image sequence sh0)) (g_checkpoint_buffer g)) a sh h)
    as (sh' & h' & E & H); [done..|].
  do 4 eexists. split; [done|]. split; [exact E|exact H].
Qed.
End roundtrip.

(** With distinct keys, storing is the union with the new entries first. *)
Lemma store_all_checkpointed ext ms a k :
  NoDup (manifest_key <$> ms) →
  store_all ext (checkpointed <$> ms) a !! k =
    match assoc_get manifest_key k ms with
    | Some m => Some (stored_value ext (checkpointed m))
    | None => a !! k
    end.
Proof.
  intros Hnd. assert (manifest_key <$> (checkpointed <$> ms) = manifest_key <$> ms) as Hk
    by (rewrite <-list_fmap_compose; by apply list_fmap_ext).
  destruct (assoc_get manifest_key k ms) as [m|] eqn:Hm.
  - unfold assoc_get in Hm. apply fmap_Some in Hm as ([i m'] & (Hi & <- & _)%assoc_find_Some & ->).
    apply (store_all_last ext (checkpointed <$> ms) a i (checkpointed m')).
    + by rewrite list_lookup_fmap, Hi.
    + rewrite fmap_drop, Hk.
      rewrite <-(take_drop (S i) (manifest_key <$> ms)) in Hnd.
      apply NoDup_app in Hnd as (_ & Hd & _). apply Hd.
      apply list_elem_of_lookup. exists i. rewrite lookup_take_lt, list_lookup_fmap, Hi by lia. done.
  - apply store_all_lookup_ne. rewrite Hk. by apply (assoc_get_None manifest_key).
Qed.

(** ** Properties *)

(** C17. Round trip: a shard whose image fits the buffer is written, and reading the
    buffer stores exactly its entries, each without its fragments, over what the
    reading shard holds: a fresh shard gets the written shard's map. *)
Theorem checkpoint_roundtrip `{O : AllocOracle} (ext : gmap nat (list blob_location))
    sh0 sequence g a sh h id :
  (∀ n, alloc_ok n = true) → globals_wf g → (checkpoint_size sh0 <= CHECKPOINT_BUFFER_SIZE)%Z →
  NoDup (shard_keys sh0) → Forall manifest_typed (sh_entries sh0) → (entry_count sh0 < 2 ^ 29)%Z →
  shard_wf ext sh h → shard_rel a sh h → (entry_count sh < 2 ^ 29)%Z →
  ∃ id0 g' sh' h' a',
    meta_checkpoint_write (Some sh0) sequence true g = Some (checkpoint_size sh0, Some id0, g') ∧
    meta_checkpoint_read (Some sh) id g' h = Some ((0%Z, Some sh'), h') ∧
    shard_wf ext sh' h' ∧ shard_rel a' sh' h' ∧
    ∀ k, a' !! k = match assoc_get manifest_key k (sh_entries sh0) with
                   | Some m => Some (MValue (m_size m) (m_checksum m) (m_write_sequence m)
                                       (m_datacenter_id m) 0 None)
                   | None => a !! k
                   end.
Proof.
  intros Hok Hg Hfit Hnd Hty Hc0 Hwf Hrel Hc.
  destruct (write_then_read Hok ext sh0 sequence g a sh h id) as (id0 & g' & sh' & h' & E1 & E2 & Hwf' & Hrel' & _); [done..|].
  exists id0, g', sh', h', (store_all ext (checkpointed <$> sh_entries sh0) a). split_and!; [done..|].
  intros k. rewrite store_all_checkpointed by done. by destruct (assoc_get _ _ _).
Qed.

(** C26. The buffer bound: a checkpoint is written without touching memory outside the
    1 MiB buffer exactly when its header and entries fit it; then the result is the
    image's length and the buffer keeps its size. There is no check in between. *)
Theorem checkpoint_write_bounds sh sequence g :
  globals_wf g →
  (is_Some (meta_checkpoint_write (Some sh) sequence true g) ↔
     (checkpoint_size sh <= CHECKPOINT_BUFFER_SIZE)%Z) ∧
  (∀ rc id g', meta_checkpoint_write (Some sh) sequence true g = Some (rc, id, g') →
     rc = checkpoint_size sh ∧ globals_wf g').
Proof.
  unfold globals_wf. intros Hg. rewrite write_overlays. cbn zeta.
  pose proof (checkpoint_image_length sequence sh) as Hlen.
  case_decide as Hfit; split.
  - split; [lia|eauto].
  - intros rc id g' [= <- <- <-]. simpl. rewrite length_app, length_drop, Hlen. split; [|lia].
    apply i32_small. unfold CHECKPOINT_BUFFER_SIZE in Hg. lia.
  - split; [by intros []|lia].
  - done.
Qed.

(** Only the last checkpoint can be read: after two checkpoints, reading the
    first one's id loads the entries of the second. *)
Theorem checkpoint_last_wins `{O : AllocOracle} (ext : gmap nat (list blob_location))
    sh1 seq1 g rc1 id1 g1 sh2 seq2 a sh h :
  (∀ n, alloc_ok n = true) → globals_wf g →
  meta_checkpoint_write (Some sh1) seq1 true g = Some (rc1, Some id1, g1) →
  (checkpoint_size sh2 <= CHECKPOINT_BUFFER_SIZE)%Z →
  Forall manifest_typed (sh_entries sh2) → (entry_count sh2 < 2 ^ 29)%Z →
  shard_wf ext sh h → shard_rel a sh h → (entry_count sh < 2 ^ 29)%Z →
  ∃ rc2 id2 g2 sh' h',
    meta_checkpoint_write (Some sh2) seq2 true g1 = Some (rc2, Some id2, g2) ∧
    id2 = u64 (id1 + 1) ∧
    meta_checkpoint_read (Some sh) id1 g2 h = Some ((0%Z, Some sh'), h') ∧
    shard_rel (store_all ext (checkpointed <$> sh_entries sh2) a) sh' h'.
Proof.
  intros Hok Hg H1 Hfit Hty Hc2 Hwf Hrel Hc. unfold globals_wf in *.
  pose proof (checkpoint_image_length seq1 sh1) as Hlen1.
  pose proof (checkpoint_image_length seq2 sh2) as Hlen2.
  rewrite write_overlays in H1. cbn zeta in H1. case_decide; [|done]. injection H1 as <- <- <-.
  rewrite write_overlays. cbn zeta. simpl. rewrite decide_True by (rewrite length_app, length_drop; lia).
  destruct (read_image Hok ext seq2 (u64 (g_checkpoint_id_counter g + 1)) sh2
    (u64 (u64 (g_checkpoint_id_counter g + 1) + 1))
    (drop (length (checkpoint_image seq2 sh2)) (checkpoint_image seq1 sh1 ++
       drop (length (checkpoint_image seq1 sh1)) (g_checkpoint_buffer g))) a sh h)
    as (sh' & h' & E & _ & Hrel' & _); [done..|].
  by do 5 eexists.
Qed.

(** The static buffer at start-up. *)
Definition initial_globals : checkpoint_globals :=
  CheckpointGlobals (replicate (Z.to_nat CHECKPOINT_BUFFER_SIZE) NUL) 0.

Lemma initial_globals_wf : globals_wf initial_globals.
Proof. unfold globals_wf. cbn [initial_globals g_checkpoint_buffer]. rewrite length_replicate. apply Z2Nat.id. by vm_compute. Qed.
Lemma initial_counter : g_checkpoint_id_counter initial_globals = 0%Z.
Proof. done. Qed.
#[global] Opaque initial_globals.

Definition fresh_shard : meta_shard := Shard 9 0 [] [] [] 0 [] 1024.

Lemma fresh_shard_ok : shard_wf example_cells fresh_shard example_shard_heap ∧
  shard_rel ∅ fresh_shard example_shard_heap.
Proof.
  split; [|by intros k; rewrite lookup_empty].
  split; try done; [by apply mem_wf_bool|by apply NoDup_nil_2|by apply NoDup_nil_2|set_solver|].
  by apply insert_subseteq.
Qed.

Lemma example_shard_typed : Forall manifest_typed (sh_entries example_shard).
Proof. apply (bool_decide_unpack _). by vm_compute. Qed.

Lemma checkpoint_roundtrip_witness :
  ∃ id0 g' sh' h' a',
    meta_checkpoint_write (Some example_shard) 12 true initial_globals = Some (106%Z, Some id0, g') ∧
    meta_checkpoint_read (O := no_oom) (Some fresh_shard) 1 g' example_shard_heap = Some ((0%Z, Some sh'), h') ∧
    shard_rel a' sh' h' ∧ a' !! (cs "bucket", cs "b.txt") = Some (MValue 64 0 2 1 0 None).
Proof.
  destruct (checkpoint_roundtrip (O := no_oom) example_cells example_shard 12 initial_globals ∅
    fresh_shard example_shard_heap 1) as (id0 & g' & sh' & h' & a' & E1 & E2 & _ & E3 & E4).
  - done.
  - apply initial_globals_wf.
  - by vm_compute.
  - apply (wf_keys _ _ _ example_shard_wf).
  - apply example_shard_typed.
  - by vm_compute.
  - apply fresh_shard_ok.
  - apply fresh_shard_ok.
  - by vm_compute.
  - exists id0, g', sh', h', a'. split; [done|]. split; [done|]. split; [done|].
    rewrite E4. by vm_compute.
Defined.

Lemma checkpoint_write_bounds_witness :
  is_Some (meta_checkpoint_write (Some example_shard) 12 true initial_globals) ↔
    (checkpoint_size example_shard <= CHECKPOINT_BUFFER_SIZE)%Z.
Proof. apply (checkpoint_write_bounds example_shard 12 initial_globals), initial_globals_wf. Defined.

(** The two writes of the example: an id and the globals after each. *)
Lemma example_write :
  ∃ g1, meta_checkpoint_write (Some example_shard) 12 true initial_globals = Some (106%Z, Some 1%Z, g1).
Proof.
  rewrite write_overlays. cbn zeta. rewrite decide_True.
  - rewrite initial_counter, checkpoint_image_length. by eexists.
  - apply Nat2Z.inj_le. rewrite checkpoint_image_length.
    pose proof initial_globals_wf as ->. by vm_compute.
Qed.

Lemma checkpoint_last_wins_witness :
  ∃ g1 rc2 id2 g2 sh' h',
    meta_checkpoint_write (Some example_shard) 12 true initial_globals = Some (106%Z, Some 1%Z, g1) ∧
    meta_checkpoint_write (Some fresh_shard) 13 true g1 = Some (rc2, Some id2, g2) ∧ id2 = 2%Z ∧
    meta_checkpoint_read (O := no_oom) (Some fresh_shard) 1 g2 example_shard_heap = Some ((0%Z, Some sh'), h') ∧
    shard_rel ∅ sh' h'.
Proof.
  destruct example_write as [g1 E1].
  destruct (checkpoint_last_wins (O := no_oom) example_cells example_shard 12 initial_globals 106 1 g1
    fresh_shard 13 ∅ fresh_shard example_shard_heap) as (rc2 & id2 & g2 & sh' & h' & E2 & Hid & E3 & E4).
  - done.
  - apply initial_globals_wf.
  - done.
  - by vm_compute.
  - constructor.
  - by vm_compute.
  - apply fresh_shard_ok.
  - apply fresh_shard_ok.
  - by vm_compute.
  - exists g1, rc2, id2, g2, sh', h'. split; [exact E1|]. split; [exact E2|].
    split; [exact Hid|]. split; [exact E3|exact E4].
Defined.
