(* ===== verification/MetaServer.v ===== *)
(** * The metadata server ([src/meta/meta_server.c], [src/meta/meta_recovery.c])

    A server stamps every pushed manifest with the next write sequence number and
    its datacenter, and stores it in its shard. *)
From S2P Require Import Prelude Memory MetaTypes MetaShard BucketRegistry.
From stdpp Require Import options.

Record meta_server_config := MetaServerConfig {
  c_server_id : Z;
  c_datacenter_id : Z;
  c_split_threshold : Z;
  c_checkpoint_interval_milliseconds : Z
}.

Record meta_server := MetaServer {
  ms_config : meta_server_config;
  ms_write_sequence_counter : Z;
  ms_shard : option meta_shard;
  ms_registry : option bucket_registry
}.

(** [manifest_batch_t]: the manifests array is the caller's and is written back; a
    count beyond it is undefined behaviour. *)
Record manifest_batch := ManifestBatch {
  mb_manifests : option (list object_manifest);
  mb_count : Z;
  mb_capacity : Z
}.

(** [manifest->write_sequence = seq; manifest->datacenter_id = dc;] *)
Definition stamp (seq dc : Z) (m : object_manifest) : object_manifest :=
  Manifest (m_bucket m) (m_key m) (m_size m) (m_checksum m) seq dc
    (m_fragment_count m) (m_fragments m).

Section server.
Context {O : AllocOracle}.
Local Open Scope Z_scope.

Definition meta_server_create (config : option meta_server_config)
    : M (list blob_location) (option meta_server) :=
  match config with
  | None => mret None
  | Some config =>
      ok ← try_alloc;
      if negb ok then mret None else
      shard ← meta_shard_create (c_server_id config) 0 (Some []);
      match shard with
      | None => mret None
      | Some _ =>
          registry ← bucket_registry_create;
          match registry with
          | None => _ ← meta_shard_destroy shard; mret None
          | Some _ => mret (Some (MetaServer config 0 shard registry))
          end
      end
  end.

Definition meta_server_destroy (server : option meta_server) : M (list blob_location) unit :=
  match server with
  | None => mret tt
  | Some s => meta_shard_destroy (ms_shard s)
  end.

(** The loop over the batch, stopping at the first insert that fails: the result
    code, the counter, the shard and the manifests as the caller sees them. *)
Fixpoint push_loop (dc : Z) (manifests : list object_manifest) (counter : Z)
    (shard : option meta_shard)
    : M (list blob_location) (Z * Z * option meta_shard * list object_manifest) :=
  match manifests with
  | [] => mret (0, counter, shard, [])
  | m :: rest =>
      let counter := u64 (counter + 1) in
      let m := stamp counter dc m in
      '(result, shard) ← meta_shard_insert shard (Some m);
      if decide (result ≠ 0) then mret (-1, counter, shard, m :: rest)
      else '(rc, counter, shard, rest) ← push_loop dc rest counter shard;
           mret (rc, counter, shard, m :: rest)
  end.

Definition meta_server_push_manifest_batch (server : option meta_server)
    (batch : option manifest_batch)
    : M (list blob_location) (Z * option meta_server * option manifest_batch) :=
  match server, batch with
  | Some s, Some b =>
      match mb_manifests b with
      | Some manifests =>
          if decide (mb_count b <= 0) then mret (-1, server, batch) else
          if decide (Z.of_nat (length manifests) < mb_count b) then λ _, None else
          let n := Z.to_nat (mb_count b) in
          '(rc, counter, shard, pushed) ←
            push_loop (c_datacenter_id (ms_config s)) (take n manifests)
              (ms_write_sequence_counter s) (ms_shard s);
          mret (rc, Some (MetaServer (ms_config s) counter shard (ms_registry s)),
                Some (ManifestBatch (Some (pushed ++ drop n manifests)) (mb_count b) (mb_capacity b)))
      | None => mret (-1, server, batch)
      end
  | _, _ => mret (-1, server, batch)
  end.

Definition meta_server_get_manifest (server : option meta_server) (bucket key : option bytes)
    (manifest_out : option object_manifest) : Z * option object_manifest :=
  match server, bucket, key, manifest_out with
  | Some s, Some _, Some _, Some _ => meta_shard_lookup (ms_shard s) bucket key manifest_out
  | _, _, _, _ => (-1, manifest_out)
  end.

Definition meta_server_list_objects (server : option meta_server)
    (bucket prefix marker : option bytes) (max_keys : Z) (outs : bool)
    : Z * option (list bytes) :=
  match server, bucket, outs with
  | Some s, Some _, true => meta_shard_list (ms_shard s) bucket prefix marker max_keys outs
  | _, _, _ => (-1, None)
  end.

(** Nothing is checkpointed. *)
Definition meta_server_checkpoint (server : option meta_server) (shard_id : Z) : Z :=
  match server with None => -1 | Some _ => 0 end.

Definition meta_server_get_id (server : option meta_server) : Z :=
  match server with Some s => c_server_id (ms_config s) | None => 0 end.

(** Both recovery entry points of [meta_recovery.c] only print. *)
Definition meta_recovery_start (server : option meta_server)
    (checkpoint_blob_id checkpoint_sequence : Z) : Z :=
  match server with None => -1 | Some _ => 0 end.

Definition meta_recovery_background (server : option meta_server) (failed_node_id : Z) : Z :=
  match server with None => -1 | Some _ => 0 end.
End server.

Arguments push_loop : simpl nomatch.

(** ** Specification of a push *)

(** The manifests as they are stored: sequence numbers [c+1], [c+2], ... *)
Fixpoint stamp_all (c dc : Z) (ms : list object_manifest) : list object_manifest :=
  match ms with
  | [] => []
  | m :: ms => stamp (u64 (c + 1)) dc m :: stamp_all (u64 (c + 1)) dc ms
  end.

Definition server_wf ext (s : meta_server) (h : heap) : Prop :=
  ∃ sh, ms_shard s = Some sh ∧ shard_wf ext sh h ∧ is_Some (ms_registry s).

Definition server_rel (a : spec_map) (s : meta_server) (h : heap) : Prop :=
  ∃ sh, ms_shard s = Some sh ∧ shard_rel a sh h.

Definition server_count (s : meta_server) : Z := meta_shard_get_count (ms_shard s).

Lemma stamp_all_length c dc ms : length (stamp_all c dc ms) = length ms.
Proof. revert c. induction ms; intros c; simpl; auto. Qed.

(** Without wrap-around the numbers are [c+1, c+2, ...]. *)
Lemma stamp_all_lookup c dc ms i m :
  (0 ≤ c)%Z → (c + Z.of_nat (length ms) < 2 ^ 64)%Z → ms !! i = Some m →
  stamp_all c dc ms !! i = Some (stamp (c + Z.of_nat i + 1) dc m).
Proof.
  revert c i. induction ms as [|m' ms IH]; intros c i Hc Hlen Hi; [done|].
  simpl in Hlen. assert (u64 (c + 1) = c + 1)%Z as Hu by (apply wrap_small; unfold fits; lia).
  destruct i as [|i]; simplify_eq/=; rewrite Hu.
  - by rewrite Z.add_0_r.
  - rewrite (IH (c + 1)%Z i) by (done || lia). by replace (c + 1 + Z.of_nat i + 1)%Z with (c + Z.of_nat (S i) + 1)%Z by lia.
Qed.

Lemma manifest_valid_stamp ext seq dc m : manifest_valid ext m → manifest_valid ext (stamp seq dc m).
Proof. done. Qed.

Section push.
#[local] Set Default Proof Using "Type*".
Context {O : AllocOracle} (never_oom : ∀ n, alloc_ok n = true).
Context (ext : gmap nat (list blob_location)).

Lemma push_loop_spec dc ms c a sh h :
  shard_wf ext sh h → shard_rel a sh h → Forall (manifest_valid ext) ms →
  (entry_count sh + Z.of_nat (length ms) < 2 ^ 30)%Z →
  ∃ sh' h', push_loop dc ms c (Some sh) h =
      Some ((0%Z, foldl (λ c _, u64 (c + 1)) c ms, Some sh', stamp_all c dc ms), h') ∧
    shard_wf ext sh' h' ∧ shard_rel (store_all ext (stamp_all c dc ms) a) sh' h' ∧
    (entry_count sh' ≤ entry_count sh + Z.of_nat (length ms))%Z.
Proof.
  intros Hwf Hrel Hms. revert c a sh h Hwf Hrel.
  induction Hms as [|m ms Hm Hms IH]; intros c a sh h Hwf Hrel Hsize; simpl in *.
  { exists sh, h. split_and!; [done..|lia]. }
  destruct (insert_step never_oom ext a sh h (stamp (u64 (c + 1)) dc m))
    as (sh1 & h1 & E1 & Hwf1 & Hrel1 & Hc1); [done..|lia|].
  destruct (IH (u64 (c + 1)) _ sh1 h1 Hwf1 Hrel1) as (sh2 & h2 & E2 & Hwf2 & Hrel2 & Hc2); [lia|].
  exists sh2, h2. m_simpl. rewrite E1. rewrite decide_False by auto.
  rewrite E2. split_and!; [done..|lia].
Qed.
End push.

(** The counter after [n] increments that do not wrap. *)
Lemma counter_after (ms : list object_manifest) c :
  (0 ≤ c)%Z → (c + Z.of_nat (length ms) < 2 ^ 64)%Z →
  foldl (λ c _, u64 (c + 1)) c ms = (c + Z.of_nat (length ms))%Z.
Proof.
  revert c. induction ms as [|m ms IH]; intros c Hc Hlen; simpl in *; [lia|].
  rewrite (wrap_small 64 (c + 1)) by (unfold fits; lia). rewrite IH by lia. lia.
Qed.

Lemma stamp_all_keys c dc ms : manifest_key <$> stamp_all c dc ms = manifest_key <$> ms.
Proof. revert c. induction ms as [|m ms IH]; intros c; [done|]. simpl. by rewrite IH. Qed.

(** What a push needs to go through: a well-formed server standing for [a], valid
    manifests, a count within the array, and no counter at its limit. *)
Definition push_pre (ext : gmap nat (list blob_location)) (a : spec_map) (s : meta_server)
    (h : heap) (ms : list object_manifest) (n : nat) : Prop :=
  server_wf ext s h ∧ server_rel a s h ∧ Forall (manifest_valid ext) ms ∧
  0 < n ≤ length ms ∧ (0 ≤ ms_write_sequence_counter s)%Z ∧
  (ms_write_sequence_counter s + Z.of_nat n < 2 ^ 64)%Z ∧ (server_count s + Z.of_nat n < 2 ^ 30)%Z.

(** The manifests of a batch as the server stores them. *)
Definition stamped (s : meta_server) (ms : list object_manifest) : list object_manifest :=
  stamp_all (ms_write_sequence_counter s) (c_datacenter_id (ms_config s)) ms.

Lemma push_batch_spec `{O : AllocOracle} (ext : gmap nat (list blob_location)) a s h ms n cap :
  (∀ k, alloc_ok k = true) → push_pre ext a s h ms n →
  ∃ s' sh' h',
    meta_server_push_manifest_batch (Some s) (Some (ManifestBatch (Some ms) (Z.of_nat n) cap)) h =
      Some ((0%Z, Some s', Some (ManifestBatch (Some (stamped s (take n ms) ++ drop n ms)) (Z.of_nat n) cap)), h') ∧
    ms_write_sequence_counter s' = (ms_write_sequence_counter s + Z.of_nat n)%Z ∧
    ms_shard s' = Some sh' ∧ is_Some (ms_registry s') ∧
    shard_wf ext sh' h' ∧ shard_rel (store_all ext (stamped s (take n ms)) a) sh' h'.
Proof.
  intros Hok (Hwf & Hrel & Hms & Hn & Hc & Hc64 & Hsize).
  destruct Hwf as (sh & Hsh & Hwf & Hreg). destruct Hrel as (sh' & Hsh' & Hrel).
  assert (sh' = sh) as -> by congruence. unfold server_count in Hsize. rewrite Hsh in Hsize. simpl in Hsize.
  destruct (push_loop_spec Hok ext (c_datacenter_id (ms_config s)) (take n ms)
    (ms_write_sequence_counter s) a sh h Hwf Hrel) as (sh1 & h1 & E & Hwf1 & Hrel1 & _).
  { by apply Forall_take. } { rewrite length_take. lia. }
  unfold meta_server_push_manifest_batch. simpl. do 2 rewrite decide_False by lia.
  rewrite Nat2Z.id. m_simpl. rewrite Hsh, E. simpl.
  do 3 eexists. split; [done|]. split_and!; try done.
  simpl. rewrite counter_after; rewrite ?length_take; lia.
Qed.

(** ** Properties *)

(** A batch push stores every manifest of the batch, in order, stamped with the
    server's datacenter and with the consecutive numbers after the counter; the
    counter ends [n] further, the caller's array carries the stamps, and the shard's
    map is the old one with the stamped manifests stored one after the other. *)
Theorem meta_server_push_spec `{O : AllocOracle} (ext : gmap nat (list blob_location)) a s h ms n cap :
  (∀ k, alloc_ok k = true) → push_pre ext a s h ms n →
  ∃ s' h', meta_server_push_manifest_batch (Some s) (Some (ManifestBatch (Some ms) (Z.of_nat n) cap)) h =
      Some ((0%Z, Some s', Some (ManifestBatch (Some (stamped s (take n ms) ++ drop n ms)) (Z.of_nat n) cap)), h') ∧
    (∀ i m, take n ms !! i = Some m → stamped s (take n ms) !! i =
       Some (stamp (ms_write_sequence_counter s + Z.of_nat i + 1) (c_datacenter_id (ms_config s)) m)) ∧
    ms_write_sequence_counter s' = (ms_write_sequence_counter s + Z.of_nat n)%Z ∧
    server_wf ext s' h' ∧ server_rel (store_all ext (stamped s (take n ms)) a) s' h'.
Proof.
  intros Hok Hpre. destruct (push_batch_spec ext a s h ms n cap) as (s' & sh' & h' & E & Hc' & Hsh & ? & ? & ?);
    [done..|].
  exists s', h'. split; [done|]. split_and!; [|done|by exists sh'|by exists sh'].
  intros i m Hi. destruct Hpre as (_ & _ & _ & ? & ? & ? & _).
  apply stamp_all_lookup; [done| |done]. rewrite length_take. lia.
Qed.

(** C15. Read your writes: after a push, reading a key returns the last manifest of the
    batch stored under it, with the sequence number of its position and the
    server's datacenter. *)
Theorem meta_server_push_then_get `{O : AllocOracle} (ext : gmap nat (list blob_location))
    a s h ms n cap i m out :
  (∀ k, alloc_ok k = true) → push_pre ext a s h ms n →
  take n ms !! i = Some m → manifest_key m ∉ (manifest_key <$> drop (S i) (take n ms)) →
  ∃ s' b' h' found,
    meta_server_push_manifest_batch (Some s) (Some (ManifestBatch (Some ms) (Z.of_nat n) cap)) h =
      Some ((0%Z, Some s', b'), h') ∧
    meta_server_get_manifest (Some s') (Some (m_bucket m)) (Some (m_key m)) (Some out) =
      (0%Z, Some found) ∧
    value_in (mem_cells h') found =
      stored_value ext (stamp (ms_write_sequence_counter s + Z.of_nat i + 1)
                          (c_datacenter_id (ms_config s)) m).
Proof.
  intros Hok Hpre Hi Hlast.
  destruct (push_batch_spec ext a s h ms n cap) as (s' & sh' & h' & E & _ & Hsh & _ & _ & Hrel); [done..|].
  destruct Hpre as (_ & _ & _ & Hn & Hc & Hc64 & _).
  set (sm := stamp (ms_write_sequence_counter s + Z.of_nat i + 1) (c_datacenter_id (ms_config s)) m).
  assert (Hst : stamped s (take n ms) !! i = Some sm)
    by (apply stamp_all_lookup; [done|rewrite length_take; lia|done]).
  assert (Hv : store_all ext (stamped s (take n ms)) a !! manifest_key sm = Some (stored_value ext sm)).
  { eapply store_all_last; [done|]. unfold stamped. by rewrite fmap_drop, stamp_all_keys, <-fmap_drop. }
  destruct (lookup_step _ sh' h' (m_bucket m) (m_key m) out Hrel) as (rc & found & Hl & Hf).
  change (m_bucket m, m_key m) with (manifest_key sm) in Hf. rewrite Hv in Hf. destruct Hf as [-> Hf].
  destruct found as [found|]; [|done]. simplify_eq/=.
  do 4 eexists. split; [done|]. split; [|done]. unfold meta_server_get_manifest. by rewrite Hsh.
Qed.

(** A fresh server, and a batch that writes one key twice. *)
Definition example_server : meta_server :=
  MetaServer (MetaServerConfig 1 4 100000 60000) 5
    (Some (Shard 1 0 [] [] [] 0 [] 1024)) (Some (Registry [])).
Definition example_batch : list object_manifest :=
  [example_object; example_plain; example_object].

Lemma example_push_pre : push_pre example_cells ∅ example_server example_heap example_batch 3.
Proof.
  split_and!; try done; try lia.
  - exists (Shard 1 0 [] [] [] 0 [] 1024). split; [done|]. split; [|by eexists].
    split; try done; [by apply mem_wf_bool|by apply NoDup_nil_2|by apply NoDup_nil_2|set_solver].
  - exists (Shard 1 0 [] [] [] 0 [] 1024). split; [done|]. intros k. by rewrite lookup_empty.
  - repeat constructor; eexists; split; reflexivity.
Qed.

Lemma meta_server_push_spec_witness :
  ∃ s' h', meta_server_push_manifest_batch (O := no_oom) (Some example_server)
      (Some (ManifestBatch (Some example_batch) 3 8)) example_heap =
    Some ((0%Z, Some s', Some (ManifestBatch
      (Some (stamped example_server (take 3 example_batch) ++ drop 3 example_batch)) 3 8)), h') ∧
    ms_write_sequence_counter s' = 8%Z.
Proof.
  destruct (meta_server_push_spec (O := no_oom) example_cells ∅ example_server example_heap
    example_batch 3 8 (λ _, eq_refl) example_push_pre) as (s' & h' & E & _ & Hc & _).
  exists s', h'. by split.
Defined.

Lemma meta_server_push_then_get_witness :
  ∃ s' b' h' found, meta_server_push_manifest_batch (O := no_oom) (Some example_server)
      (Some (ManifestBatch (Some example_batch) 3 8)) example_heap = Some ((0%Z, Some s', b'), h') ∧
    meta_server_get_manifest (Some s') (Some (cs "bucket")) (Some (cs "a.txt")) (Some manifest_zero) =
      (0%Z, Some found) ∧ m_write_sequence found = 8%Z.
Proof.
  destruct (meta_server_push_then_get (O := no_oom) example_cells ∅ example_server example_heap
    example_batch 3 8 2 example_object manifest_zero (λ _, eq_refl) example_push_pre)
    as (s' & b' & h' & found & E & Hg & Hv); [done|set_solver|].
  exists s', b', h', found. split; [done|]. split; [done|]. by injection Hv.
Defined.
