(* ===== verification/MetaTyping.v ===== *)
(** * The types of the metadata, through every call ([src/meta/])

    C types are not kept by the model's records: an integer is a [Z], an array a list.  Here
    they are an invariant.  Any sequence of calls on a server, its shard and the checkpoint
    buffer keeps every field in the range of its type and every string shorter than its array,
    whatever bytes the buffer holds when a checkpoint is read. *)
From S2P Require Import Prelude Memory MetaTypes MetaShard BucketRegistry MetaCheckpoint MetaServer.
From stdpp Require Import options.

(** ** Types *)

(** A shard; the other fields do not depend on the id. *)
Definition shard_typed_by (id_ok : Z → Prop) (sh : meta_shard) : Prop :=
  id_ok (sh_shard_id sh) ∧ Forall manifest_typed (sh_entries sh) ∧ (- 2 ^ 31 ≤ sh_entry_capacity sh < 2 ^ 31)%Z.
Notation shard_typed := (shard_typed_by (fits 32)).

Definition server_typed (s : meta_server) : Prop :=
  fits 32 (c_datacenter_id (ms_config s)) ∧ fits 64 (ms_write_sequence_counter s) ∧ from_option shard_typed True (ms_shard s).

Definition globals_typed (g : checkpoint_globals) : Prop := fits 64 (g_checkpoint_id_counter g).

(** A run keeps a property of its results, if it gives one. *)
Definition yields {A T} (m : M A T) (Q : T → Prop) : Prop := ∀ h x h', m h = Some (x, h') → Q x.

Section yields.
Context {A : Type}.

Lemma yields_ret {T} (x : T) (Q : T → Prop) : Q x → yields (A := A) (mret x) Q.
Proof. intros HQ h y h' Hr. by injection Hr as <- _. Qed.

Lemma yields_bind {T U} (m : M A T) (f : T → M A U) (R : T → Prop) (Q : U → Prop) :
  yields m R → (∀ x, R x → yields (f x) Q) → yields (m ≫= f) Q.
Proof.
  intros Hm Hf h y h' Hr. unfold mbind, M_bind in Hr. destruct (m h) as [[x h1]|] eqn:Hx; [|done].
  by eapply (Hf x (Hm _ _ _ Hx)).
Qed.

(** The result of this part is of no concern. *)
Lemma yields_skip {T U} (m : M A T) (f : T → M A U) (Q : U → Prop) : (∀ x, yields (f x) Q) → yields (m ≫= f) Q.
Proof. intros Hf. by apply (yields_bind _ _ (λ _, True)). Qed.

Lemma yields_undefined {T} (Q : T → Prop) : yields (A := A) (λ _, None) Q.
Proof. by intros h x h'. Qed.
End yields.

(** ** Each operation *)

Section operations.
Context {O : AllocOracle} {id_ok : Z → Prop}.

Lemma grow_typed sh : shard_typed_by id_ok sh → yields (grow_entries sh) (λ cap, from_option (λ cap, - 2 ^ 31 ≤ cap < 2 ^ 31)%Z True cap).
Proof.
  intros (_ & _ & Hcap). unfold grow_entries. case_decide; [|by apply yields_ret].
  apply yields_skip. intros []; apply yields_ret; [|done]. simpl. apply i32_range.
Qed.

Lemma insert_typed shard m :
  from_option (shard_typed_by id_ok) True shard → from_option manifest_typed True m →
  yields (meta_shard_insert shard m) (λ r, from_option (shard_typed_by id_ok) True r.2).
Proof.
  intros Hsh Hm. unfold meta_shard_insert. destruct shard as [sh|], m as [m|]; try by apply yields_ret. simpl in Hsh, Hm.
  assert (∀ frags, manifest_typed (set_fragments m frags)) as Hset by (intros frags; exact Hm).
  pose proof Hsh as (Hid & Hall & Hcap). destruct (find_entry _ _ _) as [i|].
  - apply yields_skip. intros frags. apply yields_ret. split; [done|]. split; [by apply Forall_insert|done].
  - eapply yields_bind; [by apply grow_typed|]. intros [cap|] Hc; [|by apply yields_ret].
    apply yields_skip. intros frags. apply yields_ret. split; [done|]. split; [|done]. apply Forall_app. split; [done|by apply Forall_singleton].
Qed.

Lemma shift_down_typed fuel : ∀ i l, Forall manifest_typed l → Forall manifest_typed (shift_down fuel i l).
Proof.
  induction fuel as [|fuel IH]; intros i l Hl; simpl; [done|]. apply IH.
  destruct (l !! S i) as [e|] eqn:He; [|done]. apply Forall_insert; [done|]. by eapply Forall_lookup_1.
Qed.

Lemma delete_typed shard b k :
  from_option (shard_typed_by id_ok) True shard → yields (meta_shard_delete shard b k) (λ r, from_option (shard_typed_by id_ok) True r.2).
Proof.
  intros Hsh. unfold meta_shard_delete. destruct shard as [sh|], b as [b|], k as [k|]; try by apply yields_ret.
  simpl in Hsh. pose proof Hsh as (Hid & Hall & Hcap). destruct (find_entry _ _ _); [|by apply yields_ret].
  apply yields_skip. intros _. apply yields_ret. split; [done|]. split; [by apply Forall_take, shift_down_typed|done].
Qed.

Lemma lookup_typed shard b k out :
  from_option (shard_typed_by id_ok) True shard → from_option manifest_typed True out →
  from_option manifest_typed True (meta_shard_lookup shard b k out).2.
Proof.
  intros Hsh Hout. unfold meta_shard_lookup. destruct shard as [sh|], b as [b|], k as [k|], out as [out|]; try done.
  destruct (find_entry _ _ _) as [i|]; [|done]. simpl. destruct (_ !! i) as [e|] eqn:He; [|done].
  destruct Hsh as (_ & Hall & _). exact (Forall_lookup_1 _ _ _ _ Hall He).
Qed.

Lemma stamp_typed seq dc m : fits 64 seq → fits 32 dc → manifest_typed m → manifest_typed (stamp seq dc m).
Proof. intros Hs Hd (? & ? & ? & ? & ? & ? & _ & _ & ?). by split_and!. Qed.

Lemma push_loop_typed dc ms : ∀ counter shard,
  fits 32 dc → Forall manifest_typed ms → fits 64 counter → from_option (shard_typed_by id_ok) True shard →
  yields (push_loop dc ms counter shard) (λ '(rc, counter, shard, pushed),
    fits 64 counter ∧ from_option (shard_typed_by id_ok) True shard ∧ Forall manifest_typed pushed).
Proof.
  induction ms as [|m ms IH]; intros counter shard Hdc Hms Hc Hsh; cbn [push_loop]; [by apply yields_ret|].
  apply Forall_cons in Hms as [Hm Hms].
  assert (fits 64 (u64 (counter + 1))) as Hc' by (apply (wrap_fits 64); lia).
  assert (manifest_typed (stamp (u64 (counter + 1)) dc m)) as Hst by (by apply stamp_typed).
  eapply yields_bind; [by apply insert_typed|]. intros [result shard'] Hsh'. cbn [snd] in Hsh'.
  case_decide; [apply yields_ret; split_and!; [done|done|by constructor]|].
  eapply yields_bind; [by apply IH|]. intros [[[rc c'] shard''] pushed] (? & ? & ?).
  apply yields_ret. split_and!; [done|done|by constructor].
Qed.

(** *** Reading a checkpoint *)

Lemma read_string_ok m s rest : read_string m = Some (s, rest) → c_ok s.
Proof.
  revert s rest. induction m as [|x m IH]; intros s rest Hr; simpl in Hr; [done|]. case_decide; [by injection Hr as <- _; apply c_ok_nil|].
  destruct (read_string m) as [[s' rest']|] eqn:Hm; [|done]. injection Hr as <- <-. specialize (IH _ _ eq_refl).
  unfold c_ok in *. intros [Heq|?]%elem_of_cons; [by subst x|done].
Qed.

Lemma read_field_fits n m z rest : read_field n m = Some (z, rest) → fits (8 * Z.of_nat n) z.
Proof. unfold read_field. intros Hr. case_decide; [|done]. injection Hr as <- _. apply get_le_fits. Qed.

(** Whatever the bytes are. *)
Lemma read_entry_typed m e rest : read_entry m = Some (e, rest) → manifest_typed e.
Proof.
  unfold read_entry. intros Hr.
  destruct (read_string m) as [[bucket m1]|] eqn:Hb; [|done]. simpl in Hr.
  destruct (read_string m1) as [[key m2]|] eqn:Hk; [|done]. simpl in Hr.
  destruct (read_field 8 m2) as [[size m3]|] eqn:H1; [|done]. simpl in Hr.
  destruct (read_field 4 m3) as [[checksum m4]|] eqn:H2; [|done]. simpl in Hr.
  destruct (read_field 8 m4) as [[seq m5]|] eqn:H3; [|done]. simpl in Hr.
  destruct (read_field 4 m5) as [[dc m6]|] eqn:H4; [|done]. simpl in Hr. injection Hr as <- _.
  apply read_string_ok in Hb, Hk. apply read_field_fits in H1, H2, H3, H4.
  split_and!; cbn [m_bucket m_key m_size m_checksum m_write_sequence m_datacenter_id m_fragment_count]; try done.
  - by apply c_ok_take.
  - apply strncpy_length.
  - by apply c_ok_take.
  - apply strncpy_length.
Qed.

Lemma read_entries_typed n : ∀ m shard, from_option (shard_typed_by id_ok) True shard →
  yields (read_entries n m shard) (from_option (shard_typed_by id_ok) True).
Proof.
  induction n as [|n IH]; intros m shard Hsh; cbn [read_entries]; [by apply yields_ret|].
  destruct (read_entry m) as [[e rest]|] eqn:He; [|apply yields_undefined].
  eapply yields_bind; [apply insert_typed; [done|by eapply read_entry_typed]|]. intros [rc shard'] Hsh'. by apply IH.
Qed.

Lemma checkpoint_read_typed shard id g : from_option (shard_typed_by id_ok) True shard →
  yields (meta_checkpoint_read shard id g) (λ r, from_option (shard_typed_by id_ok) True r.2).
Proof.
  intros Hsh. unfold meta_checkpoint_read. destruct shard as [sh|]; [|by apply yields_ret].
  case_decide; [by apply yields_ret|]. eapply yields_bind; [by apply read_entries_typed|].
  intros shard' Hsh'. by apply yields_ret.
Qed.

Lemma checkpoint_write_typed shard seq out g rc id g' : globals_typed g →
  meta_checkpoint_write shard seq out g = Some (rc, id, g') → globals_typed g' ∧ from_option (fits 64) True id.
Proof.
  intros Hg Hw. unfold meta_checkpoint_write in Hw. destruct shard as [sh|], out; try by injection Hw as _ <- <-.
  destruct (put_all _ _) as [st|]; [|done]. simpl in Hw. destruct (put_all _ st) as [[cursor buf]|]; [|done]. simpl in Hw.
  injection Hw as _ <- <-. split; apply (wrap_fits 64); lia.
Qed.
End operations.

(** ** Any sequence of calls *)

Inductive node_op :=
  | Push (batch : manifest_batch)
  | Get (bucket key : option bytes)
  | Delete (bucket key : option bytes)
  | Save (sequence : Z)
  (** the buffer holds [image] when the checkpoint is read *)
  | Load (image : bytes) (checkpoint_blob_id : Z).

(** What a caller gets back: a manifest, its batch, or the id of a checkpoint. *)
Inductive node_result :=
  | Code (rc : Z)
  | Pushed (rc : Z) (batch : option manifest_batch)
  | Got (rc : Z) (m : option object_manifest)
  | Saved (rc : Z) (id : option Z).

Section node.
Context {O : AllocOracle}.

Definition set_shard (shard : option meta_shard) (s : meta_server) : meta_server :=
  MetaServer (ms_config s) (ms_write_sequence_counter s) shard (ms_registry s).

Definition node_step (op : node_op) (s : meta_server) (g : checkpoint_globals)
    : M (list blob_location) (node_result * meta_server * checkpoint_globals) :=
  match op with
  | Push batch =>
      '(rc, server, batch) ← meta_server_push_manifest_batch (Some s) (Some batch);
      mret (Pushed rc batch, default s server, g)
  | Get bucket key =>
      let '(rc, m) := meta_server_get_manifest (Some s) bucket key (Some manifest_zero) in mret (Got rc m, s, g)
  | Delete bucket key =>
      '(rc, shard) ← meta_shard_delete (ms_shard s) bucket key; mret (Code rc, set_shard shard s, g)
  | Save sequence =>
      match meta_checkpoint_write (ms_shard s) sequence true g with
      | None => undefined
      | Some (rc, id, g) => mret (Saved rc id, s, g)
      end
  | Load image id =>
      let g := CheckpointGlobals image (g_checkpoint_id_counter g) in
      '(rc, shard) ← meta_checkpoint_read (ms_shard s) id g; mret (Code rc, set_shard shard s, g)
  end.

Fixpoint node_run (ops : list node_op) (s : meta_server) (g : checkpoint_globals)
    : M (list blob_location) (list node_result * meta_server * checkpoint_globals) :=
  match ops with
  | [] => mret ([], s, g)
  | op :: ops =>
      '(r, s, g) ← node_step op s g;
      '(rs, s, g) ← node_run ops s g;
      mret (r :: rs, s, g)
  end.

(** The caller's arguments and what it gets back. *)
Definition batch_typed (b : manifest_batch) : Prop := from_option (Forall manifest_typed) True (mb_manifests b).
Definition node_op_typed (op : node_op) : Prop := match op with Push b => batch_typed b | _ => True end.
Definition result_typed (r : node_result) : Prop :=
  match r with
  | Code _ => True
  | Pushed _ b => from_option batch_typed True b
  | Got _ m => from_option manifest_typed True m
  | Saved _ id => from_option (fits 64) True id
  end.

Lemma push_typed s b : server_typed s → batch_typed b →
  yields (meta_server_push_manifest_batch (Some s) (Some b))
    (λ '(rc, server, b), from_option server_typed True server ∧ from_option batch_typed True b).
Proof.
  intros (Hdc & Hc & Hsh) Hb. unfold meta_server_push_manifest_batch, batch_typed in *.
  destruct (mb_manifests b) as [ms|] eqn:Hms; [|apply yields_ret; split; [done|by simpl; rewrite Hms]]. simpl in Hb.
  case_decide; [apply yields_ret; split; [done|by simpl; rewrite Hms]|]. case_decide; [apply yields_undefined|].
  cbn zeta. eapply yields_bind; [apply (push_loop_typed (id_ok := fits 32)); [done|by apply Forall_take|done|done]|].
  intros [[[rc counter] shard] pushed] (Hc' & Hsh' & Hp). apply yields_ret. split; [done|]. simpl.
  apply Forall_app. split; [done|by apply Forall_drop].
Qed.

Lemma node_step_typed op s g : node_op_typed op → server_typed s → globals_typed g →
  yields (node_step op s g) (λ '(r, s, g), result_typed r ∧ server_typed s ∧ globals_typed g).
Proof.
  intros Hop Hs Hg. pose proof Hs as (Hdc & Hc & Hsh). destruct op as [b|bucket key|bucket key|seq|image id]; cbn [node_step].
  - eapply yields_bind; [by apply push_typed|]. intros [[rc server] b'] [Hs' Hb']. apply yields_ret.
    split_and!; [done|by destruct server|done].
  - assert (from_option manifest_typed True (meta_server_get_manifest (Some s) bucket key (Some manifest_zero)).2) as Hget.
    { unfold meta_server_get_manifest. destruct bucket, key; try (by apply (bool_decide_unpack _)).
      apply (lookup_typed (id_ok := fits 32)); [done|by apply (bool_decide_unpack _)]. }
    destruct (meta_server_get_manifest _ _ _ _) as [rc m]. by apply yields_ret.
  - eapply yields_bind; [by apply (delete_typed (id_ok := fits 32))|]. intros [rc shard] Hsh'. by apply yields_ret.
  - destruct (meta_checkpoint_write _ _ _ _) as [[[rc id] g']|] eqn:Hw; [|apply yields_undefined].
    apply checkpoint_write_typed in Hw as [Hg' Hid]; [|done]. by apply yields_ret.
  - eapply yields_bind; [by apply (checkpoint_read_typed (id_ok := fits 32))|]. intros [rc shard] Hsh'. by apply yields_ret.
Qed.

(** C18. Any sequence of pushes, reads, deletions, checkpoints and restores keeps the types: the
    sequence counter, the checkpoint ids and every field of every stored and returned
    manifest stay in the range of their C types, and every name stays a string shorter than
    its array, although the bytes a checkpoint is restored from are arbitrary. *)
Theorem metadata_typed ops s g h rs s' g' h' :
  Forall node_op_typed ops → server_typed s → globals_typed g →
  node_run ops s g h = Some ((rs, s', g'), h') →
  Forall result_typed rs ∧ server_typed s' ∧ globals_typed g'.
Proof.
  intros Hops Hs Hg Hrun. revert h rs s' g' h' Hrun.
  enough (yields (node_run ops s g) (λ '(rs, s', g'), Forall result_typed rs ∧ server_typed s' ∧ globals_typed g')) as Hy
    by (intros h rs s' g' h' Hrun; exact (Hy _ _ _ Hrun)).
  revert s g Hs Hg. induction Hops as [|op ops Hop Hops IH]; intros s g Hs Hg; cbn [node_run]; [by apply yields_ret|].
  eapply yields_bind; [by apply node_step_typed|]. intros [[r s1] g1] (Hr & Hs1 & Hg1).
  eapply yields_bind; [by apply IH|]. intros [[rs s2] g2] (Hrs & Hs2 & Hg2). apply yields_ret.
  split_and!; [by constructor|done|done].
Qed.
End node.

(** ** A concrete run *)

(** A batch is pushed, a checkpoint is taken and read back, and an image whose bytes are all
    0xff but for the header and the terminators is restored. *)
Definition wild_image : bytes :=
  put_le 8 CHECKPOINT_HEADER_MAGIC ++ put_le 8 0 ++ put_le 8 0 ++ put_le 4 1 ++ put_le 4 0 ++
  replicate (Z.to_nat 2000) Byte.xff ++ [NUL; NUL] ++ replicate 24 Byte.xff.
Definition example_ops : list node_op :=
  [Push (ManifestBatch (Some example_batch) 3 8); Get (Some (cs "bucket")) (Some (cs "a.txt")); Load wild_image 1;
   Get (Some (replicate 255 Byte.xff)) (Some []); Delete (Some (cs "bucket")) (Some (cs "a.txt"))].

Lemma metadata_typed_witness :
  ∃ rs s' g' h', node_run (O := no_oom) example_ops example_server (CheckpointGlobals [] 0) example_heap = Some ((rs, s', g'), h') ∧
    Forall result_typed rs ∧ length rs = 5 ∧
    (from_option (λ sh, m_write_sequence <$> sh_entries sh) [] (ms_shard s') = [7; 2 ^ 64 - 1])%Z.
Proof.
  destruct (node_run (O := no_oom) example_ops example_server (CheckpointGlobals [] 0) example_heap) as [[[[rs s'] g'] h']|] eqn:Hrun;
    [|exfalso; revert Hrun; by vm_compute].
  destruct (metadata_typed (O := no_oom) example_ops example_server (CheckpointGlobals [] 0) example_heap rs s' g' h')
    as (Hrs & _ & _); [|by apply (bool_decide_unpack _)|by apply (bool_decide_unpack _)|done|].
  - repeat constructor; try (by apply (bool_decide_unpack _)).
  - exists rs, s', g', h'. split; [done|]. split; [done|].
    assert ((λ r, (length r.1.1.1, from_option (λ sh, m_write_sequence <$> sh_entries sh) [] (ms_shard r.1.1.2))) <$>
      node_run (O := no_oom) example_ops example_server (CheckpointGlobals [] 0) example_heap = Some (5, [7; 2 ^ 64 - 1]%Z)) as Heq by (by vm_compute).
    rewrite Hrun in Heq. by injection Heq.
Defined.
