(* ===== verification/MetaRestore.v ===== *)
(** * A shard that is checkpointed and restored goes on as it was ([src/meta/])

    The shard's refinement, its types and the checkpoint image together: after any calls, a
    checkpoint and a restore into a new shard, the new shard answers any further calls as the
    specification that the old one had reached, but for the fragments. *)
From S2P Require Import Prelude Memory MetaTypes MetaShard MetaCheckpoint MetaTyping.
From stdpp Require Import options.

(** What a restored entry denotes: everything but its fragments. *)
Definition restored (v : manifest_value) : manifest_value :=
  MValue (mv_size v) (mv_checksum v) (mv_write_sequence v) (mv_datacenter_id v) 0 None.

Definition shard_op_typed (op : shard_op) : Prop := match op with OpInsert m => manifest_typed m | _ => True end.

Section restore.
Context {O : AllocOracle}.

Lemma create_typed id parent name : fits 64 id → yields (meta_shard_create id parent name) (from_option (shard_typed_by (fits 64)) True).
Proof.
  intros Hid. unfold meta_shard_create. apply yields_skip. intros []; simpl; [|by apply yields_ret].
  apply yields_skip. intros []; simpl; [|by apply yields_ret]. apply yields_ret. by split_and!.
Qed.

Lemma shard_step_typed op sh : shard_op_typed op → from_option (shard_typed_by (fits 64)) True sh →
  yields (shard_step op sh) (λ r, from_option (shard_typed_by (fits 64)) True r.2).
Proof.
  intros Hop Hsh. destruct op as [m|b k|b k]; cbn [shard_step].
  - eapply yields_bind; [by apply (insert_typed (id_ok := fits 64))|]. intros [rc sh'] Hsh'. by apply yields_ret.
  - intros h r h' Hr. destruct (meta_shard_lookup _ _ _ _) as [rc out]. by injection Hr as <- _.
  - eapply yields_bind; [by apply (delete_typed (id_ok := fits 64))|]. intros [rc sh'] Hsh'. by apply yields_ret.
Qed.

Lemma shard_run_typed ops : ∀ sh, Forall shard_op_typed ops → from_option (shard_typed_by (fits 64)) True sh →
  yields (shard_run ops sh) (λ r, from_option (shard_typed_by (fits 64)) True r.2).
Proof.
  induction ops as [|op ops IH]; intros sh Hops Hsh; cbn [shard_run]; [by apply yields_ret|].
  apply Forall_cons in Hops as [Hop Hops].
  eapply yields_bind; [by apply shard_step_typed|]. intros [r sh1] Hsh1.
  eapply yields_bind; [by apply IH|]. intros [rs sh2] Hsh2. by apply yields_ret.
Qed.

(** An entry takes at least 26 bytes. *)
Lemma checkpoint_size_count sh : (26 * entry_count sh ≤ checkpoint_size sh)%Z.
Proof.
  unfold checkpoint_size, entry_count. induction (sh_entries sh) as [|m l IH]; cbn [foldr length]; [lia|].
  assert (26 ≤ entry_size m)%Z by (unfold entry_size; lia). lia.
Qed.

(** What is read into an empty shard is what was written, but for the fragments. *)
Lemma restored_map ext a sh h : shard_wf ext sh h → shard_rel a sh h →
  store_all ext (checkpointed <$> sh_entries sh) ∅ = restored <$> a.
Proof.
  intros Hwf Hrel. apply map_eq. intros k. rewrite store_all_checkpointed by apply (wf_keys _ _ _ Hwf).
  rewrite lookup_fmap, (Hrel k). by destruct (assoc_get _ _ _).
Qed.
End restore.

(** C16. Checkpoint and restore: after any calls on a shard, when its image fits the buffer, a
    checkpoint can be written and read into a new shard, and the new shard answers any
    further calls exactly as the specification does from the map that the first calls left,
    each object without its fragments. *)
Theorem checkpoint_recovers `{O : AllocOracle} ext ops ops' id parent name id' parent' name' sequence g h :
  (∀ n, alloc_ok n = true) → globals_wf g → mem_wf h → ext ⊆ mem_cells h → fits 64 id →
  Forall (op_valid ext) ops → Forall shard_op_typed ops → Forall (op_valid ext) ops' →
  (Z.of_nat (length ops) < 2 ^ 30)%Z → (Z.of_nat (length ops') < 2 ^ 29)%Z →
  let '(rs, a) := spec_run ext ops ∅ in
  ∃ sh0 h0 sh h1, meta_shard_create id parent name h = Some (Some sh0, h0) ∧
    shard_run ops (Some sh0) h0 = Some ((rs, Some sh), h1) ∧
    ((checkpoint_size sh ≤ CHECKPOINT_BUFFER_SIZE)%Z →
     ∃ blob g' sh2 h2 sh3 h3 sh4 h4,
       meta_checkpoint_write (Some sh) sequence true g = Some (checkpoint_size sh, Some blob, g') ∧
       meta_shard_create id' parent' name' h1 = Some (Some sh2, h2) ∧
       meta_checkpoint_read (Some sh2) blob g' h2 = Some ((0%Z, Some sh3), h3) ∧
       shard_run ops' (Some sh3) h3 = Some (((spec_run ext ops' (restored <$> a)).1, Some sh4), h4) ∧
       shard_rel (spec_run ext ops' (restored <$> a)).2 sh4 h4 ∧ shard_wf ext sh4 h4).
Proof.
  intros Hok Hg Hwf Hext Hid Hops Htyped Hops' Hlen Hlen'. destruct (spec_run ext ops ∅) as [rs a] eqn:Hspec.
  destruct (create_rel Hok ext id parent name h) as (sh0 & h0 & E0 & Hnil & Hwf0 & Hrel0); [done..|].
  destruct (shard_run_simulates Hok ext ops ∅ sh0 h0) as (sh & h1 & E1 & Hwf1 & Hrel1); [done..| |].
  { unfold entry_count. by rewrite Hnil. }
  rewrite Hspec in E1, Hrel1. simpl in E1, Hrel1. exists sh0, h0, sh, h1. split; [done|]. split; [done|]. intros Hfit.
  assert (Forall manifest_typed (sh_entries sh)) as Hall
    by apply (shard_run_typed ops (Some sh0) Htyped (create_typed id parent name Hid _ _ _ E0) _ _ _ E1).
  pose proof (checkpoint_size_count sh) as Hcount. unfold CHECKPOINT_BUFFER_SIZE in Hfit.
  destruct (create_rel Hok ext id' parent' name' h1) as (sh2 & h2 & E2 & Hnil2 & Hwf2 & Hrel2); [apply (wf_mem _ _ _ Hwf1)|apply (wf_ext _ _ _ Hwf1)|].
  assert (entry_count sh2 = 0%Z) as Hc2 by (unfold entry_count; by rewrite Hnil2).
  set (blob := u64 (g_checkpoint_id_counter g + 1)).
  destruct (write_then_read Hok ext sh sequence g ∅ sh2 h2 blob) as (blob' & g' & sh3 & h3 & E3 & E4 & Hwf3 & Hrel3 & Hc3); [done|unfold CHECKPOINT_BUFFER_SIZE; lia|done|lia|done|done|lia|].
  pose proof (restored_map ext a sh h1 Hwf1 Hrel1) as Hmap. rewrite Hmap in Hrel3.
  destruct (shard_run_simulates Hok ext ops' (restored <$> a) sh3 h3) as (sh4 & h4 & E5 & Hwf4 & Hrel4); [done..|lia|].
  assert (blob' = blob) as -> by (rewrite write_overlays in E3; cbn zeta in E3; case_decide; [by injection E3|done]).
  by exists blob, g', sh2, h2, sh3, h3, sh4, h4.
Qed.

(** ** A concrete restore *)

Lemma checkpoint_recovers_witness :
  ∃ sh h1 blob g' sh2 h2 sh3 h3 sh4 h4,
    shard_run (O := no_oom) [OpInsert example_object; OpInsert example_plain; OpDelete (cs "bucket") (cs "b.txt")]
      (Some (Shard 1 0 [] [] [] 0 [] 1024)) (Mem 3 example_cells) = Some (([RCode 0; RCode 0; RCode 0], Some sh), h1) ∧
    meta_checkpoint_write (Some sh) 12 true initial_globals = Some (checkpoint_size sh, Some blob, g') ∧
    meta_shard_create (O := no_oom) 2 1 None h1 = Some (Some sh2, h2) ∧
    meta_checkpoint_read (O := no_oom) (Some sh2) blob g' h2 = Some ((0%Z, Some sh3), h3) ∧
    shard_run (O := no_oom) [OpLookup (cs "bucket") (cs "a.txt"); OpLookup (cs "bucket") (cs "b.txt")] (Some sh3) h3 =
      Some (([RFound 0 (Some (MValue 128 0 1 1 0 None)); RFound (-1) None], Some sh4), h4).
Proof.
  destruct (checkpoint_recovers (O := no_oom) example_cells
    [OpInsert example_object; OpInsert example_plain; OpDelete (cs "bucket") (cs "b.txt")]
    [OpLookup (cs "bucket") (cs "a.txt"); OpLookup (cs "bucket") (cs "b.txt")] 1 0 None 2 1 None 12 initial_globals example_heap)
    as (sh0 & h0 & sh & h1 & E0 & E1 & Hrest).
  - done.
  - apply initial_globals_wf.
  - by apply mem_wf_bool.
  - done.
  - done.
  - repeat constructor; eexists; split; reflexivity.
  - repeat constructor; by apply (bool_decide_unpack _).
  - repeat constructor.
  - done.
  - done.
  - injection E0 as <- <-. assert (checkpoint_size sh = 69%Z) as Hsize.
    { assert (from_option (λ r : list shard_result * option meta_shard * heap, checkpoint_size <$> r.1.2) None
        (Some ([RCode 0; RCode 0; RCode 0], Some sh, h1)) = Some 69%Z) as Heq by (rewrite <-E1; by vm_compute).
      by injection Heq. }
    destruct Hrest as (blob & g' & sh2 & h2 & sh3 & h3 & sh4 & h4 & E2 & E3 & E4 & E5 & _); [rewrite Hsize; by vm_compute|].
    exists sh, h1, blob, g', sh2, h2, sh3, h3, sh4, h4. split; [exact E1|]. split; [exact E2|]. split; [exact E3|]. split; [exact E4|].
    rewrite E5. by vm_compute.
Defined.
