(* ===== verification/ErasureCoding.v ===== *)
(** * Erasure coding ([src/gateway/gateway_ec.c])

    An engine holds its generator matrix; encoding splits an object into data
    fragments and fills the parity fragments; decoding puts data fragments back in
    place.  A fragment buffer is a block of the memory of [Memory.v]. *)
From S2P Require Import Prelude Memory.
From stdpp Require Import options.

Definition GATEWAY_MAX_FRAGMENTS : Z := 20.
Definition GATEWAY_MAX_STRIPE_SIZE : Z := 4 * 1024 * 1024.
Definition GATEWAY_MEDIUM_STRIPE_SIZE : Z := 512 * 1024.

Inductive erasure_coding_policy :=
  | ERASURE_CODING_REPLICATION_2X
  | ERASURE_CODING_REPLICATION_3X
  | ERASURE_CODING_6_PLUS_3
  | ERASURE_CODING_10_PLUS_4.

#[export] Instance erasure_coding_policy_eq_dec : EqDecision erasure_coding_policy.
Proof. solve_decision. Defined.

Record erasure_coding_params := EcParams {
  data_fragments : Z;
  parity_fragments : Z;
  stripe_size : Z
}.

Definition erasure_coding_params_for_policy (policy : erasure_coding_policy) : erasure_coding_params :=
  match policy with
  | ERASURE_CODING_REPLICATION_2X => EcParams 1 1 0
  | ERASURE_CODING_REPLICATION_3X => EcParams 1 2 0
  | ERASURE_CODING_6_PLUS_3 => EcParams 6 3 GATEWAY_MEDIUM_STRIPE_SIZE
  | ERASURE_CODING_10_PLUS_4 => EcParams 10 4 GATEWAY_MAX_STRIPE_SIZE
  end.

Record erasure_coding_engine := EcEngine {
  data_fragment_count : Z;
  parity_fragment_count : Z;
  encode_matrix : list Z
}.

(** The loops that fill the zeroed matrix: the identity, then the parity rows. *)
Definition identity_rows (k : nat) (matrix : list Z) : list Z :=
  foldl (λ matrix i, <[i * k + i := 1%Z]> matrix) matrix (seq 0 k).

Definition parity_row (k i : nat) (matrix : list Z) : list Z :=
  foldl (λ matrix j, <[i * k + j := u8 (Z.land (Z.of_nat ((i - k + 1) * (j + 1))) 0xFF)]> matrix)
    matrix (seq 0 k).

Definition parity_rows (k p : nat) (matrix : list Z) : list Z :=
  foldl (λ matrix i, parity_row k i matrix) matrix (seq k p).

Definition fill_matrix (k p : nat) : list Z :=
  parity_rows k p (identity_rows k (replicate ((k + p) * k) 0%Z)).

(** [parity[b] ^= data_fragment[b]] over the fragment. *)
Definition byte_xor (b c : byte) : byte := byte.of_Z (Z.lxor (byte.unsigned b) (byte.unsigned c)).
Definition xor_bytes (parity data : bytes) : bytes := zip_with byte_xor parity data.

(** The size of every fragment: the share of each data fragment, rounded up to 64. *)
Definition fragment_size_for (k data_size : Z) : Z :=
  let fragment_size := (u64 (data_size + k - 1) / k)%Z in
  u64 (u64 (fragment_size + 63) / 64 * 64).

(** A zeroed data fragment with its part of the object copied in. *)
Definition data_fragment (data : bytes) (data_size fragment_size : Z) (i : nat) : bytes :=
  let offset := u64 (Z.of_nat i * fragment_size) in
  let copy := (if decide (offset < data_size)
               then if decide (data_size - offset < fragment_size) then data_size - offset
                    else fragment_size
               else 0)%Z in
  take (Z.to_nat copy) (drop (Z.to_nat offset) data) ++
  replicate (Z.to_nat fragment_size - Z.to_nat copy) NUL.

(** The parity loop for row [i]: a fragment whose coefficient is 0 is skipped, any
    other is XORed in. *)
Definition parity_fragment (matrix : list Z) (k : nat) (datas : list bytes) (fragment_size : Z)
    (i : nat) : bytes :=
  foldl (λ parity j,
    if decide (matrix !!! (i * k + j) = 0%Z) then parity else xor_bytes parity (datas !!! j))
    (replicate (Z.to_nat fragment_size) NUL) (seq 0 k).

(** The contents of all fragments. *)
Definition encode_fragments (engine : erasure_coding_engine) (data : bytes) (data_size : Z)
    : list bytes :=
  let k := Z.to_nat (data_fragment_count engine) in
  let p := Z.to_nat (parity_fragment_count engine) in
  let fragment_size := fragment_size_for (data_fragment_count engine) data_size in
  let datas := data_fragment data data_size fragment_size <$> seq 0 k in
  datas ++ (parity_fragment (encode_matrix engine) k datas fragment_size <$> seq k p).

Section engine.
Context {O : AllocOracle}.
Local Open Scope Z_scope.

Definition erasure_coding_engine_create (data_fragment_count parity_fragment_count : Z)
    : M bytes (option erasure_coding_engine) :=
  if decide (data_fragment_count <= 0 ∨ parity_fragment_count < 0 ∨
             data_fragment_count + parity_fragment_count > GATEWAY_MAX_FRAGMENTS)
  then mret None else
  ok ← try_alloc;
  if negb ok then mret None else
  ok_matrix ← try_alloc;
  if negb ok_matrix then mret None else
  mret (Some (EcEngine data_fragment_count parity_fragment_count
                (fill_matrix (Z.to_nat data_fragment_count) (Z.to_nat parity_fragment_count)))).

Definition erasure_coding_get_data_fragment_count (engine : option erasure_coding_engine) : Z :=
  match engine with Some e => data_fragment_count e | None => -1 end.

Definition erasure_coding_get_parity_fragment_count (engine : option erasure_coding_engine) : Z :=
  match engine with Some e => parity_fragment_count e | None => -1 end.

Fixpoint free_all (ps : list nat) : M bytes unit :=
  match ps with
  | [] => mret tt
  | p :: ps => _ ← mfree (Some p); free_all ps
  end.

(** The allocation loop; a failure frees the buffers allocated before it. *)
Fixpoint alloc_fragments (n : nat) (fragment_size : Z) (allocated : list nat)
    : M bytes (option (list nat)) :=
  match n with
  | 0%nat => mret (Some allocated)
  | S n =>
      p ← malloc (replicate (Z.to_nat fragment_size) NUL);
      match p with
      | None => _ ← free_all allocated; mret None
      | Some l => alloc_fragments n fragment_size (allocated ++ [l])
      end
  end.

(** The buffers are distinct blocks, so each ends with its own contents. *)
Fixpoint store_fragments (ps : list nat) (contents : list bytes) : M bytes unit :=
  match ps, contents with
  | p :: ps, c :: contents => _ ← mstore p c; store_fragments ps contents
  | _, _ => mret tt
  end.

(** The code, and on success the fragments and their sizes. [outs] says both out
    pointers are set; reading past [data] is undefined. *)
Definition erasure_coding_encode (engine : option erasure_coding_engine) (data : option bytes)
    (data_size : Z) (outs : bool) : M bytes (Z * option (list nat * list Z)) :=
  match engine, data, outs with
  | Some engine, Some data, true =>
      let total := data_fragment_count engine + parity_fragment_count engine in
      let fragment_size := fragment_size_for (data_fragment_count engine) data_size in
      fragments ← alloc_fragments (Z.to_nat total) fragment_size [];
      match fragments with
      | None => mret (-1, None)
      | Some ps =>
          if decide (Z.of_nat (length data) < data_size) then undefined else
          _ ← store_fragments ps (encode_fragments engine data data_size);
          mret (0, Some (ps, replicate (Z.to_nat total) fragment_size))
      end
  | _, _, _ => mret (-1, None)
  end.

(** One iteration: the first fragment mapped to [i] is copied to its place. *)
Definition decode_step (fragments : list bytes) (fragment_size : Z) (fragment_map : list Z)
    (out : bytes) (i : nat) : option bytes :=
  match list_find (λ m, m = Z.of_nat i) fragment_map with
  | None => Some out
  | Some (j, _) =>
      fragment ← fragments !! j;
      if decide (fragment_size <= Z.of_nat (length fragment))
      then overlay (Z.to_nat (u64 (Z.of_nat i * fragment_size)))
             (take (Z.to_nat fragment_size) fragment) out
      else None
  end.

Fixpoint decode_loop (fragments : list bytes) (fragment_size : Z) (fragment_map : list Z)
    (idx : list nat) (out : bytes) : option bytes :=
  match idx with
  | [] => Some out
  | i :: idx => out ← decode_step fragments fragment_size fragment_map out i;
               decode_loop fragments fragment_size fragment_map idx out
  end.

(** The code, [data_out] and [*data_size_out]; [None] is an access outside an array. *)
Definition erasure_coding_decode (engine : option erasure_coding_engine)
    (fragments : option (list bytes)) (fragment_sizes fragment_map : option (list Z))
    (fragment_count : Z) (data_out : option bytes) (data_size_out : option Z)
    : option (Z * option bytes * option Z) :=
  match engine, fragments, fragment_sizes, fragment_map, data_out, data_size_out with
  | Some engine, Some fragments, Some sizes, Some map, Some out, Some _ =>
      if decide (Z.of_nat (length map) < fragment_count) then None else
      fragment_size ← head sizes;
      out ← decode_loop fragments fragment_size (take (Z.to_nat fragment_count) map)
              (seq 0 (Z.to_nat (data_fragment_count engine))) out;
      Some (0, Some out, Some (u64 (fragment_size * data_fragment_count engine)))
  | _, _, _, _, _, _ => Some (-1, data_out, data_size_out)
  end.
End engine.

Arguments erasure_coding_encode : simpl never.
Arguments erasure_coding_decode : simpl never.

(** ** The matrix *)

(** An engine as [erasure_coding_engine_create] makes it. *)
Definition engine_wf (e : erasure_coding_engine) : Prop :=
  (0 < data_fragment_count e)%Z ∧ (0 ≤ parity_fragment_count e)%Z ∧
  (data_fragment_count e + parity_fragment_count e ≤ GATEWAY_MAX_FRAGMENTS)%Z ∧
  encode_matrix e = fill_matrix (Z.to_nat (data_fragment_count e)) (Z.to_nat (parity_fragment_count e)).

Definition matrix_for (k p : Z) : erasure_coding_engine :=
  EcEngine k p (fill_matrix (Z.to_nat k) (Z.to_nat p)).

(** Every engine that can exist. *)
Definition engine_sizes : list (nat * nat) :=
  filter (λ '(k, p), k + p ≤ 20) (k ← seq 1 20; p ← seq 0 20; [(k, p)]).

(** The coefficients of the parity rows are never 0: they are products of at most
    10 * 10 = 100, so the [& 0xFF] never makes one vanish. *)
Definition rows_nonzero (matrix : list Z) (k p : nat) : Prop :=
  Forall (λ i, Forall (λ j, matrix !!! (i * k + j) ≠ 0%Z) (seq 0 k)) (seq k p).
#[export] Instance rows_nonzero_dec matrix k p : Decision (rows_nonzero matrix k p).
Proof. unfold rows_nonzero. apply _. Defined.

Definition parity_rows_nonzero (kp : nat * nat) : Prop :=
  rows_nonzero (fill_matrix kp.1 kp.2) kp.1 kp.2.
#[export] Instance parity_rows_nonzero_dec kp : Decision (parity_rows_nonzero kp) :=
  rows_nonzero_dec _ _ _.

Lemma all_parity_rows_nonzero : Forall parity_rows_nonzero engine_sizes.
Proof. apply (bool_decide_unpack _). by vm_compute. Qed.

Lemma parity_coefficient_nonzero (k p i j : nat) :
  1 ≤ k → k + p ≤ 20 → k ≤ i < k + p → j < k → fill_matrix k p !!! (i * k + j) ≠ 0%Z.
Proof.
  intros Hk Hkp Hi Hj.
  assert (parity_rows_nonzero (k, p)) as H.
  { apply (proj1 (Forall_forall _ _) all_parity_rows_nonzero). apply list_elem_of_filter. split; [done|].
    apply list_elem_of_bind. exists k. split; [|apply elem_of_seq; lia].
    apply list_elem_of_bind. exists p. split; [by left|apply elem_of_seq; lia]. }
  unfold parity_rows_nonzero, rows_nonzero in H. rewrite Forall_forall in H.
  specialize (H i ltac:(apply elem_of_seq; simpl; lia)). rewrite Forall_forall in H.
  by apply (H j), elem_of_seq; simpl; lia.
Qed.

(** ** Allocation *)

(** The blocks [ps] with contents [cs]. *)
Definition blocks (ps : list nat) (cs : list bytes) : gmap nat bytes := list_to_map (zip ps cs).

(** Some distinct blocks on top of a base that has none of them. *)
Definition on_top (ps : list nat) (cs : list bytes) (base cells : gmap nat bytes) : Prop :=
  NoDup ps ∧ length ps = length cs ∧ (∀ p, p ∈ ps → base !! p = None) ∧ cells = blocks ps cs ∪ base.

Lemma blocks_None p ps cs : p ∉ ps → blocks ps cs !! p = None.
Proof.
  intros Hp. apply not_elem_of_list_to_map. intros Hin. apply Hp.
  apply list_elem_of_fmap in Hin as ([q c] & -> & Hin). by apply elem_of_zip_l in Hin.
Qed.

Lemma on_top_nil base : on_top [] [] base base.
Proof. split_and!; [by apply NoDup_nil_2|done|by intros p ?%elem_of_nil|]. unfold blocks; simpl; by rewrite (left_id_L ∅ (∪)). Qed.

Lemma on_top_cons p ps c cs base cells :
  on_top (p :: ps) (c :: cs) base cells →
  cells !! p = Some c ∧ on_top ps cs base (delete p cells) ∧ on_top ps cs (<[p := c]> base) cells.
Proof.
  intros (Hnd & Hlen & Hbase & ->). apply NoDup_cons in Hnd as [Hp Hnd].
  assert (base !! p = None) as Hb by (apply Hbase; by left).
  assert (blocks (p :: ps) (c :: cs) ∪ base = <[p := c]> (blocks ps cs ∪ base)) as ->
    by (unfold blocks; simpl; by rewrite insert_union_l).
  split_and!; [by rewrite lookup_insert_eq| |].
  - split_and!; [done|by injection Hlen|intros q ?; apply Hbase; by right|].
    rewrite delete_insert_id; [done|]. apply lookup_union_None. by rewrite blocks_None.
  - split_and!; [done|by injection Hlen| |].
    + intros q Hq. rewrite lookup_insert_ne by (by intros ->). apply Hbase. by right.
    + rewrite insert_union_r by (by apply blocks_None). done.
Qed.

Lemma on_top_snoc p ps c cs base cells :
  on_top ps cs base cells → cells !! p = None → on_top (ps ++ [p]) (cs ++ [c]) base (<[p := c]> cells).
Proof.
  intros (Hnd & Hlen & Hbase & ->) [Hp Hb]%lookup_union_None.
  assert (p ∉ ps) as Hnp.
  { intros [i Hi]%list_elem_of_lookup. destruct (lookup_lt_is_Some_2 cs i) as [c' Hc].
    { rewrite <-Hlen. by eapply lookup_lt_Some. }
    assert (blocks ps cs !! p = Some c'); [|congruence].
    apply elem_of_list_to_map_1.
    - by rewrite fst_zip by lia.
    - apply list_elem_of_lookup. exists i. rewrite lookup_zip_with, Hi, Hc. done. }
  split_and!.
  - apply NoDup_app. split_and!; [done| |by apply NoDup_singleton]. by intros q Hq ->%list_elem_of_singleton.
  - rewrite !length_app. simpl. lia.
  - intros q [?| ->%list_elem_of_singleton]%elem_of_app; auto.
  - unfold blocks. rewrite zip_with_app by done. simpl. rewrite insert_union_l. f_equal.
    rewrite list_to_map_snoc; [done|]. by rewrite fst_zip by lia.
Qed.

Section encode.
#[local] Set Default Proof Using "Type*".
Context {O : AllocOracle}.

Lemma free_all_on_top ps cs base h :
  on_top ps cs base (mem_cells h) → mem_wf h →
  ∃ h', free_all ps h = Some (tt, h') ∧ mem_cells h' = base ∧ mem_next h' = mem_next h ∧ mem_wf h'.
Proof.
  revert cs h. induction ps as [|p ps IH]; intros cs h Hon Hwf.
  - destruct cs; [|by destruct Hon as (_ & ? & _)]. exists h.
    destruct Hon as (_ & _ & _ & Hc). unfold blocks in Hc. simpl in Hc.
    rewrite (left_id_L ∅ (∪)) in Hc. done.
  - destruct cs as [|c cs]; [by destruct Hon as (_ & ? & _)|].
    apply on_top_cons in Hon as (Hc & Hon & _). simpl.
    rewrite (M_bind_Some _ _ _ _ _ (mfree_live _ _ _ Hc)).
    destruct (IH cs (Mem (mem_next h) (delete p (mem_cells h)))) as (h' & ?); [done|by apply mem_wf_delete|].
    by exists h'.
Qed.

Lemma store_fragments_on_top ps zs cs base h :
  on_top ps zs base (mem_cells h) → length cs = length ps → mem_wf h →
  ∃ h', store_fragments ps cs h = Some (tt, h') ∧ on_top ps cs base (mem_cells h') ∧
    mem_next h' = mem_next h ∧ mem_wf h'.
Proof.
  revert zs cs base h. induction ps as [|p ps IH]; intros zs cs base h Hon Hcs Hwf.
  - destruct cs; [|done]. exists h. destruct zs; [done|by destruct Hon as (_ & ? & _)].
  - destruct zs as [|z zs]; [by destruct Hon as (_ & ? & _)|]. destruct cs as [|c cs]; [done|].
    destruct Hon as (Hnd & Hlen & Hbase & Hcells).
    destruct (on_top_cons p ps z zs base (mem_cells h)) as (Hz & _ & (_ & _ & Hbase' & Hcells')); [by split_and!|].
    apply NoDup_cons in Hnd as [Hp Hnd]. simpl.
    unfold mstore at 1. unfold mbind, M_bind. rewrite Hz.
    destruct (IH zs cs (<[p := c]> base) (Mem (mem_next h) (<[p := c]> (mem_cells h))))
      as (h' & E & (_ & Hlen' & _ & Hc') & Hn & Hwf').
    + split_and!; [done|by injection Hlen| |].
      * intros q Hq. rewrite lookup_insert_ne by (by intros ->). apply Hbase. by right.
      * simpl. rewrite Hcells', <-insert_union_r, insert_insert_eq, insert_union_r; [done|by apply blocks_None..].
    + by injection Hcs.
    + intros l. simpl. rewrite lookup_insert. case_decide as Hl; [|apply Hwf].
      intros _. apply Hwf. by rewrite <-Hl, Hz.
    + exists h'. split_and!; [done| |done|done]. split_and!; [by apply NoDup_cons|simpl; by rewrite Hlen'|done|].
      rewrite Hc', <-insert_union_r by (by apply blocks_None).
      unfold blocks. simpl. by rewrite insert_union_l.
Qed.

(** The allocation loop allocates everything, or nothing. *)
Lemma alloc_fragments_cases n fs ps base h :
  mem_wf h → on_top ps (replicate (length ps) (replicate (Z.to_nat fs) NUL)) base (mem_cells h) →
  ∃ r h', alloc_fragments n fs ps h = Some (r, h') ∧ mem_wf h' ∧
    match r with
    | Some ps' => length ps' = length ps + n ∧
        on_top ps' (replicate (length ps') (replicate (Z.to_nat fs) NUL)) base (mem_cells h')
    | None => mem_cells h' = base ∧ ∃ n, alloc_ok n = false
    end.
Proof.
  revert ps h. induction n as [|n IH]; intros ps h Hwf Hon; simpl.
  - exists (Some ps), h. split_and!; [done..|lia|done].
  - unfold malloc at 1. unfold mbind, M_bind. simpl. destruct (alloc_ok (mem_next h)) eqn:Hok.
    + destruct (IH (ps ++ [mem_next h]) (Mem (S (mem_next h))
        (<[mem_next h := replicate (Z.to_nat fs) NUL]> (mem_cells h)))) as (r & h' & E & Hwf' & Hr).
      * by apply mem_wf_insert.
      * rewrite length_app, replicate_add. simpl. by apply on_top_snoc; [|apply mem_wf_fresh].
      * exists r, h'. split; [done|]. split; [done|]. destruct r; [|done].
        rewrite length_app in Hr. simpl in Hr. split; [lia|by apply Hr].
    + destruct (free_all_on_top ps (replicate (length ps) (replicate (Z.to_nat fs) NUL)) base
        (Mem (S (mem_next h)) (mem_cells h))) as (h' & E & Hc & _ & Hwf'); [done|by apply mem_wf_tick|].
      exists None, h'. rewrite E. by eauto.
Qed.

Lemma encode_fragments_length e data size :
  engine_wf e → length (encode_fragments e data size) =
    Z.to_nat (data_fragment_count e + parity_fragment_count e).
Proof.
  intros (? & ? & _). unfold encode_fragments.
  rewrite length_app, !length_fmap, !length_seq. lia.
Qed.

(** Encoding allocates exactly the fragments it returns, with their contents, or
    fails and leaves nothing allocated. *)
Lemma encode_cases e data size h :
  engine_wf e → mem_wf h → (size ≤ Z.of_nat (length data))%Z →
  ∃ rc out h', erasure_coding_encode (Some e) (Some data) size true h = Some ((rc, out), h') ∧ mem_wf h' ∧
    match out with
    | Some (ps, sizes) => rc = 0%Z ∧
        length ps = Z.to_nat (data_fragment_count e + parity_fragment_count e) ∧
        sizes = replicate (length ps) (fragment_size_for (data_fragment_count e) size) ∧
        on_top ps (encode_fragments e data size) (mem_cells h) (mem_cells h')
    | None => rc = (-1)%Z ∧ mem_cells h' = mem_cells h ∧ ∃ n, alloc_ok n = false
    end.
Proof.
  intros He Hwf Hsize. unfold erasure_coding_encode.
  destruct (alloc_fragments_cases (Z.to_nat (data_fragment_count e + parity_fragment_count e))
    (fragment_size_for (data_fragment_count e) size) [] (mem_cells h) h) as (r & h1 & E & Hwf1 & Hr);
    [done|apply on_top_nil|].
  rewrite (M_bind_Some _ _ _ _ _ E). destruct r as [ps|].
  - destruct Hr as [Hlen Hon]. simpl in Hlen. rewrite decide_False by lia.
    destruct (store_fragments_on_top ps _ (encode_fragments e data size) _ h1 Hon)
      as (h2 & E2 & Hon2 & _ & Hwf2); [by rewrite encode_fragments_length, Hlen|done|].
    rewrite (M_bind_Some _ _ _ _ _ E2).
    eexists _, (Some (ps, _)), h2. split_and!; [done..|by rewrite Hlen|done].
  - by eexists _, None, h1.
Qed.
End encode.

(** ** The fragments *)

(** Every fragment size is a multiple of 64 and the data fragments hold the object. *)
Lemma fragment_size_bounds k size :
  (0 < k ≤ 20)%Z → (0 ≤ size < 2 ^ 48)%Z →
  (0 ≤ fragment_size_for k size < 2 ^ 49)%Z ∧ (fragment_size_for k size mod 64 = 0)%Z ∧
  (size ≤ k * fragment_size_for k size)%Z.
Proof.
  intros Hk Hs. unfold fragment_size_for, wrap.
  rewrite (Z.mod_small (size + k - 1)) by lia.
  set (q := ((size + k - 1) / k)%Z).
  assert (0 ≤ q ≤ size + k - 1)%Z as Hq.
  { split; [apply Z.div_pos; lia|]. apply Z.div_le_upper_bound; nia. }
  assert (size ≤ k * q)%Z as Hkq.
  { pose proof (Z.div_mod (size + k - 1) k ltac:(lia)) as Hdm.
    pose proof (Z.mod_pos_bound (size + k - 1) k ltac:(lia)). fold q in Hdm. lia. }
  rewrite (Z.mod_small (q + 63)) by lia.
  pose proof (Z.div_mod (q + 63) 64 ltac:(lia)). pose proof (Z.mod_pos_bound (q + 63) 64 ltac:(lia)).
  rewrite Z.mod_small by lia. split_and!; [lia|lia|by apply Z.mod_mul|nia].
Qed.

Lemma data_fragment_resize data size fs i :
  (0 ≤ size)%Z → (0 ≤ fs)%Z → (Z.of_nat i * fs < 2 ^ 64)%Z → Z.of_nat (length data) = size →
  data_fragment data size fs i = resize (Z.to_nat fs) NUL (drop (i * Z.to_nat fs) data).
Proof.
  intros Hs Hfs Hi Hlen. unfold data_fragment. rewrite resize_spec, length_drop.
  rewrite (wrap_small 64) by (unfold fits; lia).
  replace (Z.to_nat (Z.of_nat i * fs)) with (i * Z.to_nat fs) by lia.
  case_decide as H1; [case_decide as H2|]; f_equal.
  - rewrite !take_ge; [done|rewrite length_drop; lia|rewrite length_drop; lia].
  - f_equal. lia.
  - f_equal. lia.
  - rewrite drop_ge by lia. by rewrite !take_nil.
  - f_equal. lia.
Qed.

(** The data fragments, side by side, are the object padded with zeros. *)
Lemma concat_resize (fs n : nat) (data : bytes) :
  concat ((λ i, resize fs NUL (drop (i * fs) data)) <$> seq 0 n) = resize (n * fs) NUL data.
Proof.
  induction n as [|n IH]; [by rewrite resize_0|].
  rewrite seq_S, fmap_app, concat_app, IH. simpl. rewrite app_nil_r, (Nat.add_comm fs).
  by rewrite resize_add.
Qed.

Section decode.
Context (k : nat) (fs : Z) (datas : list bytes) (fragments : list bytes) (fragment_map : list Z).
Hypothesis fs_range : (0 ≤ fs)%Z ∧ (Z.of_nat k * fs < 2 ^ 64)%Z.
Hypothesis datas_length : length datas = k.
Hypothesis datas_size : Forall (λ d, length d = Z.to_nat fs) datas.
(** Every data fragment is listed, and what is listed for one is that fragment. *)
Hypothesis mapped : ∀ i, i < k → Z.of_nat i ∈ fragment_map.
Hypothesis mapped_right : ∀ j i, i < k → fragment_map !! j = Some (Z.of_nat i) → fragments !! j = datas !! i.
#[local] Set Default Proof Using "Type*".

Lemma decode_step_present out i d :
  datas !! i = Some d →
  decode_step fragments fs fragment_map out i = overlay (i * Z.to_nat fs) d out.
Proof.
  intros Hd. assert (i < k) as Hi by (rewrite <-datas_length; by eapply lookup_lt_Some).
  unfold decode_step.
  destruct (list_find (λ m, m = Z.of_nat i) fragment_map) as [[j m]|] eqn:E.
  - apply list_find_Some in E as (Hj & -> & _). rewrite (mapped_right j i Hi Hj), Hd. simpl.
    assert (length d = Z.to_nat fs) as Hdl by (eapply Forall_lookup in datas_size; [exact datas_size|done]).
    rewrite decide_True by lia. rewrite take_ge by lia. f_equal.
    rewrite wrap_small; [lia|]. unfold fits. nia.
  - apply list_find_None in E. rewrite Forall_forall in E. exfalso. by apply (E _ (mapped i Hi)).
Qed.

(** Decoding overlays the data fragments from the left. *)
Lemma decode_loop_present n out :
  n ≤ k → k * Z.to_nat fs ≤ length out →
  decode_loop fragments fs fragment_map (seq (k - n) n) out =
    overlay ((k - n) * Z.to_nat fs) (concat (drop (k - n) datas)) out.
Proof.
  revert out. induction n as [|n IH]; intros out Hn Hout; simpl.
  - rewrite drop_ge by lia. simpl. unfold overlay. simpl. rewrite decide_True by nia.
    by rewrite Nat.add_0_r, take_drop.
  - destruct (lookup_lt_is_Some_2 datas (k - S n)) as [d Hd]; [lia|].
    rewrite (decode_step_present _ _ d) by done.
    rewrite (drop_S datas d (k - S n)) by done. simpl. rewrite <-overlay_app.
    assert (length d = Z.to_nat fs) as Hdl by (eapply Forall_lookup in datas_size; [exact datas_size|done]).
    destruct (overlay _ d out) as [out1|] eqn:E; [|done]. simpl.
    replace (S (k - S n)) with (k - n) by lia. rewrite IH; [|lia|].
    + f_equal. rewrite Hdl. nia.
    + by rewrite (overlay_length _ _ _ _ E).
Qed.

Lemma decode_all_present out :
  k * Z.to_nat fs ≤ length out →
  decode_loop fragments fs fragment_map (seq 0 k) out =
    Some (concat datas ++ drop (length (concat datas)) out).
Proof.
  intros Hout. pose proof (decode_loop_present k out (le_n k) Hout) as E.
  rewrite Nat.sub_diag in E. rewrite E. unfold overlay. simpl. rewrite drop_0.
  assert (length (concat datas) = k * Z.to_nat fs) as Hlen.
  { rewrite <-datas_length. by apply length_concat_const. }
  by rewrite decide_True by lia.
Qed.
End decode.

(** The data fragments of an encoding. *)
Definition data_part (e : erasure_coding_engine) (data : bytes) : list bytes :=
  data_fragment data (Z.of_nat (length data)) (fragment_size_for (data_fragment_count e) (Z.of_nat (length data)))
    <$> seq 0 (Z.to_nat (data_fragment_count e)).

Section encoded.
#[local] Set Default Proof Using "Type*".
Context (e : erasure_coding_engine) (data : bytes).
Hypothesis e_wf : engine_wf e.
Hypothesis data_small : (Z.of_nat (length data) < 2 ^ 48)%Z.

Let k := Z.to_nat (data_fragment_count e).
Let fs := fragment_size_for (data_fragment_count e) (Z.of_nat (length data)).

Lemma encoded_size : (0 ≤ fs < 2 ^ 49)%Z ∧ (Z.of_nat k * fs < 2 ^ 64)%Z ∧ length data ≤ k * Z.to_nat fs.
Proof.
  destruct e_wf as (Hk & Hp & Hkp & _). unfold GATEWAY_MAX_FRAGMENTS in Hkp.
  destruct (fragment_size_bounds (data_fragment_count e) (Z.of_nat (length data))) as (? & _ & ?); [lia..|].
  fold fs in H, H0. split_and!; [lia|lia|nia|nia].
Qed.

Lemma data_part_resize : data_part e data = (λ i, resize (Z.to_nat fs) NUL (drop (i * Z.to_nat fs) data)) <$> seq 0 k.
Proof.
  destruct encoded_size as (? & ? & _). apply list_fmap_ext. intros i x [Hx ?]%lookup_seq. simplify_eq/=.
  apply data_fragment_resize; [lia|lia|nia|done].
Qed.

Lemma data_part_concat : concat (data_part e data) = resize (k * Z.to_nat fs) NUL data.
Proof. rewrite data_part_resize. apply concat_resize. Qed.

Lemma data_part_sizes : Forall (λ d, length d = Z.to_nat fs) (data_part e data) ∧ length (data_part e data) = k.
Proof.
  rewrite data_part_resize, length_fmap, length_seq. split; [|done].
  apply Forall_fmap, Forall_forall. intros i _. apply length_resize.
Qed.

Lemma encode_fragments_app :
  encode_fragments e data (Z.of_nat (length data)) =
    data_part e data ++ (parity_fragment (encode_matrix e) k (data_part e data) fs <$>
                           seq k (Z.to_nat (parity_fragment_count e))).
Proof. done. Qed.

Lemma encoded_data_fragment i :
  i < k → encode_fragments e data (Z.of_nat (length data)) !! i = data_part e data !! i.
Proof. intros Hi. rewrite encode_fragments_app, lookup_app_l; [done|]. by destruct data_part_sizes as [_ ->]. Qed.

(** Every parity row XORs all the data fragments. *)
Lemma parity_fragment_xor i :
  k ≤ i < k + Z.to_nat (parity_fragment_count e) →
  parity_fragment (encode_matrix e) k (data_part e data) fs i =
    foldl xor_bytes (replicate (Z.to_nat fs) NUL) (data_part e data).
Proof.
  intros Hi. destruct e_wf as (Hk & Hp & Hkp & Hm). unfold GATEWAY_MAX_FRAGMENTS in Hkp.
  unfold parity_fragment. rewrite Hm. fold k.
  destruct data_part_sizes as [_ Hlen]. generalize (replicate (Z.to_nat fs) NUL).
  assert (∀ n d, n ≤ k → foldl (λ parity j,
    if decide (fill_matrix k (Z.to_nat (parity_fragment_count e)) !!! (i * k + j) = 0%Z) then parity
    else xor_bytes parity (data_part e data !!! j)) d (seq 0 n) =
    foldl xor_bytes d (take n (data_part e data))) as Hn.
  { induction n as [|n IH]; intros d Hnk; [done|].
    rewrite seq_S, foldl_app, IH by lia. simpl.
    destruct (lookup_lt_is_Some_2 (data_part e data) n) as [x Hx]; [lia|].
    rewrite (take_S_r _ _ x) by done. rewrite foldl_app. simpl.
    rewrite decide_False by (apply parity_coefficient_nonzero; lia).
    by rewrite (list_lookup_total_correct _ _ _ Hx). }
  intros d. rewrite Hn by done. by rewrite take_ge by lia.
Qed.
End encoded.

(** ** Properties *)

(** C12. Round trip: what an engine encodes, decoding puts back. From any set of
    fragments that lists every data fragment, in any order and with any parity
    fragments among them, decoding returns 0, the size of all data fragments, and the
    object followed by zeros up to that size, leaving the rest of the buffer alone. *)
Theorem encode_decode_roundtrip `{O : AllocOracle} e data fragments fragment_map out out_size h :
  engine_wf e → mem_wf h → (Z.of_nat (length data) < 2 ^ 48)%Z → (∀ n, alloc_ok n = true) →
  let encoded := encode_fragments e data (Z.of_nat (length data)) in
  let fs := fragment_size_for (data_fragment_count e) (Z.of_nat (length data)) in
  let total := (data_fragment_count e * fs)%Z in
  (∀ i, (0 ≤ i < data_fragment_count e)%Z → i ∈ fragment_map) →
  (∀ j i, fragment_map !! j = Some i → fragments !! j = encoded !! Z.to_nat i) →
  (total ≤ Z.of_nat (length out))%Z →
  (∃ ps h', erasure_coding_encode (Some e) (Some data) (Z.of_nat (length data)) true h =
       Some ((0%Z, Some (ps, replicate (length ps) fs)), h') ∧
     ∀ i p, ps !! i = Some p → mem_cells h' !! p = encoded !! i) ∧
  erasure_coding_decode (Some e) (Some fragments) (Some (replicate (length fragment_map) fs))
    (Some fragment_map) (Z.of_nat (length fragment_map)) (Some out) (Some out_size) =
    Some (0%Z, Some (data ++ replicate (Z.to_nat total - length data) NUL ++ drop (Z.to_nat total) out), Some total).
Proof.
  intros He Hwf Hdata Hok encoded fs total Hmap Hright Hout.
  destruct (encoded_size e data He Hdata) as (Hfs & Hkfs & Hle). fold fs in Hfs, Hkfs, Hle.
  pose proof He as (Hk & Hp & _). split.
  - destruct (encode_cases e data (Z.of_nat (length data)) h) as (rc & o & h' & E & _ & Ho); [done..|].
    destruct o as [[ps sizes]|]; [|destruct Ho as (_ & _ & n & Hn); by rewrite Hok in Hn].
    destruct Ho as (-> & Hlen & -> & Hnd & Hlenps & _ & Hcells).
    exists ps, h'. split; [done|]. intros i p Hi. rewrite Hcells.
    destruct (lookup_lt_is_Some_2 encoded i) as [c Hc].
    { fold encoded in Hlenps. rewrite <-Hlenps. by eapply lookup_lt_Some. }
    rewrite Hc. apply lookup_union_Some_l. apply elem_of_list_to_map_1.
    + by rewrite fst_zip by (rewrite Hlenps; done).
    + apply list_elem_of_lookup. exists i. rewrite lookup_zip_with, Hi. simpl. fold encoded. by rewrite Hc.
  - unfold erasure_coding_decode. rewrite decide_False by lia.
    assert (length fragment_map ≠ 0) as Hne.
    { intros Hnil%nil_length_inv. specialize (Hmap 0%Z ltac:(lia)). rewrite Hnil in Hmap. set_solver. }
    destruct (length fragment_map) as [|n] eqn:Hlen; [done|]. simpl.
    rewrite take_ge by lia. destruct (data_part_sizes e data He Hdata) as [Hsz Hdl].
    rewrite (decode_all_present (Z.to_nat (data_fragment_count e)) fs (data_part e data)).
    + rewrite (data_part_concat e data He Hdata). fold fs. simpl.
      rewrite length_resize, resize_ge by done. rewrite wrap_small by (unfold fits; nia).
      rewrite <-app_assoc. replace (Z.to_nat (data_fragment_count e) * Z.to_nat fs) with (Z.to_nat total) by nia.
      assert ((fs * data_fragment_count e)%Z = total) as -> by (unfold total; lia). done.
    + split; [lia|done].
    + done.
    + done.
    + intros i Hi. apply Hmap. lia.
    + intros j i Hi Hj. rewrite (Hright _ _ Hj), Nat2Z.id. by apply encoded_data_fragment.
    + nia.
Qed.

(** The parity fragments are all the same: each one is the XOR of all the data
    fragments, whatever its row of coefficients, because a coefficient only decides
    whether a fragment is XORed in and none is ever 0. *)
Theorem parity_fragments_equal e data i :
  engine_wf e → (Z.of_nat (length data) < 2 ^ 48)%Z →
  (data_fragment_count e ≤ Z.of_nat i < data_fragment_count e + parity_fragment_count e)%Z →
  encode_fragments e data (Z.of_nat (length data)) !! i =
    Some (foldl xor_bytes
            (replicate (Z.to_nat (fragment_size_for (data_fragment_count e) (Z.of_nat (length data)))) NUL)
            (data_part e data)).
Proof.
  intros He Hdata Hi. pose proof He as (Hk & Hp & _).
  rewrite (encode_fragments_app e data He Hdata), lookup_app_r;
    destruct (data_part_sizes e data He Hdata) as [_ ->]; [|lia].
  rewrite list_lookup_fmap, lookup_seq_lt by lia. simpl.
  by rewrite (parity_fragment_xor e data He Hdata) by lia.
Qed.

(** Two objects that only differ in their first two data fragments, by the same bytes. *)
Definition colliding_objects (k : nat) : bytes * bytes :=
  (replicate (64 * k) NUL,
   <[0 := Byte.x01]> (<[64 := Byte.x01]> (replicate (64 * k) NUL))).

(** C40. With two data fragments lost, no decoder can recover the object, although the
    6+3 engine keeps three parity fragments and the 10+4 engine four: two different
    objects have the same remaining fragments. *)
Theorem two_losses_unrecoverable (recover : list bytes → bytes) :
  ¬ (∀ data, length data = 384 →
       recover (drop 2 (encode_fragments (matrix_for 6 3) data 384)) = data) ∧
  ¬ (∀ data, length data = 640 →
       recover (drop 2 (encode_fragments (matrix_for 10 4) data 640)) = data).
Proof.
  split; intros Hrec.
  - pose proof (Hrec (colliding_objects 6).1 eq_refl) as H1.
    pose proof (Hrec (colliding_objects 6).2 eq_refl) as H2.
    assert (drop 2 (encode_fragments (matrix_for 6 3) (colliding_objects 6).1 384) =
            drop 2 (encode_fragments (matrix_for 6 3) (colliding_objects 6).2 384)) as E by by vm_compute.
    rewrite E, H2 in H1. apply (f_equal head) in H1. vm_compute in H1. discriminate H1.
  - pose proof (Hrec (colliding_objects 10).1 eq_refl) as H1.
    pose proof (Hrec (colliding_objects 10).2 eq_refl) as H2.
    assert (drop 2 (encode_fragments (matrix_for 10 4) (colliding_objects 10).1 640) =
            drop 2 (encode_fragments (matrix_for 10 4) (colliding_objects 10).2 640)) as E by by vm_compute.
    rewrite E, H2 in H1. apply (f_equal head) in H1. vm_compute in H1. discriminate H1.
Qed.

Lemma decode_loop_outside fragments fs fragment_map idx out out' i b :
  (0 ≤ fs)%Z → Forall (λ j, (Z.of_nat (S j) * fs < 2 ^ 64)%Z) idx → Z.of_nat i ∉ fragment_map →
  i * Z.to_nat fs ≤ b < S i * Z.to_nat fs →
  decode_loop fragments fs fragment_map idx out = Some out' → out' !! b = out !! b.
Proof.
  intros Hfs Hidx Hi Hb. revert out. induction Hidx as [|j idx Hj _ IH]; intros out; simpl; [by intros [= ->]|].
  destruct (decode_step fragments fs fragment_map out j) as [out1|] eqn:E; [|done]. simpl.
  intros ->%IH. clear IH. unfold decode_step in E.
  destruct (list_find _ _) as [[n m]|] eqn:Ef; [|by simplify_eq].
  apply list_find_Some in Ef as (Hm & -> & _).
  assert (j ≠ i) by (intros ->; apply Hi; by eapply list_elem_of_lookup_2).
  destruct (fragments !! n) as [f|]; [|done]. simpl in E. case_decide as Hlen; [|done].
  apply (overlay_outside _ _ _ _ b E). rewrite length_take, wrap_small by (unfold fits; nia).
  destruct (decide (j < i)); [right|left]; nia.
Qed.

(** Decoding does not reconstruct: when no listed fragment is data fragment [i],
    it still returns 0 and the full size, with that fragment's range of the output
    buffer left as the caller passed it, parity fragments or not. *)
Theorem decode_missing_fragment e fragments fs sizes fragment_map out out_size i rc out' out_size' :
  engine_wf e → (0 ≤ fs)%Z → (data_fragment_count e * fs < 2 ^ 64)%Z →
  Z.of_nat i ∉ fragment_map → (Z.of_nat i < data_fragment_count e)%Z →
  erasure_coding_decode (Some e) (Some fragments) (Some (fs :: sizes)) (Some fragment_map)
    (Z.of_nat (length fragment_map)) (Some out) (Some out_size) = Some (rc, out', out_size') →
  rc = 0%Z ∧ out_size' = Some (data_fragment_count e * fs)%Z ∧
  ∃ o, out' = Some o ∧ ∀ b, i * Z.to_nat fs ≤ b < S i * Z.to_nat fs → o !! b = out !! b.
Proof.
  intros (Hk & _) Hfs Hmul Hmiss Hi. unfold erasure_coding_decode. rewrite decide_False by lia.
  simpl. rewrite take_ge by lia. destruct (decode_loop _ _ _ _ _) as [o|] eqn:E; [|done]. simpl.
  intros [= <- <- <-]. split; [done|]. split; [f_equal; rewrite wrap_small; unfold fits; nia|].
  exists o. split; [done|]. intros b Hb. eapply decode_loop_outside; [done| |done|done|done].
  apply Forall_forall. intros j Hj%elem_of_seq. nia.
Qed.

(** ** Witnesses: the 6+3 engine on a short object *)

Definition example_object_data : bytes := cs "0123456789".

Lemma matrix_for_wf k p : bool_decide (0 < k ∧ 0 ≤ p ∧ k + p ≤ GATEWAY_MAX_FRAGMENTS)%Z = true →
  engine_wf (matrix_for k p).
Proof. intros (? & ? & ?)%bool_decide_eq_true. by split_and!. Qed.

Lemma encode_decode_roundtrip_witness :
  erasure_coding_decode (Some (matrix_for 2 1))
    (Some [encode_fragments (matrix_for 2 1) example_object_data 10 !!! 1;
           encode_fragments (matrix_for 2 1) example_object_data 10 !!! 0])
    (Some [64; 64]%Z) (Some [1; 0]%Z) 2 (Some (replicate 130 Byte.xff)) (Some 0%Z) =
  Some (0%Z, Some (example_object_data ++ replicate 118 NUL ++ [Byte.xff; Byte.xff]), Some 128%Z).
Proof.
  apply (encode_decode_roundtrip (O := no_oom) (matrix_for 2 1) example_object_data
    [encode_fragments (matrix_for 2 1) example_object_data 10 !!! 1;
     encode_fragments (matrix_for 2 1) example_object_data 10 !!! 0] [1; 0]%Z (replicate 130 Byte.xff) 0 mem_empty).
  - by apply matrix_for_wf.
  - by apply mem_wf_bool.
  - done.
  - done.
  - intros i Hi. simpl in Hi. assert (i = 0 ∨ i = 1)%Z as [-> | ->] by lia; set_solver.
  - intros [|[|j]] i Hj; simplify_eq/=; by vm_compute.
  - by vm_compute.
Defined.

Lemma parity_fragments_equal_witness :
  encode_fragments (matrix_for 6 3) example_object_data 10 !! 7 =
  Some (foldl xor_bytes (replicate 64 NUL) (data_part (matrix_for 6 3) example_object_data)).
Proof. apply (parity_fragments_equal (matrix_for 6 3) example_object_data 7); [by apply matrix_for_wf|done|done]. Defined.

Lemma decode_missing_fragment_witness :
  ∃ o, erasure_coding_decode (Some (matrix_for 2 1))
    (Some [encode_fragments (matrix_for 2 1) example_object_data 10 !!! 0]) (Some [64]%Z) (Some [0]%Z) 1
    (Some (replicate 128 Byte.xff)) (Some 0%Z) = Some (0%Z, Some o, Some 128%Z) ∧ o !! 64 = Some Byte.xff.
Proof.
  eexists. split; [by vm_compute|].
  destruct (decode_missing_fragment (matrix_for 2 1)
    [encode_fragments (matrix_for 2 1) example_object_data 10 !!! 0] 64 [] [0]%Z (replicate 128 Byte.xff) 0 1
    0 _ _ ltac:(by apply matrix_for_wf) ltac:(done) ltac:(done) ltac:(set_solver) ltac:(done)
    ltac:(by vm_compute)) as (_ & _ & o & [= <-] & Ho).
  by rewrite Ho by (vm_compute; lia).
Defined.
