(* ===== verification/ManifestCache.v ===== *)
(** * The manifest cache ([src/gateway/gateway_manifest_cache.c])

    A fixed array probed linearly from a hash of the bucket and the key.  A slot
    index is always below the capacity, which is the length of the array. *)
From S2P Require Import Prelude Memory MetaTypes.
From stdpp Require Import options.

Record cache_entry := CacheEntry {
  ce_bucket : bytes;
  ce_key : bytes;
  ce_manifest : object_manifest;
  ce_is_valid : Z
}.

Record manifest_cache := Cache {
  mc_entries : list cache_entry;
  mc_capacity : Z;
  mc_count : Z
}.

(** A slot of the zeroed array. *)
Definition zero_entry : cache_entry := CacheEntry [] [] (Manifest [] [] 0 0 0 0 0 None) 0.

(** A [char] is signed. *)
Definition schar (c : byte) : Z :=
  if decide (byte.unsigned c < 128)%Z then byte.unsigned c else (byte.unsigned c - 256)%Z.

(** [hash = (hash * 31 + c) & 0x7FFFFFFF] in [int] arithmetic modulo 2^32: the product of a
    long key overflows, which the C standard leaves undefined; it is taken to wrap, as
    compilers make it on two's complement machines. *)
Definition hash_step (hash : Z) (c : byte) : Z := Z.land (i32 (hash * 31 + schar c)) 0x7FFFFFFF.

(** The first slot of a key; the remainder by a capacity of 0 is undefined. *)
Definition make_index (bucket key : bytes) (capacity : Z) : option nat :=
  if decide (capacity = 0)%Z then None
  else Some (Z.to_nat (Z.rem (foldl hash_step (foldl hash_step 0%Z bucket) key) capacity)).

(** The slots [(index + i) % capacity] in the order the loops visit them. The sums are [int]s:
    [probes_int] shows that they fit up to a capacity of 2^30. *)
Definition probes (index : nat) (capacity : Z) : list nat :=
  (λ i, (index + i) mod Z.to_nat capacity) <$> seq 0 (Z.to_nat capacity).

Lemma probes_int index capacity : (Z.of_nat index < capacity ≤ 2 ^ 30)%Z →
  probes index capacity =
    (λ i, Z.to_nat (Z.rem (i32 (Z.of_nat index + Z.of_nat i)) capacity)) <$> seq 0 (Z.to_nat capacity).
Proof.
  intros Hcap. unfold probes. apply list_fmap_ext. intros k i Hi. apply lookup_seq in Hi as [-> Hi].
  rewrite i32_small by lia. rewrite Z.rem_mod_nonneg, <-Nat2Z.inj_add by lia.
  rewrite <-(Z2Nat.id capacity) at 2 by lia. by rewrite <-Nat2Z.inj_mod, Nat2Z.id.
Qed.

(** [entry->is_valid], and the two [strcmp]s against an entry. *)
Definition slot_valid (es : list cache_entry) (p : nat) : Prop :=
  match es !! p with Some e => ce_is_valid e ≠ 0%Z | None => False end.
Definition slot_matches (es : list cache_entry) (bucket key : bytes) (p : nat) : Prop :=
  match es !! p with
  | Some e => strcmp (ce_bucket e) bucket = Eq ∧ strcmp (ce_key e) key = Eq
  | None => False
  end.
#[export] Instance slot_valid_dec es p : Decision (slot_valid es p).
Proof. unfold slot_valid. destruct (es !! p); apply _. Defined.
#[export] Instance slot_matches_dec es bucket key p : Decision (slot_matches es bucket key p).
Proof. unfold slot_matches. destruct (es !! p); apply _. Defined.

Definition set_valid (e : cache_entry) (v : Z) : cache_entry :=
  CacheEntry (ce_bucket e) (ce_key e) (ce_manifest e) v.
Definition set_manifest (e : cache_entry) (m : object_manifest) : cache_entry :=
  CacheEntry (ce_bucket e) (ce_key e) m (ce_is_valid e).

Section create.
Context {O : AllocOracle} {A : Type}.

(** [calloc] of a negative number of entries overflows and fails. *)
Definition manifest_cache_create (max_entries : Z) : M A (option manifest_cache) :=
  ok ← try_alloc;
  if negb ok then mret None else
  ok_entries ← try_alloc;
  if decide (ok_entries = false ∨ (max_entries < 0)%Z) then mret None else
  mret (Some (Cache (replicate (Z.to_nat max_entries) zero_entry) max_entries 0)).
End create.

(** The slot at which a lookup or an invalidation stops: the first one that is free
    or holds the key. *)
Definition find_stop (c : manifest_cache) (bucket key : bytes) (index : nat) : option nat :=
  snd <$> list_find (λ p, ¬ slot_valid (mc_entries c) p ∨ slot_matches (mc_entries c) bucket key p)
            (probes index (mc_capacity c)).

(** [None] is undefined behaviour; otherwise the code and the out parameter. *)
Definition manifest_cache_lookup (cache : option manifest_cache) (bucket key : option bytes)
    (out : option object_manifest) : option (Z * option object_manifest) :=
  match cache, bucket, key, out with
  | Some c, Some bucket, Some key, Some _ =>
      index ← make_index bucket key (mc_capacity c);
      Some match find_stop c bucket key index with
           | None => ((-1)%Z, out)
           | Some p =>
               if decide (¬ slot_valid (mc_entries c) p) then ((-1)%Z, out)
               else (0%Z, ce_manifest <$> mc_entries c !! p)
           end
  | _, _, _, _ => Some ((-1)%Z, out)
  end.

(** The first loop of an insert: the slot that holds the key, free slots passed over. *)
Definition find_existing (c : manifest_cache) (bucket key : bytes) (index : nat) : option nat :=
  snd <$> list_find (λ p, slot_valid (mc_entries c) p ∧ slot_matches (mc_entries c) bucket key p)
            (probes index (mc_capacity c)).

(** Making room: the first free slot, slot 0 when there is none, is freed. *)
Definition evict (c : manifest_cache) : manifest_cache :=
  if decide (mc_count c >= mc_capacity c)%Z then
    let oldest_index := default 0 (fst <$> list_find (λ e, ce_is_valid e = 0%Z) (mc_entries c)) in
    Cache (alter (λ e, set_valid e 0) oldest_index (mc_entries c)) (mc_capacity c) (mc_count c - 1)
  else c.

(** The last loop: the first free slot takes the entry. *)
Definition fill_slot (c : manifest_cache) (bucket key : bytes) (m : object_manifest) (index : nat)
    : manifest_cache :=
  match list_find (λ p, ¬ slot_valid (mc_entries c) p) (probes index (mc_capacity c)) with
  | None => c
  | Some (_, p) =>
      Cache (<[p := CacheEntry (strncpy bucket META_MAX_BUCKET_LENGTH) (strncpy key META_MAX_KEY_LENGTH) m 1]>
               (mc_entries c))
        (mc_capacity c) (mc_count c + 1)
  end.

Definition manifest_cache_insert (cache : option manifest_cache) (bucket key : option bytes)
    (manifest : option object_manifest) : option (option manifest_cache) :=
  match cache, bucket, key, manifest with
  | Some c, Some bucket, Some key, Some m =>
      index ← make_index bucket key (mc_capacity c);
      Some (Some
        match find_existing c bucket key index with
        | Some p => Cache (alter (λ e, set_manifest e m) p (mc_entries c)) (mc_capacity c) (mc_count c)
        | None => fill_slot (evict c) bucket key m index
        end)
  | _, _, _, _ => Some cache
  end.

Definition manifest_cache_invalidate (cache : option manifest_cache) (bucket key : option bytes)
    : option (option manifest_cache) :=
  match cache, bucket, key with
  | Some c, Some bucket, Some key =>
      index ← make_index bucket key (mc_capacity c);
      Some (Some
        match find_stop c bucket key index with
        | None => c
        | Some p =>
            if decide (¬ slot_valid (mc_entries c) p) then c
            else Cache (alter (λ e, set_valid e 0) p (mc_entries c)) (mc_capacity c) (mc_count c - 1)
        end)
  | _, _, _ => Some cache
  end.

Definition manifest_cache_size (cache : option manifest_cache) : Z :=
  match cache with Some c => mc_count c | None => 0 end.

Arguments manifest_cache_lookup : simpl never.
Arguments manifest_cache_insert : simpl never.
Arguments manifest_cache_invalidate : simpl never.

(** ** Invariants *)

(** The valid slots. *)
Definition is_valid (e : cache_entry) : Prop := ce_is_valid e ≠ 0%Z.
#[export] Instance is_valid_dec e : Decision (is_valid e).
Proof. unfold is_valid. apply _. Defined.

Definition entry_key (e : cache_entry) : bytes * bytes := (ce_bucket e, ce_key e).

(** The array has its capacity, [count] counts the valid slots, and no key is valid
    in two slots. *)
Record cache_wf (c : manifest_cache) : Prop := {
  cw_capacity : (0 < mc_capacity c)%Z;
  cw_length : length (mc_entries c) = Z.to_nat (mc_capacity c);
  cw_count : mc_count c = Z.of_nat (length (filter is_valid (mc_entries c)));
  cw_keys : NoDup (entry_key <$> filter is_valid (mc_entries c))
}.

(** What the cache holds for a key, wherever it is. *)
Definition cached (c : manifest_cache) (k : bytes * bytes) : option object_manifest :=
  ce_manifest <$> assoc_get entry_key k (filter is_valid (mc_entries c)).

(** The first slot of a key in a cache that has slots. *)
Definition home (capacity : Z) (k : bytes * bytes) : nat := default 0 (make_index k.1 k.2 capacity).

(** No free slot between a valid entry and the first slot of its key: the probing of
    its key meets only valid slots before it. *)
Definition chained (c : manifest_cache) : Prop :=
  ∀ p e, mc_entries c !! p = Some e → is_valid e →
    ∃ n, n < Z.to_nat (mc_capacity c) ∧ p = (home (mc_capacity c) (entry_key e) + n) mod Z.to_nat (mc_capacity c) ∧
      ∀ i, i < n → slot_valid (mc_entries c) ((home (mc_capacity c) (entry_key e) + i) mod Z.to_nat (mc_capacity c)).

(** A key the entry's fields can hold. *)
Definition key_fits (k : bytes * bytes) : Prop :=
  length k.1 ≤ META_MAX_BUCKET_LENGTH ∧ length k.2 ≤ META_MAX_KEY_LENGTH.

(** ** Slots *)

Lemma probes_lt index capacity p :
  (0 < capacity)%Z → p ∈ probes index capacity → p < Z.to_nat capacity.
Proof.
  intros Hc. unfold probes. rewrite list_elem_of_fmap. intros (i & -> & _).
  apply Nat.mod_upper_bound. lia.
Qed.

Lemma probes_all index capacity p :
  (0 < capacity)%Z → p < Z.to_nat capacity → p ∈ probes index capacity.
Proof.
  intros Hc Hp. unfold probes. set (n := Z.to_nat capacity) in *.
  pose proof (Nat.mod_upper_bound index n ltac:(lia)).
  apply list_elem_of_fmap. exists ((p + n - index mod n) mod n). split.
  - rewrite <-Nat.Div0.add_mod_idemp_l, Nat.Div0.add_mod_idemp_r.
    replace (index mod n + (p + n - index mod n)) with (p + 1 * n) by lia.
    rewrite Nat.Div0.mod_add. symmetry. by apply Nat.mod_small.
  - apply elem_of_seq. split; [lia|]. apply Nat.mod_upper_bound. lia.
Qed.

Lemma slot_valid_Some es p e : es !! p = Some e → slot_valid es p ↔ is_valid e.
Proof. unfold slot_valid, is_valid. by intros ->. Qed.

Lemma slot_matches_Some es b k p e :
  es !! p = Some e → slot_matches es b k p ↔ entry_key e = (b, k).
Proof. unfold slot_matches, entry_key. intros ->. rewrite !strcmp_eq. naive_solver. Qed.

(** Replacing a slot replaces at most one valid entry. *)
Lemma filter_slot (es : list cache_entry) p e e' :
  es !! p = Some e →
  ∃ v1 v2, filter is_valid es = v1 ++ filter is_valid [e] ++ v2 ∧
    filter is_valid (<[p := e']> es) = v1 ++ filter is_valid [e'] ++ v2.
Proof.
  intros Hp. exists (filter is_valid (take p es)), (filter is_valid (drop (S p) es)).
  rewrite <-!filter_app. split; f_equal.
  - simpl. by rewrite take_drop_middle.
  - rewrite insert_take_drop by (by eapply lookup_lt_Some). done.
Qed.

Lemma alter_insert (es : list cache_entry) p e f :
  es !! p = Some e → alter f p es = <[p := f e]> es.
Proof. intros Hp. apply list_eq. intros i. destruct (decide (i = p)) as [->|].
  - by rewrite list_lookup_alter_eq, Hp, list_lookup_insert_eq by (by eapply lookup_lt_Some).
  - by rewrite list_lookup_alter_ne, list_lookup_insert_ne by done. Qed.

Lemma make_index_Some b k capacity :
  (0 < capacity)%Z → make_index b k capacity = Some (home capacity (b, k)) .
Proof. intros Hc. unfold home, make_index. simpl. by rewrite decide_False by lia. Qed.

Section steps.
#[local] Set Default Proof Using "Type*".
Context (c : manifest_cache) (c_wf : cache_wf c).

(** The three ways an operation changes a slot: the manifest of a valid one, ... *)
Lemma set_manifest_spec p e m :
  mc_entries c !! p = Some e → is_valid e →
  let c' := Cache (alter (λ e, set_manifest e m) p (mc_entries c)) (mc_capacity c) (mc_count c) in
  cache_wf c' ∧ (chained c → chained c') ∧
  ∀ k, cached c' k = if decide (entry_key e = k) then Some m else cached c k.
Proof.
  intros Hp He c'. destruct c_wf as [H1 H2 H3 H4].
  assert (∀ q, slot_valid (mc_entries c) q → slot_valid (mc_entries c') q) as Hval.
  { intros q. unfold slot_valid. simpl. destruct (decide (q = p)) as [->|].
    - by rewrite list_lookup_alter_eq, Hp.
    - by rewrite list_lookup_alter_ne. }
  split; [|split].
  - destruct (filter_slot (mc_entries c) p e (set_manifest e m) Hp) as (v1 & v2 & E1 & E2).
    rewrite filter_cons_True in E1 by done. rewrite filter_cons_True in E2 by done. simpl in E1, E2.
    unfold c'. split; simpl; [done|by rewrite length_alter| |].
    + rewrite (alter_insert _ _ e), E2 by done. rewrite E1 in H3.
      rewrite length_app in *. simpl in *. done.
    + rewrite (alter_insert _ _ e), E2 by done. rewrite E1 in H4.
      rewrite fmap_app, fmap_cons in *. done.
  - intros Hch q e' Hq He'. simpl in Hq.
    assert (∃ e0, mc_entries c !! q = Some e0 ∧ is_valid e0 ∧ entry_key e0 = entry_key e') as (e0 & Hq0 & Hv0 & <-).
    { destruct (decide (q = p)) as [->|].
      - rewrite list_lookup_alter_eq, Hp in Hq. injection Hq as <-. by exists e.
      - rewrite list_lookup_alter_ne in Hq by done. by exists e'. }
    destruct (Hch q e0 Hq0 Hv0) as (n & ? & ? & Hn). exists n. split_and!; [done..|]. intros i Hi. apply Hval, Hn, Hi.
  - intros k. unfold cached. simpl.
    destruct (filter_slot (mc_entries c) p e (set_manifest e m) Hp) as (v1 & v2 & E1 & E2).
    rewrite filter_cons_True in E1 by done. rewrite filter_cons_True in E2 by done. simpl in E1, E2.
    rewrite (alter_insert _ _ e), E2, E1 by done. rewrite E1 in H4.
    rewrite (assoc_get_middle entry_key) by (by rewrite fmap_app, fmap_cons in * ).
    rewrite (assoc_get_middle entry_key) by done. change (entry_key (set_manifest e m)) with (entry_key e).
    by case_decide.
Qed.

(** ... a free one that takes an entry of a new key, ... *)
Lemma fill_spec p e e' :
  mc_entries c !! p = Some e → ¬ is_valid e → is_valid e' →
  entry_key e' ∉ (entry_key <$> filter is_valid (mc_entries c)) →
  let c' := Cache (<[p := e']> (mc_entries c)) (mc_capacity c) (mc_count c + 1) in
  cache_wf c' ∧ (∀ q, slot_valid (mc_entries c) q → slot_valid (mc_entries c') q) ∧
  ∀ k, cached c' k = if decide (entry_key e' = k) then Some (ce_manifest e') else cached c k.
Proof.
  intros Hp He He' Hnew c'. destruct c_wf as [H1 H2 H3 H4].
  destruct (filter_slot (mc_entries c) p e e' Hp) as (v1 & v2 & E1 & E2).
  rewrite filter_cons_False in E1 by done. rewrite filter_cons_True in E2 by done. simpl in E1, E2.
  rewrite E1 in *. assert (NoDup (entry_key <$> v1 ++ e' :: v2)) as Hnd by (by apply (keys_middle_NoDup entry_key)).
  split; [|split].
  - unfold c'. split; simpl; [done|by rewrite length_insert|rewrite E2; rewrite !length_app in *; simpl; lia|by rewrite E2].
  - intros q. unfold slot_valid. simpl. destruct (decide (q = p)) as [->|].
    + by rewrite list_lookup_insert_eq by (by eapply lookup_lt_Some).
    + by rewrite list_lookup_insert_ne.
  - intros k. unfold cached. simpl. rewrite E2, E1, (assoc_get_middle entry_key) by done. by case_decide.
Qed.

(** ... and a valid one that is freed. *)
Lemma clear_spec p e :
  mc_entries c !! p = Some e → is_valid e →
  let c' := Cache (alter (λ e, set_valid e 0) p (mc_entries c)) (mc_capacity c) (mc_count c - 1) in
  cache_wf c' ∧ entry_key e ∉ (entry_key <$> filter is_valid (mc_entries c')) ∧
  ∀ k, cached c' k = if decide (entry_key e = k) then None else cached c k.
Proof.
  intros Hp He c'. destruct c_wf as [H1 H2 H3 H4].
  destruct (filter_slot (mc_entries c) p e (set_valid e 0) Hp) as (v1 & v2 & E1 & E2).
  rewrite filter_cons_True in E1 by done. rewrite filter_cons_False in E2 by (intros []; done). simpl in E1, E2.
  rewrite E1 in *. apply (keys_middle_NoDup entry_key) in H4 as [Hne Hnd].
  assert (filter is_valid (mc_entries c') = v1 ++ v2) as E3 by (simpl; by rewrite (alter_insert _ _ e)).
  split; [|split].
  - split; [done|simpl; by rewrite length_alter|rewrite E3; rewrite !length_app in *; simpl in *; lia|by rewrite E3].
  - by rewrite E3.
  - intros k. unfold cached. rewrite E3, E1, (assoc_get_middle entry_key).
    2: { by apply (keys_middle_NoDup entry_key). }
    case_decide as Hk; [|done]. rewrite Hk in Hne. by apply (assoc_get_None entry_key) in Hne as ->.
Qed.
End steps.

(** ** Searching *)

Lemma probes_lookup index capacity i p :
  probes index capacity !! i = Some p → i < Z.to_nat capacity ∧ p = (index + i) mod Z.to_nat capacity.
Proof.
  unfold probes. rewrite list_lookup_fmap. intros (j & Hj & ->)%fmap_Some.
  apply lookup_seq in Hj as [-> ?]. done.
Qed.

Lemma probes_lookup_lt index capacity i :
  i < Z.to_nat capacity → probes index capacity !! i = Some ((index + i) mod Z.to_nat capacity).
Proof. intros Hi. unfold probes. by rewrite list_lookup_fmap, lookup_seq_lt. Qed.

Section search.
#[local] Set Default Proof Using "Type*".
Context (c : manifest_cache) (c_wf : cache_wf c).

Lemma slot_exists p : p < Z.to_nat (mc_capacity c) → ∃ e, mc_entries c !! p = Some e.
Proof. intros Hp. apply lookup_lt_is_Some_2. by rewrite (cw_length c c_wf). Qed.

(** A valid entry is in some slot. *)
Lemma valid_slot k :
  k ∈ (entry_key <$> filter is_valid (mc_entries c)) ↔
  ∃ p e, mc_entries c !! p = Some e ∧ is_valid e ∧ entry_key e = k ∧ p < Z.to_nat (mc_capacity c).
Proof.
  rewrite list_elem_of_fmap. split.
  - intros (e & -> & [Hv Hin]%list_elem_of_filter). apply list_elem_of_lookup in Hin as [p Hp].
    exists p, e. split_and!; [done..|]. rewrite <-(cw_length c c_wf). by eapply lookup_lt_Some.
  - intros (p & e & Hp & Hv & <- & _). exists e. split; [done|]. apply list_elem_of_filter.
    split; [done|]. by eapply list_elem_of_lookup_2.
Qed.

(** The valid slot of a key is unique. *)
Lemma valid_slot_unique p q e e' :
  mc_entries c !! p = Some e → mc_entries c !! q = Some e' → is_valid e → is_valid e' →
  entry_key e = entry_key e' → p = q.
Proof.
  intros Hp Hq He He' Hk. destruct (clear_spec c c_wf p e Hp He) as (_ & Hnot & _).
  destruct (decide (p = q)) as [|Hne]; [done|]. destruct Hnot. apply list_elem_of_fmap.
  exists e'. split; [done|]. apply list_elem_of_filter. split; [done|]. simpl.
  eapply (list_elem_of_lookup_2 _ q). by rewrite list_lookup_alter_ne.
Qed.

Lemma cached_slot p e :
  mc_entries c !! p = Some e → is_valid e → cached c (entry_key e) = Some (ce_manifest e).
Proof.
  intros Hp He. unfold cached. rewrite (assoc_get_elem entry_key _ e); [done|apply c_wf|].
  apply list_elem_of_filter. split; [done|]. by eapply list_elem_of_lookup_2.
Qed.

Lemma cached_None k : cached c k = None ↔ k ∉ (entry_key <$> filter is_valid (mc_entries c)).
Proof. unfold cached. rewrite fmap_None. apply (assoc_get_None entry_key). Qed.

Lemma find_existing_spec b k index :
  match find_existing c b k index with
  | Some p => ∃ e, mc_entries c !! p = Some e ∧ is_valid e ∧ entry_key e = (b, k)
  | None => (b, k) ∉ (entry_key <$> filter is_valid (mc_entries c))
  end.
Proof.
  unfold find_existing. destruct (list_find _ _) as [[i p]|] eqn:E; simpl.
  - apply list_find_Some in E as (Hi & [Hv Hm] & _). apply probes_lookup in Hi as [_ Hp].
    destruct (slot_exists p) as [e He]; [subst p; apply Nat.mod_upper_bound; pose proof (cw_capacity c c_wf); lia|].
    exists e. by rewrite (slot_valid_Some _ _ e), (slot_matches_Some _ _ _ _ e) in * by done.
  - apply list_find_None in E. rewrite Forall_forall in E. rewrite valid_slot.
    intros (p & e & Hp & Hv & Hk & Hlt). apply (E p).
    + apply probes_all; [apply c_wf|done].
    + by rewrite (slot_valid_Some _ _ e), (slot_matches_Some _ _ _ _ e) by done.
Qed.

(** Where a lookup stops: at the key's entry; at a free slot; or nowhere, all slots
    being valid and of other keys. *)
Lemma find_stop_spec b k :
  match find_stop c b k (home (mc_capacity c) (b, k)) with
  | Some p => ∃ e, mc_entries c !! p = Some e ∧
      (is_valid e → entry_key e = (b, k)) ∧
      (¬ is_valid e → chained c → cached c (b, k) = None)
  | None => cached c (b, k) = None
  end.
Proof.
  unfold find_stop. destruct (list_find _ _) as [[i p]|] eqn:E; simpl.
  - apply list_find_Some in E as (Hi & Hstop & Hbefore). apply probes_lookup in Hi as [Hi Hp].
    destruct (slot_exists p) as [e He]; [subst p; apply Nat.mod_upper_bound; lia|].
    exists e. split; [done|]. rewrite (slot_valid_Some _ _ e), (slot_matches_Some _ _ _ _ e) in Hstop by done.
    split; [tauto|]. intros Hv Hch. apply cached_None. rewrite valid_slot.
    intros (q & e' & Hq & Hv' & Hk & Hlt). destruct (Hch q e' Hq Hv') as (n & Hn & Hqn & Hbe).
    rewrite Hk in *. destruct (decide (i < n)) as [Hin|Hin].
    + apply Hbe in Hin. rewrite <-Hp, (slot_valid_Some _ _ e) in Hin by done. done.
    + destruct (decide (n = i)) as [->|].
      { rewrite <-Hp in Hqn. subst q. rewrite He in Hq. by injection Hq as <-. }
      destruct (Hbefore n q); [by rewrite probes_lookup_lt, Hqn|lia|].
      right. by rewrite (slot_matches_Some _ _ _ _ e').
  - apply list_find_None in E. rewrite Forall_forall in E. apply cached_None. rewrite valid_slot.
    intros (p & e & Hp & Hv & Hk & Hlt). apply (E p).
    + apply probes_all; [apply c_wf|done].
    + right. by rewrite (slot_matches_Some _ _ _ _ e).
Qed.

(** Without a full table, or with room made in it, some slot is free. *)
Lemma free_slot index :
  (mc_count c < mc_capacity c)%Z →
  ∃ i p e, list_find (λ p, ¬ slot_valid (mc_entries c) p) (probes index (mc_capacity c)) = Some (i, p) ∧
    mc_entries c !! p = Some e ∧ ¬ is_valid e ∧ i < Z.to_nat (mc_capacity c) ∧
    p = (index + i) mod Z.to_nat (mc_capacity c) ∧
    ∀ j, j < i → slot_valid (mc_entries c) ((index + j) mod Z.to_nat (mc_capacity c)).
Proof.
  intros Hlt. destruct (list_find _ _) as [[i p]|] eqn:E.
  - apply list_find_Some in E as (Hi & Hfree & Hbefore). apply probes_lookup in Hi as [Hi Hp].
    destruct (slot_exists p) as [e He]; [subst p; apply Nat.mod_upper_bound; lia|].
    exists i, p, e. rewrite (slot_valid_Some _ _ e) in Hfree by done.
    split_and!; [done..|]. intros j Hj.
    destruct (decide (slot_valid (mc_entries c) ((index + j) mod Z.to_nat (mc_capacity c)))) as [|Hn]; [done|].
    destruct (Hbefore j ((index + j) mod Z.to_nat (mc_capacity c))); [apply probes_lookup_lt; lia|done|done].
  - exfalso. apply list_find_None in E. rewrite Forall_forall in E.
    assert (filter is_valid (mc_entries c) = mc_entries c) as Hall.
    { apply list_filter_all. apply Forall_forall. intros e [p Hp]%list_elem_of_lookup.
      destruct (decide (is_valid e)) as [|Hn]; [done|]. destruct (E p).
      - apply probes_all; [apply c_wf|]. rewrite <-(cw_length c c_wf). by eapply lookup_lt_Some.
      - by rewrite (slot_valid_Some _ _ e). }
    pose proof (cw_count c c_wf) as H. rewrite Hall, (cw_length c c_wf) in H. lia.
Qed.
End search.

(** ** The operations *)

(** The key that makes room for [k]: that of slot 0, when the table is full and [k]
    is not in it. *)
Definition evicted (c : manifest_cache) (k : bytes * bytes) : option (bytes * bytes) :=
  if decide (cached c k = None ∧ (mc_capacity c ≤ mc_count c)%Z)
  then entry_key <$> mc_entries c !! 0 else None.

Lemma count_bound c : cache_wf c → (0 ≤ mc_count c ≤ mc_capacity c)%Z.
Proof.
  intros [H1 H2 -> H4]. pose proof (length_filter is_valid (mc_entries c)). lia.
Qed.

(** A full table has no free slot, so it is chained. *)
Lemma full_valid c p e :
  cache_wf c → (mc_capacity c ≤ mc_count c)%Z → mc_entries c !! p = Some e → is_valid e.
Proof.
  intros Hwf Hfull Hp. destruct Hwf as [H1 H2 H3 H4].
  assert (Forall is_valid (mc_entries c)) as Hall by (apply (filter_full _ _); lia).
  by eapply Forall_lookup_1.
Qed.

Lemma full_chained c : cache_wf c → (mc_capacity c ≤ mc_count c)%Z → chained c.
Proof.
  intros Hwf Hfull p e Hp _. pose proof (cw_capacity c Hwf) as Hcap.
  set (n := Z.to_nat (mc_capacity c)).
  assert (p ∈ probes (home (mc_capacity c) (entry_key e)) (mc_capacity c)) as Hin.
  { apply probes_all; [done|]. rewrite <-(cw_length c Hwf). by eapply lookup_lt_Some. }
  apply list_elem_of_lookup in Hin as [i Hi]. apply probes_lookup in Hi as [Hi ->].
  exists i. split_and!; [done..|]. intros j _.
  destruct (slot_exists c Hwf ((home (mc_capacity c) (entry_key e) + j) mod n)) as [e' He'].
  { apply Nat.mod_upper_bound. lia. }
  rewrite (slot_valid_Some _ _ e') by done. by eapply full_valid.
Qed.

Section insert.
#[local] Set Default Proof Using "Type*".
Context (b k : bytes) (m : object_manifest) (k_fits : key_fits (b, k)).

Let entry := CacheEntry (strncpy b META_MAX_BUCKET_LENGTH) (strncpy k META_MAX_KEY_LENGTH) m 1.

Lemma entry_key_fits : entry_key entry = (b, k).
Proof. destruct k_fits as [? ?]. unfold entry_key. simpl. by rewrite !strncpy_short. Qed.

(** Filling the first free slot on the key's way. *)
Lemma fill_slot_spec c :
  cache_wf c → (mc_count c < mc_capacity c)%Z → cached c (b, k) = None →
  let c' := fill_slot c b k m (home (mc_capacity c) (b, k)) in
  cache_wf c' ∧ mc_capacity c' = mc_capacity c ∧ mc_count c' = (mc_count c + 1)%Z ∧
  (chained c → chained c') ∧ ∀ k', cached c' k' = if decide (k' = (b, k)) then Some m else cached c k'.
Proof.
  intros Hwf Hlt Hnew.
  destruct (free_slot c Hwf (home (mc_capacity c) (b, k)) Hlt) as (i & p & e & E & Hp & He & Hi & Hpi & Hbefore).
  unfold fill_slot. rewrite E. apply cached_None in Hnew; [|done]. rewrite <-entry_key_fits in Hnew.
  destruct (fill_spec c Hwf p e entry Hp He ltac:(done) Hnew) as (Hwf' & Hmono & Hc').
  split; [done|]. split; [done|]. split; [done|]. split.
  - intros Hch q e' Hq Hv'. simpl in Hq. cbn [mc_capacity]. destruct (decide (q = p)) as [->|Hne].
    + rewrite list_lookup_insert_eq in Hq by (by eapply lookup_lt_Some). injection Hq as <-.
      fold entry. rewrite entry_key_fits. exists i. split_and!; [done..|]. intros j Hj. by apply Hmono, Hbefore.
    + rewrite list_lookup_insert_ne in Hq by done. destruct (Hch q e' Hq Hv') as (n & ? & ? & Hn).
      exists n. split_and!; [done..|]. intros j Hj. by apply Hmono, Hn.
  - intros k'. fold entry. rewrite Hc', entry_key_fits. destruct (decide (k' = (b, k))) as [->|]; [by rewrite decide_True|].
    by rewrite decide_False.
Qed.

Lemma insert_spec c :
  cache_wf c →
  ∃ c', manifest_cache_insert (Some c) (Some b) (Some k) (Some m) = Some (Some c') ∧
    cache_wf c' ∧ mc_capacity c' = mc_capacity c ∧ (chained c → chained c') ∧
    ∀ k', cached c' k' = if decide (k' = (b, k)) then Some m
                         else if decide (evicted c (b, k) = Some k') then None else cached c k'.
Proof.
  intros Hwf. pose proof (cw_capacity c Hwf) as Hcap. pose proof (count_bound c Hwf) as Hcount.
  unfold manifest_cache_insert. rewrite make_index_Some by done. simpl.
  pose proof (find_existing_spec c Hwf b k (home (mc_capacity c) (b, k))) as Hex.
  destruct (find_existing _ _ _ _) as [p|].
  - destruct Hex as (e & Hp & He & Hk). destruct (set_manifest_spec c Hwf p e m Hp He) as (Hwf' & Hch' & Hc').
    eexists. split; [done|]. split_and!; [done..|]. intros k'. rewrite Hc', Hk.
    assert (evicted c (b, k) = None) as ->.
    { unfold evicted. rewrite decide_False; [done|]. rewrite <-Hk, (cached_slot c Hwf p e) by done. by intros []. }
    rewrite (decide_False (P := None = _)) by done. destruct (decide (k' = (b, k))) as [->|]; [by rewrite decide_True|].
    by rewrite decide_False.
  - assert (cached c (b, k) = None) as Hnew by (by apply cached_None). unfold evicted, evict.
    destruct (decide (mc_count c >= mc_capacity c)%Z) as [Hfull|Hroom].
    + destruct (slot_exists c Hwf 0) as [e0 He0]; [lia|].
      assert (is_valid e0) as Hv0 by (eapply (full_valid c); [done|lia|done]).
      assert (list_find (λ e, ce_is_valid e = 0%Z) (mc_entries c) = None) as ->.
      { apply list_find_None, Forall_forall. intros e [q Hq]%list_elem_of_lookup. eapply full_valid; [done|lia|done]. }
      simpl. destruct (clear_spec c Hwf 0 e0 He0 Hv0) as (Hwf1 & Hnot & Hc1).
      destruct (fill_slot_spec _ Hwf1) as (Hwf2 & Hcap2 & Hcnt2 & _ & Hc2); [simpl; lia|rewrite Hc1; by case_decide|].
      eexists. split; [done|]. split_and!; [done..| |].
      * intros _. apply full_chained; [done|]. simpl in Hcnt2, Hcap2 |- *. rewrite Hcap2, Hcnt2. lia.
      * intros k'. cbn [mc_capacity] in Hc2. rewrite Hc2. case_decide; [done|]. rewrite Hc1.
        rewrite (decide_True (P := _ ∧ _)) by (split; [done|lia]). rewrite He0. cbn [fmap option_fmap option_map].
        destruct (decide (entry_key e0 = k')) as [<-|]; [by rewrite decide_True|].
        rewrite decide_False; [done|]. by intros [= ?].
    + destruct (fill_slot_spec c Hwf) as (Hwf2 & Hcap2 & Hcnt2 & Hch2 & Hc2); [lia|done|].
      eexists. split; [done|]. split_and!; [done..|]. intros k'. rewrite Hc2. case_decide; [done|].
      rewrite (decide_False (P := _ ∧ _)) by (intros []; lia). by rewrite decide_False.
Qed.
End insert.

(** A lookup answers with what is cached; in a chained table it finds all of it. *)
Lemma lookup_spec c b k out :
  cache_wf c →
  ∃ rc r, manifest_cache_lookup (Some c) (Some b) (Some k) (Some out) = Some (rc, Some r) ∧
    (rc = 0%Z ∧ cached c (b, k) = Some r ∨ rc = (-1)%Z ∧ r = out ∧ (chained c → cached c (b, k) = None)).
Proof.
  intros Hwf. pose proof (cw_capacity c Hwf) as Hcap.
  unfold manifest_cache_lookup. rewrite make_index_Some by done. simpl.
  pose proof (find_stop_spec c Hwf b k) as Hstop. destruct (find_stop _ _ _ _) as [p|].
  - destruct Hstop as (e & Hp & Hvalid & Hfree). destruct (decide (is_valid e)) as [Hv|Hv].
    + rewrite decide_False by (rewrite (slot_valid_Some _ _ e) by done; tauto). rewrite Hp. simpl.
      do 2 eexists. split; [done|]. left. split; [done|].
      rewrite <-Hvalid by done. by eapply cached_slot.
    + rewrite decide_True by (by rewrite (slot_valid_Some _ _ e)). do 2 eexists. split; [done|]. right. auto.
  - do 2 eexists. split; [done|]. by right.
Qed.

(** An invalidation frees the key's slot when its probing reaches it. *)
Lemma invalidate_spec c b k :
  cache_wf c →
  ∃ c', manifest_cache_invalidate (Some c) (Some b) (Some k) = Some (Some c') ∧
    cache_wf c' ∧ mc_capacity c' = mc_capacity c ∧ (chained c → cached c' (b, k) = None) ∧
    (c' = c ∨ ∀ k', cached c' k' = if decide (k' = (b, k)) then None else cached c k').
Proof.
  intros Hwf. pose proof (cw_capacity c Hwf) as Hcap.
  unfold manifest_cache_invalidate. rewrite make_index_Some by done. simpl.
  pose proof (find_stop_spec c Hwf b k) as Hstop. destruct (find_stop _ _ _ _) as [p|].
  - destruct Hstop as (e & Hp & Hvalid & Hfree). destruct (decide (is_valid e)) as [Hv|Hv].
    + rewrite decide_False by (rewrite (slot_valid_Some _ _ e) by done; tauto).
      destruct (clear_spec c Hwf p e Hp Hv) as (Hwf' & _ & Hc'). rewrite Hvalid in Hc' by done.
      eexists. split; [done|]. split_and!; [done..| |].
      * intros _. by rewrite Hc', decide_True.
      * right. intros k'. rewrite Hc'. destruct (decide (k' = (b, k))) as [->|]; [by rewrite decide_True|].
        by rewrite decide_False.
    + rewrite decide_True by (by rewrite (slot_valid_Some _ _ e)). exists c. auto 10.
  - exists c. auto 10.
Qed.

(** A new cache. *)
Definition empty_cache (max_entries : Z) : manifest_cache :=
  Cache (replicate (Z.to_nat max_entries) zero_entry) max_entries 0.

Lemma empty_cache_valid n : filter is_valid (replicate n zero_entry) = [].
Proof. induction n as [|n IH]; [done|]. simpl. rewrite filter_cons_False; [done|]. by intros []. Qed.

Lemma empty_cache_wf max_entries : (0 < max_entries)%Z → cache_wf (empty_cache max_entries) ∧ chained (empty_cache max_entries).
Proof.
  intros Hm. split.
  - split; simpl; [done|by rewrite length_replicate| |]; rewrite empty_cache_valid; [done|by apply NoDup_nil_2].
  - intros p e Hp Hv. simpl in Hp. apply lookup_replicate in Hp as [-> _]. by destruct Hv.
Qed.

(** ** Sequences of operations *)

Inductive cache_op :=
  | CacheInsert (bucket key : bytes) (m : object_manifest)
  | CacheInvalidate (bucket key : bytes).

Definition cache_step (op : cache_op) (c : option manifest_cache) : option (option manifest_cache) :=
  match op with
  | CacheInsert b k m => manifest_cache_insert c (Some b) (Some k) (Some m)
  | CacheInvalidate b k => manifest_cache_invalidate c (Some b) (Some k)
  end.

Fixpoint cache_run (ops : list cache_op) (c : option manifest_cache) : option (option manifest_cache) :=
  match ops with
  | [] => Some c
  | op :: ops => c ← cache_step op c; cache_run ops c
  end.

(** The manifest last inserted under each key. *)
Definition note_insert (a : gmap (bytes * bytes) object_manifest) (op : cache_op)
    : gmap (bytes * bytes) object_manifest :=
  match op with CacheInsert b k m => <[(b, k) := m]> a | CacheInvalidate _ _ => a end.

Definition op_key_fits (op : cache_op) : Prop :=
  match op with CacheInsert b k _ => key_fits (b, k) | CacheInvalidate _ _ => True end.

Lemma cache_step_sound a c op :
  cache_wf c → (∀ k m, cached c k = Some m → a !! k = Some m) → op_key_fits op →
  ∃ c', cache_step op (Some c) = Some (Some c') ∧ cache_wf c' ∧ mc_capacity c' = mc_capacity c ∧
    ∀ k m, cached c' k = Some m → note_insert a op !! k = Some m.
Proof.
  intros Hwf Ha Hop. destruct op as [b k m|b k]; simpl in *.
  - destruct (insert_spec b k m Hop c Hwf) as (c' & E & Hwf' & Hcap & _ & Hc'). exists c'. split_and!; [done..|].
    intros k' m'. rewrite Hc', lookup_insert. destruct (decide (k' = (b, k))) as [->|Hne].
    + by rewrite decide_True.
    + rewrite (decide_False (P := (b, k) = k')) by done. case_decide; [done|]. apply Ha.
  - destruct (invalidate_spec c b k Hwf) as (c' & E & Hwf' & Hcap & _ & Hc'). exists c'. split_and!; [done..|].
    intros k' m'. destruct Hc' as [->|Hc']; [apply Ha|]. rewrite Hc'. case_decide; [done|]. apply Ha.
Qed.

Lemma cache_run_sound ops a c :
  cache_wf c → (∀ k m, cached c k = Some m → a !! k = Some m) → Forall op_key_fits ops →
  ∃ c', cache_run ops (Some c) = Some (Some c') ∧ cache_wf c' ∧ mc_capacity c' = mc_capacity c ∧
    ∀ k m, cached c' k = Some m → foldl note_insert a ops !! k = Some m.
Proof.
  intros Hwf Ha Hops. revert a c Hwf Ha. induction Hops as [|op ops Hop Hops IH]; intros a c Hwf Ha; simpl; [by eauto|].
  destruct (cache_step_sound a c op Hwf Ha Hop) as (c1 & -> & Hwf1 & Hcap1 & Ha1). simpl.
  rewrite <-Hcap1. by apply IH.
Qed.

(** ** Properties *)

(** C19. Insertion into a cache from which nothing was invalidated: it keeps the table
    well-formed and its probe chains unbroken; the inserted key is then found with
    its manifest; every other key is found exactly when it was, except that a new
    key put into a full table evicts the key of slot 0. *)
Theorem manifest_cache_insert_lookup c b k m b' k' out :
  cache_wf c → chained c → key_fits (b, k) →
  ∃ c', manifest_cache_insert (Some c) (Some b) (Some k) (Some m) = Some (Some c') ∧
    cache_wf c' ∧ chained c' ∧
    manifest_cache_lookup (Some c') (Some b') (Some k') (Some out) =
      if decide ((b', k') = (b, k)) then Some (0%Z, Some m)
      else if decide (evicted c (b, k) = Some (b', k')) then Some ((-1)%Z, Some out)
      else manifest_cache_lookup (Some c) (Some b') (Some k') (Some out).
Proof.
  intros Hwf Hch Hfit. destruct (insert_spec b k m Hfit c Hwf) as (c' & E & Hwf' & _ & Hch' & Hc').
  exists c'. split_and!; [done..|by apply Hch'|].
  destruct (lookup_spec c' b' k' out Hwf') as (rc & r & -> & Hr). rewrite Hc' in Hr.
  destruct (decide ((b', k') = (b, k))) as [_|_].
  { destruct Hr as [[-> [= ->]]|(_ & _ & Hr)]; [done|]. by specialize (Hr (Hch' Hch)). }
  destruct (decide (evicted c (b, k) = Some (b', k'))) as [_|_].
  { by destruct Hr as [[_ ?]|(-> & -> & _)]. }
  destruct (lookup_spec c b' k' out Hwf) as (rc0 & r0 & -> & Hr0). specialize (Hch' Hch).
  destruct Hr as [[-> Hr]|(-> & -> & Hr)], Hr0 as [[-> Hr0]|(-> & -> & Hr0)];
    try specialize (Hr Hch'); try specialize (Hr0 Hch); congruence.
Qed.

(** C11. Soundness for every history: after any sequence of inserts and invalidations of
    a new cache, the table is well-formed, its size is the number of valid slots and
    at most the capacity, and a lookup that succeeds returns the manifest last
    inserted under its key. *)
Theorem manifest_cache_sound max_entries ops b k out :
  (0 < max_entries)%Z → Forall op_key_fits ops →
  ∃ c, cache_run ops (Some (empty_cache max_entries)) = Some (Some c) ∧ cache_wf c ∧
    (0 ≤ manifest_cache_size (Some c) ≤ max_entries)%Z ∧
    ∃ rc r, manifest_cache_lookup (Some c) (Some b) (Some k) (Some out) = Some (rc, Some r) ∧
      (rc = 0%Z → foldl note_insert ∅ ops !! (b, k) = Some r) ∧ (rc ≠ 0%Z → rc = (-1)%Z ∧ r = out).
Proof.
  intros Hmax Hops. destruct (empty_cache_wf max_entries Hmax) as [Hwf0 _].
  destruct (cache_run_sound ops ∅ (empty_cache max_entries) Hwf0) as (c & E & Hwf & Hcap & Hc); [|done|].
  { intros k0 m0. unfold cached. simpl. by rewrite empty_cache_valid. }
  exists c. split; [done|]. split; [done|]. pose proof (count_bound c Hwf). rewrite Hcap in *. split; [done|].
  destruct (lookup_spec c b k out Hwf) as (rc & r & El & Hr). exists rc, r. split; [done|].
  destruct Hr as [[-> Hr]|(-> & -> & _)]; split; intros Hrc; try done. by apply Hc.
Qed.

Definition example_manifest (n : Z) : object_manifest := Manifest (cs "b") (cs "k") n 0 0 1 2 None.

Lemma manifest_cache_insert_lookup_witness :
  ∃ c', manifest_cache_insert (Some (empty_cache 4)) (Some (cs "b")) (Some (cs "k")) (Some (example_manifest 7)) =
      Some (Some c') ∧
    manifest_cache_lookup (Some c') (Some (cs "b")) (Some (cs "k")) (Some (example_manifest 0)) =
      Some (0%Z, Some (example_manifest 7)).
Proof.
  destruct (empty_cache_wf 4 eq_refl) as [Hwf Hch].
  destruct (manifest_cache_insert_lookup (empty_cache 4) (cs "b") (cs "k") (example_manifest 7) (cs "b") (cs "k")
    (example_manifest 0) Hwf Hch) as (c' & E & _ & _ & El); [by split; vm_compute; lia|].
  exists c'. split; [done|]. rewrite El. by vm_compute.
Defined.

Lemma manifest_cache_sound_witness :
  ∃ c, cache_run [CacheInsert (cs "b") (cs "k") (example_manifest 1); CacheInvalidate (cs "b") (cs "k")]
      (Some (empty_cache 4)) = Some (Some c) ∧ cache_wf c.
Proof.
  destruct (manifest_cache_sound 4
    [CacheInsert (cs "b") (cs "k") (example_manifest 1); CacheInvalidate (cs "b") (cs "k")] [] []
    (example_manifest 0)) as (c & ? & ? & _); [done|by repeat constructor; vm_compute; lia|].
  by exists c.
Defined.
