(* ===== verification/Placement.v ===== *)
(** * Placement and fragment routing ([src/gateway/gateway_placement.c],
      [src/gateway/gateway_fragment_router.c])

    Which nodes take the fragments of an object, and the stub that hands out their
    locations.  The discovery service is only passed through, so its handle is the
    flag that it is not NULL. *)
From S2P Require Import Prelude Memory MetaTypes.
From stdpp Require Import options.

Definition PLACEMENT_MAX_NODES : Z := 256.

Record placement_target := PlacementTarget {
  pt_node_id : Z;
  pt_disk_id : Z;
  pt_datacenter_id : Z;
  pt_rack_id : Z;
  pt_host_id : Z;
  pt_free_bytes : Z
}.

(** [nodes[0 .. node_count-1]]. *)
Record placement_engine := PlacementEngine { pe_nodes : list placement_target }.

Definition node_count (e : placement_engine) : Z := Z.of_nat (length (pe_nodes e)).

(** [fragment_t]; [data] points to a block of fragment bytes. *)
Record fragment := Fragment {
  f_fragment_index : Z;
  f_node_id : Z;
  f_disk_id : Z;
  f_location : blob_location;
  f_data : option nat;
  f_size : Z
}.

(** The router holds nothing but the discovery handle. *)
Record fragment_router := FragmentRouter {}.

Section create.
Context {O : AllocOracle} {A : Type}.

Definition placement_engine_create (discovery : bool) : M A (option placement_engine) :=
  if negb discovery then mret None else
  ok ← try_alloc;
  mret (if (ok : bool) then Some (PlacementEngine []) else None).

Definition fragment_router_create (discovery : bool) : M A (option fragment_router) :=
  if negb discovery then mret None else
  ok ← try_alloc;
  mret (if (ok : bool) then Some (FragmentRouter) else None).
End create.

(** The disk id of a node is left at 0. *)
Definition placement_register_node (engine : option placement_engine)
    (node_id datacenter_id rack_id host_id free_bytes : Z) : Z * option placement_engine :=
  match engine with
  | Some e =>
      if decide (node_count e >= PLACEMENT_MAX_NODES)%Z then ((-1)%Z, engine)
      else (0%Z, Some (PlacementEngine (pe_nodes e ++
                   [PlacementTarget node_id 0 datacenter_id rack_id host_id free_bytes])))
  | None => ((-1)%Z, engine)
  end.

(** The code and the targets written, [targets_out[0 .. needed-1]]; [outs] says the
    out pointer is set. The [%] by a zero count is undefined. *)
Definition placement_select_targets (engine : option placement_engine)
    (data_fragment_count parity_fragment_count : Z) (outs : bool) (max_targets : Z)
    : option (Z * list placement_target) :=
  match engine, outs with
  | Some e, true =>
      let needed := (data_fragment_count + parity_fragment_count)%Z in
      if decide (needed > max_targets ∨ needed > node_count e)%Z then Some ((-1)%Z, [])
      else targets ← mapM (λ i, pe_nodes e !! (i mod length (pe_nodes e))) (seq 0 (Z.to_nat needed));
           Some (needed, targets)
  | _, _ => Some ((-1)%Z, [])
  end.

(** The code and what is stored through the three optional out pointers. *)
Definition placement_get_domains (engine : option placement_engine) (node_id : Z)
    (datacenter_id rack_id host_id : option Z) : Z * (option Z * option Z * option Z) :=
  match engine with
  | Some e =>
      match list_find (λ t, pt_node_id t = node_id) (pe_nodes e) with
      | Some (_, t) =>
          (0%Z, ((λ _, pt_datacenter_id t) <$> datacenter_id, (λ _, pt_rack_id t) <$> rack_id,
                 (λ _, pt_host_id t) <$> host_id))
      | None => ((-1)%Z, (datacenter_id, rack_id, host_id))
      end
  | None => ((-1)%Z, (datacenter_id, rack_id, host_id))
  end.

(** One iteration of the send loop, the static [fake_segment] counter threaded. *)
Definition send_fragment (segment : Z) (i : nat) (f : fragment) : fragment :=
  Fragment (f_fragment_index f) (f_node_id f) (f_disk_id f)
    (BlobLocation segment (u64 (i32 (Z.of_nat i * 4096))) (f_size f) 0) (f_data f) (f_size f).

Fixpoint send_loop (fs : list fragment) (i : nat) (fake_segment : Z) : list fragment * Z :=
  match fs with
  | [] => ([], fake_segment)
  | f :: fs =>
      let '(rest, segment) := send_loop fs (S i) (u64 (fake_segment + 1)) in
      (send_fragment fake_segment i f :: rest, segment)
  end.

(** The initial value of [fake_segment]. *)
Definition FAKE_SEGMENT_START : Z := 1000.

(** The array is the one the caller passes, of [fragment_count] fragments. *)
Definition fragment_router_send (router : option fragment_router) (fragments : option (list fragment))
    (max_retries : Z) (fake_segment : Z) : Z * option (list fragment) * Z :=
  match router, fragments with
  | Some _, Some (f :: fs) =>
      let '(sent, segment) := send_loop (f :: fs) 0 fake_segment in (0%Z, Some sent, segment)
  | _, _ => ((-1)%Z, fragments, fake_segment)
  end.

(** Nothing is read. *)
Definition fragment_router_read (router : option fragment_router)
    (locations : option (list blob_location)) (outs : bool) : Z :=
  match router, locations, outs with Some _, Some _, true => 0 | _, _, _ => -1 end.

(** ** Lemmas *)

Lemma select_first e d p max :
  (0 ≤ d + p)%Z → (d + p ≤ max)%Z → (d + p ≤ node_count e)%Z →
  placement_select_targets (Some e) d p true max =
    Some ((d + p)%Z, take (Z.to_nat (d + p)) (pe_nodes e)).
Proof.
  intros H0 Hmax Hn. unfold placement_select_targets. rewrite decide_False by lia.
  assert (mapM (λ i, pe_nodes e !! (i mod length (pe_nodes e))) (seq 0 (Z.to_nat (d + p))) =
          Some (take (Z.to_nat (d + p)) (pe_nodes e))) as ->; [|done].
  unfold node_count in Hn. apply mapM_Some, Forall2_same_length_lookup_2.
  - rewrite length_seq, length_take. lia.
  - intros i j x [-> Hi]%lookup_seq [Hx _]%lookup_take_Some. by rewrite Nat.mod_small by lia.
Qed.

Lemma select_refused e d p max outs :
  (max < d + p)%Z ∨ (node_count e < d + p)%Z →
  placement_select_targets (Some e) d p outs max = Some ((-1)%Z, []).
Proof. intros ?. unfold placement_select_targets. destruct outs; [|done]. by rewrite decide_True by lia. Qed.

Lemma send_loop_length fs i s : length (send_loop fs i s).1 = length fs.
Proof.
  revert i s. induction fs as [|f fs IH]; intros i s; simpl; [done|].
  specialize (IH (S i) (u64 (s + 1))). destruct (send_loop _ _ _). simpl in *. by f_equal.
Qed.

Lemma send_loop_spec fs i s :
  (0 ≤ s)%Z → (s + Z.of_nat (length fs) < 2 ^ 64)%Z →
  (send_loop fs i s).2 = (s + Z.of_nat (length fs))%Z ∧
  ∀ j f, fs !! j = Some f → (send_loop fs i s).1 !! j = Some (send_fragment (s + Z.of_nat j) (i + j) f).
Proof.
  revert i s. induction fs as [|f fs IH]; intros i s Hs Hlen; simpl in *; [split; [lia|done]|].
  destruct (IH (S i) (s + 1)%Z) as [E Hj]; [lia..|].
  rewrite wrap_small by (unfold fits; lia). destruct (send_loop fs (S i) (s + 1)) as [rest seg]. simpl in *.
  split; [lia|]. intros [|j] g Hg; simplify_eq/=.
  - by rewrite Z.add_0_r, Nat.add_0_r.
  - rewrite (Hj j g Hg). do 2 f_equal; lia.
Qed.

(** ** Properties *)

(** Selection gives each fragment of an object its own node: with enough registered
    nodes it returns the first [k + m] of them in registration order, no node twice,
    and otherwise -1 without a target. Racks, hosts, datacenters and free bytes play
    no part. *)
Theorem placement_selects_distinct e d p max :
  (0 ≤ d)%Z → (0 ≤ p)%Z → NoDup (pt_node_id <$> pe_nodes e) →
  ∃ rc targets, placement_select_targets (Some e) d p true max = Some (rc, targets) ∧
    (d + p ≤ max ∧ d + p ≤ node_count e → rc = d + p ∧ Z.of_nat (length targets) = d + p)%Z ∧
    (¬ (d + p ≤ max ∧ d + p ≤ node_count e)%Z → rc = (-1)%Z ∧ targets = []) ∧
    targets `prefix_of` pe_nodes e ∧ NoDup (pt_node_id <$> targets).
Proof.
  intros Hd Hp Hnd. destruct (decide (d + p ≤ max ∧ d + p ≤ node_count e)%Z) as [[Hm Hn]|Hno].
  - exists (d + p)%Z, (take (Z.to_nat (d + p)) (pe_nodes e)). rewrite select_first by lia.
    split_and!; [done| |by intros []|apply prefix_take|].
    + intros _. split; [done|]. rewrite length_take. unfold node_count in Hn. lia.
    + rewrite fmap_take. rewrite <-(take_drop (Z.to_nat (d + p)) (pt_node_id <$> _)) in Hnd.
      by apply NoDup_app in Hnd as [? _].
  - exists (-1)%Z, []. rewrite select_refused by lia.
    split_and!; [done|done|done|apply prefix_nil|by apply NoDup_nil_2].
Qed.

Definition example_nodes : list placement_target :=
  (λ i, PlacementTarget (Z.of_nat i) 0 1 (Z.of_nat (i / 2)) (Z.of_nat i) 1000) <$> seq 1 9.

Lemma placement_selects_distinct_witness :
  ∃ targets, placement_select_targets (Some (PlacementEngine example_nodes)) 6 3 true 9 = Some (9%Z, targets) ∧
    NoDup (pt_node_id <$> targets).
Proof.
  destruct (placement_selects_distinct (PlacementEngine example_nodes) 6 3 9)
    as (rc & targets & E & Hyes & _ & _ & Hnd); [done|done|apply (bool_decide_unpack _); by vm_compute|].
  destruct Hyes as [-> _]; [by vm_compute|]. by exists targets.
Defined.
