(* ===== verification/Replication.v ===== *)
(** * Replication between datacenters ([src/gateway/gateway_replication.c])

    A bounded queue of manifests for the peers, and the rule that decides which of
    two writes of an object stays. *)
From S2P Require Import Prelude Memory MetaTypes.
From stdpp Require Import options.

Definition REPLICATION_MAX_PEERS : Z := 8.
Definition REPLICATION_QUEUE_MAX : Z := 1024.

Record replication_peer := ReplicationPeer {
  peer_datacenter_id : Z;
  peer_gateway_host : bytes;
  peer_gateway_port : Z
}.

Record replication_entry := ReplicationEntry {
  re_manifest : object_manifest;
  re_is_pending : Z
}.

(** [peers[0 .. peer_count-1]] and [queue[0 .. queue_count-1]]. *)
Record replication_engine := ReplicationEngine {
  rp_peers : list replication_peer;
  rp_queue : list replication_entry
}.

Definition peer_count (e : replication_engine) : Z := Z.of_nat (length (rp_peers e)).
Definition queue_count (e : replication_engine) : Z := Z.of_nat (length (rp_queue e)).

Section create.
Context {O : AllocOracle} {A : Type}.

Definition replication_engine_create : M A (option replication_engine) :=
  ok ← try_alloc; mret (if (ok : bool) then Some (ReplicationEngine [] []) else None).
End create.

Definition replication_add_peer (engine : option replication_engine) (peer : option replication_peer)
    : Z * option replication_engine :=
  match engine, peer with
  | Some e, Some peer =>
      if decide (peer_count e >= REPLICATION_MAX_PEERS)%Z then ((-1)%Z, engine)
      else (0%Z, Some (ReplicationEngine (rp_peers e ++ [peer]) (rp_queue e)))
  | _, _ => ((-1)%Z, engine)
  end.

(** The object's data is not kept. *)
Definition replication_enqueue (engine : option replication_engine) (manifest : option object_manifest)
    : Z * option replication_engine :=
  match engine, manifest with
  | Some e, Some m =>
      if decide (peer_count e = 0)%Z then ((-1)%Z, engine)
      else if decide (queue_count e >= REPLICATION_QUEUE_MAX)%Z then ((-1)%Z, engine)
      else (0%Z, Some (ReplicationEngine (rp_peers e) (rp_queue e ++ [ReplicationEntry m 1])))
  | _, _ => ((-1)%Z, engine)
  end.

(** 1 when the incoming write replaces the existing one. *)
Definition replication_resolve_conflict (incoming_write_sequence incoming_datacenter_id
    existing_write_sequence existing_datacenter_id : Z) : Z :=
  if decide (incoming_write_sequence > existing_write_sequence)%Z then 1
  else if decide (incoming_write_sequence < existing_write_sequence)%Z then 0
  else if decide (incoming_datacenter_id > existing_datacenter_id)%Z then 1
  else 0.

Definition replication_pending_count (engine : option replication_engine) : Z :=
  match engine with Some e => queue_count e | None => 0 end.

(** ** Convergence *)

(** The stamp by which writes are compared. *)
Definition write_stamp (m : object_manifest) : Z * Z := (m_write_sequence m, m_datacenter_id m).

(** A replica that takes an incoming write as the rule says. *)
Definition take_write (existing incoming : object_manifest) : object_manifest :=
  if decide (replication_resolve_conflict (m_write_sequence incoming) (m_datacenter_id incoming)
               (m_write_sequence existing) (m_datacenter_id existing) = 1%Z)
  then incoming else existing.

(** [a] is stamped at or after [b]. *)
Definition stamp_le (b a : object_manifest) : Prop :=
  (m_write_sequence b < m_write_sequence a)%Z ∨
  (m_write_sequence b = m_write_sequence a ∧ m_datacenter_id b ≤ m_datacenter_id a)%Z.

Lemma take_write_cases existing incoming :
  (take_write existing incoming = incoming ∧ ¬ stamp_le incoming existing) ∨
  (take_write existing incoming = existing ∧ stamp_le incoming existing).
Proof.
  unfold take_write, replication_resolve_conflict, stamp_le.
  repeat case_decide; first [left; split; [done|lia]|right; split; [done|lia]|done].
Qed.

(** The write a replica ends with is one of those it saw, and none is later. *)
Lemma take_writes_max m ws :
  foldl take_write m ws ∈ m :: ws ∧ Forall (λ w, stamp_le w (foldl take_write m ws)) (m :: ws).
Proof.
  revert m. induction ws as [|w ws IH]; intros m; simpl.
  - split; [by left|]. apply Forall_singleton. right. lia.
  - destruct (IH (take_write m w)) as [Hin Hall]. apply Forall_cons in Hall as [H1 Hall].
    destruct (take_write_cases m w) as [[E Hle]|[E Hle]]; rewrite E in *.
    + split; [set_solver|]. do 2 (apply Forall_cons_2; [unfold stamp_le in *; lia|]). done.
    + split; [set_solver|]. do 2 (apply Forall_cons_2; [unfold stamp_le in *; lia|]). done.
Qed.

(** ** Properties *)

(** C22. Last writer wins, everywhere: replicas that start from one write and receive
    the same writes, in any order and any number of times, end with the same one,
    provided two different writes never carry the same sequence and datacenter. *)
Theorem replication_converges m ws ws' :
  (∀ w, w ∈ ws ↔ w ∈ ws') →
  (∀ a b, a ∈ m :: ws → b ∈ m :: ws → write_stamp a = write_stamp b → a = b) →
  foldl take_write m ws = foldl take_write m ws'.
Proof.
  intros Hsame Hinj.
  destruct (take_writes_max m ws) as [Hin Hmax]. destruct (take_writes_max m ws') as [Hin' Hmax'].
  rewrite Forall_forall in Hmax, Hmax'.
  assert (foldl take_write m ws' ∈ m :: ws) as Hin2 by set_solver.
  assert (foldl take_write m ws ∈ m :: ws') as Hin3 by set_solver.
  specialize (Hmax _ Hin2). specialize (Hmax' _ Hin3).
  apply Hinj; [done|done|]. unfold write_stamp. unfold stamp_le in *. f_equal; lia.
Qed.

(** The queue refuses a manifest without peers or beyond 1024 entries and
    otherwise appends it; nothing ever leaves it, so after [n] accepted manifests
    [replication_pending_count] is [n], in order of arrival. *)
Theorem replication_queue_fifo e ms :
  (0 < peer_count e)%Z → rp_queue e = [] →
  ∃ e', foldl (λ st m, (replication_enqueue st (Some m)).2) (Some e) ms = Some e' ∧
    re_manifest <$> rp_queue e' = take 1024 ms ∧
    replication_pending_count (Some e') = Z.min (Z.of_nat (length ms)) REPLICATION_QUEUE_MAX.
Proof.
  intros Hp Hnil.
  assert (∀ ms e, (0 < peer_count e)%Z → length (rp_queue e) ≤ 1024 →
    ∃ e', foldl (λ st m, (replication_enqueue st (Some m)).2) (Some e) ms = Some e' ∧
      re_manifest <$> rp_queue e' = (re_manifest <$> rp_queue e) ++ take (1024 - length (rp_queue e)) ms) as Hgen.
  { clear. induction ms as [|m ms IH]; intros e Hp Hq; simpl.
    - exists e. by rewrite take_nil, app_nil_r.
    - rewrite decide_False by lia. unfold queue_count, REPLICATION_QUEUE_MAX. case_decide as Hfull; simpl.
      + destruct (IH e Hp Hq) as (e' & E & Hq'). exists e'. split; [done|].
        rewrite Hq'. by replace (1024 - length (rp_queue e)) with 0 by lia.
      + destruct (IH (ReplicationEngine (rp_peers e) (rp_queue e ++ [ReplicationEntry m 1]))) as (e' & E & Hq');
          [done|simpl; rewrite length_app; simpl; lia|].
        exists e'. split; [done|]. rewrite Hq'. simpl. rewrite fmap_app, <-app_assoc, length_app. simpl.
        replace (1024 - length (rp_queue e)) with (S (1024 - (length (rp_queue e) + 1))) by lia. done. }
  destruct (Hgen ms e) as (e' & E & Hq); [done|rewrite Hnil; simpl; lia|]. exists e'. split; [done|].
  rewrite Hnil in Hq. change (1024 - length []) with 1024 in Hq. simpl app in Hq. split; [done|].
  simpl. unfold queue_count, REPLICATION_QUEUE_MAX. apply (f_equal length) in Hq. rewrite length_fmap, length_take in Hq. lia.
Qed.

Definition write (seq dc : Z) : object_manifest := Manifest (cs "b") (cs "k") 1 0 seq dc 0 None.

Lemma replication_converges_witness :
  foldl take_write (write 1 1) [write 3 1; write 3 2; write 2 9] =
  foldl take_write (write 1 1) [write 2 9; write 3 2; write 3 1; write 3 2].
Proof.
  apply replication_converges; [set_solver|].
  intros a b Ha Hb. repeat (apply elem_of_cons in Ha as [->|Ha]); try by apply elem_of_nil in Ha.
  all: repeat (apply elem_of_cons in Hb as [->|Hb]); try by apply elem_of_nil in Hb.
  all: done.
Defined.

Lemma replication_queue_fifo_witness :
  ∃ e', foldl (λ st m, (replication_enqueue st (Some m)).2)
      (Some (ReplicationEngine [ReplicationPeer 2 (cs "dc2") 80] [])) [write 1 1; write 2 1] = Some e' ∧
    re_manifest <$> rp_queue e' = [write 1 1; write 2 1].
Proof.
  destruct (replication_queue_fifo (ReplicationEngine [ReplicationPeer 2 (cs "dc2") 80] [])
    [write 1 1; write 2 1]) as (e' & E & Hq & _); [done|done|]. by exists e'.
Defined.
