(* ===== verification/Gateway.v ===== *)
(** * The gateway ([src/gateway/gateway.c])

    Storing, reading and deleting an object: policy selection, placement, encoding,
    the fragment router, the manifest cache and the batch for the metadata server.
    The memory is that of the fragment buffers and of the buffers handed to readers;
    the router's static segment counter is threaded. *)
From S2P Require Import Prelude Memory MetaTypes MetaShard MetaServer ErasureCoding ManifestCache Placement.
From stdpp Require Import options.

Definition GATEWAY_SMALL_THRESHOLD : Z := 4 * 1024 * 1024.
Definition GATEWAY_MEDIUM_THRESHOLD : Z := 64 * 1024 * 1024.
Definition GATEWAY_MANIFEST_CACHE_SIZE : Z := 10000.
Definition META_BATCH_CAPACITY : Z := 64.

Record gateway_config := GatewayConfig {
  gc_node_id : Z;
  gc_datacenter_id : Z;
  gc_gateway_port : Z;
  gc_default_erasure_coding_policy : erasure_coding_policy;
  gc_default_replication_factor : Z;
  gc_manifest_cache_size : Z
}.

(** [erasure_coding_engines] is indexed by [policy_index]. *)
Record gateway := Gateway {
  gw_config : gateway_config;
  gw_placement : option placement_engine;
  gw_router : option fragment_router;
  gw_cache : option manifest_cache;
  gw_engines : list (option erasure_coding_engine);
  gw_meta_batch : manifest_batch
}.

Record gateway_put_request := PutRequest {
  pr_bucket : bytes;
  pr_key : bytes;
  pr_data : option bytes;
  pr_size : Z;
  pr_erasure_coding_policy_override : erasure_coding_policy;
  pr_has_erasure_coding_override : Z
}.

Record gateway_get_response := GetResponse {
  gr_data : option nat;
  gr_size : Z;
  gr_error_code : Z
}.

(** The value of the enumerator. *)
Definition policy_index (policy : erasure_coding_policy) : nat :=
  match policy with
  | ERASURE_CODING_REPLICATION_2X => 0
  | ERASURE_CODING_REPLICATION_3X => 1
  | ERASURE_CODING_6_PLUS_3 => 2
  | ERASURE_CODING_10_PLUS_4 => 3
  end.

Definition select_erasure_coding_policy (g : gateway) (object_size : Z) : erasure_coding_policy :=
  if decide (object_size < GATEWAY_SMALL_THRESHOLD)%Z then
    if decide (gc_default_replication_factor (gw_config g) = 3)%Z
    then ERASURE_CODING_REPLICATION_3X else ERASURE_CODING_REPLICATION_2X
  else if decide (object_size < GATEWAY_MEDIUM_THRESHOLD)%Z then ERASURE_CODING_6_PLUS_3
  else ERASURE_CODING_10_PLUS_4.

(** The policy a put uses. *)
Definition put_policy (g : gateway) (r : gateway_put_request) : erasure_coding_policy :=
  if decide (pr_has_erasure_coding_override r ≠ 0%Z) then pr_erasure_coding_policy_override r
  else select_erasure_coding_policy g (pr_size r).

(** The fragments handed to the router; a location is not yet set. *)
Definition build_fragments (targets : list placement_target) (data : list nat) (sizes : list Z)
    : list fragment :=
  zip_with (λ '(i, t) '(p, s),
      Fragment (Z.of_nat i) (pt_node_id t) (pt_disk_id t) (BlobLocation 0 0 0 0) (Some p) (u32 s))
    (zip (seq 0 (length targets)) targets) (zip data sizes).

(** The manifest of a put; it has no fragment locations. *)
Definition put_manifest (g : gateway) (r : gateway_put_request) (total : Z) : object_manifest :=
  Manifest (strncpy (pr_bucket r) META_MAX_BUCKET_LENGTH) (strncpy (pr_key r) META_MAX_KEY_LENGTH)
    (pr_size r) 0 0 (gc_datacenter_id (gw_config g)) (u32 total) None.

(** Appending to the batch, which is skipped when it is full; a NULL array is
    written through when its allocation had failed. [None] is a write outside the array. *)
Definition batch_append (b : manifest_batch) (m : object_manifest) : option manifest_batch :=
  if decide (mb_count b < mb_capacity b)%Z then
    ms ← mb_manifests b;
    if decide (0 ≤ mb_count b < Z.of_nat (length ms))%Z then
      Some (ManifestBatch (Some (<[Z.to_nat (mb_count b) := m]> ms)) (mb_count b + 1) (mb_capacity b))
    else None
  else Some b.

Section gateway.
Context {O : AllocOracle}.
Local Open Scope Z_scope.

(** A pure step whose [None] is undefined behaviour. *)
Definition lift_ub {T} (x : option T) : M bytes T :=
  match x with Some v => mret v | None => undefined end.

Definition gateway_create (config : option gateway_config) (discovery etcd : bool)
    : M bytes (option gateway) :=
  match config with
  | Some config =>
      if negb (discovery && etcd) then mret None else
      ok ← try_alloc;
      if negb ok then mret None else
      placement ← placement_engine_create discovery;
      if decide (placement = None) then mret None else
      router ← fragment_router_create discovery;
      if decide (router = None) then mret None else
      cache ← manifest_cache_create (i32 (if decide (gc_manifest_cache_size config > 0)
                                          then gc_manifest_cache_size config
                                          else GATEWAY_MANIFEST_CACHE_SIZE));
      if decide (cache = None) then mret None else
      e0 ← erasure_coding_engine_create 1 1;
      e1 ← erasure_coding_engine_create 1 2;
      e2 ← erasure_coding_engine_create 6 3;
      e3 ← erasure_coding_engine_create 10 4;
      batch ← try_alloc;
      mret (Some (Gateway config placement router cache [e0; e1; e2; e3]
        (ManifestBatch (if (batch : bool)
                        then Some (replicate (Z.to_nat META_BATCH_CAPACITY) manifest_zero) else None)
           0 META_BATCH_CAPACITY)))
  | None => mret None
  end.

Definition gateway_put_object (g : option gateway) (request : option gateway_put_request)
    (fake_segment : Z) : M bytes (Z * option gateway * Z) :=
  match g, request with
  | Some gw, Some r =>
      match pr_data r with
      | None => mret (-1, g, fake_segment)
      | Some data =>
          match gw_engines gw !! policy_index (put_policy gw r) with
          | None => undefined
          | Some None => mret (-1, g, fake_segment)
          | Some (Some engine) =>
              let data_count := erasure_coding_get_data_fragment_count (Some engine) in
              let parity_count := erasure_coding_get_parity_fragment_count (Some engine) in
              let total := data_count + parity_count in
              '(count, targets) ← lift_ub (placement_select_targets (gw_placement gw)
                                             data_count parity_count true total);
              if decide (count ≠ total) then mret (-1, g, fake_segment) else
              '(result, encoded) ← erasure_coding_encode (Some engine) (Some data) (pr_size r) true;
              match encoded with
              | None => mret (-1, g, fake_segment)
              | Some (fragment_data, fragment_sizes) =>
                  let fragments := build_fragments targets fragment_data fragment_sizes in
                  let '(sent, _, fake_segment) :=
                    fragment_router_send (gw_router gw) (Some fragments) 3 fake_segment in
                  _ ← free_all fragment_data;
                  if decide (sent ≠ 0) then mret (-1, g, fake_segment) else
                  let m := put_manifest gw r total in
                  cache ← lift_ub (manifest_cache_insert (gw_cache gw) (Some (pr_bucket r))
                                     (Some (pr_key r)) (Some m));
                  batch ← lift_ub (batch_append (gw_meta_batch gw) m);
                  mret (0, Some (Gateway (gw_config gw) (gw_placement gw) (gw_router gw) cache
                                   (gw_engines gw) batch), fake_segment)
              end
          end
      end
  | _, _ => mret (-1, g, fake_segment)
  end.

(** The response is written in place; its buffer belongs to the caller. *)
Definition gateway_get_object (g : option gateway) (bucket key : option bytes)
    (response : option gateway_get_response) : M bytes (Z * option gateway_get_response) :=
  match g, bucket, key, response with
  | Some gw, Some _, Some _, Some r =>
      '(result, found) ← lift_ub (manifest_cache_lookup (gw_cache gw) bucket key (Some manifest_zero));
      if decide (result ≠ 0) then mret (-1, response) else
      let size := m_size (default manifest_zero found) in
      data ← malloc (replicate (Z.to_nat (if decide (size > 0) then size else 1)) NUL);
      match data with
      | None => mret (-1, Some (GetResponse None (gr_size r) (gr_error_code r)))
      | Some _ => mret (0, Some (GetResponse data size 0))
      end
  | _, _, _, _ => mret (-1, response)
  end.

Definition gateway_delete_object (g : option gateway) (bucket key : option bytes)
    : option (Z * option gateway) :=
  match g, bucket, key with
  | Some gw, Some _, Some _ =>
      cache ← manifest_cache_invalidate (gw_cache gw) bucket key;
      Some (0, Some (Gateway (gw_config gw) (gw_placement gw) (gw_router gw) cache
                       (gw_engines gw) (gw_meta_batch gw)))
  | _, _, _ => Some (-1, g)
  end.

(** The policy set here is read by no function. *)
Definition gateway_set_erasure_coding_policy (g : option gateway) (policy : erasure_coding_policy)
    : option gateway :=
  (λ gw, let c := gw_config gw in
     Gateway (GatewayConfig (gc_node_id c) (gc_datacenter_id c) (gc_gateway_port c) policy
                (gc_default_replication_factor c) (gc_manifest_cache_size c))
       (gw_placement gw) (gw_router gw) (gw_cache gw) (gw_engines gw) (gw_meta_batch gw)) <$> g.

Definition gateway_get_placement (g : option gateway) : option placement_engine :=
  g ≫= gw_placement.
End gateway.

Arguments gateway_put_object : simpl never.
Arguments gateway_get_object : simpl never.

(** ** Well-formed gateways *)

(** The engine of a policy has the policy's parameters. *)
Definition engine_for (policy : erasure_coding_policy) : erasure_coding_engine :=
  matrix_for (data_fragments (erasure_coding_params_for_policy policy))
    (parity_fragments (erasure_coding_params_for_policy policy)).

Definition policies : list erasure_coding_policy :=
  [ERASURE_CODING_REPLICATION_2X; ERASURE_CODING_REPLICATION_3X;
   ERASURE_CODING_6_PLUS_3; ERASURE_CODING_10_PLUS_4].

Record gateway_wf (g : gateway) : Prop := {
  gwf_placement : is_Some (gw_placement g);
  gwf_router : is_Some (gw_router g);
  gwf_cache : ∃ c, gw_cache g = Some c ∧ cache_wf c;
  gwf_engines : gw_engines g = (λ p, Some (engine_for p)) <$> policies;
  gwf_batch : ∃ ms, mb_manifests (gw_meta_batch g) = Some ms ∧
    Z.of_nat (length ms) = mb_capacity (gw_meta_batch g);
  gwf_count : (0 ≤ mb_count (gw_meta_batch g))%Z
}.

(** The nodes a put needs. *)
Definition put_total (g : gateway) (r : gateway_put_request) : Z :=
  let params := erasure_coding_params_for_policy (put_policy g r) in
  (data_fragments params + parity_fragments params)%Z.

Definition gateway_nodes (g : gateway) : Z :=
  match gw_placement g with Some e => node_count e | None => 0 end.

(** A request whose fields hold what their C types can, with all its data. *)
Definition put_valid (r : gateway_put_request) (data : bytes) : Prop :=
  key_fits (pr_bucket r, pr_key r) ∧ pr_data r = Some data ∧ (pr_size r ≤ Z.of_nat (length data))%Z.

Lemma engine_for_wf p : engine_wf (engine_for p).
Proof. destruct p; by apply matrix_for_wf. Qed.

Lemma put_total_bounds g r : (2 ≤ put_total g r ≤ 14)%Z.
Proof. unfold put_total. destruct (put_policy g r); simpl; lia. Qed.

Lemma engines_lookup g p :
  gateway_wf g → gw_engines g !! policy_index p = Some (Some (engine_for p)).
Proof. intros Hwf. rewrite (gwf_engines g Hwf). by destruct p. Qed.

Lemma build_fragments_length targets ps sizes n :
  length targets = n → length ps = n → length sizes = n → length (build_fragments targets ps sizes) = n.
Proof.
  intros. unfold build_fragments. rewrite length_zip_with, !length_zip_with, length_seq. lia.
Qed.

(** The manifests that wait in the batch. *)
Definition batched (b : manifest_batch) : list object_manifest :=
  take (Z.to_nat (mb_count b)) (default [] (mb_manifests b)).

(** The batch takes a manifest while there is room, and drops it after that. *)
Lemma batch_append_defined g m :
  gateway_wf g → let b := gw_meta_batch g in ∃ b', batch_append b m = Some b' ∧
    (∃ ms, mb_manifests b' = Some ms ∧ Z.of_nat (length ms) = mb_capacity b') ∧ (0 ≤ mb_count b')%Z ∧
    if decide (mb_count b < mb_capacity b)%Z then
      mb_count b' = (mb_count b + 1)%Z ∧ mb_capacity b' = mb_capacity b ∧ batched b' = batched b ++ [m]
    else b' = b.
Proof.
  intros Hwf b. pose proof (gwf_count g Hwf) as Hcount. destruct (gwf_batch g Hwf) as (ms & Hms & Hlen).
  fold b in Hcount, Hms, Hlen. unfold batch_append. rewrite Hms. simpl. case_decide.
  - rewrite decide_True by lia. eexists. split; [done|]. simpl. split; [exists (<[Z.to_nat (mb_count b) := m]> ms)|].
    { by rewrite length_insert. }
    split_and!; [lia|done|done|]. unfold batched. simpl. rewrite Hms. simpl.
    replace (Z.to_nat (mb_count b + 1)) with (S (Z.to_nat (mb_count b))) by lia.
    rewrite (take_S_r _ _ m) by (apply list_lookup_insert_eq; lia). by rewrite take_insert_ge.
  - exists b. split; [done|]. split; [by exists ms|done].
Qed.

Section put.
#[local] Set Default Proof Using "Type*".
Context {O : AllocOracle}.

(** Every outcome of a put: refused for want of nodes or of memory, or the manifest is
    cached and batched; the fragment buffers are gone in each case. *)
Lemma put_cases g r data seg h :
  gateway_wf g → put_valid r data → mem_wf h →
  ∃ rc g' seg' h', gateway_put_object (Some g) (Some r) seg h = Some ((rc, Some g', seg'), h') ∧
    mem_cells h' = mem_cells h ∧ mem_wf h' ∧
    ((rc = (-1)%Z ∧ g' = g ∧ ((gateway_nodes g < put_total g r)%Z ∨ ∃ n, alloc_ok n = false)) ∨
     (rc = 0%Z ∧ (put_total g r ≤ gateway_nodes g)%Z ∧
      ∃ c c' b', gw_cache g = Some c ∧ cache_wf c ∧
        manifest_cache_insert (Some c) (Some (pr_bucket r)) (Some (pr_key r))
          (Some (put_manifest g r (put_total g r))) = Some (Some c') ∧
        cache_wf c' ∧ batch_append (gw_meta_batch g) (put_manifest g r (put_total g r)) = Some b' ∧
        g' = Gateway (gw_config g) (gw_placement g) (gw_router g) (Some c') (gw_engines g) b')).
Proof.
  intros Hwf (Hfit & Hdata & Hsize) Hmem. unfold gateway_put_object. rewrite Hdata.
  rewrite (engines_lookup g _ Hwf). cbn [erasure_coding_get_data_fragment_count erasure_coding_get_parity_fragment_count].
  pose proof (engine_for_wf (put_policy g r)) as Hengine. set (e := engine_for (put_policy g r)) in *.
  assert (data_fragment_count e + parity_fragment_count e = put_total g r)%Z as Htotal by done.
  pose proof (put_total_bounds g r) as Hbounds. pose proof Hengine as (Hk & Hp & _).
  cbn zeta. rewrite Htotal. destruct (gwf_placement g Hwf) as [pl Hpl].
  assert (gateway_nodes g = node_count pl) as Hnodes by (unfold gateway_nodes; by rewrite Hpl).
  rewrite Hpl. destruct (decide (node_count pl < put_total g r)%Z) as [Hfew|Henough].
  { rewrite select_refused by lia. m_simpl. rewrite decide_True by lia.
    do 4 eexists. split_and!; [done..|]. left. split_and!; [done..|left; lia]. }
  rewrite select_first by lia. rewrite Htotal. unfold lift_ub at 1. m_simpl. rewrite decide_False by lia.
  destruct (encode_cases e data (pr_size r) h Hengine Hmem Hsize) as (rc & out & h1 & E & Hmem1 & Hout).
  rewrite E. destruct out as [[ps sizes]|].
  2: { destruct Hout as (_ & Hc & Hoom). do 4 eexists. split_and!; [done..|]. left. auto. }
  destruct Hout as (_ & Hlen & Hsizes & Hon). rewrite Htotal in Hlen.
  pose proof (build_fragments_length (take (Z.to_nat (put_total g r)) (pe_nodes pl)) ps sizes
    (Z.to_nat (put_total g r))) as Hbuilt.
  destruct (build_fragments _ ps sizes) as [|f fs].
  { assert (0 = Z.to_nat (put_total g r)); [|lia]. apply Hbuilt.
    - rewrite length_take. unfold node_count in Henough. lia.
    - done.
    - by rewrite Hsizes, length_replicate. }
  destruct (gwf_router g Hwf) as [router Hrouter]. rewrite Hrouter. unfold fragment_router_send.
  destruct (send_loop (f :: fs) 0 seg) as [sent seg'].
  destruct (free_all_on_top ps _ _ h1 Hon Hmem1) as (h2 & E2 & Hc2 & _ & Hmem2).
  rewrite E2. rewrite decide_False by auto.
  destruct (gwf_cache g Hwf) as (c & Hc & Hcwf). rewrite Hc.
  destruct (insert_spec (pr_bucket r) (pr_key r) (put_manifest g r (put_total g r)) Hfit c Hcwf)
    as (c' & Ei & Hcwf' & _). rewrite Ei. unfold lift_ub. m_simpl.
  destruct (batch_append_defined g (put_manifest g r (put_total g r)) Hwf) as (b' & Eb & _). rewrite Eb.
  do 4 eexists. split_and!; [done..|]. right. split; [done|]. split; [lia|].
  exists c, c', b'. rewrite <-Hrouter. auto 10.
Qed.
End put.

(** ** Scripts: sequences of calls on one gateway *)

Inductive gateway_call :=
  | CallPut (r : gateway_put_request)
  | CallGet (bucket key : bytes)
  | CallDelete (bucket key : bytes).

Section run.
Context {O : AllocOracle}.

(** One call's result code and the state after it. *)
Definition gateway_step (call : gateway_call) (g : option gateway) (seg : Z)
    : M bytes (Z * option gateway * Z) :=
  match call with
  | CallPut r => gateway_put_object g (Some r) seg
  | CallGet b k =>
      '(rc, _) ← gateway_get_object g (Some b) (Some k) (Some (GetResponse None 0 0));
      mret (rc, g, seg)
  | CallDelete b k => '(rc, g) ← lift_ub (gateway_delete_object g (Some b) (Some k)); mret (rc, g, seg)
  end.

Fixpoint gateway_run (calls : list gateway_call) (g : option gateway) (seg : Z)
    : M bytes (list Z) :=
  match calls with
  | [] => mret []
  | call :: calls =>
      '(rc, g, seg) ← gateway_step call g seg;
      rcs ← gateway_run calls g seg;
      mret (rc :: rcs)
  end.
End run.

(** ** Properties *)

(** C2. A put never leaks or corrupts memory and never fails halfway: whatever the
    allocator does, it returns 0 or -1, every fragment buffer it allocated is freed
    again, and on -1 the gateway is unchanged; on 0 the manifest is in the cache
    and, unless the batch was full, the last of the batch. Nothing is written outside the batch's
    array. Failure has one of two causes: fewer
    registered nodes than fragments, or an allocation that failed. *)
Theorem gateway_put_safe `{O : AllocOracle} g r data seg h :
  gateway_wf g → put_valid r data → mem_wf h →
  ∃ rc g' seg' h', gateway_put_object (Some g) (Some r) seg h = Some ((rc, Some g', seg'), h') ∧
    mem_cells h' = mem_cells h ∧ gateway_wf g' ∧
    (rc = (-1)%Z ∧ g' = g ∧ ((gateway_nodes g < put_total g r)%Z ∨ ∃ n, alloc_ok n = false) ∨
     rc = 0%Z ∧ (put_total g r ≤ gateway_nodes g)%Z ∧
       (mb_count (gw_meta_batch g) ≤ mb_count (gw_meta_batch g') ≤ mb_count (gw_meta_batch g) + 1)%Z ∧
       batched (gw_meta_batch g') = batched (gw_meta_batch g) ++
         (if decide (mb_count (gw_meta_batch g) < mb_capacity (gw_meta_batch g))%Z
          then [put_manifest g r (put_total g r)] else []) ∧
       ∃ c', gw_cache g' = Some c' ∧
         cached c' (pr_bucket r, pr_key r) = Some (put_manifest g r (put_total g r))).
Proof.
  intros Hwf Hvalid Hmem.
  destruct (put_cases g r data seg h Hwf Hvalid Hmem) as (rc & g' & seg' & h' & E & Hcells & _ & Hcase).
  exists rc, g', seg', h'. split; [done|]. split; [done|].
  destruct Hcase as [(-> & -> & Hwhy)|(-> & Hn & c & c' & b' & Hc & Hcwf & Ei & Hcwf' & Eb & ->)]; [auto|].
  destruct (batch_append_defined g (put_manifest g r (put_total g r)) Hwf) as (b0 & Eb0 & Hms & Hcnt & Happ).
  rewrite Eb in Eb0. injection Eb0 as <-. split.
  - split; simpl; [apply Hwf|apply Hwf|by exists c'|apply Hwf|done|done].
  - right. split; [done|]. split; [done|]. simpl. split; [|split].
    + case_decide; [destruct Happ; lia|subst b'; lia].
    + case_decide; [by destruct Happ as (_ & _ & ->)|subst b'; by rewrite (right_id_L [] (++))].
    + exists c'. split; [done|]. destruct Hvalid as (Hfit & _).
      destruct (insert_spec (pr_bucket r) (pr_key r) (put_manifest g r (put_total g r)) Hfit c Hcwf)
        as (c0 & E0 & _ & _ & _ & Hcached). rewrite Ei in E0. injection E0 as <-.
      by rewrite Hcached, decide_True.
Qed.

(** C25. The adaptive policy: without an override an object below 4 MiB needs 2 nodes, or
    3 with a replication factor of 3; one below 64 MiB needs 9; a larger one 14. When
    memory lasts, a put succeeds exactly when that many nodes are registered. *)
Theorem gateway_put_needs_nodes `{O : AllocOracle} g r data seg h :
  gateway_wf g → put_valid r data → mem_wf h → (∀ n, alloc_ok n = true) →
  pr_has_erasure_coding_override r = 0%Z →
  let needed := (if decide (pr_size r < 4 * 2 ^ 20)
                 then if decide (gc_default_replication_factor (gw_config g) = 3) then 3 else 2
                 else if decide (pr_size r < 64 * 2 ^ 20) then 9 else 14)%Z in
  ∃ rc g' seg' h', gateway_put_object (Some g) (Some r) seg h = Some ((rc, g', seg'), h') ∧
    (rc = 0%Z ↔ (needed ≤ gateway_nodes g)%Z) ∧ (rc ≠ 0%Z → rc = (-1)%Z ∧ g' = Some g).
Proof.
  intros Hwf Hvalid Hmem Hok Hover needed.
  assert (put_total g r = needed) as Htotal.
  { unfold put_total, put_policy. rewrite Hover, decide_False by auto. unfold select_erasure_coding_policy, needed.
    unfold GATEWAY_SMALL_THRESHOLD, GATEWAY_MEDIUM_THRESHOLD. by repeat case_decide. }
  destruct (put_cases g r data seg h Hwf Hvalid Hmem) as (rc & g' & seg' & h' & E & _ & _ & Hcase).
  exists rc, (Some g'), seg', h'. split; [done|]. rewrite Htotal in Hcase.
  destruct Hcase as [(-> & -> & [Hfew|[n Hn]])|(-> & Hn & _)].
  - split; [split; [done|lia]|done].
  - by rewrite Hok in Hn.
  - split; [split; [done|done]|done].
Qed.

(** What is read back is not what was stored: after a successful put into an
    unbroken cache, a get returns 0 and the object's size, but its buffer holds only
    zeros, whatever the object's bytes were. *)
Theorem gateway_get_returns_zeros `{O : AllocOracle} g r data seg h c out :
  gateway_wf g → put_valid r data → mem_wf h → (∀ n, alloc_ok n = true) →
  (put_total g r ≤ gateway_nodes g)%Z → gw_cache g = Some c → chained c → (0 < pr_size r)%Z →
  ∃ g' seg' h1 p h2,
    gateway_put_object (Some g) (Some r) seg h = Some ((0%Z, Some g', seg'), h1) ∧
    gateway_get_object (Some g') (Some (pr_bucket r)) (Some (pr_key r)) (Some out) h1 =
      Some ((0%Z, Some (GetResponse (Some p) (pr_size r) 0)), h2) ∧
    mem_cells h2 !! p = Some (replicate (Z.to_nat (pr_size r)) NUL).
Proof.
  intros Hwf Hvalid Hmem Hok Hnodes Hc Hch Hpos.
  destruct (put_cases g r data seg h Hwf Hvalid Hmem) as (rc & g' & seg' & h1 & E & _ & _ & Hcase).
  destruct Hcase as [(_ & _ & [Hfew|[n Hn]])|(-> & _ & c0 & c' & b' & Hc0 & Hcwf & Ei & Hcwf' & _ & ->)];
    [lia|by rewrite Hok in Hn|].
  rewrite Hc in Hc0. injection Hc0 as <-. destruct Hvalid as (Hfit & _).
  destruct (insert_spec (pr_bucket r) (pr_key r) (put_manifest g r (put_total g r)) Hfit c Hcwf)
    as (c1 & E1 & _ & _ & Hch1 & Hcached). rewrite Ei in E1. injection E1 as <-.
  destruct (lookup_spec c' (pr_bucket r) (pr_key r) manifest_zero Hcwf') as (rc & found & El & Hl).
  rewrite Hcached, decide_True in Hl by done.
  destruct Hl as [[-> [= <-]]|(_ & _ & Hl)]; [|by specialize (Hl (Hch1 Hch))].
  do 5 eexists. split; [done|]. unfold gateway_get_object. simpl. rewrite El. unfold lift_ub, malloc. m_simpl.
  rewrite Hok. rewrite decide_True by lia. split; [done|]. simpl. apply lookup_insert_eq.
Qed.

(** Once 64 manifests are batched, further puts still return 0 but their manifests
    never reach the batch for the metadata server. *)
Theorem gateway_full_batch_drops `{O : AllocOracle} g r data seg h :
  gateway_wf g → put_valid r data → mem_wf h → (∀ n, alloc_ok n = true) →
  (put_total g r ≤ gateway_nodes g)%Z → (mb_capacity (gw_meta_batch g) ≤ mb_count (gw_meta_batch g))%Z →
  ∃ g' seg' h', gateway_put_object (Some g) (Some r) seg h = Some ((0%Z, Some g', seg'), h') ∧
    gw_meta_batch g' = gw_meta_batch g.
Proof.
  intros Hwf Hvalid Hmem Hok Hnodes Hfull.
  destruct (put_cases g r data seg h Hwf Hvalid Hmem) as (rc & g' & seg' & h1 & E & _ & _ & Hcase).
  destruct Hcase as [(_ & _ & [Hfew|[n Hn]])|(-> & _ & c0 & c' & b' & _ & _ & _ & _ & Eb & ->)];
    [lia|by rewrite Hok in Hn|].
  destruct (batch_append_defined g (put_manifest g r (put_total g r)) Hwf) as (b0 & Eb0 & _ & _ & Hsame).
  do 3 eexists. split; [done|]. simpl. rewrite Eb in Eb0. injection Eb0 as ->. by rewrite decide_False in Hsame by lia.
Qed.

(** A gateway with the default cache and nine nodes. *)
Definition example_gateway (cache_size : Z) : gateway :=
  Gateway (GatewayConfig 1 1 8080 ERASURE_CODING_10_PLUS_4 2 cache_size)
    (Some (PlacementEngine example_nodes)) (Some FragmentRouter) (Some (empty_cache cache_size))
    ((λ p, Some (engine_for p)) <$> policies) (ManifestBatch (Some (replicate 64 manifest_zero)) 0 64).

Definition example_put (key : bytes) : gateway_put_request :=
  PutRequest (cs "b") key (Some (cs "hello")) 5 ERASURE_CODING_REPLICATION_2X 0.

(** Deleting one object breaks others. The keys Aa and BB hash alike, so they share a
    first slot in a cache of any size; in a gateway with 16 cache entries, deleting Aa
    makes BB unreadable, and putting BB again, which returns 0, does not help; and an
    object BB deleted after Aa is gone only until Aa is put again, when it can be read
    once more. *)
Theorem gateway_delete_breaks_others :
  (∃ h, gateway_run (O := no_oom)
     [CallPut (example_put (cs "Aa")); CallPut (example_put (cs "BB")); CallGet (cs "b") (cs "BB");
      CallDelete (cs "b") (cs "Aa"); CallGet (cs "b") (cs "BB");
      CallPut (example_put (cs "BB")); CallGet (cs "b") (cs "BB")]
     (Some (example_gateway 16)) FAKE_SEGMENT_START mem_empty =
     Some ([0; 0; 0; 0; -1; 0; -1]%Z, h)) ∧
  (∃ h, gateway_run (O := no_oom)
     [CallPut (example_put (cs "Aa")); CallPut (example_put (cs "BB")); CallDelete (cs "b") (cs "Aa");
      CallDelete (cs "b") (cs "BB"); CallGet (cs "b") (cs "BB");
      CallPut (example_put (cs "Aa")); CallGet (cs "b") (cs "BB")]
     (Some (example_gateway 16)) FAKE_SEGMENT_START mem_empty =
     Some ([0; 0; 0; 0; -1; 0; 0]%Z, h)).
Proof. split; eexists; vm_compute; reflexivity. Qed.

(** ** Witnesses *)

Lemma example_gateway_wf : gateway_wf (example_gateway 4).
Proof.
  split; simpl; [by eexists|by eexists| |done|by eexists|done].
  exists (empty_cache 4). split; [done|]. by apply empty_cache_wf.
Qed.

Lemma example_put_valid : put_valid (example_put (cs "k")) (cs "hello").
Proof. split_and!; [split; vm_compute; lia|done|by vm_compute]. Qed.

Lemma gateway_put_safe_witness :
  ∃ rc g' seg' h', gateway_put_object (O := λ n, bool_decide (n < 1)) (Some (example_gateway 4))
      (Some (example_put (cs "k"))) 1000 mem_empty = Some ((rc, Some g', seg'), h') ∧
    mem_cells h' = ∅ ∧ gateway_wf g'.
Proof.
  destruct (gateway_put_safe (O := λ n, bool_decide (n < 1)) (example_gateway 4) (example_put (cs "k")) (cs "hello")
    1000 mem_empty example_gateway_wf example_put_valid mem_wf_empty) as (rc & g' & seg' & h' & E & Hc & Hwf & _).
  by exists rc, g', seg', h'.
Defined.

Lemma gateway_put_needs_nodes_witness :
  ∃ rc g' seg' h', gateway_put_object (O := no_oom) (Some (example_gateway 4)) (Some (example_put (cs "k")))
      1000 mem_empty = Some ((rc, g', seg'), h') ∧ rc = 0%Z.
Proof.
  destruct (gateway_put_needs_nodes (O := no_oom) (example_gateway 4) (example_put (cs "k")) (cs "hello")
    1000 mem_empty example_gateway_wf example_put_valid mem_wf_empty (λ _, eq_refl) eq_refl)
    as (rc & g' & seg' & h' & E & Hrc & _).
  exists rc, g', seg', h'. split; [done|]. apply Hrc. by vm_compute.
Defined.

Lemma gateway_get_returns_zeros_witness :
  ∃ g' seg' h1 p h2,
    gateway_put_object (O := no_oom) (Some (example_gateway 4)) (Some (example_put (cs "k"))) 1000 mem_empty =
      Some ((0%Z, Some g', seg'), h1) ∧
    gateway_get_object (O := no_oom) (Some g') (Some (cs "b")) (Some (cs "k")) (Some (GetResponse None 0 0)) h1 =
      Some ((0%Z, Some (GetResponse (Some p) 5 0)), h2) ∧
    mem_cells h2 !! p = Some (replicate 5 NUL).
Proof.
  apply (gateway_get_returns_zeros (O := no_oom) (example_gateway 4) (example_put (cs "k")) (cs "hello") 1000 mem_empty
    (empty_cache 4) (GetResponse None 0 0) example_gateway_wf example_put_valid mem_wf_empty (λ _, eq_refl));
    [by vm_compute|done|by apply empty_cache_wf|done].
Defined.

(** The same gateway with its batch full. *)
Definition full_gateway : gateway :=
  let g := example_gateway 4 in
  Gateway (gw_config g) (gw_placement g) (gw_router g) (gw_cache g) (gw_engines g)
    (ManifestBatch (Some (replicate 64 manifest_zero)) 64 64).

Lemma gateway_full_batch_drops_witness :
  ∃ g' seg' h', gateway_put_object (O := no_oom) (Some full_gateway) (Some (example_put (cs "k"))) 1000 mem_empty =
      Some ((0%Z, Some g', seg'), h') ∧
    gw_meta_batch g' = gw_meta_batch full_gateway.
Proof.
  apply (gateway_full_batch_drops (O := no_oom) full_gateway (example_put (cs "k")) (cs "hello") 1000 mem_empty).
  - destruct example_gateway_wf. by split; [| | | |by eexists|].
  - apply example_put_valid.
  - apply mem_wf_empty.
  - done.
  - by vm_compute.
  - done.
Defined.

(** The gateway [gateway_create] makes is well-formed, with an empty unbroken cache. *)
Lemma gateway_create_wf `{O : AllocOracle} config h :
  (∀ n, alloc_ok n = true) → (0 < gc_manifest_cache_size config < 2 ^ 31)%Z →
  ∃ g h', gateway_create (Some config) true true h = Some (Some g, h') ∧ mem_cells h' = mem_cells h ∧
    gateway_wf g ∧ gw_cache g = Some (empty_cache (gc_manifest_cache_size config)) ∧
    gateway_nodes g = 0%Z ∧ mb_count (gw_meta_batch g) = 0%Z.
Proof.
  intros Hok Hsize. unfold gateway_create, placement_engine_create, fragment_router_create,
    manifest_cache_create, erasure_coding_engine_create. m_simpl.
  repeat (rewrite Hok; simpl). rewrite (decide_True (P := (_ > 0)%Z)) by lia.
  rewrite i32_small by lia. rewrite (decide_False (P := _ ∨ _)) by (intros [?|?]; [done|lia]).
  simpl. repeat (rewrite Hok; simpl).
  do 2 eexists. split; [done|]. split; [done|]. split_and!; [|done..].
  split; simpl; [by eexists|by eexists| |done|by eexists|done].
  exists (empty_cache (gc_manifest_cache_size config)). split; [done|]. apply empty_cache_wf. lia.
Qed.
