(* ===== verification/GatewayLife.v ===== *)
(** * Creating and destroying a gateway ([src/gateway/], the [_create] and [_destroy] functions)

    [Gateway.v] says what a new gateway contains; here is which blocks it is made of.  A
    part is the pointers to its blocks, [Resource] is what a part promises to the part that
    contains it, and the last section ties the two models of [gateway_create] together. *)
From S2P Require Import Prelude Memory Triples MetaServer ErasureCoding ManifestCache Placement Gateway.
From stdpp Require Import options.

(** What a block holds. *)
Inductive block := GatewayBlock | PlacementBlock | RouterBlock | CacheBlock | CacheEntries | EngineBlock | MatrixBlock | BatchBlock.

(** Pointers to the parts. *)
Record placement_ptr := PlacementPtr { pp_self : nat }.
Record router_ptr := RouterPtr { rp_self : nat }.
Record cache_ptr := CachePtr { cp_self : nat; cp_entries : nat }.
Record engine_ptr := EnginePtr { ep_self : nat; ep_encode_matrix : nat }.
Record gateway_ptr := GatewayPtr {
  gp_self : nat;
  gp_placement : placement_ptr;
  gp_router : router_ptr;
  gp_cache : cache_ptr;
  gp_engines : list (option engine_ptr);
  gp_manifests : option nat
}.

(** ** The functions *)

Section life.
Context {O : AllocOracle}.

Definition placement_engine_create (discovery : bool) : M block (option placement_ptr) :=
  if negb discovery then mret None else
  engine ← malloc PlacementBlock;
  mret (PlacementPtr <$> engine).

Definition placement_engine_destroy (engine : option placement_ptr) : M block unit := mfree (pp_self <$> engine).

Definition fragment_router_create (discovery : bool) : M block (option router_ptr) :=
  if negb discovery then mret None else
  router ← malloc RouterBlock;
  mret (RouterPtr <$> router).

Definition fragment_router_destroy (router : option router_ptr) : M block unit := mfree (rp_self <$> router).

(** [calloc] of a negative number of entries overflows and fails. *)
Definition manifest_cache_create (max_entries : Z) : M block (option cache_ptr) :=
  cache ← malloc CacheBlock;
  match cache with
  | None => mret None
  | Some self =>
      entries ← (if decide (max_entries < 0)%Z then _ ← try_alloc; mret None else malloc CacheEntries);
      match entries with
      | None => _ ← mfree (Some self); mret None
      | Some entries => mret (Some (CachePtr self entries))
      end
  end.

Definition manifest_cache_destroy (cache : option cache_ptr) : M block unit :=
  match cache with
  | None => mret tt
  | Some c => _ ← mfree (Some (cp_entries c)); mfree (Some (cp_self c))
  end.

Definition erasure_coding_engine_create (data_fragment_count parity_fragment_count : Z) : M block (option engine_ptr) :=
  if decide (data_fragment_count <= 0 ∨ parity_fragment_count < 0 ∨
             data_fragment_count + parity_fragment_count > GATEWAY_MAX_FRAGMENTS)%Z
  then mret None else
  engine ← malloc EngineBlock;
  match engine with
  | None => mret None
  | Some self =>
      encode_matrix ← malloc MatrixBlock;
      match encode_matrix with
      | None => _ ← mfree (Some self); mret None
      | Some matrix => mret (Some (EnginePtr self matrix))
      end
  end.

Definition erasure_coding_engine_destroy (engine : option engine_ptr) : M block unit :=
  match engine with
  | None => mret tt
  | Some e => _ ← mfree (Some (ep_encode_matrix e)); mfree (Some (ep_self e))
  end.

Definition gateway_create (config : option gateway_config) (discovery etcd : bool) : M block (option gateway_ptr) :=
  match config with
  | None => mret None
  | Some config =>
      if negb (discovery && etcd) then mret None else
      gateway ← malloc GatewayBlock;
      match gateway with
      | None => mret None
      | Some self =>
          placement ← placement_engine_create discovery;
          match placement with
          | None => _ ← mfree (Some self); mret None
          | Some placement =>
              router ← fragment_router_create discovery;
              match router with
              | None => _ ← placement_engine_destroy (Some placement); _ ← mfree (Some self); mret None
              | Some router =>
                  cache ← manifest_cache_create (i32 (if decide (gc_manifest_cache_size config > 0)%Z
                                                      then gc_manifest_cache_size config else GATEWAY_MANIFEST_CACHE_SIZE));
                  match cache with
                  | None =>
                      _ ← fragment_router_destroy (Some router); _ ← placement_engine_destroy (Some placement);
                      _ ← mfree (Some self); mret None
                  | Some cache =>
                      e0 ← erasure_coding_engine_create 1 1;
                      e1 ← erasure_coding_engine_create 1 2;
                      e2 ← erasure_coding_engine_create 6 3;
                      e3 ← erasure_coding_engine_create 10 4;
                      manifests ← malloc BatchBlock;
                      mret (Some (GatewayPtr self placement router cache [e0; e1; e2; e3] manifests))
                  end
              end
          end
      end
  end.

Fixpoint destroy_engines (engines : list (option engine_ptr)) : M block unit :=
  match engines with
  | [] => mret tt
  | e :: engines =>
      _ ← match e with Some _ => erasure_coding_engine_destroy e | None => mret tt end;
      destroy_engines engines
  end.

Definition gateway_destroy (gateway : option gateway_ptr) : M block unit :=
  match gateway with
  | None => mret tt
  | Some g =>
      _ ← destroy_engines (gp_engines g);
      _ ← mfree (gp_manifests g);
      _ ← manifest_cache_destroy (Some (gp_cache g));
      _ ← fragment_router_destroy (Some (gp_router g));
      _ ← placement_engine_destroy (Some (gp_placement g));
      mfree (Some (gp_self g))
  end.
End life.

(** ** What a part promises *)

(** The blocks of a part, and how it is destroyed. *)
Class Resource (T : Type) := {
  owns : T → list (gmap nat block);
  destroy : option T → M block unit
}.

(** Destroying frees exactly the blocks; destroying NULL does nothing. *)
Class ResourceLaws T `{Resource T} := {
  destroy_frees t rest P : sep (owns t ++ rest) P → triple P (destroy (Some t)) (λ _ P', sep rest P');
  destroy_null P : triple P (destroy (@None T)) (λ _ P', P' = P)
}.

#[export] Instance placement_resource : Resource placement_ptr :=
  {| owns e := [{[pp_self e := PlacementBlock]}]; destroy := placement_engine_destroy |}.
#[export] Instance router_resource : Resource router_ptr :=
  {| owns r := [{[rp_self r := RouterBlock]}]; destroy := fragment_router_destroy |}.
#[export] Instance cache_resource : Resource cache_ptr :=
  {| owns c := [{[cp_entries c := CacheEntries]}; {[cp_self c := CacheBlock]}]; destroy := manifest_cache_destroy |}.
#[export] Instance engine_resource : Resource engine_ptr :=
  {| owns e := [{[ep_encode_matrix e := MatrixBlock]}; {[ep_self e := EngineBlock]}]; destroy := erasure_coding_engine_destroy |}.

#[export] Instance placement_laws : ResourceLaws placement_ptr.
Proof.
  split; [|intros P; by apply triple_free_null]. intros t rest P Hsep. exact (triple_sep_free _ _ _ _ Hsep).
Qed.
#[export] Instance router_laws : ResourceLaws router_ptr.
Proof.
  split; [|intros P; by apply triple_free_null]. intros t rest P Hsep. exact (triple_sep_free _ _ _ _ Hsep).
Qed.

(** A part of two blocks, the inner one freed first. *)
Lemma two_blocks_triple l a l' a' rest P : sep ([{[l := a]}; {[l' := a']}] ++ rest) P →
  triple (A := block) P (_ ← mfree (Some l); mfree (Some l')) (λ _ P', sep rest P').
Proof.
  intros Hsep. eapply triple_bind; [exact (triple_sep_free _ _ _ _ Hsep)|].
  intros ? P' Hs. exact (triple_sep_free _ _ _ _ Hs).
Qed.

#[export] Instance cache_laws : ResourceLaws cache_ptr.
Proof. split; [intros t rest P; by apply two_blocks_triple|intros P; by apply triple_ret]. Qed.
#[export] Instance engine_laws : ResourceLaws engine_ptr.
Proof. split; [intros t rest P; by apply two_blocks_triple|intros P; by apply triple_ret]. Qed.

(** The blocks of a part that may be missing. *)
Definition owned {T} `{Resource T} (r : option T) : list (gmap nat block) := match r with Some t => owns t | None => [] end.

(** A constructor returns a part with its blocks, or nothing and keeps nothing. *)
Definition creates {T} `{Resource T} (m : M block (option T)) : Prop :=
  ∀ rest P, sep rest P → triple P m (λ r P', sep (owned r ++ rest) P').

Lemma destroy_owned {T} `{ResourceLaws T} (r : option T) rest P :
  sep (owned r ++ rest) P → triple P (destroy r) (λ _ P', sep rest P').
Proof.
  destruct r as [t|]; simpl; [apply destroy_frees|]. intros Hsep.
  eapply triple_mono; [apply destroy_null|]. by intros ? ? ->.
Qed.

(** ** The constructors *)

Section create.
Context {O : AllocOracle}.
Implicit Types (P : gmap nat block) (rest : list (gmap nat block)).

Lemma create_bind {T U} `{Resource T} (m : M block (option T)) (k : option T → M block U) rest P (Q : U → gmap nat block → Prop) :
  creates m → sep rest P →
  (∀ t P', sep (owns t ++ rest) P' → triple P' (k (Some t)) Q) → (∀ P', sep rest P' → triple P' (k None) Q) →
  triple P (m ≫= k) Q.
Proof.
  intros Hm Hsep Hs Hn. eapply triple_bind; [by apply Hm|]. intros [t|] P'; [apply Hs|apply Hn].
Qed.

Lemma malloc_bind {U} a (k : option nat → M block U) rest P (Q : U → gmap nat block → Prop) :
  sep rest P → (∀ l P', sep ({[l := a]} :: rest) P' → triple P' (k (Some l)) Q) → (∀ P', sep rest P' → triple P' (k None) Q) →
  triple P (malloc a ≫= k) Q.
Proof.
  intros Hsep Hs Hn. eapply triple_bind; [by apply triple_sep_malloc|]. intros [l|] P'; [apply Hs|intros [? _]; by apply Hn].
Qed.

(** What a failing constructor still holds is freed by its next step. *)
Lemma destroy_bind {T U} `{ResourceLaws T} (t : T) (k : M block U) rest P (Q : U → gmap nat block → Prop) :
  sep (owns t ++ rest) P → (∀ P', sep rest P' → triple P' k Q) → triple P (_ ← destroy (Some t); k) Q.
Proof. intros Hsep Hk. eapply triple_bind; [by apply destroy_frees|]. intros ? P' Hs. by apply Hk. Qed.

Lemma free_bind {U} l a (k : M block U) rest P (Q : U → gmap nat block → Prop) :
  sep ({[l := a]} :: rest) P → (∀ P', sep rest P' → triple P' k Q) → triple P (_ ← mfree (Some l); k) Q.
Proof. intros Hsep Hk. eapply triple_bind; [exact (triple_sep_free _ _ _ _ Hsep)|]. intros ? P' Hs. by apply Hk. Qed.

Lemma placement_creates discovery : creates (placement_engine_create discovery).
Proof.
  intros rest P Hsep. unfold placement_engine_create. destruct discovery; [|by apply triple_ret].
  by apply (malloc_bind _ _ rest); [|intros; apply triple_ret..].
Qed.

Lemma router_creates discovery : creates (fragment_router_create discovery).
Proof.
  intros rest P Hsep. unfold fragment_router_create. destruct discovery; [|by apply triple_ret].
  by apply (malloc_bind _ _ rest); [|intros; apply triple_ret..].
Qed.

Lemma cache_creates n : creates (manifest_cache_create n).
Proof.
  intros rest P Hsep. unfold manifest_cache_create.
  apply (malloc_bind _ _ rest); [done| |by intros; apply triple_ret]. intros self P1 Hs1. case_decide.
  - eapply (triple_bind _ _ _ (λ x P', x = None ∧ P' = P1)).
    { eapply triple_bind; [by apply (triple_try_alloc _ (λ _ P', P' = P1))|]. intros ? ? ->. by apply triple_ret. }
    intros ? ? [-> ->]. eapply free_bind; [exact Hs1|]. intros P2 Hs2. by apply triple_ret.
  - eapply malloc_bind; [exact Hs1| |].
    + intros entries P2 Hs2. by apply triple_ret.
    + intros P2 Hs2. eapply free_bind; [exact Hs2|]. intros P3 Hs3. by apply triple_ret.
Qed.

Lemma engine_creates k p : creates (erasure_coding_engine_create k p).
Proof.
  intros rest P Hsep. unfold erasure_coding_engine_create. case_decide; [by apply triple_ret|].
  apply (malloc_bind _ _ rest); [done| |by intros; apply triple_ret]. intros self P1 Hs1.
  eapply malloc_bind; [exact Hs1| |].
  - intros matrix P2 Hs2. by apply triple_ret.
  - intros P2 Hs2. eapply free_bind; [exact Hs2|]. intros P3 Hs3. by apply triple_ret.
Qed.
End create.

(** ** The gateway *)

#[export] Instance gateway_resource : Resource gateway_ptr := {|
  owns g := concat (owned <$> gp_engines g) ++ (match gp_manifests g with Some l => [{[l := BatchBlock]}] | None => [] end) ++
    owns (gp_cache g) ++ owns (gp_router g) ++ owns (gp_placement g) ++ [{[gp_self g := GatewayBlock]}];
  destroy := gateway_destroy
|}.

(** Shows the destructors of the parts as what the interface promises. *)
Ltac show_destroy :=
  change manifest_cache_destroy with (destroy (T := cache_ptr)) in *;
  change fragment_router_destroy with (destroy (T := router_ptr)) in *;
  change placement_engine_destroy with (destroy (T := placement_ptr)) in *.

Lemma destroy_engines_triple engines : ∀ rest P, sep (concat (owned <$> engines) ++ rest) P →
  triple P (destroy_engines engines) (λ _ P', sep rest P').
Proof.
  induction engines as [|e engines IH]; intros rest P Hsep; cbn [destroy_engines]; [by apply triple_ret|].
  cbn in Hsep. rewrite <-(assoc_L (++)) in Hsep. eapply (triple_bind _ _ _ (λ _ P', sep (concat (owned <$> engines) ++ rest) P')).
  - destruct e as [e|]; [exact (destroy_frees e _ _ Hsep)|by apply triple_ret].
  - intros ? P' Hs. by apply IH.
Qed.

#[export] Instance gateway_laws : ResourceLaws gateway_ptr.
Proof.
  split; [|intros P; by apply triple_ret]. intros g rest P Hsep. cbn -[concat owned] in Hsep. change (destroy (Some g)) with (gateway_destroy (Some g)).
  unfold gateway_destroy. show_destroy.
  rewrite <-(assoc_L (++)) in Hsep. eapply triple_bind; [by apply destroy_engines_triple|].
  intros ? P1 Hs1. cbv beta in Hs1.
  eapply (triple_bind _ _ _ (λ _ P', sep (owns (gp_cache g) ++ owns (gp_router g) ++ owns (gp_placement g) ++ {[gp_self g := GatewayBlock]} :: rest) P')).
  { destruct (gp_manifests g); [exact (triple_sep_free _ _ _ _ Hs1)|by apply triple_free_null]. }
  intros ? P2 Hs2. cbv beta in Hs2. eapply (destroy_bind (gp_cache g)); [exact Hs2|]. intros P3 Hs3.
  eapply (destroy_bind (gp_router g)); [exact Hs3|]. intros P4 Hs4.
  eapply (destroy_bind (gp_placement g)); [exact Hs4|]. intros P5 Hs5. exact (triple_sep_free _ _ _ _ Hs5).
Qed.

Section gateway.
Context {O : AllocOracle}.
Implicit Types (P : gmap nat block) (rest : list (gmap nat block)).

(** An engine that may be missing. *)
Lemma engine_bind {U} k p (f : option engine_ptr → M block U) rest P (Q : U → gmap nat block → Prop) :
  sep rest P → (∀ e P', sep (owned e ++ rest) P' → triple P' (f e) Q) → triple P (erasure_coding_engine_create k p ≫= f) Q.
Proof. intros Hsep Hf. eapply triple_bind; [by apply engine_creates|]. intros e P'. apply Hf. Qed.

(** The pieces of a gateway in the order in which they were made. *)
Lemma gateway_pieces self placement router cache e0 e1 e2 e3 manifests rest P :
  sep (match manifests with Some l => [{[l := BatchBlock]}] | None => [] end ++ owned e3 ++ owned e2 ++ owned e1 ++ owned e0 ++
    owns cache ++ owns router ++ owns placement ++ {[self := GatewayBlock]} :: rest) P →
  sep (owned (Some (GatewayPtr self placement router cache [e0; e1; e2; e3] manifests)) ++ rest) P.
Proof.
  intros Hsep. assert (∀ b l : list (gmap nat block), b ++ owned e3 ++ owned e2 ++ owned e1 ++ owned e0 ++ l ≡ₚ
    (owned e0 ++ owned e1 ++ owned e2 ++ owned e3 ++ []) ++ b ++ l) as Hperm by (intros b l; rewrite app_nil_r; solve_app_perm).
  rewrite Hperm in Hsep. match goal with |- sep (owned (Some ?g) ++ _) _ => change (owned (Some g)) with (owns g) end.
  cbn -[owned] in *. by rewrite <-!(assoc_L (++)) in *.
Qed.

Lemma gateway_creates config discovery etcd : creates (gateway_create config discovery etcd).
Proof.
  intros rest P Hsep. unfold gateway_create. show_destroy. destruct config as [config|]; [|by apply triple_ret].
  destruct (negb _); [by apply triple_ret|].
  apply (malloc_bind _ _ rest); [done| |by intros; apply triple_ret]. intros self P1 Hs1.
  eapply create_bind; [apply placement_creates|exact Hs1| |].
  2: { intros P2 Hs2. eapply free_bind; [exact Hs2|]. intros P3 Hs3. by apply triple_ret. }
  intros placement P2 Hs2. eapply create_bind; [apply router_creates|exact Hs2| |].
  2: { intros P3 Hs3. eapply (destroy_bind placement); [exact Hs3|]. intros P4 Hs4.
       eapply free_bind; [exact Hs4|]. intros P5 Hs5. by apply triple_ret. }
  intros router P3 Hs3. eapply create_bind; [apply cache_creates|exact Hs3| |].
  2: { intros P4 Hs4. eapply (destroy_bind router); [exact Hs4|]. intros P5 Hs5.
       eapply (destroy_bind placement); [exact Hs5|]. intros P6 Hs6.
       eapply free_bind; [exact Hs6|]. intros P7 Hs7. by apply triple_ret. }
  intros cache P4 Hs4.
  eapply engine_bind; [exact Hs4|]. intros e0 P5 Hs5. eapply engine_bind; [exact Hs5|]. intros e1 P6 Hs6.
  eapply engine_bind; [exact Hs6|]. intros e2 P7 Hs7. eapply engine_bind; [exact Hs7|]. intros e3 P8 Hs8.
  eapply malloc_bind; [exact Hs8| |]; intros; apply triple_ret.
  - by apply (gateway_pieces _ _ _ _ _ _ _ _ (Some _)).
  - by apply (gateway_pieces _ _ _ _ _ _ _ _ None).
Qed.
End gateway.

(** ** The two models of the constructors *)

Section alike.
Context {O : AllocOracle}.

(** From the same place in the allocator's answers, two computations that return give related
    results and leave the allocator at the same place. *)
Definition alike {A B T U} (m1 : M A T) (m2 : M B U) (R : T → U → Prop) : Prop := ∀ h1 h2 x h1' y h2',
  mem_next h1 = mem_next h2 → m1 h1 = Some (x, h1') → m2 h2 = Some (y, h2') → R x y ∧ mem_next h1' = mem_next h2'.

Lemma alike_ret {A B T U} (x : T) (y : U) (R : T → U → Prop) : R x y → alike (A := A) (B := B) (mret x) (mret y) R.
Proof. intros HR h1 h2 ? ? ? ? Hn [= <- <-] [= <- <-]. done. Qed.

Lemma alike_bind {A B T U T' U'} (m1 : M A T) (m2 : M B U) (k1 : T → M A T') (k2 : U → M B U') I (R : T' → U' → Prop) :
  alike m1 m2 I → (∀ x y, I x y → alike (k1 x) (k2 y) R) → alike (m1 ≫= k1) (m2 ≫= k2) R.
Proof.
  intros Hm Hk h1 h2 x h1' y h2' Hn H1 H2. unfold mbind, M_bind in H1, H2.
  destruct (m1 h1) as [[a g1]|] eqn:E1; [|done]. destruct (m2 h2) as [[b g2]|] eqn:E2; [|done].
  destruct (Hm _ _ _ _ _ _ Hn E1 E2) as [HI Hg]. by eapply Hk.
Qed.

(** Only whether the block is there. *)
Definition present {T U} (r : option T) (v : option U) : Prop :=
  match r, v with Some _, Some _ | None, None => True | _, _ => False end.

Lemma alike_malloc {A B} (a : A) : alike (B := B) (malloc a) try_alloc (λ p ok, ok = bool_decide (is_Some p)).
Proof.
  intros h1 h2 p h1' ok h2' Hn H1 [= <- <-]. unfold malloc in H1. rewrite <-Hn.
  destruct (alloc_ok _); injection H1 as <- <-; split; (done || simpl; congruence).
Qed.

(** Frees do not ask the allocator. *)
Lemma alike_quiet {A B S T U} (f : M A S) (m1 : M A T) (m2 : M B U) (R : T → U → Prop) :
  (∀ h s h', f h = Some (s, h') → mem_next h' = mem_next h) → alike m1 m2 R → alike (_ ← f; m1) m2 R.
Proof.
  intros Hf Hm h1 h2 x h1' y h2' Hn H1 H2. unfold mbind, M_bind in H1. destruct (f h1) as [[s g1]|] eqn:E; [|done].
  apply Hf in E. eapply Hm; [|done..]. by rewrite E.
Qed.

Lemma mfree_quiet {A} p (h : mem A) s h' : mfree p h = Some (s, h') → mem_next h' = mem_next h.
Proof. unfold mfree. intros H. repeat case_match; by simplify_eq. Qed.

Lemma placement_alike {B} d : alike (B := B) (placement_engine_create d) (Placement.placement_engine_create d) present.
Proof.
  unfold placement_engine_create, Placement.placement_engine_create. destruct d; [|by apply alike_ret].
  eapply alike_bind; [apply alike_malloc|]. intros [l|] ? ->; by apply alike_ret.
Qed.

Lemma router_alike {B} d : alike (B := B) (fragment_router_create d) (Placement.fragment_router_create d) present.
Proof.
  unfold fragment_router_create, Placement.fragment_router_create. destruct d; [|by apply alike_ret].
  eapply alike_bind; [apply alike_malloc|]. intros [l|] ? ->; by apply alike_ret.
Qed.

Lemma cache_alike {B} n : alike (B := B) (manifest_cache_create n) (ManifestCache.manifest_cache_create n) present.
Proof.
  unfold manifest_cache_create, ManifestCache.manifest_cache_create.
  eapply alike_bind; [apply alike_malloc|]. intros [l|] ? ->; [|by apply alike_ret]. simpl.
  eapply (alike_bind _ _ _ _ (λ p ok, is_Some p ↔ ok = true ∧ (0 ≤ n)%Z)).
  - case_decide as Hn.
    + intros h1 h2 x h1' y h2' Hnext [= <- <-] [= <- <-]. split; [|simpl; congruence].
      split; [by intros []|lia].
    + intros h1 h2 x h1' y h2' Hnext H1 H2. destruct (alike_malloc _ _ _ _ _ _ _ Hnext H1 H2) as [-> ?].
      split; [|done]. rewrite bool_decide_eq_true. split; [split; [done|lia]|by intros []].
  - intros [e|] ok Hok.
    + rewrite decide_False; [by apply alike_ret|]. destruct Hok as [Hok _]. destruct (Hok ltac:(by eexists)) as [-> ?]. intros [?|?]; [done|lia].
    + rewrite decide_True; [apply alike_quiet; [apply mfree_quiet|by apply alike_ret]|].
      destruct ok; [|by left]. right. destruct (decide (n < 0)%Z); [done|]. destruct Hok as [_ Hok]. destruct (Hok ltac:(split; [done|lia])) as [? [=]].
Qed.

Lemma engine_alike k p : alike (erasure_coding_engine_create k p) (ErasureCoding.erasure_coding_engine_create k p) present.
Proof.
  unfold erasure_coding_engine_create, ErasureCoding.erasure_coding_engine_create. case_decide; [by apply alike_ret|].
  eapply alike_bind; [apply alike_malloc|]. intros [l|] ? ->; [|by apply alike_ret]. simpl.
  eapply alike_bind; [apply alike_malloc|]. intros [l'|] ? ->; simpl; [by apply alike_ret|].
  apply alike_quiet; [apply mfree_quiet|by apply alike_ret].
Qed.

(** A gateway as blocks and as a value have the same parts. *)
Definition same_parts (p : gateway_ptr) (g : gateway) : Prop :=
  Forall2 present (gp_engines p) (gw_engines g) ∧ present (gp_manifests p) (mb_manifests (gw_meta_batch g)).

Lemma gateway_alike config d e :
  alike (gateway_create config d e) (Gateway.gateway_create config d e) (option_Forall2 same_parts).
Proof.
  unfold gateway_create, Gateway.gateway_create. destruct config as [config|]; [|apply alike_ret; constructor].
  destruct (negb _); [apply alike_ret; constructor|].
  eapply alike_bind; [apply alike_malloc|]. intros [self|] ? ->; [|apply alike_ret; constructor].
  eapply alike_bind; [apply placement_alike|]. intros [pl|] [v|] Hp; [|done..|].
  2: { apply alike_quiet; [apply mfree_quiet|apply alike_ret; constructor]. }
  eapply alike_bind; [apply router_alike|]. intros [ro|] [v'|] Hr; [|done..|].
  2: { repeat (apply alike_quiet; [apply mfree_quiet|]). apply alike_ret; constructor. }
  eapply alike_bind; [apply cache_alike|]. intros [ca|] [v''|] Hc; [|done..|].
  2: { repeat (apply alike_quiet; [apply mfree_quiet|]). apply alike_ret; constructor. }
  do 4 (eapply alike_bind; [apply engine_alike|]; intros ? ? ?).
  eapply alike_bind; [apply alike_malloc|]. intros m ? ->. apply alike_ret. constructor. split; [by repeat constructor|].
  by destruct m.
Qed.
End alike.

(** C24. Whichever allocations fail, [gateway_create] either returns NULL and has given every
    block back, or returns a gateway that owns all that was allocated, which
    [gateway_destroy] gives back, parts that are missing included; and it returns a gateway
    exactly when the value model of [Gateway.v] does, with the same engines and the same
    batch missing. *)
Theorem gateway_life_balanced {O : AllocOracle} config discovery etcd (h : mem block) (h' : mem bytes) v h1' :
  mem_wf h → mem_next h' = mem_next h → Gateway.gateway_create config discovery etcd h' = Some (v, h1') →
  ∃ r h1, gateway_create config discovery etcd h = Some (r, h1) ∧ option_Forall2 same_parts r v ∧
    match r with
    | None => mem_cells h1 = mem_cells h
    | Some g =>
        (∃ P, sep (owns g) P ∧ mem_cells h1 = P ∪ mem_cells h ∧ P ##ₘ mem_cells h) ∧
        ∃ h2, gateway_destroy (Some g) h1 = Some (tt, h2) ∧ mem_cells h2 = mem_cells h
    end.
Proof.
  intros Hwf Hnext Hv.
  destruct (gateway_creates config discovery etcd [] ∅ eq_refl h (mem_cells h)) as (r & h1 & P & Hr & Hwf1 & Hc & Hd & Hs).
  { done. } { by rewrite (left_id_L ∅ (∪)). } { apply map_disjoint_empty_l. }
  exists r, h1. split; [done|]. split; [by eapply (gateway_alike _ _ _ h h')|].
  destruct r as [g|].
  - split; [exists P; rewrite app_nil_r in Hs; by split_and!|].
    destruct (destroy_frees g [] P Hs h1 (mem_cells h)) as ([] & h2 & P2 & Hr2 & _ & Hc2 & _ & HP2); [done..|].
    simpl in HP2. subst P2. exists h2. split; [exact Hr2|]. by rewrite Hc2, (left_id_L ∅ (∪)).
  - simpl in Hs. subst P. by rewrite Hc, (left_id_L ∅ (∪)).
Qed.

(** A machine on which the fifth allocation, the entries of the cache, fails. *)
Definition no_entries : AllocOracle := λ n, negb (n =? 4).
Definition small_gateway_config : option gateway_config := Some (GatewayConfig 1 1 80 ERASURE_CODING_6_PLUS_3 2 3).

Lemma gateway_life_balanced_witness :
  (∃ h1, gateway_create (O := no_entries) small_gateway_config true true mem_empty = Some (None, h1) ∧ mem_cells h1 = ∅) ∧
  ∃ g h1 h2, gateway_create (O := no_oom) small_gateway_config true true mem_empty = Some (Some g, h1) ∧
    size (mem_cells h1) = 14 ∧ gateway_destroy (Some g) h1 = Some (tt, h2) ∧ mem_cells h2 = ∅.
Proof.
  split.
  - destruct (Gateway.gateway_create (O := no_entries) small_gateway_config true true mem_empty) as [[v h1']|] eqn:Hv; [|done].
    destruct (gateway_life_balanced (O := no_entries) small_gateway_config true true mem_empty mem_empty v h1')
      as (r & h1 & Hr & _ & Hpost); [apply mem_wf_empty|done|exact Hv|].
    pose proof Hr as Hc. vm_compute in Hc. injection Hc as <- _. exists h1. by split.
  - destruct (Gateway.gateway_create (O := no_oom) small_gateway_config true true mem_empty) as [[v h1']|] eqn:Hv; [|done].
    destruct (gateway_life_balanced (O := no_oom) small_gateway_config true true mem_empty mem_empty v h1')
      as (r & h1 & Hr & _ & Hpost); [apply mem_wf_empty|done|exact Hv|].
    pose proof Hr as Hc. vm_compute in Hc. injection Hc as <- Hh. destruct Hpost as (_ & h2 & Hd & Hm).
    eexists. exists h1, h2. split; [exact Hr|]. split; [by rewrite <-Hh|]. by split.
Defined.
