(* ===== verification/StorageProtocol.v ===== *)
(** * The storage protocol: client side
      ([include/lightfs/storage_server/storage_server.h],
       [src/storage_client/storage_client.c])

    Opcodes, the encoders of the eight requests, the pending calls and the decoding of
    a response.  Integers travel in the byte order of the machine, which is little
    endian.  The RPC library is not in the repository: [nrpc_client_call] is a
    parameter that tells whether a call was accepted. *)
From S2P Require Import Prelude Memory.
From stdpp Require Import options.

Definition RPC_OP_CREATE : Z := 0x10.
Definition RPC_OP_DELETE : Z := 0x11.
Definition RPC_OP_WRITE : Z := 0x12.
Definition RPC_OP_READ : Z := 0x13.
Definition RPC_OP_TRUNCATE : Z := 0x14.
Definition RPC_OP_PUNCH : Z := 0x15.
Definition RPC_OP_CLONE : Z := 0x16.
Definition RPC_OP_STATFS : Z := 0x17.

Definition STORAGE_CLIENT_DEFAULT_TIMEOUT_MS : Z := 5000.

(** ** Encoders: the bytes written, or [None] for the result -1 *)

Definition encode_create_req (oid cap : Z) : option bytes :=
  if decide (cap < 8)%Z then None else Some (put_le 8 oid).

Definition encode_delete_req (oid cap : Z) : option bytes :=
  if decide (cap < 8)%Z then None else Some (put_le 8 oid).

(** The length is an [uint32_t] and wraps; [None] outside is a copy past the buffer
    or past [data]. *)
Definition encode_write_req (oid offset : Z) (data : bytes) (len cap : Z) : option (option bytes) :=
  let total := u32 (8 + 8 + 4 + len) in
  if decide (cap < total)%Z then Some None
  else if decide (cap < 20 + len ∨ Z.of_nat (length data) < len)%Z then None
  else Some (Some (put_le 8 oid ++ put_le 8 offset ++ put_le 4 len ++ take (Z.to_nat len) data)).

Definition encode_read_req (oid offset len cap : Z) : option bytes :=
  if decide (cap < 20)%Z then None else Some (put_le 8 oid ++ put_le 8 offset ++ put_le 4 len).

Definition encode_truncate_req (oid size cap : Z) : option bytes :=
  if decide (cap < 16)%Z then None else Some (put_le 8 oid ++ put_le 8 size).

Definition encode_punch_req (oid offset len cap : Z) : option bytes :=
  if decide (cap < 20)%Z then None else Some (put_le 8 oid ++ put_le 8 offset ++ put_le 4 len).

Definition encode_clone_req (src_oid dst_oid cap : Z) : option bytes :=
  if decide (cap < 16)%Z then None else Some (put_le 8 src_oid ++ put_le 8 dst_oid).

(** ** Pending calls *)

(** A callback is a function pointer with its context; only their identities matter. *)
Inductive client_callback :=
  | CLIENT_CALL_SIMPLE (simple : nat)
  | CLIENT_CALL_READ (read : nat)
  | CLIENT_CALL_STATFS (statfs : nat).

Record storage_pending_call := PendingCall {
  pc_callback : client_callback;
  pc_user_ctx : nat
}.

(** [rpc_client] is the library's handle. *)
Record storage_client := StorageClient {
  sc_endpoint_idx : Z;
  sc_is_connected : bool;
  sc_host : bytes;
  sc_port : Z
}.

(** What is handed to [nrpc_client_call]; [rq_pending] is the context its response
    callback gets back. *)
Record rpc_request := RpcRequest {
  rq_endpoint : Z;
  rq_opcode : Z;
  rq_body : bytes;
  rq_timeout_ms : Z;
  rq_pending : nat
}.

Section client.
Context {O : AllocOracle}.
(** The library's answer to a call: negative when it was not sent. *)
Context (nrpc_client_call : rpc_request → Z).
Local Open Scope Z_scope.

Definition client_ready_cb (c : storage_client) (endpoint_index : Z) : storage_client :=
  StorageClient (sc_endpoint_idx c) true (sc_host c) (sc_port c).

(** The result and the request that reached the library, if one did. *)
Definition do_rpc_call (c : storage_client) (opcode : Z) (body : bytes) (pcall : nat)
    : Z * option rpc_request :=
  if negb (sc_is_connected c) then (- ENOTCONN, None)
  else let rq := RpcRequest (sc_endpoint_idx c) opcode body STORAGE_CLIENT_DEFAULT_TIMEOUT_MS pcall in
       (nrpc_client_call rq, Some rq).

(** [calloc] of a pending call, written through without a check. *)
Definition new_pending (cb : client_callback) (ctx : nat) : M storage_pending_call nat :=
  p ← malloc (PendingCall cb ctx);
  match p with Some p => mret p | None => undefined end.

(** The body of a request whose encoder cannot fail at its buffer size. *)
Definition call_encoded (c : storage_client) (opcode : Z) (body : option bytes) (pcall : nat)
    : M storage_pending_call (Z * option rpc_request) :=
  match body with Some body => mret (do_rpc_call c opcode body pcall) | None => undefined end.

Definition storage_client_create_obj (c : storage_client) (oid : Z) (cb ctx : nat)
    : M storage_pending_call (Z * option rpc_request) :=
  pcall ← new_pending (CLIENT_CALL_SIMPLE cb) ctx;
  call_encoded c RPC_OP_CREATE (encode_create_req oid 8) pcall.

Definition storage_client_delete_obj (c : storage_client) (oid : Z) (cb ctx : nat)
    : M storage_pending_call (Z * option rpc_request) :=
  pcall ← new_pending (CLIENT_CALL_SIMPLE cb) ctx;
  call_encoded c RPC_OP_DELETE (encode_delete_req oid 8) pcall.

Definition storage_client_write (c : storage_client) (oid offset : Z) (data : bytes) (len : Z)
    (cb ctx : nat) : M storage_pending_call (Z * option rpc_request) :=
  pcall ← new_pending (CLIENT_CALL_SIMPLE cb) ctx;
  let max_data := 2 ^ 20 - 20 in
  if decide (len > max_data) then _ ← mfree (Some pcall); mret (- EINVAL, None) else
  ok ← try_alloc;
  if negb ok then _ ← mfree (Some pcall); mret (- ENOMEM, None) else
  match encode_write_req oid offset data len (u32 (20 + len)) with
  | Some body => call_encoded c RPC_OP_WRITE body pcall
  | None => undefined
  end.

Definition storage_client_read (c : storage_client) (oid offset len : Z) (cb ctx : nat)
    : M storage_pending_call (Z * option rpc_request) :=
  pcall ← new_pending (CLIENT_CALL_READ cb) ctx;
  call_encoded c RPC_OP_READ (encode_read_req oid offset len 20) pcall.

Definition storage_client_truncate (c : storage_client) (oid size : Z) (cb ctx : nat)
    : M storage_pending_call (Z * option rpc_request) :=
  pcall ← new_pending (CLIENT_CALL_SIMPLE cb) ctx;
  call_encoded c RPC_OP_TRUNCATE (encode_truncate_req oid size 16) pcall.

Definition storage_client_punch (c : storage_client) (oid offset len : Z) (cb ctx : nat)
    : M storage_pending_call (Z * option rpc_request) :=
  pcall ← new_pending (CLIENT_CALL_SIMPLE cb) ctx;
  call_encoded c RPC_OP_PUNCH (encode_punch_req oid offset len 20) pcall.

Definition storage_client_clone (c : storage_client) (src_oid dst_oid : Z) (cb ctx : nat)
    : M storage_pending_call (Z * option rpc_request) :=
  pcall ← new_pending (CLIENT_CALL_SIMPLE cb) ctx;
  call_encoded c RPC_OP_CLONE (encode_clone_req src_oid dst_oid 16) pcall.

Definition storage_client_statfs (c : storage_client) (cb ctx : nat)
    : M storage_pending_call (Z * option rpc_request) :=
  pcall ← new_pending (CLIENT_CALL_STATFS cb) ctx;
  mret (do_rpc_call c RPC_OP_STATFS [] pcall).
End client.

(** ** Responses *)

(** The call of a user callback: the function, its context and its arguments. The
    data of a read is a pointer into the response body, [None] for NULL, with a
    length of its own. *)
Inductive client_event :=
  | SimpleDone (cb ctx : nat) (result : Z)
  | ReadDone (cb ctx : nat) (result : Z) (data : option bytes) (len : Z)
  | StatfsDone (cb ctx : nat) (result total used : Z).

(** The callback of a call that failed on the way. *)
Definition transport_failed (IO_ERROR : Z) (p : storage_pending_call) : client_event :=
  match pc_callback p with
  | CLIENT_CALL_SIMPLE cb => SimpleDone cb (pc_user_ctx p) IO_ERROR
  | CLIENT_CALL_READ cb => ReadDone cb (pc_user_ctx p) IO_ERROR None 0
  | CLIENT_CALL_STATFS cb => StatfsDone cb (pc_user_ctx p) IO_ERROR 0 0
  end.

(** The callback of a call that was answered with a body of at least 4 bytes. *)
Definition response_event (p : storage_pending_call) (body : bytes) : client_event :=
  let io_status := get_le 4 body in
  match pc_callback p with
  | CLIENT_CALL_SIMPLE cb => SimpleDone cb (pc_user_ctx p) io_status
  | CLIENT_CALL_READ cb =>
      if decide (8 ≤ length body)
      then ReadDone cb (pc_user_ctx p) io_status (Some (drop 8 body)) (get_le 4 (drop 4 body))
      else ReadDone cb (pc_user_ctx p) io_status None 0
  | CLIENT_CALL_STATFS cb =>
      if decide (20 ≤ length body)
      then StatfsDone cb (pc_user_ctx p) io_status (get_le 8 (drop 4 body)) (get_le 8 (drop 12 body))
      else StatfsDone cb (pc_user_ctx p) io_status 0 0
  end.

(** [body] has [body_len] bytes; the transport status argument is not read. *)
Definition client_response_cb (IO_ERROR : Z) (pcall : nat) (body : bytes) (transport_err : Z)
    : M storage_pending_call client_event :=
  p ← mload pcall;
  let event :=
    if decide (transport_err ≠ 0%Z) then transport_failed IO_ERROR p
    else if decide (length body < 4) then transport_failed IO_ERROR p
    else response_event p body in
  _ ← mfree (Some pcall);
  mret event.

(** A read callback may only look at the bytes the response holds. *)
Definition event_in_bounds (e : client_event) : Prop :=
  match e with
  | ReadDone _ _ _ (Some data) len => (len ≤ Z.of_nat (length data))%Z
  | ReadDone _ _ _ None len => len = 0%Z
  | _ => True
  end.
