(* ===== verification/StorageServer.v ===== *)
(** * The storage server's request handlers
      ([src/storage_server/rpc_handler.c], [src/storage_server/callback_bridge.c])

    A handler decodes a request, allocates a context and submits the operation to the
    storage engine; the engine's completion goes through [bridge_callback] to the RPC
    thread, where [send_deferred_reply] answers.  The engine and the RPC library are
    not in the repository: their constants are the fields of [StorageEnv], and what
    they answer is an argument of the definition that asks. *)
From S2P Require Import Prelude Memory StorageProtocol.
From stdpp Require Import options.

(** Constants of [io_types.h] and [frame.h]. *)
Class StorageEnv := {
  IO_SUCCESS : Z;
  IO_ERROR : Z;
  NRPC_STATUS_OK : Z;
  NRPC_STATUS_BAD_OPCODE : Z;
  NRPC_STATUS_INTERNAL : Z;
  NRPC_HANDLER_DEFERRED : Z
}.

(** What is asked of the engine; a read names the block its data goes to. *)
Inductive obj_request :=
  | ObjCreate (oid : Z)
  | ObjDelete (oid : Z)
  | ObjWrite (oid offset len : Z) (data : bytes)
  | ObjRead (oid offset len : Z) (buf : nat)
  | ObjTruncate (oid size : Z)
  | ObjPunch (oid offset len : Z)
  | ObjClone (src_oid dst_oid : Z).

(** The server and thread handles are those of the one server. *)
Record bridge_ctx := BridgeCtx {
  bc_request_id : Z;
  bc_opcode : Z;
  bc_extra_data : option nat;
  bc_extra_len : Z
}.

Record reply_msg := ReplyMsg {
  rm_request_id : Z;
  rm_result : Z;
  rm_opcode : Z;
  rm_extra_data : option nat;
  rm_extra_len : Z
}.

(** STATFS: the aggregator and the context of one shard. *)
Record statfs_aggregator := Aggregator {
  ag_request_id : Z;
  ag_remaining : Z;
  ag_total_size : Z;
  ag_used_size : Z;
  ag_error_count : Z
}.

Record statfs_shard_ctx := ShardCtx {
  sx_agg : nat;
  sx_shard : nat
}.

(** The blocks of the server's heap. *)
Inductive cell :=
  | CBridge (b : bridge_ctx)
  | CReply (m : reply_msg)
  | CBytes (b : bytes)
  | CAgg (a : statfs_aggregator)
  | CShard (s : option statfs_shard_ctx).

(** A handler's return value, what it stored through [out_status] and as the response
    body, and what it handed to the engine, with the callback's context. *)
Record handled := Handled {
  hd_rc : Z;
  hd_status : option Z;
  hd_body : option bytes;
  hd_submitted : option (obj_request * nat)
}.

Section handlers.
Context {E : StorageEnv} {O : AllocOracle}.
(** [nrpc_server_get_request_id], and the engine's answer to a submission. *)
Context (request_id : Z) (obj_submit : obj_request → Z).

(** A pointer to a block of another kind does not occur in the source. *)
Definition load_bridge (p : nat) : M cell bridge_ctx :=
  c ← mload p; match c with CBridge b => mret b | _ => undefined end.
Definition load_reply (p : nat) : M cell reply_msg :=
  c ← mload p; match c with CReply m => mret m | _ => undefined end.
Definition load_bytes (p : nat) : M cell bytes :=
  c ← mload p; match c with CBytes b => mret b | _ => undefined end.

Definition make_bridge_ctx (opcode : Z) (extra_data : option nat) (extra_len : Z)
    : M cell (option nat) :=
  malloc (CBridge (BridgeCtx request_id opcode extra_data extra_len)).

Definition encode_simple_error (result : Z) : handled :=
  Handled 0 (Some NRPC_STATUS_OK) (Some (put_le 4 (u32 result))) None.

(** The answers of a handler that does not reach the engine. *)
Definition bad_request : handled := Handled 0 (Some NRPC_STATUS_BAD_OPCODE) (Some []) None.
Definition internal_error : handled := Handled 0 (Some NRPC_STATUS_INTERNAL) (Some []) None.

(** The common end of the handlers: allocate the context, submit, and free what was
    allocated when the submission is refused. *)
Definition submit (opcode : Z) (rq : obj_request) : M cell handled :=
  bctx ← make_bridge_ctx opcode None 0;
  match bctx with
  | None => mret internal_error
  | Some b =>
      let rc := obj_submit rq in
      if decide (rc ≠ IO_SUCCESS) then
        _ ← mfree (Some b);
        mret (encode_simple_error rc)
      else mret (Handled NRPC_HANDLER_DEFERRED None None (Some (rq, b)))
  end.

Definition rpc_handler_create (req : bytes) : M cell handled :=
  if decide (length req < 8) then mret bad_request else
  let oid := get_le 8 req in
  submit RPC_OP_CREATE (ObjCreate oid).

Definition rpc_handler_delete (req : bytes) : M cell handled :=
  if decide (length req < 8) then mret bad_request else
  let oid := get_le 8 req in
  submit RPC_OP_DELETE (ObjDelete oid).

Definition rpc_handler_write (req : bytes) : M cell handled :=
  if decide (length req < 20) then mret bad_request else
  let oid := get_le 8 req in
  let offset := get_le 8 (drop 8 req) in
  let len := get_le 4 (drop 16 req) in
  if decide (len + 20 ≠ Z.of_nat (length req))%Z then mret bad_request else
  submit RPC_OP_WRITE (ObjWrite oid offset len (drop 20 req)).

Definition rpc_handler_read (req : bytes) : M cell handled :=
  if decide (length req < 20) then mret bad_request else
  let oid := get_le 8 req in
  let offset := get_le 8 (drop 8 req) in
  let len := get_le 4 (drop 16 req) in
  read_buf ← malloc (CBytes (replicate (Z.to_nat len) NUL));
  match read_buf with
  | None => mret internal_error
  | Some buf =>
      bctx ← make_bridge_ctx RPC_OP_READ (Some buf) len;
      match bctx with
      | None => _ ← mfree (Some buf); mret internal_error
      | Some b =>
          let rc := obj_submit (ObjRead oid offset len buf) in
          if decide (rc ≠ IO_SUCCESS) then
            _ ← mfree (Some buf);
            _ ← mfree (Some b);
            mret (encode_simple_error rc)
          else mret (Handled NRPC_HANDLER_DEFERRED None None (Some (ObjRead oid offset len buf, b)))
      end
  end.

Definition rpc_handler_truncate (req : bytes) : M cell handled :=
  if decide (length req < 16) then mret bad_request else
  let oid := get_le 8 req in
  let size := get_le 8 (drop 8 req) in
  submit RPC_OP_TRUNCATE (ObjTruncate oid size).

Definition rpc_handler_punch (req : bytes) : M cell handled :=
  if decide (length req < 20) then mret bad_request else
  let oid := get_le 8 req in
  let offset := get_le 8 (drop 8 req) in
  let len := get_le 4 (drop 16 req) in
  submit RPC_OP_PUNCH (ObjPunch oid offset len).

Definition rpc_handler_clone (req : bytes) : M cell handled :=
  if decide (length req < 16) then mret bad_request else
  let src_oid := get_le 8 req in
  let dst_oid := get_le 8 (drop 8 req) in
  submit RPC_OP_CLONE (ObjClone src_oid dst_oid).

(** The completion of an operation: the address of the message queued for the RPC
    thread. Without memory for it the context is freed and nothing is queued. *)
Definition bridge_callback (user_ctx : nat) (result : Z) : M cell (option nat) :=
  b ← load_bridge user_ctx;
  msg ← malloc (CReply (ReplyMsg (bc_request_id b) result (bc_opcode b)
                          (bc_extra_data b) (bc_extra_len b)));
  match msg with
  | None =>
      _ ← mfree (bc_extra_data b);
      _ ← mfree (Some user_ctx);
      mret None
  | Some m => _ ← mfree (Some user_ctx); mret (Some m)
  end.

(** The size of the reply buffer, in [uint32_t] arithmetic. *)
Definition reply_capacity (m : reply_msg) : Z :=
  if decide (rm_opcode m = RPC_OP_READ) then u32 (8 + rm_extra_len m)
  else if decide (rm_opcode m = RPC_OP_STATFS) then 20
  else 4.

(** The bytes written to the reply buffer; [extra] is what [extra_data] points to. *)
Definition reply_body (m : reply_msg) (extra : option bytes) : bytes :=
  let status_be := put_le 4 (u32 (rm_result m)) in
  if decide (rm_opcode m = RPC_OP_READ) then
    match extra with
    | Some data =>
        if decide (rm_result m = IO_SUCCESS ∧ (0 < rm_extra_len m)%Z)
        then status_be ++ put_le 4 (rm_extra_len m) ++ take (Z.to_nat (rm_extra_len m)) data
        else status_be ++ put_le 4 0
    | None => status_be ++ put_le 4 0
    end
  else if decide (rm_opcode m = RPC_OP_STATFS) then
    match extra with
    | Some data => if decide (16 ≤ rm_extra_len m)%Z then status_be ++ take 16 data
                   else status_be ++ replicate 16 NUL
    | None => status_be ++ replicate 16 NUL
    end
  else status_be.

Definition load_extra (p : option nat) : M cell (option bytes) :=
  match p with None => mret None | Some p => b ← load_bytes p; mret (Some b) end.

(** What the RPC thread did with a message: the response handed to
    [nrpc_server_send_response], whose result is [send_rc], and whether the message
    was queued again. Writing past the reply buffer is undefined. *)
Definition send_deferred_reply (msg : nat) (send_rc : Z)
    : M cell (option (Z * Z * bytes) * bool) :=
  m ← load_reply msg;
  ok ← try_alloc;
  if negb ok then
    _ ← mfree (rm_extra_data m);
    _ ← mfree (Some msg);
    mret (None, false)
  else
    extra ← load_extra (rm_extra_data m);
    let body := reply_body m extra in
    if decide (reply_capacity m < Z.of_nat (length body))%Z then undefined else
    let response := Some (rm_request_id m, NRPC_STATUS_OK, body) in
    if decide (send_rc = - EBUSY)%Z then mret (response, true)
    else
      _ ← mfree (rm_extra_data m);
      _ ← mfree (Some msg);
      mret (response, false).

(** The handler registered for an opcode, STATFS apart. *)
Definition rpc_dispatch (opcode : Z) (req : bytes) : M cell (option handled) :=
  let some h := res ← h; mret (Some res) in
  if decide (opcode = RPC_OP_CREATE) then some (rpc_handler_create req)
  else if decide (opcode = RPC_OP_DELETE) then some (rpc_handler_delete req)
  else if decide (opcode = RPC_OP_WRITE) then some (rpc_handler_write req)
  else if decide (opcode = RPC_OP_READ) then some (rpc_handler_read req)
  else if decide (opcode = RPC_OP_TRUNCATE) then some (rpc_handler_truncate req)
  else if decide (opcode = RPC_OP_PUNCH) then some (rpc_handler_punch req)
  else if decide (opcode = RPC_OP_CLONE) then some (rpc_handler_clone req)
  else mret None.
End handlers.

(** ** Requests *)

(** The operations of the client's interface, STATFS apart. *)
Inductive client_op :=
  | OpCreate (oid : Z)
  | OpDelete (oid : Z)
  | OpWrite (oid offset : Z) (data : bytes)
  | OpRead (oid offset len : Z)
  | OpTruncate (oid size : Z)
  | OpPunch (oid offset len : Z)
  | OpClone (src_oid dst_oid : Z).

Section client_ops.
Context {O : AllocOracle} (nrpc_client_call : rpc_request → Z).

Definition client_call (c : storage_client) (op : client_op) (cb ctx : nat)
    : M storage_pending_call (Z * option rpc_request) :=
  match op with
  | OpCreate oid => storage_client_create_obj nrpc_client_call c oid cb ctx
  | OpDelete oid => storage_client_delete_obj nrpc_client_call c oid cb ctx
  | OpWrite oid offset data =>
      storage_client_write nrpc_client_call c oid offset data (Z.of_nat (length data)) cb ctx
  | OpRead oid offset len => storage_client_read nrpc_client_call c oid offset len cb ctx
  | OpTruncate oid size => storage_client_truncate nrpc_client_call c oid size cb ctx
  | OpPunch oid offset len => storage_client_punch nrpc_client_call c oid offset len cb ctx
  | OpClone src dst => storage_client_clone nrpc_client_call c src dst cb ctx
  end.
End client_ops.

(** The request an operation is, with [buf] the server's read buffer. *)
Definition op_request (op : client_op) (buf : nat) : obj_request :=
  match op with
  | OpCreate oid => ObjCreate oid
  | OpDelete oid => ObjDelete oid
  | OpWrite oid offset data => ObjWrite oid offset (Z.of_nat (length data)) data
  | OpRead oid offset len => ObjRead oid offset len buf
  | OpTruncate oid size => ObjTruncate oid size
  | OpPunch oid offset len => ObjPunch oid offset len
  | OpClone src dst => ObjClone src dst
  end.

(** Arguments of their C types, and no more data than the client sends at once. *)
Definition op_typed (op : client_op) : Prop :=
  match op with
  | OpCreate oid | OpDelete oid => fits 64 oid
  | OpWrite oid offset data =>
      fits 64 oid ∧ fits 64 offset ∧ (Z.of_nat (length data) ≤ 2 ^ 20 - 20)%Z
  | OpRead oid offset len | OpPunch oid offset len => fits 64 oid ∧ fits 64 offset ∧ fits 32 len
  | OpTruncate oid size => fits 64 oid ∧ fits 64 size
  | OpClone src dst => fits 64 src ∧ fits 64 dst
  end.

Definition op_opcode (op : client_op) : Z :=
  match op with
  | OpCreate _ => RPC_OP_CREATE
  | OpDelete _ => RPC_OP_DELETE
  | OpWrite _ _ _ => RPC_OP_WRITE
  | OpRead _ _ _ => RPC_OP_READ
  | OpTruncate _ _ => RPC_OP_TRUNCATE
  | OpPunch _ _ _ => RPC_OP_PUNCH
  | OpClone _ _ => RPC_OP_CLONE
  end.

Definition op_body (op : client_op) : bytes :=
  match op with
  | OpCreate oid | OpDelete oid => put_le 8 oid
  | OpWrite oid offset data => put_le 8 oid ++ put_le 8 offset ++ put_le 4 (Z.of_nat (length data)) ++ data
  | OpRead oid offset len | OpPunch oid offset len => put_le 8 oid ++ put_le 8 offset ++ put_le 4 len
  | OpTruncate a b | OpClone a b => put_le 8 a ++ put_le 8 b
  end.

Definition op_callback (op : client_op) (cb : nat) : client_callback :=
  match op with OpRead _ _ _ => CLIENT_CALL_READ cb | _ => CLIENT_CALL_SIMPLE cb end.

Lemma client_call_sends `{O : AllocOracle} nrpc_client_call c op cb ctx h :
  (∀ n, alloc_ok n = true) → sc_is_connected c = true → op_typed op →
  let p := mem_next h in
  let rq := RpcRequest (sc_endpoint_idx c) (op_opcode op) (op_body op) STORAGE_CLIENT_DEFAULT_TIMEOUT_MS p in
  ∃ h', client_call nrpc_client_call c op cb ctx h = Some ((nrpc_client_call rq, Some rq), h') ∧
    mem_cells h' = <[p := PendingCall (op_callback op cb) ctx]> (mem_cells h).
Proof.
  intros Hok Hconn Hop p rq. destruct op as [oid|oid|oid offset data|oid offset len|oid size|oid offset len|src dst]; simpl.
  3: {
    destruct Hop as (_ & _ & Hlen). unfold storage_client_write, new_pending, malloc, try_alloc. m_simpl.
    rewrite Hok. m_simpl. rewrite decide_False by lia. rewrite Hok. m_simpl. unfold encode_write_req.
    rewrite !wrap_small by (unfold fits; lia). rewrite decide_False by lia. rewrite decide_False by lia.
    unfold call_encoded, do_rpc_call. rewrite Hconn, Nat2Z.id, take_ge by lia. by eexists. }
  all: unfold storage_client_create_obj, storage_client_delete_obj, storage_client_read, storage_client_truncate,
    storage_client_punch, storage_client_clone, new_pending, malloc, encode_create_req, encode_delete_req,
    encode_read_req, encode_truncate_req, encode_punch_req, encode_clone_req; m_simpl;
    rewrite Hok; m_simpl; unfold do_rpc_call; rewrite Hconn; by eexists.
Qed.

Section dispatch.
#[local] Set Default Proof Using "Type*".
Context {E : StorageEnv} {O : AllocOracle} (request_id : Z) (obj_submit : obj_request → Z).

(** Decoding a request body of the client gives the operation back. *)
Lemma dispatch_decodes op h :
  op_typed op → (∀ oid offset len, op ≠ OpRead oid offset len) →
  rpc_dispatch request_id obj_submit (op_opcode op) (op_body op) h =
    (res ← submit request_id obj_submit (op_opcode op) (op_request op 0); mret (Some res)) h.
Proof.
  intros Hop Hnr. destruct op as [oid|oid|oid offset data|oid offset len|oid size|oid offset len|src dst];
    simpl in Hop; unfold rpc_dispatch; simpl.
  - unfold rpc_handler_create. rewrite put_le_length. simpl. by rewrite get_put_le_end.
  - unfold rpc_handler_delete. rewrite put_le_length. simpl. by rewrite get_put_le_end.
  - destruct Hop as (H1 & H2 & H3). unfold rpc_handler_write.
    assert (fits (8 * Z.of_nat 4) (Z.of_nat (length data))) by (unfold fits; lia).
    rewrite (decide_False (P := length _ < 20)) by (rewrite !length_app, !put_le_length; lia).
    change (drop 16 ?x) with (drop (8 + 8) x). change 20 with (8 + (8 + 4)). rewrite <-!drop_drop.
    rewrite !drop_put_le, !get_put_le by done.
    rewrite decide_False; [done|]. rewrite !length_app, !put_le_length. lia.
  - by destruct (Hnr oid offset len).
  - destruct Hop as (H1 & H2). unfold rpc_handler_truncate. rewrite length_app, !put_le_length. simpl.
    rewrite drop_put_le, get_put_le by done. by rewrite get_put_le_end.
  - destruct Hop as (H1 & H2 & H3). unfold rpc_handler_punch. rewrite !length_app, !put_le_length. simpl.
    change 16 with (8 + 8). rewrite <-drop_drop, !drop_put_le, !get_put_le by done. by rewrite get_put_le_end.
  - destruct Hop as (H1 & H2). unfold rpc_handler_clone. rewrite length_app, !put_le_length. simpl.
    rewrite drop_put_le, get_put_le by done. by rewrite get_put_le_end.
Qed.

(** Where the engine's answer leads: deferred with the context allocated, or the
    error with nothing left behind. *)
Lemma submit_cases opcode rq h :
  (∀ n, alloc_ok n = true) → mem_wf h →
  ∃ res h', submit request_id obj_submit opcode rq h = Some (res, h') ∧ mem_wf h' ∧
    if decide (obj_submit rq = IO_SUCCESS)
    then res = Handled NRPC_HANDLER_DEFERRED None None (Some (rq, mem_next h)) ∧
      mem_cells h' = <[mem_next h := CBridge (BridgeCtx request_id opcode None 0)]> (mem_cells h)
    else res = encode_simple_error (obj_submit rq) ∧ mem_cells h' = mem_cells h.
Proof.
  intros Hok Hwf. unfold submit, make_bridge_ctx, malloc. m_simpl. rewrite Hok.
  destruct (decide (obj_submit rq = IO_SUCCESS)) as [Hs|Hs].
  - rewrite decide_False by auto. do 2 eexists. split; [done|]. split; [by apply mem_wf_insert|done].
  - rewrite decide_True by done. simpl. rewrite lookup_insert_eq.
    do 2 eexists. split; [done|]. split.
    + simpl. solve_wf.
    + split; [done|]. simpl. by apply delete_insert_id, mem_wf_fresh.
Qed.

(** The blocks an accepted operation leaves for its completion: the context, and the
    read buffer before it. *)
Definition op_buffer (op : client_op) (h : mem cell) : option nat :=
  match op with OpRead _ _ _ => Some (mem_next h) | _ => None end.
Definition op_extra_len (op : client_op) : Z :=
  match op with OpRead _ _ len => len | _ => 0 end.
Definition op_context (op : client_op) (h : mem cell) : nat :=
  match op with OpRead _ _ _ => S (mem_next h) | _ => mem_next h end.
Definition op_blocks (op : client_op) (h : mem cell) : gmap nat cell :=
  <[op_context op h := CBridge (BridgeCtx request_id (op_opcode op) (op_buffer op h) (op_extra_len op))]>
    match op_buffer op h with
    | Some p => <[p := CBytes (replicate (Z.to_nat (op_extra_len op)) NUL)]> (mem_cells h)
    | None => mem_cells h
    end.

Lemma handler_read_cases oid offset len h :
  (∀ n, alloc_ok n = true) → op_typed (OpRead oid offset len) → mem_wf h →
  let rq := ObjRead oid offset len (mem_next h) in
  ∃ res h', rpc_handler_read request_id obj_submit (op_body (OpRead oid offset len)) h = Some (res, h') ∧ mem_wf h' ∧
    if decide (obj_submit rq = IO_SUCCESS)
    then res = Handled NRPC_HANDLER_DEFERRED None None (Some (rq, S (mem_next h))) ∧
      mem_cells h' = op_blocks (OpRead oid offset len) h
    else res = encode_simple_error (obj_submit rq) ∧ mem_cells h' = mem_cells h.
Proof.
  intros Hok (H1 & H2 & H3) Hwf rq. unfold rpc_handler_read, op_body.
  rewrite (decide_False (P := length _ < 20)) by (rewrite !length_app, !put_le_length; lia).
  change 16 with (8 + 8). rewrite <-drop_drop, !drop_put_le, !get_put_le by done. rewrite get_put_le_end by done.
  cbn zeta. unfold make_bridge_ctx, malloc. m_simpl. rewrite Hok. m_simpl. rewrite Hok. m_simpl. fold rq.
  destruct (decide (obj_submit rq = IO_SUCCESS)) as [Hs|Hs].
  - rewrite decide_False by auto. do 2 eexists. split; [done|]. split; [solve_wf|]. split; done.
  - rewrite decide_True by done. simpl. rewrite lookup_insert_ne, lookup_insert_eq by lia. simpl.
    rewrite lookup_delete_ne, lookup_insert_eq by lia. do 2 eexists. split; [done|]. split; [|split; [done|]].
    + simpl. solve_wf.
    + simpl. rewrite (delete_insert_ne _ (mem_next h)) by lia. rewrite delete_insert_eq.
      rewrite delete_insert_eq, !delete_id; [done|by apply mem_wf_fresh|].
      apply lookup_delete_None. right. apply (mem_wf_above (mem_next h)); [by apply mem_wf_record|lia].
Qed.

Lemma dispatch_op op h :
  (∀ n, alloc_ok n = true) → op_typed op → mem_wf h →
  let rq := op_request op (mem_next h) in
  ∃ res h', rpc_dispatch request_id obj_submit (op_opcode op) (op_body op) h = Some (Some res, h') ∧ mem_wf h' ∧
    if decide (obj_submit rq = IO_SUCCESS)
    then res = Handled NRPC_HANDLER_DEFERRED None None (Some (rq, op_context op h)) ∧
      mem_cells h' = op_blocks op h
    else res = encode_simple_error (obj_submit rq) ∧ mem_cells h' = mem_cells h.
Proof.
  intros Hok Hop Hwf.
  assert ((∃ oid offset len, op = OpRead oid offset len) ∨ ∀ oid offset len, op ≠ OpRead oid offset len)
    as [(oid & offset & len & ->)|Hnr] by (destruct op; naive_solver).
  - destruct (handler_read_cases oid offset len h Hok Hop Hwf) as (res & h' & Eh & ?).
    exists res, h'. split; [|done]. unfold rpc_dispatch. simpl. by rewrite (M_bind_Some _ _ _ _ _ Eh).
  - assert (op_request op 0 = op_request op (mem_next h)) as Hrq by (destruct op; try done; by destruct (Hnr _ _ _ eq_refl)).
    rewrite <-Hrq. rewrite dispatch_decodes by done.
    destruct (submit_cases (op_opcode op) (op_request op 0) h Hok Hwf) as (res & h' & Es & Hwf' & Hcase).
    exists res, h'. rewrite (M_bind_Some _ _ _ _ _ Es). split; [done|]. split; [done|].
    assert (op_context op h = mem_next h ∧ op_blocks op h =
      <[mem_next h := CBridge (BridgeCtx request_id (op_opcode op) None 0)]> (mem_cells h)) as [-> ->]
      by (destruct op; try done; by destruct (Hnr _ _ _ eq_refl)).
    done.
Qed.
End dispatch.

(** ** Completions *)

(** The engine's part of a read: it fills the buffer before it calls back. *)
Definition engine_fill (rq : obj_request) (data : bytes) : M cell unit :=
  match rq with ObjRead _ _ _ buf => mstore buf (CBytes data) | _ => mret tt end.

Section reply.
Context {E : StorageEnv} {O : AllocOracle}.

(** The RPC thread meets [busy] sends in flight before the one that goes out. *)
Fixpoint send_with_retries (busy : nat) (msg : nat) : M cell (option (Z * Z * bytes)) :=
  match busy with
  | 0 => '(response, _) ← send_deferred_reply msg 0; mret response
  | S busy =>
      '(_, again) ← send_deferred_reply msg (- EBUSY);
      if (again : bool) then send_with_retries busy msg else mret None
  end.

(** A request from its arrival to its answer, the engine completing it with [result]
    and, for a read, [data]. *)
Definition serve (request_id opcode : Z) (req : bytes) (result : Z) (data : bytes) (busy : nat)
    : M cell (option (Z * Z * bytes)) :=
  res ← rpc_dispatch request_id (λ _, IO_SUCCESS) opcode req;
  match res with
  | Some (Handled _ _ _ (Some (rq, bctx))) =>
      _ ← engine_fill rq data;
      msg ← bridge_callback bctx result;
      match msg with Some m => send_with_retries busy m | None => mret None end
  | _ => mret None
  end.
End reply.

(** A base with the extra block of a message on top. *)
Definition with_extra (extra : option (nat * bytes)) (base : gmap nat cell) : gmap nat cell :=
  match extra with Some (p, data) => <[p := CBytes data]> base | None => base end.

(** The extra block is not one of the base's and lies below [n]. *)
Definition extra_fresh (extra : option (nat * bytes)) (base : gmap nat cell) (n : nat) : Prop :=
  match extra with Some (p, _) => base !! p = None ∧ p < n | None => True end.

Section completion.
#[local] Set Default Proof Using "Type*".
Context {E : StorageEnv} {O : AllocOracle} (never_oom : ∀ n, alloc_ok n = true).

Lemma bridge_callback_spec b ctx extra base result h :
  mem_cells h = <[b := CBridge ctx]> (with_extra extra base) → bc_extra_data ctx = fst <$> extra →
  base !! b = None → b < mem_next h → extra_fresh extra base b → mem_wf h →
  let m := mem_next h in
  ∃ h', bridge_callback b result h = Some (Some m, h') ∧ mem_wf h' ∧ m < mem_next h' ∧
    extra_fresh extra base m ∧ base !! m = None ∧
    mem_cells h' = <[m := CReply (ReplyMsg (bc_request_id ctx) result (bc_opcode ctx)
                                    (fst <$> extra) (bc_extra_len ctx))]> (with_extra extra base).
Proof.
  intros Hcells Hex Hb Hlt Hfresh Hwf m. pose proof (mem_wf_fresh _ Hwf) as Hm.
  unfold bridge_callback, load_bridge, mload, malloc. m_simpl. rewrite Hcells, lookup_insert_eq. m_simpl.
  rewrite never_oom. m_simpl. rewrite Hcells, lookup_insert_ne, lookup_insert_eq by lia. m_simpl.
  rewrite Hcells in Hm. rewrite lookup_insert_ne in Hm by lia.
  eexists. split; [done|]. split; [|split; [simpl; lia|split; [|split]]].
  - apply mem_wf_del. rewrite <-Hcells. by apply mem_wf_ins, mem_wf_record.
  - destruct extra as [[p d]|]; simpl in *; [|done]. destruct Hfresh. split; [done|lia].
  - destruct extra as [[p d]|]; simpl in *; [|done]. destruct Hfresh. by rewrite lookup_insert_ne in Hm by lia.
  - simpl. fold m. rewrite Hex. rewrite delete_insert_ne by (unfold m; lia). rewrite delete_insert_id; [done|].
    destruct extra as [[p d]|]; simpl in *; [|done]. destruct Hfresh. by rewrite lookup_insert_ne by lia.
Qed.

Lemma send_reply_spec m rm extra base send_rc h :
  mem_cells h = <[m := CReply rm]> (with_extra extra base) → rm_extra_data rm = fst <$> extra →
  base !! m = None → extra_fresh extra base m → mem_wf h →
  (Z.of_nat (length (reply_body rm (snd <$> extra))) ≤ reply_capacity rm)%Z →
  ∃ h', send_deferred_reply m send_rc h =
      Some ((Some (rm_request_id rm, NRPC_STATUS_OK, reply_body rm (snd <$> extra)),
             bool_decide (send_rc = - EBUSY)%Z), h') ∧ mem_wf h' ∧
    mem_cells h' = if decide (send_rc = - EBUSY)%Z then mem_cells h else base.
Proof.
  intros Hcells Hex Hm Hfresh Hwf Hcap. unfold send_deferred_reply, load_reply, mload, try_alloc. m_simpl.
  rewrite Hcells, lookup_insert_eq. m_simpl. rewrite never_oom. m_simpl. rewrite Hex.
  assert (load_extra (fst <$> extra) (Mem (S (mem_next h)) (mem_cells h)) =
    Some (snd <$> extra, Mem (S (mem_next h)) (mem_cells h))) as Hload.
  { destruct extra as [[p d]|]; simpl in *; [|done]. destruct Hfresh.
    unfold load_bytes, mload. m_simpl. rewrite Hcells, lookup_insert_ne, lookup_insert_eq by lia. done. }
  rewrite <-Hcells, Hload. rewrite decide_False by lia.
  destruct (decide (send_rc = - EBUSY)%Z) as [->|Hrc].
  - eexists. split; [done|]. split; [solve_wf|done].
  - rewrite (bool_decide_eq_false_2 (send_rc = _)) by done.
    destruct extra as [[p d]|]; simpl in *.
    + destruct Hfresh as [Hp Hlt]. rewrite Hcells. rewrite lookup_insert_ne, lookup_insert_eq by lia. simpl.
      rewrite lookup_delete_ne, lookup_insert_eq by lia. eexists. split; [done|]. split.
      * rewrite <-Hcells. simpl. solve_wf.
      * simpl. rewrite (delete_insert_ne _ p) by lia. rewrite !delete_insert_id; [done|done|].
        rewrite delete_insert_id by done. done.
    + rewrite Hcells, lookup_insert_eq. eexists. split; [done|]. split; [rewrite <-Hcells; solve_wf|].
      simpl. by apply delete_insert_id.
Qed.

Lemma send_with_retries_spec busy m rm extra base h :
  mem_cells h = <[m := CReply rm]> (with_extra extra base) → rm_extra_data rm = fst <$> extra →
  base !! m = None → extra_fresh extra base m → mem_wf h →
  (Z.of_nat (length (reply_body rm (snd <$> extra))) ≤ reply_capacity rm)%Z →
  ∃ h', send_with_retries busy m h =
      Some (Some (rm_request_id rm, NRPC_STATUS_OK, reply_body rm (snd <$> extra)), h') ∧ mem_wf h' ∧
    mem_cells h' = base.
Proof.
  intros Hcells Hex Hm Hfresh Hwf Hcap. revert h Hcells Hwf. induction busy as [|busy IH]; intros h Hcells Hwf; simpl.
  - destruct (send_reply_spec m rm extra base 0 h) as (h' & Es & Hwf' & Hc); [done..|].
    rewrite (M_bind_Some _ _ _ _ _ Es). by exists h'.
  - destruct (send_reply_spec m rm extra base (- EBUSY) h) as (h1 & Es & Hwf1 & Hc); [done..|].
    rewrite decide_True in Hc by done. rewrite (M_bind_Some _ _ _ _ _ Es).
    rewrite bool_decide_eq_true_2 by done. apply IH; [by rewrite Hc|done].
Qed.
End completion.

(** What the user of an operation is told. *)
Definition op_event `{E : StorageEnv} (op : client_op) (cb ctx : nat) (result : Z) (data : bytes)
    : client_event :=
  match op with
  | OpRead _ _ len =>
      if decide (result = IO_SUCCESS ∧ (0 < len)%Z)
      then ReadDone cb ctx result (Some data) len
      else ReadDone cb ctx result (Some []) 0
  | _ => SimpleDone cb ctx result
  end.

(** What the engine completes an operation with: a result of its type and, for a read,
    as many bytes as were asked for; the length leaves room for the reply's header. *)
Definition completion_ok (op : client_op) (result : Z) (data : bytes) : Prop :=
  fits 32 result ∧
  match op with
  | OpRead _ _ len => Z.of_nat (length data) = len ∧ (len < 2 ^ 32 - 8)%Z
  | _ => True
  end.

(** The reply of an operation. *)
Definition op_extra (op : client_op) (h : mem cell) (data : bytes) : option (nat * bytes) :=
  (λ p, (p, data)) <$> op_buffer op h.
Definition op_reply (request_id : Z) (op : client_op) (h : mem cell) (result : Z) : reply_msg :=
  ReplyMsg request_id result (op_opcode op) (op_buffer op h) (op_extra_len op).

Lemma op_reply_capacity `{E : StorageEnv} request_id op h result data :
  op_typed op → completion_ok op result data →
  (Z.of_nat (length (reply_body (op_reply request_id op h result) (snd <$> op_extra op h data)))
    ≤ reply_capacity (op_reply request_id op h result))%Z.
Proof.
  intros Hop [Hres Hdata]. unfold reply_body, reply_capacity.
  destruct op; simpl in *; try (rewrite put_le_length; lia).
  destruct Hdata as [Hlen Hsmall]. rewrite (wrap_small 32 (8 + len)) by (unfold fits in *; lia).
  case_decide; rewrite !length_app, !put_le_length, ?length_take; lia.
Qed.

(** A request served to the end: one response, and no block left. *)
Lemma serve_spec `{E : StorageEnv} `{O : AllocOracle} request_id op result data busy h :
  (∀ n, alloc_ok n = true) → op_typed op → completion_ok op result data → mem_wf h →
  ∃ h', serve request_id (op_opcode op) (op_body op) result data busy h =
      Some (Some (request_id, NRPC_STATUS_OK,
        reply_body (op_reply request_id op h result) (snd <$> op_extra op h data)), h') ∧
    mem_cells h' = mem_cells h.
Proof.
  intros Hok Hop Hdone Hwf. unfold serve.
  destruct (dispatch_op request_id (λ _, IO_SUCCESS) op h Hok Hop Hwf) as (res & h1 & E1 & Hwf1 & Hcase).
  rewrite decide_True in Hcase by done. destruct Hcase as [-> Hcells1].
  rewrite (M_bind_Some _ _ _ _ _ E1). cbn [hd_submitted].
  assert (mem_cells h !! mem_next h = None ∧ mem_cells h !! S (mem_next h) = None) as [Hn1 Hn2].
  { split; eapply mem_wf_above; [by apply mem_wf_record|lia|by apply mem_wf_record|lia]. }
  assert (op_context op h < mem_next h1) as Hlt by (apply Hwf1; rewrite Hcells1; unfold op_blocks; by rewrite lookup_insert_eq).
  assert (∃ h2, engine_fill (op_request op (mem_next h)) data h1 = Some (tt, h2) ∧ mem_wf h2 ∧ mem_next h2 = mem_next h1 ∧
    mem_cells h2 = <[op_context op h := CBridge (BridgeCtx request_id (op_opcode op) (op_buffer op h) (op_extra_len op))]>
                     (with_extra (op_extra op h data) (mem_cells h))) as (h2 & E2 & Hwf2 & Hnext2 & Hcells2).
  { destruct op; simpl in *; try (exists h1; split_and!; done).
    unfold op_blocks in Hcells1. simpl in Hcells1. unfold mstore. rewrite Hcells1.
    rewrite lookup_insert_ne, lookup_insert_eq by lia. eexists. split; [done|]. split; [|split; [done|]].
    - rewrite <-Hcells1. apply mem_wf_set; [|by apply mem_wf_record].
      by rewrite Hcells1, lookup_insert_ne, lookup_insert_eq by lia.
    - simpl. rewrite insert_insert_ne by lia. by rewrite insert_insert_eq. }
  rewrite (M_bind_Some _ _ _ _ _ E2).
  destruct (bridge_callback_spec Hok (op_context op h) _ (op_extra op h data) (mem_cells h) result h2 Hcells2)
    as (h3 & E3 & Hwf3 & Hlt3 & Hfresh3 & Hbase3 & Hcells3).
  - unfold op_extra. simpl. by destruct (op_buffer op h).
  - by destruct op.
  - lia.
  - destruct op; simpl; try done. split; [done|lia].
  - done.
  - rewrite (M_bind_Some _ _ _ _ _ E3).
    destruct (send_with_retries_spec Hok busy (mem_next h2) (op_reply request_id op h result)
      (op_extra op h data) (mem_cells h) h3) as (h' & E4 & _ & Hc); [| |done|done|done|by apply op_reply_capacity|].
    + rewrite Hcells3. unfold op_reply, op_extra. simpl. by destruct (op_buffer op h).
    + unfold op_extra. simpl. by destruct (op_buffer op h).
    + exists h'. split; [|done]. rewrite E4. done.
Qed.

(** The client reads out of the response what the engine put in. *)
Lemma client_reads_reply `{E : StorageEnv} request_id op hs result data p cb ctx h :
  op_typed op → completion_ok op result data →
  mem_cells h !! p = Some (PendingCall (op_callback op cb) ctx) →
  ∃ h', client_response_cb IO_ERROR p
      (reply_body (op_reply request_id op hs result) (snd <$> op_extra op hs data)) 0 h =
      Some (op_event op cb ctx result data, h') ∧
    mem_cells h' = delete p (mem_cells h) ∧ event_in_bounds (op_event op cb ctx result data).
Proof.
  intros Hop [Hres Hdata] Hp. unfold client_response_cb, mload. m_simpl. rewrite Hp. m_simpl. rewrite Hp.
  unfold reply_body. rewrite (wrap_small 32) by done.
  destruct op as [oid|oid|oid offset d|oid offset len|oid size|oid offset len|src dst]; simpl in *.
  4: {
    destruct Hdata as [Hlen Hsmall]. destruct (decide (result = IO_SUCCESS ∧ (0 < len)%Z)) as [[Hs Hpos]|Hno].
    - rewrite !length_app, !put_le_length. simpl. unfold response_event. simpl.
      rewrite !length_app, !put_le_length. simpl. rewrite get_put_le by done.
      change 8 with (4 + 4). rewrite <-drop_drop, !drop_put_le, get_put_le by (unfold fits in *; lia).
      rewrite take_ge by lia. eexists. split_and!; [done|done|simpl; lia].
    - rewrite !length_app, !put_le_length. simpl. unfold response_event. simpl.
      rewrite !length_app, !put_le_length. simpl. rewrite get_put_le by done.
      rewrite <-(app_nil_r (put_le 4 0)).
      change 8 with (4 + 4). rewrite <-drop_drop, !drop_put_le, get_put_le by done.
      eexists. split_and!; done. }
  all: rewrite put_le_length; simpl; unfold response_event; simpl; rewrite get_put_le_end by done;
    eexists; split_and!; done.
Qed.

(** ** Any request, any allocator *)

Section robust.
#[local] Set Default Proof Using "Type*".
Context {E : StorageEnv} {O : AllocOracle} (request_id : Z) (obj_submit : obj_request → Z).

(** A handler that runs to its end, leaving the heap as it was unless it deferred. *)
Definition clean (m : M cell handled) (h : mem cell) : Prop :=
  ∃ res h', m h = Some (res, h') ∧
    (hd_submitted res = None → mem_cells h' = mem_cells h ∧ hd_rc res = 0%Z ∧ is_Some (hd_body res)) ∧
    (∀ rq b, hd_submitted res = Some (rq, b) → hd_rc res = NRPC_HANDLER_DEFERRED ∧ obj_submit rq = IO_SUCCESS ∧
       ∃ ctx, mem_cells h' !! b = Some (CBridge ctx) ∧ bc_request_id ctx = request_id).

Lemma clean_answer r h : hd_submitted r = None → hd_rc r = 0%Z → is_Some (hd_body r) → clean (mret r) h.
Proof. intros Hs Hr Hb. exists r, h. split; [done|]. split; [done|]. intros rq b. by rewrite Hs. Qed.

Lemma clean_submit opcode rq h : mem_wf h → clean (submit request_id obj_submit opcode rq) h.
Proof.
  intros Hwf. unfold submit, make_bridge_ctx, malloc. unfold clean. m_simpl.
  destruct (alloc_ok (mem_next h)).
  - destruct (decide (obj_submit rq ≠ IO_SUCCESS)) as [Hs|Hs].
    + simpl. rewrite lookup_insert_eq. do 2 eexists. split; [done|]. split; [|done].
      intros _. split; [|done]. simpl. by apply delete_insert_id, mem_wf_fresh.
    + do 2 eexists. split; [done|]. split; [done|]. intros ? ? [= <- <-]. split; [done|]. split; [by apply dec_stable|].
      eexists. split; [apply lookup_insert_eq|done].
  - do 2 eexists. split; [done|]. by split.
Qed.

Lemma clean_read req h : mem_wf h → clean (rpc_handler_read request_id obj_submit req) h.
Proof.
  intros Hwf. unfold rpc_handler_read. case_decide; [by apply clean_answer|].
  pose proof (mem_wf_fresh _ Hwf) as Hf.
  assert (mem_cells h !! S (mem_next h) = None) as Hf2 by (eapply mem_wf_above; [by apply mem_wf_record|lia]).
  unfold clean, make_bridge_ctx, malloc. m_simpl. destruct (alloc_ok (mem_next h)); simpl.
  2: { do 2 eexists. split; [done|]. by split. }
  destruct (alloc_ok (S (mem_next h))); simpl.
  2: { rewrite lookup_insert_eq. do 2 eexists. split; [done|]. split; [|done]. intros _. split; [|done].
       simpl. by apply delete_insert_id. }
  destruct (decide (obj_submit _ ≠ IO_SUCCESS)) as [Hs|Hs]; simpl.
  - rewrite lookup_insert_ne, lookup_insert_eq by lia. simpl. rewrite lookup_delete_ne, lookup_insert_eq by lia.
    do 2 eexists. split; [done|]. split; [|done]. intros _. split; [|done]. simpl.
    rewrite (delete_insert_ne _ (mem_next h)) by lia. rewrite (delete_insert_id _ (mem_next h)) by done.
    by apply delete_insert_id.
  - do 2 eexists. split; [done|]. split; [done|]. intros ? ? [= <- <-]. split; [done|]. split; [by apply dec_stable|].
    eexists. split; [apply lookup_insert_eq|done].
Qed.

Lemma clean_some (m : M cell handled) h :
  clean m h → ∃ res h', (res ← m; mret (Some res)) h = Some (Some res, h') ∧
    (hd_submitted res = None → mem_cells h' = mem_cells h ∧ hd_rc res = 0%Z ∧ is_Some (hd_body res)) ∧
    (∀ rq b, hd_submitted res = Some (rq, b) → hd_rc res = NRPC_HANDLER_DEFERRED ∧ obj_submit rq = IO_SUCCESS ∧
       ∃ ctx, mem_cells h' !! b = Some (CBridge ctx) ∧ bc_request_id ctx = request_id).
Proof. intros (res & h' & Eq & ?). exists res, h'. by rewrite (M_bind_Some _ _ _ _ _ Eq). Qed.
End robust.

(** ** Properties *)

(** End to end: an operation called on a connected client and served to its
    completion tells the user exactly what the engine reported. The request the client
    sends is decoded by the server into the same operation; the server answers it
    exactly once, under its request id, however many times its connection is busy;
    the client's callback is called with the engine's result and, for a read that
    succeeded, its data; and no block is left on either side. *)
Theorem rpc_end_to_end `{E : StorageEnv} `{O : AllocOracle} nrpc_client_call c op cb ctx request_id
    result data busy hc hs :
  (∀ n, alloc_ok n = true) → sc_is_connected c = true → op_typed op → completion_ok op result data →
  mem_wf hc → mem_wf hs →
  ∃ rc rq hc1 response hs' hc2,
    client_call nrpc_client_call c op cb ctx hc = Some ((rc, Some rq), hc1) ∧
    (∃ res hs1 b, rpc_dispatch request_id (λ _, IO_SUCCESS) (rq_opcode rq) (rq_body rq) hs = Some (Some res, hs1) ∧
       hd_rc res = NRPC_HANDLER_DEFERRED ∧ hd_submitted res = Some (op_request op (mem_next hs), b)) ∧
    serve request_id (rq_opcode rq) (rq_body rq) result data busy hs =
      Some (Some (request_id, NRPC_STATUS_OK, response), hs') ∧ mem_cells hs' = mem_cells hs ∧
    client_response_cb IO_ERROR (rq_pending rq) response 0 hc1 = Some (op_event op cb ctx result data, hc2) ∧
    mem_cells hc2 = mem_cells hc ∧ event_in_bounds (op_event op cb ctx result data).
Proof.
  intros Hok Hconn Hop Hdone Hwfc Hwfs.
  destruct (client_call_sends nrpc_client_call c op cb ctx hc Hok Hconn Hop) as (hc1 & E1 & Hc1).
  destruct (serve_spec request_id op result data busy hs Hok Hop Hdone Hwfs) as (hs' & E2 & Hs').
  destruct (client_reads_reply request_id op hs result data (mem_next hc) cb ctx hc1 Hop Hdone)
    as (hc2 & E3 & Hc2 & Hbounds); [by rewrite Hc1, lookup_insert_eq|].
  destruct (dispatch_op request_id (λ _, IO_SUCCESS) op hs Hok Hop Hwfs) as (res & hs1 & E4 & _ & Hres).
  rewrite decide_True in Hres by done. destruct Hres as [-> _].
  do 6 eexists. split; [exact E1|]. simpl rq_opcode. simpl rq_body. split; [by do 3 eexists|].
  split; [exact E2|]. split; [done|]. split; [exact E3|]. split; [|done].
  rewrite Hc2, Hc1. by apply delete_insert_id, mem_wf_fresh.
Qed.


(** What a reply makes the user read: the length given to a read callback is taken
    from the response unchecked, so the callback stays within the response exactly
    when the length field does not exceed what follows it. *)
Theorem client_read_bounds err p cb ctx body h :
  mem_cells h !! p = Some (PendingCall (CLIENT_CALL_READ cb) ctx) → 8 ≤ length body →
  ∃ e h', client_response_cb err p body 0 h = Some (e, h') ∧ mem_cells h' = delete p (mem_cells h) ∧
    (event_in_bounds e ↔ (get_le 4 (drop 4 body) ≤ Z.of_nat (length body) - 8)%Z).
Proof.
  intros Hp Hlen. unfold client_response_cb, mload. m_simpl. rewrite Hp. m_simpl. rewrite Hp.
  rewrite (decide_False (P := length body < 4)) by lia. unfold response_event. simpl. rewrite decide_True by done.
  do 2 eexists. split; [done|]. split; [done|]. simpl. rewrite length_drop. lia.
Qed.

(** A call on a client that is not connected fails with -ENOTCONN and leaks its
    pending call: the block stays allocated, no request carries it, and so its
    callback is never called. *)
Theorem client_not_connected_leaks `{O : AllocOracle} nrpc_client_call c op cb ctx h :
  (∀ n, alloc_ok n = true) → sc_is_connected c = false → op_typed op →
  ∃ h', client_call nrpc_client_call c op cb ctx h = Some (((- ENOTCONN)%Z, None), h') ∧
    mem_cells h' = <[mem_next h := PendingCall (op_callback op cb) ctx]> (mem_cells h).
Proof.
  intros Hok Hconn Hop. destruct op as [oid|oid|oid offset data|oid offset len|oid size|oid offset len|src dst]; simpl.
  3: {
    destruct Hop as (_ & _ & Hlen). unfold storage_client_write, new_pending, malloc, try_alloc. m_simpl.
    rewrite Hok. m_simpl. rewrite decide_False by lia. rewrite Hok. m_simpl. unfold encode_write_req.
    rewrite !wrap_small by (unfold fits; lia). rewrite decide_False by lia. rewrite decide_False by lia.
    unfold call_encoded, do_rpc_call. rewrite Hconn. by eexists. }
  all: unfold storage_client_create_obj, storage_client_delete_obj, storage_client_read, storage_client_truncate,
    storage_client_punch, storage_client_clone, new_pending, malloc, encode_create_req, encode_delete_req,
    encode_read_req, encode_truncate_req, encode_punch_req, encode_clone_req; m_simpl;
    rewrite Hok; m_simpl; unfold do_rpc_call; rewrite Hconn; by eexists.
Qed.

(** Constants for the examples; the source's own are in headers outside the
    repository. *)
Definition example_env : StorageEnv := {|
  IO_SUCCESS := 0; IO_ERROR := 1; NRPC_STATUS_OK := 0; NRPC_STATUS_BAD_OPCODE := 1;
  NRPC_STATUS_INTERNAL := 2; NRPC_HANDLER_DEFERRED := 1
|}.

Definition example_client (connected : bool) : storage_client :=
  StorageClient 0 connected (cs "localhost") 9000.

Lemma rpc_end_to_end_witness :
  ∃ rc rq hc1 response hs' hc2,
    client_call (O := no_oom) (λ _, 0%Z) (example_client true) (OpRead 7 0 5) 1 2 mem_empty = Some ((rc, Some rq), hc1) ∧
    serve (E := example_env) (O := no_oom) 42 (rq_opcode rq) (rq_body rq) 0 (cs "hello") 3 mem_empty =
      Some (Some (42%Z, 0%Z, response), hs') ∧
    client_response_cb 1 (rq_pending rq) response 0 hc1 = Some (ReadDone 1 2 0 (Some (cs "hello")) 5, hc2).
Proof.
  destruct (rpc_end_to_end (E := example_env) (O := no_oom) (λ _, 0%Z) (example_client true) (OpRead 7 0 5) 1 2 42 0
    (cs "hello") 3 mem_empty mem_empty)
    as (rc & rq & hc1 & response & hs' & hc2 & E1 & _ & E2 & _ & E3 & _);
    [done|done|done|done|apply mem_wf_empty|apply mem_wf_empty|].
  by exists rc, rq, hc1, response, hs', hc2.
Defined.


Lemma client_read_bounds_witness :
  ∃ e h', client_response_cb 1 0 (put_le 4 0 ++ put_le 4 1000) 0
      (Mem 1 {[0 := PendingCall (CLIENT_CALL_READ 1) 2]}) = Some (e, h') ∧ ¬ event_in_bounds e.
Proof.
  destruct (client_read_bounds 1 0 1 2 (put_le 4 0 ++ put_le 4 1000)
    (Mem 1 {[0 := PendingCall (CLIENT_CALL_READ 1) 2]})) as (e & h' & Eq & _ & Hb); [done|by vm_compute; lia|].
  exists e, h'. split; [done|]. rewrite Hb. by vm_compute.
Defined.

Lemma client_not_connected_leaks_witness :
  ∃ h', client_call (O := no_oom) (λ _, 0%Z) (example_client false) (OpDelete 7) 1 2 mem_empty =
      Some (((- ENOTCONN)%Z, None), h') ∧ mem_cells h' !! 0 = Some (PendingCall (CLIENT_CALL_SIMPLE 1) 2).
Proof.
  destruct (client_not_connected_leaks (O := no_oom) (λ _, 0%Z) (example_client false) (OpDelete 7) 1 2 mem_empty)
    as (h' & Eq & Hc); [done|done|done|].
  exists h'. split; [done|]. by rewrite Hc.
Defined.
