(* ===== verification/RpcSystem.v ===== *)
(** * A client and a server, with any number of calls under way
      ([src/storage_client/storage_client.c], [src/storage_server/rpc_handler.c],
       [callback_bridge.c])

    The code of both sides as one system, whose steps are the entries of the code that the
    RPC library, the engine and the threads call: a user calls, a request arrives, the engine
    completes, the RPC thread takes a message, a response comes back, a call is given up.
    Any order of them is a run.  The library may deliver a request late or more than once
    (the client marks every call idempotent), but a callback once per call; the client's
    allocations succeed ([calloc] is not checked there), the server's may fail. *)
From S2P Require Import Prelude Memory Triples StorageProtocol StorageServer.
From stdpp Require Import options.

(** Arguments of their C types; a write has as many bytes as its length says. *)
Definition op_fits (op : client_op) : Prop :=
  match op with
  | OpWrite oid offset data => fits 64 oid ∧ fits 64 offset ∧ fits 32 (Z.of_nat (length data))
  | _ => op_typed op
  end.
#[export] Instance op_fits_dec op : Decision (op_fits op).
Proof. unfold op_fits, op_typed. destruct op; apply _. Defined.
#[export] Instance op_typed_dec op : Decision (op_typed op).
Proof. unfold op_typed. destruct op; apply _. Defined.

(** A read that leaves no room for the reply's header. *)
Definition long_read (op : client_op) : Prop := match op with OpRead _ _ len => (2 ^ 32 - 8 ≤ len)%Z | _ => False end.

#[export] Instance long_read_dec op : Decision (long_read op).
Proof. unfold long_read. destruct op; apply _. Defined.

(** An operation that the code can carry: a read leaves room for the reply's header. *)
Definition op_ok (op : client_op) : Prop :=
  op_typed op ∧ match op with OpRead _ _ len => (len < 2 ^ 32 - 8)%Z | _ => True end.
#[export] Instance op_ok_dec op : Decision (op_ok op).
Proof. unfold op_ok, op_typed. destruct op; apply _. Defined.

Lemma op_ok_fits op : op_ok op → op_fits op.
Proof. intros [Hop _]. destruct op; simpl in *; try done. destruct Hop as (? & ? & ?). split_and!; [done..|]. unfold fits. lia. Qed.

(** What the engine completes a request with: a result of its type and all of the data. *)
Definition engine_ok (rq : obj_request) (result : Z) (data : bytes) : Prop :=
  fits 32 result ∧ match rq with ObjRead _ _ len _ => Z.of_nat (length data) = len | _ => True end.
#[export] Instance engine_ok_dec rq result data : Decision (engine_ok rq result data).
Proof. unfold engine_ok. destruct rq; apply _. Defined.

(** ** The system *)

(** A request on the server: with the engine, which holds its context; queued for the RPC
    thread as a message; or answered, its response on the way. *)
Inductive job :=
  | InEngine (rq : obj_request) (ctx : nat)
  | InQueue (msg : nat)
  | Answered (body : bytes).

(** The two heaps; the requests sent, by their ids; the open calls, with the address of the
    pending call; how many calls were refused, but for the writes that the client itself refuses
    as too long, whose pending call it frees; the jobs; and the callbacks made so far. *)
Record system := System {
  y_client : mem storage_pending_call;
  y_server : mem cell;
  y_sent : list rpc_request;
  y_open : list (nat * nat);
  y_refused : nat;
  y_jobs : list (nat * job);
  y_events : list (nat * client_event)
}.

Definition system_init : system := System mem_empty mem_empty [] [] 0 [] [].

Definition set_server (hs : mem cell) (jobs : list (nat * job)) (s : system) : system :=
  System (y_client s) hs (y_sent s) (y_open s) (y_refused s) jobs (y_events s).
Definition set_client (hc : mem storage_pending_call) (opened : list (nat * nat)) (events : list (nat * client_event)) (s : system) : system :=
  System hc (y_server s) (y_sent s) opened (y_refused s) (y_jobs s) events.

Inductive action :=
  (** the user calls; the library takes the call or not *)
  | Call (op : client_op) (cb ctx : nat) (accepted : bool)
  (** a request arrives; what the engine says to it *)
  | Receive (id : nat) (rc : Z)
  (** the engine completes the [i]-th job *)
  | Complete (i : nat) (result : Z) (data : bytes)
  (** the RPC thread takes the message of the [i]-th job; what the library says to the response *)
  | Reply (i : nat) (send_rc : Z)
  (** the response of the [i]-th job arrives *)
  | Deliver (i : nat)
  (** the library gives a call up *)
  | GiveUp (id : nat) (err : Z).

Section system.
Context {E : StorageEnv} (Oc Os : AllocOracle) (c : storage_client).

(** The library calls back the call that is open under the id, if there is one. *)
Definition finish (id : nat) (body : bytes) (err : Z) (s : system) : option system :=
  match list_find (λ o, o.1 = id) (y_open s) with
  | None => Some s
  | Some (k, (_, pcall)) =>
      '(e, hc) ← client_response_cb IO_ERROR pcall body err (y_client s);
      Some (set_client hc (delete k (y_open s)) (y_events s ++ [(id, e)]) s)
  end.

Definition call_step (op : client_op) (cb ctx : nat) (accepted : bool) (s : system) : option system :=
  '(rc, rq, hc) ← client_call (O := Oc) (λ _, if accepted then 0 else -1)%Z c op cb ctx (y_client s);
  Some match rq with
       | Some rq =>
           if decide (0 ≤ rc)%Z then
             System hc (y_server s) (y_sent s ++ [rq]) (y_open s ++ [(length (y_sent s), rq_pending rq)]) (y_refused s)
               (y_jobs s) (y_events s)
           else System hc (y_server s) (y_sent s) (y_open s) (S (y_refused s)) (y_jobs s) (y_events s)
       | None =>
           System hc (y_server s) (y_sent s) (y_open s) (if decide (rc = - EINVAL)%Z then y_refused s else S (y_refused s))
             (y_jobs s) (y_events s)
       end.

Definition receive_step (id : nat) (rq : rpc_request) (rc : Z) (s : system) : option system :=
  '(res, hs) ← rpc_dispatch (O := Os) (Z.of_nat id) (λ _, rc) (rq_opcode rq) (rq_body rq) (y_server s);
  Some (set_server hs (y_jobs s ++
    match res with
    | Some (Handled _ _ _ (Some (rq, ctx))) => [(id, InEngine rq ctx)]
    | Some (Handled _ _ (Some body) None) => [(id, Answered body)]
    | _ => []
    end) s).

Definition complete_step (i id : nat) (rq : obj_request) (ctx : nat) (result : Z) (data : bytes) (s : system) : option system :=
  '(msg, hs) ← (_ ← engine_fill rq data; bridge_callback (O := Os) ctx result) (y_server s);
  Some (set_server hs (match msg with Some m => <[i := (id, InQueue m)]> (y_jobs s) | None => delete i (y_jobs s) end) s).

(** A response that the library takes goes to the call whose request id it carries. *)
Definition reply_step (i msg : nat) (send_rc : Z) (s : system) : option system :=
  '(response, again, hs) ← send_deferred_reply (O := Os) msg send_rc (y_server s);
  Some (set_server hs
    (if again : bool then y_jobs s else
     match response with
     | Some (request_id, _, body) =>
         if decide (0 ≤ send_rc)%Z then <[i := (Z.to_nat request_id, Answered body)]> (y_jobs s) else delete i (y_jobs s)
     | None => delete i (y_jobs s)
     end) s).

(** A step whose action is not possible does nothing; [None] is undefined behaviour. Every
    call whose arguments have their C types is possible. *)
Definition system_step (a : action) (s : system) : option system :=
  match a with
  | Call op cb ctx accepted => if decide (op_fits op) then call_step op cb ctx accepted s else Some s
  | Receive id rc => match y_sent s !! id with Some rq => receive_step id rq rc s | None => Some s end
  | Complete i result data =>
      match y_jobs s !! i with
      | Some (id, InEngine rq ctx) => if decide (engine_ok rq result data) then complete_step i id rq ctx result data s else Some s
      | _ => Some s
      end
  | Reply i send_rc => match y_jobs s !! i with Some (_, InQueue msg) => reply_step i msg send_rc s | _ => Some s end
  | Deliver i =>
      match y_jobs s !! i with
      | Some (id, Answered body) => finish id body 0 (set_server (y_server s) (delete i (y_jobs s)) s)
      | _ => Some s
      end
  | GiveUp id err => if decide (err ≠ 0)%Z then finish id [] err s else Some s
  end.

Fixpoint system_run (acts : list action) (s : system) : option system :=
  match acts with [] => Some s | a :: acts => s ← system_step a s; system_run acts s end.
End system.

(** ** What the system promises *)

(** What became of an operation each time it reached the engine. *)
Inductive outcome :=
  | Refused (rc : Z)
  | Done (result : Z) (data : bytes).

(** A call: the operation, the callback with its context, the outcomes, and what the
    callback was told. *)
Record spec_call := SpecCall {
  sp_op : client_op;
  sp_cb : nat;
  sp_ctx : nat;
  sp_outcomes : list outcome;
  sp_event : option client_event
}.

Definition add_outcome (o : outcome) (c : spec_call) : spec_call :=
  SpecCall (sp_op c) (sp_cb c) (sp_ctx c) (o :: sp_outcomes c) (sp_event c).
Definition set_event (e : client_event) (c : spec_call) : spec_call :=
  SpecCall (sp_op c) (sp_cb c) (sp_ctx c) (sp_outcomes c) (Some e).

Section spec.
Context {E : StorageEnv}.

(** What the callback is told of an outcome, and of a call that failed on the way. *)
Definition outcome_event (c : spec_call) (o : outcome) : client_event :=
  match o with
  | Done result data => op_event (sp_op c) (sp_cb c) (sp_ctx c) result data
  | Refused rc =>
      match sp_op c with
      | OpRead _ _ _ => ReadDone (sp_cb c) (sp_ctx c) (u32 rc) None 0
      | _ => SimpleDone (sp_cb c) (sp_ctx c) (u32 rc)
      end
  end.
Definition failed_event (c : spec_call) : client_event :=
  transport_failed IO_ERROR (PendingCall (op_callback (sp_op c) (sp_cb c)) (sp_ctx c)).

Definition returnable (c : spec_call) (e : client_event) : Prop :=
  e = failed_event c ∨ ∃ o, o ∈ sp_outcomes c ∧ e = outcome_event c o.

(** What the engine completes an operation with, whatever its length. *)
Definition completed_ok (op : client_op) (result : Z) (data : bytes) : Prop :=
  fits 32 result ∧ match op with OpRead _ _ len => Z.of_nat (length data) = len | _ => True end.

(** The calls, by id: a call is made; its operation has an outcome; its callback is told,
    once, of a failure or of one of the outcomes. *)
Inductive spec_step : list spec_call → list spec_call → Prop :=
  | spec_make calls op cb ctx : op_typed op → spec_step calls (calls ++ [SpecCall op cb ctx [] None])
  | spec_outcome calls id c o :
      calls !! id = Some c → (∀ result data, o = Done result data → completed_ok (sp_op c) result data) →
      spec_step calls (<[id := add_outcome o c]> calls)
  | spec_return calls id c e :
      calls !! id = Some c → sp_event c = None → returnable c e → spec_step calls (<[id := set_event e c]> calls).
End spec.

(** ** The code by the blocks it owns *)

Section triples.
Context {E : StorageEnv} {O : AllocOracle}.

(** A read has a buffer on the server, the other operations have none. *)
Definition buffer_for (op : client_op) (buf : option nat) : Prop :=
  match op with OpRead _ _ _ => is_Some buf | _ => buf = None end.
Definition buffer_own (buf : option nat) (data : bytes) : gmap nat cell :=
  match buf with Some p => {[p := CBytes data]} | None => ∅ end.

Lemma client_call_triple (nrpc : rpc_request → Z) c op cb ctx :
  (∀ n, alloc_ok n = true) → op_typed op →
  triple ∅ (client_call nrpc c op cb ctx) (λ '(rc, rq) N, ∃ p, N = {[p := PendingCall (op_callback op cb) ctx]} ∧
    let r := RpcRequest (sc_endpoint_idx c) (op_opcode op) (op_body op) STORAGE_CLIENT_DEFAULT_TIMEOUT_MS p in
    if sc_is_connected c then rq = Some r ∧ rc = nrpc r else rq = None ∧ rc = (- ENOTCONN)%Z).
Proof.
  intros Hok Hop.
  assert (∀ call, triple ∅ (new_pending call ctx) (λ p N, N = {[p := PendingCall call ctx]})) as Hnew.
  { intros call. unfold new_pending. eapply triple_bind.
    - apply (triple_malloc_ok _ _ (λ p N, ∃ l, p = Some l ∧ N = {[l := PendingCall call ctx]})); [done|]. intros l _. by exists l.
    - intros ? ? (l & -> & ->). by apply triple_ret. }
  destruct op as [oid|oid|oid offset data|oid offset len|oid size|oid offset len|src dst]; simpl.
  3: {
    destruct Hop as (_ & _ & Hlen). unfold storage_client_write. eapply triple_bind; [apply Hnew|]. intros p ? ->.
    cbv zeta. rewrite decide_False by lia. eapply triple_bind; [by apply (triple_try_alloc_ok _ (λ ok N, ok = true ∧ N = {[p := PendingCall (CLIENT_CALL_SIMPLE cb) ctx]}))|].
    intros ? ? [-> ->]. unfold encode_write_req. rewrite !wrap_small by (unfold fits; lia).
    rewrite !decide_False by lia. apply triple_ret. unfold do_rpc_call. rewrite Nat2Z.id, take_ge by lia.
    destruct (sc_is_connected c); by exists p. }
  all: (eapply triple_bind; [apply Hnew|]); intros p ? ->; unfold encode_create_req, encode_delete_req,
    encode_read_req, encode_truncate_req, encode_punch_req, encode_clone_req; apply triple_ret;
    unfold do_rpc_call; destruct (sc_is_connected c); by exists p.
Qed.

(** A write that is too long is refused by the client, which keeps nothing. *)
Lemma long_write_triple (nrpc : rpc_request → Z) c op cb ctx :
  (∀ n, alloc_ok n = true) → op_fits op → ¬ op_typed op →
  triple ∅ (client_call nrpc c op cb ctx) (λ '(rc, rq) N, rc = (- EINVAL)%Z ∧ rq = None ∧ N = ∅).
Proof.
  intros Hok Hfits Hlong. destruct op as [| |oid offset data| | | |]; try done. simpl in Hfits, Hlong |- *.
  unfold storage_client_write. eapply (triple_bind _ _ _ (λ p N, N = {[p := PendingCall (CLIENT_CALL_SIMPLE cb) ctx]})).
  { unfold new_pending. eapply triple_bind.
    - apply (triple_malloc_ok _ _ (λ p N, ∃ l, p = Some l ∧ N = {[l := PendingCall (CLIENT_CALL_SIMPLE cb) ctx]})); [done|]. intros l _. by exists l.
    - intros ? ? (l & -> & ->). by apply triple_ret. }
  intros p ? ->. cbv zeta. rewrite decide_True by (destruct Hfits as (? & ? & _);
    destruct (Z_gt_le_dec (Z.of_nat (length data)) (2 ^ 20 - 20)); [done|by destruct Hlong]).
  eapply triple_bind; [exact (triple_sep_free _ _ [] _ (sep_single _))|]. intros ? ? ->. by apply triple_ret.
Qed.

(** What a handler leaves: the blocks of a deferred operation, or an answer. *)
Definition handled_as (request_id : Z) (op : client_op) (rc : Z) (res : handled) (N : gmap nat cell) : Prop :=
  (∃ buf ctx data, res = Handled NRPC_HANDLER_DEFERRED None None (Some (op_request op (default 0 buf), ctx)) ∧ buffer_for op buf ∧
     sep [{[ctx := CBridge (BridgeCtx request_id (op_opcode op) buf (op_extra_len op))]}; buffer_own buf data] N) ∨
  (∃ status body, res = Handled 0 status (Some body) None ∧ N = ∅ ∧
     (body = [] ∧ (∃ n, alloc_ok n = false) ∨ rc ≠ IO_SUCCESS ∧ body = put_le 4 (u32 rc))).

Lemma handled_empty request_id op rc status :
  (∃ n, alloc_ok n = false) → handled_as request_id op rc (Handled 0 status (Some []) None) ∅.
Proof. intros Hn. right. eexists _, _. split; [done|]. split; [done|by left]. Qed.

Lemma handled_refused request_id op rc : rc ≠ IO_SUCCESS → handled_as request_id op rc (encode_simple_error rc) ∅.
Proof. intros Hrc. right. eexists _, _. split; [done|]. split; [done|by right]. Qed.

Lemma submit_triple request_id op rc :
  buffer_for op None → triple ∅ (submit request_id (λ _, rc) (op_opcode op) (op_request op 0)) (handled_as request_id op rc).
Proof.
  intros Hbuf. unfold submit, make_bridge_ctx. eapply triple_bind; [by apply (triple_sep_malloc [])|].
  intros [b|] N; [|intros [-> ?]; by apply triple_ret, handled_empty]. intros Hs. case_decide as Hrc.
  - eapply triple_bind; [exact (triple_sep_free _ _ [] _ Hs)|]. intros ? N' ->. by apply triple_ret, handled_refused.
  - apply triple_ret. left. exists None, b, []. split; [done|]. split; [done|].
    assert (op_extra_len op = 0%Z) as -> by (destruct op; first [reflexivity|by destruct Hbuf as [? [=]]]).
    by apply sep_second_empty.
Qed.

Lemma read_triple request_id oid offset len rc :
  op_typed (OpRead oid offset len) →
  triple ∅ (rpc_handler_read request_id (λ _, rc) (op_body (OpRead oid offset len))) (handled_as request_id (OpRead oid offset len) rc).
Proof.
  intros (H1 & H2 & H3). unfold rpc_handler_read, op_body.
  rewrite (decide_False (P := length _ < 20)) by (rewrite !length_app, !put_le_length; lia).
  change 16 with (8 + 8). rewrite <-drop_drop, !drop_put_le, !get_put_le by done. rewrite get_put_le_end by done.
  cbn zeta. unfold make_bridge_ctx. eapply triple_bind; [by apply (triple_sep_malloc [])|].
  intros [buf|] N; [|intros [-> ?]; by apply triple_ret, handled_empty]. intros Hs.
  eapply triple_bind; [by apply triple_sep_malloc|]. intros [b|] N'.
  - intros Hs'. case_decide as Hrc.
    + eapply triple_bind; [exact (triple_sep_free _ _ _ _ (sep_pull 1 [_; _] _ _ eq_refl Hs'))|]. intros ? N1 Hs1. cbv beta in Hs1.
      eapply triple_bind; [exact (triple_sep_free _ _ [] _ Hs1)|]. intros ? N2 ->. by apply triple_ret, handled_refused.
    + apply triple_ret. left. exists (Some buf), b, (replicate (Z.to_nat len) NUL). split; [done|]. split; [by eexists|done].
  - intros [Hs' ?]. eapply triple_bind; [exact (triple_sep_free _ _ [] _ Hs')|]. intros ? N1 ->. by apply triple_ret, handled_empty.
Qed.

Lemma rpc_dispatch_triple request_id op rc : op_typed op →
  triple ∅ (rpc_dispatch request_id (λ _, rc) (op_opcode op) (op_body op)) (λ res N, ∃ r, res = Some r ∧ handled_as request_id op rc r N).
Proof.
  intros Hop. assert ((∃ oid offset len, op = OpRead oid offset len) ∨ ∀ oid offset len, op ≠ OpRead oid offset len)
    as [(oid & offset & len & ->)|Hnr] by (destruct op; naive_solver).
  - unfold rpc_dispatch. simpl. eapply triple_bind; [by apply read_triple|]. intros r N Hr. apply triple_ret. by exists r.
  - intros h F. rewrite dispatch_decodes by done. revert h F. fold (triple (A := cell) ∅ (res ← submit request_id (λ _, rc) (op_opcode op) (op_request op 0); mret (Some res))
      (λ res N, ∃ r, res = Some r ∧ handled_as request_id op rc r N)).
    eapply triple_bind; [apply submit_triple; destruct op; try done; by destruct (Hnr _ _ _ eq_refl)|].
    intros r N Hr. apply triple_ret. by exists r.
Qed.

(** The engine fills the buffer of a read and completes. *)
Lemma complete_triple op buf ctx b data result data' N :
  buffer_for op buf → bc_extra_data b = buf → sep [{[ctx := CBridge b]}; buffer_own buf data] N →
  triple N (_ ← engine_fill (op_request op (default 0 buf)) data'; bridge_callback ctx result) (λ msg N',
    match msg with
    | Some m => sep [{[m := CReply (ReplyMsg (bc_request_id b) result (bc_opcode b) buf (bc_extra_len b))]}; buffer_own buf data'] N'
    | None => N' = ∅ ∧ ∃ n, alloc_ok n = false
    end).
Proof.
  intros Hbuf <- Hs. eapply (triple_bind _ _ _ (λ _ N', sep [{[ctx := CBridge b]}; buffer_own (bc_extra_data b) data'] N')).
  { destruct op; simpl in Hbuf |- *; try (rewrite Hbuf in *; by apply triple_ret). destruct Hbuf as [p Hp]. rewrite Hp in *. simpl.
    eapply triple_mono.
    - eapply triple_sep; [exact (sep_pull 1 [_; buffer_own (Some p) data] _ _ eq_refl Hs)|]. simpl.
      apply (triple_store _ _ _ (λ _ N', N' = {[p := CBytes data']})); [by rewrite lookup_singleton_eq|apply insert_singleton_eq].
    - intros ? N' (M' & Hs' & ->). by apply (sep_put 1 [_; {[p := CBytes data']}] {[p := CBytes data']}). }
  intros ? N1 Hs1. cbv beta in Hs1. unfold bridge_callback, load_bridge.
  eapply (triple_bind _ _ _ (λ x N', x = b ∧ N' = N1)).
  { eapply (triple_bind _ _ _ (λ x N', x = CBridge b ∧ N' = N1)); [eapply triple_load; [by eapply sep_lookup|done]|].
    intros ? ? [-> ->]. by apply triple_ret. }
  intros ? ? [-> ->]. eapply triple_bind; [by apply triple_sep_malloc|]. intros [m|] N2.
  - intros Hs2. eapply triple_bind; [exact (triple_sep_free _ _ _ _ (sep_pull 1 [_; _; _] _ _ eq_refl Hs2))|].
    intros ? N3 Hs3. by apply triple_ret.
  - intros [Hs2 ?]. eapply (triple_bind _ _ _ (λ _ N', sep [{[ctx := CBridge b]}] N')).
    { destruct (bc_extra_data b) as [p|]; [exact (triple_sep_free _ _ _ _ (sep_pull 1 [_; {[p := CBytes data']}] _ _ eq_refl Hs2))|].
      apply triple_free_null. by apply sep_second_empty. }
    intros ? N3 Hs3. cbv beta in Hs3. eapply triple_bind; [exact (triple_sep_free _ _ [] _ Hs3)|]. intros ? N4 ->. by apply triple_ret.
Qed.

Lemma completion_iff op result data : completion_ok op result data ↔ completed_ok op result data ∧ ¬ long_read op.
Proof. unfold completion_ok, completed_ok, long_read. destruct op; naive_solver lia. Qed.

(** The bytes that answer an outcome. *)
Definition outcome_body (op : client_op) (o : outcome) : bytes :=
  match o with
  | Done result data =>
      reply_body (ReplyMsg 0 result (op_opcode op) None (op_extra_len op)) (match op with OpRead _ _ _ => Some data | _ => None end)
  | Refused rc => put_le 4 (u32 rc)
  end.

(** The reply buffer is large enough. *)
Lemma outcome_body_fits request_id op result data buf :
  op_typed op → completion_ok op result data →
  ¬ (reply_capacity (ReplyMsg request_id result (op_opcode op) buf (op_extra_len op)) < Z.of_nat (length (outcome_body op (Done result data))))%Z.
Proof.
  intros Hop Hdone. pose proof (op_reply_capacity 0 op mem_empty result data Hop Hdone) as Hcap.
  destruct op; unfold op_reply, op_extra, reply_capacity, outcome_body, reply_body in *; simpl in *; lia.
Qed.

(** The reply of a long read gets at most 7 bytes, and has 8 or more. *)
Lemma long_body_overflows rm extra : rm_opcode rm = RPC_OP_READ → (2 ^ 32 - 8 ≤ rm_extra_len rm < 2 ^ 32)%Z →
  (reply_capacity rm < Z.of_nat (length (reply_body rm extra)))%Z.
Proof.
  intros Hopc Hlen. assert (reply_capacity rm = rm_extra_len rm - (2 ^ 32 - 8))%Z as ->.
  { unfold reply_capacity. rewrite Hopc, decide_True by done. unfold wrap.
    replace (8 + rm_extra_len rm)%Z with (rm_extra_len rm - (2 ^ 32 - 8) + 1 * 2 ^ 32)%Z by lia.
    rewrite Z.mod_add by lia. apply Z.mod_small. lia. }
  unfold reply_body. rewrite Hopc, decide_True by done. destruct extra; [case_decide|]; rewrite !length_app, !put_le_length; lia.
Qed.

(** What the RPC thread does with a message whose reply fits, or whose reply is not allocated. *)
Lemma send_reply_triple rm data m send_rc N :
  let body := reply_body rm ((λ _, data) <$> rm_extra_data rm) in
  (Z.of_nat (length body) ≤ reply_capacity rm)%Z ∨ (∀ n, alloc_ok n = false) →
  sep [{[m := CReply rm]}; buffer_own (rm_extra_data rm) data] N →
  triple N (send_deferred_reply m send_rc) (λ '(response, again) N',
    if again : bool then N' = N ∧ send_rc = (- EBUSY)%Z
    else N' = ∅ ∧ (response = None ∧ (∃ n, alloc_ok n = false) ∨
      (Z.of_nat (length body) ≤ reply_capacity rm)%Z ∧ send_rc ≠ (- EBUSY)%Z ∧ response = Some (rm_request_id rm, NRPC_STATUS_OK, body))).
Proof.
  intros body Hroom Hs. unfold send_deferred_reply, load_reply.
  eapply (triple_bind _ _ _ (λ x N', x = rm ∧ N' = N)).
  { eapply (triple_bind _ _ _ (λ x N', x = CReply rm ∧ N' = N)); [eapply triple_load; [by eapply sep_lookup|done]|].
    intros ? ? [-> ->]. by apply triple_ret. }
  intros ? ? [-> ->]. eapply (triple_bind _ _ _ (λ ok N', N' = N ∧ ∃ n, ok = alloc_ok n)); [apply triple_try_alloc_ask; intros n; split; [done|by exists n]|].
  assert (∀ r : option (Z * Z * bytes), triple N (_ ← mfree (rm_extra_data rm); _ ← mfree (Some m); mret (r, false))
    (λ '(r', again) N', r' = r ∧ again = false ∧ N' = ∅)) as Hfree.
  { intros r. eapply (triple_bind _ _ _ (λ _ N', sep [{[m := CReply rm]}] N')).
    - destruct (rm_extra_data rm) as [p|]; [exact (triple_sep_free _ _ _ _ (sep_pull 1 [_; {[p := CBytes data]}] _ _ eq_refl Hs))|].
      apply triple_free_null. by apply sep_second_empty.
    - intros ? N1 Hs1. eapply triple_bind; [exact (triple_sep_free _ _ [] _ Hs1)|]. intros ? N2 ->. by apply triple_ret. }
  intros [] ? [-> [n Hn]]; cbn [negb].
  - eapply (triple_bind _ _ _ (λ x N', x = (λ _, data) <$> rm_extra_data rm ∧ N' = N)).
    { destruct (rm_extra_data rm) as [p|]; [|by apply triple_ret]. unfold load_extra, load_bytes.
      eapply (triple_bind _ _ _ (λ x N', x = data ∧ N' = N)); [|intros ? ? [-> ->]; by apply triple_ret].
      eapply (triple_bind _ _ _ (λ x N', x = CBytes data ∧ N' = N)).
      - eapply triple_load; [|done]. eapply sep_lookup. exact (sep_pull 1 [_; buffer_own (Some p) data] _ _ eq_refl Hs).
      - intros ? ? [-> ->]. by apply triple_ret. }
    intros ? ? [-> ->]. cbv zeta. fold body. destruct Hroom as [Hroom|Hoom]; [|by rewrite Hoom in Hn].
    rewrite decide_False by lia. case_decide; [by apply triple_ret|].
    eapply triple_mono; [apply Hfree|]. intros [r again] N' (-> & -> & ->). split; [done|by right].
  - eapply triple_mono; [apply Hfree|]. intros [r again] N' (-> & -> & ->). split; [done|]. left. split; [done|by exists n].
Qed.

Lemma reply_triple request_id op result data buf m send_rc N :
  op_typed op → completed_ok op result data → ¬ long_read op ∨ (∀ n, alloc_ok n = false) → buffer_for op buf →
  sep [{[m := CReply (ReplyMsg request_id result (op_opcode op) buf (op_extra_len op))]}; buffer_own buf data] N →
  triple N (send_deferred_reply m send_rc) (λ '(response, again) N',
    if again : bool then N' = N ∧ send_rc = (- EBUSY)%Z
    else N' = ∅ ∧ (response = None ∧ (∃ n, alloc_ok n = false) ∨
      completion_ok op result data ∧ response = Some (request_id, NRPC_STATUS_OK, outcome_body op (Done result data)))).
Proof.
  intros Hop Hdone Hroom Hbuf Hs. set (rm := ReplyMsg request_id result (op_opcode op) buf (op_extra_len op)) in *.
  assert (reply_body rm ((λ _, data) <$> rm_extra_data rm) = outcome_body op (Done result data)) as Hbody.
  { unfold rm, rm_extra_data. destruct op; simpl in Hbuf; try (by rewrite Hbuf). by destruct Hbuf as [? ->]. }
  pose proof (send_reply_triple rm data m send_rc N) as Ht. cbv zeta in Ht. rewrite Hbody in Ht.
  eapply triple_mono; [apply Ht; [|exact Hs]|].
  - destruct Hroom as [Hshort|]; [left|by right].
    pose proof (outcome_body_fits request_id op result data buf Hop (proj2 (completion_iff _ _ _) (conj Hdone Hshort))). unfold rm. lia.
  - intros [response []] N'; [done|]. intros [-> [?|(Hfits & _ & ->)]]; (split; [done|]); [by left|right]. split; [|done].
    apply completion_iff. split; [done|]. intros Hlong. destruct op as [| | |oid offset len| | |]; try done.
    destruct Hop as (_ & _ & Hf). cbn [long_read] in Hlong. rewrite <-Hbody in Hfits.
    apply Z.le_ngt in Hfits. apply Hfits, long_body_overflows; [done|]. unfold fits in Hf. simpl. lia.
Qed.

(** When the reply buffer cannot be allocated nothing else is. *)
Lemma send_deferred_reply_oom m send_rc h : alloc_ok (mem_next h) = false →
  send_deferred_reply m send_rc h = send_deferred_reply (O := λ _, false) m send_rc h.
Proof.
  intros Hoom. unfold send_deferred_reply, load_reply, mload, try_alloc. m_simpl.
  destruct (mem_cells h !! m) as [[]|]; m_simpl; try done. by rewrite Hoom.
Qed.

(** The reply of a long read gets a buffer of at most 7 bytes and is written past its end. *)
Lemma long_reply_undefined rm data p m send_rc h :
  rm_opcode rm = RPC_OP_READ → (2 ^ 32 - 8 ≤ rm_extra_len rm < 2 ^ 32)%Z → rm_extra_data rm = Some p →
  mem_cells h !! m = Some (CReply rm) → mem_cells h !! p = Some (CBytes data) → alloc_ok (mem_next h) = true →
  send_deferred_reply m send_rc h = None.
Proof.
  intros Hopc Hlen Hp Hm Hd Hok. unfold send_deferred_reply, load_reply, load_extra, load_bytes, mload, try_alloc. m_simpl.
  rewrite Hm. m_simpl. rewrite Hok. m_simpl. rewrite Hp. m_simpl. rewrite Hd. m_simpl. rewrite decide_True; [done|].
  by apply long_body_overflows.
Qed.

(** The callback is told what the arguments and the pending call say, and the call is freed. *)
Lemma response_triple pcall p body err :
  triple {[pcall := p]} (client_response_cb IO_ERROR pcall body err) (λ e N, N = ∅ ∧
    e = if decide (err ≠ 0)%Z then transport_failed IO_ERROR p
        else if decide (length body < 4) then transport_failed IO_ERROR p else response_event p body).
Proof.
  unfold client_response_cb. eapply (triple_bind _ _ _ (λ x N', x = p ∧ N' = {[pcall := p]})).
  { eapply triple_load; [apply lookup_singleton_eq|done]. }
  intros ? ? [-> ->]. eapply triple_bind; [exact (triple_sep_free _ _ [] _ (sep_single _))|].
  intros ? ? ->. by apply triple_ret.
Qed.

(** The client reads out of the answer what became of the operation. *)
Lemma answer_event c o :
  op_typed (sp_op c) → (∀ result data, o = Done result data → completion_ok (sp_op c) result data) →
  let p := PendingCall (op_callback (sp_op c) (sp_cb c)) (sp_ctx c) in
  let body := outcome_body (sp_op c) o in
  (if decide (length body < 4) then transport_failed IO_ERROR p else response_event p body) = outcome_event c o.
Proof.
  destruct c as [op cb ctx outs ev]. intros Hop Hdone p body. cbn [sp_op sp_cb sp_ctx] in *. destruct o as [rc|result data].
  - subst body. cbn [outcome_body]. rewrite put_le_length. simpl. unfold response_event, outcome_event. simpl.
    assert (fits (8 * Z.of_nat 4) (u32 rc)) as Hfits by by apply wrap_fits.
    destruct op; simpl; rewrite ?put_le_length; simpl; by rewrite get_put_le_end.
  - destruct (client_reads_reply 0 op mem_empty result data 0 cb ctx (Mem 1 {[0 := p]}) Hop (Hdone _ _ eq_refl)) as (h' & Hr & _);
      [by apply lookup_singleton_eq|].
    assert (reply_body (op_reply 0 op mem_empty result) (snd <$> op_extra op mem_empty data) = body) as Hb by (by destruct op).
    rewrite Hb in Hr. unfold client_response_cb, mload, mfree in Hr. m_simpl in Hr. rewrite lookup_singleton_eq in Hr. m_simpl in Hr.
    rewrite lookup_singleton_eq in Hr. by injection Hr.
Qed.
End triples.

(** What the RPC thread does with a message: as [reply_triple] says, or the overflow. *)
Lemma reply_cases {E : StorageEnv} {O : AllocOracle} {I} (own : I → gmap nat cell → Prop) items request_id op result data buf m send_rc N h :
  op_typed op → completed_ok op result data → buffer_for op buf →
  sep [{[m := CReply (ReplyMsg request_id result (op_opcode op) buf (op_extra_len op))]}; buffer_own buf data] N →
  heap_with own items N h →
  (∃ response again h' N', send_deferred_reply m send_rc h = Some ((response, again), h') ∧ heap_with own items N' h' ∧
    if again : bool then N' = N ∧ send_rc = (- EBUSY)%Z
    else N' = ∅ ∧ (response = None ∧ (∃ n, alloc_ok n = false) ∨
      completion_ok op result data ∧ response = Some (request_id, NRPC_STATUS_OK, outcome_body op (Done result data)))) ∨
  (send_deferred_reply m send_rc h = None ∧ long_read op).
Proof.
  intros Hop Hdone Hbuf Hsep Hown. destruct (decide (long_read op)) as [Hlong|Hshort].
  2: { left. destruct (heap_of_run _ _ _ _ _ _ (reply_triple request_id op result data buf m send_rc N Hop Hdone
      (or_introl Hshort) Hbuf Hsep) Hown) as ([response again] & h' & N' & Hrun & HN & Hown').
    by exists response, again, h', N'. }
  destruct (alloc_ok (mem_next h)) eqn:Hok.
  - right. split; [|done]. destruct op as [| | |oid offset len| | |]; try done. destruct Hbuf as [p ->].
    cbn [op_opcode op_extra_len buffer_own] in Hsep. cbn [long_read] in Hlong.
    assert (N ⊆ mem_cells h) as Hsub.
    { destruct Hown as [_ (ms & _ & (R & -> & _))]. apply map_union_subseteq_l. }
    apply (long_reply_undefined (ReplyMsg request_id result RPC_OP_READ (Some p) len) data p); try done.
    + destruct Hop as (_ & _ & Hf). unfold fits in Hf. simpl. lia.
    + eapply lookup_weaken; [by eapply sep_lookup|done].
    + eapply lookup_weaken; [|done]. eapply sep_lookup. exact (sep_pull 1 [_; {[p := CBytes data]}] _ _ eq_refl Hsep).
  - left. rewrite (send_deferred_reply_oom _ _ _ Hok).
    destruct (heap_of_run _ _ _ _ _ _ (reply_triple (O := λ _, false) request_id op result data buf m send_rc N Hop Hdone
      (or_intror (λ _, eq_refl)) Hbuf Hsep) Hown) as ([response again] & h' & N' & Hrun & HN & Hown').
    exists response, again, h', N'. split_and!; [done..|]. destruct again; [done|]. destruct HN as [-> [[-> _]|[Hc _]]]; (split; [done|]).
    + left. split; [done|by eexists].
    + by apply completion_iff in Hc as [_ ?].
Qed.

(** ** The relation between the two *)

Section relation.
Context {E : StorageEnv}.
Implicit Types (s : system) (calls : list spec_call).

(** A call as the specification keeps it. *)
Definition call_ok (sc : spec_call) : Prop :=
  op_typed (sp_op sc) ∧ (∀ result data, Done result data ∈ sp_outcomes sc → completed_ok (sp_op sc) result data) ∧
  ∀ e, sp_event sc = Some e → returnable sc e.

(** An outcome that fits the reply. *)
Definition answerable (op : client_op) (o : outcome) : Prop := ∀ result data, o = Done result data → completion_ok op result data.

(** The request is the one that the call sends. *)
Definition request_of (rq : rpc_request) (sc : spec_call) : Prop :=
  rq_opcode rq = op_opcode (sp_op sc) ∧ rq_body rq = op_body (sp_op sc).

(** The blocks of a job. *)
Definition job_owns calls (j : nat * job) (N : gmap nat cell) : Prop :=
  ∃ sc, calls !! j.1 = Some sc ∧ let op := sp_op sc in
  match j.2 with
  | InEngine rq ctx => ∃ buf data, rq = op_request op (default 0 buf) ∧ buffer_for op buf ∧
      sep [{[ctx := CBridge (BridgeCtx (Z.of_nat j.1) (op_opcode op) buf (op_extra_len op))]}; buffer_own buf data] N
  | InQueue m => ∃ buf result data, Done result data ∈ sp_outcomes sc ∧ buffer_for op buf ∧
      sep [{[m := CReply (ReplyMsg (Z.of_nat j.1) result (op_opcode op) buf (op_extra_len op))]}; buffer_own buf data] N
  | Answered body => N = ∅ ∧ (body = [] ∨ ∃ o, o ∈ sp_outcomes sc ∧ answerable op o ∧ body = outcome_body op o)
  end.

(** The block of an open call; of a refused one, that is never freed. *)
Definition call_owns calls (j : option (nat * nat)) (N : gmap nat storage_pending_call) : Prop :=
  match j with
  | Some (id, pcall) => ∃ sc, calls !! id = Some sc ∧ N = {[pcall := PendingCall (op_callback (sp_op sc) (sp_cb sc)) (sp_ctx sc)]}
  | None => ∃ l p, N = {[l := p]}
  end.

Definition client_items (opened : list (nat * nat)) (refused : nat) : list (option (nat * nat)) :=
  (Some <$> opened) ++ replicate refused None.

(** What was sent, the open calls and the callbacks made are those of the specification. *)
Record calls_rel (sent : list rpc_request) (ids : list nat) (events : list (nat * client_event)) calls : Prop := {
  rel_calls : Forall call_ok calls;
  rel_sent : Forall2 request_of sent calls;
  rel_once : NoDup ids;
  rel_open id : id ∈ ids ↔ ∃ sc, calls !! id = Some sc ∧ sp_event sc = None;
  rel_told : NoDup events.*1;
  rel_events id e : (id, e) ∈ events ↔ ∃ sc, calls !! id = Some sc ∧ sp_event sc = Some e
}.

Record sys_rel s calls : Prop := {
  rel_spec : calls_rel (y_sent s) (y_open s).*1 (y_events s) calls;
  rel_client : heap_of (call_owns calls) (client_items (y_open s) (y_refused s)) (y_client s);
  rel_server : heap_of (job_owns calls) (y_jobs s) (y_server s)
}.

Lemma sys_rel_init : sys_rel system_init [].
Proof.
  assert (∀ A, mem_wf (A := A) mem_empty) as Hwf by (intros A l [? [=]]).
  split; simpl.
  - split; try by constructor.
    + intros id. split; [by intros ?%not_elem_of_nil|intros (sc & [=] & _)].
    + intros id e. split; [by intros ?%not_elem_of_nil|intros (sc & [=] & _)].
  - split; [done|]. exists []. by split.
  - split; [done|]. exists []. by split.
Qed.

(** Calls only grow. *)
Definition grows calls calls' : Prop := ∀ id sc, calls !! id = Some sc →
  ∃ sc', calls' !! id = Some sc' ∧ sp_op sc' = sp_op sc ∧ sp_cb sc' = sp_cb sc ∧ sp_ctx sc' = sp_ctx sc ∧
    ∀ o, o ∈ sp_outcomes sc → o ∈ sp_outcomes sc'.

Lemma job_owns_grows calls calls' j N : grows calls calls' → job_owns calls j N → job_owns calls' j N.
Proof.
  intros Hg (sc & Hsc & Hj). destruct (Hg _ _ Hsc) as (sc' & Hsc' & Hop & _ & _ & Ho). exists sc'. split; [done|].
  cbv zeta in *. rewrite Hop. destruct (j.2) as [rq ctx|m|body]; [done| |].
  - destruct Hj as (buf & result & data & Hd & ?). exists buf, result, data. split; [by apply Ho|done].
  - destruct Hj as (-> & [->|(o & ? & ? & ->)]); (split; [done|]); [by left|]. right. exists o. split_and!; [by apply Ho|done|done].
Qed.

Lemma call_owns_grows calls calls' j N : grows calls calls' → call_owns calls j N → call_owns calls' j N.
Proof.
  intros Hg. destruct j as [[id p]|]; [|done]. intros (sc & Hsc & ->).
  destruct (Hg _ _ Hsc) as (sc' & Hsc' & Hop & Hcb & Hctx & _). exists sc'. split; [done|]. by rewrite Hop, Hcb, Hctx.
Qed.

Lemma grows_refl calls : grows calls calls.
Proof. intros id sc Hsc. by exists sc. Qed.

Lemma grows_app calls more : grows calls (calls ++ more).
Proof. intros id sc Hsc. exists sc. split; [by apply lookup_app_l_Some|done]. Qed.

Lemma grows_insert calls id sc sc' : calls !! id = Some sc →
  sp_op sc' = sp_op sc → sp_cb sc' = sp_cb sc → sp_ctx sc' = sp_ctx sc → (∀ o, o ∈ sp_outcomes sc → o ∈ sp_outcomes sc') →
  grows calls (<[id := sc']> calls).
Proof.
  intros Hid ???? i x Hx. destruct (decide (i = id)) as [->|].
  - exists sc'. rewrite list_lookup_insert_eq by (by eapply lookup_lt_Some). by simplify_eq.
  - exists x. by rewrite list_lookup_insert_ne by done.
Qed.

(** A call is made. *)
Lemma calls_make sent ids events calls op cb ctx rq :
  calls_rel sent ids events calls → op_typed op → request_of rq (SpecCall op cb ctx [] None) →
  calls_rel (sent ++ [rq]) (ids ++ [length sent]) events (calls ++ [SpecCall op cb ctx [] None]).
Proof.
  intros [Hc Hs Ho Hop Ht He] Hok Hrq. pose proof (Forall2_length _ _ _ Hs) as Hlen. split.
  - apply Forall_app. split; [done|]. apply Forall_singleton. split_and!; [done|by intros ?? ?%not_elem_of_nil|done].
  - apply Forall2_app; [done|]. by constructor.
  - apply NoDup_app. split_and!; [done| |apply NoDup_singleton].
    intros id (sc & Hsc & _)%Hop ->%list_elem_of_singleton. apply lookup_lt_Some in Hsc. lia.
  - intros id. rewrite elem_of_app, list_elem_of_singleton, Hop, Hlen. split.
    + intros [(sc & Hsc & ?)| ->]; [exists sc; split; [by apply lookup_app_l_Some|done]|].
      eexists. split; [by apply list_lookup_middle|done].
    + intros (sc & [Hsc|[? Hsc]]%lookup_app_Some & ?); [by left; exists sc|right].
      apply list_lookup_singleton_Some in Hsc as [? _]. lia.
  - done.
  - intros id e. rewrite He. split.
    + intros (sc & Hsc & ?). exists sc. split; [by apply lookup_app_l_Some|done].
    + intros (sc & [Hsc|[_ Hsc]]%lookup_app_Some & He'); [by exists sc|].
      by apply list_lookup_singleton_Some in Hsc as [_ <-].
Qed.

(** A call changes at most its outcomes and its event. *)
Lemma calls_change sent ids events ids' events' calls id sc sc' :
  calls_rel sent ids events calls → calls !! id = Some sc → sp_op sc' = sp_op sc → call_ok sc' →
  NoDup ids' → (∀ i, i ∈ ids' ↔ if decide (i = id) then sp_event sc' = None else i ∈ ids) →
  NoDup events'.*1 → (∀ i e, (i, e) ∈ events' ↔ if decide (i = id) then sp_event sc' = Some e else (i, e) ∈ events) →
  calls_rel sent ids' events' (<[id := sc']> calls).
Proof.
  intros [Hc Hs Ho Hop Ht He] Hid Heq Hok Hids Hin Hev Hine. pose proof (lookup_lt_Some _ _ _ Hid) as Hlt.
  assert (∀ i (P : spec_call → Prop), (∃ x, <[id := sc']> calls !! i = Some x ∧ P x) ↔
    if decide (i = id) then P sc' else ∃ x, calls !! i = Some x ∧ P x) as Hall.
  { intros i P. case_decide as Hi; [subst i; rewrite list_lookup_insert_eq by done|by rewrite list_lookup_insert_ne by done].
    split; [by intros (? & [= <-] & ?)|intros ?; by exists sc']. }
  split; [by apply Forall_insert| |done| |done|].
  - apply Forall2_same_length_lookup_2.
    { rewrite length_insert. by eapply Forall2_length. }
    intros i rq x Hrq Hx. destruct (decide (i = id)) as [->|].
    + rewrite list_lookup_insert_eq in Hx by done. injection Hx as <-. unfold request_of. rewrite Heq.
      exact (Forall2_lookup_lr _ _ _ _ _ _ Hs Hrq Hid).
    + rewrite list_lookup_insert_ne in Hx by done. by eapply Forall2_lookup_lr.
  - intros i. rewrite Hin, (Hall i (λ x, sp_event x = None)). case_decide; [done|apply Hop].
  - intros i e. rewrite Hine, (Hall i (λ x, sp_event x = Some e)). case_decide; [done|apply He].
Qed.

(** An outcome of a call. *)
Lemma calls_outcome sent ids events calls id sc o :
  calls_rel sent ids events calls → calls !! id = Some sc → (∀ result data, o = Done result data → completed_ok (sp_op sc) result data) →
  calls_rel sent ids events (<[id := add_outcome o sc]> calls) ∧ grows calls (<[id := add_outcome o sc]> calls).
Proof.
  intros Hrel Hid Ho. split.
  - pose proof (Forall_lookup_1 _ _ _ _ (rel_calls _ _ _ _ Hrel) Hid) as (Hok & Hd & Hr).
    apply (calls_change _ ids events _ _ _ _ sc); [done|done|done| |by eapply rel_once| |by eapply rel_told|].
    + split_and!; simpl; [done|intros r d [<-|?]%elem_of_cons; [by apply Ho|by apply Hd]|].
      intros e [->|(o' & ? & ->)]%Hr; [by left|]. right. exists o'. split; [by apply list_elem_of_further|done].
    + intros i. case_decide as Hi; [subst i|done]. rewrite (rel_open _ _ _ _ Hrel). simpl. naive_solver.
    + intros i e. case_decide as Hi; [subst i|done]. rewrite (rel_events _ _ _ _ Hrel). simpl. naive_solver.
  - eapply grows_insert; [done..|]. intros ??. by apply list_elem_of_further.
Qed.

(** The callback of an open call. *)
Lemma calls_return sent ids events calls k id sc e :
  calls_rel sent ids events calls → ids !! k = Some id → calls !! id = Some sc → returnable sc e →
  calls_rel sent (delete k ids) (events ++ [(id, e)]) (<[id := set_event e sc]> calls) ∧ sp_event sc = None ∧
  grows calls (<[id := set_event e sc]> calls).
Proof.
  intros Hrel Hk Hid He. pose proof (Forall_lookup_1 _ _ _ _ (rel_calls _ _ _ _ Hrel) Hid) as (Hok & Hd & _).
  assert (sp_event sc = None) as Hnone.
  { destruct (proj1 (rel_open _ _ _ _ Hrel id)) as (sc' & Hsc' & ?); [by eapply list_elem_of_lookup_2|by simplify_eq]. }
  pose proof (delete_Permutation _ _ _ Hk) as Hperm. pose proof (rel_once _ _ _ _ Hrel) as Hnd.
  rewrite Hperm, NoDup_cons in Hnd. destruct Hnd as [Hni Hnd]. split_and!; [|done|by eapply grows_insert].
  assert (id ∉ events.*1) as Hnot.
  { intros ([id' e'] & -> & Hin)%list_elem_of_fmap. apply (rel_events _ _ _ _ Hrel) in Hin as (sc' & Hsc' & ?). simplify_eq/=. }
  eapply (calls_change _ ids events); [done|done|done| |done| | |].
  - split_and!; simpl; [done|done|]. by intros ? [= <-].
  - intros i. assert (i ∈ ids ↔ i = id ∨ i ∈ delete k ids) as Hi by (by rewrite Hperm, elem_of_cons at 1).
    case_decide; [subst; simpl; naive_solver|naive_solver].
  - rewrite fmap_app. apply NoDup_app. split_and!; [by eapply rel_told| |apply NoDup_singleton].
    by intros i Hi ->%list_elem_of_singleton.
  - intros i x. rewrite elem_of_app, list_elem_of_singleton. case_decide; simpl; [subst i|naive_solver].
    split; [|naive_solver]. intros [Hin|[= ->]]; [|done]. destruct Hnot. apply list_elem_of_fmap. by eexists (_, _).
Qed.

(** The calls stay the ones they are. *)
Lemma spec_steps_grow calls calls' : rtc spec_step calls calls' → grows calls calls'.
Proof.
  induction 1 as [|x y z Hstep _ IH]; [apply grows_refl|]. intros id sc Hsc.
  assert (grows x y) as Hg.
  { destruct Hstep; [apply grows_app|by eapply grows_insert; try done; intros ??; apply list_elem_of_further|by eapply grows_insert]. }
  destruct (Hg _ _ Hsc) as (sc1 & Hsc1 & Hop1 & Hcb1 & Hctx1 & Ho1).
  destruct (IH _ _ Hsc1) as (sc2 & Hsc2 & Hop2 & Hcb2 & Hctx2 & Ho2).
  exists sc2. split_and!; [done|congruence..|]. intros o Ho. by apply Ho2, Ho1.
Qed.
End relation.

(** ** Every step of the code is one of the specification, or none *)

Section simulation.
Context {E : StorageEnv} (Oc Os : AllocOracle) (c : storage_client).
#[local] Set Default Proof Using "Type*".
Context (Hclient : ∀ n, alloc_ok (AllocOracle := Oc) n = true).
Implicit Types (s : system) (calls : list spec_call).

Lemma client_items_app opened x n : client_items (opened ++ [x]) n ≡ₚ Some x :: client_items opened n.
Proof. unfold client_items. rewrite fmap_app, <-(assoc_L (++)). symmetry. apply Permutation_middle. Qed.

Lemma client_items_refused opened n : client_items opened (S n) ≡ₚ None :: client_items opened n.
Proof. unfold client_items. symmetry. apply Permutation_middle. Qed.

Lemma client_items_delete opened k x n : opened !! k = Some x → client_items opened n ≡ₚ Some x :: client_items (delete k opened) n.
Proof. intros Hk. unfold client_items. by rewrite (delete_Permutation _ _ _ Hk) at 1. Qed.

Lemma insert_Permutation {T} (l : list T) i x y : l !! i = Some x → <[i := y]> l ≡ₚ y :: delete i l.
Proof.
  intros Hi. rewrite (delete_Permutation (<[i := y]> l) i y) by (by apply list_lookup_insert_eq; eapply lookup_lt_Some).
  f_equiv. apply reflexive_eq. clear Hi. revert i. induction l as [|z l IH]; intros [|i]; simpl; auto; by f_equal; apply IH.
Qed.

(** The calls that are new were made. *)
Definition made (a : action) (calls calls' : list spec_call) : Prop :=
  ∀ id sc', calls' !! id = Some sc' →
    (∃ sc, calls !! id = Some sc ∧ sp_op sc = sp_op sc' ∧ sp_cb sc = sp_cb sc' ∧ sp_ctx sc = sp_ctx sc') ∨
    a = Call (sp_op sc') (sp_cb sc') (sp_ctx sc') true.

Lemma made_none a calls : made a calls calls.
Proof. intros id sc' Hsc. left. by exists sc'. Qed.

Lemma made_insert a calls id sc sc' : calls !! id = Some sc →
  sp_op sc = sp_op sc' → sp_cb sc = sp_cb sc' → sp_ctx sc = sp_ctx sc' → made a calls (<[id := sc']> calls).
Proof.
  intros Hid ??? i x Hx. left. destruct (decide (i = id)) as [->|Hne].
  - rewrite list_lookup_insert_eq in Hx by (by eapply lookup_lt_Some). injection Hx as <-. by exists sc.
  - rewrite list_lookup_insert_ne in Hx by done. by exists x.
Qed.

Lemma made_call calls op cb ctx : made (Call op cb ctx true) calls (calls ++ [SpecCall op cb ctx [] None]).
Proof.
  intros id x [Hx|[_ Hx]]%lookup_app_Some; [left; by exists x|right]. by apply list_lookup_singleton_Some in Hx as [_ <-].
Qed.

(** A step is one of the specification, or none, or is undefined, which takes a long read. *)
Definition simulated (a : action) (calls : list spec_call) (r : option system) : Prop :=
  (∃ s' calls', r = Some s' ∧ rtc spec_step calls calls' ∧ made a calls calls' ∧ sys_rel s' calls') ∨
  (r = None ∧ Exists (λ sc, long_read (sp_op sc)) calls).

Lemma simulated_stay a s calls : sys_rel s calls → simulated a calls (Some s).
Proof. intros H. left. exists s, calls. split_and!; [done|done|apply made_none|done]. Qed.

Lemma simulated_step a s calls calls' : spec_step calls calls' → made a calls calls' → sys_rel s calls' → simulated a calls (Some s).
Proof. intros Hstep Hmade H. left. exists s, calls'. split_and!; [done|by apply rtc_once|done..]. Qed.

(** A call that is too long to be sent leaves everything as it is. *)
Lemma long_write_runs s calls op cb ctx accepted :
  sys_rel s calls → op_fits op → ¬ op_typed op → ∃ s', call_step Oc c op cb ctx accepted s = Some s' ∧ sys_rel s' calls.
Proof.
  intros [Hspec Hc Hs] Hfits Hlong.
  destruct (heap_of_run _ _ _ _ _ _ (long_write_triple (O := Oc) (λ _, if accepted then 0 else -1)%Z c op cb ctx Hclient Hfits Hlong) (proj2 (heap_of_empty _ _ _) Hc))
    as ([rc rq] & hc & N & Hrun & (-> & -> & ->) & Hown).
  unfold call_step. rewrite Hrun. simpl. eexists. split; [done|]. split; [done|by apply heap_of_empty|done].
Qed.

Lemma call_runs s calls op cb ctx accepted :
  sys_rel s calls → op_typed op →
  ∃ s', call_step Oc c op cb ctx accepted s = Some s' ∧
    sys_rel s' (if sc_is_connected c && accepted then calls ++ [SpecCall op cb ctx [] None] else calls).
Proof.
  intros [Hspec Hc Hs] Hop.
  destruct (heap_of_run _ _ _ _ _ _ (client_call_triple (O := Oc) (λ _, if accepted then 0 else -1)%Z c op cb ctx Hclient Hop) (proj2 (heap_of_empty _ _ _) Hc))
    as ([rc rq] & hc & N & Hrun & (p & -> & Hrq) & Hown).
  assert (heap_of (call_owns calls) (client_items (y_open s) (S (y_refused s))) hc) as Hleak.
  { eapply heap_of_perm; [symmetry; apply client_items_refused|]. eapply heap_of_close; [exact Hown|]. by eexists _, _. }
  unfold call_step. rewrite Hrun. simpl. eexists. split; [done|]. cbv zeta in Hrq.
  destruct (sc_is_connected c); simpl; [|by destruct Hrq as [-> ->]].
  destruct Hrq as [-> ->]. destruct accepted; simpl; [|done].
  set (sc := SpecCall op cb ctx [] None). split; simpl.
  - rewrite fmap_app. by apply calls_make.
  - eapply heap_of_perm; [symmetry; apply client_items_app|].
    eapply heap_of_close; [eapply heap_with_mono; [|exact Hown]; intros ??; apply call_owns_grows, grows_app|].
    exists sc. split; [|done]. rewrite (Forall2_length _ _ _ (rel_sent _ _ _ _ Hspec)). by apply list_lookup_middle.
  - eapply heap_of_mono; [|exact Hs]. intros ??. apply job_owns_grows, grows_app.
Qed.

Lemma call_simulated s calls op cb ctx accepted : sys_rel s calls → op_fits op →
  simulated (Call op cb ctx accepted) calls (call_step Oc c op cb ctx accepted s).
Proof.
  intros Hrel Hfits. destruct (decide (op_typed op)) as [Hop|Hlong].
  - destruct (call_runs s calls op cb ctx accepted Hrel Hop) as (s' & -> & Hrel').
    destruct accepted; rewrite ?andb_false_r, ?andb_true_r in Hrel'; [|by apply simulated_stay].
    destruct (sc_is_connected c); [|by apply simulated_stay].
    by eapply simulated_step; [apply spec_make|apply made_call|].
  - destruct (long_write_runs s calls op cb ctx accepted Hrel Hfits Hlong) as (s' & -> & Hrel'). by apply simulated_stay.
Qed.

(** The server's heap and jobs change, and the specification stays. *)
Lemma server_stay a s calls hs jobs : sys_rel s calls → heap_of (job_owns calls) jobs hs → simulated a calls (Some (set_server hs jobs s)).
Proof. intros [Hspec Hc _] Hs. by apply simulated_stay. Qed.

(** The same, with an outcome of a call. *)
Lemma server_outcome a s calls id sc o hs jobs :
  sys_rel s calls → calls !! id = Some sc → (∀ result data, o = Done result data → completed_ok (sp_op sc) result data) →
  (grows calls (<[id := add_outcome o sc]> calls) → heap_of (job_owns (<[id := add_outcome o sc]> calls)) jobs hs) →
  simulated a calls (Some (set_server hs jobs s)).
Proof.
  intros [Hspec Hc _] Hid Ho Hs. destruct (calls_outcome _ _ _ _ _ _ _ Hspec Hid Ho) as [Hspec' Hg].
  apply (simulated_step _ _ _ (<[id := add_outcome o sc]> calls)); [by eapply spec_outcome|by eapply made_insert|].
  split; [done| |by apply Hs]. eapply heap_of_mono; [|exact Hc]. intros ??. by apply call_owns_grows.
Qed.

Lemma receive_simulated a s calls id rq rc : sys_rel s calls → y_sent s !! id = Some rq → simulated a calls (receive_step Os id rq rc s).
Proof.
  intros Hrel Hrq. pose proof Hrel as [Hspec _ Hs].
  destruct (Forall2_lookup_l _ _ _ _ _ (rel_sent _ _ _ _ Hspec) Hrq) as (sc & Hsc & Hop & Hbody).
  pose proof (Forall_lookup_1 _ _ _ _ (rel_calls _ _ _ _ Hspec) Hsc) as (Htyped & _ & _).
  destruct (heap_of_run _ _ _ _ _ _ (rpc_dispatch_triple (O := Os) (Z.of_nat id) (sp_op sc) rc Htyped) (proj2 (heap_of_empty _ _ _) Hs))
    as (res & hs & N & Hrun & (r & -> & Hr) & Hown).
  unfold receive_step. rewrite Hop, Hbody, Hrun. simpl.
  destruct Hr as [(buf & ctx & data & -> & Hbuf & Hsep)|(status & body & -> & -> & Hb)].
  - apply server_stay; [done|]. eapply heap_of_perm; [apply Permutation_cons_append|].
    eapply heap_of_close; [done|]. exists sc. split; [done|]. by exists buf, data.
  - destruct Hb as [[-> _]|[_ ->]].
    + apply server_stay; [done|]. eapply heap_of_perm; [apply Permutation_cons_append|].
      eapply heap_of_close; [done|]. exists sc. split; [done|]. split; [done|by left].
    + apply (server_outcome _ _ _ id sc (Refused rc)); [done|done|done|]. intros Hg.
      eapply heap_of_perm; [apply Permutation_cons_append|].
      eapply heap_of_close; [by eapply heap_with_mono; [intros ??; apply job_owns_grows|]|]. eexists. split; [by apply list_lookup_insert_eq; eapply lookup_lt_Some|].
      split; [done|]. right. exists (Refused rc). split_and!; [by apply list_elem_of_here|done|done].
Qed.

Lemma complete_simulated a s calls i id rq ctx result data :
  sys_rel s calls → y_jobs s !! i = Some (id, InEngine rq ctx) → engine_ok rq result data →
  simulated a calls (complete_step Os i id rq ctx result data s).
Proof.
  intros Hrel Hj Hok. pose proof Hrel as [Hspec _ Hs]. eapply heap_of_perm in Hs; [|by apply delete_Permutation]. apply heap_of_open in Hs as (N & (sc & Hsc & buf & data0 & Hrq & Hbuf & Hsep) & Hown). cbn [fst snd] in Hsc, Hrq. subst rq.
  pose proof (Forall_lookup_1 _ _ _ _ (rel_calls _ _ _ _ Hspec) Hsc) as (Htyped & _ & _).
  set (b := BridgeCtx _ _ _ _) in Hsep.
  destruct (heap_of_run _ _ _ _ _ _ (complete_triple (O := Os) _ _ _ b _ result data _ Hbuf eq_refl Hsep) Hown)
    as (msg & hs & N' & Hrun & HN & Hown'). clear Hown. rename Hown' into Hown.
  unfold complete_step. rewrite Hrun. simpl.
  apply (server_outcome _ _ _ id sc (Done result data)); [done|done| |].
  { intros ?? [= <- <-]. destruct Hok as [Hfits Hlen]. split; [done|]. by destruct (sp_op sc). }
  intros Hg. assert (∀ j N, job_owns calls j N → job_owns _ j N) as Hmono by (intros ??; by apply job_owns_grows).
  apply (heap_with_mono _ _ _ _ _ Hmono) in Hown. destruct msg as [m|]; [|destruct HN as [-> _]; by apply heap_of_empty].
  eapply heap_of_perm; [symmetry; by eapply insert_Permutation|]. eapply heap_of_close; [done|].
  eexists. split; [by apply list_lookup_insert_eq; eapply lookup_lt_Some|].
  exists buf, result, data. split; [by apply list_elem_of_here|done].
Qed.

Lemma reply_simulated a s calls i id msg send_rc :
  sys_rel s calls → y_jobs s !! i = Some (id, InQueue msg) → simulated a calls (reply_step Os i msg send_rc s).
Proof.
  intros Hrel Hj. pose proof Hrel as [Hspec _ Hs]. eapply heap_of_perm in Hs; [|by apply delete_Permutation]. apply heap_of_open in Hs as (N & HN & Hown).
  pose proof HN as (sc & Hsc & buf & result & data & Ho & Hbuf & Hsep). cbn [fst snd] in Hsc, Ho.
  pose proof (Forall_lookup_1 _ _ _ _ (rel_calls _ _ _ _ Hspec) Hsc) as (Htyped & Hd & _). unfold reply_step.
  destruct (reply_cases (O := Os) _ _ _ _ _ _ _ _ send_rc _ _ Htyped (Hd _ _ Ho) Hbuf Hsep Hown)
    as [(response & again & hs & N' & Hrun & Hown' & HN')|[Hrun Hlong]]; rewrite Hrun; simpl.
  2: { right. split; [done|]. apply Exists_exists. exists sc. split; [by eapply list_elem_of_lookup_2|done]. }
  clear Hown. rename Hown' into Hown. apply server_stay; [done|]. destruct again.
  { destruct HN' as [-> _]. eapply heap_of_perm; [symmetry; by apply delete_Permutation|]. by eapply heap_of_close. }
  destruct HN' as [-> [[-> _]|[Hdone ->]]]; [by apply heap_of_empty|]. case_decide; [|by apply heap_of_empty]. rewrite Nat2Z.id.
  eapply heap_of_perm; [symmetry; by eapply insert_Permutation|]. eapply heap_of_close; [done|].
  exists sc. split; [done|]. split; [done|]. right. exists (Done result data). split_and!; [done|by intros ?? [= <- <-]|done].
Qed.

(** What the library's callback does for the call that is open under an id. *)
Lemma finish_runs a s calls id sc body err :
  sys_rel s calls → calls !! id = Some sc → sp_event sc = None →
  let p := PendingCall (op_callback (sp_op sc) (sp_cb sc)) (sp_ctx sc) in
  let e := if decide (err ≠ 0)%Z then transport_failed IO_ERROR p
           else if decide (length body < 4) then transport_failed IO_ERROR p else response_event p body in
  (returnable sc e → simulated a calls (finish id body err s)) ∧
  ∃ s', finish id body err s = Some s' ∧ y_events s' = y_events s ++ [(id, e)].
Proof.
  intros Hrel Hsc Hnone p e. pose proof Hrel as [Hspec Hc Hs]. unfold finish.
  destruct (list_find _ _) as [[k [id' pcall]]|] eqn:Hf.
  2: { assert (id ∈ (y_open s).*1) as ([id' pcall] & -> & Hin)%list_elem_of_fmap by (apply (rel_open _ _ _ _ Hspec); by exists sc).
    apply list_find_None in Hf. rewrite Forall_forall in Hf. by destruct (Hf _ Hin). }
  apply list_find_Some in Hf as (Hk & Hid & _). simpl in Hid. subst id'.
  eapply heap_of_perm in Hc; [|by apply client_items_delete]. apply heap_of_open in Hc as (N & (sc' & Hsc' & ->) & Hown). rewrite Hsc in Hsc'. injection Hsc' as <-.
  destruct (heap_of_run _ _ _ _ _ _ (response_triple pcall p body err) Hown) as (e' & hc & N' & Hrun & [-> ->] & Hown').
  fold p e in Hrun. rewrite Hrun. simpl. split; [|by eexists]. intros He.
  destruct (calls_return _ _ _ _ k id sc e Hspec) as (Hspec' & _ & Hg); [by rewrite list_lookup_fmap, Hk|done|done|].
  apply (simulated_step _ _ _ (<[id := set_event e sc]> calls)); [by apply spec_return|by eapply made_insert|]. split; simpl.
  + by rewrite list_fmap_delete.
  + apply heap_of_empty. eapply heap_with_mono; [|exact Hown']. intros ??. by apply call_owns_grows.
  + eapply heap_of_mono; [|exact Hs]. intros ??. by apply job_owns_grows.
Qed.

Lemma finish_simulated a s calls id body err :
  sys_rel s calls →
  (err ≠ 0%Z ∨ body = [] ∨ ∃ sc o, calls !! id = Some sc ∧ o ∈ sp_outcomes sc ∧ answerable (sp_op sc) o ∧ body = outcome_body (sp_op sc) o) →
  simulated a calls (finish id body err s).
Proof.
  intros Hrel Hbody. pose proof Hrel as [Hspec _ _].
  destruct (decide (id ∈ (y_open s).*1)) as [Hopen|Hclosed].
  - apply (rel_open _ _ _ _ Hspec) in Hopen as (sc & Hsc & Hnone).
    apply (finish_runs a s calls id sc body err Hrel Hsc Hnone).
    pose proof (Forall_lookup_1 _ _ _ _ (rel_calls _ _ _ _ Hspec) Hsc) as (Htyped & _ & _).
    case_decide as Herr; [by left|]. destruct Hbody as [?|[->|(sc' & o & Hsc' & Ho & Hans & ->)]]; [done|by left|].
    simplify_eq. right. exists o. split; [done|]. by apply answer_event.
  - unfold finish. destruct (list_find _ _) as [[k [id' pcall]]|] eqn:Hf; [|by apply simulated_stay].
    apply list_find_Some in Hf as (Hk & <- & _). destruct Hclosed. apply list_elem_of_fmap. eexists. split; [done|].
    by eapply list_elem_of_lookup_2.
Qed.

Lemma step_simulated s calls a : sys_rel s calls → simulated a calls (system_step Oc Os c a s).
Proof.
  intros Hrel. destruct a as [op cb ctx accepted|id rc|i result data|i send_rc|i|id err]; simpl.
  - case_decide; [by apply call_simulated|by apply simulated_stay].
  - destruct (_ !! id) as [rq|] eqn:?; [by apply receive_simulated|by apply simulated_stay].
  - destruct (_ !! i) as [[id [rq ctx| |]]|] eqn:?; try by apply simulated_stay.
    case_decide; [by apply complete_simulated|by apply simulated_stay].
  - destruct (_ !! i) as [[id [|msg|]]|] eqn:?; try by apply simulated_stay. by eapply reply_simulated.
  - destruct (_ !! i) as [[id [| |body]]|] eqn:Hj; try by apply simulated_stay. pose proof Hrel as [Hspec Hc Hs].
    eapply heap_of_perm in Hs; [|by apply delete_Permutation]. apply heap_of_open in Hs as (N & (sc & Hsc & -> & Hbody) & Hown).
    apply finish_simulated.
    + split; [done|done|]. by apply heap_of_empty.
    + right. destruct Hbody as [?|(o & ? & ? & ?)]; [by left|]. right. by exists sc, o.
  - case_decide; [|by apply simulated_stay]. apply finish_simulated; [done|by left].
Qed.

(** The calls of a run were made in it, or were there before. *)
Definition all_made (acts : list action) calls calls' : Prop := ∀ id sc', calls' !! id = Some sc' →
  (∃ sc, calls !! id = Some sc ∧ sp_op sc = sp_op sc' ∧ sp_cb sc = sp_cb sc' ∧ sp_ctx sc = sp_ctx sc') ∨
  Call (sp_op sc') (sp_cb sc') (sp_ctx sc') true ∈ acts.

Lemma all_made_cons a acts calls1 calls2 calls3 : made a calls1 calls2 → all_made acts calls2 calls3 → all_made (a :: acts) calls1 calls3.
Proof.
  intros H1 H2 id sc3 H3. destruct (H2 id sc3 H3) as [(sc2 & Hsc2 & Eo & Ec & Ex)|?]; [|right; by apply list_elem_of_further].
  destruct (H1 id sc2 Hsc2) as [(sc1 & Hsc1 & Eo' & Ec' & Ex')| ->].
  - left. exists sc1. split_and!; [done|congruence..].
  - right. rewrite Eo, Ec, Ex. apply list_elem_of_here.
Qed.

Lemma run_simulated acts s calls : sys_rel s calls →
  (∃ s' calls', system_run Oc Os c acts s = Some s' ∧ rtc spec_step calls calls' ∧ all_made acts calls calls' ∧ sys_rel s' calls') ∨
  (system_run Oc Os c acts s = None ∧ ∃ calls', all_made acts calls calls' ∧ Exists (λ sc, long_read (sp_op sc)) calls').
Proof.
  revert s calls. induction acts as [|a acts IH]; intros s calls Hrel; simpl.
  { left. exists s, calls. split_and!; [done|done|intros id sc ?; left; by exists sc|done]. }
  destruct (step_simulated s calls a Hrel) as [(s1 & calls1 & -> & Hr1 & Hm1 & Hrel1)|[-> Hlong]]; simpl.
  2: { right. split; [done|]. exists calls. split; [|done]. intros id sc ?. left. by exists sc. }
  destruct (IH s1 calls1 Hrel1) as [(s2 & calls2 & -> & Hr2 & Hm2 & Hrel2)|(-> & calls2 & Hm2 & Hlong)].
  - left. exists s2, calls2. split_and!; [done|by etrans|by eapply all_made_cons|done].
  - right. split; [done|]. exists calls2. split; [by eapply all_made_cons|done].
Qed.

(** A run that is defined. *)
Lemma run_defined acts s s' calls : sys_rel s calls → system_run Oc Os c acts s = Some s' →
  ∃ calls', rtc spec_step calls calls' ∧ sys_rel s' calls'.
Proof.
  intros Hrel Hrun. destruct (run_simulated acts s calls Hrel) as [(s2 & calls2 & Hrun2 & Hsteps & _ & Hrel2)|[Hrun2 _]]; [|by rewrite Hrun in Hrun2].
  rewrite Hrun in Hrun2. injection Hrun2 as <-. by exists calls2.
Qed.

(** The answer of a completed operation reaches the callback. *)
Lemma finish_answers s calls id sc result data hs :
  sys_rel s calls → calls !! id = Some sc → sp_event sc = None → completion_ok (sp_op sc) result data →
  heap_with (job_owns calls) (y_jobs s) ∅ hs →
  ∃ s', finish id (outcome_body (sp_op sc) (Done result data)) 0 (set_server hs (y_jobs s) s) = Some s' ∧
    (id, op_event (sp_op sc) (sp_cb sc) (sp_ctx sc) result data) ∈ y_events s'.
Proof.
  intros [Hspec Hc _] Hsc Hnone Hdone Hs. set (o := Done result data).
  assert (answerable (sp_op sc) o) as Ho by by intros ?? [= <- <-].
  assert (∀ r d, o = Done r d → completed_ok (sp_op sc) r d) as Ho' by (intros ?? [= <- <-]; by apply completion_iff in Hdone as [? _]).
  pose proof (Forall_lookup_1 _ _ _ _ (rel_calls _ _ _ _ Hspec) Hsc) as (Htyped & _ & _).
  destruct (calls_outcome _ _ _ _ _ _ _ Hspec Hsc Ho') as [Hspec' Hg].
  destruct (finish_runs (Deliver 0) (set_server hs (y_jobs s) s) (<[id := add_outcome o sc]> calls) id (add_outcome o sc) (outcome_body (sp_op sc) o) 0)
    as [_ (s' & Hrun & Hevents)].
  - split; [done| |].
    + eapply heap_of_mono; [|exact Hc]. intros ??. by apply call_owns_grows.
    + apply heap_of_empty. eapply heap_with_mono; [|exact Hs]. intros ??. by apply job_owns_grows.
  - apply list_lookup_insert_eq. by eapply lookup_lt_Some.
  - done.
  - exists s'. split; [done|]. rewrite Hevents. apply elem_of_app. right. apply list_elem_of_singleton. f_equal.
    exact (eq_sym (answer_event sc o Htyped Ho)).
Qed.

(** A request that is taken in and completed while nothing fails waits for the RPC thread. *)
Lemma call_queued s calls id sc result data :
  (∀ n, alloc_ok (AllocOracle := Os) n = true) → sys_rel s calls → calls !! id = Some sc → completed_ok (sp_op sc) result data →
  let op := sp_op sc in let n := length (y_jobs s) in
  ∃ m buf hs N, system_run Oc Os c [Receive id IO_SUCCESS; Complete n result data] s =
      Some (set_server hs (y_jobs s ++ [(id, InQueue m)]) s) ∧ buffer_for op buf ∧
    sep [{[m := CReply (ReplyMsg (Z.of_nat id) result (op_opcode op) buf (op_extra_len op))]}; buffer_own buf data] N ∧
    heap_with (job_owns calls) (y_jobs s) N hs.
Proof.
  intros Hok Hrel Hsc Hdone op n. pose proof Hrel as [Hspec Hc Hs].
  assert (¬ ∃ n, alloc_ok (AllocOracle := Os) n = false) as Hoom by (intros [k Hk]; by rewrite Hok in Hk).
  pose proof (Forall_lookup_1 _ _ _ _ (rel_calls _ _ _ _ Hspec) Hsc) as (Htyped & _ & _).
  destruct (Forall2_lookup_r _ _ _ _ _ (rel_sent _ _ _ _ Hspec) Hsc) as (rq & Hrq & Hop & Hbody).
  (* the request arrives *)
  destruct (heap_of_run _ _ _ _ _ _ (rpc_dispatch_triple (O := Os) (Z.of_nat id) (sp_op sc) IO_SUCCESS Htyped) (proj2 (heap_of_empty _ _ _) Hs))
    as (res & hs1 & N1 & Hrun1 & (r & -> & Hr) & Hown1).
  destruct Hr as [(buf & ctx & data0 & -> & Hbuf & Hsep1)|(status & body & -> & -> & [[-> ?]|[? _]])]; [|done|done].
  unfold system_run. simpl. rewrite Hrq. simpl. unfold receive_step. rewrite Hop, Hbody, Hrun1. simpl.
  (* the engine completes it *)
  rewrite list_lookup_middle by done. rewrite decide_True by (destruct Hdone as [? Hlen]; split; [done|]; by destruct (sp_op sc)).
  destruct (heap_of_run _ _ _ _ _ _ (complete_triple (O := Os) _ _ _ (BridgeCtx _ _ _ _) _ result data _ Hbuf eq_refl Hsep1) Hown1)
    as (msg & hs2 & N2 & Hrun2 & HN2 & Hown2).
  destruct msg as [m|]; [|by destruct HN2 as [_ ?]]. cbn [bc_request_id bc_opcode bc_extra_len] in HN2.
  unfold complete_step. simpl. rewrite Hrun2. simpl.
  unfold n. replace (length (y_jobs s)) with (length (y_jobs s) + 0) by lia. rewrite !insert_app_r. simpl.
  by exists m, buf, hs2, N2.
Qed.

Lemma system_run_app acts1 acts2 s : system_run Oc Os c (acts1 ++ acts2) s = system_run Oc Os c acts1 s ≫= system_run Oc Os c acts2.
Proof using. revert s. induction acts1 as [|a acts1 IH]; intros s; simpl; [done|]. by destruct (system_step Oc Os c a s); simpl. Qed.

(** A call whose callback is still to come gets it with what the engine says, as soon as its
    request is taken in once more and nothing more fails, whatever else is under way. *)
Lemma call_answered s calls id sc result data :
  (∀ n, alloc_ok (AllocOracle := Os) n = true) → sys_rel s calls → calls !! id = Some sc → sp_event sc = None →
  completion_ok (sp_op sc) result data →
  let n := length (y_jobs s) in
  ∃ s', system_run Oc Os c [Receive id IO_SUCCESS; Complete n result data; Reply n 0; Deliver n] s = Some s' ∧
    (id, op_event (sp_op sc) (sp_cb sc) (sp_ctx sc) result data) ∈ y_events s'.
Proof.
  intros Hok Hrel Hsc Hnone Hdone n. pose proof (proj1 (completion_iff _ _ _) Hdone) as [Hdone' Hshort].
  assert (¬ ∃ n, alloc_ok (AllocOracle := Os) n = false) as Hoom by (intros [k Hk]; by rewrite Hok in Hk).
  pose proof (Forall_lookup_1 _ _ _ _ (rel_calls _ _ _ _ (rel_spec _ _ Hrel)) Hsc) as (Htyped & _ & _).
  destruct (call_queued s calls id sc result data Hok Hrel Hsc Hdone') as (m & buf & hs2 & N2 & Hrun2 & Hbuf & HN2 & Hown2).
  change [Receive id IO_SUCCESS; Complete n result data; Reply n 0; Deliver n] with
    ([Receive id IO_SUCCESS; Complete n result data] ++ [Reply n 0; Deliver n]).
  rewrite system_run_app. fold n in Hrun2. rewrite Hrun2. simpl. unfold n. rewrite list_lookup_middle by done.
  destruct (heap_of_run _ _ _ _ _ _ (reply_triple (O := Os) _ _ _ _ _ _ 0 _ Htyped Hdone' (or_introl Hshort) Hbuf HN2) Hown2)
    as ([response again] & hs3 & N3 & Hrun3 & HN3 & Hown3).
  destruct again; [by destruct HN3 as [_ ?]|]. destruct HN3 as [-> [[_ ?]|[_ ->]]]; [done|].
  unfold reply_step. cbn [set_server y_server]. rewrite Hrun3. simpl. rewrite Nat2Z.id.
  replace (length (y_jobs s)) with (length (y_jobs s) + 0) by lia. rewrite !insert_app_r, Nat.add_0_r. simpl.
  (* the client hears of it *)
  rewrite list_lookup_middle, delete_middle, (right_id_L [] (++)) by done.
  destruct (finish_answers s calls id sc result data hs3) as (s' & Hrun & He); [done..|].
  exists s'. split; [|done]. unfold set_server in *. simpl in *. by rewrite Hrun.
Qed.

(** A long read that gets so far overflows its reply, wherever the system is. *)
Lemma long_read_overflows s calls id sc result data :
  (∀ n, alloc_ok (AllocOracle := Os) n = true) → sys_rel s calls → calls !! id = Some sc → long_read (sp_op sc) →
  completed_ok (sp_op sc) result data →
  let n := length (y_jobs s) in
  system_run Oc Os c [Receive id IO_SUCCESS; Complete n result data; Reply n 0] s = None.
Proof.
  intros Hok Hrel Hsc Hlong Hdone n.
  pose proof (Forall_lookup_1 _ _ _ _ (rel_calls _ _ _ _ (rel_spec _ _ Hrel)) Hsc) as (Htyped & _ & _).
  destruct (call_queued s calls id sc result data Hok Hrel Hsc Hdone) as (m & buf & hs & N & Hrun & Hbuf & HN & Hown).
  change [Receive id IO_SUCCESS; Complete n result data; Reply n 0] with
    ([Receive id IO_SUCCESS; Complete n result data] ++ [Reply n 0]).
  rewrite system_run_app. fold n in Hrun. rewrite Hrun. simpl. unfold n. rewrite list_lookup_middle by done.
  unfold reply_step. cbn [set_server y_server].
  destruct (reply_cases (O := Os) _ _ _ _ _ _ _ _ 0 _ _ Htyped Hdone Hbuf HN Hown) as [(? & again & ? & ? & _ & _ & HN')|[-> _]]; [|done].
  exfalso. destruct again; [by destruct HN' as [_ ?]|]. destruct HN' as [_ [[_ [k Hk]]|[Hc _]]]; [by rewrite Hok in Hk|].
  by apply completion_iff in Hc as [_ ?].
Qed.

End simulation.

(** ** The theorems *)

Section theorems.
Context {E : StorageEnv}.

Definition job_blocks (sent : list rpc_request) (j : nat * job) : nat :=
  match j.2 with
  | Answered _ => 0
  | _ => match sent !! j.1 with
         | Some rq => if decide (rq_opcode rq = RPC_OP_READ) then 2 else 1
         | None => 0
         end
  end.

Lemma job_owns_size sent calls j N : Forall2 request_of sent calls → job_owns calls j N → size N = job_blocks sent j.
Proof.
  intros Hsent (sc & Hsc & Hj). destruct (Forall2_lookup_r _ _ _ _ _ Hsent Hsc) as (rq & Hrq & Hop & _).
  unfold job_blocks. rewrite Hrq, Hop.
  assert (∀ (l : nat) (a : cell) buf data, buffer_for (sp_op sc) buf → sep [{[l := a]}; buffer_own buf data] N →
    size N = if decide (op_opcode (sp_op sc) = RPC_OP_READ) then 2 else 1) as Hsize.
  { intros l a buf data Hbuf (R & -> & Hd & R' & -> & Hd' & ->). rewrite (right_id_L ∅ (∪)) in *.
    rewrite map_size_disj_union, map_size_singleton by done.
    destruct (sp_op sc); simpl in Hbuf; try (by rewrite Hbuf; simpl; rewrite map_size_empty).
    destruct Hbuf as [p ->]. simpl. by rewrite map_size_singleton. }
  destruct (j.2) as [rq' ctx|m|body]; cbv zeta in Hj.
  - destruct Hj as (buf & data & _ & Hbuf & Hs). by eapply Hsize.
  - destruct Hj as (buf & result & data & _ & Hbuf & Hs). by eapply Hsize.
  - destruct Hj as [-> _]. apply map_size_empty.
Qed.

(** C3. Any number of calls with any arguments of their C types, in any order of the code's
    entries, however often the library delivers a request, and whatever of the server's allocations
    fail: either a read of 2^32 - 8 bytes or more was called, which is the one way to something
    undefined (its reply overflows its buffer, [long_read_overflows]); or the run is defined and
    does what the specification allows.  The callbacks made are then those of
    the specification: at most one for a call, with what the operation's completion or
    refusal says, of that call and no other, or with the failure; the calls that are
    open are those whose callback is still to come; and the calls of the specification are those
    that the user made, as the user made them. *)
Theorem rpc_system_refines (Oc Os : AllocOracle) c acts :
  (∀ n, alloc_ok (AllocOracle := Oc) n = true) →
  match system_run Oc Os c acts system_init with
  | Some s =>
      ∃ calls, rtc spec_step [] calls ∧
      Forall2 (λ rq sc, rq_opcode rq = op_opcode (sp_op sc) ∧ rq_body rq = op_body (sp_op sc)) (y_sent s) calls ∧
      NoDup (y_events s).*1 ∧
      (∀ id e, (id, e) ∈ y_events s ↔ ∃ sc, calls !! id = Some sc ∧ sp_event sc = Some e) ∧
      (∀ id e, (id, e) ∈ y_events s → ∃ sc, calls !! id = Some sc ∧ returnable sc e) ∧
      (∀ id, id ∈ (y_open s).*1 ↔ ∃ sc, calls !! id = Some sc ∧ sp_event sc = None) ∧
      (∀ id sc, calls !! id = Some sc → Call (sp_op sc) (sp_cb sc) (sp_ctx sc) true ∈ acts)
  | None => ∃ oid offset len cb ctx, Call (OpRead oid offset len) cb ctx true ∈ acts ∧ (2 ^ 32 - 8 ≤ len)%Z
  end.
Proof.
  intros Hok. destruct (run_simulated Oc Os c Hok acts _ _ sys_rel_init)
    as [(s & calls & -> & Hsteps & Hmade & [Hspec _ _])|(-> & calls & Hmade & Hlong)].
  - destruct Hspec as [Hcalls Hsent _ Hopen Htold Hevents]. exists calls. split_and!; try done.
    + intros id e (sc & Hsc & He)%Hevents. exists sc. split; [done|].
      destruct (Forall_lookup_1 _ _ _ _ Hcalls Hsc) as (_ & _ & Hr). by apply Hr.
    + intros id sc Hsc. by destruct (Hmade id sc Hsc) as [(? & ? & _)|?].
  - apply Exists_exists in Hlong as (sc & [id Hsc]%list_elem_of_lookup & Hlong).
    destruct (Hmade id sc Hsc) as [(? & ? & _)|Hin]; [done|]. destruct (sp_op sc); try done. by do 5 eexists.
Qed.

(** C9. The memory of both sides at any time: the client has one block for every call whose
    callback is still to come and one for every call that was refused, and they are the only
    leak; the server has the context or the message of every request that is not answered,
    with the buffer of a read, and nothing else. *)
Theorem rpc_system_memory (Oc Os : AllocOracle) c acts s :
  (∀ n, alloc_ok (AllocOracle := Oc) n = true) → system_run Oc Os c acts system_init = Some s →
  size (mem_cells (y_client s)) = length (y_open s) + y_refused s ∧
  size (mem_cells (y_server s)) = sum_list_with (job_blocks (y_sent s)) (y_jobs s).
Proof.
  intros Hok Hrun. destruct (run_defined Oc Os c Hok acts _ _ _ sys_rel_init Hrun) as (calls & _ & [Hspec Hc Hs]). split.
  - assert (∀ j N, call_owns calls j N → size N = 1) as Hone.
    { intros [[id p]|] N; [intros (? & ? & ->)|intros (? & ? & ->)]; apply map_size_singleton. }
    rewrite (heap_of_size _ (λ _, 1) _ _ Hone Hc).
    assert (∀ T (l : list T), sum_list_with (λ _, 1) l = length l) as -> by (induction l; simpl; congruence).
    unfold client_items. rewrite length_app, length_fmap, length_replicate. lia.
  - apply (heap_of_size _ _ _ _ (λ j N, job_owns_size _ _ _ _ (rel_sent _ _ _ _ Hspec)) Hs).
Qed.

(** C8. No state of the system keeps a call from its answer: a call that was made at any
    time, and whose callback is still to come after anything else has happened, gets the
    result and the data that the engine gives it as soon as its request is taken in again
    and nothing on its own way fails. *)
Theorem rpc_system_progress (Oc Os : AllocOracle) c before op cb ctx after s0 s result data :
  (∀ n, alloc_ok (AllocOracle := Oc) n = true) → (∀ n, alloc_ok (AllocOracle := Os) n = true) →
  sc_is_connected c = true → op_ok op → completion_ok op result data →
  system_run Oc Os c before system_init = Some s0 →
  system_run Oc Os c (Call op cb ctx true :: after) s0 = Some s →
  let id := length (y_sent s0) in let n := length (y_jobs s) in
  id ∈ (y_open s).*1 →
  ∃ s', system_run Oc Os c [Receive id IO_SUCCESS; Complete n result data; Reply n 0; Deliver n] s = Some s' ∧
    (id, op_event op cb ctx result data) ∈ y_events s'.
Proof.
  intros Hoc Hos Hconn Hop Hdone Hbefore Hafter id n Hopen.
  destruct (run_defined Oc Os c Hoc before _ _ _ sys_rel_init Hbefore) as (calls0 & _ & Hrel0).
  cbn [system_run system_step] in Hafter. rewrite decide_True in Hafter by (by apply op_ok_fits).
  destruct (call_runs Oc c Hoc s0 calls0 op cb ctx true Hrel0 (proj1 Hop)) as (s1 & Hcall & Hrel1). rewrite Hcall in Hafter. simpl in Hafter.
  rewrite Hconn in Hrel1. simpl in Hrel1.
  destruct (run_defined Oc Os c Hoc after _ _ _ Hrel1 Hafter) as (calls2 & Hsteps & Hrel2).
  destruct (spec_steps_grow _ _ Hsteps id (SpecCall op cb ctx [] None)) as (sc & Hsc & Hop' & Hcb & Hctx & _).
  { apply list_lookup_middle. by rewrite <-(Forall2_length _ _ _ (rel_sent _ _ _ _ (rel_spec _ _ Hrel0))). }
  apply (rel_open _ _ _ _ (rel_spec _ _ Hrel2)) in Hopen as (sc' & Hsc' & Hnone). rewrite Hsc in Hsc'. injection Hsc' as <-.
  simpl in Hop', Hcb, Hctx. subst op cb ctx. by apply (call_answered Oc Os c Hoc s calls2 id sc).
Qed.
End theorems.

(** ** Concrete runs *)

(** A read and a delete, answered in the other order, the read's request delivered twice; a
    third call is refused, a fourth given up. *)
Definition example_actions : list action := [
  Call (OpRead 7 0 5) 1 2 true; Call (OpDelete 8) 3 4 true; Receive 1 0; Receive 0 0; Receive 0 0;
  Call (OpCreate 9) 5 6 false; Complete 1 0 (cs "hello"); Complete 0 5 []; Reply 0 (- EBUSY); Reply 0 0; Deliver 0;
  Reply 0 0; Call (OpCreate 9) 5 6 true; GiveUp 2 1; Deliver 0].
Definition example_system : option system :=
  system_run (E := example_env) no_oom no_oom (example_client true) example_actions system_init.

Lemma rpc_system_refines_witness :
  ∃ s calls, example_system = Some s ∧ rtc (spec_step (E := example_env)) [] calls ∧
    y_events s = [(1, SimpleDone 3 4 5); (2, SimpleDone 5 6 1); (0, ReadDone 1 2 0 (Some (cs "hello")) 5)] ∧
    ∃ sc, calls !! 0 = Some sc ∧ sp_event sc = Some (ReadDone 1 2 0 (Some (cs "hello")) 5).
Proof.
  pose proof (rpc_system_refines (E := example_env) no_oom no_oom (example_client true) example_actions (λ _, eq_refl)) as H.
  assert (y_events <$> example_system = Some [(1, SimpleDone 3 4 5); (2, SimpleDone 5 6 1); (0, ReadDone 1 2 0 (Some (cs "hello")) 5)])
    as Heq by (by vm_compute).
  unfold example_system in *. destruct (system_run _ _ _ _ _) as [s|] eqn:Hrun; [|done].
  destruct H as (calls & Hspec & _ & _ & Hevents & _). injection Heq as Heq. exists s, calls. split_and!; [done|done|done|].
  apply Hevents. rewrite Heq. do 2 apply list_elem_of_further. apply list_elem_of_here.
Defined.

(** The second copy of the read is still with the engine. *)
Lemma rpc_system_memory_witness :
  ∃ s, example_system = Some s ∧ y_open s = [] ∧ size (mem_cells (y_client s)) = 1 ∧ size (mem_cells (y_server s)) = 2.
Proof.
  destruct example_system as [s|] eqn:Hrun; [|by vm_compute in Hrun].
  destruct (rpc_system_memory (E := example_env) no_oom no_oom (example_client true) example_actions s) as [Hc Hs]; [done|done|].
  exists s. split; [done|]. rewrite Hc, Hs.
  assert ((λ s, (y_open s, y_refused s, sum_list_with (job_blocks (y_sent s)) (y_jobs s))) <$> example_system = Some ([], 1, 2))
    as Heq by (by vm_compute).
  rewrite Hrun in Heq. injection Heq as Ho Hr Hj. rewrite Ho, Hr, Hj. split_and!; reflexivity.
Defined.

Lemma rpc_system_progress_witness :
  ∃ s s', system_run (E := example_env) no_oom no_oom (example_client true) (Call (OpRead 7 0 5) 1 2 true :: [Call (OpDelete 8) 3 4 true; Receive 1 0])
      system_init = Some s ∧
    system_run (E := example_env) no_oom no_oom (example_client true) [Receive 0 0; Complete 1 0 (cs "hello"); Reply 1 0; Deliver 1] s = Some s' ∧
    (0, ReadDone 1 2 0 (Some (cs "hello")) 5) ∈ y_events s'.
Proof.
  destruct (system_run (E := example_env) no_oom no_oom (example_client true) (Call (OpRead 7 0 5) 1 2 true :: [Call (OpDelete 8) 3 4 true; Receive 1 0])
    system_init) as [s|] eqn:Hrun; [|by vm_compute in Hrun].
  assert ((λ s, (length (y_jobs s), (y_open s).*1)) <$> Some s = Some (1, [0; 1])) as Heq by (rewrite <-Hrun; by vm_compute).
  injection Heq as Hn Ho.
  destruct (rpc_system_progress (E := example_env) no_oom no_oom (example_client true) [] (OpRead 7 0 5) 1 2
    [Call (OpDelete 8) 3 4 true; Receive 1 0] system_init s 0 (cs "hello")) as (s' & Hs' & He); try done.
  - rewrite Ho. apply list_elem_of_here.
  - exists s, s'. split; [done|]. by rewrite Hn in Hs'.
Defined.
