(* ===== verification/StatFs.v ===== *)
(** * STATFS across shards ([rpc_handler_statfs] and [collect_shard_statfs] of
      [src/storage_server/rpc_handler.c])

    The handler sends one message to each shard's thread; the shards add their figures
    to a shared aggregator with atomic operations, and the one that brings the counter
    to 0 sends the answer to the RPC thread and frees the aggregator; each frees its own
    context.  The threads interleave between any two atomic operations, allocations and
    frees: a schedule is the sequence of the turns that the shards and the RPC thread take.
    The handler's own loop is taken to end before the first turn: it touches nothing that a
    shard that it has already started touches, and the counter cannot reach 0 before it has
    started the last. *)
From S2P Require Import Prelude Memory Triples StorageProtocol StorageServer RpcSystem.
From stdpp Require Import options.

(** ** The handler *)

Section handler.
Context {E : StorageEnv} {O : AllocOracle} (request_id : Z).

Fixpoint free_ctxs (ctxs : list nat) : M cell unit :=
  match ctxs with
  | [] => mret tt
  | p :: ctxs => _ ← mfree (Some p); free_ctxs ctxs
  end.

(** The allocation loop: the contexts it got, and whether one failed. *)
Fixpoint alloc_ctxs (n : nat) (ctxs : list nat) : M cell (list nat * bool) :=
  match n with
  | 0 => mret (ctxs, false)
  | S n =>
      p ← malloc (CShard None);
      match p with
      | None => mret (ctxs, true)
      | Some p => alloc_ctxs n (ctxs ++ [p])
      end
  end.

(** The dispatch loop: shard [i] is sent its context. *)
Fixpoint send_ctxs (agg : nat) (i : nat) (ctxs : list nat) : M cell (list (nat * nat)) :=
  match ctxs with
  | [] => mret []
  | p :: ctxs =>
      _ ← mstore p (CShard (Some (ShardCtx agg i)));
      rest ← send_ctxs agg (S i) ctxs;
      mret ((i, p) :: rest)
  end.

(** The result and the messages sent, a shard and its context each. The array of
    pointers is an untyped block. A negative count makes its [calloc] fail. *)
Definition rpc_handler_statfs (num_shards : Z) : M cell (handled * list (nat * nat)) :=
  if decide (num_shards = 0)%Z then mret (encode_simple_error IO_ERROR, []) else
  agg ← malloc (CAgg (Aggregator request_id num_shards 0 0 0));
  match agg with
  | None => mret (internal_error, [])
  | Some agg =>
      array ← malloc (CBytes []);
      match (if decide (num_shards < 0)%Z then None else array) with
      | None => _ ← mfree array; _ ← mfree (Some agg); mret (internal_error, [])
      | Some array =>
          '(ctxs, alloc_failed) ← alloc_ctxs (Z.to_nat num_shards) [];
          if (alloc_failed : bool) then
            _ ← free_ctxs ctxs;
            _ ← mfree (Some array);
            _ ← mfree (Some agg);
            mret (internal_error, [])
          else
            messages ← send_ctxs agg 0 ctxs;
            _ ← mfree (Some array);
            mret (Handled NRPC_HANDLER_DEFERRED None None None, messages)
      end
  end.
End handler.

(** ** The shards *)

(** [__sync_fetch_and_add] and [__sync_sub_and_fetch] on a field of the aggregator. *)
Definition add_total (total : Z) (a : statfs_aggregator) : statfs_aggregator :=
  Aggregator (ag_request_id a) (ag_remaining a) (u64 (ag_total_size a + total)) (ag_used_size a) (ag_error_count a).
Definition add_used (used : Z) (a : statfs_aggregator) : statfs_aggregator :=
  Aggregator (ag_request_id a) (ag_remaining a) (ag_total_size a) (u64 (ag_used_size a + used)) (ag_error_count a).
Definition add_error (a : statfs_aggregator) : statfs_aggregator :=
  Aggregator (ag_request_id a) (ag_remaining a) (ag_total_size a) (ag_used_size a) (u32 (ag_error_count a + 1)).
Definition sub_remaining (a : statfs_aggregator) : statfs_aggregator :=
  Aggregator (ag_request_id a) (i32 (ag_remaining a - 1)) (ag_total_size a) (ag_used_size a) (ag_error_count a).

(** What the last shard answers: the result, and the 16 bytes of extra data. *)
Definition statfs_result `{E : StorageEnv} (a : statfs_aggregator) : Z :=
  if decide (ag_error_count a > 0)%Z then IO_ERROR else IO_SUCCESS.
Definition statfs_extra (a : statfs_aggregator) : bytes := put_le 8 (ag_total_size a) ++ put_le 8 (ag_used_size a).

(** Where a shard's [collect_shard_statfs] is, with its local variables: at its entry; before
    it adds what it uses; before it decrements the counter; after that, with the value it
    returned; before [free(agg)]; before [free(sctx)]; at its end. *)
Inductive collect_pc :=
  | AtStart
  | AtUsed (agg : nat) (used : Z)
  | AtCounter (agg : nat)
  | AtRemaining (agg : nat) (rem : Z)
  | AtFreeAgg (agg : nat)
  | AtFree
  | AtEnd.

Section collect.
Context {E : StorageEnv} {O : AllocOracle}.
(** [shard_get_statfs] per shard: total and used, or failure. *)
Context (stats : list (option (Z * Z))).
Definition shard_get_statfs (shard : nat) : option (Z * Z) := default None (stats !! shard).

Definition load_shard_ctx (p : nat) : M cell statfs_shard_ctx :=
  c ← mload p; match c with CShard (Some s) => mret s | _ => undefined end.
Definition load_agg (p : nat) : M cell statfs_aggregator :=
  c ← mload p; match c with CAgg a => mret a | _ => undefined end.

(** An atomic operation: the value after it. *)
Definition fetch_agg (p : nat) (f : statfs_aggregator → statfs_aggregator) : M cell statfs_aggregator :=
  a ← load_agg p; _ ← mstore p (CAgg (f a)); mret (f a).

(** The answer of the last shard: the message for the RPC thread, or none without memory
    for it. Without memory for the extra data the message has none. *)
Definition statfs_message (agg : nat) : M cell (option nat) :=
  msg ← malloc (CReply (ReplyMsg 0 0 0 None 0));
  match msg with
  | None => mret None
  | Some m =>
      a ← load_agg agg;
      extra ← malloc (CBytes (statfs_extra a));
      _ ← mstore m (CReply (ReplyMsg (ag_request_id a) (statfs_result a) RPC_OP_STATFS extra
                              (if extra then 16 else 0)));
      mret (Some m)
  end.

(** A shard's next step: where it is then, and the message it sent to the RPC thread. *)
Definition collect_shard_statfs (sctx : nat) (pc : collect_pc) : M cell (collect_pc * option nat) :=
  match pc with
  | AtStart =>
      c ← load_shard_ctx sctx;
      match shard_get_statfs (sx_shard c) with
      | Some (total, used) => _ ← fetch_agg (sx_agg c) (add_total total); mret (AtUsed (sx_agg c) used, None)
      | None => _ ← fetch_agg (sx_agg c) add_error; mret (AtCounter (sx_agg c), None)
      end
  | AtUsed agg used => _ ← fetch_agg agg (add_used used); mret (AtCounter agg, None)
  | AtCounter agg => a ← fetch_agg agg sub_remaining; mret (AtRemaining agg (ag_remaining a), None)
  | AtRemaining agg rem =>
      if decide (rem = 0)%Z then msg ← statfs_message agg; mret (AtFreeAgg agg, msg)
      else _ ← mfree (Some sctx); mret (AtEnd, None)
  | AtFreeAgg agg => _ ← mfree (Some agg); mret (AtFree, None)
  | AtFree => _ ← mfree (Some sctx); mret (AtEnd, None)
  | AtEnd => mret (AtEnd, None)
  end.

(** ** The threads *)

(** The heap; the shards, with the context each was sent; the messages queued for the RPC
    thread; and the responses that the RPC library took. *)
Record statfs_system := StatfsSystem {
  sf_heap : mem cell;
  sf_threads : list (nat * collect_pc);
  sf_queue : list nat;
  sf_sent : list (Z * Z * bytes)
}.

(** A shard takes its next step; or the RPC thread takes its next message, and the library
    says [send_rc] to the response. *)
Inductive statfs_turn := ShardTurn (i : nat) | RpcTurn (send_rc : Z).
#[export] Instance statfs_turn_eq_dec : EqDecision statfs_turn.
Proof using. solve_decision. Defined.

Definition statfs_step (t : statfs_turn) (s : statfs_system) : option statfs_system :=
  match t with
  | ShardTurn i =>
      match sf_threads s !! i with
      | Some (sctx, pc) =>
          '(pc, msg, h) ← collect_shard_statfs sctx pc (sf_heap s);
          Some (StatfsSystem h (<[i := (sctx, pc)]> (sf_threads s)) (sf_queue s ++ option_list msg) (sf_sent s))
      | None => Some s
      end
  | RpcTurn send_rc =>
      match sf_queue s with
      | m :: queue =>
          '(response, again, h) ← send_deferred_reply m send_rc (sf_heap s);
          Some (StatfsSystem h (sf_threads s) (if again : bool then queue ++ [m] else queue)
                  (sf_sent s ++ if decide (0 ≤ send_rc)%Z then option_list response else []))
      | [] => Some s
      end
  end.

Fixpoint statfs_run (schedule : list statfs_turn) (s : statfs_system) : option statfs_system :=
  match schedule with [] => Some s | t :: schedule => s ← statfs_step t s; statfs_run schedule s end.

(** What the handler leaves behind. *)
Definition statfs_start (h : mem cell) (messages : list (nat * nat)) : statfs_system :=
  StatfsSystem h ((λ '(_, sctx), (sctx, AtStart)) <$> messages) [] [].
End collect.

(** ** Specification: the counting, without memory *)

(** How far a shard is: before its first atomic operation, after adding the total, after
    adding all its figures, after the decrement with the value it returned, past its answer. *)
Inductive shard_pc :=
  | PcStart
  | PcTotal
  | PcCounted
  | PcDecremented (rem : Z)
  | PcDone.

#[export] Instance shard_pc_eq_dec : EqDecision shard_pc.
Proof. solve_decision. Defined.

(** The aggregator, [None] once the answer is made, the shards, and the answers: result and
    extra data. *)
Record statfs_state := StatfsState {
  ss_agg : option statfs_aggregator;
  ss_pcs : list shard_pc;
  ss_queued : list (Z * option bytes)
}.

Section spec.
Context {E : StorageEnv}.
(** The shards' figures; and whether the two allocations of the answer succeed. *)
Context (stats : list (option (Z * Z))) (msg_ok extra_ok : bool).

Definition statfs_reply (a : statfs_aggregator) : Z * option bytes :=
  (statfs_result a, if extra_ok then Some (statfs_extra a) else None).

(** The next step of shard [i]; [None] is an access of the aggregator after the
    answer. The last shard builds its answer from the aggregator. *)
Definition spec_collect (i : nat) (s : statfs_state) : option statfs_state :=
  match ss_pcs s !! i, stats !! i with
  | Some PcStart, Some stat =>
      a ← ss_agg s;
      Some match stat with
           | Some (total, _) => StatfsState (Some (add_total total a)) (<[i := PcTotal]> (ss_pcs s)) (ss_queued s)
           | None => StatfsState (Some (add_error a)) (<[i := PcCounted]> (ss_pcs s)) (ss_queued s)
           end
  | Some PcTotal, Some stat =>
      a ← ss_agg s;
      '(_, used) ← stat;
      Some (StatfsState (Some (add_used used a)) (<[i := PcCounted]> (ss_pcs s)) (ss_queued s))
  | Some PcCounted, Some _ =>
      a ← ss_agg s;
      let a := sub_remaining a in
      Some (StatfsState (Some a) (<[i := PcDecremented (ag_remaining a)]> (ss_pcs s)) (ss_queued s))
  | Some (PcDecremented rem), Some _ =>
      if decide (rem = 0)%Z then
        a ← ss_agg s;
        Some (StatfsState None (<[i := PcDone]> (ss_pcs s))
                (if msg_ok then ss_queued s ++ [statfs_reply a] else ss_queued s))
      else Some (StatfsState (ss_agg s) (<[i := PcDone]> (ss_pcs s)) (ss_queued s))
  | _, _ => Some s
  end.

End spec.

(** The state to start from. *)
Definition spec_start (request_id : Z) (n : nat) : statfs_state :=
  StatfsState (Some (Aggregator request_id (Z.of_nat n) 0 0 0)) (replicate n PcStart) [].

(** ** Invariant *)

(** What a shard has added to the aggregator so far. *)
Definition total_added (x : shard_pc * option (Z * Z)) : Z :=
  match x with (PcStart, _) => 0 | (_, Some (total, _)) => total | (_, None) => 0 end.
Definition used_added (x : shard_pc * option (Z * Z)) : Z :=
  match x with (PcStart, _) | (PcTotal, _) => 0 | (_, Some (_, used)) => used | (_, None) => 0 end.
Definition errors_added (x : shard_pc * option (Z * Z)) : Z :=
  match x with (PcStart, _) | (PcTotal, _) => 0 | (_, Some _) => 0 | (_, None) => 1 end.
(** 1 while the shard has not decremented the counter. *)
Definition not_decremented (x : shard_pc * option (Z * Z)) : Z :=
  match x with (PcStart, _) | (PcTotal, _) | (PcCounted, _) => 1 | _ => 0 end.

(** The aggregator that belongs to a position of the shards. *)
Definition agg_of (request_id : Z) (pcs : list shard_pc) (stats : list (option (Z * Z))) : statfs_aggregator :=
  let l := zip pcs stats in
  Aggregator request_id (zsum not_decremented l) (u64 (zsum total_added l)) (u64 (zsum used_added l))
    (zsum errors_added l).

(** No shard saw the counter at 0; or one did and has not answered; or it has, which it can do
    without only when memory is exhausted ([oom]). *)
Inductive statfs_inv `{E : StorageEnv} (request_id : Z) (stats : list (option (Z * Z))) (oom : Prop)
    (s : statfs_state) : Prop :=
  | InvCounting :
      (0 < zsum not_decremented (zip (ss_pcs s) stats))%Z →
      ss_agg s = Some (agg_of request_id (ss_pcs s) stats) → ss_queued s = [] →
      (∀ i, ss_pcs s !! i ≠ Some (PcDecremented 0)) → statfs_inv request_id stats oom s
  | InvLast j :
      zsum not_decremented (zip (ss_pcs s) stats) = 0%Z →
      ss_agg s = Some (agg_of request_id (ss_pcs s) stats) → ss_queued s = [] →
      (∀ i, ss_pcs s !! i = Some (PcDecremented 0) ↔ i = j) → statfs_inv request_id stats oom s
  | InvAnswered :
      zsum not_decremented (zip (ss_pcs s) stats) = 0%Z →
      ss_agg s = None →
      (ss_queued s = [] ∧ oom ∨
       ∃ extra_ok, ss_queued s = [statfs_reply extra_ok (agg_of request_id (ss_pcs s) stats)] ∧ (extra_ok = false → oom)) →
      (∀ i, ss_pcs s !! i ≠ Some (PcDecremented 0)) → statfs_inv request_id stats oom s.

(** The states that can be looked at: as many shards as figures, and a shard that has
    added its total had one. *)
Definition statfs_typed (stats : list (option (Z * Z))) (s : statfs_state) : Prop :=
  length (ss_pcs s) = length stats ∧
  ∀ i, ss_pcs s !! i = Some PcTotal → ∃ total used, stats !! i = Some (Some (total, used)).

Lemma zsum_le_length {A} (f : A → Z) (l : list A) :
  (∀ x, f x ≤ 1)%Z → (zsum f l ≤ Z.of_nat (length l))%Z.
Proof. intros Hf. induction l as [|x l IH]; simpl; [lia|]. specialize (Hf x). lia. Qed.

Lemma not_decremented_range x : (0 ≤ not_decremented x ≤ 1)%Z.
Proof. destruct x as [[] []]; simpl; lia. Qed.
Lemma errors_added_range x : (0 ≤ errors_added x ≤ 1)%Z.
Proof. destruct x as [[] []]; simpl; lia. Qed.

(** The figures a STATFS answers with. *)
Definition stat_total (st : option (Z * Z)) : Z := match st with Some (total, _) => total | None => 0 end.
Definition stat_used (st : option (Z * Z)) : Z := match st with Some (_, used) => used | None => 0 end.
Definition stat_failed (st : option (Z * Z)) : Z := match st with Some _ => 0 | None => 1 end.

Section invariant.
#[local] Set Default Proof Using "Type*".
Context {E : StorageEnv} (request_id : Z) (stats : list (option (Z * Z))) (oom : Prop).
Hypothesis few_shards : (Z.of_nat (length stats) < 2 ^ 31)%Z.

Lemma zip_insert (pcs : list shard_pc) i pc' st :
  stats !! i = Some st → i < length pcs →
  zip (<[i := pc']> pcs) stats = <[i := (pc', st)]> (zip pcs stats).
Proof.
  intros Hst Hi. apply list_eq. intros k. destruct (decide (k = i)) as [->|Hne].
  - rewrite list_lookup_insert_eq.
    + by rewrite lookup_zip_with, list_lookup_insert_eq, Hst by done.
    + rewrite length_zip_with. apply lookup_lt_Some in Hst. lia.
  - by rewrite list_lookup_insert_ne, !lookup_zip_with, list_lookup_insert_ne by done.
Qed.

Lemma zsum_step (f : shard_pc * option (Z * Z) → Z) (pcs : list shard_pc) i pc pc' st :
  pcs !! i = Some pc → stats !! i = Some st →
  zsum f (zip (<[i := pc']> pcs) stats) = (zsum f (zip pcs stats) - f (pc, st) + f (pc', st))%Z.
Proof.
  intros Hpc Hst. rewrite (zip_insert _ _ _ st) by (done || by eapply lookup_lt_Some).
  apply zsum_insert. by rewrite lookup_zip_with, Hpc, Hst.
Qed.

(** A shard that has not decremented keeps the counter positive. *)
Lemma counting_only s i pc st :
  statfs_inv request_id stats oom s → ss_pcs s !! i = Some pc → stats !! i = Some st →
  not_decremented (pc, st) = 1%Z →
  (0 < zsum not_decremented (zip (ss_pcs s) stats))%Z ∧
  ss_agg s = Some (agg_of request_id (ss_pcs s) stats) ∧ ss_queued s = [] ∧
  ∀ k, ss_pcs s !! k ≠ Some (PcDecremented 0).
Proof.
  intros Hinv Hpc Hst Hone.
  assert (zsum not_decremented (zip (ss_pcs s) stats) ≠ 0%Z) as Hne.
  { intros H0. assert (not_decremented (pc, st) = 0%Z); [|lia].
    apply (zsum_zero _ _ i _ (λ x, proj1 (not_decremented_range x)) H0).
    by rewrite lookup_zip_with, Hpc, Hst. }
  by destruct Hinv.
Qed.

Lemma not_last_insert (pcs : list shard_pc) i pc' :
  (∀ k, pcs !! k ≠ Some (PcDecremented 0)) → pc' ≠ PcDecremented 0 →
  ∀ k, <[i := pc']> pcs !! k ≠ Some (PcDecremented 0).
Proof.
  intros Hall Hpc k Hk. apply list_lookup_insert_Some in Hk as [(_ & ? & _)|[_ Hk]]; [done|]. by eapply Hall.
Qed.

Lemma typed_insert s i pc' agg queued :
  statfs_typed stats s →
  (pc' = PcTotal → ∃ total used, stats !! i = Some (Some (total, used))) →
  statfs_typed stats (StatfsState agg (<[i := pc']> (ss_pcs s)) queued).
Proof.
  intros [Hlen Htot] Hpc. split; simpl; [by rewrite length_insert|]. intros k Hk.
  apply list_lookup_insert_Some in Hk as [(<- & Hk & _)|[_ Hk]]; [by apply Hpc|by apply Htot].
Qed.

(** Adding figures keeps the shards counting. *)
Lemma step_counts s i pc pc' st a' :
  statfs_inv request_id stats oom s → ss_pcs s !! i = Some pc → stats !! i = Some st →
  not_decremented (pc, st) = 1%Z → not_decremented (pc', st) = 1%Z →
  a' = agg_of request_id (<[i := pc']> (ss_pcs s)) stats →
  statfs_inv request_id stats oom (StatfsState (Some a') (<[i := pc']> (ss_pcs s)) (ss_queued s)).
Proof.
  intros Hinv Hpc Hst Hone Hone' ->. destruct (counting_only s i pc st) as (Hpos & Hagg & Hq & Hlast); [done..|].
  apply InvCounting; simpl; [|done|done|].
  - rewrite (zsum_step _ _ i pc pc' st) by done. lia.
  - apply not_last_insert; [done|]. by intros ->.
Qed.

(** A shard adds its size, or counts its error. *)
Lemma collect_start msg_ok extra_ok i s st :
  statfs_typed stats s → statfs_inv request_id stats oom s → ss_pcs s !! i = Some PcStart → stats !! i = Some st →
  ∃ s', spec_collect stats msg_ok extra_ok i s = Some s' ∧ statfs_typed stats s' ∧
    statfs_inv request_id stats oom s'.
Proof.
  intros Hty Hinv Hpc Hst. unfold spec_collect. rewrite Hpc, Hst.
  destruct (counting_only s i PcStart st) as (Hpos & Hagg & Hq & Hlast); [done..|]. rewrite Hagg. simpl.
  destruct st as [[total used]|]; eexists; (split; [done|]); (split; [apply typed_insert; [done|naive_solver]|]).
  + eapply step_counts; [done..|]. unfold agg_of, add_total. simpl.
    rewrite !(zsum_step _ _ i PcStart PcTotal (Some (total, used))) by done. simpl.
    f_equal; [lia|rewrite wrap_add_l by lia; f_equal; lia|f_equal; lia|lia].
  + eapply step_counts; [done..|]. unfold agg_of, add_error. simpl.
    rewrite !(zsum_step _ _ i PcStart PcCounted None) by done. simpl.
    pose proof (zsum_le_length errors_added (zip (ss_pcs s) stats) (λ x, proj2 (errors_added_range x))) as Hle.
    pose proof (zsum_nonneg errors_added (zip (ss_pcs s) stats) (λ x, proj1 (errors_added_range x))) as Hge.
    rewrite length_zip_with in Hle.
    f_equal; [lia|f_equal; lia|f_equal; lia|]. rewrite wrap_small; [lia|]. unfold fits. lia.
Qed.

(** A shard adds what it uses. *)
Lemma collect_used msg_ok extra_ok i s st :
  statfs_typed stats s → statfs_inv request_id stats oom s → ss_pcs s !! i = Some PcTotal → stats !! i = Some st →
  ∃ s', spec_collect stats msg_ok extra_ok i s = Some s' ∧ statfs_typed stats s' ∧
    statfs_inv request_id stats oom s'.
Proof.
  intros Hty Hinv Hpc Hst. unfold spec_collect. rewrite Hpc, Hst.
  destruct Hty as [Hlen Htot]. destruct (Htot i Hpc) as (total & used & Hst'). rewrite Hst in Hst'. injection Hst' as ->.
  destruct (counting_only s i PcTotal (Some (total, used))) as (Hpos & Hagg & Hq & Hlast); [done..|]. rewrite Hagg. simpl.
  eexists. split; [done|]. split; [apply typed_insert; [done|naive_solver]|].
  eapply step_counts; [done..|]. unfold agg_of, add_used. simpl.
  rewrite !(zsum_step _ _ i PcTotal PcCounted (Some (total, used))) by done. simpl.
  f_equal; [lia|f_equal; lia|rewrite wrap_add_l by lia; f_equal; lia|lia].
Qed.

(** A shard that is counted takes itself off the counter. *)
Lemma collect_counted msg_ok extra_ok i s st :
  statfs_typed stats s → statfs_inv request_id stats oom s → ss_pcs s !! i = Some PcCounted → stats !! i = Some st →
  ∃ s', spec_collect stats msg_ok extra_ok i s = Some s' ∧ statfs_typed stats s' ∧
    statfs_inv request_id stats oom s'.
Proof.
  intros Hty Hinv Hpc Hst. unfold spec_collect. rewrite Hpc, Hst.
  destruct (counting_only s i PcCounted st) as (Hpos & Hagg & Hq & Hlast); [by destruct st as [[]|]..|]. rewrite Hagg. simpl.
  eexists. split; [done|]. split; [apply typed_insert; [done|naive_solver]|].
  pose proof (zsum_le_length not_decremented (zip (ss_pcs s) stats) (λ x, proj2 (not_decremented_range x))) as Hle.
  rewrite length_zip_with in Hle. set (rem := zsum not_decremented (zip (ss_pcs s) stats)) in *.
  rewrite (i32_small (rem - 1)) by lia.
  assert (zsum not_decremented (zip (<[i := PcDecremented (rem - 1)]> (ss_pcs s)) stats) = (rem - 1)%Z) as Hrem.
  { rewrite (zsum_step _ _ i PcCounted _ st) by done. destruct st as [[]|]; simpl; lia. }
  assert (sub_remaining (agg_of request_id (ss_pcs s) stats) =
          agg_of request_id (<[i := PcDecremented (rem - 1)]> (ss_pcs s)) stats) as Hsub.
  { unfold agg_of, sub_remaining. cbn zeta. rewrite Hrem. simpl. fold rem. rewrite (i32_small (rem - 1)) by lia.
    rewrite !(zsum_step _ _ i PcCounted (PcDecremented (rem - 1)) st) by done.
    destruct st as [[]|]; simpl; f_equal; try (f_equal; lia); lia. }
  rewrite Hsub. destruct (decide (rem - 1 = 0)%Z) as [H0|H0].
  + apply (InvLast _ _ _ _ i); simpl; [lia|done|done|]. intros k. split.
    * intros Hk. apply list_lookup_insert_Some in Hk as [(? & _)|[_ Hk]]; [done|by destruct (Hlast k)].
    * intros ->. rewrite list_lookup_insert_eq by (by eapply lookup_lt_Some). by rewrite H0.
  + apply InvCounting; simpl; [lia|done|done|]. apply not_last_insert; [done|]. intros [= ?]. lia.
Qed.

(** A shard answers if it was the last, and is done. *)
Lemma collect_decremented msg_ok extra_ok i s st rem :
  (msg_ok = false → oom) → (extra_ok = false → oom) →
  statfs_typed stats s → statfs_inv request_id stats oom s → ss_pcs s !! i = Some (PcDecremented rem) → stats !! i = Some st →
  ∃ s', spec_collect stats msg_ok extra_ok i s = Some s' ∧ statfs_typed stats s' ∧
    statfs_inv request_id stats oom s'.
Proof.
  intros Hmsg Hextra Hty Hinv Hpc Hst. unfold spec_collect. rewrite Hpc, Hst.
  assert (∀ f, f ∈ [not_decremented; total_added; used_added; errors_added] →
    zsum f (zip (<[i := PcDone]> (ss_pcs s)) stats) = zsum f (zip (ss_pcs s) stats)) as Hsame.
  { intros f Hf. rewrite (zsum_step _ _ i (PcDecremented rem) PcDone st) by done.
    repeat (apply elem_of_cons in Hf as [->|Hf]); [..|by apply elem_of_nil in Hf]; destruct st as [[]|]; simpl; lia. }
  assert (agg_of request_id (<[i := PcDone]> (ss_pcs s)) stats = agg_of request_id (ss_pcs s) stats) as Hagg'.
  { unfold agg_of. cbn zeta. rewrite !Hsame by set_solver. done. }
  case_decide as Hrem.
  + subst rem. destruct Hinv as [_ _ _ Hlast|j H0 Hagg Hq Hlast|_ _ _ Hlast]; [by destruct (Hlast i)| |by destruct (Hlast i)].
    rewrite Hagg, Hq. simpl. eexists. split; [done|]. split; [apply typed_insert; [done|naive_solver]|].
    apply InvAnswered; simpl; [by rewrite Hsame by set_solver|done| |].
    { rewrite Hagg'. destruct msg_ok; [right; by exists extra_ok|left; auto]. }
    intros k Hk. apply list_lookup_insert_Some in Hk as [(_ & ? & _)|[Hne Hk]]; [done|].
    apply Hlast in Hpc. apply Hlast in Hk. congruence.
  + eexists. split; [done|]. split; [apply typed_insert; [done|naive_solver]|].
    destruct Hinv as [Hpos Hagg Hq Hlast|j H0 Hagg Hq Hlast|H0 Hagg Hq Hlast].
    * apply InvCounting; simpl; [by rewrite Hsame by set_solver|by rewrite Hagg'|done|by apply not_last_insert].
    * apply (InvLast _ _ _ _ j); simpl; [by rewrite Hsame by set_solver|by rewrite Hagg'|done|].
      intros k. rewrite <-Hlast. split; intros Hk.
      -- apply list_lookup_insert_Some in Hk as [(_ & ? & _)|[_ Hk]]; done.
      -- rewrite list_lookup_insert_ne; [done|]. intros ->. rewrite Hpc in Hk. by injection Hk as ->.
    * apply InvAnswered; simpl; [by rewrite Hsame by set_solver|done|by rewrite Hagg'|by apply not_last_insert].
Qed.

Lemma collect_preserves msg_ok extra_ok i s :
  (msg_ok = false → oom) → (extra_ok = false → oom) → statfs_typed stats s → statfs_inv request_id stats oom s →
  ∃ s', spec_collect stats msg_ok extra_ok i s = Some s' ∧ statfs_typed stats s' ∧ statfs_inv request_id stats oom s'.
Proof.
  intros Hmsg Hextra Hty Hinv. destruct (ss_pcs s !! i) as [pc|] eqn:Hpc.
  - assert (∃ st, stats !! i = Some st) as [st Hst].
    { apply lookup_lt_is_Some_2. destruct Hty as [<- _]. by eapply lookup_lt_Some. }
    destruct pc as [| | |rem|].
    + by eapply collect_start.
    + by eapply collect_used.
    + by eapply collect_counted.
    + by eapply collect_decremented.
    + unfold spec_collect. rewrite Hpc, ?Hst. eauto.
  - unfold spec_collect. rewrite Hpc. eauto.
Qed.

Lemma start_ok : 0 < length stats →
  statfs_typed stats (spec_start request_id (length stats)) ∧
  statfs_inv request_id stats oom (spec_start request_id (length stats)).
Proof.
  intros Hn. split.
  - split; simpl; [by rewrite length_replicate|]. intros i Hi. by apply lookup_replicate in Hi as [? _].
  - assert (∀ (f : shard_pc * option (Z * Z) → Z) l, zsum f (zip (replicate (length l) PcStart) l) =
      zsum (λ st, f (PcStart, st)) l) as Hzip.
    { intros f l. induction l as [|st l IH]; simpl; [done|]. by rewrite IH. }
    apply InvCounting; simpl; [|unfold agg_of; cbn zeta|done|].
    + rewrite Hzip. clear -Hn. destruct stats; simpl in *; [lia|].
      pose proof (zsum_nonneg (λ _ : option (Z * Z), 1%Z) l (λ _, Z.le_0_1)). lia.
    + rewrite !Hzip. f_equal.
      assert (∀ l : list (option (Z * Z)), zsum (λ st, not_decremented (PcStart, st)) l = Z.of_nat (length l) ∧
        zsum (λ st, total_added (PcStart, st)) l = 0%Z ∧ zsum (λ st, used_added (PcStart, st)) l = 0%Z ∧
        zsum (λ st, errors_added (PcStart, st)) l = 0%Z) as Hl.
      { clear. induction l as [|st l (H1 & H2 & H3 & H4)]; simpl; [done|]. simpl in *. split_and!; lia. }
      destruct (Hl stats) as (-> & -> & -> & ->). done.
    + intros i Hi. by apply lookup_replicate in Hi as [? _].
Qed.

(** When every shard is done, their figures are all in. *)
Lemma done_sums pcs : length pcs = length stats → (∀ i pc, pcs !! i = Some pc → pc = PcDone) →
  agg_of request_id pcs stats =
    Aggregator request_id 0 (u64 (zsum stat_total stats)) (u64 (zsum stat_used stats)) (zsum stat_failed stats).
Proof.
  intros Hlen Hdone. unfold agg_of. cbn zeta.
  assert (zsum not_decremented (zip pcs stats) = 0%Z ∧ zsum total_added (zip pcs stats) = zsum stat_total stats ∧
    zsum used_added (zip pcs stats) = zsum stat_used stats ∧ zsum errors_added (zip pcs stats) = zsum stat_failed stats)
    as (-> & -> & -> & ->); [|done].
  clear -Hlen Hdone. revert pcs Hlen Hdone. induction stats as [|st l IH]; intros [|pc pcs] Hlen Hdone; simplify_eq/=; [done|].
  rewrite (Hdone 0 pc eq_refl). destruct (IH pcs Hlen (λ i, Hdone (S i))) as (H1 & H2 & H3 & H4).
  destruct st as [[]|]; simpl; split_and!; lia.
Qed.
End invariant.

(** ** The handler by the blocks it owns *)

Section handler_triples.
Context {E : StorageEnv} {O : AllocOracle}.

Definition unset_ctx (p : nat) : gmap nat cell := {[p := CShard None]}.
Definition sent_ctx (agg : nat) (message : nat * nat) : gmap nat cell :=
  {[message.2 := CShard (Some (ShardCtx agg message.1))]}.

Lemma free_ctxs_triple ctxs ms P : sep ((unset_ctx <$> ctxs) ++ ms) P → triple P (free_ctxs ctxs) (λ _ P', sep ms P').
Proof.
  revert P. induction ctxs as [|p ctxs IH]; intros P Hs; cbn [free_ctxs]; [by apply triple_ret|].
  eapply triple_bind; [exact (triple_sep_free _ _ _ _ Hs)|]. intros ? P' Hs'. by apply IH.
Qed.

Lemma alloc_ctxs_triple n ctxs ms P : sep ((unset_ctx <$> ctxs) ++ ms) P →
  triple P (alloc_ctxs n ctxs) (λ '(ctxs', failed) P', sep ((unset_ctx <$> ctxs') ++ ms) P' ∧
    if failed : bool then ∃ n, alloc_ok n = false else length ctxs' = length ctxs + n).
Proof.
  revert ctxs P. induction n as [|n IH]; intros ctxs P Hs; cbn [alloc_ctxs]; [apply triple_ret; split; [done|lia]|].
  eapply triple_bind; [by apply triple_sep_malloc|]. intros [p|] P'.
  - intros Hs'. eapply triple_mono.
    + apply IH. rewrite fmap_app, <-(assoc_L (++)). change ((unset_ctx <$> [p]) ++ ms) with ({[p := CShard None]} :: ms).
      eapply sep_perm; [|exact Hs']. apply Permutation_middle.
    + intros [ctxs' []] P'' [? Hl]; (split; [done|]); [done|]. rewrite Hl, length_app. simpl. lia.
  - intros [Hs' Hn]. by apply triple_ret.
Qed.

Lemma send_ctxs_triple agg i ctxs ms P : sep ((unset_ctx <$> ctxs) ++ ms) P →
  triple P (send_ctxs agg i ctxs) (λ messages P', sep ((sent_ctx agg <$> messages) ++ ms) P' ∧ messages.*1 = seq i (length ctxs)).
Proof.
  revert i ms P. induction ctxs as [|p ctxs IH]; intros i ms P Hs; cbn [send_ctxs]; [by apply triple_ret|].
  eapply (triple_bind _ _ _ (λ _ P', sep (sent_ctx agg (i, p) :: (unset_ctx <$> ctxs) ++ ms) P')).
  { by apply (triple_sep_store _ (CShard None)). }
  intros ? P' Hs'. eapply triple_bind.
  - apply (IH (S i) (sent_ctx agg (i, p) :: ms)). eapply sep_perm; [|exact Hs']. apply Permutation_middle.
  - intros messages P'' [Hs'' Hm]. apply triple_ret. split.
    + eapply sep_perm; [|exact Hs'']. symmetry. apply Permutation_middle.
    + cbn [fmap list_fmap fst length seq]. by f_equal.
Qed.

(** The handler answers at once and keeps nothing, or has sent each shard its context. *)
Lemma statfs_handler_triple request_id n :
  triple ∅ (rpc_handler_statfs request_id (Z.of_nat n)) (λ '(res, messages) N,
    messages = [] ∧ N = ∅ ∧
      (n = 0 ∧ res = encode_simple_error IO_ERROR ∨ 0 < n ∧ res = internal_error ∧ ∃ n, alloc_ok n = false) ∨
    0 < n ∧ res = Handled NRPC_HANDLER_DEFERRED None None None ∧ messages.*1 = seq 0 n ∧
      ∃ agg, sep ({[agg := CAgg (Aggregator request_id (Z.of_nat n) 0 0 0)]} :: (sent_ctx agg <$> messages)) N).
Proof.
  unfold rpc_handler_statfs. case_decide; [apply triple_ret; left; split_and!; [done..|left; split; [lia|done]]|].
  assert (0 < n) as Hpos by lia. eapply triple_bind; [by apply (triple_sep_malloc [])|].
  intros [agg|] N; [|intros [-> ?]; apply triple_ret; left; split_and!; [done..|right; split_and!; done]]. intros Hs.
  eapply triple_bind; [by apply triple_sep_malloc|]. intros [array|] N'; rewrite (decide_False (P := (Z.of_nat n < 0)%Z)) by lia.
  2: { intros [Hs' ?]. eapply (triple_bind _ _ _ (λ _, sep [{[agg := CAgg (Aggregator request_id (Z.of_nat n) 0 0 0)]}])); [by apply triple_free_null|]. intros ? N1 Hs1.
    eapply triple_bind; [exact (triple_sep_free _ _ [] _ Hs1)|]. intros ? N2 ->. apply triple_ret. left. split_and!; [done..|right; by split_and!]. }
  intros Hs'. eapply triple_bind; [exact (alloc_ctxs_triple _ [] [_; _] _ Hs')|]. rewrite Nat2Z.id. intros [ctxs []] N1 [Hs1 Hl].
  - eapply triple_bind; [by apply free_ctxs_triple|]. intros ? N2 Hs2. cbv beta in Hs2.
    eapply triple_bind; [exact (triple_sep_free _ _ _ _ Hs2)|]. intros ? N3 Hs3. cbv beta in Hs3.
    eapply triple_bind; [exact (triple_sep_free _ _ [] _ Hs3)|]. intros ? N4 ->. apply triple_ret. left. split_and!; [done..|right; by split_and!].
  - eapply triple_bind; [by apply (send_ctxs_triple agg 0)|]. intros messages N2 [Hs2 Hm].
    eapply triple_bind.
    + eapply triple_sep_free. exact (sep_perm _ _ (Permutation_app_comm _ _) _ Hs2).
    + intros ? N3 Hs3. apply triple_ret. right. simpl in Hl. rewrite Hl in Hm. split_and!; [done..|]. by exists agg.
Qed.
End handler_triples.

(** ** A shard's steps by the blocks they touch *)

Section shard_triples.
#[local] Set Default Proof Using "Type*".
Context {E : StorageEnv} {O : AllocOracle} (stats : list (option (Z * Z))).
Implicit Types (a : statfs_aggregator) (agg sctx i : nat).

Lemma load_agg_triple agg a ms P :
  sep ({[agg := CAgg a]} :: ms) P → triple P (load_agg agg) (λ x P', x = a ∧ P' = P).
Proof.
  intros Hs. eapply (triple_bind _ _ _ (λ x P', x = CAgg a ∧ P' = P)); [eapply triple_load; [by eapply sep_lookup|done]|].
  intros ? ? [-> ->]. by apply triple_ret.
Qed.

Lemma fetch_agg_triple agg a f ms P :
  sep ({[agg := CAgg a]} :: ms) P →
  triple P (fetch_agg agg f) (λ x P', x = f a ∧ sep ({[agg := CAgg (f a)]} :: ms) P').
Proof.
  intros Hs. unfold fetch_agg. eapply triple_bind; [by eapply load_agg_triple|]. intros ? ? [-> ->].
  eapply triple_bind; [by eapply triple_sep_store|]. intros ? ? Hs'. by apply triple_ret.
Qed.

Lemma collect_start_triple agg sctx i stat a ms P :
  stats !! i = Some stat → sep ({[agg := CAgg a]} :: sent_ctx agg (i, sctx) :: ms) P →
  triple P (collect_shard_statfs stats sctx AtStart) (λ r P',
    match stat with
    | Some (total, used) => r = (AtUsed agg used, None) ∧ sep ({[agg := CAgg (add_total total a)]} :: sent_ctx agg (i, sctx) :: ms) P'
    | None => r = (AtCounter agg, None) ∧ sep ({[agg := CAgg (add_error a)]} :: sent_ctx agg (i, sctx) :: ms) P'
    end).
Proof.
  intros Hstat Hs. cbn [collect_shard_statfs].
  eapply (triple_bind _ _ _ (λ c P', c = ShardCtx agg i ∧ P' = P)).
  { eapply (triple_bind _ _ _ (λ c P', c = CShard (Some (ShardCtx agg i)) ∧ P' = P)).
    - eapply triple_load; [|done]. eapply sep_lookup. exact (sep_perm _ _ (Permutation_swap _ _ _) _ Hs).
    - intros ? ? [-> ->]. by apply triple_ret. }
  intros ? ? [-> ->]. unfold shard_get_statfs. cbn [sx_shard sx_agg]. rewrite Hstat. cbn [default].
  destruct stat as [[total used]|]; (eapply triple_bind; [by eapply fetch_agg_triple|]); intros ? ? [_ Hs']; by apply triple_ret.
Qed.

Lemma collect_used_triple agg sctx used a ms P :
  sep ({[agg := CAgg a]} :: ms) P →
  triple P (collect_shard_statfs stats sctx (AtUsed agg used)) (λ r P',
    r = (AtCounter agg, None) ∧ sep ({[agg := CAgg (add_used used a)]} :: ms) P').
Proof.
  intros Hs. cbn [collect_shard_statfs]. eapply triple_bind; [by eapply fetch_agg_triple|]. intros ? ? [_ Hs']. by apply triple_ret.
Qed.

Lemma collect_counter_triple agg sctx a ms P :
  sep ({[agg := CAgg a]} :: ms) P →
  triple P (collect_shard_statfs stats sctx (AtCounter agg)) (λ r P',
    r = (AtRemaining agg (ag_remaining (sub_remaining a)), None) ∧ sep ({[agg := CAgg (sub_remaining a)]} :: ms) P').
Proof.
  intros Hs. cbn [collect_shard_statfs]. eapply triple_bind; [by eapply fetch_agg_triple|]. intros ? ? [-> Hs']. by apply triple_ret.
Qed.

(** The message of an answer, and its blocks. *)
Definition reply_message (request_id : Z) (buf : option nat) (reply : Z * option bytes) : reply_msg :=
  ReplyMsg request_id reply.1 RPC_OP_STATFS buf (if reply.2 then 16 else 0).

Definition message_blocks (request_id : Z) (m : nat) (reply : Z * option bytes) (N : gmap nat cell) : Prop :=
  ∃ buf, (buf = None ↔ reply.2 = None) ∧
    sep [{[m := CReply (reply_message request_id buf reply)]}; buffer_own buf (default [] reply.2)] N.

(** The last shard makes the message of its answer, unless memory is exhausted. *)
Lemma statfs_message_triple agg a ms P :
  sep ({[agg := CAgg a]} :: ms) P →
  triple P (statfs_message agg) (λ msg P',
    match msg with
    | Some m => ∃ extra_ok N, (extra_ok = false → ∃ n, alloc_ok n = false) ∧
        message_blocks (ag_request_id a) m (statfs_reply extra_ok a) N ∧ sep ({[agg := CAgg a]} :: N :: ms) P'
    | None => (∃ n, alloc_ok n = false) ∧ sep ({[agg := CAgg a]} :: ms) P'
    end).
Proof.
  intros Hs. unfold statfs_message. eapply triple_bind; [by apply triple_sep_malloc|].
  intros [m|] P1; [|intros [Hs1 ?]; by apply triple_ret]. intros Hs1.
  pose proof (sep_perm _ _ (Permutation_swap _ _ _) _ Hs1) as Hs1'.
  eapply triple_bind; [by eapply load_agg_triple|]. intros ? ? [-> ->].
  eapply triple_bind; [exact (triple_sep_malloc _ _ _ Hs1)|]. intros [e|] P2.
  - intros Hs2. apply (sep_perm _ _ (Permutation_swap _ _ _)) in Hs2.
    eapply triple_bind; [by eapply triple_sep_store|]. intros ? P3 Hs3. apply triple_ret.
    destruct (sep_group _ _ _ _ Hs3) as (N & HN & Hs4). exists true, N. split; [done|]. split; [by exists (Some e)|].
    exact (sep_perm _ _ (Permutation_swap _ _ _) _ Hs4).
  - intros [Hs2 ?]. eapply triple_bind; [by eapply triple_sep_store|]. intros ? P3 Hs3. apply triple_ret.
    eexists false, _. split; [done|]. split; [exists None; split; [done|]; apply sep_second_empty, sep_single|].
    exact (sep_perm _ _ (Permutation_swap _ _ _) _ Hs3).
Qed.
End shard_triples.

(** ** The threads implement the counting *)

(** What the callback of the client is told by a response. *)
Definition answers_with `{E : StorageEnv} (request_id result total used : Z) (response : Z * Z * bytes) : Prop :=
  response.1 = (request_id, NRPC_STATUS_OK) ∧
  ∀ cb ctx p (h : mem storage_pending_call), mem_cells h !! p = Some (PendingCall (CLIENT_CALL_STATFS cb) ctx) →
    ∃ h', client_response_cb IO_ERROR p response.2 0 h = Some (StatfsDone cb ctx (u32 result) total used, h') ∧
      mem_cells h' = delete p (mem_cells h).

Lemma statfs_response `{E : StorageEnv} request_id result total used :
  fits 64 total → fits 64 used →
  answers_with request_id result total used (request_id, NRPC_STATUS_OK, put_le 4 (u32 result) ++ put_le 8 total ++ put_le 8 used).
Proof.
  intros Ht Hu. split; [done|]. intros cb ctx p h Hp. assert (fits (8 * Z.of_nat 4) (u32 result)) as Hr by (by apply wrap_fits).
  cbn [snd]. set (body := put_le 4 (u32 result) ++ put_le 8 total ++ put_le 8 used).
  assert (length body = 20) as Hlen by (unfold body; by rewrite !length_app, !put_le_length).
  unfold client_response_cb, mload, mfree. m_simpl. rewrite Hp. m_simpl. rewrite Hp. m_simpl.
  exists (Mem (mem_next h) (delete p (mem_cells h))). split; [|done]. do 2 f_equal. rewrite decide_False by lia. unfold response_event. cbn [pc_callback pc_user_ctx].
  rewrite decide_True by lia. unfold body. change 12 with (4 + 8). rewrite <-drop_drop, !drop_put_le, !get_put_le by done.
  by rewrite get_put_le_end.
Qed.

(** The bytes of an answer. *)
Lemma statfs_body `{E : StorageEnv} request_id buf extra_ok a :
  reply_body (reply_message request_id buf (statfs_reply extra_ok a)) (statfs_reply extra_ok a).2 =
    put_le 4 (u32 (statfs_result a)) ++
    (if extra_ok then put_le 8 (ag_total_size a) ++ put_le 8 (ag_used_size a) else put_le 8 0 ++ put_le 8 0).
Proof.
  unfold reply_body. cbn [reply_message rm_opcode rm_result statfs_reply fst snd]. rewrite decide_False by done.
  rewrite decide_True by done. destruct extra_ok; [|done]. unfold statfs_extra. cbn [rm_extra_len]. rewrite decide_True by done.
  by rewrite take_ge by (rewrite length_app, !put_le_length; lia).
Qed.

(** The reply buffer of a STATFS holds its answer. *)
Lemma reply_message_fits `{E : StorageEnv} request_id buf reply :
  (Z.of_nat (length (reply_body (reply_message request_id buf reply) reply.2)) ≤ reply_capacity (reply_message request_id buf reply))%Z.
Proof.
  unfold reply_body, reply_capacity. cbn [reply_message rm_opcode]. rewrite decide_False, decide_True by done.
  rewrite (decide_False (P := RPC_OP_STATFS = _)), decide_True by done.
  destruct reply.2; [case_decide|]; rewrite length_app, put_le_length, ?length_take, ?length_replicate; lia.
Qed.

Section refinement.
#[local] Set Default Proof Using "Type*".
Context {E : StorageEnv} {O : AllocOracle} (request_id : Z) (stats : list (option (Z * Z))).
(** The blocks that were there before, the aggregator, and whether the library refused a response. *)
Context (base : gmap nat cell) (agg : nat) (refused : Prop).
Implicit Types (s : statfs_system) (t : statfs_state) (threads : list (nat * collect_pc)).
Notation oom := (∃ n, alloc_ok n = false).

(** A shard's position. *)
Definition pc_rel (i : nat) (pc : collect_pc) (spc : shard_pc) : Prop :=
  match pc, spc with
  | AtStart, PcStart => True
  | AtUsed p used, PcTotal => p = agg ∧ ∃ total, stats !! i = Some (Some (total, used))
  | AtCounter p, PcCounted => p = agg
  | AtRemaining p rem, PcDecremented rem' => p = agg ∧ rem = rem'
  | AtFreeAgg p, PcDone => p = agg
  | AtFree, PcDone | AtEnd, PcDone => True
  | _, _ => False
  end.
Definition threads_rel threads (pcs : list shard_pc) : Prop :=
  length threads = length pcs ∧
  ∀ i sctx pc spc, threads !! i = Some (sctx, pc) → pcs !! i = Some spc → pc_rel i pc spc.

(** A shard's context, until it frees it. *)
Definition thread_blocks (i : nat) (thread : nat * collect_pc) : gmap nat cell :=
  match thread.2 with AtEnd => ∅ | _ => sent_ctx agg (i, thread.1) end.

(** The shard that is to free the aggregator; and the aggregator's block. *)
Definition frees (pc : collect_pc) : bool := match pc with AtFreeAgg _ => true | _ => false end.
Definition last_shard threads (last : option nat) : Prop :=
  ∀ i, last = Some i ↔ ∃ sctx pc, threads !! i = Some (sctx, pc) ∧ frees pc = true.
Definition agg_blocks (a : option statfs_aggregator) (last : option nat) (N : gmap nat cell) : Prop :=
  match a, last with
  | Some a, None => N = {[agg := CAgg a]}
  | None, Some _ => ∃ a, N = {[agg := CAgg a]}
  | None, None => N = ∅
  | Some _, Some _ => False
  end.

(** An answer is queued for the RPC thread, or it has left it: with the library, or lost. *)
Inductive answer_rel : list nat → list (Z * Z * bytes) → list (Z * option bytes) → gmap nat cell → Prop :=
  | AnswerNone : answer_rel [] [] [] ∅
  | AnswerQueued m reply N : message_blocks request_id m reply N → answer_rel [m] [] [reply] N
  | AnswerLost reply : oom ∨ refused → answer_rel [] [] [reply] ∅
  | AnswerSent buf reply :
      answer_rel [] [(request_id, NRPC_STATUS_OK, reply_body (reply_message request_id buf reply) reply.2)] [reply] ∅.

Record statfs_rel s t : Prop := StatfsRel {
  rel_threads : threads_rel (sf_threads s) (ss_pcs t);
  rel_wf : mem_wf (sf_heap s);
  rel_heap : ∃ last NA NM, last_shard (sf_threads s) last ∧ agg_blocks (ss_agg t) last NA ∧
    answer_rel (sf_queue s) (sf_sent s) (ss_queued t) NM ∧
    sep (base :: NA :: NM :: imap thread_blocks (sf_threads s)) (mem_cells (sf_heap s))
}.

(** Another position of one thread. *)
Lemma imap_insert_thread threads i x : imap thread_blocks (<[i := x]> threads) = <[i := thread_blocks i x]> (imap thread_blocks threads).
Proof.
  apply list_eq. intros k. rewrite list_lookup_imap. destruct (decide (i = k)) as [->|Hne].
  - destruct (decide (k < length threads)).
    + rewrite !list_lookup_insert_eq; [done| |done]. by rewrite length_imap.
    + rewrite !list_insert_ge by (rewrite ?length_imap; lia). by rewrite list_lookup_imap.
  - by rewrite !list_lookup_insert_ne, list_lookup_imap by done.
Qed.

Lemma threads_move threads pcs i sctx pc' spc' :
  threads_rel threads pcs → pc_rel i pc' spc' → threads_rel (<[i := (sctx, pc')]> threads) (<[i := spc']> pcs).
Proof.
  intros [Hlen Hrel] Hpc. split; [by rewrite !length_insert|]. intros k sctx0 pc spc Hk Hs.
  apply list_lookup_insert_Some in Hk as [(<- & [= <- <-] & Hi)|[Hne Hk]].
  - rewrite list_lookup_insert_eq in Hs by lia. by injection Hs as <-.
  - rewrite list_lookup_insert_ne in Hs by done. by eapply Hrel.
Qed.

Lemma last_move threads last i x pc' :
  last_shard threads last → last = None ∨ (∃ pc, threads !! i = Some (x, pc) ∧ frees pc = false) → frees pc' = false →
  last_shard (<[i := (x, pc')]> threads) last.
Proof.
  intros Hlast Hi Hpc k. rewrite (Hlast k). split; intros (sctx & pc & Hk & Hf).
  - exists sctx, pc. split; [|done]. rewrite list_lookup_insert_ne; [done|]. intros ->.
    assert (last = Some k) as Hl by (apply Hlast; by exists sctx, pc). destruct Hi as [->|(? & Hi & Hf')]; [done|].
    rewrite Hi in Hk. injection Hk as <- <-. by rewrite Hf in Hf'.
  - apply list_lookup_insert_Some in Hk as [(<- & [= <- <-] & _)|[_ Hk]]; [by rewrite Hf in Hpc|]. by exists sctx, pc.
Qed.
(** How far a shard is. *)
Definition stage (pc : collect_pc) : nat :=
  match pc with
  | AtStart => 0 | AtUsed _ _ => 1 | AtCounter _ => 2 | AtRemaining _ _ => 3 | AtFreeAgg _ => 4 | AtFree => 5 | AtEnd => 6
  end.

(** What a turn of shard [i] achieves: the counting goes on, and the shard is further. *)
Definition turn_ok (i : nat) s (o : option statfs_system) : Prop :=
  ∃ s' t' sctx pc pc', o = Some s' ∧ statfs_rel s' t' ∧ statfs_typed stats t' ∧ statfs_inv request_id stats oom t' ∧
    sf_threads s !! i = Some (sctx, pc) ∧ sf_threads s' = <[i := (sctx, pc')]> (sf_threads s) ∧
    (pc' = AtEnd ∨ stage pc < stage pc').

(** A step of a shard that does [Φ] to the aggregator's block and the answer's. *)
Lemma turn_by s i sctx pc NA NM (Φ : collect_pc → option nat → gmap nat cell → gmap nat cell → Prop) :
  mem_wf (sf_heap s) → sf_threads s !! i = Some (sctx, pc) →
  sep (base :: NA :: NM :: imap thread_blocks (sf_threads s)) (mem_cells (sf_heap s)) →
  (∀ ms P, sep (NA :: thread_blocks i (sctx, pc) :: NM :: ms) P →
    triple P (collect_shard_statfs stats sctx pc) (λ '(pc', msg) P', ∃ NA' NM', Φ pc' msg NA' NM' ∧
      sep (NA' :: thread_blocks i (sctx, pc') :: NM' :: ms) P')) →
  (∀ pc' msg NA' NM', Φ pc' msg NA' NM' → (pc' = AtEnd ∨ stage pc < stage pc') ∧ ∃ t', statfs_typed stats t' ∧
    statfs_inv request_id stats oom t' ∧ threads_rel (<[i := (sctx, pc')]> (sf_threads s)) (ss_pcs t') ∧
    ∃ last', last_shard (<[i := (sctx, pc')]> (sf_threads s)) last' ∧ agg_blocks (ss_agg t') last' NA' ∧
      answer_rel (sf_queue s ++ option_list msg) (sf_sent s) (ss_queued t') NM') →
  turn_ok i s (statfs_step stats (ShardTurn i) s).
Proof.
  intros Hwf Hi Hsep Htriple HΦ.
  assert (imap thread_blocks (sf_threads s) !! i = Some (thread_blocks i (sctx, pc))) as Hblk by by rewrite list_lookup_imap, Hi.
  set (ms := base :: delete i (imap thread_blocks (sf_threads s))).
  assert (∀ N1 N2 N, N1 :: N :: N2 :: ms ≡ₚ N :: base :: N1 :: N2 :: delete i (imap thread_blocks (sf_threads s))) as Hperm.
  { intros N1 N2 N. etrans; [apply Permutation_swap|]. f_equiv. symmetry. apply (Permutation_middle [N1; N2]). }
  destruct (triple_whole _ _ (sf_heap s) (Htriple ms _ (sep_perm _ _ (symmetry (Hperm NA NM _)) _
    (sep_pull (3 + i) (_ :: _ :: _ :: _) _ _ Hblk Hsep))) Hwf) as ([pc' msg] & h' & Hrun & Hwf' & NA' & NM' & HP & Hsep').
  destruct (HΦ _ _ _ _ HP) as (Hst & t' & Hty & Hinv & Hthr & last' & Hlast & Hagg & Hans).
  unfold turn_ok. cbn [statfs_step]. rewrite Hi, Hrun.
  eexists _, t', sctx, pc, pc'. split; [done|]. split_and!; [|done..]. constructor; [done..|].
  exists last', NA', NM'. split_and!; [done..|]. cbn [sf_threads sf_heap]. rewrite imap_insert_thread.
  apply (sep_update (3 + i) (_ :: _ :: _ :: imap thread_blocks (sf_threads s)) _ _ _ Hblk).
  exact (sep_perm _ _ (Hperm NA' NM' _) _ Hsep').
Qed.

Hypothesis few_shards : (Z.of_nat (length stats) < 2 ^ 31)%Z.

(** A turn that only works on the aggregator. *)
Lemma turn_live s t i sctx pc spc st pc' spc' a' :
  let a := agg_of request_id (ss_pcs t) stats in
  statfs_rel s t → statfs_typed stats t → statfs_inv request_id stats oom t →
  sf_threads s !! i = Some (sctx, pc) → ss_pcs t !! i = Some spc → stats !! i = Some st → not_decremented (spc, st) = 1%Z →
  stage pc < 3 → stage pc < stage pc' ≤ 3 → pc_rel i pc' spc' →
  (ss_agg t = Some a →
    spec_collect stats true true i t = Some (StatfsState (Some a') (<[i := spc']> (ss_pcs t)) (ss_queued t))) →
  (∀ ms P, sep ({[agg := CAgg a]} :: sent_ctx agg (i, sctx) :: ms) P →
    triple P (collect_shard_statfs stats sctx pc) (λ r P', r = (pc', None) ∧ sep ({[agg := CAgg a']} :: sent_ctx agg (i, sctx) :: ms) P')) →
  turn_ok i s (statfs_step stats (ShardTurn i) s).
Proof.
  intros a Hrel Hty Hinv Hi Hspc Hst Hone Hpc Hpc' Hpcr Hspec Htr. destruct Hrel as [Hthr Hwf (last & NA & NM & Hlast & Hagg & Hans & Hsep)].
  destruct (counting_only request_id stats oom few_shards t i spc st) as (_ & Ha & _ & _); [done..|]. specialize (Hspec Ha).
  destruct (collect_preserves request_id stats oom few_shards true true i t) as (t' & E1 & Hty' & Hinv'); [done..|].
  rewrite Hspec in E1. injection E1 as <-. rewrite Ha in Hagg. destruct last as [?|]; [done|]. simpl in Hagg. subst NA.
  assert (∀ p, stage p ≤ 3 → thread_blocks i (sctx, p) = sent_ctx agg (i, sctx) ∧ frees p = false) as Hlive.
  { intros p Hp. destruct p; simpl in Hp; done || lia. }
  eapply (turn_by s i sctx pc _ _ (λ p msg NA' NM', p = pc' ∧ msg = None ∧ NA' = {[agg := CAgg a']} ∧ NM' = NM)); [done..| |].
  - intros ms P Hs. rewrite (proj1 (Hlive pc ltac:(lia))) in Hs. eapply triple_mono; [by apply (Htr (NM :: ms))|].
    intros ? P' [-> Hs']. exists {[agg := CAgg a']}, NM. split; [done|]. by rewrite (proj1 (Hlive pc' ltac:(lia))).
  - intros p msg NA' NM' (-> & -> & -> & ->). split; [right; lia|]. eexists. split; [exact Hty'|]. split; [exact Hinv'|].
    split; [by apply threads_move|]. exists None. split_and!; [|done|cbn; by rewrite app_nil_r].
    apply last_move; [done|by left|]. apply Hlive. lia.
Qed.

(** A turn that leaves the counting where it is. *)
Lemma turn_done s t i sctx pc pc' last NA NA' NM :
  mem_wf (sf_heap s) → threads_rel (sf_threads s) (ss_pcs t) → statfs_typed stats t → statfs_inv request_id stats oom t →
  sf_threads s !! i = Some (sctx, pc) → ss_pcs t !! i = Some PcDone →
  sep (base :: NA :: NM :: imap thread_blocks (sf_threads s)) (mem_cells (sf_heap s)) →
  answer_rel (sf_queue s) (sf_sent s) (ss_queued t) NM → pc_rel i pc' PcDone → pc' = AtEnd ∨ stage pc < stage pc' →
  last_shard (<[i := (sctx, pc')]> (sf_threads s)) last → agg_blocks (ss_agg t) last NA' →
  (∀ ms P, sep (NA :: thread_blocks i (sctx, pc) :: NM :: ms) P →
    triple P (collect_shard_statfs stats sctx pc) (λ r P', r = (pc', None) ∧ sep (NA' :: thread_blocks i (sctx, pc') :: NM :: ms) P')) →
  turn_ok i s (statfs_step stats (ShardTurn i) s).
Proof.
  intros Hwf Hthr Hty Hinv Hi Hspc Hsep Hans Hpcr Hst Hlast Hagg Htr.
  eapply (turn_by s i sctx pc _ _ (λ p msg N1 N2, p = pc' ∧ msg = None ∧ N1 = NA' ∧ N2 = NM)); [done..| |].
  - intros ms P Hs. eapply triple_mono; [by apply Htr|]. intros ? P' [-> Hs']. by exists NA', NM.
  - intros p msg N1 N2 (-> & -> & -> & ->). split; [done|]. exists t. split_and!; [done..| |].
    + rewrite <-(list_insert_id (ss_pcs t) i PcDone) by done. by apply threads_move.
    + exists last. cbn. by rewrite app_nil_r.
Qed.

(** A context is freed. *)
Lemma free_ctx_triple i sctx N ms P :
  sep (N :: sent_ctx agg (i, sctx) :: ms) P →
  triple P (_ ← mfree (Some sctx); mret (AtEnd, None : option nat)) (λ r P', r = (AtEnd, None) ∧ sep (N :: thread_blocks i (sctx, AtEnd) :: ms) P').
Proof.
  intros Hs. eapply triple_bind; [exact (triple_sep_free _ _ _ _ (sep_perm _ _ (Permutation_swap _ _ _) _ Hs))|].
  intros ? P' Hs'. apply triple_ret. split; [done|]. by apply (sep_perm _ _ (Permutation_swap _ _ _)), sep_empty.
Qed.

(** A shard that adds up. *)
Lemma turn_adding s t i sctx pc :
  statfs_rel s t → statfs_typed stats t → statfs_inv request_id stats oom t → sf_threads s !! i = Some (sctx, pc) →
  stage pc < 3 → turn_ok i s (statfs_step stats (ShardTurn i) s).
Proof.
  intros Hrel Hty Hinv Hi Hpc. destruct (rel_threads _ _ Hrel) as [Hlen Hpcs].
  destruct (lookup_lt_is_Some_2 (ss_pcs t) i) as [spc Hspc]; [rewrite <-Hlen; by eapply lookup_lt_Some|].
  destruct (lookup_lt_is_Some_2 stats i) as [st Hst]; [destruct Hty as [<- _]; by eapply lookup_lt_Some|].
  specialize (Hpcs i sctx pc spc Hi Hspc). set (a := agg_of request_id (ss_pcs t) stats).
  destruct pc as [|p used|p| | | |], spc as [| | |r|]; simpl in Hpc, Hpcs; try (done || lia).
  - destruct st as [[total used]|].
    + eapply (turn_live s t i sctx _ _ _ (AtUsed agg used) PcTotal (add_total total a)); [done..|by eauto|simpl; lia|simpl; lia| | |].
      * simpl. split; [done|]. by exists total.
      * intros Ha. unfold spec_collect. by rewrite Hspc, Hst, Ha.
      * intros ms P Hs. exact (collect_start_triple stats agg sctx i _ _ _ _ Hst Hs).
    + eapply (turn_live s t i sctx _ _ _ (AtCounter agg) PcCounted (add_error a)); [done..|by eauto|simpl; lia|simpl; lia|done| |].
      * intros Ha. unfold spec_collect. by rewrite Hspc, Hst, Ha.
      * intros ms P Hs. exact (collect_start_triple stats agg sctx i _ _ _ _ Hst Hs).
  - destruct Hpcs as [-> [total Hst']]. rewrite Hst in Hst'. injection Hst' as ->.
    eapply (turn_live s t i sctx _ _ _ (AtCounter agg) PcCounted (add_used used a)); [done..|simpl; lia|simpl; lia|done| |].
    + intros Ha. unfold spec_collect. by rewrite Hspc, Hst, Ha.
    + intros ms P Hs. exact (collect_used_triple stats agg sctx used _ _ _ Hs).
  - subst p. eapply (turn_live s t i sctx _ _ _ (AtRemaining agg (ag_remaining (sub_remaining a))) (PcDecremented (ag_remaining (sub_remaining a)))
      (sub_remaining a)); [done..|by destruct st as [[]|]|simpl; lia|simpl; lia|done| |].
    + intros Ha. unfold spec_collect. by rewrite Hspc, Hst, Ha.
    + intros ms P Hs. exact (collect_counter_triple stats agg sctx _ _ _ Hs).
Qed.

(** The last shard makes its answer. *)
Lemma turn_answer s t i sctx :
  statfs_rel s t → statfs_typed stats t → statfs_inv request_id stats oom t → sf_threads s !! i = Some (sctx, AtRemaining agg 0) →
  ss_pcs t !! i = Some (PcDecremented 0) → turn_ok i s (statfs_step stats (ShardTurn i) s).
Proof.
  intros [Hthr Hwf (last & NA & NM & Hlast & Hagg & Hans & Hsep)] Hty Hinv Hi Hspc.
  destruct (lookup_lt_is_Some_2 stats i) as [st Hst]; [destruct Hty as [<- _]; by eapply lookup_lt_Some|].
  assert (ss_agg t = Some (agg_of request_id (ss_pcs t) stats) ∧ ss_queued t = []) as [Ha Hq].
  { destruct Hinv as [_ _ _ Hno|j _ Ha Hq _|_ _ _ Hno]; [by destruct (Hno i)|done|by destruct (Hno i)]. }
  set (a := agg_of request_id (ss_pcs t) stats) in *. rewrite Ha in Hagg. destruct last as [?|]; [done|]. simpl in Hagg. subst NA.
  rewrite Hq in Hans. inversion Hans as [HQ HS Hq' HN| | |]. subst NM.
  eapply (turn_by s i sctx _ _ _ (λ p msg NA' NM', p = AtFreeAgg agg ∧ NA' = {[agg := CAgg a]} ∧
    match msg with
    | Some m => ∃ extra_ok, (extra_ok = false → oom) ∧ message_blocks request_id m (statfs_reply extra_ok a) NM'
    | None => oom ∧ NM' = ∅
    end)); [done..| |].
  - intros ms P Hs. cbn [collect_shard_statfs]. rewrite decide_True by done.
    pose proof (sep_drop_empty _ _ (sep_pull 2 (_ :: _ :: ∅ :: _) _ _ eq_refl Hs)) as Hs0. cbn [delete list_delete] in Hs0.
    eapply triple_bind; [exact (statfs_message_triple agg a _ _ Hs0)|]. intros [m|] P' HP.
    + destruct HP as (extra_ok & N & Hx & HN' & Hs'). apply triple_ret. exists {[agg := CAgg a]}, N.
      split; [by split_and!; [..|exists extra_ok]|]. eapply sep_perm; [|exact Hs']. f_equiv. apply Permutation_swap.
    + destruct HP as [Hx Hs']. apply triple_ret. exists {[agg := CAgg a]}, ∅. split; [by split_and!|].
      eapply sep_perm; [|exact (sep_empty _ _ Hs')]. apply (Permutation_middle [_; _]).
  - intros p msg NA' NM' (-> & -> & Hmsg). split; [right; simpl; lia|].
    assert (∃ msg_ok extra_ok, (msg_ok = false → oom) ∧ (extra_ok = false → oom) ∧
      answer_rel (sf_queue s ++ option_list msg) (sf_sent s) (if msg_ok : bool then [statfs_reply extra_ok a] else []) NM')
      as (msg_ok & extra_ok & Hm & Hx & Hans').
    { rewrite <-HQ, <-HS. destruct msg as [m|]; [destruct Hmsg as (extra_ok & ? & ?); exists true, extra_ok|destruct Hmsg as [? ->]; exists false, true];
        (split_and!; [done..|]); by constructor. }
    destruct (collect_preserves request_id stats oom few_shards msg_ok extra_ok i t) as (t' & E1 & Hty' & Hinv'); [done..|].
    unfold spec_collect in E1. rewrite Hspc, Hst, decide_True, Ha, Hq in E1 by done. simpl in E1. injection E1 as <-.
    eexists. split; [exact Hty'|]. split; [exact Hinv'|]. split; [by apply threads_move|].
    exists (Some i). split_and!; [|by exists a|done].
    intros k. split.
    + intros [= <-]. exists sctx, (AtFreeAgg agg). split; [|done]. apply list_lookup_insert_eq. by eapply lookup_lt_Some.
    + intros (sctx' & pc & Hk & Hf). apply list_lookup_insert_Some in Hk as [(<- & _)|[_ Hk]]; [done|].
      by assert (None = Some k) by (apply Hlast; by exists sctx', pc).
Qed.

(** A shard past its decrement frees what is its own. *)
Lemma turn_freeing s t i sctx pc :
  statfs_rel s t → statfs_typed stats t → statfs_inv request_id stats oom t → sf_threads s !! i = Some (sctx, pc) →
  3 < stage pc → turn_ok i s (statfs_step stats (ShardTurn i) s).
Proof.
  intros [Hthr Hwf (last & NA & NM & Hlast & Hagg & Hans & Hsep)] Hty Hinv Hi Hpc. pose proof Hthr as [Hlen Hpcs].
  destruct (lookup_lt_is_Some_2 (ss_pcs t) i) as [spc Hspc]; [rewrite <-Hlen; by eapply lookup_lt_Some|].
  specialize (Hpcs i sctx pc spc Hi Hspc).
  destruct pc as [| | | |p| |], spc; simpl in Hpc, Hpcs; try (done || lia).
  - subst p. assert (last = Some i) as -> by (apply Hlast; by eexists _, _). destruct (ss_agg t) as [|] eqn:Ha; [done|]. destruct Hagg as [a ->].
    eapply (turn_done s t i sctx _ AtFree None _ ∅); [done..|right; simpl; lia| |by rewrite Ha|].
    + intros k. split; [done|]. intros (sctx' & pc & Hk & Hf).
      apply list_lookup_insert_Some in Hk as [(<- & [= <- <-] & _)|[Hne Hk]]; [done|].
      assert (Some i = Some k) as [= ->] by (apply Hlast; by exists sctx', pc). done.
    + intros ms P Hs. cbn [collect_shard_statfs]. eapply triple_bind; [exact (triple_sep_free _ _ _ _ Hs)|].
      intros ? P' Hs'. apply triple_ret. split; [done|]. by apply sep_empty.
  - eapply (turn_done s t i sctx _ AtEnd last _ NA); [done..|by left| |done|].
    + apply last_move; [done| |done]. right. by exists AtFree.
    + intros ms P Hs. by apply free_ctx_triple.
  - eapply (turn_done s t i sctx _ AtEnd last _ NA); [done..|by left| |done|].
    + apply last_move; [done| |done]. right. by exists AtEnd.
    + intros ms P Hs. by apply triple_ret.
Qed.
(** A shard that is not the last frees its context. *)
Lemma turn_not_last s t i sctx rem :
  statfs_rel s t → statfs_typed stats t → statfs_inv request_id stats oom t → sf_threads s !! i = Some (sctx, AtRemaining agg rem) →
  ss_pcs t !! i = Some (PcDecremented rem) → rem ≠ 0%Z → turn_ok i s (statfs_step stats (ShardTurn i) s).
Proof.
  intros [Hthr Hwf (last & NA & NM & Hlast & Hagg & Hans & Hsep)] Hty Hinv Hi Hspc Hrem.
  destruct (lookup_lt_is_Some_2 stats i) as [st Hst]; [destruct Hty as [<- _]; by eapply lookup_lt_Some|].
  destruct (collect_preserves request_id stats oom few_shards true true i t) as (t' & E1 & Hty' & Hinv'); [done..|].
  unfold spec_collect in E1. rewrite Hspc, Hst, decide_False in E1 by done. injection E1 as <-.
  eapply (turn_by s i sctx _ _ _ (λ p msg NA' NM', p = AtEnd ∧ msg = None ∧ NA' = NA ∧ NM' = NM)); [done..| |].
  - intros ms P Hs. cbn [collect_shard_statfs]. rewrite decide_False by done.
    eapply triple_mono; [exact (free_ctx_triple i sctx NA _ _ Hs)|]. intros ? P' [-> Hs']. by exists NA, NM.
  - intros p msg NA' NM' (-> & -> & -> & ->). split; [by left|]. eexists. split; [exact Hty'|]. split; [exact Hinv'|].
    split; [by apply threads_move|]. exists last. split_and!; [|done|cbn; by rewrite app_nil_r].
    apply last_move; [done| |done]. right. by eexists.
Qed.

Lemma shard_turn s t i sctx pc :
  statfs_rel s t → statfs_typed stats t → statfs_inv request_id stats oom t → sf_threads s !! i = Some (sctx, pc) →
  turn_ok i s (statfs_step stats (ShardTurn i) s).
Proof.
  intros Hrel Hty Hinv Hi. destruct (decide (stage pc < 3)); [by eapply turn_adding|].
  destruct (decide (3 < stage pc)); [by eapply turn_freeing|].
  destruct (rel_threads _ _ Hrel) as [Hlen Hpcs].
  destruct (lookup_lt_is_Some_2 (ss_pcs t) i) as [spc Hspc]; [rewrite <-Hlen; by eapply lookup_lt_Some|].
  specialize (Hpcs i sctx pc spc Hi Hspc). destruct pc as [| | |p rem| | |]; simpl in *; try lia.
  destruct spc as [| | |r|]; try done. destruct Hpcs as [-> <-].
  destruct (decide (rem = 0)%Z) as [->|]; [by eapply turn_answer|by eapply turn_not_last].
Qed.

(** The RPC thread takes the message, and frees it unless the library is busy. *)
Lemma rpc_turn s t send_rc :
  statfs_rel s t → (send_rc < 0 → send_rc ≠ - EBUSY → refused)%Z →
  ∃ s', statfs_step stats (RpcTurn send_rc) s = Some s' ∧ statfs_rel s' t ∧ sf_threads s' = sf_threads s ∧
    (send_rc ≠ (- EBUSY)%Z → sf_queue s' = []).
Proof.
  intros Hrel Hrefused. pose proof Hrel as [Hthr Hwf (last & NA & NM & Hlast & Hagg & Hans & Hsep)].
  cbn [statfs_step]. inversion Hans as [HQ HS Hq HN|m reply N Hmsg HQ HS Hq HN|reply Hl HQ HS Hq HN|buf reply HQ HS Hq HN]; try by exists s.
  subst N. destruct Hmsg as (buf & Hbuf & Hblocks). set (rm := reply_message request_id buf reply) in *.
  assert ((λ _, default [] reply.2) <$> rm_extra_data rm = reply.2) as Hdata.
  { simpl. destruct buf, reply.2; simpl; naive_solver. }
  pose proof (send_reply_triple rm (default [] reply.2) m send_rc NM) as Ht. cbv zeta in Ht. rewrite Hdata in Ht.
  destruct (triple_sep_run NM _ _ _ (sf_heap s) (Ht (or_introl (reply_message_fits request_id buf reply)) Hblocks) Hwf
    (sep_pull 2 (_ :: _ :: _ :: _) _ _ eq_refl Hsep)) as ([response again] & h' & N' & Hrun & Hwf' & Hsep' & HP).
  rewrite Hrun. eexists. split; [done|].
  assert (sep (base :: NA :: N' :: imap thread_blocks (sf_threads s)) (mem_cells h')) as Hsep''.
  { eapply sep_perm; [|exact Hsep']. apply (Permutation_middle [_; _]). }
  enough (answer_rel (if again then [] ++ [m] else []) ([] ++ (if decide (0 ≤ send_rc)%Z then option_list response else []))
    [reply] N') as Hans'.
  { split_and!; [constructor; [done..|]; exists last, NA, N'; rewrite <-Hq; by split_and!|done|]. destruct again; [by destruct HP as [_ ->]|done]. }
  destruct again.
  - destruct HP as [-> ->]. rewrite decide_False by (unfold EBUSY; lia). constructor. by exists buf.
  - destruct HP as [-> [[-> ?]|(_ & Hbusy & ->)]].
    + destruct (decide _); constructor; by left.
    + destruct (decide (0 ≤ send_rc)%Z); [apply (AnswerSent buf reply)|]. constructor. right. apply Hrefused; [lia|done].
Qed.

(** ** Runs *)

(** How often a shard takes a step in a schedule. *)
Definition turns (i : nat) (schedule : list statfs_turn) : nat := length (filter (λ j, j = ShardTurn i) schedule).

Definition further (schedule : list statfs_turn) s s' : Prop :=
  ∀ i sctx pc, sf_threads s !! i = Some (sctx, pc) →
    ∃ pc', sf_threads s' !! i = Some (sctx, pc') ∧ (pc' = AtEnd ∨ stage pc + turns i schedule ≤ stage pc').

Lemma run_rel schedule s t :
  (∀ rc, RpcTurn rc ∈ schedule → rc < 0 → rc ≠ - EBUSY → refused)%Z →
  statfs_rel s t → statfs_typed stats t → statfs_inv request_id stats oom t →
  ∃ s' t', statfs_run stats schedule s = Some s' ∧ statfs_rel s' t' ∧ statfs_typed stats t' ∧
    statfs_inv request_id stats oom t' ∧ further schedule s s'.
Proof.
  revert s t. induction schedule as [|[i|rc] schedule IH]; intros s t Href Hrel Hty Hinv; cbn [statfs_run].
  - exists s, t. split_and!; [done..|]. intros i sctx pc Hi. exists pc. split; [done|]. right. unfold turns. simpl. lia.
  - assert (∀ rc, RpcTurn rc ∈ schedule → rc < 0 → rc ≠ - EBUSY → refused)%Z as Href' by (intros rc Hrc; apply Href; by right).
    destruct (sf_threads s !! i) as [[sctx pc]|] eqn:Hi.
    2: { cbn [statfs_step]. rewrite Hi. destruct (IH s t Href' Hrel Hty Hinv) as (s' & t' & Hrun & ? & ? & ? & Hfur).
      exists s', t'. split_and!; [done..|]. intros k sctx pc Hk. destruct (Hfur k sctx pc Hk) as (pc' & Hk' & Hst). exists pc'. split; [done|].
      unfold turns in *. rewrite filter_cons_False; [done|]. intros [= ->]. congruence. }
    destruct (shard_turn s t i sctx pc Hrel Hty Hinv Hi) as (s1 & t1 & sctx1 & pc0 & pc1 & Hs1 & Hrel1 & Hty1 & Hinv1 & Hi0 & Hthr1 & Hst1).
    rewrite Hs1. rewrite Hi in Hi0. injection Hi0 as <- <-.
    destruct (IH s1 t1 Href' Hrel1 Hty1 Hinv1) as (s' & t' & Hrun & ? & ? & ? & Hfur). exists s', t'. split_and!; [done..|].
    intros k sctx' pc' Hk. unfold further in Hfur. rewrite Hthr1 in Hfur. unfold turns in *. destruct (decide (k = i)) as [->|Hne].
    + rewrite Hi in Hk. injection Hk as <- <-. rewrite filter_cons_True by done.
      destruct (Hfur i sctx pc1) as (pc2 & Hk2 & Hst2); [apply list_lookup_insert_eq; by eapply lookup_lt_Some|].
      exists pc2. split; [done|]. simpl. destruct Hst2 as [|Hle]; [by left|]. destruct Hst1 as [->|]; [left|right; lia].
      destruct pc2; simpl in Hle; done || lia.
    + rewrite filter_cons_False by (by intros [= ->]). apply Hfur. by rewrite list_lookup_insert_ne.
  - destruct (rpc_turn s t rc Hrel) as (s1 & Hs1 & Hrel1 & Hthr1 & _); [apply Href; by left|]. rewrite Hs1.
    destruct (IH s1 t (λ rc Hrc, Href rc (list_elem_of_further _ _ _ Hrc)) Hrel1 Hty Hinv) as (s' & t' & Hrun & ? & ? & ? & Hfur).
    exists s', t'. split_and!; [done..|]. intros k sctx pc Hk. rewrite <-Hthr1 in Hk. destruct (Hfur k sctx pc Hk) as (pc' & Hk' & Hst).
    exists pc'. split; [done|]. unfold turns in *. by rewrite filter_cons_False.
Qed.

(** What the threads are when they start. *)
Lemma start_rel (h : mem cell) messages N :
  0 < length stats → messages.*1 = seq 0 (length stats) → mem_wf h → mem_cells h = N ∪ base → N ##ₘ base →
  sep ({[agg := CAgg (Aggregator request_id (Z.of_nat (length stats)) 0 0 0)]} :: (sent_ctx agg <$> messages)) N →
  statfs_rel (statfs_start h messages) (spec_start request_id (length stats)).
Proof.
  intros Hpos Hm Hwf Hc Hd Hs. assert (length messages = length stats) as Hlen.
  { rewrite <-(length_fmap fst messages), Hm. apply length_seq. }
  assert (imap thread_blocks (sf_threads (statfs_start h messages)) = sent_ctx agg <$> messages) as Himap.
  { apply list_eq. intros i. simpl. rewrite list_lookup_imap, !list_lookup_fmap.
    destruct (messages !! i) as [[k p]|] eqn:Hi; [|done]. simpl. do 2 f_equal.
    apply (f_equal (lookup i)) in Hm. rewrite list_lookup_fmap, Hi in Hm. simpl in Hm. symmetry in Hm.
    apply lookup_seq in Hm as [-> _]. done. }
  constructor; [|done|].
  - split; simpl; [by rewrite length_fmap, length_replicate|]. intros i sctx pc spc Hi Hs'.
    apply lookup_replicate in Hs' as [-> _]. rewrite list_lookup_fmap in Hi. by destruct (messages !! i) as [[]|]; simplify_eq/=.
  - exists None, {[agg := CAgg (Aggregator request_id (Z.of_nat (length stats)) 0 0 0)]}, ∅.
    split_and!; [|done|constructor|].
    + intros i. split; [done|]. intros (sctx & pc & Hi & Hf). simpl in Hi. rewrite list_lookup_fmap in Hi. by destruct (messages !! i) as [[]|]; simplify_eq/=.
    + rewrite Himap. cbn [sf_heap statfs_start]. rewrite Hc, map_union_comm by done. exists N. split_and!; [done|by symmetry|].
      apply (sep_perm _ _ (Permutation_swap _ _ _)), sep_empty, Hs.
Qed.

Lemma sep_empties (ms : list (gmap nat cell)) P : Forall (λ N, N = ∅) ms → sep ms P → P = ∅.
Proof using.
  intros Hms. revert P. induction Hms as [|N ms -> _ IH]; intros P; [done|]. intros Hs. by apply IH, sep_drop_empty.
Qed.

(** When every shard has ended, the counting is over and only the answer is left. *)
Lemma ended s t :
  0 < length stats → statfs_rel s t → statfs_typed stats t → statfs_inv request_id stats oom t →
  (∀ i sctx pc, sf_threads s !! i = Some (sctx, pc) → pc = AtEnd) →
  (sf_queue s = [] → mem_cells (sf_heap s) = base) ∧
  let a := Aggregator request_id 0 (u64 (zsum stat_total stats)) (u64 (zsum stat_used stats)) (zsum stat_failed stats) in
  (ss_queued t = [] ∧ oom ∨ ∃ extra_ok, ss_queued t = [statfs_reply extra_ok a] ∧ (extra_ok = false → oom)).
Proof.
  intros Hpos [[Hlen Hpcs] Hwf (last & NA & NM & Hlast & Hagg & Hans & Hsep)] Hty Hinv Hend.
  assert (∀ i spc, ss_pcs t !! i = Some spc → spc = PcDone) as Hdone.
  { intros i spc Hi. destruct (lookup_lt_is_Some_2 (sf_threads s) i) as [[sctx pc] Hk]; [rewrite Hlen; by eapply lookup_lt_Some|].
    specialize (Hpcs i sctx pc spc Hk Hi). rewrite (Hend _ _ _ Hk) in Hpcs. by destruct spc. }
  pose proof (done_sums request_id stats few_shards (ss_pcs t) (proj1 Hty) Hdone) as Hsums.
  destruct Hinv as [Hcount _ _ _|j _ _ _ Hj|_ Hnone Hq _].
  - exfalso. apply (f_equal ag_remaining) in Hsums. simpl in Hsums. lia.
  - by pose proof (Hdone _ _ (proj2 (Hj j) eq_refl)).
  - split; [|cbv zeta; by rewrite <-Hsums]. intros HQ.
    assert (last = None) as ->.
    { destruct last as [i|]; [|done]. destruct (proj1 (Hlast i) eq_refl) as (sctx & pc & Hi & Hf). by rewrite (Hend _ _ _ Hi) in Hf. }
    rewrite Hnone in Hagg. simpl in Hagg. subst NA. rewrite HQ in Hans. assert (NM = ∅) as -> by (by inversion Hans).
    destruct Hsep as (R & -> & _ & Hs). rewrite (sep_empties _ R) with (2 := Hs); [apply (right_id_L ∅ (∪))|].
    do 2 (constructor; [done|]). apply Forall_lookup. intros i N Hi. rewrite list_lookup_imap in Hi.
    destruct (sf_threads s !! i) as [[sctx pc]|] eqn:Hk; [|done]. injection Hi as <-. by rewrite (Hend _ _ _ Hk).
Qed.
End refinement.

(** ** Properties *)

(** What the client is told in the end: one answer, with the sums over the shards that
    answered, modulo 2^64, or sizes of 0 when memory was exhausted; or nothing, when memory
    was exhausted or the library refused the response. *)
Definition statfs_answered `{E : StorageEnv} {O : AllocOracle} (request_id : Z) (stats : list (option (Z * Z)))
    (schedule : list statfs_turn) (sent : list (Z * Z * bytes)) : Prop :=
  match sent with
  | [] => (∃ n, alloc_ok n = false) ∨ ∃ rc, RpcTurn rc ∈ schedule ∧ (rc < 0)%Z ∧ rc ≠ (- EBUSY)%Z
  | [response] =>
      ∃ total used,
        answers_with request_id (if decide (Exists (λ st, st = None) stats) then IO_ERROR else IO_SUCCESS) total used response ∧
        (total = u64 (zsum stat_total stats) ∧ used = u64 (zsum stat_used stats) ∨
         total = 0%Z ∧ used = 0%Z ∧ ∃ n, alloc_ok n = false)
  | _ => False
  end.

Lemma stat_failed_iff stats : (zsum stat_failed stats > 0)%Z ↔ Exists (λ st, st = None) stats.
Proof.
  induction stats as [|st l IH]; simpl; [rewrite Exists_nil; lia|].
  assert (0 ≤ zsum stat_failed l)%Z by (apply zsum_nonneg; by intros [[]|]).
  rewrite Exists_cons, <-IH. destruct st as [[]|]; simpl; split; intuition (done || lia).
Qed.

(** The response that left the RPC thread is the answer that was queued. *)
Lemma sent_answers `{E : StorageEnv} {O : AllocOracle} request_id stats schedule sent queued N :
  let a := Aggregator request_id 0 (u64 (zsum stat_total stats)) (u64 (zsum stat_used stats)) (zsum stat_failed stats) in
  answer_rel request_id (∃ rc, RpcTurn rc ∈ schedule ∧ (rc < 0)%Z ∧ rc ≠ (- EBUSY)%Z) [] sent queued N →
  (queued = [] ∧ (∃ n, alloc_ok n = false) ∨ ∃ extra_ok, queued = [statfs_reply extra_ok a] ∧ (extra_ok = false → ∃ n, alloc_ok n = false)) →
  statfs_answered request_id stats schedule sent.
Proof.
  intros a Hans Hq. inversion Hans as [HS Hq' HN| |reply Hl HS Hq' HN|buf reply HS Hq' HN]; subst queued; [|done|].
  - destruct Hq as [[_ ?]|(? & [=] & _)]. by left.
  - destruct Hq as [[[=] _]|(extra_ok & [= ->] & Hx)]. rewrite statfs_body.
    assert (statfs_result a = if decide (Exists (λ st, st = None) stats) then IO_ERROR else IO_SUCCESS) as Hres.
    { unfold statfs_result. pose proof (stat_failed_iff stats). simpl. repeat case_decide; tauto. }
    rewrite Hres. assert (fits 64 0) by done. destruct extra_ok.
    + exists (ag_total_size a), (ag_used_size a). split; [|by left]. by apply statfs_response; apply (wrap_fits 64).
    + exists 0%Z, 0%Z. split; [by apply statfs_response|]. right. split_and!; auto.
Qed.

(** C4. STATFS answers once and right under every interleaving of the shards and the RPC
    thread, and frees all that it allocates. The handler answers at once, with an error and
    nothing allocated, when there are no shards or memory is exhausted; otherwise it sends
    each shard its context, and from then on no schedule makes anybody touch or free a
    block that is gone, and there is at most one answer, queued or sent. Once every shard
    has had six turns and the RPC thread then one that the library does not put off, the
    heap is the one that the handler found (the contexts, the aggregator, the message and its
    extra data are freed), and the client's callback is told of the answer: a success when
    every shard answered, with the sums of the totals and of the used sizes of those that
    did, modulo 2^64. Without memory the answer is lost, or says 0 for both sums. *)
Theorem statfs_single_reply `{E : StorageEnv} {O : AllocOracle} request_id (stats : list (option (Z * Z))) (h : mem cell) :
  mem_wf h → (Z.of_nat (length stats) < 2 ^ 31)%Z →
  ∃ res messages h1, rpc_handler_statfs request_id (Z.of_nat (length stats)) h = Some ((res, messages), h1) ∧
    (messages = [] ∧ mem_cells h1 = mem_cells h ∧
       (stats = [] ∧ res = encode_simple_error IO_ERROR ∨ stats ≠ [] ∧ res = internal_error ∧ ∃ n, alloc_ok n = false) ∨
     stats ≠ [] ∧ res = Handled NRPC_HANDLER_DEFERRED None None None ∧ messages.*1 = seq 0 (length stats) ∧
     ∀ schedule, ∃ s, statfs_run stats schedule (statfs_start h1 messages) = Some s ∧
       length (sf_queue s) + length (sf_sent s) ≤ 1 ∧
       ((∀ i, i < length stats → 6 ≤ turns i schedule) →
        ∃ s', statfs_step stats (RpcTurn 0) s = Some s' ∧ sf_queue s' = [] ∧ mem_cells (sf_heap s') = mem_cells h ∧
          statfs_answered request_id stats schedule (sf_sent s'))).
Proof.
  intros Hwf Hfew. destruct (statfs_handler_triple request_id (length stats) h (mem_cells h) Hwf)
    as ([res messages] & h1 & N & Hrun & Hwf1 & Hc1 & Hd & Hout); [by rewrite (left_id_L ∅ (∪))|apply map_disjoint_empty_l|].
  exists res, messages, h1. split; [done|]. destruct Hout as [(-> & -> & Hout)|(Hpos & -> & Hm & agg & Hsep)].
  { left. split; [done|]. split; [by rewrite Hc1, (left_id_L ∅ (∪))|]. destruct Hout as [[?%length_zero_iff_nil ->]|(? & -> & ?)]; [by left|right].
    split_and!; [by intros ->|done..]. }
  right. split; [by intros ->|]. split_and!; [done..|]. intros schedule.
  set (refused := ∃ rc, RpcTurn rc ∈ schedule ∧ (rc < 0)%Z ∧ rc ≠ (- EBUSY)%Z).
  destruct (start_ok request_id stats (∃ n, alloc_ok n = false) Hfew Hpos) as [Hty0 Hinv0].
  pose proof (start_rel request_id stats (mem_cells h) agg refused Hfew h1 messages N Hpos Hm Hwf1 Hc1 Hd Hsep) as Hrel0.
  destruct (run_rel request_id stats (mem_cells h) agg refused Hfew schedule _ _ (λ rc Hin Hneg Hne, ex_intro _ rc (conj Hin (conj Hneg Hne))) Hrel0 Hty0 Hinv0)
    as (s & t & Hs & Hrel & Hty & Hinv & Hfur).
  exists s. split; [done|]. split; [destruct Hrel as [_ _ (? & ? & ? & _ & _ & Hans & _)]; destruct Hans; simpl; lia|]. intros Hturns.
  destruct (rpc_turn request_id stats (mem_cells h) agg refused Hfew s t 0 Hrel) as (s' & Hs' & Hrel' & Hthr & Hq); [done|].
  exists s'. split; [done|]. specialize (Hq ltac:(done)).
  assert (length messages = length stats) as Hlen by (rewrite <-(length_fmap fst messages), Hm; apply length_seq).
  assert (∀ i sctx pc, sf_threads s' !! i = Some (sctx, pc) → pc = AtEnd) as Hend.
  { intros i sctx pc Hi. rewrite Hthr in Hi. assert (i < length stats) as Hlt.
    { destruct Hrel as [[Hl _] _ _]. destruct Hty as [Hl' _]. apply lookup_lt_Some in Hi. lia. }
    destruct (lookup_lt_is_Some_2 messages i) as [[k p] Hk]; [lia|].
    destruct (Hfur i p AtStart) as (pc' & Hi' & Hst); [simpl; by rewrite list_lookup_fmap, Hk|].
    rewrite Hi in Hi'. injection Hi' as <- <-. specialize (Hturns i Hlt). destruct Hst as [|Hst]; [done|].
    destruct pc; simpl in Hst; done || lia. }
  destruct (ended request_id stats (mem_cells h) agg refused Hfew s' t Hpos Hrel' Hty Hinv Hend) as [Hcells Hans].
  split_and!; [done|by apply Hcells|]. destruct Hrel' as [_ _ (? & ? & NM & _ & _ & Hrel' & _)]. rewrite Hq in Hrel'.
  by eapply sent_answers.
Qed.

(** Three shards, one of which fails, their steps interleaved; the library is busy once. *)
Lemma statfs_single_reply_witness :
  let stats := [Some (100, 10); None; Some (50, 5)]%Z in
  let schedule := concat (replicate 6 [ShardTurn 2; RpcTurn (- EBUSY); ShardTurn 0; ShardTurn 1]) in
  ∃ res messages h1 s s', rpc_handler_statfs (E := example_env) (O := no_oom) 7 3 mem_empty = Some ((res, messages), h1) ∧
    statfs_run (E := example_env) (O := no_oom) stats schedule (statfs_start h1 messages) = Some s ∧
    statfs_step (E := example_env) (O := no_oom) stats (RpcTurn 0) s = Some s' ∧
    mem_cells (sf_heap s') = ∅ ∧ sf_sent s' = [(7, 0, put_le 4 1 ++ put_le 8 150 ++ put_le 8 15)%Z].
Proof.
  intros stats schedule. destruct (statfs_single_reply (E := example_env) (O := no_oom) 7 stats mem_empty mem_wf_empty)
    as (res & messages & h1 & Hrun & [(-> & _)|(_ & _ & _ & Hruns)]); [done|by vm_compute in Hrun|].
  destruct (Hruns schedule) as (s & Hs & _ & Hend).
  destruct Hend as (s' & Hs' & _ & Hcells & _); [intros [|[|[|i]]] Hi; [vm_compute; lia..|simpl in Hi; lia]|].
  exists res, messages, h1, s, s'. split_and!; [done..|].
  vm_compute in Hrun. injection Hrun as <- <- <-. vm_compute in Hs. injection Hs as <-. vm_compute in Hs'. by injection Hs' as <-.
Defined.
