(* ===== verification/EngineConfig.v ===== *)
(** * The engine's configuration ([src/engine/src/config.c], [config.h])

    Reading, decoding and validating the JSON configuration.  The JSON library (SPDK's)
    and [strtod]'s floating-point numbers are not in the repository: they are the class
    [JsonLib], and what the proofs rely on is [JsonLaws].  [load_config] is cut into the
    blocks of the source, each from configuration to result and configuration; a block
    that fails leaves what it wrote before, as the global [g_config] does. *)
From S2P Require Import Prelude.
From stdpp Require Import options.
Local Open Scope Z_scope.

(** ** The JSON library *)

(** The value types the decoders tell apart. *)
Inductive json_type :=
  | SPDK_JSON_VAL_TRUE | SPDK_JSON_VAL_FALSE | SPDK_JSON_VAL_NUMBER | SPDK_JSON_VAL_STRING
  | SPDK_JSON_VAL_OBJECT_BEGIN | SPDK_JSON_VAL_OTHER.

#[export] Instance json_type_eq_dec : EqDecision json_type.
Proof. solve_decision. Defined.

(** [struct spdk_json_object_decoder] for the members of an object decoded into a [T]. *)
Record decoder (V T : Type) := Decoder {
  d_name : bytes;
  d_decode : V → T → option T;
  d_optional : bool
}.
Arguments Decoder {V T}.
Arguments d_name {V T}.
Arguments d_decode {V T}.
Arguments d_optional {V T}.

Class JsonLib := {
  json_val : Type;
  json_val_type : json_val → json_type;
  (** [start] and [len] *)
  json_val_text : json_val → bytes;
  (** [spdk_json_parse] with room for so many values: the result and the values written *)
  json_parse : bytes → Z → Z * list json_val;
  json_find : json_val → bytes → json_type → option json_val;
  json_decode_object : ∀ {T}, json_val → list (decoder json_val T) → T → option T;
  json_val_len : json_val → Z;
  json_array_first : json_val → option json_val;
  json_next : option json_val → option json_val;
  json_decode_int32 : option json_val → option Z;
  json_decode_uint32 : option json_val → option Z;
  json_decode_uint64 : option json_val → option Z;
  double : Type;
  double_zero : double;
  (** [None] when nothing was converted *)
  strtod : bytes → option double
}.

(** An object is decoded by running some of the decoders in some order, and fails when
    one of them does; a decoded integer is a value of its type. *)
Class JsonLaws (J : JsonLib) := {
  json_decode_object_inv T (P : T → Prop) obj ds (t t' : T) :
    P t →
    (∀ d v t1 t2, d ∈ ds → P t1 → d_decode d v t1 = Some t2 → P t2) →
    json_decode_object obj ds t = Some t' → P t';
  json_decode_int32_range v z : json_decode_int32 v = Some z → - 2 ^ 31 ≤ z < 2 ^ 31;
  json_decode_uint64_range v z : json_decode_uint64 v = Some z → fits 64 z
}.

(** ** Data *)

Record bdev_config := BdevConfig {
  bdev_name : bytes;
  bdev_size : Z;
  bdev_block_size : Z;
  bdev_num_blocks : Z
}.

Record segment_config := SegmentConfig {
  max_segments : Z;
  segment_size : Z;
  data_segments : Z;
  journal_segments : Z;
  metadata_segments : Z
}.

Section config.
Context {J : JsonLib}.

Record gc_config := GcConfig {
  gc_is_enabled : bool;
  gc_threshold : double;
  gc_interval : Z;
  gc_segment_scan_batch : Z;
  gc_reschedule_delay_us : Z
}.

Record checkpoint_config := CheckpointConfig { ck_is_enabled : bool; ck_interval : Z }.
Record log_config := LogConfig { log_mode : bytes; log_file_path : bytes; log_default_level : Z }.

(** [core_map] is NULL or an array; its length is a field of its own. *)
Record shard_config := ShardConfig {
  num_shards : Z;
  bg_core : Z;
  core_map : option (list Z);
  core_map_len : Z
}.

Record rpc_config := RpcConfig { rpc_port : Z; rpc_core_index : Z }.

Record config := Config {
  spdk_json_config_file : bytes;
  c_bdev : bdev_config;
  c_segment : segment_config;
  wal_ring_buffer_size : Z;
  c_gc : gc_config;
  c_checkpoint : checkpoint_config;
  c_log : log_config;
  c_shard : shard_config;
  c_rpc : rpc_config;
  debug_manifest_small_checkpoint : bool
}.

Definition set_spdk_json (x : bytes) (c : config) : config :=
  Config x (c_bdev c) (c_segment c) (wal_ring_buffer_size c) (c_gc c) (c_checkpoint c) (c_log c) (c_shard c) (c_rpc c) (debug_manifest_small_checkpoint c).
Definition set_bdev_config (x : bdev_config) (c : config) : config :=
  Config (spdk_json_config_file c) x (c_segment c) (wal_ring_buffer_size c) (c_gc c) (c_checkpoint c) (c_log c) (c_shard c) (c_rpc c) (debug_manifest_small_checkpoint c).
Definition set_segment_config (x : segment_config) (c : config) : config :=
  Config (spdk_json_config_file c) (c_bdev c) x (wal_ring_buffer_size c) (c_gc c) (c_checkpoint c) (c_log c) (c_shard c) (c_rpc c) (debug_manifest_small_checkpoint c).
Definition set_wal (x : Z) (c : config) : config :=
  Config (spdk_json_config_file c) (c_bdev c) (c_segment c) x (c_gc c) (c_checkpoint c) (c_log c) (c_shard c) (c_rpc c) (debug_manifest_small_checkpoint c).
Definition set_gc (x : gc_config) (c : config) : config :=
  Config (spdk_json_config_file c) (c_bdev c) (c_segment c) (wal_ring_buffer_size c) x (c_checkpoint c) (c_log c) (c_shard c) (c_rpc c) (debug_manifest_small_checkpoint c).
Definition set_checkpoint (x : checkpoint_config) (c : config) : config :=
  Config (spdk_json_config_file c) (c_bdev c) (c_segment c) (wal_ring_buffer_size c) (c_gc c) x (c_log c) (c_shard c) (c_rpc c) (debug_manifest_small_checkpoint c).
Definition set_log (x : log_config) (c : config) : config :=
  Config (spdk_json_config_file c) (c_bdev c) (c_segment c) (wal_ring_buffer_size c) (c_gc c) (c_checkpoint c) x (c_shard c) (c_rpc c) (debug_manifest_small_checkpoint c).
Definition set_shard (x : shard_config) (c : config) : config :=
  Config (spdk_json_config_file c) (c_bdev c) (c_segment c) (wal_ring_buffer_size c) (c_gc c) (c_checkpoint c) (c_log c) x (c_rpc c) (debug_manifest_small_checkpoint c).
Definition set_rpc (x : rpc_config) (c : config) : config :=
  Config (spdk_json_config_file c) (c_bdev c) (c_segment c) (wal_ring_buffer_size c) (c_gc c) (c_checkpoint c) (c_log c) (c_shard c) x (debug_manifest_small_checkpoint c).
Definition set_debug (x : bool) (c : config) : config :=
  Config (spdk_json_config_file c) (c_bdev c) (c_segment c) (wal_ring_buffer_size c) (c_gc c) (c_checkpoint c) (c_log c) (c_shard c) (c_rpc c) x.

(** [memset(&g_config, 0, sizeof(g_config))] *)
Definition config_zero : config :=
  Config [] (BdevConfig [] 0 0 0) (SegmentConfig 0 0 0 0 0) 0 (GcConfig false double_zero 0 0 0)
    (CheckpointConfig false 0) (LogConfig [] [] 0) (ShardConfig 0 0 None 0) (RpcConfig 0 0) false.

(** The decoded sections, [struct json_...]. *)
Record json_shard := JsonShard {
  jsh_num_shards : Z;
  jsh_bg_core : Z;
  jsh_core_map : option (list Z)
}.

Record json_gc := JsonGc {
  jg_is_enabled : bool;
  jg_threshold : double;
  jg_interval : Z;
  jg_segment_scan_batch : Z;
  jg_reschedule_delay_us : Z
}.

(** ** Decoders *)

Definition CONFIG_PATH_MAX : nat := Z.to_nat 512.

(** A string and its terminator in a buffer of [cap] bytes: the C string it holds. *)
Definition decode_string (cap : nat) (val : json_val) : option bytes :=
  if decide (json_val_type val ≠ SPDK_JSON_VAL_STRING) then None
  else if decide (cap ≤ length (json_val_text val))%nat then None
  else Some (cstr (json_val_text val)).

Definition decode_string_buf256 (val : json_val) : option bytes := decode_string 256 val.
Definition decode_string_cfg_path (val : json_val) : option bytes := decode_string CONFIG_PATH_MAX val.
Definition decode_string_buf16 (val : json_val) : option bytes := decode_string 16 val.

Definition decode_json_bool (val : json_val) : option bool :=
  if decide (json_val_type val = SPDK_JSON_VAL_TRUE) then Some true
  else if decide (json_val_type val = SPDK_JSON_VAL_FALSE) then Some false
  else None.

(** The result and the string left in [spdk_json], a buffer of [cap] bytes. *)
Definition resolve_spdk_json_path (config_file spdk_json : bytes) (cap : nat) : Z * bytes :=
  match spdk_json with
  | [] => (-1, spdk_json)
  | c :: _ =>
      if decide (c = SLASH) then (0, spdk_json)
      else match strrchr config_file SLASH with
           | None => (0, spdk_json)
           | Some slash =>
               let dirlen := (slash + 1)%nat in
               let plen := length spdk_json in
               if decide (CONFIG_PATH_MAX < dirlen + plen + 1)%nat then (-1, spdk_json)
               else if decide (cap < dirlen + plen + 1)%nat then (-1, spdk_json)
               else (0, take dirlen config_file ++ spdk_json)
           end
  end.

(** [tmp_ok]: the allocation of the copy of the number's text. *)
Definition decode_json_number_as_double (tmp_ok : bool) (val : json_val) : option double :=
  if decide (json_val_type val ≠ SPDK_JSON_VAL_NUMBER) then None
  else if negb tmp_ok then None
  else strtod (cstr (json_val_text val)).

(** The elements of a core map from one on. *)
Fixpoint decode_core_map_loop (count : nat) (element : option json_val) : option (list Z) :=
  match count with
  | O => Some []
  | S count =>
      z ← json_decode_int32 element;
      zs ← decode_core_map_loop count (json_next element);
      Some (z :: zs)
  end.

(** [map_ok]: the allocation of the array. *)
Definition json_decode_core_map (map_ok : bool) (val : json_val) : option (list Z) :=
  let count := i32 (i32 (json_val_len val) - 2) in
  if decide (count ≤ 0 ∨ 64 < count) then None
  else if negb map_ok then None
  else decode_core_map_loop (Z.to_nat count) (json_array_first val).

(** A member stored by [set] once [dec] decoded it. *)
Definition member {T A} (name : string) (dec : json_val → option A) (set : A → T → T)
    (optional : bool) : decoder json_val T :=
  Decoder (cs name) (λ v t, (λ a, set a t) <$> dec v) optional.

Definition json_bdev_decoders : list (decoder json_val bdev_config) :=
  [ member "name" decode_string_buf256
      (λ x b, BdevConfig x (bdev_size b) (bdev_block_size b) (bdev_num_blocks b)) false;
    member "size" (λ v, json_decode_uint64 (Some v))
      (λ x b, BdevConfig (bdev_name b) x (bdev_block_size b) (bdev_num_blocks b)) true;
    member "block_size" (λ v, json_decode_uint32 (Some v))
      (λ x b, BdevConfig (bdev_name b) (bdev_size b) x (bdev_num_blocks b)) true;
    member "num_blocks" (λ v, json_decode_uint64 (Some v))
      (λ x b, BdevConfig (bdev_name b) (bdev_size b) (bdev_block_size b) x) true ].

Definition json_segment_decoders : list (decoder json_val segment_config) :=
  [ member "max_segments" (λ v, json_decode_int32 (Some v))
      (λ x s, SegmentConfig x (segment_size s) (data_segments s) (journal_segments s) (metadata_segments s)) true;
    member "segment_size" (λ v, json_decode_uint64 (Some v))
      (λ x s, SegmentConfig (max_segments s) x (data_segments s) (journal_segments s) (metadata_segments s)) false;
    member "data_segments" (λ v, json_decode_int32 (Some v))
      (λ x s, SegmentConfig (max_segments s) (segment_size s) x (journal_segments s) (metadata_segments s)) true;
    member "journal_segments" (λ v, json_decode_int32 (Some v))
      (λ x s, SegmentConfig (max_segments s) (segment_size s) (data_segments s) x (metadata_segments s)) true;
    member "metadata_segments" (λ v, json_decode_int32 (Some v))
      (λ x s, SegmentConfig (max_segments s) (segment_size s) (data_segments s) (journal_segments s) x) true ].

Definition json_wal_decoders : list (decoder json_val Z) :=
  [ member "ring_buffer_size" (λ v, json_decode_uint64 (Some v)) (λ x _, x) false ].

Definition json_gc_decoders (tmp_ok : bool) : list (decoder json_val json_gc) :=
  [ member "enabled" decode_json_bool
      (λ x g, JsonGc x (jg_threshold g) (jg_interval g) (jg_segment_scan_batch g) (jg_reschedule_delay_us g)) true;
    member "threshold" (decode_json_number_as_double tmp_ok)
      (λ x g, JsonGc (jg_is_enabled g) x (jg_interval g) (jg_segment_scan_batch g) (jg_reschedule_delay_us g)) false;
    member "interval" (λ v, json_decode_int32 (Some v))
      (λ x g, JsonGc (jg_is_enabled g) (jg_threshold g) x (jg_segment_scan_batch g) (jg_reschedule_delay_us g)) false;
    member "segment_scan_batch" (λ v, json_decode_int32 (Some v))
      (λ x g, JsonGc (jg_is_enabled g) (jg_threshold g) (jg_interval g) x (jg_reschedule_delay_us g)) true;
    member "reschedule_delay_us" (λ v, json_decode_uint64 (Some v))
      (λ x g, JsonGc (jg_is_enabled g) (jg_threshold g) (jg_interval g) (jg_segment_scan_batch g) x) true ].

Definition json_checkpoint_decoders : list (decoder json_val checkpoint_config) :=
  [ member "enabled" decode_json_bool (λ x c, CheckpointConfig x (ck_interval c)) true;
    member "interval" (λ v, json_decode_int32 (Some v)) (λ x c, CheckpointConfig (ck_is_enabled c) x) false ].

Definition json_shard_decoders (map_ok : bool) : list (decoder json_val json_shard) :=
  [ member "num_shards" (λ v, json_decode_int32 (Some v)) (λ x s, JsonShard x (jsh_bg_core s) (jsh_core_map s)) true;
    member "bg_core" (λ v, json_decode_int32 (Some v)) (λ x s, JsonShard (jsh_num_shards s) x (jsh_core_map s)) true;
    member "core_map" (json_decode_core_map map_ok)
      (λ x s, JsonShard (jsh_num_shards s) (jsh_bg_core s) (Some x)) true ].

Definition json_rpc_decoders : list (decoder json_val rpc_config) :=
  [ member "port" (λ v, json_decode_int32 (Some v)) (λ x r, RpcConfig x (rpc_core_index r)) true;
    member "core_index" (λ v, json_decode_int32 (Some v)) (λ x r, RpcConfig (rpc_port r) x) true ].

Definition json_log_decoders : list (decoder json_val log_config) :=
  [ member "mode" decode_string_buf16 (λ x l, LogConfig x (log_file_path l) (log_default_level l)) false;
    member "file_path" decode_string_cfg_path (λ x l, LogConfig (log_mode l) x (log_default_level l)) false;
    member "default_level" (λ v, json_decode_int32 (Some v)) (λ x l, LogConfig (log_mode l) (log_file_path l) x) false ].

Definition json_debug_decoders : list (decoder json_val bool) :=
  [ member "manifest_small_checkpoint" decode_json_bool (λ x _, x) false ].

(** ** Reading the file *)

(** A file as [stdio] shows it: [f_open_errno] is 0 when it opens. *)
Record file := File {
  f_open_errno : Z;
  f_seek_end : Z;
  f_tell : Z;
  f_seek_set : Z;
  f_read_ok : bool;
  f_contents : bytes
}.

(** Which of the allocations of [load_config] succeed. *)
Record allocations := Allocations {
  buffer_ok : bool;
  values_ok : bool;
  number_ok : bool;
  core_map_ok : bool;
  default_map_ok : bool
}.

Definition read_file_to_buffer (buf_ok : bool) (f : file) : Z * bytes :=
  if decide (f_open_errno f ≠ 0) then (- f_open_errno f, [])
  else if decide (f_seek_end f ≠ 0) then (- EIO, [])
  else let sz := f_tell f in
  if decide (sz < 0 ∨ 4 * 1024 * 1024 < sz) then (- EINVAL, [])
  else if decide (f_seek_set f ≠ 0) then (- EIO, [])
  else if negb buf_ok then (- ENOMEM, [])
  else if decide (0 < sz ∧ f_read_ok f = false) then (- EIO, [])
  else (0, take (Z.to_nat sz) (f_contents f)).

(** ** Loading *)

(** A failed block jumps to the end: [if (...) { ret = ...; goto out; }]. *)
Definition and_then (r : Z * config) (k : config → Z * config) : Z * config :=
  if decide (r.1 = 0) then k r.2 else r.

Definition snprintf_mode (s : bytes) (l : log_config) : Z * log_config :=
  let '(n, out) := snprintf_s 16 s in
  (if decide (16 ≤ n)%nat then - EINVAL else 0, LogConfig out (log_file_path l) (log_default_level l)).
Definition snprintf_file_path (s : bytes) (l : log_config) : Z * log_config :=
  let '(n, out) := snprintf_s CONFIG_PATH_MAX s in
  (if decide (CONFIG_PATH_MAX ≤ n)%nat then - EINVAL else 0, LogConfig (log_mode l) out (log_default_level l)).

Definition config_defaults : config :=
  Config [] (BdevConfig [] 0 0 0) (SegmentConfig 0 0 0 0 0) 0 (GcConfig true double_zero 0 0 0)
    (CheckpointConfig true 0) (LogConfig (cs "console") (cs "storage_engine.log") 1)
    (ShardConfig 4 0 None 0) (RpcConfig 0 0) false.

Definition find_object (root : json_val) (name : string) : option json_val :=
  json_find root (cs name) SPDK_JSON_VAL_OBJECT_BEGIN.

Definition load_spdk_path (spdk_root : json_val) (c : config) : Z * config :=
  match json_find spdk_root (cs "json_config_file") SPDK_JSON_VAL_STRING with
  | Some json_path =>
      match decode_string_cfg_path json_path with
      | None => (- EINVAL, c)
      | Some p => (0, set_spdk_json p c)
      end
  | None =>
      let '(n, out) := snprintf_s CONFIG_PATH_MAX (cs "nvme.json") in
      (if decide (CONFIG_PATH_MAX ≤ n)%nat then - EINVAL else 0, set_spdk_json out c)
  end.

Definition load_bdev (spdk_root : json_val) (c : config) : Z * config :=
  match find_object spdk_root "bdev" with
  | None => (- EINVAL, c)
  | Some bdev_obj =>
      match json_decode_object bdev_obj json_bdev_decoders (BdevConfig [] 0 0 0) with
      | None => (- EINVAL, c)
      | Some jb => (0, set_bdev_config jb c)
      end
  end.

Definition load_spdk (root : json_val) (c : config) : Z * config :=
  match find_object root "spdk" with
  | None => (- EINVAL, c)
  | Some spdk_root => and_then (load_spdk_path spdk_root c) (load_bdev spdk_root)
  end.

Definition load_segment (root : json_val) (c : config) : Z * config :=
  match find_object root "segment" with
  | None => (- EINVAL, c)
  | Some v =>
      match json_decode_object v json_segment_decoders (SegmentConfig 0 0 0 0 0) with
      | None => (- EINVAL, c)
      | Some js =>
          if decide (segment_size js = 0) then (- EINVAL, c)
          else let s := c_segment c in
               (0, set_segment_config
                     (SegmentConfig (if decide (0 < max_segments js) then max_segments js else max_segments s)
                        (segment_size js) (data_segments s) (journal_segments s) (metadata_segments s)) c)
      end
  end.

Definition load_wal (root : json_val) (c : config) : Z * config :=
  match find_object root "wal" with
  | None => (- EINVAL, c)
  | Some v =>
      match json_decode_object v json_wal_decoders 0 with
      | None => (- EINVAL, c)
      | Some jw => (0, set_wal jw c)
      end
  end.

Definition load_gc (tmp_ok : bool) (root : json_val) (c : config) : Z * config :=
  match find_object root "gc" with
  | None => (- EINVAL, c)
  | Some v =>
      match json_decode_object v (json_gc_decoders tmp_ok) (JsonGc true double_zero 0 0 0) with
      | None => (- EINVAL, c)
      | Some jg =>
          let batch := jg_segment_scan_batch jg in
          let batch := if decide (batch ≤ 0) then 64 else batch in
          let batch := if decide (65536 < batch) then 65536 else batch in
          let delay := jg_reschedule_delay_us jg in
          let delay := if decide (delay = 0) then 100000 else delay in
          (0, set_gc (GcConfig (jg_is_enabled jg) (jg_threshold jg) (jg_interval jg) batch delay) c)
      end
  end.

Definition load_checkpoint (root : json_val) (c : config) : Z * config :=
  match find_object root "checkpoint" with
  | None => (- EINVAL, c)
  | Some v =>
      match json_decode_object v json_checkpoint_decoders (CheckpointConfig true 0) with
      | None => (- EINVAL, c)
      | Some jc => (0, set_checkpoint jc c)
      end
  end.

Definition load_shard (map_ok : bool) (root : json_val) (c : config) : Z * config :=
  match find_object root "shard" with
  | None => (0, c)
  | Some v =>
      match json_decode_object v (json_shard_decoders map_ok) (JsonShard 0 0 None) with
      | None => (- EINVAL, c)
      | Some jsh =>
          let s := c_shard c in
          (0, set_shard
                (ShardConfig
                   (if decide (jsh_num_shards jsh ≠ 0) then jsh_num_shards jsh else num_shards s)
                   (if decide (jsh_bg_core jsh ≠ 0) then jsh_bg_core jsh else bg_core s)
                   (match jsh_core_map jsh with Some m => Some m | None => core_map s end)
                   (match jsh_core_map jsh with Some m => Z.of_nat (length m) | None => core_map_len s end)) c)
      end
  end.

(** Range check, defaults of the core map and of the background core, length check. *)
Definition shard_defaults (map_ok : bool) (c : config) : Z * config :=
  let s := c_shard c in
  if decide (num_shards s < 1 ∨ 64 < num_shards s) then (- EINVAL, c)
  else
    let s' := match core_map s with
              | Some _ => Some s
              | None =>
                  if map_ok
                  then Some (ShardConfig (num_shards s) (bg_core s)
                               (Some (Z.of_nat <$> seq 0 (Z.to_nat (num_shards s)))) (num_shards s))
                  else None
              end in
    match s' with
    | None => (- ENOMEM, set_shard (ShardConfig (num_shards s) (bg_core s) None (num_shards s)) c)
    | Some s =>
        let s := ShardConfig (num_shards s) (if decide (bg_core s = 0) then num_shards s else bg_core s)
                   (core_map s) (core_map_len s) in
        (if decide (core_map_len s ≠ num_shards s) then - EINVAL else 0, set_shard s c)
    end.

Definition load_rpc (root : json_val) (c : config) : Z * config :=
  match find_object root "rpc" with
  | None => (0, c)
  | Some v =>
      match json_decode_object v json_rpc_decoders (RpcConfig 0 0) with
      | None => (- EINVAL, c)
      | Some jr => (0, set_rpc jr c)
      end
  end.

Definition load_log (root : json_val) (c : config) : Z * config :=
  match find_object root "log" with
  | None => (0, c)
  | Some v =>
      match json_decode_object v json_log_decoders (LogConfig [] [] (-1)) with
      | None => (- EINVAL, c)
      | Some jl =>
          let '(rc, l) := if decide (log_mode jl ≠ []) then snprintf_mode (log_mode jl) (c_log c) else (0, c_log c) in
          if decide (rc ≠ 0) then (rc, set_log l c) else
          let '(rc, l) := if decide (log_file_path jl ≠ []) then snprintf_file_path (log_file_path jl) l else (0, l) in
          if decide (rc ≠ 0) then (rc, set_log l c) else
          let l := if decide (log_default_level jl ≠ -1)
                   then LogConfig (log_mode l) (log_file_path l) (log_default_level jl) else l in
          (0, set_log l c)
      end
  end.

Definition load_debug (root : json_val) (c : config) : Z * config :=
  match find_object root "debug" with
  | None => (0, c)
  | Some v =>
      match json_decode_object v json_debug_decoders false with
      | None => (- EINVAL, c)
      | Some jd => (0, set_debug jd c)
      end
  end.

Definition check_log (c : config) : Z * config :=
  let l := c_log c in
  if decide (strcmp (log_mode l) (cs "console") ≠ Eq ∧ strcmp (log_mode l) (cs "file") ≠ Eq ∧
             strcmp (log_mode l) (cs "both") ≠ Eq) then (- EINVAL, c)
  else if decide (log_default_level l < 0 ∨ 4 < log_default_level l) then (- EINVAL, c)
  else (0, c).

Definition resolve_path (path : bytes) (c : config) : Z * config :=
  let '(rc, p) := resolve_spdk_json_path path (spdk_json_config_file c) CONFIG_PATH_MAX in
  (if decide (rc ≠ 0) then - EINVAL else 0, set_spdk_json p c).

(** The sections in the order of the source. *)
Definition load_sections (allocs : allocations) (path : bytes) (root : json_val) (c : config) : Z * config :=
  and_then (load_spdk root c) $ λ c,
  and_then (load_segment root c) $ λ c,
  and_then (load_wal root c) $ λ c,
  and_then (load_gc (number_ok allocs) root c) $ λ c,
  and_then (load_checkpoint root c) $ λ c,
  and_then (load_shard (core_map_ok allocs) root c) $ λ c,
  and_then (shard_defaults (default_map_ok allocs) c) $ λ c,
  and_then (load_rpc root c) $ λ c,
  and_then (load_log root c) $ λ c,
  and_then (load_debug root c) $ λ c,
  and_then (check_log c) $ λ c,
  resolve_path path c.

(** [NULL] and the empty name mean the default path. *)
Definition config_path (config_file : option bytes) : bytes :=
  match config_file with Some (c :: p) => c :: p | _ => cs "./conf/config.json" end.

(** The root value of a text, or the error. *)
Definition parse_root (values_ok : bool) (buf : bytes) : Z + json_val :=
  let '(rc, _) := json_parse buf 0 in
  if decide (rc < 0) then inl (- EINVAL)
  else if negb values_ok then inl (- ENOMEM)
  else let '(rc, values) := json_parse buf rc in
  if decide (rc < 0) then inl (- EINVAL)
  else match values with
       | root :: _ =>
           if decide (rc < 1 ∨ json_val_type root ≠ SPDK_JSON_VAL_OBJECT_BEGIN) then inl (- EINVAL)
           else inr root
       | [] => inl (- EINVAL)
       end.

(** [files] is the file system. *)
Definition load_config (files : bytes → file) (allocs : allocations) (config_file : option bytes)
    : Z * config :=
  let path := config_path config_file in
  let c := config_defaults in
  let '(ret, buf) := read_file_to_buffer (buffer_ok allocs) (files path) in
  if decide (ret ≠ 0) then (ret, c)
  else match parse_root (values_ok allocs) buf with
       | inl ret => (ret, c)
       | inr root => load_sections allocs path root c
       end.
End config.

(** ** Lemmas *)

Lemma and_then_ok {J : JsonLib} (r : Z * config) k c' :
  and_then r k = (0, c') → ∃ c, r = (0, c) ∧ k c = (0, c').
Proof.
  destruct r as [rc c]. unfold and_then. simpl. case_decide; [subst; eauto|]. intros [= -> _]. done.
Qed.

(** Read a part of an updated configuration. *)
Ltac config_simpl :=
  cbn [spdk_json_config_file c_bdev c_segment wal_ring_buffer_size debug_manifest_small_checkpoint c_gc c_checkpoint c_log c_shard c_rpc set_spdk_json
       set_bdev_config set_segment_config set_wal set_gc set_checkpoint set_shard set_rpc set_log set_debug].

(** Look a part up through a chain of updates, one update at a time. *)
Ltac config_look :=
  repeat match goal with
  | E : ?c = _ _ ?c' |- context [?f ?c] => rewrite E; config_simpl
  | E : ?c = ?c' |- context [?f ?c] => is_var c'; rewrite E
  end.

(** Strip the blocks of a load that succeeded. *)
Ltac split_load H :=
  repeat lazymatch type of H with
  | and_then _ _ = (0, _) =>
      let c := fresh "c" in let Hc := fresh "Hload" in
      apply and_then_ok in H as (c & Hc & H)
  end.

(** A decoded object satisfies what every member's setter preserves. *)
Lemma decode_members {J : JsonLib} `{!JsonLaws J} {T} (P : T → Prop) obj ds t t' :
  json_decode_object obj ds t = Some t' → P t →
  Forall (λ d, ∀ v t1 t2, P t1 → d_decode d v t1 = Some t2 → P t2) ds → P t'.
Proof.
  intros H HP Hds. eapply json_decode_object_inv; [exact HP| |exact H].
  intros d v t1 t2 Hd. rewrite Forall_forall in Hds. by apply Hds.
Qed.

Section laws.
Context {J : JsonLib} `{!JsonLaws J}.
Implicit Types (c : config).

(** The core map decoder yields one 32-bit core per element. *)
Lemma decode_core_map_loop_spec n e m :
  decode_core_map_loop n e = Some m → length m = n ∧ Forall (λ z, - 2 ^ 31 ≤ z < 2 ^ 31) m.
Proof using Type*.
  revert e m. induction n as [|n IH]; intros e m; simpl; [by intros [= <-]|].
  intros (z & Hz & H)%bind_Some. apply bind_Some in H as (zs & Hzs & [= <-]).
  apply IH in Hzs as [<- ?]. apply json_decode_int32_range in Hz. by split; [|constructor].
Qed.

Lemma json_decode_core_map_spec ok v m :
  json_decode_core_map ok v = Some m →
  1 ≤ Z.of_nat (length m) ≤ 64 ∧ Forall (λ z, - 2 ^ 31 ≤ z < 2 ^ 31) m.
Proof using Type*.
  unfold json_decode_core_map. set (count := i32 _). case_decide; [done|].
  destruct ok; simpl; [|done]. intros [Hlen ?]%decode_core_map_loop_spec. split; [lia|done].
Qed.

(** What the validated parts of a configuration satisfy. *)
Definition segment_ok (s : segment_config) : Prop :=
  0 < segment_size s < 2 ^ 64 ∧ 0 ≤ max_segments s < 2 ^ 31.
Definition gc_ok (g : gc_config) : Prop :=
  1 ≤ gc_segment_scan_batch g ≤ 65536 ∧ gc_reschedule_delay_us g ≠ 0.
Definition core_map_ok' (s : shard_config) : Prop :=
  match core_map s with
  | Some m => core_map_len s = Z.of_nat (length m) ∧ Forall (λ z, - 2 ^ 31 ≤ z < 2 ^ 31) m
  | None => True
  end.
Definition shard_ok (s : shard_config) : Prop :=
  1 ≤ num_shards s ≤ 64 ∧ bg_core s ≠ 0 ∧ core_map_len s = num_shards s ∧
  ∃ m, core_map s = Some m ∧ Z.of_nat (length m) = num_shards s ∧ Forall (λ z, - 2 ^ 31 ≤ z < 2 ^ 31) m.
Definition log_ok (l : log_config) : Prop :=
  log_mode l ∈ [cs "console"; cs "file"; cs "both"] ∧ 0 ≤ log_default_level l ≤ 4.

Lemma load_segment_ok root c c' :
  max_segments (c_segment c) = 0 →
  load_segment root c = (0, c') → ∃ s, c' = set_segment_config s c ∧ segment_ok s.
Proof using Type*.
  unfold load_segment. intros Hmax.
  destruct (find_object root "segment"); [|done].
  destruct (json_decode_object _ _ _) as [js|] eqn:E; [|done].
  assert (0 ≤ segment_size js < 2 ^ 64 ∧ max_segments js < 2 ^ 31) as [Hs Hm].
  { apply (decode_members (λ s, 0 ≤ segment_size s < 2 ^ 64 ∧ max_segments s < 2 ^ 31)) in E; [done|simpl; lia|].
    unfold json_segment_decoders. rewrite !Forall_cons, Forall_nil. split_and!; try done; intros v s1 s2 Hs; simpl; intros (z & Hz & ->)%fmap_Some; simpl;
      first [apply json_decode_int32_range in Hz | apply json_decode_uint64_range in Hz]; unfold fits in *; lia. }
  case_decide; [done|]. intros [= <-]. eexists. split; [done|].
  unfold segment_ok. simpl. case_decide; lia.
Qed.

Lemma load_gc_ok ok root c c' :
  load_gc ok root c = (0, c') → ∃ g, c' = set_gc g c ∧ gc_ok g.
Proof using Type*.
  unfold load_gc. destruct (find_object root "gc"); [|done].
  destruct (json_decode_object _ _ _) as [jg|]; [|done].
  intros [= <-]. eexists. split; [done|]. unfold gc_ok. simpl. repeat case_decide; lia.
Qed.

Lemma load_shard_ok ok root c c' :
  core_map_ok' (c_shard c) →
  load_shard ok root c = (0, c') → ∃ s, c' = set_shard s c ∧ core_map_ok' s.
Proof using Type*.
  unfold load_shard. intros Hc. destruct (find_object root "shard");
    [|intros [= <-]; exists (c_shard c); by destruct c].
  destruct (json_decode_object _ _ _) as [js|] eqn:E; [|done].
  assert (match jsh_core_map js with Some m => Forall (λ z, - 2 ^ 31 ≤ z < 2 ^ 31) m | None => True end) as Hm.
  { apply (decode_members (λ s, match jsh_core_map s with
      Some m => Forall (λ z, - 2 ^ 31 ≤ z < 2 ^ 31) m | None => True end)) in E; [done|done|].
    unfold json_shard_decoders. rewrite !Forall_cons, Forall_nil. split_and!; try done; intros v s1 s2 Hs; simpl; intros (z & Hz & ->)%fmap_Some; simpl; try done.
    by eapply json_decode_core_map_spec. }
  intros [= <-]. eexists. split; [done|]. unfold core_map_ok' in *. simpl.
  destruct (jsh_core_map js); done.
Qed.

Lemma shard_defaults_ok ok c c' :
  core_map_ok' (c_shard c) →
  shard_defaults ok c = (0, c') → ∃ s, c' = set_shard s c ∧ shard_ok s.
Proof using Type*.
  unfold shard_defaults, core_map_ok'. intros Hc. case_decide as Hn; [done|].
  assert (∀ s, core_map_ok' s → num_shards s = num_shards (c_shard c) → is_Some (core_map s) →
    (if decide (core_map_len s ≠ num_shards s) then - EINVAL else 0,
     set_shard (ShardConfig (num_shards s) (if decide (bg_core s = 0) then num_shards s else bg_core s)
       (core_map s) (core_map_len s)) c) = (0, c') →
    ∃ s', c' = set_shard s' c ∧ shard_ok s') as Hend.
  { intros s Hs Hns [m Hm]. case_decide; [done|]. intros [= <-]. eexists. split; [done|].
    unfold shard_ok, core_map_ok' in *. rewrite Hm in *. simpl. destruct Hs as [? ?].
    split_and!; [lia|lia|case_decide; lia|lia|]. exists m. split_and!; [done|lia|done]. }
  destruct (core_map (c_shard c)) as [m|] eqn:Hm.
  - simpl. apply (Hend (c_shard c)); [unfold core_map_ok'; by rewrite Hm|done|by rewrite Hm].
  - destruct ok; [|done]. simpl.
    set (n := num_shards (c_shard c)) in *. clearbody n.
    apply (Hend (ShardConfig n (bg_core (c_shard c)) (Some (Z.of_nat <$> seq 0 (Z.to_nat n))) n)); [|done|done].
    unfold core_map_ok'. simpl. rewrite length_fmap, length_seq. split; [lia|].
    apply Forall_fmap, Forall_seq. simpl. lia.
Qed.

Lemma check_log_ok c c' : check_log c = (0, c') → c' = c ∧ log_ok (c_log c).
Proof using Type*.
  unfold check_log, log_ok. case_decide as H; [done|]. case_decide; [done|]. intros [= <-].
  rewrite !strcmp_eq in H. rewrite !elem_of_cons. split; [done|]. split; [|lia].
  destruct (decide (log_mode (c_log c) = cs "console")); [tauto|].
  destruct (decide (log_mode (c_log c) = cs "file")); [tauto|].
  destruct (decide (log_mode (c_log c) = cs "both")); tauto.
Qed.

(** The blocks that validate nothing change their own part only. *)
Lemma load_wal_ok root c c' : load_wal root c = (0, c') → ∃ x, c' = set_wal x c.
Proof using Type*.
  unfold load_wal. destruct (find_object root "wal"); [|done].
  destruct (json_decode_object _ _ _); [|done]. intros [= <-]. eauto.
Qed.
Lemma load_checkpoint_ok root c c' : load_checkpoint root c = (0, c') → ∃ x, c' = set_checkpoint x c.
Proof using Type*.
  unfold load_checkpoint. destruct (find_object root "checkpoint"); [|done].
  destruct (json_decode_object _ _ _); [|done]. intros [= <-]. eauto.
Qed.
Lemma load_rpc_ok root c c' : load_rpc root c = (0, c') → ∃ x, c' = set_rpc x c.
Proof using Type*.
  unfold load_rpc. destruct (find_object root "rpc"); [|intros [= <-]; exists (c_rpc c); by destruct c].
  destruct (json_decode_object _ _ _); [|done]. intros [= <-]. eauto.
Qed.
Lemma load_debug_ok root c c' : load_debug root c = (0, c') → ∃ x, c' = set_debug x c.
Proof using Type*.
  unfold load_debug. destruct (find_object root "debug");
    [|intros [= <-]; exists (debug_manifest_small_checkpoint c); by destruct c].
  destruct (json_decode_object _ _ _); [|done]. intros [= <-]. eauto.
Qed.
Lemma load_log_ok root c c' : load_log root c = (0, c') → ∃ x, c' = set_log x c.
Proof using Type*.
  unfold load_log. destruct (find_object root "log"); [|intros [= <-]; exists (c_log c); by destruct c].
  destruct (json_decode_object _ _ _) as [jl|]; [|done].
  destruct (if decide (log_mode jl ≠ []) then _ else _) as [rc l]. case_decide; [by intros [= -> _]|].
  destruct (if decide (log_file_path jl ≠ []) then _ else _) as [rc2 l2]. case_decide; [by intros [= -> _]|].
  intros [= <-]. eauto.
Qed.

Lemma load_spdk_ok root c c' :
  load_spdk root c = (0, c') →
  ∃ p b, c' = set_bdev_config b (set_spdk_json p c) ∧ (length p < CONFIG_PATH_MAX)%nat.
Proof using Type*.
  unfold load_spdk. destruct (find_object root "spdk") as [v|]; [|done].
  intros (c1 & H1 & H2)%and_then_ok. unfold load_bdev in H2.
  destruct (find_object v "bdev"); [|done].
  destruct (json_decode_object _ _ _) as [jb|]; [|done]. injection H2 as <-.
  unfold load_spdk_path in H1. destruct (json_find _ _ _) as [jp|].
  - unfold decode_string_cfg_path, decode_string in H1.
    repeat case_decide; try done. injection H1 as <-. exists (cstr (json_val_text jp)), jb.
    split; [done|]. pose proof (cstr_length (json_val_text jp)). lia.
  - injection H1 as <-. exists (cs "nvme.json"), jb. split; [done|]. vm_compute. lia.
Qed.

(** A relative path is taken from the directory of the configuration file. *)
Definition path_resolves (config_file p q : bytes) : Prop :=
  p ≠ [] ∧
  (head p = Some SLASH ∧ q = p ∨
   head p ≠ Some SLASH ∧ SLASH ∉ config_file ∧ q = p ∨
   head p ≠ Some SLASH ∧ ∃ dir base, config_file = dir ++ base ∧ last dir = Some SLASH ∧
     SLASH ∉ base ∧ q = dir ++ p).

Lemma resolve_spdk_json_path_ok config_file p cap q :
  (length p < cap)%nat →
  resolve_spdk_json_path config_file p cap = (0, q) →
  path_resolves config_file p q ∧ (length q < cap)%nat.
Proof using.
  unfold resolve_spdk_json_path, path_resolves. intros Hlen.
  destruct p as [|b p]; [done|]. case_decide as Hb; [intros [= <-]; naive_solver|].
  destruct (strrchr config_file SLASH) as [i|] eqn:Hs.
  - apply strrchr_Some in Hs as [Hi Hnin]. pose proof (lookup_lt_Some _ _ _ Hi).
    do 2 (case_decide; [done|]). intros [= <-].
    split; [|rewrite length_app, length_take; simpl in *; lia].
    split; [done|]. right; right. split; [simpl; congruence|].
    exists (take (i + 1) config_file), (drop (i + 1) config_file).
    rewrite take_drop. split_and!; [done| |done..].
    rewrite last_lookup, length_take, lookup_take_lt by lia.
    by replace (pred ((i + 1) `min` length config_file)) with i by lia.
  - apply strrchr_None in Hs. intros [= <-]. split; [|done]. split; [done|]. right; left.
    split_and!; [simpl; congruence|done..].
Qed.

(** What a loaded configuration guarantees the engine. *)
Definition config_ok (path : bytes) (c : config) : Prop :=
  segment_ok (c_segment c) ∧ gc_ok (c_gc c) ∧ shard_ok (c_shard c) ∧ log_ok (c_log c) ∧
  (length (spdk_json_config_file c) < CONFIG_PATH_MAX)%nat ∧
  ∃ p, path_resolves path p (spdk_json_config_file c).

Lemma load_sections_ok allocs path root c :
  load_sections allocs path root config_defaults = (0, c) → config_ok path c.
Proof using Type*.
  unfold load_sections. generalize (eq_refl config_defaults).
  generalize config_defaults at 1 3. intros c0 E0 H. split_load H.
  apply load_spdk_ok in Hload as (p & b & E1 & Hp).
  apply load_segment_ok in Hload0 as (s & E2 & Hs); [|by config_look; rewrite E0].
  apply load_wal_ok in Hload1 as (w & E3).
  apply load_gc_ok in Hload2 as (g & E4 & Hg).
  apply load_checkpoint_ok in Hload3 as (k & E5).
  apply load_shard_ok in Hload4 as (sh & E6 & Hsh); [|by config_look; rewrite E0].
  apply shard_defaults_ok in Hload5 as (sh' & E7 & Hsh'); [|by config_look].
  apply load_rpc_ok in Hload6 as (r & E8). apply load_log_ok in Hload7 as (l & E9).
  apply load_debug_ok in Hload8 as (d & E10). apply check_log_ok in Hload9 as [E11 Hlog].
  unfold resolve_path in H. destruct (resolve_spdk_json_path _ _ _) as [rc q] eqn:Hq.
  case_decide as Hrc; [done|]. injection H as E12. subst rc.
  apply resolve_spdk_json_path_ok in Hq as [Hq ?]; [|by config_look].
  unfold config_ok. rewrite <-E12. config_simpl. rewrite E11 in *.
  revert Hlog. config_look. eauto 10.
Qed.
End laws.

(** Only the sections produce a result of 0. *)
Lemma load_config_ok `{!JsonLaws J} files allocs config_file c :
  load_config files allocs config_file = (0, c) → config_ok (config_path config_file) c.
Proof.
  unfold load_config. destruct (read_file_to_buffer _ _) as [ret buf].
  case_decide as Hret; [by intros [= -> _]|].
  destruct (parse_root _ _) as [rc|root] eqn:Hroot.
  - intros [= -> _]. exfalso. revert Hroot. unfold parse_root.
    destruct (json_parse buf 0) as [rc1 ?]. case_decide; [done|].
    destruct (values_ok allocs); simpl; [|done].
    destruct (json_parse buf rc1) as [rc2 [|v vs]]; repeat case_decide; done.
  - apply load_sections_ok.
Qed.

(** C29. A configuration that loads is fit for the engine, whatever the file holds: the segment
    size is a non-zero 64-bit number, the GC batch lies in 1..65536, there are 1..64 shards
    with one core each and a background core, the log mode is one of the three and its level
    in 0..4, and the SPDK file is the configured path taken from the directory of the
    configuration file, inside its 512-byte buffer. *)
Theorem load_config_valid `{!JsonLaws J} files allocs config_file c :
  load_config files allocs config_file = (0, c) → config_ok (config_path config_file) c.
Proof. apply load_config_ok. Qed.

(** ** A JSON library over trees, and the configuration the repository ships *)

Inductive json :=
  | JBool (b : bool)
  | JNumber (text : bytes) (value : option Z)
  | JString (text : bytes)
  | JArray (elements : list json)
  | JObject (members : list (bytes * json)).

Definition jnum (z : Z) : json := JNumber (fmt_d z) (Some z).

(** A value together with the values after it. *)
Definition tree_type (v : list json) : json_type :=
  match v with
  | JBool true :: _ => SPDK_JSON_VAL_TRUE
  | JBool false :: _ => SPDK_JSON_VAL_FALSE
  | JNumber _ _ :: _ => SPDK_JSON_VAL_NUMBER
  | JString _ :: _ => SPDK_JSON_VAL_STRING
  | JObject _ :: _ => SPDK_JSON_VAL_OBJECT_BEGIN
  | _ => SPDK_JSON_VAL_OTHER
  end.

Definition tree_int (lo hi : Z) (v : option (list json)) : option Z :=
  match v with
  | Some (JNumber _ (Some z) :: _) => if decide (lo ≤ z < hi) then Some z else None
  | _ => None
  end.

Definition tree_decode_object {T} (obj : list json) (ds : list (decoder (list json) T)) (t : T) : option T :=
  match obj with
  | JObject ms :: _ =>
      if decide (Forall (λ d, d_optional d = true ∨ d_name d ∈ ms.*1) ds)
      then foldl (λ t m, t ← t; '(_, d) ← list_find (λ d, d_name d = m.1) ds; d_decode d [m.2] t) (Some t) ms
      else None
  | _ => None
  end.

Definition tree_lib (doc : json) : JsonLib := {|
  json_val := list json;
  json_val_type := tree_type;
  json_val_text v := match v with JNumber s _ :: _ | JString s :: _ => s | _ => [] end;
  json_parse _ _ := (1, [[doc]]);
  json_find v name ty :=
    match v with
    | JObject ms :: _ =>
        m ← snd <$> list_find (λ m, m.1 = name) ms;
        if decide (tree_type [m.2] = ty) then Some [m.2] else None
    | _ => None
    end;
  json_decode_object := @tree_decode_object;
  json_val_len v := match v with JArray l :: _ => Z.of_nat (length l) + 2 | _ => 1 end;
  json_array_first v := match v with JArray (e :: l) :: _ => Some (e :: l) | _ => None end;
  json_next v := match v with Some (_ :: e :: l) => Some (e :: l) | _ => None end;
  json_decode_int32 := tree_int (- 2 ^ 31) (2 ^ 31);
  json_decode_uint32 := tree_int 0 (2 ^ 32);
  json_decode_uint64 := tree_int 0 (2 ^ 64);
  double := bytes;
  double_zero := [];
  strtod s := if decide (s = []) then None else Some s
|}.

Lemma tree_int_range lo hi v z : tree_int lo hi v = Some z → lo ≤ z < hi.
Proof. destruct v as [[|[| ? [?|] | | |] ?]|]; simpl; try done. case_decide; [|done]. by intros [= <-]. Qed.

#[export] Instance tree_laws doc : JsonLaws (tree_lib doc).
Proof.
  split; [|intros v z; apply tree_int_range|intros v z; apply tree_int_range].
  intros T P obj ds t t' HP Hds. cbn in obj, ds, Hds |- *. unfold tree_decode_object.
  destruct obj as [|[| | | |ms] ?]; try done. case_decide as H; [|done]. clear H.
  revert t HP. induction ms as [|m ms IH]; intros t HP; simpl; [by intros [= <-]|].
  destruct (list_find (λ d, d_name d = m.1) ds) as [[i d]|] eqn:Hd; simpl.
  - apply list_find_Some in Hd as (Hd & _ & _). apply list_elem_of_lookup_2 in Hd; cbn in Hd.
    destruct (d_decode d [m.2] t) as [t1|] eqn:Ht1; [by apply IH; eapply Hds|].
    clear. induction ms; simpl; done.
  - clear. induction ms; simpl; done.
Qed.

(** [src/engine/conf/config.json] *)
Definition shipped_config : json :=
  JObject [
    (cs "spdk", JObject [(cs "json_config_file", JString (cs "hdd.json"));
                         (cs "bdev", JObject [(cs "name", JString (cs "MyHDD"))])]);
    (cs "segment", JObject [(cs "max_segments", jnum 10000); (cs "segment_size", jnum 4194304)]);
    (cs "wal", JObject [(cs "ring_buffer_size", jnum 1048576)]);
    (cs "gc", JObject [(cs "enabled", JBool true); (cs "threshold", JNumber (cs "0.8") None);
                       (cs "interval", jnum 300); (cs "segment_scan_batch", jnum 64);
                       (cs "reschedule_delay_us", jnum 100000)]);
    (cs "checkpoint", JObject [(cs "enabled", JBool true); (cs "interval", jnum 60)]);
    (cs "log", JObject [(cs "mode", JString (cs "console"));
                        (cs "file_path", JString (cs "storage_engine.log")); (cs "default_level", jnum 1)]);
    (cs "shard", JObject [(cs "num_shards", jnum 4)]);
    (cs "rpc", JObject [(cs "port", jnum 8080); (cs "core_index", jnum 5)]);
    (cs "debug", JObject [(cs "manifest_small_checkpoint", JBool false)])
  ].

#[export] Instance shipped_lib : JsonLib := tree_lib shipped_config.

Definition shipped_files (_ : bytes) : file := File 0 0 1 0 true (cs "{").
Definition all_allocated : allocations := Allocations true true true true true.

Definition shipped : config :=
  Config (cs "src/engine/conf/hdd.json") (BdevConfig (cs "MyHDD") 0 0 0) (SegmentConfig 10000 4194304 0 0 0)
    1048576 (GcConfig true (cs "0.8") 300 64 100000) (CheckpointConfig true 60)
    (LogConfig (cs "console") (cs "storage_engine.log") 1) (ShardConfig 4 4 (Some [0; 1; 2; 3]) 4)
    (RpcConfig 8080 5) false.

Lemma shipped_loads :
  load_config shipped_files all_allocated (Some (cs "src/engine/conf/config.json")) = (0, shipped).
Proof. reflexivity. Qed.

Lemma load_config_valid_witness :
  config_ok (cs "src/engine/conf/config.json") shipped.
Proof.
  exact (load_config_valid (JsonLaws0 := tree_laws _) shipped_files all_allocated _ shipped shipped_loads).
Defined.
