(* ===== verification/EngineBdev.v ===== *)
(** * The engine's block device ([src/engine/src/config.c], from [bdev_event_callback] on)

    Opening the configured device, sizing the volume from it, and closing it on removal
    or at the end.  SPDK is not in the repository: its handles are numbers, what it
    answers is an argument, and the calls that open and close descriptors and put
    channels are the events an operation returns. *)
From S2P Require Import Prelude EngineConfig.
From stdpp Require Import options.
Local Open Scope Z_scope.

(** [g_bdev], [g_bdev_desc], [g_io_channel] *)
Record bdev_globals := BdevGlobals {
  g_bdev : option nat;
  g_bdev_desc : option nat;
  g_io_channel : option nat
}.

Inductive bdev_action :=
  | BdevOpened (desc : nat)
  | BdevClosed (desc : nat)
  | ChannelPut (ch : nat).

Inductive bdev_event_type := SPDK_BDEV_EVENT_REMOVE | SPDK_BDEV_EVENT_OTHER.

Definition close_desc (d : option nat) : list bdev_action :=
  match d with Some d => [BdevClosed d] | None => [] end.
Definition put_channel (ch : option nat) : list bdev_action :=
  match ch with Some ch => [ChannelPut ch] | None => [] end.

Definition bdev_event_callback (ty : bdev_event_type) (g : bdev_globals) : bdev_globals * list bdev_action :=
  match ty with
  | SPDK_BDEV_EVENT_REMOVE =>
      (BdevGlobals None None None, put_channel (g_io_channel g) ++ close_desc (g_bdev_desc g))
  | SPDK_BDEV_EVENT_OTHER => (g, [])
  end.

(** What SPDK answers about the configured device. *)
Record bdev_answers := BdevAnswers {
  ba_get_by_name : option nat;
  ba_open_rc : Z;
  ba_desc : nat;
  ba_block_size : Z;
  ba_num_blocks : Z
}.

Definition INT_MAX : Z := 2 ^ 31 - 1.

Section init.
Context {J : JsonLib}.

Definition num_segments (cap seg_sz configured : Z) : Z :=
  let n := cap / seg_sz in
  if decide (0 < configured ∧ u64 configured < n) then configured else n.

Definition init_spdk_bdev (a : bdev_answers) (c : config) (g : bdev_globals)
    : Z * config * bdev_globals * list bdev_action :=
  match ba_get_by_name a with
  | None => (-1, c, g, [])
  | Some bdev =>
      if decide (ba_open_rc a ≠ 0) then (ba_open_rc a, c, g, [])
      else
        let desc := ba_desc a in
        let size := u64 (ba_num_blocks a * ba_block_size a) in
        let c := set_bdev_config (BdevConfig (bdev_name (c_bdev c)) size (ba_block_size a) (ba_num_blocks a)) c in
        let failed := (-1, c, BdevGlobals None None (g_io_channel g), [BdevOpened desc; BdevClosed desc]) in
        if decide (segment_size (c_segment c) = 0) then failed
        else
          let n := num_segments size (segment_size (c_segment c)) (max_segments (c_segment c)) in
          if decide (n = 0 ∨ INT_MAX < n) then failed
          else (0, set_segment_config (SegmentConfig n (segment_size (c_segment c)) 0 0 0) c,
                BdevGlobals (Some bdev) (Some desc) (g_io_channel g), [BdevOpened desc])
  end.
End init.

(** [io_thread] is the thread of the channel, [cur] the calling one. *)
Definition fini_spdk_bdev (io_thread cur : option nat) (g : bdev_globals) : bdev_globals * list bdev_action :=
  let wrong_thread := match io_thread, cur with Some t, Some t' => negb (bool_decide (t = t')) | _, _ => false end in
  (BdevGlobals None None None,
   (if wrong_thread then [] else put_channel (g_io_channel g)) ++
   (if cur is Some _ then close_desc (g_bdev_desc g) else [])).

Definition set_bdev (bdev : option nat) (g : bdev_globals) : bdev_globals :=
  BdevGlobals bdev (g_bdev_desc g) (g_io_channel g).
Definition get_bdev (g : bdev_globals) : option nat := g_bdev g.
Definition get_bdev_desc (g : bdev_globals) : option nat := g_bdev_desc g.

(** ** Sequences of operations *)

Inductive bdev_op :=
  | OpInit (a : bdev_answers)
  | OpEvent (ty : bdev_event_type)
  | OpFini (io_thread cur : option nat)
  | OpSet (bdev : option nat).

Section runs.
Context {J : JsonLib}.

Definition bdev_step (op : bdev_op) (s : config * bdev_globals) : config * bdev_globals * list bdev_action :=
  let '(c, g) := s in
  match op with
  | OpInit a => let '(_, c, g, acts) := init_spdk_bdev a c g in (c, g, acts)
  | OpEvent ty => let '(g, acts) := bdev_event_callback ty g in (c, g, acts)
  | OpFini io cur => let '(g, acts) := fini_spdk_bdev io cur g in (c, g, acts)
  | OpSet b => (c, set_bdev b g, [])
  end.

Fixpoint bdev_run (ops : list bdev_op) (s : config * bdev_globals) : config * bdev_globals * list bdev_action :=
  match ops with
  | [] => (s, [])
  | op :: ops =>
      let '(s, acts) := bdev_step op s in
      let '(s, acts') := bdev_run ops s in
      (s, acts ++ acts')
  end.
End runs.

(** The descriptors open after some actions, if each close was of an open one and each
    opened one was new. *)
Fixpoint descs_after (acts : list bdev_action) (opened : gset nat) : option (gset nat) :=
  match acts with
  | [] => Some opened
  | BdevOpened d :: acts => if decide (d ∈ opened) then None else descs_after acts ({[d]} ∪ opened)
  | BdevClosed d :: acts => if decide (d ∈ opened) then descs_after acts (opened ∖ {[d]}) else None
  | ChannelPut _ :: acts => descs_after acts opened
  end.

(** The descriptors the library hands out are not open already. *)
Fixpoint opens_fresh (acts : list bdev_action) (opened : gset nat) : Prop :=
  match acts with
  | [] => True
  | BdevOpened d :: acts => d ∉ opened ∧ opens_fresh acts ({[d]} ∪ opened)
  | BdevClosed d :: acts => opens_fresh acts (opened ∖ {[d]})
  | ChannelPut _ :: acts => opens_fresh acts opened
  end.

Lemma descs_after_app a1 a2 o :
  descs_after (a1 ++ a2) o = descs_after a1 o ≫= descs_after a2.
Proof.
  revert o. induction a1 as [|[d|d|ch] a1 IH]; intros o; simpl; [done|..]; try case_decide; done.
Qed.

Lemma opens_fresh_app a1 a2 o :
  opens_fresh (a1 ++ a2) o → opens_fresh a1 o ∧ ∀ o', descs_after a1 o = Some o' → opens_fresh a2 o'.
Proof.
  revert o. induction a1 as [|[d|d|ch] a1 IH]; intros o; simpl.
  - intros H. by split; [|intros ? [= <-]].
  - intros [Hd [? ?]%IH]. split_and!; [done..|]. by rewrite decide_False by done.
  - intros [? ?]%IH. split; [done|]. by case_decide.
  - apply IH.
Qed.

Section invariant.
Context {J : JsonLib}.

(** The descriptor the program holds is open. *)
Definition desc_held (g : bdev_globals) (opened : gset nat) : Prop :=
  match g_bdev_desc g with Some d => d ∈ opened | None => True end.

Lemma close_held g o : desc_held g o → is_Some (descs_after (close_desc (g_bdev_desc g)) o).
Proof. unfold desc_held. destruct (g_bdev_desc g); simpl; [|done]. intros. by rewrite decide_True. Qed.

Lemma put_then_close ch acts o : descs_after (put_channel ch ++ acts) o = descs_after acts o.
Proof. by destruct ch. Qed.

Lemma bdev_step_held op c g o c' g' acts :
  desc_held g o → bdev_step op (c, g) = (c', g', acts) → opens_fresh acts o →
  ∃ o', descs_after acts o = Some o' ∧ desc_held g' o'.
Proof.
  intros Hg. destruct op as [a|[]|io cur|b]; simpl.
  - unfold init_spdk_bdev. destruct (ba_get_by_name a); [|intros [= <- <- <-]; by exists o].
    case_decide; [intros [= <- <- <-]; by exists o|].
    repeat case_decide; intros [= <- <- <-]; simpl; intros [Hd _]; rewrite (decide_False (P := _ ∈ _)) by done.
    + rewrite decide_True by set_solver. by eexists.
    + rewrite decide_True by set_solver. by eexists.
    + eexists. split; [done|]. unfold desc_held. simpl. set_solver.
  - intros [= <- <- <-] _. rewrite put_then_close. apply close_held in Hg as [o' ->]. by exists o'.
  - intros [= <- <- <-] _. by exists o.
  - unfold fini_spdk_bdev. intros [= <- <- <-] _.
    assert (∀ ch : list bdev_action, (∀ acts, descs_after (ch ++ acts) o = descs_after acts o) →
      ∃ o', descs_after (ch ++ if cur is Some _ then close_desc (g_bdev_desc g) else []) o = Some o' ∧
            desc_held (BdevGlobals None None None) o') as H.
    { intros ch ->. destruct cur; [apply close_held in Hg as [o' ->]; by exists o'|by exists o]. }
    apply H. intros acts. destruct (match io with Some _ => _ | None => _ end); [done|apply put_then_close].
  - intros [= <- <- <-] _. exists o. split; [done|]. by destruct g.
Qed.

Lemma bdev_run_held ops c g o s' acts :
  desc_held g o → bdev_run ops (c, g) = (s', acts) → opens_fresh acts o →
  ∃ o', descs_after acts o = Some o' ∧ desc_held s'.2 o'.
Proof.
  revert c g o s' acts. induction ops as [|op ops IH]; intros c g o s' acts Hg; cbn [bdev_run].
  - intros [= <- <-] _. by exists o.
  - destruct (bdev_step op (c, g)) as [[c1 g1] a1] eqn:E1.
    destruct (bdev_run ops (c1, g1)) as [s2 a2] eqn:E2. intros [= <- <-] Hf. apply opens_fresh_app in Hf as [H1 H2].
    eapply bdev_step_held in E1 as (o1 & Ho1 & Hg1); [|done|done].
    rewrite descs_after_app, Ho1. simpl. eapply IH; [done|done|]. by apply H2.
Qed.
End invariant.

(** Opening the device leaves the rest of the configuration alone. *)
Lemma init_spdk_bdev_frame {J : JsonLib} a (c c' : config) g g' rc acts :
  init_spdk_bdev a c g = (rc, c', g', acts) →
  c_shard c' = c_shard c ∧ c_gc c' = c_gc c ∧ c_log c' = c_log c ∧ c_rpc c' = c_rpc c ∧
  g_io_channel g' = g_io_channel g ∧ (rc = 0 → g_bdev g' = ba_get_by_name a).
Proof.
  unfold init_spdk_bdev. destruct (ba_get_by_name a); [|by intros [= <- <- <- <-]].
  case_decide; [by intros [= <- <- <- <-]|]. repeat case_decide; by intros [= <- <- <- <-].
Qed.

(** The size of an opened device is a 64-bit number. *)
Lemma init_spdk_bdev_size {J : JsonLib} a (c c' : config) g g' acts :
  init_spdk_bdev a c g = (0, c', g', acts) → fits 64 (bdev_size (c_bdev c')) ∧ is_Some (ba_get_by_name a).
Proof.
  unfold init_spdk_bdev. destruct (ba_get_by_name a); [|done]. case_decide; [congruence|].
  repeat case_decide; intros [= <- <- <-]. split; [by apply wrap_fits|done].
Qed.

(** The branches of the opening. *)
Lemma init_spdk_bdev_ok {J : JsonLib} a (c c' : config) g g' rc acts :
  segment_ok (c_segment c) →
  init_spdk_bdev a c g = (rc, c', g', acts) →
  let size := bdev_size (c_bdev c') in
  let n := max_segments (c_segment c') in
  (rc = 0 ∧ 0 < n ≤ INT_MAX ∧ segment_size (c_segment c') = segment_size (c_segment c) ∧
   n * segment_size (c_segment c) ≤ size ∧
   (n = max_segments (c_segment c) ∨ size < (n + 1) * segment_size (c_segment c)) ∧
   (0 < max_segments (c_segment c) → n ≤ max_segments (c_segment c)) ∧
   g_bdev_desc g' = Some (ba_desc a) ∧ acts = [BdevOpened (ba_desc a)]) ∨
  (rc ≠ 0 ∧ c_segment c' = c_segment c ∧
   (acts = [] ∧ g' = g ∨ acts = [BdevOpened (ba_desc a); BdevClosed (ba_desc a)] ∧ g_bdev_desc g' = None)).
Proof.
  intros [Hseg Hmax]. unfold init_spdk_bdev.
  destruct (ba_get_by_name a) as [b|]; [|intros [= <- <- <- <-]; naive_solver].
  case_decide; [intros [= <- <- <- <-]; naive_solver|].
  set (size := u64 _). simpl. case_decide as Hz; [lia|].
  set (n := num_segments _ _ _). case_decide as Hn; [intros [= <- <- <- <-]; naive_solver|].
  intros [= <- <- <- <-]. left. simpl.
  assert (0 ≤ size) by (pose proof (wrap_fits 64 (ba_num_blocks a * ba_block_size a)); unfold fits in *; lia).
  assert (u64 (max_segments (c_segment c)) = max_segments (c_segment c)) as Hu.
  { apply wrap_small. unfold fits. lia. }
  pose proof (Z.mul_div_le size (segment_size (c_segment c)) ltac:(lia)).
  pose proof (Z.mul_succ_div_gt size (segment_size (c_segment c)) ltac:(lia)).
  subst n. unfold num_segments in *. rewrite Hu in *.
  case_decide; split_and!; try done; try lia; nia.
Qed.

(** Opening the device sizes the volume: on success the segment count is positive and fits
    an [int], the segments fit the device, a configured smaller maximum is respected and the
    count is otherwise the largest possible; and after every failure that follows the opening
    of a descriptor, the descriptor was closed and none is held. *)
Theorem init_spdk_bdev_sizing {J : JsonLib} a (c c' : config) g g' rc acts :
  segment_ok (c_segment c) →
  init_spdk_bdev a c g = (rc, c', g', acts) →
  let size := bdev_size (c_bdev c') in
  let n := max_segments (c_segment c') in
  (rc = 0 ∧ 0 < n ≤ INT_MAX ∧ segment_size (c_segment c') = segment_size (c_segment c) ∧
   n * segment_size (c_segment c) ≤ size ∧
   (n = max_segments (c_segment c) ∨ size < (n + 1) * segment_size (c_segment c)) ∧
   (0 < max_segments (c_segment c) → n ≤ max_segments (c_segment c)) ∧
   g_bdev_desc g' = Some (ba_desc a) ∧ acts = [BdevOpened (ba_desc a)]) ∨
  (rc ≠ 0 ∧ c_segment c' = c_segment c ∧
   (acts = [] ∧ g' = g ∨ acts = [BdevOpened (ba_desc a); BdevClosed (ba_desc a)] ∧ g_bdev_desc g' = None)).
Proof. apply init_spdk_bdev_ok. Qed.

(** Through any sequence of openings, device events and shutdowns, every close is of a
    descriptor that is open (none is closed twice), and the descriptor the program holds is
    open, as long as SPDK hands out descriptors that are not open already. *)
Theorem bdev_closed_once {J : JsonLib} ops c s' acts :
  bdev_run ops (c, BdevGlobals None None None) = (s', acts) →
  opens_fresh acts ∅ →
  ∃ opened, descs_after acts ∅ = Some opened ∧ desc_held s'.2 opened.
Proof. apply bdev_run_held. done. Qed.

Definition example_answers (num_blocks : Z) : bdev_answers := BdevAnswers (Some 0%nat) 0 7 512 num_blocks.

Lemma init_spdk_bdev_sizing_witness :
  segment_ok (c_segment shipped) ∧
  ∃ c' g', init_spdk_bdev (example_answers 81920) shipped (BdevGlobals None None None)
             = (0, c', g', [BdevOpened 7%nat]) ∧ 0 < max_segments (c_segment c') ≤ INT_MAX.
Proof.
  assert (segment_ok (c_segment shipped)) as Hok by (split; simpl; lia).
  split; [exact Hok|]. eexists _, _. split; [reflexivity|].
  destruct (init_spdk_bdev_sizing (example_answers 81920) shipped _ (BdevGlobals None None None) _ _ _ Hok
    eq_refl) as [(_ & H & _)|(H & _)]; [exact H|done].
Defined.

Lemma bdev_closed_once_witness :
  ∃ opened, descs_after [BdevOpened 7%nat; BdevClosed 7%nat] ∅ = Some opened ∧ True.
Proof.
  destruct (bdev_closed_once [OpInit (example_answers 81920); OpFini None (Some 1%nat); OpEvent SPDK_BDEV_EVENT_REMOVE]
    shipped _ _ eq_refl) as (opened & H & _); [split; [set_solver|done]|by exists opened].
Defined.
