(* ===== verification/EngineMkfs.v ===== *)
(** * Formatting a volume ([storage_engine_mkfs_volume] of [src/engine/src/storage_engine.c])

    After [allocator_mkfs] the open-segment queues are filled by hand: metadata segments
    for the superblock and for each shard, then data and journal segments up to each
    queue's refill mark; the data and journal segments are zeroed on the device.  The
    segment layer is not in the repository: its constants are the fields of [SegmentEnv],
    and [allocator_mkfs], [allocator_persist_sync] and [superblock_init_mkfs] are
    arguments.  [None] is an access outside an array. *)
From S2P Require Import Prelude.
From stdpp Require Import options.

(** Constants of [segment/segment.h]. *)
Class SegmentEnv := {
  META_SEGMENT_SLOT_B : nat;
  MAX_OPEN_SEGMENTS : nat;
  SEGMENT_TYPE_COUNT : nat;
  SEGMENT_TYPE_DATA : nat;
  SEGMENT_TYPE_JOURNAL : nat;
  SEGMENT_TYPE_METADATA : nat
}.

Inductive segment_status := SEGMENT_STATUS_EMPTY | SEGMENT_STATUS_OPEN | SEGMENT_STATUS_OTHER.
#[export] Instance segment_status_eq_dec : EqDecision segment_status.
Proof. solve_decision. Defined.

Record segment := Segment {
  s_status : segment_status;
  s_type : nat;
  s_first_commit_seq : Z;
  s_last_commit_seq : Z
}.

Record open_segment_queue := Queue {
  q_segments : list nat;
  q_head : nat;
  q_tail : nat;
  q_refill_high : nat
}.

(** [per_shard] holds the queues of a shard by segment type. *)
Record allocator := Allocator {
  a_segments : list segment;
  a_max_segments : nat;
  a_segment_size : Z;
  a_used_segments : Z;
  a_is_persist_dirty : bool;
  a_per_shard : list (list open_segment_queue)
}.

Definition set_segments (ss : list segment) (a : allocator) : allocator :=
  Allocator ss (a_max_segments a) (a_segment_size a) (a_used_segments a) (a_is_persist_dirty a) (a_per_shard a).

Section mkfs.
Context {E : SegmentEnv}.

(** [for (j = next; j < max_segments; j++) if (segments[j].status == EMPTY) break]; the
    fuel is the number of segments from [next] on. *)
Fixpoint find_empty (fuel j : nat) (a : allocator) : option (option nat) :=
  match fuel with
  | 0 => Some None
  | S fuel =>
      seg ← a_segments a !! j;
      if decide (s_status seg = SEGMENT_STATUS_EMPTY) then Some (Some j) else find_empty fuel (S j) a
  end.

Definition push_queue (idx : nat) (q : open_segment_queue) : option open_segment_queue :=
  if decide (q_tail q < length (q_segments q)) then
    Some (Queue (<[q_tail q := idx]> (q_segments q)) (q_head q)
                ((q_tail q + 1) `mod` MAX_OPEN_SEGMENTS) (q_refill_high q))
  else None.

(** Take the first empty segment from [next] on, open it with the type and push it on the
    queue of the shard; the inner [None] is no segment left. *)
Definition open_next (shard ty : nat) (next : nat) (a : allocator) : option (option (nat * allocator)) :=
  idx ← find_empty (a_max_segments a - next) next a;
  match idx with
  | None => Some None
  | Some idx =>
      seg ← a_segments a !! idx;
      queues ← a_per_shard a !! shard;
      q ← queues !! ty;
      q ← push_queue idx q;
      Some (Some (S idx,
        Allocator (<[idx := Segment SEGMENT_STATUS_OPEN ty (s_first_commit_seq seg) (s_last_commit_seq seg)]> (a_segments a))
          (a_max_segments a) (a_segment_size a) (a_used_segments a + 1) true
          (<[shard := <[ty := q]> queues]> (a_per_shard a))))
  end.

(** One metadata segment for each of the shards listed; [inl] when none is left. *)
Fixpoint fill_metadata (shards : list nat) (next : nat) (a : allocator) : option (allocator + allocator) :=
  match shards with
  | [] => Some (inr a)
  | s :: shards =>
      r ← open_next s SEGMENT_TYPE_METADATA next a;
      match r with
      | None => Some (inl a)
      | Some (next, a) => fill_metadata shards next a
      end
  end.

(** [need] segments for one queue, or as many as are left. *)
Fixpoint fill_queue (need : nat) (shard ty : nat) (next : nat) (a : allocator) : option (nat * allocator) :=
  match need with
  | 0 => Some (next, a)
  | S need =>
      r ← open_next shard ty next a;
      match r with
      | None => Some (next, a)
      | Some (next, a) => fill_queue need shard ty next a
      end
  end.

(** The number of segments a queue is filled with. *)
Definition queue_need (q : open_segment_queue) : nat :=
  let target := if decide (MAX_OPEN_SEGMENTS ≤ q_refill_high q) then MAX_OPEN_SEGMENTS - 1 else q_refill_high q in
  let active := (q_tail q + MAX_OPEN_SEGMENTS - q_head q) `mod` MAX_OPEN_SEGMENTS in
  target - active.

(** Every queue listed, by shard and type, with one [next] for all. *)
Fixpoint fill_queues (queues : list (nat * nat)) (next : nat) (a : allocator) : option allocator :=
  match queues with
  | [] => Some a
  | (s, ty) :: queues =>
      if decide (ty = SEGMENT_TYPE_METADATA) then fill_queues queues next a
      else
        q ← a_per_shard a !! s ≫= λ qs, qs !! ty;
        '(next, a) ← fill_queue (queue_need q) s ty next a;
        fill_queues queues next a
  end.

(** The queues of step 2, in the order of the loops. *)
Definition step2_queues (n_shards : nat) : list (nat * nat) :=
  s ← seq 0 n_shards; (λ ty, (s, ty)) <$> seq 1 (SEGMENT_TYPE_COUNT - 1).

Definition fill_all (n_shards : nat) (a : allocator) : option (allocator + allocator) :=
  let next := META_SEGMENT_SLOT_B + 1 in
  r ← fill_metadata (replicate n_shards 0) next a;
  match r with
  | inl a => Some (inl a)
  | inr a =>
      r ← fill_metadata (seq 0 n_shards) next a;
      match r with
      | inl a => Some (inl a)
      | inr a => inr <$> fill_queues (step2_queues n_shards) next a
      end
  end.

(** The commit numbers of a zeroed segment. *)
Definition clear_commit_seq (seg : segment) : segment :=
  if decide (s_type seg = SEGMENT_TYPE_JOURNAL) then Segment (s_status seg) (s_type seg) 0 0
  else if decide (s_type seg = SEGMENT_TYPE_DATA) then Segment (s_status seg) (s_type seg) (s_first_commit_seq seg) 0
  else seg.

Definition is_log_or_data (seg : segment) : Prop :=
  s_type seg = SEGMENT_TYPE_JOURNAL ∨ s_type seg = SEGMENT_TYPE_DATA.

(** Zero the data and journal segments from [i] on: the writes issued, as offsets on the
    device, and whether all succeeded; [write_ok] is the outcome of the write of a segment. *)
Fixpoint zero_segments (write_ok : nat → bool) (fuel i : nat) (a : allocator)
    : option (list Z * bool * allocator) :=
  match fuel with
  | 0 => Some ([], true, a)
  | S fuel =>
      seg ← a_segments a !! i;
      if decide (¬ is_log_or_data seg) then zero_segments write_ok fuel (S i) a
      else
        let bdev_off := u64 (Z.of_nat i * a_segment_size a) in
        if write_ok i then
          '(writes, ok, a) ← zero_segments write_ok fuel (S i) (set_segments (<[i := clear_commit_seq seg]> (a_segments a)) a);
          Some (bdev_off :: writes, ok, a)
        else Some ([bdev_off], false, a)
  end.

(** What the rest of the system answers: whether there is a channel to the device and the
    zero buffer can be allocated, and the outcome of the write of each segment. *)
Record mkfs_env := MkfsEnv {
  allocator_mkfs : nat → Z → allocator → option allocator;
  channel_ok : bool;
  zero_buf_ok : bool;
  zero_write_ok : nat → bool;
  allocator_persist_sync : allocator → Z;
  superblock_init_mkfs : allocator → nat → Z
}.

(** [if (bdev && desc && ch)] and [if (zero_buf)] *)
Definition can_zero (env : mkfs_env) (bdev desc : option nat) : bool :=
  match bdev, desc with
  | Some _, Some _ => channel_ok env && zero_buf_ok env
  | _, _ => false
  end.

(** The result, the offsets zeroed and the allocator; [bdev] and [desc] are the open device. *)
Definition storage_engine_mkfs_volume (env : mkfs_env) (bdev desc : option nat) (cfg_max_segments : nat)
    (cfg_segment_size : Z) (n_shards : nat) (a : allocator) : option (Z * list Z * allocator) :=
  match allocator_mkfs env cfg_max_segments cfg_segment_size a with
  | None => Some ((-1)%Z, [], a)
  | Some a =>
      r ← fill_all n_shards a;
      match r with
      | inl a => Some ((-1)%Z, [], a)
      | inr a =>
          '(writes, ok, a) ←
            if can_zero env bdev desc
            then zero_segments (zero_write_ok env) (a_max_segments a - (META_SEGMENT_SLOT_B + 1)) (META_SEGMENT_SLOT_B + 1) a
            else Some ([], true, a);
          if negb ok then Some ((-1)%Z, writes, a)
          else if decide (allocator_persist_sync env a ≠ 0%Z) then Some ((-1)%Z, writes, a)
          else if decide (superblock_init_mkfs env a n_shards ≠ 0%Z) then Some ((-1)%Z, writes, a)
          else Some (0%Z, writes, a)
      end
  end.
End mkfs.

(** ** What the filled queues satisfy *)

Section invariant.
Context {E : SegmentEnv}.
Implicit Types (a : allocator) (q : open_segment_queue).

(** The queue of a shard and type. *)
Definition queue_of a (s ty : nat) : option open_segment_queue := a_per_shard a !! s ≫= λ qs, qs !! ty.

(** Segment [id] is at place [i] of a queue. *)
Definition queued a (s ty i id : nat) : Prop :=
  ∃ q, queue_of a s ty = Some q ∧ i < q_tail q ∧ q_segments q !! i = Some id.

Record mkfs_inv a : Prop := MkfsInv {
  mi_length : length (a_segments a) = a_max_segments a;
  mi_queue s ty q : queue_of a s ty = Some q →
    q_head q = 0 ∧ q_tail q < MAX_OPEN_SEGMENTS ∧ length (q_segments q) = MAX_OPEN_SEGMENTS;
  mi_open s ty i id : queued a s ty i id →
    META_SEGMENT_SLOT_B < id ∧
    ∃ seg, a_segments a !! id = Some seg ∧ s_status seg = SEGMENT_STATUS_OPEN ∧ s_type seg = ty;
  mi_unique s ty i s' ty' i' id : queued a s ty i id → queued a s' ty' i' id → s = s' ∧ ty = ty' ∧ i = i'
}.

(** No segment between the reserved ones and [next] is empty. *)
Definition none_before (next : nat) a : Prop :=
  META_SEGMENT_SLOT_B < next ∧
  ∀ j seg, META_SEGMENT_SLOT_B < j < next → a_segments a !! j = Some seg → s_status seg ≠ SEGMENT_STATUS_EMPTY.

Definition empties a : nat :=
  length (filter (λ seg, s_status seg = SEGMENT_STATUS_EMPTY) (drop (META_SEGMENT_SLOT_B + 1) (a_segments a))).

Lemma find_empty_spec a fuel j :
  fuel = length (a_segments a) - j →
  ∃ r, find_empty fuel j a = Some r ∧
  match r with
  | Some idx => j ≤ idx ∧ (∃ seg, a_segments a !! idx = Some seg ∧ s_status seg = SEGMENT_STATUS_EMPTY) ∧
      ∀ k seg, j ≤ k < idx → a_segments a !! k = Some seg → s_status seg ≠ SEGMENT_STATUS_EMPTY
  | None => ∀ k seg, j ≤ k → a_segments a !! k = Some seg → s_status seg ≠ SEGMENT_STATUS_EMPTY
  end.
Proof using Type*.
  revert j. induction fuel as [|fuel IH]; intros j Hj; simpl.
  - exists None. split; [done|]. intros k seg ? ?%lookup_lt_Some. lia.
  - destruct (lookup_lt_is_Some_2 (a_segments a) j) as [seg Hseg]; [lia|]. rewrite Hseg. simpl.
    case_decide as He; [exists (Some j); split_and!; [done..|eauto|lia]|].
    destruct (IH (S j)) as (r & Hr & Hspec); [lia|]. exists r. split; [done|].
    destruct r as [idx|].
    + destruct Hspec as (? & ? & Hbefore). split_and!; [lia|done|]. intros k seg' ??.
      destruct (decide (k = j)) as [->|]; [congruence|]. apply (Hbefore k); [lia|done].
    + intros k seg' ??. destruct (decide (k = j)) as [->|]; [congruence|]. apply (Hspec k); [lia|done].
Qed.

Lemma empties_none a next :
  none_before next a →
  (∀ k seg, next ≤ k → a_segments a !! k = Some seg → s_status seg ≠ SEGMENT_STATUS_EMPTY) →
  empties a = 0.
Proof using Type*.
  intros [_ Hb] Ha. unfold empties. rewrite filter_none; [done|]. apply Forall_forall.
  intros seg Hin. apply list_elem_of_lookup in Hin as [k Hk]. rewrite lookup_drop in Hk.
  destruct (decide (META_SEGMENT_SLOT_B + 1 + k < next)); [eapply Hb; [|done]; lia|eapply Ha; [|done]; lia].
Qed.

(** The queue after a push that does not wrap. *)
Definition pushed (idx : nat) q : open_segment_queue :=
  Queue (<[q_tail q := idx]> (q_segments q)) (q_head q) (q_tail q + 1) (q_refill_high q).

Definition opened (ty idx : nat) (seg : segment) (qs : list (list open_segment_queue)) a : allocator :=
  Allocator (<[idx := Segment SEGMENT_STATUS_OPEN ty (s_first_commit_seq seg) (s_last_commit_seq seg)]> (a_segments a))
    (a_max_segments a) (a_segment_size a) (a_used_segments a + 1) true qs.

Lemma queue_of_push a s ty idx seg q qs s' ty' :
  a_per_shard a !! s = Some qs → qs !! ty = Some q →
  queue_of (opened ty idx seg (<[s := <[ty := pushed idx q]> qs]> (a_per_shard a)) a) s' ty' =
  if decide (s' = s ∧ ty' = ty) then Some (pushed idx q) else queue_of a s' ty'.
Proof using Type*.
  intros Hs Hty. unfold queue_of. simpl. rewrite list_lookup_insert.
  pose proof (lookup_lt_Some _ _ _ Hs). pose proof (lookup_lt_Some _ _ _ Hty).
  destruct (decide (s' = s)) as [->|].
  - rewrite decide_True by lia. rewrite Hs. simpl. rewrite list_lookup_insert.
    destruct (decide (ty' = ty)) as [->|]; [by rewrite !decide_True by lia|].
    by rewrite !decide_False by lia.
  - by rewrite !decide_False by lia.
Qed.

Lemma queued_push a a' s ty q idx s' ty' i id :
  (∀ s' ty', queue_of a' s' ty' = if decide (s' = s ∧ ty' = ty) then Some (pushed idx q) else queue_of a s' ty') →
  queue_of a s ty = Some q → q_tail q < length (q_segments q) →
  queued a' s' ty' i id → queued a s' ty' i id ∨ (s' = s ∧ ty' = ty ∧ i = q_tail q ∧ id = idx).
Proof using Type*.
  intros Hof Hq Hlt (q' & Hq' & Hi & Hid). rewrite Hof in Hq'. case_decide as H; [|left; by exists q'].
  destruct H as [-> ->]. injection Hq' as <-. simpl in *. rewrite list_lookup_insert in Hid.
  case_decide; [naive_solver|]. left. exists q. split_and!; [done|lia|done].
Qed.

Lemma mkfs_inv_push a s ty idx seg qs q :
  mkfs_inv a → META_SEGMENT_SLOT_B < idx → a_segments a !! idx = Some seg → s_status seg = SEGMENT_STATUS_EMPTY →
  a_per_shard a !! s = Some qs → qs !! ty = Some q → q_tail q + 1 < MAX_OPEN_SEGMENTS →
  mkfs_inv (opened ty idx seg (<[s := <[ty := pushed idx q]> qs]> (a_per_shard a)) a).
Proof using Type*.
  intros [Hlen Hqs Hopen Huniq] Hidx Hseg He Hs Hty Hroom.
  assert (queue_of a s ty = Some q) as Hq by (unfold queue_of; by rewrite Hs).
  destruct (Hqs _ _ _ Hq) as (Hh & Ht & Hl).
  pose proof (λ s' ty', queue_of_push a s ty idx seg q qs s' ty' Hs Hty) as Hof.
  pose proof (λ s' ty' i id, queued_push a _ s ty q idx s' ty' i id Hof Hq ltac:(lia)) as Hpush.
  assert (∀ s' ty' i, ¬ queued a s' ty' i idx) as Hnot.
  { intros s' ty' i (_ & seg' & Hseg' & ? & _)%Hopen. congruence. }
  split.
  - simpl. by rewrite length_insert.
  - intros s' ty' q'. rewrite Hof. case_decide; [|apply Hqs].
    intros [= <-]. simpl. rewrite length_insert. lia.
  - intros s' ty' i id [H|(-> & -> & -> & ->)]%Hpush.
    + pose proof H as (? & seg' & ? & ? & ?)%Hopen. split; [done|]. exists seg'. split; [|done]. simpl.
      rewrite list_lookup_insert_ne; [done|]. intros <-. by apply Hnot in H.
    + split; [done|]. eexists. simpl. rewrite list_lookup_insert_eq by by eapply lookup_lt_Some. done.
  - intros s1 ty1 i1 s2 ty2 i2 id [H1|(-> & -> & -> & ->)]%Hpush [H2|(-> & -> & -> & ?)]%Hpush; subst.
    + by eapply Huniq.
    + by apply Hnot in H1.
    + by apply Hnot in H2.
    + done.
Qed.

Lemma none_before_push a next idx ty seg qs :
  none_before next a → next ≤ idx →
  (∀ k seg, next ≤ k < idx → a_segments a !! k = Some seg → s_status seg ≠ SEGMENT_STATUS_EMPTY) →
  none_before (S idx) (opened ty idx seg qs a).
Proof using Type*.
  intros [Hm Hb] Hle Hk. split; [lia|]. intros j seg' Hj. simpl. rewrite list_lookup_insert.
  case_decide; [by intros [= <-]|]. intros Hj'. pose proof (lookup_lt_Some _ _ _ Hj').
  destruct (decide (j < next)); [apply (Hb j); [lia|done]|apply (Hk j); [lia|done]].
Qed.

Lemma empties_push a idx ty seg qs :
  META_SEGMENT_SLOT_B < idx → a_segments a !! idx = Some seg → s_status seg = SEGMENT_STATUS_EMPTY →
  empties a = S (empties (opened ty idx seg qs a)).
Proof using Type*.
  intros Hidx Hseg He. unfold empties. simpl. rewrite drop_insert_ge by lia.
  apply filter_insert_out with seg; [|done|done].
  rewrite lookup_drop. by replace (META_SEGMENT_SLOT_B + 1 + (idx - (META_SEGMENT_SLOT_B + 1))) with idx by lia.
Qed.

(** One push: nothing is left, or one more segment is open, at the end of its queue. *)
Lemma open_next_spec s ty next a q :
  mkfs_inv a → none_before next a → queue_of a s ty = Some q → q_tail q + 1 < MAX_OPEN_SEGMENTS →
  ∃ r, open_next s ty next a = Some r ∧
  match r with
  | None => empties a = 0
  | Some (next', a') =>
      mkfs_inv a' ∧ none_before next' a' ∧ empties a = S (empties a') ∧
      ∃ idx, ∀ s' ty', queue_of a' s' ty' =
        if decide (s' = s ∧ ty' = ty) then Some (pushed idx q) else queue_of a s' ty'
  end.
Proof using Type*.
  intros Hinv Hnext Hq Hroom. pose proof Hinv as [Hlen Hqs _ _]. unfold open_next.
  destruct (find_empty_spec a (a_max_segments a - next) next) as (r & -> & Hr); [by rewrite Hlen|].
  simpl. destruct r as [idx|]; [|exists None; split; [done|by eapply empties_none]].
  destruct Hr as (Hle & (seg & Hseg & He) & Hk). rewrite Hseg. simpl.
  destruct (Hqs _ _ _ Hq) as (_ & _ & Hl).
  unfold queue_of in Hq. destruct (a_per_shard a !! s) as [qs|] eqn:Hs; [|done]. simpl in *.
  rewrite Hq. simpl. unfold push_queue. rewrite decide_True by lia. simpl.
  rewrite Nat.mod_small by lia. eexists. split; [done|]. destruct Hnext as [? ?].
  fold (pushed idx q). fold (opened ty idx seg (<[s := <[ty := pushed idx q]> qs]> (a_per_shard a)) a).
  split_and!; [by apply mkfs_inv_push; try lia|by apply none_before_push with next| |].
  - by apply empties_push; [lia|..].
  - exists idx. intros s' ty'. by apply queue_of_push.
Qed.
End invariant.

(** ** The filling loops *)

Section fill.
Context {E : SegmentEnv}.
Implicit Types (a : allocator) (q : open_segment_queue).

(** The length and the refill mark of a queue. *)
Definition view a (s ty : nat) : option (nat * nat) := (λ q, (q_tail q, q_refill_high q)) <$> queue_of a s ty.

Definition count (s : nat) (l : list nat) : nat := length (filter (s =.) l).

Lemma open_next_view s ty next a t r :
  mkfs_inv a → none_before next a → view a s ty = Some (t, r) → t + 1 < MAX_OPEN_SEGMENTS →
  ∃ res, open_next s ty next a = Some res ∧
  match res with
  | None => empties a = 0
  | Some (next', a') =>
      mkfs_inv a' ∧ none_before next' a' ∧ empties a = S (empties a') ∧
      ∀ s' ty', view a' s' ty' = if decide (s' = s ∧ ty' = ty) then Some (t + 1, r) else view a s' ty'
  end.
Proof using Type*.
  intros Hinv Hnext (q & Hq & [= -> ->])%fmap_Some Hroom.
  destruct (open_next_spec s ty next a q) as (res & -> & Hres); [done..|].
  exists res. split; [done|]. destruct res as [[next' a']|]; [|done].
  destruct Hres as (? & ? & ? & idx & Hof). split_and!; [done..|].
  intros s' ty'. unfold view. rewrite Hof. by case_decide.
Qed.

Lemma count_cons s s' l : count s (s' :: l) = (if decide (s = s') then 1 else 0) + count s l.
Proof using. unfold count. rewrite filter_cons. by case_decide. Qed.

Lemma fill_metadata_spec shards next a :
  mkfs_inv a → none_before next a →
  (∀ s, s ∈ shards → ∃ t r, view a s SEGMENT_TYPE_METADATA = Some (t, r) ∧ t + count s shards < MAX_OPEN_SEGMENTS) →
  ∃ res, fill_metadata shards next a = Some res ∧
  match res with
  | inl a' => empties a < length shards
  | inr a' => mkfs_inv a' ∧ empties a = empties a' + length shards ∧
      ∀ s ty, view a' s ty =
        (λ '(t, r), (t + (if decide (ty = SEGMENT_TYPE_METADATA) then count s shards else 0), r)) <$> view a s ty
  end.
Proof using Type*.
  revert next a. induction shards as [|s shards IH]; intros next a Hinv Hnext Hroom; simpl.
  - exists (inr a). split_and!; [done..|lia|]. intros s ty. destruct (view a s ty) as [[t r]|]; simpl; [|done].
    repeat f_equal. case_decide; done || lia.
  - destruct (Hroom s) as (t & r & Hv & Hlt); [apply list_elem_of_here|].
    rewrite count_cons, decide_True in Hlt by done.
    destruct (open_next_view s SEGMENT_TYPE_METADATA next a t r) as (res & -> & Hres); [done..|lia|].
    simpl. destruct res as [[next' a']|]; [|exists (inl a); split; [done|lia]].
    destruct Hres as (Hinv' & Hnext' & He & Hv').
    destruct (IH next' a') as (res & -> & Hres); [done..| |].
    { intros s' Hs'. rewrite Hv'. destruct (decide (s' = s)) as [->|].
      - rewrite decide_True by done. eexists _, _. split; [done|lia].
      - rewrite decide_False by naive_solver. destruct (Hroom s') as (t' & r' & ? & Hlt'); [by apply list_elem_of_further|].
        rewrite count_cons, decide_False in Hlt' by done. eauto. }
    exists res. split; [done|]. destruct res as [a2|a2]; [lia|].
    destruct Hres as (? & ? & Hview). split_and!; [done|lia|].
    intros s' ty. rewrite Hview, Hv', count_cons.
    destruct (decide (s' = s)) as [->|]; destruct (decide (ty = SEGMENT_TYPE_METADATA)) as [->|].
    + rewrite decide_True, Hv by done. simpl. do 2 f_equal. lia.
    + by rewrite decide_False by naive_solver.
    + by rewrite decide_False by naive_solver.
    + by rewrite decide_False by naive_solver.
Qed.

Lemma fill_queue_spec need s ty next a t r :
  mkfs_inv a → none_before next a → view a s ty = Some (t, r) → t + need < MAX_OPEN_SEGMENTS →
  ∃ next' a' t', fill_queue need s ty next a = Some (next', a') ∧ mkfs_inv a' ∧ none_before next' a' ∧
    empties a' ≤ empties a ∧ t ≤ t' ≤ t + need ∧ (t' = t + need ∨ empties a' = 0) ∧
    ∀ s' ty', view a' s' ty' = if decide (s' = s ∧ ty' = ty) then Some (t', r) else view a s' ty'.
Proof using Type*.
  revert next a t. induction need as [|need IH]; intros next a t Hinv Hnext Hv Hroom; simpl.
  - exists next, a, t. split_and!; try done; try lia. intros s' ty'. by case_decide; destruct_and?; subst.
  - destruct (open_next_view s ty next a t r) as (res & -> & Hres); [done..|lia|].
    simpl. destruct res as [[next' a']|].
    + destruct Hres as (Hinv' & Hnext' & He & Hv').
      destruct (IH next' a' (t + 1)) as (n2 & a2 & t2 & -> & ? & ? & ? & ? & ? & Hv2); [done..| |lia|].
      { rewrite Hv', decide_True by done. done. }
      exists n2, a2, t2. split_and!; try done; try lia.
      intros s' ty'. rewrite Hv2, Hv'. by repeat case_decide.
    + exists next, a, t. split_and!; try done; try lia. intros s' ty'. by case_decide; destruct_and?; subst.
Qed.

(** The length a queue is filled to. *)
Definition target (r : nat) : nat :=
  if decide (MAX_OPEN_SEGMENTS ≤ r) then MAX_OPEN_SEGMENTS - 1 else r.

Lemma fill_queues_spec queues next a :
  0 < MAX_OPEN_SEGMENTS → mkfs_inv a → none_before next a → NoDup queues →
  (∀ s ty, (s, ty) ∈ queues → ty ≠ SEGMENT_TYPE_METADATA → ∃ r, view a s ty = Some (0, r)) →
  ∃ a', fill_queues queues next a = Some a' ∧ mkfs_inv a' ∧ empties a' ≤ empties a ∧
    (∀ s ty, (s, ty) ∈ queues → ty ≠ SEGMENT_TYPE_METADATA →
       ∃ t r, view a s ty = Some (0, r) ∧ view a' s ty = Some (t, r) ∧ t ≤ target r ∧
              (t = target r ∨ empties a' = 0)) ∧
    (∀ s ty, ¬ ((s, ty) ∈ queues ∧ ty ≠ SEGMENT_TYPE_METADATA) → view a' s ty = view a s ty).
Proof using Type*.
  intros Hmax. revert next a. induction queues as [|[s ty] queues IH]; intros next a Hinv Hnext Hnd Hq; simpl.
  - exists a. split_and!; try done. by intros s ty ?%elem_of_nil.
  - apply NoDup_cons in Hnd as [Hnotin Hnd]. case_decide as Hty.
    { destruct (IH next a) as (a' & -> & ? & ? & Hin & Hout); [done..| |].
      { intros s' ty' ?. apply Hq. by apply list_elem_of_further. }
      exists a'. split_and!; [done..| |].
      - intros s' ty' [[= -> ->]|?]%elem_of_cons ?; [done|by apply Hin].
      - intros s' ty'. rewrite elem_of_cons. intros ?. apply Hout. naive_solver. }
    destruct (Hq s ty) as (r & Hv0); [apply list_elem_of_here|done|].
    pose proof Hv0 as (q & Hqs & [= Ht ->])%fmap_Some. unfold queue_of in Hqs. rewrite Hqs. simpl.
    assert (queue_need q = target (q_refill_high q)) as Hneed.
    { unfold queue_need, target. destruct (mi_queue _ Hinv s ty q Hqs) as (-> & _ & _). rewrite <-Ht.
      rewrite Nat.add_0_l, Nat.sub_0_r, Nat.Div0.mod_same. lia. }
    rewrite Hneed. assert (target (q_refill_high q) < MAX_OPEN_SEGMENTS) by (unfold target; case_decide; lia).
    destruct (fill_queue_spec (target (q_refill_high q)) s ty next a 0 (q_refill_high q))
      as (n1 & a1 & t1 & -> & ? & ? & ? & ? & ? & Hv1); [done..|]. simpl.
    destruct (IH n1 a1) as (a' & -> & ? & ? & Hin & Hout); [done..| |].
    { intros s' ty' Hin Hne. rewrite Hv1. rewrite decide_False by naive_solver.
      apply Hq; [by apply list_elem_of_further|done]. }
    exists a'. split_and!; [done..|lia| |].
    + intros s' ty' [[= -> ->]|Hq']%elem_of_cons Hne.
      * rewrite Hout by naive_solver. rewrite Hv1, decide_True by done.
        exists t1, (q_refill_high q). split_and!; [done|done|lia|lia].
      * destruct (Hin s' ty') as (t' & r' & Hv & ?); [done..|]. rewrite Hv1, decide_False in Hv by naive_solver. eauto.
    + intros s' ty'. rewrite elem_of_cons. intros ?. rewrite Hout by naive_solver.
      rewrite Hv1. by rewrite decide_False by naive_solver.
Qed.
End fill.

(** ** The whole operation *)

Section volume.
Context {E : SegmentEnv}.
Implicit Types (a : allocator).

(** What [allocator_mkfs] leaves: queues for the shards, all of them empty. *)
Record mkfs_fresh (n : nat) a : Prop := MkfsFresh {
  mf_length : length (a_segments a) = a_max_segments a;
  mf_shards : n ≤ length (a_per_shard a);
  mf_types s qs : a_per_shard a !! s = Some qs → length qs = SEGMENT_TYPE_COUNT;
  mf_queue s ty q : queue_of a s ty = Some q →
    q_head q = 0 ∧ q_tail q = 0 ∧ length (q_segments q) = MAX_OPEN_SEGMENTS
}.

(** What a formatted volume satisfies. *)
Record volume_ok (n : nat) a : Prop := VolumeOk {
  vo_inv : mkfs_inv a;
  vo_metadata s : s < n → ∃ r, view a s SEGMENT_TYPE_METADATA = Some (if decide (s = 0) then n + 1 else 1, r);
  vo_filled s ty : s < n → 1 ≤ ty < SEGMENT_TYPE_COUNT → ty ≠ SEGMENT_TYPE_METADATA →
    ∃ t r, view a s ty = Some (t, r) ∧ t ≤ target r ∧ (t = target r ∨ empties a = 0)
}.

Lemma fresh_view n a s ty :
  mkfs_fresh n a → s < n → ty < SEGMENT_TYPE_COUNT → ∃ r, view a s ty = Some (0, r).
Proof using Type*.
  intros [_ Hn Hty Hq] Hs Ht.
  destruct (lookup_lt_is_Some_2 (a_per_shard a) s) as [qs Hqs]; [lia|].
  destruct (lookup_lt_is_Some_2 qs ty) as [q Hqq]; [by rewrite (Hty _ _ Hqs)|].
  assert (queue_of a s ty = Some q) as Hof by (unfold queue_of; by rewrite Hqs).
  exists (q_refill_high q). unfold view. rewrite Hof. simpl. by destruct (Hq _ _ _ Hof) as (_ & -> & _).
Qed.

Lemma fresh_inv n a : 0 < MAX_OPEN_SEGMENTS → mkfs_fresh n a → mkfs_inv a.
Proof using Type*.
  intros HM [Hlen _ _ Hq].
  assert (∀ s ty i id, ¬ queued a s ty i id) as Hno.
  { intros s ty i id (q & Hof & Hi & _). apply Hq in Hof. lia. }
  split; [done| |by intros ???? ?%Hno|by intros ??????? ?%Hno]. intros s ty q Hof. apply Hq in Hof as (? & ? & ?). lia.
Qed.

Lemma count_replicate s n : count s (replicate n 0) = if decide (s = 0) then n else 0.
Proof using. induction n as [|n IH]; simpl; [by case_decide|]. rewrite count_cons, IH. by repeat case_decide. Qed.

Lemma count_seq s n : count s (seq 0 n) = if decide (s < n) then 1 else 0.
Proof using.
  induction n as [|n IH]; [done|]. rewrite seq_S. unfold count in *. rewrite filter_app, length_app, IH.
  rewrite filter_cons, filter_nil. simpl. repeat case_decide; simpl; lia.
Qed.

Lemma step2_queues_elem n s ty : (s, ty) ∈ step2_queues n ↔ s < n ∧ 1 ≤ ty < SEGMENT_TYPE_COUNT.
Proof using.
  unfold step2_queues. rewrite list_elem_of_bind. setoid_rewrite list_elem_of_fmap.
  setoid_rewrite elem_of_seq. split.
  - intros (s' & (ty' & [= <- <-] & ?) & ?). lia.
  - intros. exists s. split; [exists ty; split; [done|lia]|lia].
Qed.

Lemma step2_queues_NoDup n : NoDup (step2_queues n).
Proof using.
  unfold step2_queues. apply NoDup_bind.
  - intros s s' [s2 ty] _ _ (? & [= -> ->] & _)%list_elem_of_fmap (? & [= -> ->] & _)%list_elem_of_fmap. done.
  - intros s _. apply NoDup_fmap_2; [by intros ?? [=]|apply NoDup_seq].
  - apply NoDup_seq.
Qed.

Lemma fill_all_spec n a :
  SEGMENT_TYPE_METADATA < SEGMENT_TYPE_COUNT → n + 1 < MAX_OPEN_SEGMENTS → mkfs_fresh n a →
  ∃ res, fill_all n a = Some res ∧
  match res with
  | inl _ => empties a < 2 * n
  | inr a' => volume_ok n a' ∧ 2 * n ≤ empties a
  end.
Proof using Type*.
  intros Hmeta HM Hfresh. pose proof (fresh_inv _ _ ltac:(lia) Hfresh) as Hinv. unfold fill_all.
  assert (∀ a, none_before (META_SEGMENT_SLOT_B + 1) a) as Hnext by (intros ?; split; lia).
  destruct (fill_metadata_spec (replicate n 0) (META_SEGMENT_SLOT_B + 1) a) as (r1 & -> & H1); [done..| |].
  { intros s [-> Hn]%elem_of_replicate. destruct (fresh_view n a 0 SEGMENT_TYPE_METADATA) as [r Hr]; [done|lia|done|].
    exists 0, r. split; [done|]. rewrite count_replicate. case_decide; lia. }
  simpl. destruct r1 as [a1|a1]; [eexists; split; [done|]; simpl; rewrite length_replicate in H1; lia|].
  destruct H1 as (Hinv1 & He1 & Hv1). rewrite length_replicate in He1.
  assert (∀ s ty, s < n → ty < SEGMENT_TYPE_COUNT → ∃ r, view a1 s ty =
    Some (if decide (ty = SEGMENT_TYPE_METADATA) then if decide (s = 0) then n else 0 else 0, r)) as Hv1'.
  { intros s ty Hs Hty. destruct (fresh_view n a s ty) as [r Hr]; [done..|]. exists r. rewrite Hv1, Hr. simpl.
    by rewrite count_replicate. }
  destruct (fill_metadata_spec (seq 0 n) (META_SEGMENT_SLOT_B + 1) a1) as (r2 & -> & H2); [done..| |].
  { intros s [_ Hs]%elem_of_seq. destruct (Hv1' s SEGMENT_TYPE_METADATA) as [r Hr]; [lia|done|].
    eexists _, r. split; [done|]. rewrite count_seq. repeat case_decide; lia. }
  simpl. destruct r2 as [a2|a2]; [eexists; split; [done|]; simpl; rewrite length_seq in H2; lia|].
  destruct H2 as (Hinv2 & He2 & Hv2). rewrite length_seq in He2.
  destruct (fill_queues_spec (step2_queues n) (META_SEGMENT_SLOT_B + 1) a2) as (a3 & -> & ? & He3 & Hin & Hout);
    [lia|done|done|apply step2_queues_NoDup| |].
  { intros s ty [Hs Hty]%step2_queues_elem Hne. destruct (Hv1' s ty) as [r Hr]; [lia..|].
    exists r. rewrite Hv2, Hr. simpl. by rewrite !decide_False by done. }
  eexists. split; [done|]. simpl. split; [|lia]. split; [done| |].
  - intros s Hs. destruct (Hv1' s SEGMENT_TYPE_METADATA) as [r Hr]; [done..|]. exists r.
    rewrite Hout by naive_solver. rewrite Hv2, Hr. simpl. rewrite !decide_True, count_seq by done.
    rewrite (decide_True _ _ Hs). by repeat case_decide.
  - intros s ty Hs Hty Hne. destruct (Hin s ty) as (t & r & _ & ?); [by apply step2_queues_elem|done|]. eauto.
Qed.
End volume.

(** ** Zeroing *)

Section zero.
Context {E : SegmentEnv}.
Implicit Types (a : allocator) (seg : segment).

#[local] Instance is_log_or_data_dec seg : Decision (is_log_or_data seg).
Proof. unfold is_log_or_data. apply _. Defined.

Definition shape seg : segment_status * nat := (s_status seg, s_type seg).

(** Same queues, and the same segments up to their commit numbers. *)
Definition same_shape a a' : Prop :=
  a_per_shard a' = a_per_shard a ∧ a_max_segments a' = a_max_segments a ∧
  a_segment_size a' = a_segment_size a ∧ shape <$> a_segments a' = shape <$> a_segments a.

Lemma same_shape_lookup a a' j seg :
  same_shape a a' → a_segments a !! j = Some seg → ∃ seg', a_segments a' !! j = Some seg' ∧ shape seg' = shape seg.
Proof using.
  intros (_ & _ & _ & Hs) Hj. apply (f_equal (λ l, l !! j)) in Hs. rewrite !list_lookup_fmap, Hj in Hs.
  simpl in Hs. apply fmap_Some in Hs as (seg' & ? & ?). eauto.
Qed.

Lemma empties_shape a a' : same_shape a a' → empties a' = empties a.
Proof using Type*.
  intros (_ & _ & _ & Hs). unfold empties.
  assert (∀ l, length (filter (λ seg, s_status seg = SEGMENT_STATUS_EMPTY) l)
             = length (filter (λ p, p.1 = SEGMENT_STATUS_EMPTY) (shape <$> l))) as Hf.
  { induction l as [|seg l IH]; [done|]. rewrite fmap_cons, !filter_cons. simpl. by case_decide; simpl; rewrite IH. }
  by rewrite !Hf, !fmap_drop, Hs.
Qed.

Lemma volume_ok_shape n a a' : same_shape a a' → volume_ok n a → volume_ok n a'.
Proof using Type*.
  intros Hsh. pose proof (empties_shape _ _ Hsh) as He. pose proof Hsh as (Hq & Hmax & _ & Hfm).
  assert (∀ s ty, queue_of a' s ty = queue_of a s ty) as Hof by (intros; unfold queue_of; by rewrite Hq).
  assert (∀ s ty i id, queued a' s ty i id ↔ queued a s ty i id) as Hqd by (intros; unfold queued; by rewrite Hof).
  intros [[Hlen Hqs Hopen Huniq] Hmd Hf]. split.
  - split.
    + rewrite Hmax, <-Hlen. apply (f_equal length) in Hfm. by rewrite !length_fmap in Hfm.
    + intros s ty q. rewrite Hof. apply Hqs.
    + intros s ty i id (? & seg & Hseg & ? & ?)%Hqd%Hopen. split; [done|].
      apply (same_shape_lookup a a') in Hseg as (seg' & ? & [= ? ?]); [|done]. exists seg'. split_and!; congruence.
    + intros s ty i s' ty' i' id ?%Hqd ?%Hqd. by eapply Huniq.
  - intros s ?. unfold view. rewrite Hof. by apply Hmd.
  - intros s ty ???. unfold view. rewrite Hof, He. by apply Hf.
Qed.

(** The device offsets of the data and journal segments from [i] on. *)
Definition log_or_data_offsets a (i fuel : nat) : list Z :=
  omap (λ j, seg ← a_segments a !! j;
             if decide (is_log_or_data seg) then Some (u64 (Z.of_nat j * a_segment_size a)) else None) (seq i fuel).

Definition cleared seg : Prop :=
  is_log_or_data seg → s_last_commit_seq seg = 0%Z ∧ (s_type seg = SEGMENT_TYPE_JOURNAL → s_first_commit_seq seg = 0%Z).

Lemma clear_commit_seq_cleared seg : cleared (clear_commit_seq seg) ∧ shape (clear_commit_seq seg) = shape seg.
Proof using Type*.
  unfold clear_commit_seq, cleared, is_log_or_data. repeat case_decide; simpl; naive_solver.
Qed.

Lemma offsets_shape a a' i fuel : same_shape a a' → log_or_data_offsets a' i fuel = log_or_data_offsets a i fuel.
Proof using Type*.
  intros Hsh. unfold log_or_data_offsets. revert i. induction fuel as [|fuel IH]; intros i; [done|].
  simpl. rewrite IH. destruct (a_segments a !! i) as [seg|] eqn:Hseg; simpl.
  - eapply same_shape_lookup in Hseg as (seg' & -> & [= Hst Hty]); [|done]. simpl. pose proof Hsh as (_ & _ & -> & _).
    assert (is_log_or_data seg' ↔ is_log_or_data seg) by (unfold is_log_or_data; by rewrite Hty).
    by destruct (decide (is_log_or_data seg')), (decide (is_log_or_data seg)); try tauto.
  - destruct (a_segments a' !! i) eqn:Hseg'; [|done]. apply lookup_lt_Some in Hseg'.
    apply lookup_ge_None in Hseg. destruct Hsh as (_ & _ & _ & Hfm). apply (f_equal length) in Hfm.
    rewrite !length_fmap in Hfm. lia.
Qed.

Lemma zero_segments_all_ok write_ok fuel i a writes ok a' :
  (∀ j, write_ok j = true) → zero_segments write_ok fuel i a = Some (writes, ok, a') → ok = true.
Proof using Type*.
  intros Hok. revert i a writes. induction fuel as [|fuel IH]; intros i a writes; simpl; [by intros [= <- <- <-]|].
  destruct (a_segments a !! i) as [seg|]; [|done]. simpl. case_decide; [apply IH|]. rewrite Hok.
  destruct (zero_segments _ _ _ _) as [[[w o] a1]|] eqn:Hz; [|done]. simpl. intros [= <- <- <-]. by eapply IH.
Qed.

Lemma zero_segments_spec write_ok fuel i a :
  i + fuel ≤ length (a_segments a) →
  ∃ writes ok a', zero_segments write_ok fuel i a = Some (writes, ok, a') ∧ same_shape a a' ∧
    (∀ j, ¬ i ≤ j < i + fuel → a_segments a' !! j = a_segments a !! j) ∧
    (ok = true → writes = log_or_data_offsets a i fuel ∧
                 ∀ j seg, i ≤ j < i + fuel → a_segments a' !! j = Some seg → cleared seg).
Proof using Type*.
  revert i a. induction fuel as [|fuel IH]; intros i a Hlen; simpl.
  - exists [], true, a. split_and!; try done. intros _. split; [done|lia].
  - destruct (lookup_lt_is_Some_2 (a_segments a) i) as [seg Hseg]; [lia|]. rewrite Hseg. simpl.
    case_decide as Hld.
    + destruct (IH (S i) a) as (w & ok & a' & -> & Hsh & Hout & Hok); [lia|]. exists w, ok, a'.
      split_and!; [done|done|intros; apply Hout; lia|]. intros [Hw Hc]%Hok.
      unfold log_or_data_offsets. simpl. rewrite Hseg. simpl. rewrite decide_False by done. split; [done|].
      intros j seg' Hj Hseg'. destruct (decide (j = i)) as [->|]; [|apply (Hc j); [lia|done]].
      rewrite Hout in Hseg' by lia. unfold cleared. simplify_eq. naive_solver.
    + set (a1 := set_segments _ a).
      destruct (clear_commit_seq_cleared seg) as [Hcl Hshape].
      assert (same_shape a a1) as Hsh1.
      { split_and!; [done..|]. simpl. rewrite list_fmap_insert, Hshape. apply list_insert_id.
        by rewrite list_lookup_fmap, Hseg. }
      destruct (write_ok i).
      * destruct (IH (S i) a1) as (w & ok & a' & -> & Hsh & Hout & Hok); [simpl; rewrite length_insert; lia|].
        simpl. eexists _, ok, a'. split_and!; [done| | |].
        { destruct Hsh as (? & ? & ? & ?), Hsh1 as (? & ? & ? & ?). split_and!; congruence. }
        { intros j Hj. rewrite Hout by lia. simpl. apply list_lookup_insert_ne. lia. }
        intros [-> Hc]%Hok. split.
        { unfold log_or_data_offsets at 2. simpl. rewrite Hseg. simpl. rewrite decide_True by done. f_equal.
          by apply (offsets_shape a a1). }
        intros j seg' Hj Hseg'. destruct (decide (j = i)) as [->|]; [|apply (Hc j); [lia|done]].
        rewrite Hout in Hseg' by lia. simpl in Hseg'.
        rewrite list_lookup_insert_eq in Hseg' by (by eapply lookup_lt_Some). by simplify_eq.
      * eexists _, false, a. split_and!; done.
Qed.
End zero.

(** Filling the queues leaves the number and the size of the segments. *)
Definition dims (a : allocator) : nat * Z := (a_max_segments a, a_segment_size a).

Section dims.
Context {E : SegmentEnv}.
Implicit Types (a : allocator).

Lemma open_next_dims s ty next a next' a' : open_next s ty next a = Some (Some (next', a')) → dims a' = dims a.
Proof using.
  unfold open_next. intros H. apply bind_Some in H as ([idx|] & _ & H); [|done].
  repeat (apply bind_Some in H as (? & _ & H)). by injection H as <- <-.
Qed.

Lemma fill_metadata_dims shards next a a' : fill_metadata shards next a = Some (inr a') → dims a' = dims a.
Proof using.
  revert next a. induction shards as [|s shards IH]; intros next a; simpl; [by intros [= ->]|].
  intros ([[next1 a1]|] & Hopen & H)%bind_Some; [|done]. rewrite (IH _ _ H). by eapply open_next_dims.
Qed.

Lemma fill_queue_dims need s ty next a next' a' : fill_queue need s ty next a = Some (next', a') → dims a' = dims a.
Proof using.
  revert next a. induction need as [|need IH]; intros next a; simpl; [by intros [= _ ->]|].
  intros ([[next1 a1]|] & Hopen & H)%bind_Some; [|by injection H as _ ->].
  rewrite (IH _ _ H). by eapply open_next_dims.
Qed.

Lemma fill_queues_dims queues next a a' : fill_queues queues next a = Some a' → dims a' = dims a.
Proof using.
  revert next a. induction queues as [|[s ty] queues IH]; intros next a; simpl; [by intros [= ->]|].
  case_decide as Hty; [apply IH|]. intros (q & _ & ([next1 a1] & Hq & H)%bind_Some)%bind_Some.
  rewrite (IH _ _ H). by eapply fill_queue_dims.
Qed.

Lemma fill_all_dims n a a' : fill_all n a = Some (inr a') → dims a' = dims a.
Proof using.
  unfold fill_all. intros ([a1|a1] & H1 & H)%bind_Some; [done|].
  apply bind_Some in H as ([a2|a2] & H2 & H); [done|]. apply fmap_Some in H as (a3 & H3 & [= ->]).
  apply fill_metadata_dims in H1, H2. apply fill_queues_dims in H3. congruence.
Qed.
End dims.

(** Nothing outside fails. *)
Definition mkfs_answers_ok (env : mkfs_env) : Prop :=
  (∀ i, zero_write_ok env i = true) ∧ (∀ a, allocator_persist_sync env a = 0%Z) ∧ (∀ a n, superblock_init_mkfs env a n = 0%Z).

(** The zeroing step: either it is skipped or it goes over the segments past the reserved ones. *)
Lemma zero_step_spec {E : SegmentEnv} env bdev desc a :
  length (a_segments a) = a_max_segments a →
  let i := META_SEGMENT_SLOT_B + 1 in let fuel := a_max_segments a - i in
  ∃ writes ok a', (if can_zero env bdev desc then zero_segments (zero_write_ok env) fuel i a else Some ([], true, a))
      = Some (writes, ok, a') ∧ same_shape a a' ∧ (mkfs_answers_ok env → ok = true) ∧
    (ok = true → can_zero env bdev desc = true → writes = log_or_data_offsets a i fuel ∧
      ∀ j seg, i ≤ j → a_segments a' !! j = Some seg → cleared seg).
Proof.
  intros Hlen i fuel. destruct (can_zero env bdev desc); [|by exists [], true, a; split_and!].
  destruct (decide (i ≤ length (a_segments a))).
  - destruct (zero_segments_spec (zero_write_ok env) fuel i a) as (w & ok & a' & Hz & Hsh & _ & Hok); [lia|].
    exists w, ok, a'. split_and!; [done..| |].
    { intros (Hw & _). by eapply zero_segments_all_ok. }
    intros [-> Hc]%Hok _. split; [done|].
    intros j seg Hj Hseg. apply (Hc j); [|done]. apply lookup_lt_Some in Hseg.
    destruct Hsh as (_ & _ & _ & Hfm%(f_equal length)). rewrite !length_fmap in Hfm. lia.
  - replace fuel with 0 by lia. exists [], true, a. split_and!; try done. intros _ _. split; [done|].
    intros j seg ? ?%lookup_lt_Some. lia.
Qed.

(** What formatting does; [mkfs_volume_formats] below says it in words. *)
Lemma mkfs_volume_spec {E : SegmentEnv} env bdev desc cfg_max cfg_size n a a0 :
  SEGMENT_TYPE_METADATA < SEGMENT_TYPE_COUNT → n + 1 < MAX_OPEN_SEGMENTS →
  allocator_mkfs env cfg_max cfg_size a = Some a0 → mkfs_fresh n a0 →
  ∃ rc writes a', storage_engine_mkfs_volume env bdev desc cfg_max cfg_size n a = Some (rc, writes, a') ∧
  (mkfs_answers_ok env → 2 * n ≤ empties a0 → rc = 0%Z) ∧
  (rc = 0%Z → volume_ok n a' ∧ 2 * n ≤ empties a0 ∧ dims a' = dims a0 ∧
    (can_zero env bdev desc = true →
       writes = log_or_data_offsets a' (META_SEGMENT_SLOT_B + 1) (a_max_segments a' - (META_SEGMENT_SLOT_B + 1)) ∧
       ∀ j seg, META_SEGMENT_SLOT_B < j → a_segments a' !! j = Some seg → cleared seg)).
Proof.
  intros Hmeta HM Ha0 Hfresh. unfold storage_engine_mkfs_volume. rewrite Ha0. simpl.
  destruct (fill_all_spec n a0) as (res & Hfill & Hres); [done..|]. rewrite Hfill. simpl.
  destruct res as [a1|a1]; [eexists _, _, _; split; [done|]; split; [intros; lia|done]|]. destruct Hres as [Hvol Hemp].
  destruct (zero_step_spec env bdev desc a1) as (writes & ok & a' & -> & Hsh & Hans & Hz); [apply (mi_length _ (vo_inv _ _ Hvol))|].
  simpl. destruct ok; simpl; [|eexists _, _, _; split; [done|]; split; [by intros ?%Hans|done]].
  assert (mkfs_answers_ok env → allocator_persist_sync env a' = 0%Z ∧ superblock_init_mkfs env a' n = 0%Z) as Hok.
  { intros (_ & Hp & Hs). by rewrite Hp, Hs. }
  repeat case_decide; eexists _, _, _; (split; [reflexivity|]); (split; [naive_solver|]); intros; try done.
  apply fill_all_dims in Hfill. split_and!; [by eapply volume_ok_shape|done| |].
  { rewrite <-Hfill. unfold dims. destruct Hsh as (_ & -> & -> & _). done. }
  intros Hcan. destruct (Hz eq_refl Hcan) as [-> Hc].
  rewrite (offsets_shape _ _ _ _ Hsh). pose proof Hsh as (_ & -> & _). split; [done|].
  intros j seg Hj. apply Hc. lia.
Qed.

(** C28. Formatting a volume never leaves an array, and when it succeeds: no segment is on two
    queues or twice on one, and every queued segment is past the reserved ones and open with
    the type of its queue; shard 0 has a metadata segment for every shard's superblock entry
    and every shard one more of its own; the other queues are filled to their mark unless no
    empty segment is left; and if the device could be written, exactly the data and journal
    segments were zeroed and their commit numbers cleared. It succeeds when there are two
    empty segments per shard and nothing outside fails, and only with that many. *)
Theorem mkfs_volume_formats {E : SegmentEnv} env bdev desc cfg_max cfg_size n a a0 :
  SEGMENT_TYPE_METADATA < SEGMENT_TYPE_COUNT → n + 1 < MAX_OPEN_SEGMENTS →
  allocator_mkfs env cfg_max cfg_size a = Some a0 → mkfs_fresh n a0 →
  ∃ rc writes a', storage_engine_mkfs_volume env bdev desc cfg_max cfg_size n a = Some (rc, writes, a') ∧
  (mkfs_answers_ok env → 2 * n ≤ empties a0 → rc = 0%Z) ∧
  (rc = 0%Z → volume_ok n a' ∧ 2 * n ≤ empties a0 ∧ dims a' = dims a0 ∧
    (can_zero env bdev desc = true →
       writes = log_or_data_offsets a' (META_SEGMENT_SLOT_B + 1) (a_max_segments a' - (META_SEGMENT_SLOT_B + 1)) ∧
       ∀ j seg, META_SEGMENT_SLOT_B < j → a_segments a' !! j = Some seg → cleared seg)).
Proof. apply mkfs_volume_spec. Qed.

(** A layout in which all segments are empty and all queues have the same mark. *)
Definition uniform_layout {E : SegmentEnv} (shards high max : nat) (size : Z) : allocator :=
  Allocator (replicate max (Segment SEGMENT_STATUS_EMPTY 0 5 5)) max size 2 false
    (replicate shards (replicate SEGMENT_TYPE_COUNT (Queue (replicate MAX_OPEN_SEGMENTS 0) 0 0 high))).

Lemma uniform_layout_fresh {E : SegmentEnv} shards high max size : mkfs_fresh shards (uniform_layout shards high max size).
Proof.
  split; simpl.
  - apply length_replicate.
  - by rewrite length_replicate.
  - intros s qs [-> _]%list_elem_of_lookup_2%elem_of_replicate. apply length_replicate.
  - unfold queue_of. simpl. intros s ty q (qs & [-> _]%list_elem_of_lookup_2%elem_of_replicate & Hq)%bind_Some.
    apply list_elem_of_lookup_2, elem_of_replicate in Hq as [-> _]. simpl. by rewrite length_replicate.
Qed.

(** Segments of three types, queues of eight; ten segments and two shards. *)
Definition example_segment_env : SegmentEnv := {|
  META_SEGMENT_SLOT_B := 1; MAX_OPEN_SEGMENTS := 8; SEGMENT_TYPE_COUNT := 4;
  SEGMENT_TYPE_DATA := 1; SEGMENT_TYPE_JOURNAL := 2; SEGMENT_TYPE_METADATA := 3
|}.
Definition example_allocator : allocator := uniform_layout (E := example_segment_env) 2 2 10 4096.
Definition example_mkfs_env : mkfs_env :=
  MkfsEnv (λ _ _ a, Some a) true true (λ _, true) (λ _, 0%Z) (λ _ _, 0%Z).

Lemma mkfs_volume_formats_witness :
  ∃ writes a', storage_engine_mkfs_volume (E := example_segment_env) example_mkfs_env (Some 0) (Some 7) 10 4096 2 example_allocator
    = Some (0%Z, writes, a') ∧ writes = [24576; 28672; 32768; 36864]%Z ∧ volume_ok (E := example_segment_env) 2 a'.
Proof.
  destruct (mkfs_volume_formats (E := example_segment_env) example_mkfs_env (Some 0) (Some 7) 10 4096 2
    example_allocator example_allocator) as (rc & w & a' & H & _ & Hok);
    [simpl; lia|simpl; lia|done|apply uniform_layout_fresh|].
  revert H Hok. set (r := storage_engine_mkfs_volume _ _ _ _ _ _ _). vm_compute in r. subst r.
  intros [= <- <- <-] Hok. eexists _, _. split; [done|]. split; [done|]. by destruct (Hok eq_refl) as [? _].
Defined.
