(* ===== verification/StorageEngine.v ===== *)
(** * The storage engine's life cycle ([src/engine/src/storage_engine.c], [storage_engine.h])

    Arguments, mounting, core affinity, initialisation and the two ways of stopping.
    The object, shard, segment and superblock layers are not in the repository: what they
    answer is an argument, and the calls made to them are the events an operation
    returns.  CPU sets are SPDK's, the class [CpuSets] with the laws [CpuSetLaws]. *)
From S2P Require Import Prelude EngineConfig EngineBdev EngineMkfs.
From stdpp Require Import options.
Local Open Scope Z_scope.

(** ** CPU sets *)

Class CpuSets := {
  cpuset : Type;
  cpuset_zero : cpuset;
  cpuset_set_cpu : cpuset → Z → cpuset;
  cpuset_get_cpu : cpuset → Z → bool;
  cpuset_count : cpuset → Z
}.

(** The count of a set is an unsigned 32-bit number, and a CPU adds at most one to it. *)
Class CpuSetLaws (C : CpuSets) := {
  cpuset_count_zero : cpuset_count cpuset_zero = 0;
  cpuset_count_set s c : cpuset_count (cpuset_set_cpu s c) ≤ cpuset_count s + 1;
  cpuset_count_fits s : fits 32 (cpuset_count s)
}.

(** ** Arguments *)

(** The fields of [storage_engine_ctx_t] the command line sets; [core_mask] and
    [config_file] are NULL or strings. *)
Record engine_args := EngineArgs {
  force_mkfs : bool;
  core_mask : option bytes;
  config_file : option bytes
}.

(** The loop over [argv]; the result is 0, 1 (bad arguments) or -1 (help). *)
Fixpoint parse_args (argv : list bytes) (ctx : engine_args) : Z * engine_args :=
  match argv with
  | [] => (0, ctx)
  | arg :: argv =>
      if decide (strcmp arg (cs "--mkfs") = Eq) then
        parse_args argv (EngineArgs true (core_mask ctx) (config_file ctx))
      else if decide (strcmp arg (cs "--help") = Eq ∨ strcmp arg (cs "-h") = Eq) then (-1, ctx)
      else if decide (strcmp arg (cs "-m") = Eq) then
        match argv with
        | value :: argv => parse_args argv (EngineArgs (force_mkfs ctx) (Some value) (config_file ctx))
        | [] => (1, ctx)
        end
      else if decide (strcmp arg (cs "-c") = Eq) then
        match argv with
        | value :: argv => parse_args argv (EngineArgs (force_mkfs ctx) (core_mask ctx) (Some value))
        | [] => (1, ctx)
        end
      else (1, ctx)
  end.

(** [argv] without the program's name. *)
Definition storage_engine_parse_argv (argv : list bytes) : Z * engine_args :=
  parse_args argv (EngineArgs false None None).

(** ** Core affinity *)

Section affinity.
Context {J : JsonLib} {C : CpuSets}.
Implicit Types (c : config).

(** The entries [core_map[0]] to [core_map[core_map_len - 1]]. *)
Definition shard_cores c : list Z :=
  take (Z.to_nat (core_map_len (c_shard c))) (default [] (core_map (c_shard c))).

(** A shard on the background core, or two shards on one core. *)
Fixpoint has_duplicate (bg : Z) (cores : list Z) : bool :=
  match cores with
  | [] => false
  | x :: cores =>
      bool_decide (x = bg) || existsb (λ y, bool_decide (x = y)) cores || has_duplicate bg cores
  end.

Definition validate_core_affinity c (reactor_mask : cpuset) : Z :=
  let reactor_count := cpuset_count reactor_mask in
  let required_cores := num_shards (c_shard c) + 2 in
  let bg := bg_core (c_shard c) in
  if decide (reactor_count < u32 required_cores) then -1
  else if existsb (λ x, negb (cpuset_get_cpu reactor_mask x)) (shard_cores c) then -1
  else if negb (cpuset_get_cpu reactor_mask bg) then -1
  else if has_duplicate bg (shard_cores c) then -1
  else if decide (0 < rpc_port (c_rpc c)) then
    let rpc_core := rpc_core_index (c_rpc c) in
    if negb (cpuset_get_cpu reactor_mask rpc_core) then -1
    else if existsb (λ x, bool_decide (x = rpc_core)) (shard_cores c) then -1
    else if decide (bg = rpc_core) then -1
    else 0
  else 0.

(** The mask [main] passes to SPDK when none is given: the shards' cores and the
    background core. *)
Definition auto_core_mask c : cpuset :=
  cpuset_set_cpu (foldl cpuset_set_cpu cpuset_zero (shard_cores c)) (bg_core (c_shard c)).

(** ** Mounting *)

(** [MAX_SHARDS] is a constant of the shard layer; [allocator_mount] gives its result and
    the allocator it leaves, and [superblock_load] the [shard_meta_num] of the current
    superblock, if there is one. *)
Record mount_env := MountEnv {
  MAX_SHARDS : Z;
  allocator_mount : allocator → Z * allocator;
  superblock_load_current : allocator → option Z
}.

(** The shard count, or [None] for an error, and the allocator. *)
Definition storage_engine_mount_volume (env : mount_env) (a : allocator) : option Z * allocator :=
  let '(rc, a) := allocator_mount env a in
  if decide (rc ≠ 0) then (None, a)
  else match superblock_load_current env a with
       | None => (None, a)
       | Some shard_meta_num =>
           if decide (shard_meta_num = 0 ∨ MAX_SHARDS env < shard_meta_num) then (None, a)
           else (Some (i32 shard_meta_num), a)
       end.
End affinity.

(** ** Stopping *)

(** Calls to the other layers, in order. *)
Inductive engine_call :=
  | ObjManagerClose (m : nat)
  | ShardManagerClose
  | ShardManagerCloseAsync
  | AllocatorClose
  | SegmentReleaseBdev
  | BdevCalls (acts : list bdev_action)
  | FreeCoreMask
  | StopCallback.

(** [storage_engine_ctx_t] without the arguments and the shards, with the device.
    [is_shutting_down] is a field of the allocator. *)
Record engine_ctx := EngineCtx {
  obj_manager : option nat;
  has_core_mask : bool;
  is_shutting_down : bool;
  e_allocator : allocator;
  e_bdev : bdev_globals
}.

Definition close_obj_manager (ctx : engine_ctx) : engine_ctx * list engine_call :=
  (EngineCtx None (has_core_mask ctx) true (e_allocator ctx) (e_bdev ctx),
   match obj_manager ctx with Some m => [ObjManagerClose m] | None => [] end).

(** What both ways of stopping end with. *)
Definition stop_rest (io_thread cur : option nat) (ctx : engine_ctx) : engine_ctx * list engine_call :=
  let '(g, acts) := fini_spdk_bdev io_thread cur (e_bdev ctx) in
  (EngineCtx (obj_manager ctx) false (is_shutting_down ctx) (e_allocator ctx) g,
   [AllocatorClose; SegmentReleaseBdev; BdevCalls acts] ++ if has_core_mask ctx then [FreeCoreMask] else []).

Definition storage_engine_stop (io_thread cur : option nat) (ctx : engine_ctx) : engine_ctx * list engine_call :=
  let '(ctx, calls) := close_obj_manager ctx in
  let '(ctx, calls') := stop_rest io_thread cur ctx in
  (ctx, calls ++ [ShardManagerClose] ++ calls').

(** The first part; [malloc_ok] is the allocation of the context. The flag tells whether
    [storage_engine_stop_async_shards_done] will be called once the shards are closed. *)
Definition storage_engine_stop_async (malloc_ok cb : bool) (ctx : engine_ctx) : engine_ctx * list engine_call * bool :=
  if negb malloc_ok then (ctx, if cb then [StopCallback] else [], false)
  else let '(ctx, calls) := close_obj_manager ctx in
       (ctx, calls ++ [ShardManagerCloseAsync], true).

Definition storage_engine_stop_async_phase2 (io_thread cur : option nat) (cb : bool) (ctx : engine_ctx)
    : engine_ctx * list engine_call :=
  let '(ctx, calls) := stop_rest io_thread cur ctx in
  (ctx, calls ++ if cb then [StopCallback] else []).

(** The wait for the last persist: [inflight k] is the flag at the [k]-th test; the number
    of polls. *)
Fixpoint drain (max_wait : nat) (k : nat) (inflight : nat → bool) : nat :=
  match max_wait with
  | O => 0
  | S max_wait => if inflight k then S (drain max_wait (S k) inflight) else 0
  end.

Definition storage_engine_stop_async_shards_done (inflight : nat → bool) (io_thread cur : option nat)
    (cb : bool) (ctx : engine_ctx) : engine_ctx * list engine_call * nat :=
  (storage_engine_stop_async_phase2 io_thread cur cb ctx, drain 100 0 inflight).

(** ** Statistics *)

Record storage_stats := StorageStats {
  st_total_size : Z; st_used_size : Z; st_free_size : Z; st_segment_count : Z;
  st_object_count : Z; st_write_ops : Z; st_read_ops : Z; st_gc_count : Z; st_gc_reclaimed : Z
}.

(** [allocator_statfs] is what the allocator reports. *)
Definition get_storage_stats (allocator_statfs : Z * Z * Z * Z) : storage_stats :=
  let '(total, used, free, segments) := allocator_statfs in
  StorageStats total used free segments 0 0 0 0 0.

(** ** Initialisation *)

Inductive init_call :=
  | CallLoadConfig | CallInitBdev (acts : list bdev_action) | CallSegmentSetBdev (bdev : option nat)
  | CallMkfs (zeroed : list Z) | CallStop (calls : list engine_call) | CallMount | CallValidate
  | CallShardManagerInit (n : Z) (cores : option (list Z)) | CallSubsystems | CallRecover
  | CallObjManagerInit.

Section init.
Context {J : JsonLib} {C : CpuSets} {E : SegmentEnv}.

(** What everything outside answers during initialisation. *)
Record init_env := InitEnv {
  ie_files : bytes → file;
  ie_allocs : allocations;
  ie_bdev : bdev_answers;
  ie_mkfs : mkfs_env;
  ie_mount : mount_env;
  ie_reactor_mask : cpuset;
  ie_shard_manager_init : Z;
  ie_shard_subsystems_init : Z;
  ie_recover : Z;
  ie_obj_manager_init : Z + nat;
  ie_io_thread : option nat;
  ie_thread : option nat
}.

Definition set_allocator (a : allocator) (ctx : engine_ctx) : engine_ctx :=
  EngineCtx (obj_manager ctx) (has_core_mask ctx) (is_shutting_down ctx) a (e_bdev ctx).

(** [--mkfs]: the volume is formatted and the engine stopped. *)
Definition init_mkfs (env : init_env) (c : config) (ctx : engine_ctx) (calls : list init_call)
    : option (Z * config * engine_ctx * list init_call) :=
  '(rc, zeroed, a) ← storage_engine_mkfs_volume (ie_mkfs env) (get_bdev (e_bdev ctx)) (get_bdev_desc (e_bdev ctx))
    (Z.to_nat (max_segments (c_segment c))) (segment_size (c_segment c)) (Z.to_nat (num_shards (c_shard c))) (e_allocator ctx);
  let ctx := set_allocator a ctx in
  let calls := calls ++ [CallMkfs zeroed] in
  if decide (rc ≠ 0) then Some (-1, c, ctx, calls)
  else let '(ctx, stop) := storage_engine_stop (ie_io_thread env) (ie_thread env) ctx in
       Some (0, c, ctx, calls ++ [CallStop stop]).

(** An existing volume is mounted and its shards are started. *)
Definition init_mount (env : init_env) (c : config) (ctx : engine_ctx) (calls : list init_call)
    : Z * config * engine_ctx * list init_call :=
  let calls := calls ++ [CallMount] in
  let '(mounted, a) := storage_engine_mount_volume (ie_mount env) (e_allocator ctx) in
  let ctx := set_allocator a ctx in
  match mounted with
  | None => (-1, c, ctx, calls)
  | Some num_shards =>
      let calls := calls ++ [CallValidate] in
      if decide (validate_core_affinity c (ie_reactor_mask env) ≠ 0) then (-1, c, ctx, calls) else
      let calls := calls ++ [CallShardManagerInit num_shards (core_map (c_shard c))] in
      if decide (ie_shard_manager_init env ≠ 0) then (-1, c, ctx, calls) else
      let calls := calls ++ [CallSubsystems] in
      if decide (ie_shard_subsystems_init env ≠ 0) then (-1, c, ctx, calls) else
      let calls := calls ++ [CallRecover] in
      if decide (ie_recover env ≠ 0) then (-1, c, ctx, calls) else
      let calls := calls ++ [CallObjManagerInit] in
      match ie_obj_manager_init env with
      | inl _ => (-1, c, ctx, calls)
      | inr m => (0, c, EngineCtx (Some m) (has_core_mask ctx) (is_shutting_down ctx) (e_allocator ctx) (e_bdev ctx), calls)
      end
  end.

(** The result, the configuration, the state and the calls, the last of which failed when
    the result is -1; [None] is an access outside an array of the allocator. *)
Definition storage_engine_init (env : init_env) (args : engine_args) (ctx : engine_ctx)
    : option (Z * config * engine_ctx * list init_call) :=
  let '(rc, c) := load_config (ie_files env) (ie_allocs env) (config_file args) in
  if decide (rc ≠ 0) then Some (-1, c, ctx, [CallLoadConfig]) else
  let '(rc, c, g, acts) := init_spdk_bdev (ie_bdev env) c (e_bdev ctx) in
  let ctx := EngineCtx (obj_manager ctx) (has_core_mask ctx) (is_shutting_down ctx) (e_allocator ctx) g in
  let calls := [CallLoadConfig; CallInitBdev acts] in
  if decide (rc ≠ 0) then Some (-1, c, ctx, calls) else
  let calls := calls ++ [CallSegmentSetBdev (get_bdev g)] in
  if force_mkfs args then init_mkfs env c ctx calls else Some (init_mount env c ctx calls).

Definition storage_engine_get_obj_manager (ctx : engine_ctx) : option nat := obj_manager ctx.
End init.

(** ** Lemmas *)

Lemma existsb_false {A} (f : A → bool) (l : list A) : existsb f l = false ↔ Forall (λ x, f x = false) l.
Proof.
  induction l as [|x l IH]; simpl; [by split|]. rewrite orb_false_iff, Forall_cons, IH. done.
Qed.

Lemma has_duplicate_spec bg cores : has_duplicate bg cores = false ↔ NoDup (bg :: cores).
Proof.
  rewrite NoDup_cons. induction cores as [|x cores IH]; simpl.
  - split; [|done]. intros _. split; [apply not_elem_of_nil|constructor].
  - rewrite !orb_false_iff, IH, NoDup_cons, existsb_false, elem_of_cons, Forall_forall, bool_decide_eq_false.
    setoid_rewrite bool_decide_eq_false. naive_solver.
Qed.

Section affinity_laws.
Context {J : JsonLib} {C : CpuSets} `{!CpuSetLaws C}.
Implicit Types (c : config).

Lemma shard_cores_ok c : shard_ok (c_shard c) →
  core_map (c_shard c) = Some (shard_cores c) ∧ Z.of_nat (length (shard_cores c)) = num_shards (c_shard c).
Proof using Type*.
  intros (? & _ & Hlen & m & Hm & Hl & _). unfold shard_cores. rewrite Hm. simpl.
  rewrite take_ge by lia. split; [done|lia].
Qed.

(** What the affinity check promises: enough cores, every thread on a core of its own,
    all of them cores that SPDK runs. *)
Definition affinity_ok c (mask : cpuset) : Prop :=
  num_shards (c_shard c) + 2 ≤ cpuset_count mask ∧
  Forall (λ x, cpuset_get_cpu mask x = true) (bg_core (c_shard c) :: shard_cores c) ∧
  NoDup (bg_core (c_shard c) :: shard_cores c) ∧
  (0 < rpc_port (c_rpc c) → cpuset_get_cpu mask (rpc_core_index (c_rpc c)) = true ∧
     rpc_core_index (c_rpc c) ∉ bg_core (c_shard c) :: shard_cores c).

Lemma auto_core_mask_count (cores : list Z) s :
  cpuset_count (foldl cpuset_set_cpu s cores) ≤ cpuset_count s + Z.of_nat (length cores).
Proof using Type*.
  revert s. induction cores as [|x cores IH]; intros s; simpl; [lia|].
  specialize (IH (cpuset_set_cpu s x)). pose proof (cpuset_count_set s x). lia.
Qed.

Lemma required_cores_small c : shard_ok (c_shard c) →
  u32 (num_shards (c_shard c) + 2) = num_shards (c_shard c) + 2.
Proof using Type*. intros [? _]. apply wrap_small. unfold fits. lia. Qed.
End affinity_laws.

(** A group of arguments and the words it is written with. *)
Inductive arg_group := ArgMkfs | ArgMask (value : bytes) | ArgConfig (value : bytes).
Definition arg_words (g : arg_group) : list bytes :=
  match g with
  | ArgMkfs => [cs "--mkfs"]
  | ArgMask v => [cs "-m"; v]
  | ArgConfig v => [cs "-c"; v]
  end.
Definition arg_apply (ctx : engine_args) (g : arg_group) : engine_args :=
  match g with
  | ArgMkfs => EngineArgs true (core_mask ctx) (config_file ctx)
  | ArgMask v => EngineArgs (force_mkfs ctx) (Some v) (config_file ctx)
  | ArgConfig v => EngineArgs (force_mkfs ctx) (core_mask ctx) (Some v)
  end.

Lemma parse_args_groups gs ctx : parse_args (gs ≫= arg_words) ctx = (0, foldl arg_apply ctx gs).
Proof.
  revert ctx. induction gs as [|g gs IH]; intros ctx; [done|]. simpl.
  destruct g; simpl; rewrite ?(decide_True (P := Eq = Eq)) by done; apply IH.
Qed.

Lemma parse_args_inv argv ctx ctx' :
  parse_args argv ctx = (0, ctx') → ∃ gs, argv = gs ≫= arg_words ∧ ctx' = foldl arg_apply ctx gs.
Proof.
  remember (length argv) as n eqn:Hn. revert argv Hn ctx.
  induction (lt_wf n) as [n _ IH]. intros [|arg argv] Hn ctx; simpl in *; [intros [= <-]; by exists []|].
  case_decide as H1.
  { apply strcmp_eq in H1 as ->. intros Hp. eapply IH in Hp as (gs & -> & ->); [|shelve|done]. by exists (ArgMkfs :: gs). }
  case_decide; [done|]. case_decide as H2.
  { apply strcmp_eq in H2 as ->. destruct argv as [|v argv]; [done|]. intros Hp.
    eapply IH in Hp as (gs & -> & ->); [|shelve|done]. by exists (ArgMask v :: gs). }
  case_decide as H3; [|done].
  apply strcmp_eq in H3 as ->. destruct argv as [|v argv]; [done|]. intros Hp.
  eapply IH in Hp as (gs & -> & ->); [|shelve|done]. by exists (ArgConfig v :: gs).
  Unshelve. all: simpl in *; lia.
Qed.

Lemma drain_bound max_wait k inflight : (drain max_wait k inflight ≤ max_wait)%nat.
Proof. revert k. induction max_wait as [|w IH]; intros k; simpl; [lia|]. destruct (inflight k); [|lia]. specialize (IH (S k)). lia. Qed.

(** ** Theorems *)

(** The branches of the check. *)
Lemma validate_core_affinity_ok {J : JsonLib} {C : CpuSets} `{!CpuSetLaws C} (c : config) mask :
  shard_ok (c_shard c) →
  (validate_core_affinity c mask = 0 ↔ affinity_ok c mask) ∧
  (validate_core_affinity c mask = 0 ∨ validate_core_affinity c mask = -1).
Proof.
  intros Hok. unfold validate_core_affinity, affinity_ok. rewrite required_cores_small by done.
  split; [|repeat first [case_decide|case_match]; auto].
  rewrite Forall_cons. case_decide; [split; [done|intros [? _]; lia]|].
  destruct (existsb _ (shard_cores c)) eqn:E1.
  { split; [done|]. intros (_ & [_ Hall] & _).
    rewrite (proj2 (existsb_false _ _)) in E1; [done|]. by eapply Forall_impl; [done|]; simpl; intros x ->. }
  apply existsb_false in E1. setoid_rewrite negb_false_iff in E1.
  destruct (cpuset_get_cpu mask (bg_core (c_shard c))) eqn:E2; simpl; [|split; [done|]; naive_solver].
  destruct (has_duplicate _ _) eqn:E3.
  { split; [done|]. intros (_ & _ & Hnd & _). apply has_duplicate_spec in Hnd. congruence. }
  apply has_duplicate_spec in E3. case_decide; [|split; [|done]; intros _; split_and!; [lia|done..]].
  rewrite elem_of_cons.
  destruct (cpuset_get_cpu mask (rpc_core_index (c_rpc c))) eqn:E4; simpl; [|split; [done|]; naive_solver].
  destruct (existsb _ (shard_cores c)) eqn:E5.
  { split; [done|]. intros (_ & _ & _ & Hrpc). destruct (Hrpc ltac:(done)) as [_ Hnin].
    apply not_false_iff_true in E5. destruct E5. apply existsb_false, Forall_forall. intros x Hx.
    apply bool_decide_eq_false. naive_solver. }
  apply existsb_false in E5. rewrite Forall_forall in E5. case_decide; [split; [done|]; naive_solver|].
  split; [|done]. intros _. split_and!; [lia|done..|]. intros _. split; [done|]. intros [?|Hx]; [congruence|].
  apply E5 in Hx. by apply bool_decide_eq_false in Hx.
Qed.

(** The affinity check accepts exactly the configurations in which the reactors have two
    cores more than there are shards and every shard, the background thread and, when the RPC
    server is on, the RPC thread have a core of their own among them; otherwise it answers -1. *)
Theorem validate_core_affinity_exact {J : JsonLib} {C : CpuSets} `{!CpuSetLaws C} (c : config) mask :
  shard_ok (c_shard c) →
  (validate_core_affinity c mask = 0 ↔ affinity_ok c mask) ∧
  (validate_core_affinity c mask = 0 ∨ validate_core_affinity c mask = -1).
Proof. apply validate_core_affinity_ok. Qed.

(** The mask [main] derives when no [-m] is given never passes the affinity check: it has at
    most one core per shard and one for the background thread, and the check asks for one more
    than that. *)
Lemma auto_core_mask_rejected {J : JsonLib} {C : CpuSets} `{!CpuSetLaws C} (c : config) :
  shard_ok (c_shard c) → validate_core_affinity c (auto_core_mask c) = -1.
Proof.
  intros Hok. unfold validate_core_affinity. rewrite required_cores_small by done.
  rewrite decide_True; [done|]. unfold auto_core_mask.
  pose proof (cpuset_count_set (foldl cpuset_set_cpu cpuset_zero (shard_cores c)) (bg_core (c_shard c))).
  pose proof (auto_core_mask_count (shard_cores c) cpuset_zero). rewrite cpuset_count_zero in *.
  destruct (shard_cores_ok c Hok) as [_ ?]. lia.
Qed.

(** The command line accepts exactly the sequences of [--mkfs], [-m mask] and [-c file], and
    the last mask and file given win. *)
Theorem parse_argv_accepts argv args :
  storage_engine_parse_argv argv = (0, args) ↔
  ∃ gs, argv = gs ≫= arg_words ∧ args = foldl arg_apply (EngineArgs false None None) gs.
Proof.
  unfold storage_engine_parse_argv. split; [apply parse_args_inv|].
  intros (gs & -> & ->). apply parse_args_groups.
Qed.

(** Stopping asynchronously does what stopping does, in the same order and with the same
    final state, except that the shards are closed by their own threads and the callback is
    called once at the end; the wait in between gives up after 100 polls. When the context
    cannot be allocated the callback is called at once and nothing is closed. *)
Theorem stop_async_like_stop io_thread cur inflight ctx :
  (∃ ctx1 c1 c2 c3 ctx2,
    storage_engine_stop io_thread cur ctx = (ctx2, c1 ++ ShardManagerClose :: c2) ∧
    storage_engine_stop_async true true ctx = (ctx1, c1 ++ [ShardManagerCloseAsync], true) ∧
    storage_engine_stop_async_shards_done inflight io_thread cur true ctx1 = (ctx2, c2 ++ [StopCallback], c3) ∧
    StopCallback ∉ c1 ++ c2 ∧ (c3 ≤ 100)%nat ∧ obj_manager ctx2 = None ∧ g_bdev_desc (e_bdev ctx2) = None) ∧
  storage_engine_stop_async false true ctx = (ctx, [StopCallback], false).
Proof.
  split; [|done]. unfold storage_engine_stop, storage_engine_stop_async, storage_engine_stop_async_shards_done,
    storage_engine_stop_async_phase2, close_obj_manager, stop_rest, fini_spdk_bdev.
  eexists _, _, _, (drain 100 0 inflight), _. split_and!; [reflexivity..| |apply drain_bound|done|done].
  destruct (obj_manager ctx), (has_core_mask ctx); set_solver.
Qed.

(** ** Initialisation: what becomes of the device *)

(** What is done to the device while the engine starts or stops. *)
Definition stop_actions (calls : list engine_call) : list bdev_action :=
  calls ≫= λ c, if c is BdevCalls acts then acts else [].
Definition init_actions (calls : list init_call) : list bdev_action :=
  calls ≫= λ c, match c with CallInitBdev acts => acts | CallStop calls => stop_actions calls | _ => [] end.

Lemma init_actions_app calls1 calls2 : init_actions (calls1 ++ calls2) = init_actions calls1 ++ init_actions calls2.
Proof. apply bind_app. Qed.

(** The end of the device: its channel is put unless that belongs to another thread than the
    calling one, and its descriptor is closed when there is a calling thread. *)
Definition device_given_back (io_thread cur ch : option nat) (desc : nat) : list bdev_action :=
  match ch with
  | Some ch => if decide (is_Some io_thread ∧ is_Some cur ∧ io_thread ≠ cur) then [] else [ChannelPut ch]
  | None => []
  end ++ (if cur is Some _ then [BdevClosed desc] else []).

Lemma fini_gives_back io_thread cur g desc : g_bdev_desc g = Some desc →
  fini_spdk_bdev io_thread cur g = (BdevGlobals None None None, device_given_back io_thread cur (g_io_channel g) desc).
Proof.
  intros Hd. unfold fini_spdk_bdev, device_given_back. rewrite Hd. f_equal. f_equal.
  destruct (g_io_channel g) as [ch|]; [|by destruct (match io_thread with Some _ => _ | None => _ end)].
  destruct io_thread as [t|], cur as [t'|]; simpl; [|done..].
  case_bool_decide as Ht; simpl.
  - subst t'. by rewrite decide_False by (by intros (_ & _ & ?)).
  - rewrite decide_True; [done|]. split_and!; [by eexists..|congruence].
Qed.

(** The calls of a stop of an engine that has the device open, the shards being closed by
    [shards]. *)
Definition engine_closed (shards : engine_call) (io_thread cur : option nat) (ctx : engine_ctx) (desc : nat) : list engine_call :=
  (if obj_manager ctx is Some m then [ObjManagerClose m] else []) ++
  [shards; AllocatorClose; SegmentReleaseBdev; BdevCalls (device_given_back io_thread cur (g_io_channel (e_bdev ctx)) desc)] ++
  (if has_core_mask ctx then [FreeCoreMask] else []).

(** The state it leaves. *)
Definition stopped_ctx ctx : engine_ctx := EngineCtx None false true (e_allocator ctx) (BdevGlobals None None None).

Lemma stop_closes io_thread cur ctx desc : g_bdev_desc (e_bdev ctx) = Some desc →
  storage_engine_stop io_thread cur ctx = (stopped_ctx ctx, engine_closed ShardManagerClose io_thread cur ctx desc).
Proof.
  intros Hd. unfold storage_engine_stop, close_obj_manager, stop_rest, engine_closed.
  cbn [e_bdev obj_manager has_core_mask is_shutting_down e_allocator]. rewrite (fini_gives_back _ _ _ desc Hd).
  by destruct (obj_manager ctx).
Qed.

Lemma stop_async_closes inflight io_thread cur ctx desc : g_bdev_desc (e_bdev ctx) = Some desc →
  ∃ ctx1 c1 c2 n, storage_engine_stop_async true true ctx = (ctx1, c1, true) ∧
    storage_engine_stop_async_shards_done inflight io_thread cur true ctx1 = (stopped_ctx ctx, c2, n) ∧
    c1 ++ c2 = engine_closed ShardManagerCloseAsync io_thread cur ctx desc ++ [StopCallback].
Proof.
  intros Hd. unfold storage_engine_stop_async, storage_engine_stop_async_shards_done, storage_engine_stop_async_phase2,
    close_obj_manager, stop_rest, engine_closed.
  eexists _, _, _, _. split; [reflexivity|].
  cbn [e_bdev obj_manager has_core_mask is_shutting_down e_allocator]. rewrite (fini_gives_back _ _ _ desc Hd).
  split; [reflexivity|]. by destruct (obj_manager ctx), (has_core_mask ctx).
Qed.

Lemma engine_closed_actions shards io_thread cur ctx desc : stop_actions [shards] = [] →
  stop_actions (engine_closed shards io_thread cur ctx desc) = device_given_back io_thread cur (g_io_channel (e_bdev ctx)) desc.
Proof.
  intros Hs. unfold engine_closed, stop_actions in *. rewrite !bind_app. simpl in *. rewrite (right_id_L [] (++)) in Hs. rewrite Hs.
  by destruct (obj_manager ctx), (has_core_mask ctx); simpl; rewrite ?(right_id_L [] (++)).
Qed.

(** The descriptors that are open once an open device is given back. *)
Lemma given_back_descs io_thread cur ch desc :
  descs_after (device_given_back io_thread cur ch desc) {[desc]} = Some (if cur is Some _ then ∅ else {[desc]}).
Proof.
  unfold device_given_back. assert (∀ acts : list bdev_action, descs_after (match ch with
    | Some ch => if decide (is_Some io_thread ∧ is_Some cur ∧ io_thread ≠ cur) then [] else [ChannelPut ch]
    | None => [] end ++ acts) {[desc]} = descs_after acts {[desc]}) as -> by (intros; destruct ch; [case_decide|]; done).
  destruct cur; simpl; [|done]. rewrite decide_True by set_solver. f_equal. set_solver.
Qed.

Section device.
Context {J : JsonLib} {C : CpuSets} {E : SegmentEnv}.
Implicit Types (env : init_env) (c : config) (ctx : engine_ctx).

Definition opened_ctx (g : bdev_globals) ctx : engine_ctx :=
  EngineCtx (obj_manager ctx) (has_core_mask ctx) (is_shutting_down ctx) (e_allocator ctx) g.
Definition opened_calls env : list init_call :=
  [CallLoadConfig; CallInitBdev [BdevOpened (ba_desc (ie_bdev env))]; CallSegmentSetBdev (ba_get_by_name (ie_bdev env))].

(** A start fails before the device is open, which it then is not, or goes on with it. *)
Lemma init_opens env args ctx :
  (∃ c ctx' calls, storage_engine_init env args ctx = Some (-1, c, ctx', calls) ∧ (length calls ≤ 2)%nat ∧
    (init_actions calls = [] ∨ init_actions calls = [BdevOpened (ba_desc (ie_bdev env)); BdevClosed (ba_desc (ie_bdev env))])) ∨
  (∃ c g, g_bdev_desc g = Some (ba_desc (ie_bdev env)) ∧ g_io_channel g = g_io_channel (e_bdev ctx) ∧
    storage_engine_init env args ctx =
    if force_mkfs args then init_mkfs env c (opened_ctx g ctx) (opened_calls env)
    else Some (init_mount env c (opened_ctx g ctx) (opened_calls env))).
Proof.
  unfold storage_engine_init. destruct (load_config _ _ _) as [rc c0].
  case_decide; [left; eexists _, _, _; split_and!; [done|simpl; lia|by left]|].
  unfold init_spdk_bdev. destruct (ba_get_by_name (ie_bdev env)) as [b|] eqn:Hb.
  2: { left. eexists _, _, _. rewrite decide_True by lia. split_and!; [done|simpl; lia|by left]. }
  case_decide as Hopen.
  { rewrite decide_True by done. left. eexists _, _, _. split_and!; [done|simpl; lia|by left]. }
  cbv zeta. case_decide.
  { rewrite decide_True by lia. left. eexists _, _, _. split_and!; [done|simpl; lia|by right]. }
  case_decide.
  { rewrite decide_True by lia. left. eexists _, _, _. split_and!; [done|simpl; lia|by right]. }
  rewrite decide_False by lia. right. eexists _, _. split_and!; [| |unfold opened_calls; rewrite Hb; reflexivity]; done.
Qed.

(** A start that mounts does nothing more to the device. *)
Lemma init_mount_keeps env c ctx calls rc c' ctx' calls' : init_mount env c ctx calls = (rc, c', ctx', calls') →
  (rc = 0 ∨ rc = -1) ∧ (∃ rest, calls' = calls ++ rest ∧ init_actions rest = []) ∧
  has_core_mask ctx' = has_core_mask ctx ∧ e_bdev ctx' = e_bdev ctx ∧ (rc = 0 → is_Some (obj_manager ctx')).
Proof.
  unfold init_mount. destruct (storage_engine_mount_volume _ _) as [[n|] a].
  2: { intros [= <- <- <- <-]. split_and!; [by right|by exists [CallMount]|done..]. }
  rewrite <-!(assoc_L (++)). cbn [app].
  repeat (case_decide; [intros [= <- <- <- <-]; split_and!; [by right|by eexists|done..]|]).
  destruct (ie_obj_manager_init env) as [|m]; intros [= <- <- <- <-]; (split_and!; [by auto|by eexists|done..]).
Qed.

(** A start that formats: it fails with the device open, or stops the engine. *)
Lemma init_mkfs_stops env c ctx calls rc c' ctx' calls' : g_bdev_desc (e_bdev ctx) = Some (ba_desc (ie_bdev env)) →
  init_mkfs env c ctx calls = Some (rc, c', ctx', calls') → ∃ zeroed,
  (rc = -1 ∧ calls' = calls ++ [CallMkfs zeroed]) ∨
  (rc = 0 ∧ obj_manager ctx' = None ∧ g_bdev_desc (e_bdev ctx') = None ∧
   calls' = calls ++ [CallMkfs zeroed;
     CallStop (engine_closed ShardManagerClose (ie_io_thread env) (ie_thread env) ctx (ba_desc (ie_bdev env)))]).
Proof.
  intros Hd. unfold init_mkfs. destruct (storage_engine_mkfs_volume _ _ _ _ _ _ _) as [[[rc2 zeroed] a]|]; [|done]. cbn [mbind option_bind].
  case_decide; [intros [= <- <- <- <-]; exists zeroed; by left|]. rewrite (stop_closes _ _ _ (ba_desc (ie_bdev env))) by done.
  intros [= <- <- <- <-]. exists zeroed. right. by rewrite <-(assoc_L (++)).
Qed.

(** The descriptors that are open after a start that formatted. *)
Lemma formatted_descs env zeroed ctx :
  descs_after (init_actions (opened_calls env ++ [CallMkfs zeroed;
     CallStop (engine_closed ShardManagerClose (ie_io_thread env) (ie_thread env) ctx (ba_desc (ie_bdev env)))])) ∅ =
  Some (if ie_thread env is Some _ then ∅ else {[ba_desc (ie_bdev env)]}).
Proof.
  rewrite init_actions_app. unfold opened_calls, init_actions. simpl. rewrite (right_id_L [] (++)), engine_closed_actions by done.
  rewrite decide_False by set_solver. rewrite (right_id_L ∅ (∪)). apply given_back_descs.
Qed.
End device.

(** ** Initialisation: what is established on the way *)

Section starting.
Context {J : JsonLib} {C : CpuSets} {E : SegmentEnv} `{!JsonLaws J, !CpuSetLaws C}.
Implicit Types (env : init_env) (c : config) (ctx : engine_ctx).

(** The configuration is valid and the device is open and holds every segment. *)
Record opened_ok env (args : engine_args) c (g : bdev_globals) : Prop := OpenedOk {
  oo_shard : shard_ok (c_shard c);
  oo_gc : gc_ok (c_gc c);
  oo_log : log_ok (c_log c);
  oo_shards : c_shard c = c_shard (load_config (ie_files env) (ie_allocs env) (config_file args)).2;
  oo_segments : 0 < max_segments (c_segment c) ≤ INT_MAX;
  oo_size : 0 < segment_size (c_segment c);
  oo_fits : max_segments (c_segment c) * segment_size (c_segment c) ≤ bdev_size (c_bdev c) < 2 ^ 64;
  oo_bdev : g_bdev g = ba_get_by_name (ie_bdev env) ∧ is_Some (g_bdev g);
  oo_desc : g_bdev_desc g = Some (ba_desc (ie_bdev env))
}.

(** Either the configuration or the device fails, or the volume is next. *)
Lemma storage_engine_init_cases env args ctx :
  (∃ c ctx' calls, storage_engine_init env args ctx = Some (-1, c, ctx', calls) ∧ ∀ stop, CallStop stop ∉ calls) ∨
  (∃ c g, opened_ok env args c g ∧ g_io_channel g = g_io_channel (e_bdev ctx) ∧ storage_engine_init env args ctx =
    if force_mkfs args then init_mkfs env c (opened_ctx g ctx) (opened_calls env)
    else Some (init_mount env c (opened_ctx g ctx) (opened_calls env))).
Proof using Type*.
  unfold storage_engine_init.
  destruct (load_config _ _ _) as [rc c0] eqn:Hload. case_decide as Hrc; [left; eexists _, _, _; split; [done|set_solver]|].
  subst rc. pose proof Hload as (Hseg & Hgc & Hsh & Hlog & _)%load_config_ok.
  destruct (init_spdk_bdev _ c0 _) as [[[rc c1] g] acts] eqn:Hbdev. case_decide as Hrc; [left; eexists _, _, _; split; [done|set_solver]|].
  subst rc. right. exists c1, g.
  apply init_spdk_bdev_frame in Hbdev as Hframe. destruct Hframe as (Es & Eg & El & _ & Hch & Hdev).
  apply init_spdk_bdev_size in Hbdev as Hfits. destruct Hfits as [Hfits Hsome].
  apply init_spdk_bdev_ok in Hbdev as [(_ & Hn & Hss & Hsize & _ & _ & Hdesc & ->)|[? _]]; [|done..].
  specialize (Hdev eq_refl). split.
  - split; rewrite ?Es, ?Eg, ?El, ?Hss, ?Hload; try done.
    + destruct Hseg. lia.
    + unfold fits in Hfits. lia.
    + by rewrite Hdev.
  - split; [done|]. unfold opened_calls, get_bdev. by rewrite Hdev.
Qed.

Lemma init_mount_ok env args c g ctx c' ctx' calls calls' :
  opened_ok env args c g → init_mount env c (opened_ctx g ctx) calls = (0, c', ctx', calls') →
  affinity_ok c (ie_reactor_mask env) ∧ c' = c ∧ e_bdev ctx' = g ∧
  ∃ m n, obj_manager ctx' = Some m ∧
    storage_engine_mount_volume (ie_mount env) (e_allocator ctx) = (Some n, e_allocator ctx') ∧
    calls' = calls ++ [CallMount; CallValidate; CallShardManagerInit n (Some (shard_cores c)); CallSubsystems; CallRecover;
                       CallObjManagerInit].
Proof using Type*.
  intros Hok. pose proof (oo_shard _ _ _ _ Hok) as Hsh. unfold init_mount. cbn [e_allocator opened_ctx].
  destruct (storage_engine_mount_volume _ _) as [[n|] a] eqn:Hmount; [|done].
  pose proof (validate_core_affinity_ok c (ie_reactor_mask env) Hsh) as [Hval _].
  case_decide as Hv; [done|]. apply Hval in Hv. do 3 (case_decide; [done|]).
  destruct (ie_obj_manager_init env) as [|m]; [done|]. intros [= <- <- <-]. split_and!; [done..|].
  exists m, n. split_and!; [done..|]. rewrite <-!(assoc_L (++)). by destruct (shard_cores_ok c Hsh) as [-> _].
Qed.

(** A mount ends where the affinity check fails, if it comes to it. *)
Lemma init_mount_rejected env c ctx calls :
  validate_core_affinity c (ie_reactor_mask env) = -1 →
  ∃ ctx' calls', init_mount env c ctx calls = (-1, c, ctx', calls').
Proof using.
  intros Hv. unfold init_mount. destruct (storage_engine_mount_volume _ _) as [[n|] a]; [|by eexists _, _].
  rewrite Hv. by eexists _, _.
Qed.

Lemma auto_core_mask_shard c c' : c_shard c = c_shard c' → auto_core_mask c = auto_core_mask c'.
Proof using. intros H. unfold auto_core_mask, shard_cores. by rewrite H. Qed.

(** The zeroing writes of a volume that fits its device. *)
Lemma offsets_inside n (a : allocator) off :
  volume_ok n a → 0 ≤ a_segment_size a → Z.of_nat (a_max_segments a) * a_segment_size a < 2 ^ 64 →
  off ∈ log_or_data_offsets a (META_SEGMENT_SLOT_B + 1) (a_max_segments a - (META_SEGMENT_SLOT_B + 1)) ↔
  ∃ j seg, (META_SEGMENT_SLOT_B < j < a_max_segments a)%nat ∧ a_segments a !! j = Some seg ∧ is_log_or_data seg ∧
    off = Z.of_nat j * a_segment_size a.
Proof using Type*.
  intros Hvol Hsize Hfits. pose proof (mi_length _ (vo_inv _ _ Hvol)) as Hlen.
  assert (∀ j, (j < a_max_segments a)%nat → u64 (Z.of_nat j * a_segment_size a) = Z.of_nat j * a_segment_size a) as Hu.
  { intros j Hj. apply wrap_small. unfold fits. nia. }
  unfold log_or_data_offsets. rewrite list_elem_of_omap. split.
  - intros (j & [Hj1 Hj2]%elem_of_seq & (seg & Hseg & Hoff)%bind_Some). case_decide as Hld; [|done]. injection Hoff as <-.
    pose proof (lookup_lt_Some _ _ _ Hseg). exists j, seg. split; [lia|]. split_and!; [done|done|apply Hu; lia].
  - intros (j & seg & Hj & Hseg & Hld & ->). exists j. split; [apply elem_of_seq; lia|].
    rewrite Hseg. simpl. rewrite decide_True by done. by rewrite Hu by lia.
Qed.
End starting.

(** C30. When the engine starts on an existing volume, everything its parts rely on was
    established before they were started, and in this order: the configuration is valid, the
    device is open and holds every segment, the volume is mounted, and every thread has a core
    of its own; the shards are then started, recovered and put under the object manager. *)
Theorem engine_init_established {J : JsonLib} {C : CpuSets} {E : SegmentEnv} `{!JsonLaws J, !CpuSetLaws C}
    env args ctx c ctx' calls :
  storage_engine_init env args ctx = Some (0, c, ctx', calls) → force_mkfs args = false →
  shard_ok (c_shard c) ∧ log_ok (c_log c) ∧ gc_ok (c_gc c) ∧ affinity_ok c (ie_reactor_mask env) ∧
  0 < max_segments (c_segment c) ≤ INT_MAX ∧
  max_segments (c_segment c) * segment_size (c_segment c) ≤ bdev_size (c_bdev c) ∧
  g_bdev_desc (e_bdev ctx') = Some (ba_desc (ie_bdev env)) ∧
  ∃ m n, storage_engine_get_obj_manager ctx' = Some m ∧
    storage_engine_mount_volume (ie_mount env) (e_allocator ctx) = (Some n, e_allocator ctx') ∧
    calls = [CallLoadConfig; CallInitBdev [BdevOpened (ba_desc (ie_bdev env))];
             CallSegmentSetBdev (ba_get_by_name (ie_bdev env)); CallMount; CallValidate;
             CallShardManagerInit n (Some (shard_cores c)); CallSubsystems; CallRecover; CallObjManagerInit].
Proof.
  intros H Hmkfs. destruct (storage_engine_init_cases env args ctx) as [(? & ? & ? & Heq & _)|(c1 & g & Hok & _ & Heq)];
    rewrite Heq in H; [done|]. rewrite Hmkfs in H. injection H as H.
  eapply init_mount_ok in H as (Haff & -> & Hg & m & n & Hm & Hmount & ->); [|done].
  destruct Hok as [??? _ ? _ Hfits _ Hdesc]. rewrite Hg. split_and!; try done; try lia. by exists m, n.
Qed.

(** C27. Started with [--mkfs] on a device the segment layer can lay out, the engine never
    leaves an array, and when it reports success: the volume is formatted with the queues of
    every configured shard, it has as many segments as the device has room for, every write
    that zeroed it lies inside the device, these are the data and journal segments and no
    others; and the engine has then been stopped: the object manager if there was one, the
    shard manager and the allocator were closed, the segment layer gave up the device, and the
    device's channel was put and its descriptor closed, in this order, so that no descriptor is
    open. (Only without a current SPDK thread, [ie_thread], the descriptor is forgotten without
    being closed.) When it reports a failure, nothing was stopped. *)
Theorem engine_formats {J : JsonLib} {C : CpuSets} {E : SegmentEnv} `{!JsonLaws J, !CpuSetLaws C} env args ctx n :
  force_mkfs args = true → (SEGMENT_TYPE_METADATA < SEGMENT_TYPE_COUNT)%nat →
  n = Z.to_nat (num_shards (c_shard (load_config (ie_files env) (ie_allocs env) (config_file args)).2)) →
  (n + 1 < MAX_OPEN_SEGMENTS)%nat →
  (∀ max size a a0, allocator_mkfs (ie_mkfs env) max size a = Some a0 → mkfs_fresh n a0 ∧ dims a0 = (max, size)) →
  ∃ rc c ctx' calls, storage_engine_init env args ctx = Some (rc, c, ctx', calls) ∧
  (rc ≠ 0 → rc = -1 ∧ ∀ stop, CallStop stop ∉ calls) ∧
  (rc = 0 → let a := e_allocator ctx' in
    volume_ok n a ∧ dims a = (Z.to_nat (max_segments (c_segment c)), segment_size (c_segment c)) ∧
    g_bdev_desc (e_bdev ctx') = None ∧ obj_manager ctx' = None ∧
    descs_after (init_actions calls) ∅ = Some (if ie_thread env is Some _ then ∅ else {[ba_desc (ie_bdev env)]}) ∧
    ∃ zeroed, calls = opened_calls env ++ [CallMkfs zeroed;
      CallStop (engine_closed ShardManagerClose (ie_io_thread env) (ie_thread env) ctx (ba_desc (ie_bdev env)))] ∧
      (channel_ok (ie_mkfs env) = true → zero_buf_ok (ie_mkfs env) = true →
        (∀ off, off ∈ zeroed → 0 ≤ off ∧ off + a_segment_size a ≤ bdev_size (c_bdev c)) ∧
        (∀ off, off ∈ zeroed ↔ ∃ j seg, (META_SEGMENT_SLOT_B < j < a_max_segments a)%nat ∧ a_segments a !! j = Some seg ∧
          is_log_or_data seg ∧ off = Z.of_nat j * a_segment_size a))).
Proof.
  intros Hmkfs Hmeta Hnum HM Hfresh.
  destruct (storage_engine_init_cases env args ctx) as [(c & ctx' & calls & Hrun & Hstop)|(c & g & Hok & Hch0 & ->)].
  { exists (-1), c, ctx', calls. by split_and!. }
  rewrite Hmkfs. destruct Hok as [_ _ _ Hsh Hn Hsize Hfits [_ [b Hb]] Hd]. rewrite <-Hsh in Hnum.
  set (ctx0 := opened_ctx g ctx).
  unfold init_mkfs. cbn [e_bdev opened_ctx e_allocator ctx0]. rewrite <-Hnum.
  unfold get_bdev, get_bdev_desc. rewrite Hb, Hd.
  set (m := Z.to_nat (max_segments (c_segment c))). set (sz := segment_size (c_segment c)).
  destruct (allocator_mkfs (ie_mkfs env) m sz (e_allocator ctx)) as [a0|] eqn:Ha0.
  2: { unfold storage_engine_mkfs_volume. rewrite Ha0. eexists _, _, _, _. split; [done|]. split; [|done].
    intros _. split; [done|]. intros stop. simpl. set_solver. }
  destruct (Hfresh _ _ _ _ Ha0) as [Hf Hdims].
  destruct (mkfs_volume_spec (ie_mkfs env) (Some b) (Some (ba_desc (ie_bdev env))) m sz _ _ _ Hmeta HM Ha0 Hf)
    as (rc & zeroed & a & -> & _ & Hrc). cbn [mbind option_bind]. case_decide as Hz.
  { eexists _, _, _, _. split; [done|]. split; [|done]. intros _. split; [done|]. intros stop. simpl. set_solver. }
  rewrite (stop_closes _ _ _ (ba_desc (ie_bdev env))) by done.
  destruct (Hrc Hz) as (Hvol & _ & Hda & Hw). rewrite Hdims in Hda. injection Hda as Hmax Hsz.
  eexists 0, c, _, _. split; [reflexivity|]. split; [done|]. intros _. cbn [e_allocator stopped_ctx set_allocator].
  rewrite <-(assoc_L (++)). cbn [app]. change (engine_closed _ _ _ (set_allocator a ctx0) _) with
    (engine_closed ShardManagerClose (ie_io_thread env) (ie_thread env) ctx0 (ba_desc (ie_bdev env))).
  split_and!; [done|by unfold dims; rewrite Hmax, Hsz|done|done|apply formatted_descs|].
  exists zeroed. split; [unfold engine_closed, ctx0; by cbn [e_bdev opened_ctx has_core_mask obj_manager]; rewrite Hch0|].
  intros Hch Hzb. unfold can_zero in Hw. rewrite Hch, Hzb in Hw.
  destruct (Hw eq_refl) as [-> _]. assert (Z.of_nat (a_max_segments a) * a_segment_size a ≤ bdev_size (c_bdev c)) as Hin.
  { rewrite Hmax, Hsz. subst m sz. lia. }
  pose proof (λ off, offsets_inside _ a off Hvol ltac:(lia) ltac:(lia)) as Hoff. split; [|done].
  intros off (j & seg & Hj & _ & _ & ->)%Hoff. nia.
Qed.

(** ** Witnesses *)

(** CPU sets as lists. *)
#[export] Instance list_cpusets : CpuSets := {|
  cpuset := list Z;
  cpuset_zero := [];
  cpuset_set_cpu s c := if existsb (Z.eqb c) s then s else c :: s;
  cpuset_get_cpu s c := existsb (Z.eqb c) s;
  cpuset_count s := Z.min (Z.of_nat (length s)) (2 ^ 32 - 1)
|}.
#[export] Instance list_cpuset_laws : CpuSetLaws list_cpusets.
Proof.
  split; simpl; [done| |].
  - intros s c. destruct (existsb _ _); simpl; lia.
  - intros s. unfold fits. lia.
Qed.

Definition six_cores : @cpuset list_cpusets := [0; 1; 2; 3; 4; 5].

Lemma shipped_shard_ok : shard_ok (c_shard shipped).
Proof. split_and!; try done. exists [0; 1; 2; 3]. split_and!; try done. repeat constructor; lia. Qed.

Lemma validate_core_affinity_exact_witness :
  shard_ok (c_shard shipped) ∧ affinity_ok shipped six_cores.
Proof.
  split; [exact shipped_shard_ok|].
  apply (validate_core_affinity_exact shipped six_cores shipped_shard_ok).
  vm_compute. reflexivity.
Defined.

#[local] Existing Instance example_segment_env.

(** A segment layer that lays out four shards. *)
Definition example_layout : mkfs_env :=
  MkfsEnv (λ max size _, Some (uniform_layout 4 2 max size)) true true (λ _, true) (λ _, 0) (λ _ _, 0).

(** A start with the shipped configuration on a device with so many blocks and a volume of
    [n] shards. *)
Definition example_init_env (blocks n : Z) : init_env :=
  InitEnv shipped_files all_allocated (example_answers blocks) example_layout
    (MountEnv 64 (λ a, (0, a)) (λ _, Some n)) six_cores 0 0 0 (inr 3%nat) None (Some 1%nat).
Definition example_args (mkfs : bool) : engine_args := EngineArgs mkfs None (Some (cs "src/engine/conf/config.json")).
Definition no_allocator : allocator := Allocator [] 0 0 0 false [].
Definition example_ctx : engine_ctx := EngineCtx None false false no_allocator (BdevGlobals None None None).

Definition shipped_opened : config :=
  Config (cs "src/engine/conf/hdd.json") (BdevConfig (cs "MyHDD") 41943040 512 81920) (SegmentConfig 10 4194304 0 0 0)
    1048576 (GcConfig true (cs "0.8") 300 64 100000) (CheckpointConfig true 60)
    (LogConfig (cs "console") (cs "storage_engine.log") 1) (ShardConfig 4 4 (Some [0; 1; 2; 3]) 4)
    (RpcConfig 8080 5) false.

(** The start succeeds whatever the shard count of the volume, which is not compared with
    the configuration: the core map has four entries. *)
Lemma example_init n : 0 < n ≤ 64 →
  storage_engine_init (example_init_env 81920 n) (example_args false) example_ctx =
  Some (0, shipped_opened, EngineCtx (Some 3%nat) false false no_allocator (BdevGlobals (Some 0%nat) (Some 7%nat) None),
   [CallLoadConfig; CallInitBdev [BdevOpened 7]; CallSegmentSetBdev (Some 0%nat); CallMount; CallValidate;
    CallShardManagerInit n (Some [0; 1; 2; 3]); CallSubsystems; CallRecover; CallObjManagerInit]).
Proof.
  intros Hn. unfold storage_engine_init.
  change (load_config _ _ _) with (load_config shipped_files all_allocated (Some (cs "src/engine/conf/config.json"))).
  rewrite shipped_loads. cbn [decide]. unfold init_mount, storage_engine_mount_volume. simpl.
  rewrite (decide_False (P := n = 0 ∨ 64 < n)) by lia. rewrite i32_small by lia. reflexivity.
Qed.

Lemma engine_init_established_witness : affinity_ok shipped_opened six_cores.
Proof.
  apply (engine_init_established (JsonLaws0 := tree_laws _) (example_init_env 81920 4) (example_args false) example_ctx _ _ _
    (example_init 4 ltac:(lia)) eq_refl).
Defined.

(** Twenty segments, four shards: eight metadata segments, then ten data and journal
    segments. *)
Lemma engine_formats_witness :
  ∃ c ctx' calls, storage_engine_init (example_init_env 163840 4) (example_args true) example_ctx = Some (0, c, ctx', calls) ∧
    volume_ok 4 (e_allocator ctx') ∧ descs_after (init_actions calls) ∅ = Some ∅ ∧
    calls = opened_calls (example_init_env 163840 4) ++
      [CallMkfs ((λ i, i * 4194304) <$> [10; 11; 12; 13; 14; 15; 16; 17; 18; 19]);
       CallStop [ShardManagerClose; AllocatorClose; SegmentReleaseBdev; BdevCalls [BdevClosed 7]]].
Proof.
  destruct (engine_formats (JsonLaws0 := tree_laws shipped_config) (example_init_env 163840 4) (example_args true) example_ctx 4)
    as (rc & c & ctx' & calls & Hrun & Hok).
  - done.
  - simpl. lia.
  - reflexivity.
  - simpl. lia.
  - intros max size a a0 Heq. assert (a0 = uniform_layout 4 2 max size) as -> by (simpl in Heq; congruence).
    split; [apply uniform_layout_fresh|done].
  - match type of Hrun with ?run = _ => assert ((λ '(rc, _, _, calls), (rc, calls)) <$> run =
      Some (0, opened_calls (example_init_env 163840 4) ++
        [CallMkfs ((λ i, i * 4194304) <$> [10; 11; 12; 13; 14; 15; 16; 17; 18; 19]);
         CallStop [ShardManagerClose; AllocatorClose; SegmentReleaseBdev; BdevCalls [BdevClosed 7]]])) as Heq end.
    { vm_compute. reflexivity. }
    rewrite Hrun in Heq. injection Heq as -> ->. destruct Hok as [_ Hok]. destruct (Hok eq_refl) as (Hvol & _ & _ & _ & Hdesc & _).
    exists c, ctx'. eexists _. split; [exact Hrun|]. split_and!; [exact Hvol|exact Hdesc|reflexivity].
Defined.
