(* ===== verification/StorageLifecycle.v ===== *)
(** * Starting and stopping the storage server and client
      ([src/storage_server/storage_server.c], [src/storage_client/storage_client.c])

    Creation, registration, shutdown and [main], with the engine's own start and stop in
    their places.  What the RPC library and SPDK answer is an argument; an operation returns
    the resources it acquired and released, in order, among the other calls that matter. *)
From S2P Require Import Prelude StorageProtocol EngineConfig EngineBdev EngineMkfs StorageEngine.
From stdpp Require Import options.
Local Open Scope Z_scope.

(** ** Resources *)

Inductive resource :=
  | SrvBlock | SrvNrpc | SrvHost | RpcTransport | RpcThread | RpcCpuset | ShutdownCtx
  | ClientBlock | ClientHost | ClientRpc | ClientTransport
  | DeviceDesc (desc : nat).
#[export] Instance resource_eq_dec : EqDecision resource.
Proof. solve_decision. Defined.

Inductive event :=
  | Acquire (r : resource)
  | Release (r : resource)
  | Register (opcode : Z)
  | Listen (port : Z)
  | PollerRegistered
  | EngineStart (c : init_call)
  | EngineStop (c : engine_call)
  | AppStop (rc : Z).

(** What an event acquires ([true]) and releases; the device's descriptors are opened and closed
    inside the calls of the engine. *)
Definition device_changes (acts : list bdev_action) : list (bool * resource) :=
  omap (λ act, match act with
    | BdevOpened d => Some (true, DeviceDesc d)
    | BdevClosed d => Some (false, DeviceDesc d)
    | ChannelPut _ => None
    end) acts.
Definition changes (e : event) : list (bool * resource) :=
  match e with
  | Acquire r => [(true, r)]
  | Release r => [(false, r)]
  | EngineStart c => device_changes (init_actions [c])
  | EngineStop c => device_changes (stop_actions [c])
  | _ => []
  end.

Fixpoint hold (chs : list (bool * resource)) (rs : list resource) : option (list resource) :=
  match chs with
  | [] => Some rs
  | (true, r) :: chs => if decide (r ∈ rs) then None else hold chs (r :: rs)
  | (false, r) :: chs => if decide (r ∈ rs) then hold chs (filter (λ x, x ≠ r) rs) else None
  end.

(** The resources held after some events, newest first; [None] when one is released that
    is not held, or acquired twice. *)
Definition held (tr : list event) (rs : list resource) : option (list resource) := hold (tr ≫= changes) rs.

(** ** The server *)

(** [host] may be NULL: [strdup] is not checked. *)
Record storage_server := StorageServer {
  srv_host : bool;
  srv_port : Z
}.

Definition storage_server_create (calloc_ok nrpc_ok : bool) : option storage_server * list event :=
  if negb calloc_ok then (None, [])
  else if negb nrpc_ok then (None, [Acquire SrvBlock; Release SrvBlock])
  else (Some (StorageServer false 0), [Acquire SrvBlock; Acquire SrvNrpc]).

Definition rpc_opcodes : list Z :=
  [RPC_OP_CREATE; RPC_OP_DELETE; RPC_OP_WRITE; RPC_OP_READ; RPC_OP_TRUNCATE; RPC_OP_PUNCH; RPC_OP_CLONE; RPC_OP_STATFS].

(** Register the opcodes until the library refuses one. *)
Fixpoint register_all (nrpc_server_register : Z → Z) (ops : list Z) : bool * list event :=
  match ops with
  | [] => (true, [])
  | op :: ops =>
      if decide (nrpc_server_register op < 0) then (false, [])
      else let '(ok, tr) := register_all nrpc_server_register ops in (ok, Register op :: tr)
  end.

Definition storage_server_start (nrpc_server_register : Z → Z) (strdup_ok : bool) (listen_rc : Z)
    (srv : storage_server) (port : Z) : Z * storage_server * list event :=
  let '(ok, tr) := register_all nrpc_server_register rpc_opcodes in
  if negb ok then (-1, srv, tr)
  else (listen_rc, StorageServer strdup_ok port,
        tr ++ (if strdup_ok then [Acquire SrvHost] else []) ++ [Listen port]).

Definition storage_server_destroy (srv : storage_server) : list event :=
  [Release SrvNrpc] ++ (if srv_host srv then [Release SrvHost] else []) ++ [Release SrvBlock].

(** ** The RPC server of the process *)

(** [rpc_ctx_t]: the transport and the thread are there when their flags are set. *)
Record rpc_ctx := RpcCtx {
  rpc_srv : option storage_server;
  rpc_transport : bool;
  rpc_thread : bool
}.

Record rpc_answers := RpcAnswers {
  ra_cpuset : bool;
  ra_thread : bool;
  ra_transport : bool;
  ra_calloc : bool;
  ra_nrpc : bool;
  ra_register : Z → Z;
  ra_strdup : bool;
  ra_listen : Z
}.

Definition exit_thread : list event := [Release RpcThread].

(** [None] is the use of a CPU set that could not be allocated. *)
Definition storage_server_create_rpc {J : JsonLib} (a : rpc_answers) (c : config)
    : option (Z * rpc_ctx * list event) :=
  let none := RpcCtx None false false in
  if decide (rpc_port (c_rpc c) ≤ 0) then Some (0, none, [])
  else if negb (ra_cpuset a) then None
  else let tr := [Acquire RpcCpuset] in
  if negb (ra_thread a) then Some (-1, none, tr ++ [Release RpcCpuset])
  else let tr := tr ++ [Acquire RpcThread; Release RpcCpuset] in
  if negb (ra_transport a) then Some (-1, none, tr ++ exit_thread)
  else let tr := tr ++ [Acquire RpcTransport] in
  let '(srv, tr1) := storage_server_create (ra_calloc a) (ra_nrpc a) in
  let tr := tr ++ tr1 in
  match srv with
  | None => Some (-1, none, tr ++ [Release RpcTransport] ++ exit_thread)
  | Some srv =>
      let '(rc, srv, tr2) := storage_server_start (ra_register a) (ra_strdup a) (ra_listen a) srv (u16 (rpc_port (c_rpc c))) in
      let tr := tr ++ tr2 in
      if decide (rc ≠ 0) then
        Some (-1, none, tr ++ storage_server_destroy srv ++ [Release RpcTransport] ++ exit_thread)
      else Some (0, RpcCtx (Some srv) true true, tr ++ [PollerRegistered])
  end.

(** ** Shutdown *)

Definition shutdown_complete (exit_code : Z) : list event := [Release ShutdownCtx; AppStop exit_code].

(** What [do_shutdown] releases before it stops the engine. *)
Definition release_rpc (rpc : rpc_ctx) : list event :=
  (match rpc_srv rpc with Some srv => storage_server_destroy srv | None => [] end) ++
  (if rpc_transport rpc then [Release RpcTransport] else []) ++
  (if rpc_thread rpc then exit_thread else []).

(** What stopping finds: whether the context of the engine's stop and those of the shutdown
    can be allocated, the persists that are in flight, and the threads. *)
Record stop_answers := StopAnswers {
  so_stop_ctx : bool;
  so_shutdown_ctx : bool;
  so_event : bool;
  so_inflight : nat → bool;
  so_io_thread : option nat;
  so_thread : option nat
}.

(** The callback of the engine's stop is [shutdown_complete]. *)
Definition stop_events (exit_code : Z) (calls : list engine_call) : list event :=
  calls ≫= λ c, match c with StopCallback => shutdown_complete exit_code | _ => [EngineStop c] end.

Definition do_shutdown (so : stop_answers) (exit_code : Z) (rpc : rpc_ctx) (ctx : engine_ctx) : engine_ctx * list event :=
  let tr := release_rpc rpc in
  let '(ctx, calls, later) := storage_engine_stop_async (so_stop_ctx so) true ctx in
  if later then
    let '(ctx, calls', _) := storage_engine_stop_async_shards_done (so_inflight so) (so_io_thread so) (so_thread so) true ctx in
    (ctx, tr ++ stop_events exit_code (calls ++ calls'))
  else (ctx, tr ++ stop_events exit_code calls).

(** The request, and the shutdown it leads to once the event runs. *)
Definition storage_server_request_shutdown (so : stop_answers) (rpc : rpc_ctx) (exit_code : Z) (ctx : engine_ctx)
    : engine_ctx * list event :=
  if negb (so_shutdown_ctx so) then (ctx, [AppStop (-1)])
  else if negb (so_event so) then (ctx, [Acquire ShutdownCtx; AppStop (-1)])
  else let '(ctx, tr) := do_shutdown so exit_code rpc ctx in (ctx, Acquire ShutdownCtx :: tr).

(** The callback of [spdk_app_start]. *)
Definition storage_server_on_app_start {J : JsonLib} {C : CpuSets} {E : SegmentEnv} (env : init_env) (a : rpc_answers)
    (so : stop_answers) (args : engine_args) (ctx : engine_ctx) : option (engine_ctx * list event) :=
  '(rc, c, ctx, calls) ← storage_engine_init env args ctx;
  let tr := EngineStart <$> calls in
  if decide (rc ≠ 0) then Some (ctx, tr ++ [AppStop (-1)])
  else if force_mkfs args then Some (ctx, tr ++ [AppStop 0])
  else '(rc, rpc, tr') ← storage_server_create_rpc a c;
       if decide (rc ≠ 0) then
         let '(ctx, tr'') := storage_server_request_shutdown so rpc (-1) ctx in
         Some (ctx, tr ++ tr' ++ tr'')
       else Some (ctx, tr ++ tr').

(** ** Logging and [main] *)

Inductive engine_log_sink_mode := ENGINE_LOG_SINK_CONSOLE | ENGINE_LOG_SINK_FILE | ENGINE_LOG_SINK_BOTH.

Definition map_log_sink_mode (mode_str : bytes) : option engine_log_sink_mode :=
  if decide (strcmp mode_str (cs "console") = Eq) then Some ENGINE_LOG_SINK_CONSOLE
  else if decide (strcmp mode_str (cs "file") = Eq) then Some ENGINE_LOG_SINK_FILE
  else if decide (strcmp mode_str (cs "both") = Eq) then Some ENGINE_LOG_SINK_BOTH
  else None.

(** The reactor mask [main] asks SPDK for: the one given or the derived one. *)
Inductive reactor_mask {C : CpuSets} := MaskGiven (mask : bytes) | MaskAuto (cores : cpuset).

(** The exit code of [main], and what it started SPDK with if it did: the log sink, the
    SPDK configuration file and the reactor mask. [spdk_app_start] gives the exit code of
    a run. *)
Definition main {J : JsonLib} {C : CpuSets} (files : bytes → file) (allocs : allocations)
    (engine_log_init : engine_log_sink_mode → bytes → Z → Z) (engine_log_install_crash_handlers : Z)
    (spdk_app_start : bytes → reactor_mask → config → Z) (argv : list bytes)
    : Z * option (engine_log_sink_mode * bytes * reactor_mask) :=
  let '(prc, args) := storage_engine_parse_argv argv in
  if decide (prc ≠ 0) then (if decide (prc < 0) then 0 else prc, None) else
  let '(rc, c) := load_config files allocs (config_file args) in
  if decide (rc ≠ 0) then (1, None) else
  match map_log_sink_mode (log_mode (c_log c)) with
  | None => (1, None)
  | Some sink =>
      if decide (engine_log_init sink (log_file_path (c_log c)) (log_default_level (c_log c)) ≠ 0) then (1, None)
      else if decide (engine_log_install_crash_handlers ≠ 0) then (1, None)
      else
        let mask := match core_mask args with Some m => MaskGiven m | None => MaskAuto (auto_core_mask c) end in
        (spdk_app_start (spdk_json_config_file c) mask c, Some (sink, spdk_json_config_file c, mask))
  end.

(** ** The client *)

Record client_answers := ClientAnswers {
  ca_calloc : bool;
  ca_strdup : bool;
  ca_rpc_client : bool;
  ca_transport : bool;
  ca_add_endpoint : Z
}.

Definition free_host (strdup_ok : bool) : list event := if strdup_ok then [Release ClientHost] else [].

Definition storage_client_create (a : client_answers) (host : bytes) (port : Z)
    : option storage_client * list event :=
  if negb (ca_calloc a) then (None, [])
  else let tr := [Acquire ClientBlock] ++ (if ca_strdup a then [Acquire ClientHost] else []) in
  if negb (ca_rpc_client a) then (None, tr ++ free_host (ca_strdup a) ++ [Release ClientBlock])
  else let tr := tr ++ [Acquire ClientRpc] in
  if negb (ca_transport a) then (None, tr ++ [Release ClientRpc] ++ free_host (ca_strdup a) ++ [Release ClientBlock])
  else let tr := tr ++ [Acquire ClientTransport] in
  if decide (ca_add_endpoint a < 0) then
    (None, tr ++ [Release ClientTransport; Release ClientRpc] ++ free_host (ca_strdup a) ++ [Release ClientBlock])
  else (Some (StorageClient (ca_add_endpoint a) false host port), tr).

(** [strdup_ok]: whether the host is there to be freed. *)
Definition storage_client_destroy (strdup_ok : bool) : list event :=
  [Release ClientRpc] ++ free_host strdup_ok ++ [Release ClientBlock].

(** ** Lemmas *)

Lemma hold_app chs1 chs2 rs : hold (chs1 ++ chs2) rs = hold chs1 rs ≫= hold chs2.
Proof. revert rs. induction chs1 as [|[[] r] chs1 IH]; intros rs; simpl; try case_decide; done. Qed.
Lemma held_app tr1 tr2 rs : held (tr1 ++ tr2) rs = held tr1 rs ≫= held tr2.
Proof. unfold held. by rewrite bind_app, hold_app. Qed.

Lemma register_all_held reg ops ok tr rs : register_all reg ops = (ok, tr) → held tr rs = Some rs.
Proof.
  revert ok tr. induction ops as [|op ops IH]; intros ok tr; simpl; [by intros [= <- <-]|].
  case_decide; [by intros [= <- <-]|]. destruct (register_all reg ops) as [ok' tr'] eqn:Hr.
  intros [= <- <-]. unfold held. simpl. by eapply IH.
Qed.

Lemma register_all_ok reg ops tr : register_all reg ops = (true, tr) → tr = Register <$> ops.
Proof.
  revert tr. induction ops as [|op ops IH]; intros tr; simpl; [by intros [= <-]|].
  case_decide; [done|]. destruct (register_all reg ops) as [ok' tr'] eqn:Hr.
  intros [= -> <-]. simpl. f_equal. by apply IH.
Qed.

(** What a start acquires on top of the server and its RPC handle is what destroying the
    server releases. *)
Lemma start_destroy_held reg sd rc0 port rc srv tr :
  storage_server_start reg sd rc0 (StorageServer false 0) port = (rc, srv, tr) →
  held (tr ++ storage_server_destroy srv) [SrvNrpc; SrvBlock; RpcTransport; RpcThread] = Some [RpcTransport; RpcThread] ∧
  (rc = 0 → tr = (Register <$> rpc_opcodes) ++ (if sd then [Acquire SrvHost] else []) ++ [Listen port]).
Proof.
  unfold storage_server_start. destruct (register_all _ _) as [[] tr0] eqn:Hr; simpl; intros [= <- <- <-].
  - rewrite !held_app. erewrite register_all_held by done. apply register_all_ok in Hr as ->.
    split; [|done]. by destruct sd.
  - rewrite !held_app. erewrite register_all_held by done. by split.
Qed.

(** ** Theorems *)

(** Starting the RPC server; [rpc_server_balanced] below says it in words. *)
Lemma create_rpc_held {J : JsonLib} a (c : config) rc rpc tr :
  storage_server_create_rpc a c = Some (rc, rpc, tr) →
  (rc ≠ 0 → rpc = RpcCtx None false false ∧ held tr [] = Some []) ∧
  (rc = 0 → held (tr ++ release_rpc rpc) [] = Some [] ∧
    (0 < rpc_port (c_rpc c) →
       ∃ tr1 tr2, tr = tr1 ++ (Register <$> rpc_opcodes) ++ tr2 ∧ Listen (u16 (rpc_port (c_rpc c))) ∈ tr2)).
Proof.
  unfold storage_server_create_rpc. case_decide; [intros [= <- <- <-]; split; [done|]; intros _; split; [done|lia]|].
  assert (∀ tr', held tr' [] = Some [] → Some (-1, RpcCtx None false false, tr') = Some (rc, rpc, tr) →
    (rc ≠ 0 → rpc = RpcCtx None false false ∧ held tr [] = Some []) ∧
    (rc = 0 → held (tr ++ release_rpc rpc) [] = Some [] ∧
      (0 < rpc_port (c_rpc c) →
         ∃ tr1 tr2, tr = tr1 ++ (Register <$> rpc_opcodes) ++ tr2 ∧ Listen (u16 (rpc_port (c_rpc c))) ∈ tr2))) as Hfail.
  { intros tr' Htr' [= <- <- <-]. by split. }
  destruct (ra_cpuset a); simpl; [|done]. destruct (ra_thread a); simpl; [|by apply Hfail].
  destruct (ra_transport a); simpl; [|by apply Hfail].
  unfold storage_server_create. destruct (ra_calloc a); simpl; [|by apply Hfail].
  destruct (ra_nrpc a); simpl; [|by apply Hfail].
  destruct (storage_server_start _ _ _ _ _) as [[rc' srv] tr'] eqn:Hs.
  apply start_destroy_held in Hs as [Hheld Htr].
  case_decide as Hrc.
  - apply Hfail.
    transitivity (held ((tr' ++ storage_server_destroy srv) ++ [Release RpcTransport; Release RpcThread])
      [SrvNrpc; SrvBlock; RpcTransport; RpcThread]); [rewrite <-(app_assoc tr'); reflexivity|].
    by rewrite held_app, Hheld.
  - rewrite Htr by done. intros [= <- <- <-]. split; [done|]. intros _. split.
    + rewrite <-app_assoc. rewrite Htr in Hheld by done. revert Hheld. by destruct (ra_strdup a), srv as [[] ?].
    + intros _. eexists [_; _; _; _; _; _], _. simpl. split; [reflexivity|]. set_solver.
Qed.

(** Starting the RPC server balances its resources whatever fails: a start that fails has
    released everything it acquired, once and nothing else, and hands out an empty context; one
    that succeeds has registered the eight operations in order and listens on the low 16 bits of
    the configured port, and shutting it down releases everything. *)
Theorem rpc_server_balanced {J : JsonLib} a (c : config) rc rpc tr :
  storage_server_create_rpc a c = Some (rc, rpc, tr) →
  (rc ≠ 0 → rpc = RpcCtx None false false ∧ held tr [] = Some []) ∧
  (rc = 0 → held (tr ++ release_rpc rpc) [] = Some [] ∧
    (0 < rpc_port (c_rpc c) →
       ∃ tr1 tr2, tr = tr1 ++ (Register <$> rpc_opcodes) ++ tr2 ∧ Listen (u16 (rpc_port (c_rpc c))) ∈ tr2)).
Proof. apply create_rpc_held. Qed.

(** The process is not told to stop. *)
Definition no_app_stop (tr : list event) : Prop := Forall (λ e, if e is AppStop _ then False else True) tr.

Lemma no_app_stop_app tr1 tr2 : no_app_stop (tr1 ++ tr2) ↔ no_app_stop tr1 ∧ no_app_stop tr2.
Proof. apply Forall_app. Qed.

Lemma no_app_stop_starts calls : no_app_stop (EngineStart <$> calls).
Proof. by apply Forall_fmap, Forall_true. Qed.
Lemma no_app_stop_stops calls : no_app_stop (EngineStop <$> calls).
Proof. by apply Forall_fmap, Forall_true. Qed.

(** The engine's calls count with what they do to the device. *)
Lemma held_starts calls tr rs :
  held ((EngineStart <$> calls) ++ tr) rs = hold (device_changes (init_actions calls)) rs ≫= held tr.
Proof.
  rewrite held_app. f_equal. unfold held. f_equal. induction calls as [|c calls IH]; [done|].
  change (init_actions (c :: calls)) with (init_actions ([c] ++ calls)). rewrite init_actions_app.
  unfold device_changes at 1. rewrite omap_app. rewrite fmap_cons, bind_cons, IH. done.
Qed.
Lemma held_stops calls tr rs :
  held ((EngineStop <$> calls) ++ tr) rs = hold (device_changes (stop_actions calls)) rs ≫= held tr.
Proof.
  rewrite held_app. f_equal. unfold held. f_equal. induction calls as [|c calls IH]; [done|].
  change (stop_actions (c :: calls)) with (stop_actions ([c] ++ calls)). unfold stop_actions. rewrite bind_app.
  unfold device_changes at 1. rewrite omap_app. rewrite fmap_cons, bind_cons, IH. done.
Qed.

(** An open device that is given back. *)
Lemma held_given_back io_thread cur ch desc rs : DeviceDesc desc ∈ rs →
  hold (device_changes (device_given_back io_thread cur ch desc)) rs =
  Some (if cur is Some _ then filter (λ x, x ≠ DeviceDesc desc) rs else rs).
Proof.
  intros Hd. unfold device_given_back, device_changes. rewrite omap_app.
  assert (omap (λ act, match act with
      | BdevOpened d => Some (true, DeviceDesc d) | BdevClosed d => Some (false, DeviceDesc d) | ChannelPut _ => None end)
    (match ch with
     | Some ch => if decide (is_Some io_thread ∧ is_Some cur ∧ io_thread ≠ cur) then [] else [ChannelPut ch]
     | None => [] end) = []) as -> by (destruct ch; [case_decide|]; done).
  destruct cur; simpl; [|done]. by rewrite decide_True.
Qed.

(** Events of the RPC server: they neither stop the process nor touch the engine, and the
    shutdown context is not theirs. *)
Definition rpc_event (e : event) : Prop :=
  match e with
  | AppStop _ | EngineStart _ | EngineStop _ => False
  | Acquire r | Release r => match r with DeviceDesc _ | ShutdownCtx => False | _ => True end
  | _ => True
  end.

Lemma rpc_no_app_stop tr : Forall rpc_event tr → no_app_stop tr.
Proof. intros H. eapply Forall_impl; [exact H|]. by intros []. Qed.

(** Resources that the RPC server does not touch stay. *)
Lemma rpc_held_frame tr fr1 rs fr2 rs' :
  Forall rpc_event tr → Forall (λ r, match r with DeviceDesc _ | ShutdownCtx => True | _ => False end) (fr1 ++ fr2) →
  (fr1 = [] ∨ Forall (λ e, if e is Acquire _ then False else True) tr) →
  held tr rs = Some rs' → held tr (fr1 ++ rs ++ fr2) = Some (fr1 ++ rs' ++ fr2).
Proof.
  intros Htr Hfr Hrel. revert rs. unfold held. induction tr as [|e tr IH]; intros rs; [by intros [= ->]|].
  apply Forall_cons in Htr as [He Htr].
  assert (fr1 = [] ∨ Forall (λ e, if e is Acquire _ then False else True) tr) as Hrel'
    by (destruct Hrel as [|[_ ?]%Forall_cons]; auto).
  assert (∀ r, match r with DeviceDesc _ | ShutdownCtx => False | _ => True end → r ∉ fr1 ∧ r ∉ fr2) as Hout.
  { intros r Hr. rewrite Forall_app, !Forall_forall in Hfr. split; intros Hin; [apply (proj1 Hfr) in Hin|apply (proj2 Hfr) in Hin]; by destruct r. }
  specialize (IH Htr Hrel').
  destruct e as [r|r| | | | | |]; simpl in *; try done; try (by apply IH); destruct (Hout r He) as [Ho1 Ho2].
  - destruct Hrel as [->|[[] _]%Forall_cons]. simpl in *. case_decide as Hr; [done|].
    rewrite decide_False by (rewrite elem_of_app; tauto). apply (IH (r :: rs)).
  - case_decide as Hr; [|done]. rewrite decide_True by (rewrite !elem_of_app; tauto). rewrite !filter_app.
    assert (∀ fr : list resource, r ∉ fr → filter (λ x, x ≠ r) fr = fr) as Hkeep.
    { intros fr. induction fr as [|x fr IHfr]; [done|]. intros [Hx Hf]%not_elem_of_cons.
      rewrite filter_cons_True by congruence. by rewrite IHfr. }
    rewrite (Hkeep fr1), (Hkeep fr2) by done. apply IH.
Qed.

(** With the device open. *)
Lemma rpc_held_more tr rs rs' d : Forall rpc_event tr → held tr rs = Some rs' →
  held tr (rs ++ [DeviceDesc d]) = Some (rs' ++ [DeviceDesc d]).
Proof. intros Htr Hh. apply (rpc_held_frame tr [] rs [DeviceDesc d] rs'); [done|by repeat constructor|by left|done]. Qed.
Lemma rpc_held_device tr rs d : Forall rpc_event tr → held tr [] = Some rs → held tr [DeviceDesc d] = Some (rs ++ [DeviceDesc d]).
Proof. apply (rpc_held_more tr []). Qed.

(** The RPC server never holds the shutdown context. *)
Lemma rpc_held_no_ctx tr rs rs' : Forall rpc_event tr → held tr rs = Some rs' → ShutdownCtx ∉ rs → ShutdownCtx ∉ rs'.
Proof.
  intros Htr. revert rs. unfold held. induction Htr as [|e tr He Htr IH]; intros rs; [by intros [= ->]|].
  destruct e as [r|r| | | | | |]; simpl in *; try done; try (by apply IH); (case_decide; [|done]) || (case_decide; [done|]); intros Hh Hn;
    (eapply IH; [exact Hh|]).
  - rewrite not_elem_of_cons. split; [by destruct r|done].
  - rewrite list_elem_of_filter. tauto.
Qed.

Lemma register_rpc_events reg ops : Forall rpc_event (register_all reg ops).2.
Proof.
  induction ops as [|op ops IH]; simpl; [constructor|]. case_decide; [constructor|].
  destruct (register_all reg ops). by constructor.
Qed.

Lemma start_rpc_events reg sd l srv port : Forall rpc_event (storage_server_start reg sd l srv port).2.
Proof.
  unfold storage_server_start. pose proof (register_rpc_events reg rpc_opcodes) as H.
  destruct (register_all reg rpc_opcodes) as [[] tr]; simpl in *; [|done].
  rewrite !Forall_app. split_and!; [done|destruct sd; by repeat constructor|by repeat constructor].
Qed.

Lemma create_rpc_events {J : JsonLib} a (c : config) rc rpc tr :
  storage_server_create_rpc a c = Some (rc, rpc, tr) → Forall rpc_event tr.
Proof.
  unfold storage_server_create_rpc, storage_server_create. case_decide; [intros [= <- <- <-]; constructor|].
  destruct (ra_cpuset a), (ra_thread a), (ra_transport a), (ra_calloc a), (ra_nrpc a); simpl; try done;
    try (intros [= <- <- <-]; by repeat constructor).
  pose proof (start_rpc_events (ra_register a) (ra_strdup a) (ra_listen a) (StorageServer false 0) (u16 (rpc_port (c_rpc c)))) as Hs.
  destruct (storage_server_start _ _ _ _ _) as [[rc' srv] tr']. simpl in Hs.
  case_decide; intros [= <- <- <-]; do 6 (apply Forall_cons; split; [done|]); apply Forall_app; split; try done.
  - destruct (srv_host srv); by repeat constructor.
  - by repeat constructor.
Qed.

Lemma release_rpc_events rpc : Forall rpc_event (release_rpc rpc) ∧
  Forall (λ e, if e is Acquire _ then False else True) (release_rpc rpc).
Proof.
  unfold release_rpc, storage_server_destroy, exit_thread.
  destruct (rpc_srv rpc) as [[[] ?]|], (rpc_transport rpc), (rpc_thread rpc); split; by repeat constructor.
Qed.

Lemma stop_events_last exit_code calls : StopCallback ∉ calls →
  stop_events exit_code (calls ++ [StopCallback]) = (EngineStop <$> calls) ++ shutdown_complete exit_code.
Proof.
  induction calls as [|c calls IH]; [done|]. intros [Hc Hcalls]%not_elem_of_cons.
  transitivity ((match c with StopCallback => shutdown_complete exit_code | _ => [EngineStop c] end) ++
    stop_events exit_code (calls ++ [StopCallback])); [done|]. rewrite IH by done. by destruct c.
Qed.

(** A shutdown of an engine with its device open: the RPC server is released and the shutdown
    completes once at the end; in between the engine is stopped if its context could be
    allocated. *)
Lemma do_shutdown_events so exit_code rpc ctx desc : g_bdev_desc (e_bdev ctx) = Some desc →
  do_shutdown so exit_code rpc ctx =
  if so_stop_ctx so then
    (stopped_ctx ctx, release_rpc rpc ++
      (EngineStop <$> engine_closed ShardManagerCloseAsync (so_io_thread so) (so_thread so) ctx desc) ++ shutdown_complete exit_code)
  else (ctx, release_rpc rpc ++ shutdown_complete exit_code).
Proof.
  intros Hd. unfold do_shutdown. destruct (so_stop_ctx so); [|done].
  destruct (stop_async_closes (so_inflight so) (so_io_thread so) (so_thread so) ctx desc Hd) as (ctx1 & c1 & c2 & n & -> & -> & ->).
  rewrite stop_events_last; [done|]. unfold engine_closed. destruct (obj_manager ctx), (has_core_mask ctx); set_solver.
Qed.

(** What is held after a shutdown that finds its contexts, from resources that the RPC server
    releases and the device. *)
Lemma shutdown_held so exit_code rpc rs ctx desc : g_bdev_desc (e_bdev ctx) = Some desc →
  so_shutdown_ctx so = true → so_event so = true → so_stop_ctx so = true →
  ShutdownCtx ∉ rs → held (release_rpc rpc) rs = Some [] →
  held (storage_server_request_shutdown so rpc exit_code ctx).2 (rs ++ [DeviceDesc desc]) =
    Some (if so_thread so is Some _ then [] else [DeviceDesc desc]).
Proof.
  intros Hd H1 H2 H3 Hctx Hrel. unfold storage_server_request_shutdown. rewrite H1, H2. cbn [negb].
  rewrite (do_shutdown_events so exit_code rpc ctx desc Hd), H3. cbn [snd].
  change (Acquire ShutdownCtx :: ?tr) with ([Acquire ShutdownCtx] ++ tr). rewrite held_app.
  assert (held [Acquire ShutdownCtx] (rs ++ [DeviceDesc desc]) = Some ([ShutdownCtx] ++ rs ++ [DeviceDesc desc])) as ->.
  { unfold held. simpl. rewrite decide_False; [done|]. rewrite elem_of_app, list_elem_of_singleton. naive_solver. }
  cbn [mbind option_bind]. rewrite held_app. destruct (release_rpc_events rpc) as [Hev Hrels].
  rewrite (rpc_held_frame _ [ShutdownCtx] rs [DeviceDesc desc] []) by (done || by repeat constructor || by right).
  cbn [mbind option_bind app]. rewrite held_stops, engine_closed_actions by done.
  rewrite held_given_back by set_solver. cbn [mbind option_bind]. destruct (so_thread so); unfold held; simpl.
  - rewrite (filter_cons_True _ ShutdownCtx), (filter_cons_False _ (DeviceDesc desc)) by (done || auto). done.
  - done.
Qed.

(** The four ways in which the start of the server process ends. *)
Inductive start_outcome {J : JsonLib} {C : CpuSets} {E : SegmentEnv} (env : init_env) (a : rpc_answers) (so : stop_answers)
    (args : engine_args) (ctx ctx' : engine_ctx) (tr : list event) : Prop :=
  (** It serves: the device is open and what is held besides it is what the RPC server releases;
      a shutdown at any time later, when its contexts are found, gives back everything. *)
  | StartServes c calls rpc tr' :
      storage_engine_init env args ctx = Some (0, c, ctx', calls) → force_mkfs args = false →
      storage_server_create_rpc a c = Some (0, rpc, tr') → tr = (EngineStart <$> calls) ++ tr' → no_app_stop tr →
      held (tr ++ release_rpc rpc) [] = Some [DeviceDesc (ba_desc (ie_bdev env))] →
      (∀ so' exit_code, so_shutdown_ctx so' = true → so_event so' = true → so_stop_ctx so' = true → is_Some (so_thread so') →
         held (tr ++ (storage_server_request_shutdown so' rpc exit_code ctx').2) [] = Some []) →
      start_outcome env a so args ctx ctx' tr
  (** The engine fails, and the process is told to stop with -1: nothing is held when it fails
      before the device is open; after that the device and whatever else was started is left as
      it is. *)
  | StartFails c calls :
      storage_engine_init env args ctx = Some (-1, c, ctx', calls) → tr = (EngineStart <$> calls) ++ [AppStop (-1)] →
      (length calls ≤ 2)%nat ∧ held tr [] = Some [] ∨
      (∃ rest, calls = opened_calls env ++ rest) ∧ held tr [] = Some [DeviceDesc (ba_desc (ie_bdev env))] →
      start_outcome env a so args ctx ctx' tr
  (** The volume is formatted, the engine stopped again, the device closed if there is a thread
      to close it on, and the process told to stop with 0. *)
  | StartFormats c zeroed :
      force_mkfs args = true →
      storage_engine_init env args ctx = Some (0, c, ctx', opened_calls env ++ [CallMkfs zeroed;
        CallStop (engine_closed ShardManagerClose (ie_io_thread env) (ie_thread env) ctx (ba_desc (ie_bdev env)))]) →
      tr = (EngineStart <$> opened_calls env ++ [CallMkfs zeroed;
        CallStop (engine_closed ShardManagerClose (ie_io_thread env) (ie_thread env) ctx (ba_desc (ie_bdev env)))]) ++ [AppStop 0] →
      held tr [] = Some (if ie_thread env is Some _ then [] else [DeviceDesc (ba_desc (ie_bdev env))]) →
      start_outcome env a so args ctx ctx' tr
  (** The RPC server fails, having given back what it took, and the process is told to stop
      with -1: before that the object manager, the shards, the allocator and the device are
      closed if the three allocations of a shutdown succeed; if one fails the engine is left as
      it is, and if it is the event the shutdown context is lost. *)
  | StartWithoutRpc c ctx1 calls m rc tr' tr'' :
      storage_engine_init env args ctx = Some (0, c, ctx1, calls) → force_mkfs args = false → obj_manager ctx1 = Some m →
      storage_server_create_rpc a c = Some (rc, RpcCtx None false false, tr') → rc ≠ 0 → no_app_stop (tr' ++ tr'') →
      tr = (EngineStart <$> calls) ++ tr' ++ tr'' ++ [AppStop (-1)] →
      (let device := DeviceDesc (ba_desc (ie_bdev env)) in
       if so_shutdown_ctx so then
         if so_event so then
           if so_stop_ctx so then
             obj_manager ctx' = None ∧ g_bdev_desc (e_bdev ctx') = None ∧
             tr'' = [Acquire ShutdownCtx] ++
               (EngineStop <$> [ObjManagerClose m; ShardManagerCloseAsync; AllocatorClose; SegmentReleaseBdev;
                  BdevCalls (device_given_back (so_io_thread so) (so_thread so) (g_io_channel (e_bdev ctx)) (ba_desc (ie_bdev env)))] ++
                  (if has_core_mask ctx then [FreeCoreMask] else [])) ++ [Release ShutdownCtx] ∧
             held tr [] = Some (if so_thread so is Some _ then [] else [device])
           else ctx' = ctx1 ∧ tr'' = [Acquire ShutdownCtx; Release ShutdownCtx] ∧ held tr [] = Some [device]
         else ctx' = ctx1 ∧ tr'' = [Acquire ShutdownCtx] ∧ held tr [] = Some [ShutdownCtx; device]
       else ctx' = ctx1 ∧ tr'' = [] ∧ held tr [] = Some [device]) →
      start_outcome env a so args ctx ctx' tr.

Section starts.
Context {J : JsonLib} {C : CpuSets} {E : SegmentEnv}.
Implicit Types (env : init_env) (c : config) (ctx : engine_ctx).

(** The events of a start that has opened the device. *)
Lemma opened_held env rest tr : init_actions rest = [] →
  held ((EngineStart <$> opened_calls env ++ rest) ++ tr) [] = held tr [DeviceDesc (ba_desc (ie_bdev env))].
Proof. intros Hrest. rewrite held_starts, init_actions_app, Hrest. reflexivity. Qed.

(** The device of a start that formatted. *)
Lemma formatted_held env ctx zeroed tr :
  held ((EngineStart <$> opened_calls env ++ [CallMkfs zeroed;
     CallStop (engine_closed ShardManagerClose (ie_io_thread env) (ie_thread env) ctx (ba_desc (ie_bdev env)))]) ++ tr) [] =
  held tr (if ie_thread env is Some _ then [] else [DeviceDesc (ba_desc (ie_bdev env))]).
Proof.
  set (d := ba_desc (ie_bdev env)). set (closed := engine_closed _ _ _ _ _).
  rewrite held_starts, init_actions_app. unfold device_changes at 1. rewrite omap_app, hold_app.
  change (hold (omap _ (init_actions (opened_calls env))) []) with (Some [DeviceDesc d]). cbn [mbind option_bind].
  assert (init_actions [CallMkfs zeroed; CallStop closed] =
    device_given_back (ie_io_thread env) (ie_thread env) (g_io_channel (e_bdev ctx)) d) as ->.
  { unfold init_actions. simpl. rewrite (right_id_L [] (++)). by apply engine_closed_actions. }
  pose proof (held_given_back (ie_io_thread env) (ie_thread env) (g_io_channel (e_bdev ctx)) d [DeviceDesc d] ltac:(set_solver)) as H.
  unfold device_changes in H. rewrite H. cbn [mbind option_bind]. destruct (ie_thread env); [|done].
  by rewrite filter_cons_False by auto.
Qed.

(** The RPC server started: everything is given back by a shutdown. *)
Lemma serving env a so args ctx c ctx1 rest rpc tr :
  let calls := opened_calls env ++ rest in
  storage_engine_init env args ctx = Some (0, c, ctx1, calls) → force_mkfs args = false → init_actions rest = [] →
  g_bdev_desc (e_bdev ctx1) = Some (ba_desc (ie_bdev env)) → storage_server_create_rpc a c = Some (0, rpc, tr) →
  start_outcome env a so args ctx ctx1 ((EngineStart <$> calls) ++ tr).
Proof.
  intros calls Hinit Hmkfs Hrest Hd Hrpc. destruct (create_rpc_held a c 0 rpc tr Hrpc) as [_ Hgood].
  destruct (Hgood eq_refl) as [Hall _]. rewrite held_app in Hall. apply bind_Some in Hall as (rs & Hrs & Hrel).
  pose proof (create_rpc_events a c 0 rpc tr Hrpc) as Hev. destruct (release_rpc_events rpc) as [Hev' _].
  assert (∀ tr', held ((EngineStart <$> calls) ++ tr ++ tr') [] = held tr' (rs ++ [DeviceDesc (ba_desc (ie_bdev env))])) as Hheld.
  { intros tr'. unfold calls. rewrite opened_held by done. rewrite held_app.
    by rewrite (rpc_held_device tr rs). }
  eapply StartServes; [exact Hinit|exact Hmkfs|exact Hrpc|done|by apply no_app_stop_app; split; [apply no_app_stop_starts|apply rpc_no_app_stop]|..].
  - rewrite <-(assoc_L (++)), Hheld.
    by rewrite (rpc_held_more _ rs []).
  - intros so' exit_code H1 H2 H3 [t Ht]. rewrite <-(assoc_L (++)), Hheld.
    rewrite (shutdown_held _ _ _ rs ctx1 _ Hd H1 H2 H3) by (done || by eapply rpc_held_no_ctx; [exact Hev|exact Hrs|set_solver]).
    by rewrite Ht.
Qed.

(** The RPC server failed. *)
Lemma without_rpc env a so args ctx c ctx1 rest rc tr m :
  let calls := opened_calls env ++ rest in
  storage_engine_init env args ctx = Some (0, c, ctx1, calls) → force_mkfs args = false → init_actions rest = [] →
  obj_manager ctx1 = Some m → g_bdev_desc (e_bdev ctx1) = Some (ba_desc (ie_bdev env)) →
  g_io_channel (e_bdev ctx1) = g_io_channel (e_bdev ctx) → has_core_mask ctx1 = has_core_mask ctx →
  storage_server_create_rpc a c = Some (rc, RpcCtx None false false, tr) → rc ≠ 0 → held tr [] = Some [] →
  let '(ctx', tr') := storage_server_request_shutdown so (RpcCtx None false false) (-1) ctx1 in
  start_outcome env a so args ctx ctx' ((EngineStart <$> calls) ++ tr ++ tr').
Proof.
  intros calls Hinit Hmkfs Hrest Hm Hd Hch Hmask Hrpc Hrc Htr. pose proof (create_rpc_events a c _ _ tr Hrpc) as Hev.
  assert (∀ tr', held ((EngineStart <$> calls) ++ tr ++ tr') [] = held tr' [DeviceDesc (ba_desc (ie_bdev env))]) as Hheld.
  { intros tr'. unfold calls. rewrite opened_held by done. rewrite held_app.
    by rewrite (rpc_held_device tr []). }
  pose proof (rpc_no_app_stop tr Hev) as Hns.
  pose proof (shutdown_held so (-1) (RpcCtx None false false) [] ctx1 _ Hd) as Hdown. revert Hdown.
  unfold storage_server_request_shutdown.
  destruct (so_shutdown_ctx so) eqn:H1; cbn [negb].
  2: { intros _. eapply (StartWithoutRpc _ _ _ _ _ _ _ c ctx1 calls m rc tr []); try done; [by rewrite (right_id_L [] (++))|].
    rewrite H1. split_and!; [done..|]. by rewrite Hheld. }
  destruct (so_event so) eqn:H2; cbn [negb].
  2: { intros _. eapply (StartWithoutRpc _ _ _ _ _ _ _ c ctx1 calls m rc tr [Acquire ShutdownCtx]); try done;
      [apply no_app_stop_app; split; [done|by repeat constructor]|]. rewrite H1, H2. split_and!; [done..|]. by rewrite Hheld. }
  rewrite (do_shutdown_events so (-1) _ ctx1 _ Hd). destruct (so_stop_ctx so) eqn:H3; cbn [app release_rpc rpc_srv rpc_transport rpc_thread].
  2: { intros _. eapply (StartWithoutRpc _ _ _ _ _ _ _ c ctx1 calls m rc tr [Acquire ShutdownCtx; Release ShutdownCtx]); try done;
      [apply no_app_stop_app; split; [done|by repeat constructor]|]. rewrite H1, H2, H3. split_and!; [done..|]. by rewrite Hheld. }
  intros Hdown. specialize (Hdown eq_refl eq_refl eq_refl ltac:(set_solver) eq_refl). cbn [app snd] in Hdown.
  set (closed := engine_closed _ _ _ _ _) in *.
  eapply (StartWithoutRpc _ _ _ _ _ _ _ c ctx1 calls m rc tr ([Acquire ShutdownCtx] ++ (EngineStop <$> closed) ++ [Release ShutdownCtx])); try done.
  - rewrite !no_app_stop_app. split_and!; [done|by repeat constructor|apply no_app_stop_stops|by repeat constructor].
  - by rewrite <-!(assoc_L (++)).
  - rewrite H1, H2, H3. split_and!; [done..| |by rewrite Hheld].
    unfold closed, engine_closed. by rewrite Hm, Hch, Hmask.
Qed.

(** Only the missing check of the CPU set makes the start of the RPC server undefined. *)
Lemma create_rpc_undefined a c : storage_server_create_rpc a c = None → 0 < rpc_port (c_rpc c) ∧ ra_cpuset a = false.
Proof.
  unfold storage_server_create_rpc. case_decide; [done|]. destruct (ra_cpuset a); simpl; [|intros _; split; [lia|done]].
  destruct (ra_thread a); simpl; [|done]. destruct (ra_transport a); simpl; [|done].
  destruct (storage_server_create _ _) as [[srv|] tr]; [|done]. destruct (storage_server_start _ _ _ _ _) as [[rc srv'] tr'].
  by case_decide.
Qed.
End starts.


(** The cores SPDK runs; [parse] is its reading of a mask. *)
Definition mask_cores {C : CpuSets} (parse : bytes → cpuset) (mask : reactor_mask) : cpuset :=
  match mask with MaskGiven m => parse m | MaskAuto cores => cores end.

(** C35. Without [-m] the server never serves an existing volume: whatever the configuration,
    the device and the volume are, [main] starts SPDK on the cores it derives from the
    configuration, and the start ends with the process told to stop with -1 before the RPC
    server is touched. *)
Theorem server_needs_mask {J : JsonLib} {C : CpuSets} {E : SegmentEnv} `{!JsonLaws J, !CpuSetLaws C}
    engine_log_init crash app argv rc sink json mask parse env a so args ctx ctx' tr :
  main (ie_files env) (ie_allocs env) engine_log_init crash app argv = (rc, Some (sink, json, mask)) →
  storage_engine_parse_argv argv = (0, args) → core_mask args = None → force_mkfs args = false →
  ie_reactor_mask env = mask_cores parse mask →
  storage_server_on_app_start env a so args ctx = Some (ctx', tr) →
  ∃ calls, tr = (EngineStart <$> calls) ++ [AppStop (-1)].
Proof.
  intros Hmain Hparse Hmask Hmkfs Hcores. unfold main in Hmain. rewrite Hparse, Hmask in Hmain. simpl in Hmain.
  destruct (load_config _ _ _) as [rc0 c0] eqn:Hload. case_decide; [done|].
  destruct (map_log_sink_mode _); [|done]. do 2 (case_decide; [done|]). injection Hmain as _ _ _ <-. simpl in Hcores.
  unfold storage_server_on_app_start. destruct (storage_engine_init_cases env args ctx) as [(c & ctx1 & calls & -> & _)|(c & g & Hok & _ & ->)].
  { simpl. intros [= _ <-]. by exists calls. }
  rewrite Hmkfs. destruct Hok as [Hsh _ _ Hload' _ _ _ _ _]. rewrite Hload in Hload'. simpl in Hload'.
  destruct (init_mount_rejected env c (opened_ctx g ctx) (opened_calls env)) as (ctx1 & calls & ->).
  { rewrite Hcores, <-(auto_core_mask_shard c c0) by done. by apply auto_core_mask_rejected. }
  simpl. intros [= _ <-]. by exists calls.
Qed.

(** Creating a client fails cleanly, and destroying one gives back all but the transport,
    which the RPC library was given. *)
Lemma client_balanced a host port :
  match storage_client_create a host port with
  | (None, tr) => held tr [] = Some []
  | (Some _, tr) => held (tr ++ storage_client_destroy (ca_strdup a)) [] = Some [ClientTransport]
  end.
Proof.
  unfold storage_client_create, free_host, storage_client_destroy.
  destruct (ca_calloc a), (ca_strdup a), (ca_rpc_client a), (ca_transport a); simpl; try done; by case_decide.
Qed.

Definition example_rpc_answers (listen_rc : Z) : rpc_answers :=
  RpcAnswers true true true true true (λ _, 0) true listen_rc.

Lemma rpc_server_balanced_witness :
  ∃ rpc tr, storage_server_create_rpc (example_rpc_answers 0) shipped = Some (0, rpc, tr) ∧
    held (tr ++ release_rpc rpc) [] = Some [].
Proof.
  eexists _, _. split; [reflexivity|].
  apply (rpc_server_balanced (example_rpc_answers 0) shipped _ _ _ eq_refl). reflexivity.
Defined.

Definition all_stop_answers : stop_answers := StopAnswers true true true (λ _, false) None (Some 1%nat).

#[local] Existing Instance example_segment_env.

(** A start whose RPC server cannot listen: everything is given back. *)
Lemma example_start_undone : ∃ ctx' tr,
  storage_server_on_app_start (example_init_env 81920 4) (example_rpc_answers (-1)) all_stop_answers (example_args false) example_ctx =
    Some (ctx', tr) ∧ held tr [] = Some [] ∧ g_bdev_desc (e_bdev ctx') = None.
Proof. unfold storage_server_on_app_start. rewrite (example_init 4) by lia. eexists _, _. split; [reflexivity|]. by vm_compute. Qed.

Lemma server_needs_mask_witness :
  ∃ calls, snd <$> storage_server_on_app_start
      (InitEnv shipped_files all_allocated (example_answers 81920) example_layout (MountEnv 64 (λ a, (0, a)) (λ _, Some 4))
        (auto_core_mask shipped) 0 0 0 (inr 3%nat) None (Some 1%nat))
      (example_rpc_answers 0) all_stop_answers (example_args false) example_ctx = Some ((EngineStart <$> calls) ++ [AppStop (-1)]).
Proof.
  set (env := InitEnv _ _ _ _ _ _ _ _ _ _ _ _).
  assert (∃ ctx' tr, storage_server_on_app_start env (example_rpc_answers 0) all_stop_answers (example_args false) example_ctx
    = Some (ctx', tr)) as (ctx' & tr & Hrun) by (eexists _, _; reflexivity).
  rewrite Hrun. simpl.
  destruct (server_needs_mask (JsonLaws0 := tree_laws shipped_config) (λ _ _ _, 0) 0 (λ _ _ _, 0) [cs "-c"; cs "src/engine/conf/config.json"]
    0 ENGINE_LOG_SINK_CONSOLE (cs "src/engine/conf/hdd.json") (MaskAuto (auto_core_mask shipped)) (λ _, cpuset_zero)
    env (example_rpc_answers 0) all_stop_answers (example_args false) example_ctx ctx' tr) as [calls ->];
    [reflexivity|reflexivity|reflexivity|reflexivity|reflexivity|exact Hrun|].
  by exists calls.
Defined.
