(* ===== verification/EtcdBackend.v ===== *)
(** * The key-value store behind the cluster code ([test/mocks/mock_etcd.c])

    [EtcdBackend] is what [src/cluster/etcd_client.c] calls, and [EtcdLaws] what the cluster
    code relies on: a store of keys with a value and a lease, from which revoking a lease
    removes its keys.  The program is built against the mock, which is the instance at the
    end of the file.  The mock names three variables that do not exist ([exists] for
    [is_present], [mod_rev] and [create_rev] for its own parameters); it is read with the
    names that do. *)
From S2P Require Import Prelude.
From stdpp Require Import options.

Class EtcdBackend := {
  etcd_state : Type;
  etcd_lease_grant_op : Z → etcd_state → Z * etcd_state;
  etcd_lease_revoke_op : Z → etcd_state → etcd_state;
  etcd_put_op : bytes → bytes → Z → etcd_state → Z * etcd_state;
  (** with the capacity of the caller's buffer *)
  etcd_get_op : bytes → nat → etcd_state → option bytes;
  etcd_delete_op : bytes → etcd_state → Z * etcd_state;
  (** with the number of keys the caller has room for; -1 is [None] *)
  etcd_list_op : bytes → nat → etcd_state → list bytes
}.

Definition ETCD_MAX_KEY : nat := Z.to_nat 1024.
Definition ETCD_MAX_VALUE : nat := Z.to_nat 4096.

(** The store as a partial function from keys to values and leases. *)
Class EtcdLaws (B : EtcdBackend) := {
  etcd_lookup : etcd_state → bytes → option (bytes * Z);
  etcd_wf : etcd_state → Prop;
  (** a lease that was granted, or none *)
  etcd_lease_known : etcd_state → Z → Prop;
  (** the counter of leases has not come round *)
  etcd_leases_left : etcd_state → Prop;

  etcd_lease_grant_spec ttl s l s' :
    etcd_wf s → etcd_leases_left s → etcd_lease_grant_op ttl s = (l, s') →
    etcd_wf s' ∧ etcd_lease_known s' l ∧ (∀ k, etcd_lookup s' k = etcd_lookup s k) ∧
    (∀ k v, etcd_lookup s k ≠ Some (v, l));
  etcd_lease_revoke_spec l s :
    etcd_wf s → etcd_wf (etcd_lease_revoke_op l s) ∧
    ∀ k, etcd_lookup (etcd_lease_revoke_op l s) k =
      match etcd_lookup s k with
      | Some (v, l') => if decide (l' = l) then None else Some (v, l')
      | None => None
      end;
  etcd_put_spec k v l s rc s' :
    etcd_wf s → etcd_lease_known s l → length k < ETCD_MAX_KEY → length v < ETCD_MAX_VALUE →
    etcd_put_op k v l s = (rc, s') →
    etcd_wf s' ∧ (∀ l', etcd_lease_known s l' → etcd_lease_known s' l') ∧
    (rc = 0%Z ∧ (∀ k', etcd_lookup s' k' = if decide (k' = k) then Some (v, l) else etcd_lookup s k') ∨
     rc ≠ 0%Z ∧ s' = s ∧ etcd_lookup s k = None);
  etcd_get_spec k n s :
    etcd_wf s → ETCD_MAX_VALUE ≤ n → etcd_get_op k n s = fst <$> etcd_lookup s k;
  etcd_delete_spec k s rc s' :
    etcd_wf s → etcd_delete_op k s = (rc, s') →
    etcd_wf s' ∧ (rc = 0%Z ↔ is_Some (etcd_lookup s k)) ∧
    ∀ k', etcd_lookup s' k' = if decide (k' = k) then None else etcd_lookup s k';
  etcd_list_spec prefix n s :
    etcd_wf s → length (etcd_list_op prefix n s) ≤ n ∧ NoDup (etcd_list_op prefix n s) ∧
    (∀ k, k ∈ etcd_list_op prefix n s → is_Some (etcd_lookup s k) ∧ prefix `prefix_of` k) ∧
    (length (etcd_list_op prefix n s) < n → ∀ k, is_Some (etcd_lookup s k) → prefix `prefix_of` k →
       k ∈ etcd_list_op prefix n s)
}.

(** ** The mock *)

Record mock_etcd_key_value := MockKv {
  kv_key : bytes;
  kv_value : bytes;
  kv_lease_id : Z;
  kv_modified_revision : Z;
  kv_create_revision : Z;
  kv_is_present : bool
}.

(** [g_store] up to [g_store_count], and the two counters. *)
Record mock_etcd := MockEtcd {
  g_store : list mock_etcd_key_value;
  g_revision : Z;
  g_next_lease_id : Z
}.

Definition MOCK_ETCD_MAX_KEYS : nat := Z.to_nat 256.

Definition mock_etcd_init : mock_etcd := MockEtcd [] 0 1.

Definition mock_etcd_lease_grant (ttl : Z) (s : mock_etcd) : Z * mock_etcd :=
  (g_next_lease_id s, MockEtcd (g_store s) (g_revision s) (u64 (g_next_lease_id s + 1))).

Definition clear_present (kv : mock_etcd_key_value) : mock_etcd_key_value :=
  MockKv (kv_key kv) (kv_value kv) (kv_lease_id kv) (kv_modified_revision kv) (kv_create_revision kv) false.

Definition mock_etcd_lease_revoke (lease_id : Z) (s : mock_etcd) : mock_etcd :=
  MockEtcd ((λ kv, if decide (kv_lease_id kv = lease_id ∧ kv_is_present kv = true) then clear_present kv else kv)
              <$> g_store s) (g_revision s) (g_next_lease_id s).

(** The entry a key is found in. *)
Definition is_key (k : bytes) (kv : mock_etcd_key_value) : Prop :=
  kv_is_present kv = true ∧ strcmp (kv_key kv) k = Eq.
#[export] Instance is_key_dec k kv : Decision (is_key k kv).
Proof. unfold is_key. apply _. Defined.

Definition mock_etcd_put (key value : bytes) (lease_id : Z) (s : mock_etcd) : Z * mock_etcd :=
  let value := strncpy value (ETCD_MAX_VALUE - 1) in
  let revision := u64 (g_revision s + 1) in
  match list_find (is_key key) (g_store s) with
  | Some (i, kv) =>
      (0%Z, MockEtcd (<[i := MockKv (kv_key kv) value lease_id revision (kv_create_revision kv) true]> (g_store s))
              revision (g_next_lease_id s))
  | None =>
      if decide (MOCK_ETCD_MAX_KEYS ≤ length (g_store s)) then ((-1)%Z, s)
      else (0%Z, MockEtcd (g_store s ++ [MockKv (strncpy key (ETCD_MAX_KEY - 1)) value lease_id revision revision true])
                   revision (g_next_lease_id s))
  end.

Definition mock_etcd_get (key : bytes) (value_capacity : nat) (s : mock_etcd) : option bytes :=
  (λ '(_, kv), strncpy (kv_value kv) (value_capacity - 1)) <$> list_find (is_key key) (g_store s).

Definition mock_etcd_delete (key : bytes) (s : mock_etcd) : Z * mock_etcd :=
  match list_find (is_key key) (g_store s) with
  | Some (i, kv) => (0%Z, MockEtcd (<[i := clear_present kv]> (g_store s)) (g_revision s) (g_next_lease_id s))
  | None => ((-1)%Z, s)
  end.

Definition has_prefix (prefix : bytes) (kv : mock_etcd_key_value) : Prop :=
  kv_is_present kv = true ∧ strncmp (kv_key kv) prefix (length prefix) = Eq.
#[export] Instance has_prefix_dec prefix kv : Decision (has_prefix prefix kv).
Proof. unfold has_prefix. apply _. Defined.

Definition mock_etcd_list (prefix : bytes) (max_keys : nat) (s : mock_etcd) : list bytes :=
  take max_keys ((λ kv, strncpy (kv_key kv) (ETCD_MAX_KEY - 1)) <$> filter (has_prefix prefix) (g_store s)).

#[export] Instance mock_backend : EtcdBackend := {|
  etcd_state := mock_etcd;
  etcd_lease_grant_op := mock_etcd_lease_grant;
  etcd_lease_revoke_op := mock_etcd_lease_revoke;
  etcd_put_op := mock_etcd_put;
  etcd_get_op := mock_etcd_get;
  etcd_delete_op := mock_etcd_delete;
  etcd_list_op := mock_etcd_list
|}.

(** ** The mock satisfies the laws *)

Definition mock_lookup (s : mock_etcd) (k : bytes) : option (bytes * Z) :=
  (λ '(_, kv), (kv_value kv, kv_lease_id kv)) <$> list_find (is_key k) (g_store s).

Record mock_wf (s : mock_etcd) : Prop := MockWf {
  mw_unique i j kv kv' : g_store s !! i = Some kv → g_store s !! j = Some kv' →
    kv_is_present kv = true → kv_is_present kv' = true → kv_key kv = kv_key kv' → i = j;
  mw_sizes kv : kv ∈ g_store s → length (kv_key kv) < ETCD_MAX_KEY ∧ length (kv_value kv) < ETCD_MAX_VALUE;
  mw_leases kv : kv ∈ g_store s → (kv_lease_id kv < g_next_lease_id s)%Z;
  mw_next : fits 64 (g_next_lease_id s)
}.

Lemma is_key_iff k kv : is_key k kv ↔ kv_is_present kv = true ∧ kv_key kv = k.
Proof. unfold is_key. by rewrite strcmp_eq. Qed.

(** Under the invariant the first entry found is the only one. *)
Lemma find_key_Some s k i kv :
  mock_wf s → list_find (is_key k) (g_store s) = Some (i, kv) ↔
  g_store s !! i = Some kv ∧ kv_is_present kv = true ∧ kv_key kv = k.
Proof.
  intros Hwf. rewrite list_find_Some, is_key_iff. split; [naive_solver|].
  intros (Hi & Hp & Hk). split_and!; [done..|]. intros j kv' Hj Hlt [Hp' Hk']%is_key_iff.
  assert (j = i); [eapply (mw_unique s Hwf); eauto; congruence|lia].
Qed.

Lemma find_key_None s k :
  list_find (is_key k) (g_store s) = None ↔ ∀ kv, kv ∈ g_store s → kv_is_present kv = true → kv_key kv ≠ k.
Proof. rewrite list_find_None, Forall_forall. setoid_rewrite is_key_iff. naive_solver. Qed.

Lemma mock_lookup_Some s k v l :
  mock_wf s → mock_lookup s k = Some (v, l) ↔
  ∃ i kv, g_store s !! i = Some kv ∧ kv_is_present kv = true ∧ kv_key kv = k ∧ kv_value kv = v ∧ kv_lease_id kv = l.
Proof.
  intros Hwf. unfold mock_lookup. rewrite fmap_Some. split.
  - intros [[i kv] [Hf [= -> ->]]]. apply find_key_Some in Hf; [|done]. naive_solver.
  - intros (i & kv & ? & ? & ? & <- & <-). exists (i, kv). split; [|done]. by apply find_key_Some.
Qed.

Lemma mock_lookup_None s k :
  mock_lookup s k = None ↔ ∀ kv, kv ∈ g_store s → kv_is_present kv = true → kv_key kv ≠ k.
Proof. unfold mock_lookup. by rewrite fmap_None, find_key_None. Qed.

(** Changing an entry without changing the place or key of what is present keeps the
    invariant. *)
Lemma mock_wf_insert s i kv kv' r :
  mock_wf s → g_store s !! i = Some kv →
  kv_key kv' = kv_key kv → (kv_is_present kv' = true → kv_is_present kv = true) →
  length (kv_value kv') < ETCD_MAX_VALUE → (kv_lease_id kv' < g_next_lease_id s)%Z →
  mock_wf (MockEtcd (<[i := kv']> (g_store s)) r (g_next_lease_id s)).
Proof.
  intros [Hu Hs Hl Hn] Hi Hk Hp Hv Hle. split; simpl; [| | |done].
  - intros j1 j2 kv1 kv2. rewrite !list_lookup_insert. repeat case_decide; intros; simplify_eq; try done;
      destruct_and?; subst; eauto using eq_trans, eq_sym.
  - intros x [->|?]%elem_of_insert_inv; [|by apply Hs]. rewrite Hk. split; [|done].
    by eapply Hs, list_elem_of_lookup_2.
  - intros x [->|?]%elem_of_insert_inv; [done|by apply Hl].
Qed.

Lemma mock_lookup_insert s i kv kv' r k :
  mock_wf s → mock_wf (MockEtcd (<[i := kv']> (g_store s)) r (g_next_lease_id s)) →
  g_store s !! i = Some kv → kv_key kv' = kv_key kv → kv_is_present kv = true →
  mock_lookup (MockEtcd (<[i := kv']> (g_store s)) r (g_next_lease_id s)) k =
  if decide (k = kv_key kv) then if kv_is_present kv' then Some (kv_value kv', kv_lease_id kv') else None
  else mock_lookup s k.
Proof.
  intros Hwf Hwf' Hi Hk Hp. apply option_eq. intros [v l]. rewrite mock_lookup_Some by done. simpl.
  pose proof (lookup_lt_Some _ _ _ Hi). case_decide as Hkey.
  - subst k. split.
    + intros (j & x & Hj & Hpx & Hkx & <- & <-). rewrite list_lookup_insert in Hj.
      case_decide as Hij; [simplify_eq; by rewrite Hpx|].
      assert (i = j) as ->; [by eapply (mw_unique s Hwf)|]. lia.
    + destruct (kv_is_present kv') eqn:Hp'; [|done]. intros [= <- <-]. exists i, kv'.
      by rewrite list_lookup_insert_eq.
  - rewrite mock_lookup_Some by done. split; intros (j & x & Hj & ? & ? & ? & ?); exists j, x; split_and!; try done.
    + rewrite list_lookup_insert in Hj. case_decide; [|done]. by simplify_eq.
    + rewrite list_lookup_insert_ne; [done|]. intros <-. by simplify_eq.
Qed.

Lemma mock_wf_snoc s kv r :
  mock_wf s → (∀ x, x ∈ g_store s → kv_is_present x = true → kv_key x ≠ kv_key kv) →
  length (kv_key kv) < ETCD_MAX_KEY → length (kv_value kv) < ETCD_MAX_VALUE →
  (kv_lease_id kv < g_next_lease_id s)%Z →
  mock_wf (MockEtcd (g_store s ++ [kv]) r (g_next_lease_id s)).
Proof.
  intros [Hu Hs Hl Hn] Hnew Hk Hv Hle. split; simpl; [| | |done].
  - intros i j x y [Hi|[? Hi]]%lookup_app_Some [Hj|[? Hj]]%lookup_app_Some Hpx Hpy Hxy.
    + eauto.
    + apply list_lookup_singleton_Some in Hj as [? <-]. exfalso. eapply Hnew; eauto using list_elem_of_lookup_2.
    + apply list_lookup_singleton_Some in Hi as [? <-]. exfalso. eapply Hnew; eauto using list_elem_of_lookup_2.
    + apply list_lookup_singleton_Some in Hi as [? <-], Hj as [? <-]. lia.
  - intros x [?| ->%list_elem_of_singleton]%elem_of_app; [by apply Hs|done].
  - intros x [?| ->%list_elem_of_singleton]%elem_of_app; [by apply Hl|done].
Qed.

Lemma mock_lookup_snoc s kv r k :
  (∀ x, x ∈ g_store s → kv_is_present x = true → kv_key x ≠ kv_key kv) → kv_is_present kv = true →
  mock_lookup (MockEtcd (g_store s ++ [kv]) r (g_next_lease_id s)) k =
  if decide (k = kv_key kv) then Some (kv_value kv, kv_lease_id kv) else mock_lookup s k.
Proof.
  intros Hnew Hp. unfold mock_lookup. simpl.
  destruct (list_find (is_key k) (g_store s)) as [[i x]|] eqn:Hf.
  - rewrite (list_find_app_l _ _ _ _ _ Hf). simpl. rewrite decide_False; [done|]. intros ->.
    apply list_find_Some in Hf as (Hx%list_elem_of_lookup_2 & [Hpx Hkx]%is_key_iff & _). by apply (Hnew x).
  - rewrite list_find_app_r by done. simpl. case_decide as Hk; case_decide as Hk'; try done.
    + apply is_key_iff in Hk as [_ ?]. naive_solver.
    + destruct Hk. apply is_key_iff. naive_solver.
Qed.

Lemma mock_put_spec k v l s rc s' :
  mock_wf s → (l < g_next_lease_id s)%Z → length k < ETCD_MAX_KEY → length v < ETCD_MAX_VALUE →
  mock_etcd_put k v l s = (rc, s') →
  mock_wf s' ∧ (∀ l', (l' < g_next_lease_id s)%Z → (l' < g_next_lease_id s')%Z) ∧
  (rc = 0%Z ∧ (∀ k', mock_lookup s' k' = if decide (k' = k) then Some (v, l) else mock_lookup s k') ∨
   rc ≠ 0%Z ∧ s' = s ∧ mock_lookup s k = None).
Proof.
  intros Hwf Hl Hk Hv. unfold mock_etcd_put.
  assert (strncpy v (ETCD_MAX_VALUE - 1) = v) as -> by (apply strncpy_short; lia).
  assert (strncpy k (ETCD_MAX_KEY - 1) = k) as -> by (apply strncpy_short; lia).
  destruct (list_find (is_key k) (g_store s)) as [[i kv]|] eqn:Hf.
  - apply find_key_Some in Hf as (Hi & Hp & Hkey); [|done]. intros [= <- <-].
    assert (mock_wf (MockEtcd (<[i := MockKv (kv_key kv) v l (u64 (g_revision s + 1)) (kv_create_revision kv) true]>
      (g_store s)) (u64 (g_revision s + 1)) (g_next_lease_id s))) as Hwf' by (by eapply mock_wf_insert).
    split_and!; [done..|]. left. split; [done|]. intros k'.
    rewrite (mock_lookup_insert s i kv) by done. by rewrite Hkey.
  - assert (mock_lookup s k = None) as Hnone by (unfold mock_lookup; by rewrite Hf).
    pose proof (proj1 (find_key_None _ _) Hf) as Hnew.
    case_decide; intros [= <- <-]; [by split_and!; auto|].
    split_and!; [by apply mock_wf_snoc|done|]. left. split; [done|]. intros k'. by rewrite mock_lookup_snoc.
Qed.

Lemma mock_grant_spec ttl s l s' :
  mock_wf s → (g_next_lease_id s < 2 ^ 64 - 1)%Z → mock_etcd_lease_grant ttl s = (l, s') →
  mock_wf s' ∧ (l < g_next_lease_id s')%Z ∧ (∀ k, mock_lookup s' k = mock_lookup s k) ∧
  (∀ k v, mock_lookup s k ≠ Some (v, l)).
Proof.
  intros Hwf Hleft. destruct Hwf as [Hu Hs Hl [Hn0 Hn]] eqn:E. clear E. intros [= <- <-]. simpl.
  assert (u64 (g_next_lease_id s + 1) = g_next_lease_id s + 1)%Z as Hu64 by (apply wrap_small; unfold fits; lia).
  split_and!; [|simpl; lia|done|].
  - split; simpl; [done|done| |apply wrap_fits; lia]. intros kv ?%Hl. lia.
  - intros k v (i & kv & Hi & _ & _ & _ & Hle)%mock_lookup_Some; [|done].
    apply list_elem_of_lookup_2, Hl in Hi. lia.
Qed.

Lemma mock_revoke_spec l s :
  mock_wf s → mock_wf (mock_etcd_lease_revoke l s) ∧
  ∀ k, mock_lookup (mock_etcd_lease_revoke l s) k =
    match mock_lookup s k with
    | Some (v, l') => if decide (l' = l) then None else Some (v, l')
    | None => None
    end.
Proof.
  intros Hwf. set (f := λ kv, if decide (kv_lease_id kv = l ∧ kv_is_present kv = true) then clear_present kv else kv).
  assert (∀ kv, kv_key (f kv) = kv_key kv ∧ kv_value (f kv) = kv_value kv ∧ kv_lease_id (f kv) = kv_lease_id kv ∧
    (kv_is_present (f kv) = true ↔ kv_is_present kv = true ∧ kv_lease_id kv ≠ l)) as Hf.
  { intros kv. unfold f. case_decide; simpl; naive_solver. }
  assert (mock_wf (mock_etcd_lease_revoke l s)) as Hwf'.
  { destruct Hwf as [Hu Hs Hl Hn]. split; simpl; [| | |done].
    - intros i j x y. rewrite !list_lookup_fmap. intros (x' & Hx & ->)%fmap_Some (y' & Hy & ->)%fmap_Some.
      fold (f x') (f y'). destruct (Hf x') as (-> & _ & _ & ->), (Hf y') as (-> & _ & _ & ->). intros [? _] [? _]. eauto.
    - intros x (x' & -> & Hx)%list_elem_of_fmap. fold (f x'). destruct (Hf x') as (-> & -> & _). by apply Hs.
    - intros x (x' & -> & Hx)%list_elem_of_fmap. fold (f x'). destruct (Hf x') as (_ & _ & -> & _). by apply Hl. }
  split; [done|]. intros k. apply option_eq. intros [v l']. rewrite mock_lookup_Some by done.
  change (g_store (mock_etcd_lease_revoke l s)) with (f <$> g_store s).
  assert ((∃ i kv, (f <$> g_store s) !! i = Some kv ∧ kv_is_present kv = true ∧ kv_key kv = k ∧ kv_value kv = v ∧ kv_lease_id kv = l')
    ↔ mock_lookup s k = Some (v, l') ∧ l' ≠ l) as ->.
  { rewrite mock_lookup_Some by done. setoid_rewrite list_lookup_fmap. split.
    - intros (i & kv & (x & Hx & ->)%fmap_Some & Hp & Hrest). destruct (Hf x) as (Hk & Hv & Hle & Hpr).
      rewrite Hk, Hv, Hle in Hrest. apply Hpr in Hp as [? ?]. split; [|naive_solver]. exists i, x. naive_solver.
    - intros [(i & x & Hx & Hp & Hk & Hv & Hle) Hne]. exists i, (f x). rewrite Hx.
      destruct (Hf x) as (-> & -> & -> & ->). naive_solver. }
  destruct (mock_lookup s k) as [[v0 l0]|]; [|naive_solver]. case_decide; naive_solver.
Qed.

Lemma mock_get_spec k n s :
  mock_wf s → ETCD_MAX_VALUE ≤ n → mock_etcd_get k n s = fst <$> mock_lookup s k.
Proof.
  intros Hwf Hn. unfold mock_etcd_get, mock_lookup.
  destruct (list_find (is_key k) (g_store s)) as [[i kv]|] eqn:Hf; [|done]. simpl. f_equal.
  apply find_key_Some in Hf as (Hi & _); [|done]. apply list_elem_of_lookup_2, (mw_sizes s Hwf) in Hi as [_ ?].
  apply strncpy_short. lia.
Qed.

Lemma mock_delete_spec k s rc s' :
  mock_wf s → mock_etcd_delete k s = (rc, s') →
  mock_wf s' ∧ (rc = 0%Z ↔ is_Some (mock_lookup s k)) ∧
  ∀ k', mock_lookup s' k' = if decide (k' = k) then None else mock_lookup s k'.
Proof.
  intros Hwf. unfold mock_etcd_delete.
  destruct (list_find (is_key k) (g_store s)) as [[i kv]|] eqn:Hf; intros [= <- <-].
  - assert (is_Some (mock_lookup s k)) by (unfold mock_lookup; rewrite Hf; eauto).
    apply find_key_Some in Hf as (Hi & Hp & Hkey); [|done].
    pose proof (list_elem_of_lookup_2 _ _ _ Hi) as Hin.
    assert (mock_wf (MockEtcd (<[i := clear_present kv]> (g_store s)) (g_revision s) (g_next_lease_id s))) as Hwf'.
    { eapply mock_wf_insert; eauto; [exact (proj2 (mw_sizes s Hwf kv Hin))|exact (mw_leases s Hwf kv Hin)]. }
    split_and!; [done|by split|]. intros k'. rewrite (mock_lookup_insert s i kv) by done. by rewrite Hkey.
  - assert (mock_lookup s k = None) as Hnone by (unfold mock_lookup; by rewrite Hf).
    split_and!; [done| |].
    + rewrite Hnone. split; [done|by intros [? ?]].
    + intros k'. by case_decide; subst.
Qed.

Lemma has_prefix_iff prefix kv :
  has_prefix prefix kv ↔ kv_is_present kv = true ∧ prefix `prefix_of` kv_key kv.
Proof.
  unfold has_prefix, strncmp. rewrite strcmp_eq, (take_ge prefix) by done. split.
  - intros [? Hk]. split; [done|]. exists (drop (length prefix) (kv_key kv)). rewrite <-Hk at 1. by rewrite take_drop.
  - intros [? [rest ->]]. split; [done|]. by rewrite take_app_length.
Qed.

Lemma mock_list_spec prefix n s :
  mock_wf s → length (mock_etcd_list prefix n s) ≤ n ∧ NoDup (mock_etcd_list prefix n s) ∧
  (∀ k, k ∈ mock_etcd_list prefix n s → is_Some (mock_lookup s k) ∧ prefix `prefix_of` k) ∧
  (length (mock_etcd_list prefix n s) < n → ∀ k, is_Some (mock_lookup s k) → prefix `prefix_of` k →
     k ∈ mock_etcd_list prefix n s).
Proof.
  intros Hwf. unfold mock_etcd_list.
  assert ((λ kv, strncpy (kv_key kv) (ETCD_MAX_KEY - 1)) <$> filter (has_prefix prefix) (g_store s)
    = kv_key <$> filter (has_prefix prefix) (g_store s)) as ->.
  { apply list_fmap_ext. intros i kv Hi%list_elem_of_lookup_2. apply list_elem_of_filter in Hi as [_ Hi].
    apply (mw_sizes s Hwf) in Hi as [? _]. apply strncpy_short. lia. }
  set (keys := kv_key <$> filter (has_prefix prefix) (g_store s)).
  assert (NoDup keys) as Hnd.
  { subst keys. pose proof (mw_unique s Hwf) as Hu. revert Hu. clear. induction (g_store s) as [|kv l IH]; intros Hu; [constructor|].
    rewrite filter_cons. case_decide as Hp; [|apply IH; intros i j; by intros; assert (S i = S j); [eapply Hu; eauto|lia]].
    rewrite fmap_cons, NoDup_cons. apply has_prefix_iff in Hp as [Hp _]. split.
    - intros (x & Hk & [Hx Hin]%list_elem_of_filter)%list_elem_of_fmap. apply has_prefix_iff in Hx as [Hx _].
      apply list_elem_of_lookup in Hin as [j Hj]. assert (0 = S j); [by eapply Hu|done].
    - apply IH. intros i j; by intros; assert (S i = S j); [eapply Hu; eauto|lia]. }
  assert (∀ k, k ∈ keys ↔ is_Some (mock_lookup s k) ∧ prefix `prefix_of` k) as Hkeys.
  { intros k. subst keys. rewrite list_elem_of_fmap. setoid_rewrite list_elem_of_filter. setoid_rewrite has_prefix_iff. split.
    - intros (kv & -> & [Hp Hpre] & [i Hi]%list_elem_of_lookup). split; [|done].
      exists (kv_value kv, kv_lease_id kv). apply mock_lookup_Some; [done|]. eauto 10.
    - intros [[[v l] (i & kv & Hi & Hp & <- & _)%mock_lookup_Some] Hpre]; [|done]. exists kv.
      eauto using list_elem_of_lookup_2. }
  split_and!.
  - rewrite length_take. lia.
  - eapply sublist_NoDup; [exact Hnd|apply sublist_take].
  - intros k (i & Hi%list_elem_of_lookup_2 & _)%elem_of_take. by apply Hkeys.
  - rewrite length_take. intros Hlen k ??. rewrite take_ge by lia. by apply Hkeys.
Qed.

#[export] Program Instance mock_laws : EtcdLaws mock_backend := {|
  etcd_lookup := mock_lookup;
  etcd_wf := mock_wf;
  etcd_lease_known s l := (l < g_next_lease_id s)%Z;
  etcd_leases_left s := (g_next_lease_id s < 2 ^ 64 - 1)%Z;
  etcd_lease_grant_spec := mock_grant_spec;
  etcd_lease_revoke_spec := mock_revoke_spec;
  etcd_put_spec := mock_put_spec;
  etcd_get_spec := mock_get_spec;
  etcd_delete_spec := mock_delete_spec;
  etcd_list_spec := mock_list_spec
|}.

Lemma mock_init_wf : mock_wf mock_etcd_init.
Proof. split; simpl; [done| | |unfold fits; lia]; by intros ? ?%elem_of_nil. Qed.
