(* ===== verification/Cluster.v ===== *)
(** * Cluster membership and discovery ([src/cluster/])

    The client of the key-value store, a node's joining, heartbeat and leaving, and the
    discovery of services, over the interface of [EtcdBackend.v]; the strings and arrays
    the client hands out are blocks of an explicit memory.  Handles are not NULL: the
    early returns on NULL arguments are left out. *)
From S2P Require Import Prelude Memory Triples EtcdBackend.
From stdpp Require Import options.

Definition ETCD_DEFAULT_HOST : bytes := cs "127.0.0.1".
Definition ETCD_DEFAULT_PORT : Z := 2379.
Definition NODE_LEASE_TTL : Z := 10.
Definition ETCD_PREFIX_TOPOLOGY : bytes := cs "/lightfs/cluster/topology".
Definition ETCD_PREFIX_DISCOVERY : bytes := cs "/lightfs/cluster/discovery".

(** [snprintf] into a buffer of [cap] bytes. *)
Definition printed (cap : nat) (s : bytes) : bytes := (snprintf_s cap s).2.

(** ** The client ([etcd_client.c]) *)

Record etcd_client := EtcdClient { ec_host : bytes; ec_port : Z; ec_watch_running : bool }.
Record etcd_lease := EtcdLease { lease_id : Z; lease_ttl : Z }.

(** [etcd_key_value_response_t]; the revisions are never set. *)
Record etcd_key_value_response := KvResponse { r_key : option nat; r_value : option nat }.

(** A string or an array of responses. *)
Inductive cluster_cell :=
  | CellString (s : bytes)
  | CellResponses (rs : list etcd_key_value_response).

Definition etcd_client_create (calloc_ok : bool) (host : option bytes) (port : Z) : option etcd_client :=
  if calloc_ok
  then Some (EtcdClient (strncpy (default ETCD_DEFAULT_HOST host) (Z.to_nat 255))
               (if decide (port ≠ 0)%Z then port else ETCD_DEFAULT_PORT) false)
  else None.

Section client.
Context {B : EtcdBackend} {O : AllocOracle}.

Definition etcd_lease_grant (ttl : Z) (st : etcd_state) : Z * etcd_lease * etcd_state :=
  let '(id, st) := etcd_lease_grant_op ttl st in (0%Z, EtcdLease id ttl, st).
Definition etcd_lease_keepalive (lease_id : Z) : Z := 0%Z.
Definition etcd_lease_revoke (lease_id : Z) (st : etcd_state) : Z * etcd_state :=
  (0%Z, etcd_lease_revoke_op lease_id st).
Definition etcd_key_value_put (key value : bytes) (lease_id : Z) (st : etcd_state) : Z * etcd_state :=
  etcd_put_op key value lease_id st.
Definition etcd_key_value_delete (key : bytes) (st : etcd_state) : Z * etcd_state := etcd_delete_op key st.

Definition strdup (s : bytes) : M cluster_cell (option nat) := malloc (CellString s).

Definition etcd_key_value_get (key : bytes) (st : etcd_state) : M cluster_cell (Z * etcd_key_value_response) :=
  match etcd_get_op key ETCD_MAX_VALUE st with
  | Some value => k ← strdup key; v ← strdup value; mret (0%Z, KvResponse k v)
  | None => mret ((-1)%Z, KvResponse None None)
  end.

(** The responses for the keys of a listing. *)
Fixpoint list_responses (keys : list bytes) (st : etcd_state) : M cluster_cell (list etcd_key_value_response) :=
  match keys with
  | [] => mret []
  | key :: keys =>
      r ← match etcd_get_op key ETCD_MAX_VALUE st with
          | Some value => k ← strdup key; v ← strdup value; mret (KvResponse k v)
          | None => mret (KvResponse None None)
          end;
      rs ← list_responses keys st;
      mret (r :: rs)
  end.

(** The result, [*results] and [*count]. *)
Definition etcd_key_value_list (prefix : bytes) (st : etcd_state) : M cluster_cell (Z * option nat * nat) :=
  match etcd_list_op prefix (Z.to_nat 256) st with
  | [] => mret (0%Z, None, 0)
  | keys =>
      results ← malloc (CellResponses []);
      match results with
      | None => mret ((-1)%Z, None, 0)
      | Some p =>
          rs ← list_responses keys st;
          _ ← mstore p (CellResponses rs);
          mret (0%Z, Some p, length keys)
      end
  end.

Definition etcd_watch_prefix : Z := 0%Z.
Definition etcd_watch_cancel (c : etcd_client) : Z * etcd_client := (0%Z, EtcdClient (ec_host c) (ec_port c) false).

(** ** Nodes ([cluster_node.c]) *)

Inductive node_status := NODE_ACTIVE | NODE_DRAINING | NODE_DOWN.

Record cluster_node_config := NodeConfig {
  nc_node_id : Z;
  nc_datacenter_id : Z;
  nc_host : bytes;
  nc_gateway_port : Z;
  nc_meta_port : Z;
  nc_access_port : Z;
  nc_disk_count : Z;
  nc_total_disk_bytes : Z
}.

Record cluster_node_info := NodeInfo {
  ni_node_id : Z;
  ni_datacenter_id : Z;
  ni_host : bytes;
  ni_gateway_port : Z;
  ni_meta_port : Z;
  ni_access_port : Z;
  ni_status : node_status;
  ni_disk_count : Z;
  ni_total_disk_bytes : Z
}.

Record cluster_node := ClusterNode {
  cn_info : cluster_node_info;
  cn_lease : etcd_lease;
  cn_node_key : bytes
}.

Definition node_key (node_id : Z) : bytes := printed (Z.to_nat 1024) (ETCD_PREFIX_TOPOLOGY ++ cs "/node/" ++ fmt_u node_id).
Definition gateway_key (node_id : Z) : bytes :=
  printed (Z.to_nat 1024) (ETCD_PREFIX_DISCOVERY ++ cs "/gateways/node_" ++ fmt_u node_id).
Definition meta_key (node_id : Z) : bytes :=
  printed (Z.to_nat 1024) (ETCD_PREFIX_DISCOVERY ++ cs "/meta/node_" ++ fmt_u node_id).
Definition service_value (host : bytes) (port : Z) : bytes :=
  printed (Z.to_nat 256) (host ++ cs ":" ++ fmt_u port).

(** The double quote of C's string literals. *)
Definition quote : bytes := [Byte.x22].
Definition quoted (s : string) : bytes := quote ++ cs s ++ quote.

Definition node_json (c : cluster_node_config) : bytes :=
  printed (Z.to_nat 2048)
    (cs "{" ++ quoted "node_id" ++ cs ":" ++ fmt_u (nc_node_id c) ++ cs ","
     ++ quoted "datacenter_id" ++ cs ":" ++ fmt_u (nc_datacenter_id c) ++ cs ","
     ++ quoted "host" ++ cs ":" ++ quote ++ nc_host c ++ quote ++ cs ","
     ++ quoted "gateway_port" ++ cs ":" ++ fmt_u (nc_gateway_port c) ++ cs ","
     ++ quoted "meta_port" ++ cs ":" ++ fmt_u (nc_meta_port c) ++ cs ","
     ++ quoted "access_port" ++ cs ":" ++ fmt_u (nc_access_port c) ++ cs ","
     ++ quoted "disk_count" ++ cs ":" ++ fmt_u (nc_disk_count c) ++ cs ","
     ++ quoted "total_disk_bytes" ++ cs ":" ++ fmt_u (nc_total_disk_bytes c) ++ cs ","
     ++ quoted "status" ++ cs ":" ++ quoted "active" ++ cs "}").

Definition draining_json (node_id : Z) : bytes :=
  printed (Z.to_nat 2048)
    (cs "{" ++ quoted "node_id" ++ cs ":" ++ fmt_u node_id ++ cs ","
     ++ quoted "status" ++ cs ":" ++ quoted "draining" ++ cs "}").

(** The results of the puts of the two services are not looked at. *)
Definition cluster_node_join (calloc_ok : bool) (c : cluster_node_config) (st : etcd_state)
    : option cluster_node * etcd_state :=
  if negb calloc_ok then (None, st) else
  let info := NodeInfo (nc_node_id c) (nc_datacenter_id c) (strncpy (nc_host c) (Z.to_nat 256)) (nc_gateway_port c)
    (nc_meta_port c) (nc_access_port c) NODE_ACTIVE (nc_disk_count c) (nc_total_disk_bytes c) in
  let '(rc, lease, st) := etcd_lease_grant NODE_LEASE_TTL st in
  if decide (rc ≠ 0)%Z then (None, st) else
  let key := node_key (nc_node_id c) in
  let '(rc, st) := etcd_key_value_put key (node_json c) (lease_id lease) st in
  if decide (rc ≠ 0)%Z then let '(_, st) := etcd_lease_revoke (lease_id lease) st in (None, st) else
  let '(_, st) := etcd_key_value_put (gateway_key (nc_node_id c)) (service_value (nc_host c) (nc_gateway_port c)) (lease_id lease) st in
  let '(_, st) := etcd_key_value_put (meta_key (nc_node_id c)) (service_value (nc_host c) (nc_meta_port c)) (lease_id lease) st in
  (Some (ClusterNode info lease key), st).

Definition cluster_node_heartbeat (n : cluster_node) : Z := etcd_lease_keepalive (lease_id (cn_lease n)).

Definition cluster_node_leave (n : cluster_node) (st : etcd_state) : Z * cluster_node * etcd_state :=
  let i := cn_info n in
  let n := ClusterNode (NodeInfo (ni_node_id i) (ni_datacenter_id i) (ni_host i) (ni_gateway_port i) (ni_meta_port i)
    (ni_access_port i) NODE_DRAINING (ni_disk_count i) (ni_total_disk_bytes i)) (cn_lease n) (cn_node_key n) in
  let '(_, st) := etcd_key_value_put (cn_node_key n) (draining_json (ni_node_id i)) (lease_id (cn_lease n)) st in
  let '(rc, st) := etcd_lease_revoke (lease_id (cn_lease n)) st in
  (rc, n, st).

Definition cluster_node_get_info (n : cluster_node) : cluster_node_info := cn_info n.

(** ** Discovery ([cluster_discovery.c]) *)

Record service_endpoint := Endpoint { ep_node_id : Z; ep_host : bytes; ep_port : Z }.

Record cluster_shard_info := ShardInfo {
  si_shard_id : Z; si_owner : Z; si_status : node_status; si_key_min : bytes; si_key_max : bytes; si_parent : Z
}.

(** An array up to its count is a list. *)
Record service_discovery := Discovery {
  sd_gateways : list service_endpoint;
  sd_storage_engines : list service_endpoint;
  sd_meta_servers : list service_endpoint;
  sd_shards : list cluster_shard_info;
  sd_topology_callback : option nat
}.

Definition MAX_ENDPOINTS : nat := Z.to_nat 256.
Definition HOST_LENGTH : nat := Z.to_nat 256.

Definition load_string (p : nat) : M cluster_cell bytes :=
  c ← mload p; match c with CellString s => mret s | CellResponses _ => undefined end.

(** The loop over the responses from index [i] on, with the endpoints found so far. *)
Fixpoint read_endpoints (port : Z) (i : nat) (rs : list etcd_key_value_response) (eps : list service_endpoint)
    : M cluster_cell (list service_endpoint) :=
  match rs with
  | [] => mret eps
  | r :: rs =>
      if decide (MAX_ENDPOINTS ≤ length eps) then mret eps
      else match r_value r with
           | None => read_endpoints port (S i) rs eps
           | Some v =>
               s ← load_string v;
               _ ← mfree (r_key r);
               _ ← mfree (Some v);
               read_endpoints port (S i) rs (eps ++ [Endpoint (u32 (Z.of_nat i + 1)) (strncpy s HOST_LENGTH) port])
           end
  end.

(** One of the two listings, [None] when it failed. *)
Definition discover (prefix : bytes) (port : Z) (st : etcd_state) : M cluster_cell (list service_endpoint) :=
  '(rc, results, count) ← etcd_key_value_list prefix st;
  if decide (rc ≠ 0)%Z then mret []
  else match results with
       | None => mret []
       | Some p =>
           c ← mload p;
           match c with
           | CellString _ => undefined
           | CellResponses rs =>
               eps ← read_endpoints port 0 (take count rs) [];
               _ ← mfree (Some p);
               mret eps
           end
       end.

Definition GATEWAYS_PREFIX : bytes := ETCD_PREFIX_DISCOVERY ++ cs "/gateways/".
Definition META_PREFIX : bytes := ETCD_PREFIX_DISCOVERY ++ cs "/meta/".

Definition service_discovery_create (st : etcd_state) : M cluster_cell (option service_discovery) :=
  ok ← try_alloc;
  if negb ok then mret None
  else
    gateways ← discover GATEWAYS_PREFIX 8080 st;
    metas ← discover META_PREFIX 9090 st;
    mret (Some (Discovery gateways [] metas [] None)).

(** The first [max] of an array; a negative [max] makes the copy leave both arrays. *)
Definition copy_out {A} (l : list A) (max : Z) : option (Z * list A) :=
  let count := Z.min (Z.of_nat (length l)) max in
  if decide (count < 0)%Z then None else Some (count, take (Z.to_nat count) l).

Definition service_discovery_get_gateways (d : service_discovery) (max : Z) : option (Z * list service_endpoint) :=
  copy_out (sd_gateways d) max.
Definition service_discovery_get_storage_engines (d : service_discovery) (max : Z) : option (Z * list service_endpoint) :=
  copy_out (sd_storage_engines d) max.
Definition service_discovery_get_meta_servers (d : service_discovery) (max : Z) : option (Z * list service_endpoint) :=
  copy_out (sd_meta_servers d) max.
Definition service_discovery_get_shards (d : service_discovery) (max : Z) : option (Z * list cluster_shard_info) :=
  copy_out (sd_shards d) max.
Definition service_discovery_watch (d : service_discovery) (callback : nat) : Z * service_discovery :=
  (0%Z, Discovery (sd_gateways d) (sd_storage_engines d) (sd_meta_servers d) (sd_shards d) (Some callback)).
End client.

(** ** Configuration ([cluster_config.c]) *)

Record ec_policy_config := EcPolicyConfig {
  ep_data_k : Z; ep_parity_m : Z; ep_small_threshold : Z; ep_medium_threshold : Z
}.
Record bucket_config := BucketConfig {
  bkt_name : bytes; bkt_replication_mode : Z; bkt_ec_policy : ec_policy_config; bkt_lifecycle_enabled : Z
}.
Record cluster_config_manager := ConfigManager {
  cm_default_ec : ec_policy_config;
  cm_bucket_configs : list bucket_config;
  cm_watch_callback : option nat
}.

Definition cluster_config_create (calloc_ok : bool) : option cluster_config_manager :=
  if calloc_ok then Some (ConfigManager (EcPolicyConfig 10 4 (4 * 1024 * 1024) (64 * 1024 * 1024)) [] None) else None.
Definition cluster_config_get_ec_policy (m : cluster_config_manager) : ec_policy_config := cm_default_ec m.
Definition cluster_config_get_bucket (m : cluster_config_manager) (bucket : bytes) : option bucket_config :=
  snd <$> list_find (λ b, strcmp (bkt_name b) bucket = Eq) (cm_bucket_configs m).
Definition cluster_config_watch (m : cluster_config_manager) (callback : nat) : Z * cluster_config_manager :=
  (0%Z, ConfigManager (cm_default_ec m) (cm_bucket_configs m) (Some callback)).

(** ** The keys of a node *)

Definition node_keys (node_id : Z) : list bytes := [node_key node_id; gateway_key node_id; meta_key node_id].

Lemma printed_lt n s : 0 < n → length (printed n s) < n.
Proof. intros ?. unfold printed, snprintf_s. simpl. rewrite length_take. lia. Qed.

(** Strings that differ early are printed differently. *)
Lemma printed_ne n k s t : k < n → take k s ≠ take k t → printed n s ≠ printed n t.
Proof.
  unfold printed, snprintf_s. simpl. intros Hn Hne Heq. apply Hne.
  replace k with (k `min` (n - 1)) by lia. by rewrite <-!take_take, Heq.
Qed.

Lemma node_keys_NoDup node_id : NoDup (node_keys node_id).
Proof.
  unfold node_keys, node_key, gateway_key, meta_key.
  rewrite !NoDup_cons, !elem_of_cons. split_and!; [| |by intros ?%elem_of_nil|constructor];
    intros H; destruct_or?; try by apply elem_of_nil in H.
  all: revert H; first [apply (printed_ne _ 18); [lia|by vm_compute] | apply (printed_ne _ 28); [lia|by vm_compute]].
Qed.

Lemma node_json_short c : length (node_json c) < ETCD_MAX_VALUE.
Proof. etrans; [apply printed_lt; lia|]. unfold ETCD_MAX_VALUE. lia. Qed.
Lemma draining_json_short i : length (draining_json i) < ETCD_MAX_VALUE.
Proof. etrans; [apply printed_lt; lia|]. unfold ETCD_MAX_VALUE. lia. Qed.
Lemma service_value_short h p : length (service_value h p) < ETCD_MAX_VALUE.
Proof. etrans; [apply printed_lt; lia|]. unfold ETCD_MAX_VALUE. lia. Qed.
Lemma node_keys_short i k : k ∈ node_keys i → length k < ETCD_MAX_KEY.
Proof.
  unfold node_keys. rewrite !elem_of_cons. intros [->|[->|[->|[]%elem_of_nil]]]; apply printed_lt; unfold ETCD_MAX_KEY; lia.
Qed.

Section membership.
Context `{L : !EtcdLaws B}.
Implicit Types (st : etcd_state) (c : cluster_node_config) (n : cluster_node) (k v : bytes).

(** What a put of one of the program's own strings does. *)
Lemma put_spec k v l st rc st' :
  etcd_wf st → etcd_lease_known st l → length k < ETCD_MAX_KEY → length v < ETCD_MAX_VALUE →
  etcd_key_value_put k v l st = (rc, st') →
  etcd_wf st' ∧ etcd_lease_known st' l ∧ (∀ k', k' ≠ k → etcd_lookup st' k' = etcd_lookup st k') ∧
  (rc = 0%Z ∧ etcd_lookup st' k = Some (v, l) ∨ rc ≠ 0%Z ∧ etcd_lookup st' k = None ∧ st' = st).
Proof.
  intros Hwf Hl Hk Hv Hput. unfold etcd_key_value_put in Hput.
  eapply etcd_put_spec in Hput as (? & Hl' & [[? Hlook]|(? & -> & ?)]); [| |done..].
  - split_and!; auto.
    + intros k' ?. by rewrite Hlook, decide_False.
    + left. by rewrite Hlook, decide_True.
  - split_and!; auto.
Qed.

Definition node_of c (l : Z) : cluster_node :=
  ClusterNode (NodeInfo (nc_node_id c) (nc_datacenter_id c) (strncpy (nc_host c) (Z.to_nat 256)) (nc_gateway_port c)
    (nc_meta_port c) (nc_access_port c) NODE_ACTIVE (nc_disk_count c) (nc_total_disk_bytes c))
    (EtcdLease l NODE_LEASE_TTL) (node_key (nc_node_id c)).

(** Under a lease of its own a node that joined has its description, and its two services
    unless the store refused them; nothing else changes. *)
Definition joined c st n st' : Prop := ∃ l,
  n = node_of c l ∧ (∀ k v, etcd_lookup st k ≠ Some (v, l)) ∧ etcd_lease_known st' l ∧
  etcd_lookup st' (node_key (nc_node_id c)) = Some (node_json c, l) ∧
  (∀ k v, (k, v) ∈ [(gateway_key (nc_node_id c), service_value (nc_host c) (nc_gateway_port c));
                    (meta_key (nc_node_id c), service_value (nc_host c) (nc_meta_port c))] →
     etcd_lookup st' k = Some (v, l) ∨ etcd_lookup st' k = None) ∧
  (∀ k, k ∉ node_keys (nc_node_id c) → etcd_lookup st' k = etcd_lookup st k).

Lemma node_join_ok c st r st' :
  etcd_wf st → etcd_leases_left st → cluster_node_join true c st = (r, st') →
  etcd_wf st' ∧ match r with
  | Some n => joined c st n st'
  | None => ∀ k, etcd_lookup st' k = etcd_lookup st k
  end.
Proof.
  intros Hwf Hleft. unfold cluster_node_join, etcd_lease_grant. simpl.
  destruct (etcd_lease_grant_op NODE_LEASE_TTL st) as [l st1] eqn:Hg.
  apply etcd_lease_grant_spec in Hg as (Hwf1 & Hl1 & Hsame & Hfresh); [|done..]. simpl.
  pose proof (node_keys_NoDup (nc_node_id c)) as Hnd. pose proof (node_keys_short (nc_node_id c)) as Hshort.
  unfold node_keys in Hshort. set (kn := node_key _) in *. set (kg := gateway_key _) in *. set (km := meta_key _) in *.
  destruct (etcd_key_value_put kn _ l st1) as [rc st2] eqn:Hp.
  apply put_spec in Hp as (Hwf2 & Hl2 & Hne2 & Hcase);
    [|done|done|apply Hshort; set_solver|apply node_json_short].
  case_decide as Hrc.
  - destruct Hcase as [[? _]|(_ & _ & ->)]; [done|]. intros [= <- <-].
    destruct (etcd_lease_revoke_spec l st1 Hwf1) as [Hwf3 Hrev]. split; [done|].
    intros k. rewrite Hrev, Hsame. destruct (etcd_lookup st k) as [[v l']|] eqn:Hk; [|done].
    rewrite decide_False; [done|]. intros ->. by apply (Hfresh k v).
  - destruct Hcase as [[_ Hn2]|(? & _)]; [|done].
    destruct (etcd_key_value_put kg _ l st2) as [rcg st3] eqn:Hpg.
    apply put_spec in Hpg as (Hwf3 & Hl3 & Hne3 & Hcg);
      [|done|done|apply Hshort; set_solver|apply service_value_short].
    destruct (etcd_key_value_put km _ l st3) as [rcm st4] eqn:Hpm.
    apply put_spec in Hpm as (Hwf4 & Hl4 & Hne4 & Hcm);
      [|done|done|apply Hshort; set_solver|apply service_value_short].
    intros [= <- <-]. split; [done|]. exists l.
    unfold node_keys in Hnd. fold kn kg km in Hnd.
    apply NoDup_cons in Hnd as [Hn [Hg _]%NoDup_cons].
    split_and!; [done|done|done| | |].
    + rewrite Hne4, Hne3 by set_solver. done.
    + intros k v [[= -> ->]|[[= -> ->]|[]%elem_of_nil]%elem_of_cons]%elem_of_cons; [|naive_solver].
      rewrite Hne4 by set_solver. naive_solver.
    + intros k Hk. unfold node_keys in Hk. fold kn kg km in Hk. rewrite Hne4, Hne3, Hne2 by set_solver. apply Hsame.
Qed.

Lemma node_leave_ok n st rc n' st' :
  etcd_wf st → etcd_lease_known st (lease_id (cn_lease n)) → length (cn_node_key n) < ETCD_MAX_KEY →
  cluster_node_leave n st = (rc, n', st') →
  rc = 0%Z ∧ ni_status (cn_info n') = NODE_DRAINING ∧ etcd_wf st' ∧ ∀ k, etcd_lookup st' k =
    if decide (k = cn_node_key n) then None
    else match etcd_lookup st k with
         | Some (v, l) => if decide (l = lease_id (cn_lease n)) then None else Some (v, l)
         | None => None
         end.
Proof.
  intros Hwf Hl Hk. unfold cluster_node_leave. simpl.
  destruct (etcd_key_value_put _ _ _ st) as [rc1 st1] eqn:Hp.
  apply put_spec in Hp as (Hwf1 & Hl1 & Hne & Hcase); [|done|done|done|apply draining_json_short].
  unfold etcd_lease_revoke. intros [= <- <- <-].
  destruct (etcd_lease_revoke_spec (lease_id (cn_lease n)) st1 Hwf1) as [Hwf2 Hrev].
  split_and!; [done..|]. intros k. rewrite Hrev. case_decide as Hkey.
  - subst k. destruct Hcase as [[_ ->]|(_ & -> & _)]; [by rewrite decide_True|done].
  - by rewrite Hne.
Qed.

(** C37. A node that joins is described in the store under a lease no key had, with its two
    services at their addresses unless the store had no room for them; a join that fails has
    given its lease back and changed nothing.  A node that joined and leaves has taken its
    three keys out of the store and left every other key as it was before it joined. *)
Theorem node_join_leave c st r st' :
  etcd_wf st → etcd_leases_left st → cluster_node_join true c st = (r, st') →
  match r with
  | None => ∀ k, etcd_lookup st' k = etcd_lookup st k
  | Some n => joined c st n st' ∧ ∀ rc n' st'', cluster_node_leave n st' = (rc, n', st'') →
      rc = 0%Z ∧ ni_status (cn_info n') = NODE_DRAINING ∧
      ∀ k, etcd_lookup st'' k = if decide (k ∈ node_keys (nc_node_id c)) then None else etcd_lookup st k
  end.
Proof.
  intros Hwf Hleft Hj. apply node_join_ok in Hj as [Hwf' Hr]; [|done..]. destruct r as [n|]; [|done].
  split; [done|]. destruct Hr as (l & -> & Hfresh & Hknown & Hn & Hsvc & Hother). intros rc n' st'' Hleave.
  apply node_leave_ok in Hleave as (-> & Hd & _ & Hlook); [|done|done|apply printed_lt; unfold ETCD_MAX_KEY; lia].
  split_and!; [done..|]. intros k. rewrite Hlook. simpl. unfold node_keys in *. case_decide as Hk.
  - subst k. by rewrite decide_True by set_solver.
  - case_decide as Hin.
    + assert (∃ v, etcd_lookup st' k = Some (v, l) ∨ etcd_lookup st' k = None) as [v [->| ->]]; [|by rewrite decide_True|done].
      apply elem_of_cons in Hin as [?|Hin]; [done|].
      apply elem_of_cons in Hin as [->|[->|[]%elem_of_nil]%elem_of_cons]; eexists; apply Hsvc; rewrite !elem_of_cons; auto.
    + rewrite Hother by done. destruct (etcd_lookup st k) as [[v l']|] eqn:E; [|done].
      rewrite decide_False; [done|]. intros ->. by apply (Hfresh k v).
Qed.
End membership.

(** ** Discovery *)

#[local] Set Default Proof Using "Type*".

Section discovery.
Context `{L : !EtcdLaws B} {O : AllocOracle}.
Hypothesis all_ok : ∀ n, alloc_ok n = true.
Implicit Types (st : etcd_state) (k v : bytes) (P : gmap nat cluster_cell).

(** The two strings of every response. *)
Fixpoint responses_own (rs : list etcd_key_value_response) (kvs : list (bytes * bytes)) P : Prop :=
  match rs, kvs with
  | [], [] => P = ∅
  | r :: rs, (k, v) :: kvs => ∃ a b P',
      r = KvResponse (Some a) (Some b) ∧ a ≠ b ∧ P' !! a = None ∧ P' !! b = None ∧
      P = <[a := CellString k]> (<[b := CellString v]> P') ∧ responses_own rs kvs P'
  | _, _ => False
  end.

Definition values st (keys : list bytes) : list (bytes * bytes) :=
  (λ k, (k, from_option fst [] (etcd_lookup st k))) <$> keys.

Lemma list_responses_triple st keys :
  etcd_wf st → (∀ k, k ∈ keys → is_Some (etcd_lookup st k)) →
  triple ∅ (list_responses keys st) (λ rs P, responses_own rs (values st keys) P).
Proof.
  intros Hwf. induction keys as [|key keys IH]; intros Hk; simpl; [by apply triple_ret|].
  destruct (Hk key) as [[v l] Hl]; [set_solver|].
  rewrite etcd_get_spec, Hl by (done || reflexivity). simpl.
  eapply (triple_bind _ _ _ (λ r P, ∃ a b, r = KvResponse (Some a) (Some b) ∧ a ≠ b ∧
    P = <[a := CellString key]> (<[b := CellString v]> ∅))).
  { eapply (triple_bind _ _ _ (λ p P, ∃ a, p = Some a ∧ P = {[a := CellString key]})).
    { apply triple_malloc_ok; [done|]. eauto. }
    intros ? ? (a & -> & ->).
    eapply (triple_bind _ _ _ (λ p P, ∃ b, p = Some b ∧ a ≠ b ∧ P = <[b := CellString v]> {[a := CellString key]})).
    { apply triple_malloc_ok; [done|]. intros b Hb%lookup_singleton_None. eauto. }
    intros ? ? (b & -> & ? & ->). apply triple_ret. exists a, b. split_and!; [done..|].
    rewrite insert_insert_ne by done. done. }
  intros r ? (a & b & -> & Hab & ->).
  eapply triple_bind.
  { apply triple_frame_cell; [by rewrite lookup_insert_ne|]. apply triple_frame_cell; [done|]. apply IH. set_solver. }
  intros rs ? (? & -> & Ha & P0 & -> & Hb & Hown). apply triple_ret. exists a, b, P0.
  rewrite lookup_insert_ne in Ha by done. by split_and!.
Qed.

(** The endpoints of a listing, numbered by their position. *)
Definition endpoints (port : Z) (i : nat) (kvs : list (bytes * bytes)) : list service_endpoint :=
  imap (λ j '(_, v), Endpoint (u32 (Z.of_nat (i + j) + 1)) (strncpy v HOST_LENGTH) port) kvs.

Lemma read_endpoints_triple port rs : ∀ i kvs P eps,
  responses_own rs kvs P → length eps + length kvs ≤ MAX_ENDPOINTS →
  triple P (read_endpoints port i rs eps) (λ r P', r = eps ++ endpoints port i kvs ∧ P' = ∅).
Proof.
  induction rs as [|r rs IH]; intros i [|[k v] kvs] P eps Hown Hlen; simpl in Hown; try done.
  - subst P. apply triple_ret. split; [|done]. symmetry. apply app_nil_r.
  - destruct Hown as (a & b & P' & -> & Hab & Ha & Hb & -> & Hown). cbn [read_endpoints r_value].
    rewrite decide_False by (simpl in Hlen; lia).
    eapply (triple_bind _ _ _ (λ s Q, s = v ∧ Q = <[a := CellString k]> (<[b := CellString v]> P'))).
    { unfold load_string. eapply (triple_bind _ _ _ (λ c Q, c = CellString v ∧ Q = <[a := CellString k]> (<[b := CellString v]> P'))).
      - eapply triple_load; [|done]. by rewrite lookup_insert_ne, lookup_insert_eq.
      - intros ? ? [-> ->]. by apply triple_ret. }
    intros ? ? [-> ->].
    eapply (triple_bind _ _ _ (λ _ Q, Q = <[b := CellString v]> P')).
    { apply triple_free; [by rewrite lookup_insert_eq|]. rewrite delete_insert_id; [done|].
      by rewrite lookup_insert_ne. }
    intros _ ? ->.
    eapply (triple_bind _ _ _ (λ _ Q, Q = P')).
    { apply triple_free; [by rewrite lookup_insert_eq|]. by rewrite delete_insert_id. }
    intros _ ? ->.
    eapply triple_mono; [apply IH; [exact Hown|rewrite length_app; simpl in *; lia]|].
    intros ? ? [-> ->]. split; [|done]. rewrite <-(assoc_L (++)). f_equal. unfold endpoints. rewrite imap_cons.
    simpl. f_equal; [by rewrite Nat.add_0_r|]. apply imap_ext. intros j [? ?] _. simpl. by rewrite Nat.add_succ_r.
Qed.

(** The endpoints the store lists under a prefix. *)
Definition listed (prefix : bytes) (port : Z) st : list service_endpoint :=
  endpoints port 0 (values st (etcd_list_op prefix (Z.to_nat 256) st)).

Lemma responses_own_length rs kvs P : responses_own rs kvs P → length rs = length kvs.
Proof.
  revert kvs P. induction rs as [|r rs IH]; intros [|[k v] kvs] P H; try done. simpl in *.
  destruct H as (? & ? & ? & _ & _ & _ & _ & _ & ?). f_equal. eauto.
Qed.

Lemma discover_triple prefix port st :
  etcd_wf st → triple ∅ (discover prefix port st) (λ r P, r = listed prefix port st ∧ P = ∅).
Proof.
  intros Hwf. destruct (etcd_list_spec prefix (Z.to_nat 256) st Hwf) as (Hlen & _ & Hin & _).
  unfold discover, listed, etcd_key_value_list.
  destruct (etcd_list_op prefix (Z.to_nat 256) st) as [|key keys] eqn:E; [by apply triple_ret|].
  rewrite <-E in *. set (ks := etcd_list_op prefix (Z.to_nat 256) st) in *.
  eapply (triple_bind _ _ _ (λ '(rc, p, n) P, ∃ a rs P0, rc = 0%Z ∧ p = Some a ∧ n = length rs ∧
    P = <[a := CellResponses rs]> P0 ∧ P0 !! a = None ∧ responses_own rs (values st ks) P0)).
  - eapply (triple_bind _ _ _ (λ p P, ∃ a, p = Some a ∧ P = <[a := CellResponses []]> ∅)).
    { apply triple_malloc_ok; [done|]. eauto. }
    intros ? ? (a & -> & ->).
    eapply triple_bind; [apply triple_frame_cell, list_responses_triple; naive_solver|].
    intros rs ? (P0 & -> & Ha & Hown).
    eapply (triple_bind _ _ _ (λ _ P, P = <[a := CellResponses rs]> P0)).
    { apply triple_store; [by rewrite lookup_insert_eq|]. by rewrite insert_insert_eq. }
    intros _ ? ->. apply triple_ret. exists a, rs, P0. split_and!; try done.
    change (length ks = length rs). rewrite (responses_own_length _ _ _ Hown). unfold values. by rewrite length_fmap.
  - intros [[? ?] ?] ? (a & rs & P0 & -> & -> & -> & -> & Ha & Hown). cbn [decide]. rewrite decide_False by naive_solver.
    eapply (triple_bind _ _ _ (λ c P, c = CellResponses rs ∧ P = <[a := CellResponses rs]> P0)).
    { eapply triple_load; [by rewrite lookup_insert_eq|done]. }
    intros ? ? [-> ->]. rewrite take_ge by done.
    eapply triple_bind.
    { apply triple_frame_cell, read_endpoints_triple; [done|exact Hown|]. unfold values. rewrite length_fmap.
      simpl. unfold MAX_ENDPOINTS. lia. }
    intros ? ? (? & -> & _ & -> & ->).
    eapply (triple_bind _ _ _ (λ _ P, P = ∅)).
    { apply triple_free; [by rewrite lookup_insert_eq|by rewrite delete_insert_id]. }
    intros _ ? ->. by apply triple_ret.
Qed.

Lemma discovery_create_ok st h :
  etcd_wf st → mem_wf h → ∃ h', mem_wf h' ∧ mem_cells h' = mem_cells h ∧
  service_discovery_create st h =
    Some (Some (Discovery (listed GATEWAYS_PREFIX 8080 st) [] (listed META_PREFIX 9090 st) [] None), h').
Proof.
  intros Hwf Hh.
  assert (triple ∅ (service_discovery_create st) (λ r P, P = ∅ ∧
    r = Some (Discovery (listed GATEWAYS_PREFIX 8080 st) [] (listed META_PREFIX 9090 st) [] None))) as Ht.
  { unfold service_discovery_create.
    eapply (triple_bind _ _ _ (λ b P, b = true ∧ P = ∅)); [by apply triple_try_alloc_ok|]. intros ? ? [-> ->]. simpl.
    eapply triple_bind; [by apply discover_triple|]. intros ? ? [-> ->].
    eapply triple_bind; [by apply discover_triple|]. intros ? ? [-> ->]. by apply triple_ret. }
  destruct (Ht h (mem_cells h)) as (r & h' & P & Hr & Hwf' & Hc & _ & -> & ->).
  - done.
  - by rewrite (left_id_L ∅ (∪)).
  - apply map_disjoint_empty_l.
  - exists h'. rewrite (left_id_L ∅ (∪)) in Hc. by split_and!.
Qed.

(** A key of a listing that is not full is listed. *)
Lemma listed_complete prefix port st k v l :
  etcd_wf st → length (etcd_list_op prefix (Z.to_nat 256) st) < Z.to_nat 256 →
  etcd_lookup st k = Some (v, l) → prefix `prefix_of` k →
  ∃ i, listed prefix port st !! i = Some (Endpoint (u32 (Z.of_nat i + 1)) (strncpy v HOST_LENGTH) port).
Proof.
  intros Hwf Hroom Hk Hpre. destruct (etcd_list_spec prefix (Z.to_nat 256) st Hwf) as (_ & _ & _ & Hall).
  destruct (proj1 (list_elem_of_lookup _ _) (Hall Hroom k ltac:(eauto) Hpre)) as [i Hi]. exists i.
  unfold listed, endpoints, values. by rewrite list_lookup_imap, list_lookup_fmap, Hi; simpl; rewrite Hk.
Qed.

Lemma gateway_key_prefix i : GATEWAYS_PREFIX `prefix_of` gateway_key i.
Proof.
  exists (take (Z.to_nat 1023 - length GATEWAYS_PREFIX) (cs "node_" ++ fmt_u i)).
  unfold gateway_key, printed, snprintf_s. cbn [snd].
  change (ETCD_PREFIX_DISCOVERY ++ cs "/gateways/node_" ++ fmt_u i) with (GATEWAYS_PREFIX ++ (cs "node_" ++ fmt_u i)).
  rewrite take_app, take_ge by (change (length GATEWAYS_PREFIX) with 36; lia). f_equal.
Qed.

(** C38. When the allocator answers, discovery lists the services the store holds: endpoint
    [i] of the gateways and of the metadata servers is the value under the [i]-th listed key,
    numbered [i + 1], with the fixed port of its kind, and every string that was duplicated
    on the way is freed.  A node that joined with room in the store and in the listing is
    found among the gateways at the address it announced. *)
Theorem discovery_finds_services st h :
  etcd_wf st → mem_wf h → ∃ d h', service_discovery_create st h = Some (Some d, h') ∧
  mem_cells h' = mem_cells h ∧
  (sd_gateways d, sd_meta_servers d) = (listed GATEWAYS_PREFIX 8080 st, listed META_PREFIX 9090 st) ∧
  (sd_storage_engines d, sd_shards d) = ([], []) ∧
  ∀ c n st0, joined c st0 n st → is_Some (etcd_lookup st (gateway_key (nc_node_id c))) →
    length (etcd_list_op GATEWAYS_PREFIX (Z.to_nat 256) st) < Z.to_nat 256 →
    ∃ i, sd_gateways d !! i =
      Some (Endpoint (u32 (Z.of_nat i + 1)) (service_value (nc_host c) (nc_gateway_port c)) 8080).
Proof.
  intros Hwf Hh. destruct (discovery_create_ok st h Hwf Hh) as (h' & _ & Hc & Hr).
  eexists _, h'. split_and!; [done..|]. intros c n st0 (l & _ & _ & _ & _ & Hsvc & _) Hsome Hroom. cbn [sd_gateways].
  destruct (Hsvc (gateway_key (nc_node_id c)) (service_value (nc_host c) (nc_gateway_port c)) (list_elem_of_here _ _)) as [Hl|Hl];
    [|rewrite Hl in Hsome; by destruct Hsome].
  assert (strncpy (service_value (nc_host c) (nc_gateway_port c)) HOST_LENGTH
    = service_value (nc_host c) (nc_gateway_port c)) as Hs.
  { apply strncpy_short. apply Nat.lt_le_incl, printed_lt. unfold HOST_LENGTH. lia. }
  rewrite <-Hs. eapply listed_complete; [done..|]. apply gateway_key_prefix.
Qed.
End discovery.

(** A node of one machine, joining an empty store. *)
Definition example_node : cluster_node_config := NodeConfig 7 1 (cs "10.0.0.7") 8080 9090 80 2 1000.

Definition empty_store : @etcd_state mock_backend := mock_etcd_init.

Lemma node_join_leave_witness :
  ∃ r st', cluster_node_join true example_node empty_store = (Some r, st') ∧
  joined example_node empty_store r st' ∧
  mock_etcd_get (gateway_key 7) ETCD_MAX_VALUE st' = Some (cs "10.0.0.7:8080") ∧
  ∀ k, etcd_lookup (snd (cluster_node_leave r st')) k = None.
Proof.
  destruct (cluster_node_join true example_node empty_store) as [[r|] st'] eqn:E; [|vm_compute in E; done].
  exists r, st'. split; [done|].
  destruct (node_join_leave example_node empty_store (Some r) st') as [Hj Hl]; [apply mock_init_wf|by vm_compute|done|].
  split; [done|]. split; [vm_compute in E; by injection E as <- <-|].
  intros k. destruct (cluster_node_leave r st') as [[rc n'] st''] eqn:E'.
  destruct (Hl _ _ _ eq_refl) as (_ & _ & ->). by case_decide.
Defined.

Lemma discovery_finds_services_witness :
  ∃ d h', service_discovery_create (O := no_oom) (cluster_node_join true example_node empty_store).2 mem_empty
    = Some (Some d, h') ∧ mem_cells h' = ∅ ∧ sd_gateways d = [Endpoint 1 (cs "10.0.0.7:8080") 8080].
Proof.
  assert (etcd_wf (cluster_node_join true example_node empty_store).2) as Hwf.
  { destruct (cluster_node_join true example_node empty_store) as [r st'] eqn:E.
    by apply node_join_ok in E as [? _]; [|apply mock_init_wf|by vm_compute]. }
  destruct (discovery_finds_services (O := no_oom) (λ _, eq_refl) (cluster_node_join true example_node empty_store).2
    mem_empty Hwf mem_wf_empty) as (d & h' & Hr & Hc & [= Hg _] & _).
  exists d, h'. split; [done|]. split; [done|]. rewrite Hg. by vm_compute.
Defined.
