(* ===== verification/HttpText.v ===== *)
(** * The text functions of the C library that the access layer calls

    [strcasecmp] and the decimal readers [strtoull] and [atoll] of glibc, on C strings, with
    the round trip of [%u] through [strtoull]. *)
From S2P Require Import Prelude.
From Stdlib Require Import DecimalN DecimalString DecimalFacts.
From stdpp Require Import options.

Definition tolower (b : byte) : byte :=
  let z := byte.unsigned b in
  if decide (65 ≤ z ∧ z ≤ 90)%Z then byte.of_Z (z + 32) else b.

Definition strcasecmp (s t : bytes) : comparison := strcmp (tolower <$> s) (tolower <$> t).

Definition isspace (b : byte) : bool :=
  let z := byte.unsigned b in bool_decide (z = 32 ∨ 9 ≤ z ≤ 13)%Z.

Definition digit_value (b : byte) : option Z :=
  let z := byte.unsigned b in if decide (48 ≤ z ∧ z ≤ 57)%Z then Some (z - 48)%Z else None.

(** The number the leading digits spell, after [acc]. *)
Fixpoint read_digits (acc : Z) (s : bytes) : Z :=
  match s with
  | [] => acc
  | b :: s => match digit_value b with Some d => read_digits (10 * acc + d) s | None => acc end
  end.

Fixpoint skip_spaces (s : bytes) : bytes :=
  match s with
  | [] => []
  | b :: s' => if isspace b then skip_spaces s' else s
  end.

(** The sign and the digits after it. *)
Definition read_sign (s : bytes) : bool * bytes :=
  match s with
  | Byte.x2d :: s => (true, s)
  | Byte.x2b :: s => (false, s)
  | _ => (false, s)
  end.

(** [strtoull(s, NULL, 10)]: saturating, and a minus sign negates in 64 bits. *)
Definition strtoull (s : bytes) : Z :=
  let '(neg, s) := read_sign (skip_spaces s) in
  let n := read_digits 0 s in
  if decide (2 ^ 64 ≤ n)%Z then (2 ^ 64 - 1)%Z else if neg then u64 (- n) else n.

(** [atoll(s)], which glibc saturates. *)
Definition atoll (s : bytes) : Z :=
  let '(neg, s) := read_sign (skip_spaces s) in
  let n := read_digits 0 s in
  if neg then Z.max (- 2 ^ 63) (- n) else Z.min (2 ^ 63 - 1) n.

(** ** Decimal round trip *)

Lemma read_digits_acc u : ∀ acc,
  read_digits (Zpos acc) (cs (NilEmpty.string_of_uint u)) = Zpos (Pos.of_uint_acc u acc).
Proof.
  induction u; intros acc; [done|..]. all: cbn -[Z.mul Z.add Pos.mul Pos.add byte.unsigned]; rewrite <-IHu; f_equal.
  all: match goal with |- context [byte.unsigned ?b] => let z := eval vm_compute in (byte.unsigned b) in change (byte.unsigned b) with z end; lia.
Qed.

Lemma read_digits_uint u : read_digits 0 (cs (NilEmpty.string_of_uint u)) = Z.of_N (Pos.of_uint u).
Proof.
  induction u; [done|by cbn -[Z.mul Z.add]; rewrite <-IHu|..];
    cbn -[Z.mul Z.add]; by rewrite <-read_digits_acc.
Qed.

Lemma read_digits_fmt_u z : (0 ≤ z)%Z → read_digits 0 (fmt_u z) = z.
Proof.
  intros Hz. unfold fmt_u. set (u := N.to_uint (Z.to_N z)).
  assert (read_digits 0 (cs (NilZero.string_of_uint u)) = Z.of_N (N.of_uint u)) as ->.
  { unfold NilZero.string_of_uint. destruct u; [done|apply read_digits_uint..]. }
  subst u. rewrite DecimalN.Unsigned.of_to. lia.
Qed.

(** The digits of [%u]. *)
Definition is_digit (b : byte) : bool := bool_decide (is_Some (digit_value b)).

Lemma string_of_uint_digits u : forallb is_digit (cs (NilEmpty.string_of_uint u)) = true.
Proof. induction u; done. Qed.

Lemma fmt_u_digits z : forallb is_digit (fmt_u z) = true.
Proof. unfold fmt_u, NilZero.string_of_uint. case_match; [done|apply (string_of_uint_digits (_ _))..]. Qed.

Lemma digit_not_sign b : is_digit b = true → isspace b = false ∧ ∀ s, read_sign (b :: s) = (false, b :: s).
Proof. by destruct b. Qed.

Lemma strtoull_digits s : forallb is_digit s = true →
  strtoull s = let n := read_digits 0 s in if decide (2 ^ 64 ≤ n)%Z then (2 ^ 64 - 1)%Z else n.
Proof.
  destruct s as [|b s]; [done|]. cbn [forallb]. intros [[Hsp Hsg]%digit_not_sign _]%andb_prop.
  unfold strtoull. cbn [skip_spaces]. by rewrite Hsp, Hsg.
Qed.

(** What [%u] prints [strtoull] reads back. *)
Lemma strtoull_fmt_u z : fits 64 z → strtoull (fmt_u z) = z.
Proof.
  intros [? ?]. rewrite strtoull_digits, read_digits_fmt_u by (done || apply fmt_u_digits). simpl.
  by rewrite decide_False by lia.
Qed.

(** A bound on the digits of [%u]: one for each bit. *)
Lemma nb_digits_double d :
  Decimal.nb_digits (Decimal.Little.double d) ≤ S (Decimal.nb_digits d) ∧
  Decimal.nb_digits (Decimal.Little.succ_double d) ≤ S (Decimal.nb_digits d).
Proof. induction d as [|d [IH1 IH2]|d [IH1 IH2]|d [IH1 IH2]|d [IH1 IH2]|d [IH1 IH2]|d [IH1 IH2]|d [IH1 IH2]|d [IH1 IH2]|d [IH1 IH2]|d [IH1 IH2]];
  simpl; lia. Qed.

Lemma nb_digits_little p : Decimal.nb_digits (Pos.to_little_uint p) ≤ Pos.size_nat p.
Proof.
  induction p as [p IH|p IH|]; simpl; [| |lia].
  - pose proof (proj2 (nb_digits_double (Pos.to_little_uint p))). lia.
  - pose proof (proj1 (nb_digits_double (Pos.to_little_uint p))). lia.
Qed.

Lemma string_of_uint_length u : length (cs (NilEmpty.string_of_uint u)) = Decimal.nb_digits u.
Proof. unfold cs. induction u; simpl; auto. Qed.

Lemma size_nat_bound p : ∀ n : nat, (Zpos p < 2 ^ Z.of_nat n)%Z → Pos.size_nat p ≤ n.
Proof.
  induction p as [p IH|p IH|]; intros [|n]; rewrite ?Nat2Z.inj_succ, ?Z.pow_succ_r by lia; simpl; intros H;
    try lia; apply le_n_S, IH; lia.
Qed.

Lemma fmt_u_length n z : (z < 2 ^ Z.of_nat n)%Z → length (fmt_u z) ≤ S n.
Proof.
  intros Hz. unfold fmt_u. destruct z as [|p|p]; [simpl; lia| |simpl; lia]. cbn [Z.to_N].
  assert (Decimal.nb_digits (N.to_uint (N.pos p)) ≤ n) as Hd.
  { change (N.to_uint (N.pos p)) with (Decimal.rev (Pos.to_little_uint p)). rewrite nb_digits_rev.
    etrans; [apply nb_digits_little|by apply size_nat_bound]. }
  unfold NilZero.string_of_uint. case_match; [simpl; lia|rewrite string_of_uint_length; lia..].
Qed.
