(* ===== verification/AccessRoutes.v ===== *)
(** * Routing and authorisation of S3 requests
    ([src/access/access_routes.c], [src/access/sigv4.c], [include/lightfs/access/access_types.h])

    The request a URI and the headers name, and the format check of the authorisation
    header.  Strings are C strings (no NUL); arguments are not NULL, so the early returns on
    NULL are left out. *)
From S2P Require Import Prelude HttpText.
From stdpp Require Import options.

Definition S3_MAX_BUCKET_LENGTH : nat := Z.to_nat 255.
Definition S3_MAX_KEY_LENGTH : nat := Z.to_nat 1024.
Definition S3_MAX_HEADER_LENGTH : nat := Z.to_nat 256.

Inductive s3_operation :=
  | S3_OPERATION_PUT_OBJECT
  | S3_OPERATION_GET_OBJECT
  | S3_OPERATION_DELETE_OBJECT
  | S3_OPERATION_HEAD_OBJECT
  | S3_OPERATION_LIST_OBJECTS
  | S3_OPERATION_PUT_BUCKET
  | S3_OPERATION_DELETE_BUCKET
  | S3_OPERATION_UNKNOWN.
#[export] Instance s3_operation_eq_dec : EqDecision s3_operation.
Proof. solve_decision. Defined.

(** [s3_request_t]; the three fields of server-side encryption are written by nothing. *)
Record s3_request := S3Request {
  rq_bucket : bytes;
  rq_key : bytes;
  rq_operation : s3_operation;
  rq_content_length : Z;
  rq_content_type : bytes;
  rq_authorization : bytes;
  rq_host : bytes;
  rq_date : bytes
}.

(** A request after [memset]. *)
Definition s3_request_zero : s3_request := S3Request [] [] S3_OPERATION_PUT_OBJECT 0 [] [] [] [].

Definition set_path (b k : bytes) (q : s3_request) : s3_request :=
  S3Request b k (rq_operation q) (rq_content_length q) (rq_content_type q) (rq_authorization q) (rq_host q) (rq_date q).
Definition set_operation (o : s3_operation) (q : s3_request) : s3_request :=
  S3Request (rq_bucket q) (rq_key q) o (rq_content_length q) (rq_content_type q) (rq_authorization q) (rq_host q) (rq_date q).
Definition set_content_length (n : Z) (q : s3_request) : s3_request :=
  S3Request (rq_bucket q) (rq_key q) (rq_operation q) n (rq_content_type q) (rq_authorization q) (rq_host q) (rq_date q).
Definition set_content_type (v : bytes) (q : s3_request) : s3_request :=
  S3Request (rq_bucket q) (rq_key q) (rq_operation q) (rq_content_length q) v (rq_authorization q) (rq_host q) (rq_date q).
Definition set_authorization (v : bytes) (q : s3_request) : s3_request :=
  S3Request (rq_bucket q) (rq_key q) (rq_operation q) (rq_content_length q) (rq_content_type q) v (rq_host q) (rq_date q).
Definition set_host (v : bytes) (q : s3_request) : s3_request :=
  S3Request (rq_bucket q) (rq_key q) (rq_operation q) (rq_content_length q) (rq_content_type q) (rq_authorization q) v (rq_date q).
Definition set_date (v : bytes) (q : s3_request) : s3_request :=
  S3Request (rq_bucket q) (rq_key q) (rq_operation q) (rq_content_length q) (rq_content_type q) (rq_authorization q) (rq_host q) v.

(** ** Routes ([access_routes.c]) *)

Definition method_to_operation (method : bytes) : s3_operation :=
  if decide (strcmp method (cs "PUT") = Eq) then S3_OPERATION_PUT_OBJECT
  else if decide (strcmp method (cs "GET") = Eq) then S3_OPERATION_GET_OBJECT
  else if decide (strcmp method (cs "DELETE") = Eq) then S3_OPERATION_DELETE_OBJECT
  else if decide (strcmp method (cs "HEAD") = Eq) then S3_OPERATION_HEAD_OBJECT
  else S3_OPERATION_UNKNOWN.

Abbreviation QUERY := Byte.x3f.

(** The result and the request; on a key that is too long the bucket is already written. *)
Definition parse_path_style (uri : bytes) (request : s3_request) : Z * s3_request :=
  if decide (head uri = Some SLASH) then
    let after_bucket := default (length uri) (strchr uri QUERY) in
    match S <$> strchr (drop 1 uri) SLASH with
    | Some slash =>
        if decide (after_bucket < slash) then
          (* the slash is in the query *)
          let length := after_bucket - 1 in
          if decide (S3_MAX_BUCKET_LENGTH < length) then ((-1)%Z, request)
          else (0%Z, set_path (strncpy (drop 1 uri) length) [] request)
        else
          let bucket_length := slash - 1 in
          if decide (S3_MAX_BUCKET_LENGTH < bucket_length) then ((-1)%Z, request)
          else
            let bucket := strncpy (drop 1 uri) bucket_length in
            let key_length := after_bucket - slash - 1 in
            if decide (S3_MAX_KEY_LENGTH < key_length) then ((-1)%Z, set_path bucket (rq_key request) request)
            else (0%Z, set_path bucket (strncpy (drop (slash + 1) uri) key_length) request)
    | None =>
        let length := after_bucket - 1 in
        if decide (S3_MAX_BUCKET_LENGTH < length) then ((-1)%Z, request)
        else (0%Z, set_path (strncpy (drop 1 uri) length) [] request)
    end
  else ((-1)%Z, request).

(** One header of the interleaved array. *)
Definition route_header (name value : bytes) (request : s3_request) : s3_request :=
  if decide (strcmp name (cs "Content-Length") = Eq) then set_content_length (u64 (atoll value)) request
  else if decide (strcmp name (cs "Content-Type") = Eq) then set_content_type (strncpy value S3_MAX_HEADER_LENGTH) request
  else if decide (strcmp name (cs "Authorization") = Eq) then set_authorization (strncpy value S3_MAX_HEADER_LENGTH) request
  else if decide (strcmp name (cs "Host") = Eq) then set_host (strncpy value S3_MAX_HEADER_LENGTH) request
  else if decide (strcmp name (cs "x-amz-date") = Eq) then set_date (strncpy value S3_MAX_HEADER_LENGTH) request
  else request.

Fixpoint route_headers (headers : list bytes) (request : s3_request) : s3_request :=
  match headers with
  | name :: value :: headers => route_headers headers (route_header name value request)
  | _ => request
  end.

(** Whether a query asks for a listing. *)
Definition is_list_query (query : bytes) : bool :=
  existsb (λ p, bool_decide (is_Some (strstr query p))) [cs "prefix="; cs "max-keys="; cs "marker="; cs "list-type="].

Definition s3_route_parse (method uri : bytes) (headers : list bytes) (request : s3_request) : Z * s3_request :=
  let request := set_operation (method_to_operation method) request in
  if decide (rq_operation request = S3_OPERATION_UNKNOWN) then ((-1)%Z, request)
  else
    let '(result, request) := parse_path_style uri request in
    if decide (result ≠ 0)%Z then ((-1)%Z, request)
    else
      let request :=
        match strchr uri QUERY with
        | Some query =>
            if decide (rq_key request = []) then
              if is_list_query (drop query uri) then set_operation S3_OPERATION_LIST_OBJECTS request else request
            else request
        | None => request
        end in
      (0%Z, route_headers headers request).

Definition s3_route_http_status (operation : s3_operation) (gateway_status : Z) : Z :=
  if decide (gateway_status = 0)%Z then 200
  else if decide (gateway_status = -1)%Z then 500
  else 400.

(** ** Signatures ([sigv4.c]) *)

Inductive sigv4_result :=
  | SIGV4_OK
  | SIGV4_ERROR_MISSING_HEADER
  | SIGV4_ERROR_INVALID_CREDENTIAL
  | SIGV4_ERROR_INVALID_SIGNATURE
  | SIGV4_ERROR_EXPIRED
  | SIGV4_ERROR_INTERNAL.
#[export] Instance sigv4_result_eq_dec : EqDecision sigv4_result.
Proof. solve_decision. Defined.

Definition SIGV4_ALGORITHM : bytes := cs "AWS4-HMAC-SHA256".
Definition CREDENTIAL_PREFIX : bytes := cs "AWS4-HMAC-SHA256 Credential=".

(** The method, the URI, the host, the date and the body are not looked at. *)
Definition sigv4_validate (auth_header : bytes) : sigv4_result :=
  if decide (strncmp auth_header SIGV4_ALGORITHM 16 ≠ Eq) then SIGV4_ERROR_INVALID_CREDENTIAL
  else match strstr auth_header CREDENTIAL_PREFIX with
       | None => SIGV4_ERROR_INVALID_CREDENTIAL
       | Some _ =>
           match strstr auth_header (cs "Signature=") with
           | None => SIGV4_ERROR_MISSING_HEADER
           | Some _ => SIGV4_OK
           end
       end.

(** The loop that copies the access key, from index [i] of [key_buffer] on. *)
Fixpoint copy_key (i : nat) (s : bytes) : bytes :=
  match s with
  | c :: s => if decide (c ≠ SLASH ∧ i < 63) then c :: copy_key (S i) s else []
  | [] => []
  end.

Definition sigv4_extract_access_key (auth_header : bytes) : option bytes :=
  match strstr auth_header CREDENTIAL_PREFIX with
  | None => None
  | Some i => Some (copy_key 0 (drop (length CREDENTIAL_PREFIX) (drop i auth_header)))
  end.

Definition sigv4_extract_date (date_header : bytes) : bytes := date_header.

Example route_get : s3_route_parse (cs "GET") (cs "/photos/2024/a.jpg?versionId=1") [] s3_request_zero =
  (0%Z, S3Request (cs "photos") (cs "2024/a.jpg") S3_OPERATION_GET_OBJECT 0 [] [] [] []).
Proof. by vm_compute. Qed.
Example route_list : s3_route_parse (cs "GET") (cs "/photos?list-type=2&prefix=a/b") [cs "Content-Length"; cs "12"] s3_request_zero =
  (0%Z, S3Request (cs "photos") [] S3_OPERATION_LIST_OBJECTS 12 [] [] [] []).
Proof. by vm_compute. Qed.

(** ** The parts of a URI *)

(** A tail that is empty or starts with [c]. *)
Definition tail_of (c : byte) (t : bytes) : Prop := t = [] ∨ ∃ t', t = c :: t'.

Lemma split_first c s : ∃ a t, s = a ++ t ∧ c ∉ a ∧ tail_of c t.
Proof.
  induction s as [|b s (a & t & -> & Ha & Ht)].
  - exists [], []. split_and!; [done|by intros ?%elem_of_nil|by left].
  - destruct (decide (b = c)) as [->|Hb].
    + exists [], (c :: a ++ t). split_and!; [done|by intros ?%elem_of_nil|right; eauto].
    + exists (b :: a), t. split_and!; [done|rewrite not_elem_of_cons; auto|done].
Qed.

Lemma strchr_split a t c : c ∉ a → tail_of c t → strchr (a ++ t) c = match t with [] => None | _ => Some (length a) end.
Proof.
  intros Ha [->|[t' ->]].
  - rewrite app_nil_r. by apply strchr_None.
  - apply strchr_Some. rewrite list_lookup_middle, take_app_length by done. done.
Qed.

Lemma strchr_after a t c i : c ∉ a → strchr (a ++ t) c = Some i → length a ≤ i ∧ t !! (i - length a) = Some c.
Proof.
  intros Ha [Hi _]%strchr_Some. apply lookup_app_Some in Hi as [Hi|?]; [|done].
  apply list_elem_of_lookup_2 in Hi. done.
Qed.

(** [uri] is [/bucket], or [/bucket/key], and a query. *)
Record uri_parts (uri bucket path query : bytes) : Prop := UriParts {
  up_uri : uri = SLASH :: bucket ++ path ++ query;
  up_path : tail_of SLASH path;
  up_query : tail_of QUERY query;
  up_slash : SLASH ∉ bucket;
  up_mark : QUERY ∉ bucket ++ path
}.

Lemma uri_parts_exist uri : head uri = Some SLASH → ∃ bucket path query, uri_parts uri bucket path query.
Proof.
  destruct uri as [|c uri]; [done|]. intros [= ->].
  destruct (split_first QUERY uri) as (a & query & -> & Ha & Hq).
  destruct (split_first SLASH a) as (bucket & path & -> & Hb & Hp).
  exists bucket, path, query. split; [by rewrite (assoc_L (++))|done..].
Qed.

Lemma parse_path_parts uri bucket path query request :
  uri_parts uri bucket path query →
  parse_path_style uri request =
    if decide (S3_MAX_BUCKET_LENGTH < length bucket) then ((-1)%Z, request)
    else if decide (S3_MAX_KEY_LENGTH < length path - 1) then ((-1)%Z, set_path bucket (rq_key request) request)
    else (0%Z, set_path bucket (drop 1 path) request).
Proof.
  intros [-> Hp Hq Hs Hm]. unfold parse_path_style. rewrite decide_True by done.
  assert (default (length (SLASH :: bucket ++ path ++ query)) (strchr (SLASH :: bucket ++ path ++ query) QUERY)
    = S (length bucket + length path)) as ->.
  { rewrite (assoc_L (++)), app_comm_cons, strchr_split; [|by rewrite not_elem_of_cons|done].
    destruct Hq as [->|[t ->]]; simpl; rewrite ?length_app; simpl; lia. }
  destruct Hp as [->|[key ->]].
  - assert (∀ slash, S <$> strchr (drop 1 (SLASH :: bucket ++ [] ++ query)) SLASH = Some slash → S (length bucket) < slash) as Hlt.
    { intros ? (i & [Hi Hq']%strchr_after & ->)%fmap_Some; [|done].
      destruct (decide (i = length bucket)) as [->|]; [|lia]. rewrite Nat.sub_diag in Hq'. by destruct Hq as [->|[? ->]]. }
    change (length (@nil byte)) with 0. rewrite Nat.add_0_r.
    assert (strncpy (drop 1 (SLASH :: bucket ++ [] ++ query)) (S (length bucket) - 1) = bucket) as Hcpy.
    { unfold strncpy. simpl. rewrite Nat.sub_0_r. apply take_app_length. }
    destruct (S <$> _) as [slash|]; [rewrite decide_True by (by apply Hlt)|];
      rewrite Hcpy; replace (S (length bucket) - 1) with (length bucket) by lia; by case_decide.
  - simpl drop at 1. rewrite (strchr_split bucket ((SLASH :: key) ++ query)) by (done || right; eauto). simpl fmap.
    cbn [fmap option_fmap option_map]. rewrite decide_False by lia.
    replace (S (length bucket) - 1) with (length bucket) by lia. case_decide; [done|].
    replace (S (length bucket + length (SLASH :: key)) - S (length bucket) - 1) with (length key) by (simpl; lia).
    replace (length (SLASH :: key) - 1) with (length key) by (simpl; lia).
    assert (strncpy (drop 1 (SLASH :: bucket ++ (SLASH :: key) ++ query)) (length bucket) = bucket) as ->.
    { unfold strncpy. simpl. apply take_app_length. }
    case_decide; [done|]. do 2 f_equal. unfold strncpy.
    replace (SLASH :: bucket ++ (SLASH :: key) ++ query) with ((SLASH :: bucket ++ [SLASH]) ++ key ++ query)
      by (simpl; by rewrite <-(assoc_L (++))).
    rewrite drop_app_length' by (simpl; rewrite length_app; simpl; lia). by rewrite take_app_length.
Qed.

(** The operation a method asks for on a path with a query. *)
Definition route_operation (method path query : bytes) : s3_operation :=
  if decide (drop 1 path = []) then
    if is_list_query query then S3_OPERATION_LIST_OBJECTS else method_to_operation method
  else method_to_operation method.

Lemma s3_route_parse_parts method uri headers request bucket path query :
  uri_parts uri bucket path query → method_to_operation method ≠ S3_OPERATION_UNKNOWN →
  length bucket ≤ S3_MAX_BUCKET_LENGTH → length path - 1 ≤ S3_MAX_KEY_LENGTH →
  s3_route_parse method uri headers request =
    (0%Z, route_headers headers (set_operation (route_operation method path query) (set_path bucket (drop 1 path) request))).
Proof.
  intros Hparts Hop Hb Hk. unfold s3_route_parse. rewrite decide_False by done.
  rewrite (parse_path_parts _ _ _ _ _ Hparts), !decide_False by lia. cbv iota beta.
  destruct Hparts as [-> _ Hq _ Hm]. do 2 f_equal. unfold route_operation.
  rewrite (assoc_L (++)), app_comm_cons, strchr_split; [|by rewrite not_elem_of_cons|done].
  destruct query as [|c query]; [by case_decide|]. rewrite drop_app_length. simpl rq_key.
  repeat case_match; by destruct request.
Qed.

Lemma s3_route_parse_ok method uri headers request request' :
  s3_route_parse method uri headers request = (0%Z, request') ↔
  ∃ bucket path query, uri_parts uri bucket path query ∧
    length bucket ≤ S3_MAX_BUCKET_LENGTH ∧ length path - 1 ≤ S3_MAX_KEY_LENGTH ∧
    method_to_operation method ≠ S3_OPERATION_UNKNOWN ∧
    request' = route_headers headers
      (set_operation (route_operation method path query) (set_path bucket (drop 1 path) request)).
Proof.
  split.
  - intros Hparse. pose proof Hparse as Hp. unfold s3_route_parse in Hp. case_decide as Hop; [done|].
    destruct (parse_path_style uri _) as [result request0] eqn:Hpath. case_decide as Hr; [done|].
    subst result. clear Hp.
    assert (head uri = Some SLASH) as Hhead.
    { unfold parse_path_style in Hpath. by case_decide. }
    destruct (uri_parts_exist uri Hhead) as (bucket & path & query & Hparts).
    rewrite (parse_path_parts _ _ _ _ _ Hparts) in Hpath. repeat case_decide; try done.
    exists bucket, path, query. split_and!; [done|lia..|done|].
    rewrite (s3_route_parse_parts _ _ _ _ _ _ _ Hparts) in Hparse by (done || lia). by injection Hparse.
  - intros (bucket & path & query & Hparts & ? & ? & ? & ->). by apply s3_route_parse_parts.
Qed.

Lemma route_headers_path headers request :
  rq_bucket (route_headers headers request) = rq_bucket request ∧ rq_key (route_headers headers request) = rq_key request ∧
  rq_operation (route_headers headers request) = rq_operation request.
Proof.
  revert request. induction headers as [headers IH] using (induction_ltof1 _ length).
  intros request. destruct headers as [|name [|value headers]]; [done..|]. cbn [route_headers].
  destruct (IH headers ltac:(unfold ltof; simpl; lia) (route_header name value request)) as (-> & -> & ->).
  unfold route_header. by repeat case_decide.
Qed.

(** ** What routing promises *)

Lemma strstr_Some hay needle : is_Some (strstr hay needle) ↔ ∃ a b, hay = a ++ needle ++ b.
Proof.
  induction hay as [|c hay IH]; cbn [strstr].
  - case_decide as H.
    + split; [|eauto]. intros _. exists [], []. destruct needle; done.
    + split; [by intros []|]. intros (a & b & Hab). destruct H.
      symmetry in Hab. apply app_nil in Hab as [-> [-> ->]%app_nil]. done.
  - case_decide as H.
    + split; [|eauto]. intros _. exists [], (drop (length needle) (c :: hay)). simpl. rewrite <-H at 1. by rewrite take_drop.
    + rewrite fmap_is_Some, IH. split.
      * intros (a & b & ->). exists (c :: a), b. done.
      * intros ([|d a] & b & Hab); simpl in Hab.
        -- destruct H. rewrite Hab. by rewrite take_app_length.
        -- injection Hab as -> ->. eauto.
Qed.

(** The four methods. *)
Definition method_operations : list (string * s3_operation) :=
  [("PUT", S3_OPERATION_PUT_OBJECT); ("GET", S3_OPERATION_GET_OBJECT); ("DELETE", S3_OPERATION_DELETE_OBJECT);
   ("HEAD", S3_OPERATION_HEAD_OBJECT)]%string.
Definition method_means (method : bytes) (op : s3_operation) : Prop :=
  ∃ name, method = cs name ∧ (name, op) ∈ method_operations.

Lemma method_means_iff method op : method_means method op ↔ method_to_operation method = op ∧ op ≠ S3_OPERATION_UNKNOWN.
Proof.
  unfold method_means, method_operations, method_to_operation. split.
  - intros (name & -> & H). rewrite !elem_of_cons, elem_of_nil in H.
    destruct H as [[= -> ->]|[[= -> ->]|[[= -> ->]|[[= -> ->]|[]]]]]; by vm_compute.
  - intros [<- Hop]. revert Hop.
    repeat (case_decide as Hm; [apply strcmp_eq in Hm as ->; intros _; eexists; split; [reflexivity|rewrite !elem_of_cons; tauto]|clear Hm]).
    done.
Qed.

(** A query asks for a listing when one of the four parameters occurs in it. *)
Definition asks_listing (query : bytes) : Prop :=
  ∃ name a b, name ∈ ["prefix="; "max-keys="; "marker="; "list-type="]%string ∧ query = a ++ cs name ++ b.

Lemma is_list_query_iff query : is_list_query query = true ↔ asks_listing query.
Proof.
  unfold is_list_query, asks_listing. rewrite existsb_exists. split.
  - intros (p & Hp & H%bool_decide_eq_true%strstr_Some). destruct H as (a & b & ->). simpl in Hp.
    destruct Hp as [<-|[<-|[<-|[<-|[]]]]]; eexists _, a, b; (split; [|reflexivity]); set_solver.
  - intros (name & a & b & Hname & ->). exists (cs name). split; [|apply bool_decide_eq_true, strstr_Some; eauto].
    rewrite !elem_of_cons, elem_of_nil in Hname. simpl. naive_solver.
Qed.

(** The operation of a request for [key] with a query. *)
Definition operation_routed (method key query : bytes) (op : s3_operation) : Prop :=
  ∃ mop, method_means method mop ∧
    ((key = [] ∧ asks_listing query ∧ op = S3_OPERATION_LIST_OBJECTS) ∨ (¬ (key = [] ∧ asks_listing query) ∧ op = mop)).

Lemma operation_routed_iff method path query op :
  operation_routed method (drop 1 path) query op ↔
  method_to_operation method ≠ S3_OPERATION_UNKNOWN ∧ op = route_operation method path query.
Proof.
  unfold operation_routed, route_operation. split.
  - intros (mop & [<- Hop]%method_means_iff & Hcase). split; [done|]. rewrite <-is_list_query_iff in Hcase.
    destruct Hcase as [(-> & -> & ->)|[Hn ->]]; [done|]. repeat case_match; tauto.
  - intros [Hop ->]. exists (method_to_operation method). rewrite method_means_iff, <-is_list_query_iff. split; [done|].
    case_decide as Hk; [|right; split; [tauto|done]]. destruct (is_list_query query); [by left|right].
    split; [by intros [_ ?]|done].
Qed.

(** The value of the last header of that name in the array of names and values. *)
Definition last_header (name : string) (headers : list bytes) (value : option bytes) : Prop :=
  match value with
  | Some v => ∃ i, headers !! (2 * i) = Some (cs name) ∧ headers !! S (2 * i) = Some v ∧
      ∀ j, i < j → S (2 * j) < length headers → headers !! (2 * j) ≠ Some (cs name)
  | None => ∀ j, S (2 * j) < length headers → headers !! (2 * j) ≠ Some (cs name)
  end.

Fixpoint find_last (name : string) (headers : list bytes) : option bytes :=
  match headers with
  | n :: v :: headers =>
      match find_last name headers with
      | Some w => Some w
      | None => if decide (n = cs name) then Some v else None
      end
  | _ => None
  end.

Lemma find_last_spec name headers : last_header name headers (find_last name headers).
Proof.
  induction headers as [headers IH] using (induction_ltof1 _ length).
  destruct headers as [|n [|v headers]]; [by intros j ?; simpl in *; lia..|].
  specialize (IH headers ltac:(unfold ltof; simpl; lia)). cbn [find_last].
  assert (∀ j, (n :: v :: headers) !! (2 * S j) = headers !! (2 * j)) as Heven by (intros; by replace (2 * S j) with (S (S (2 * j))) by lia).
  assert (∀ j, (n :: v :: headers) !! S (2 * S j) = headers !! S (2 * j)) as Hodd by (intros; by replace (2 * S j) with (S (S (2 * j))) by lia).
  destruct (find_last name headers) as [w|]; unfold last_header in IH |- *.
  - destruct IH as (i & Hi & Hv & Hlast). exists (S i). rewrite Heven, Hodd. split_and!; [done..|].
    intros [|j] ? Hlen; [lia|]. rewrite Heven. apply Hlast; simpl in Hlen; lia.
  - case_decide as Hn.
    + exists 0. split_and!; [by rewrite Hn|done|]. intros [|j] ? Hlen; [lia|]. rewrite Heven. apply IH. simpl in Hlen. lia.
    + intros [|j] Hlen; [simpl; congruence|]. rewrite Heven. apply IH. simpl in Hlen. lia.
Qed.

Lemma last_header_unique name headers v w : last_header name headers v → last_header name headers w → v = w.
Proof.
  destruct v as [v|], w as [w|]; [|..|done]; unfold last_header.
  - intros (i & Hi & Hv & Hl) (j & Hj & Hw & Hl'). assert (i = j) as ->; [|congruence].
    apply lookup_lt_Some in Hv as Hvl. apply lookup_lt_Some in Hw as Hwl.
    destruct (lt_eq_lt_dec i j) as [[Hlt| ->]|Hlt]; [by destruct (Hl j Hlt Hwl)|done|by destruct (Hl' i Hlt Hvl)].
  - intros (i & Hi & Hv & _) Hn. apply lookup_lt_Some in Hv. by destruct (Hn i Hv).
  - intros Hn (i & Hi & Hv & _). apply lookup_lt_Some in Hv. by destruct (Hn i Hv).
Qed.

(** The fields of a request are those it had but for the headers that are there. *)
Definition headers_routed (headers : list bytes) (before after : s3_request) : Prop :=
  ∃ len type auth host date,
    last_header "Content-Length" headers len ∧ last_header "Content-Type" headers type ∧
    last_header "Authorization" headers auth ∧ last_header "Host" headers host ∧
    last_header "x-amz-date" headers date ∧
    rq_content_length after = from_option (λ v, u64 (atoll v)) (rq_content_length before) len ∧
    rq_content_type after = from_option (take (Z.to_nat 256)) (rq_content_type before) type ∧
    rq_authorization after = from_option (take (Z.to_nat 256)) (rq_authorization before) auth ∧
    rq_host after = from_option (take (Z.to_nat 256)) (rq_host before) host ∧
    rq_date after = from_option (take (Z.to_nat 256)) (rq_date before) date.

Definition last_set {T} (headers : list bytes) (name : string) (f : bytes → T) (old : T) : T :=
  from_option f old (find_last name headers).

Lemma last_set_cons {T} (headers : list bytes) n v name (f : bytes → T) old :
  last_set (n :: v :: headers) name f old = last_set headers name f (if decide (n = cs name) then f v else old).
Proof. unfold last_set. cbn [find_last]. destruct (find_last name headers); [done|]. by case_decide. Qed.

Lemma route_headers_fields headers request : route_headers headers request =
  S3Request (rq_bucket request) (rq_key request) (rq_operation request)
    (last_set headers "Content-Length" (λ v, u64 (atoll v)) (rq_content_length request))
    (last_set headers "Content-Type" (take S3_MAX_HEADER_LENGTH) (rq_content_type request))
    (last_set headers "Authorization" (take S3_MAX_HEADER_LENGTH) (rq_authorization request))
    (last_set headers "Host" (take S3_MAX_HEADER_LENGTH) (rq_host request))
    (last_set headers "x-amz-date" (take S3_MAX_HEADER_LENGTH) (rq_date request)).
Proof.
  revert request. induction headers as [headers IH] using (induction_ltof1 _ length). intros request.
  destruct headers as [|n [|v headers]]; [by destruct request..|]. cbn [route_headers].
  rewrite (IH headers ltac:(unfold ltof; simpl; lia)), !last_set_cons. unfold route_header, strncpy.
  repeat (case_decide as Hm; [apply strcmp_eq in Hm as ->; by simpl|rewrite strcmp_eq in Hm; rewrite (decide_False (P := n = _)) by exact Hm; clear Hm]).
  done.
Qed.

Lemma headers_routed_iff headers before after : headers_routed headers before after ↔
  let q := route_headers headers before in
  rq_content_length after = rq_content_length q ∧ rq_content_type after = rq_content_type q ∧
  rq_authorization after = rq_authorization q ∧ rq_host after = rq_host q ∧ rq_date after = rq_date q.
Proof.
  cbv zeta. rewrite route_headers_fields. cbn [rq_content_length rq_content_type rq_authorization rq_host rq_date]. unfold last_set. split.
  - intros (len & type & auth & host & date & H1 & H2 & H3 & H4 & H5 & -> & -> & -> & -> & ->).
    by rewrite (last_header_unique _ _ _ _ (find_last_spec _ _) H1), (last_header_unique _ _ _ _ (find_last_spec _ _) H2),
      (last_header_unique _ _ _ _ (find_last_spec _ _) H3), (last_header_unique _ _ _ _ (find_last_spec _ _) H4),
      (last_header_unique _ _ _ _ (find_last_spec _ _) H5).
  - intros (H1 & H2 & H3 & H4 & H5). unfold headers_routed. rewrite H1, H2, H3, H4, H5. do 5 eexists. by split_and!; [apply find_last_spec..| | | | |].
Qed.

(** C21. Routing accepts exactly the URIs [/bucket] and [/bucket/key] with an optional query,
    whose bucket has at most 255 bytes without a slash and whose key has at most 1024, with one
    of the methods PUT, GET, DELETE and HEAD. The request it fills names that bucket and key;
    its operation is the method's, or a listing when the key is empty and one of the four listing
    parameters occurs in the query; its length, content type, authorization, host and date
    are those of the last header of that name, the texts cut to 256 bytes, and what they were
    where there is no such header. *)
Theorem s3_route_parse_exact method uri headers request request' :
  s3_route_parse method uri headers request = (0%Z, request') ↔
  ∃ bucket path query, uri_parts uri bucket path query ∧
    (Z.of_nat (length bucket) ≤ 255)%Z ∧ (Z.of_nat (length path) ≤ 1025)%Z ∧
    rq_bucket request' = bucket ∧ rq_key request' = drop 1 path ∧
    operation_routed method (drop 1 path) query (rq_operation request') ∧
    headers_routed headers request request'.
Proof.
  rewrite s3_route_parse_ok. unfold S3_MAX_BUCKET_LENGTH, S3_MAX_KEY_LENGTH.
  split; intros (bucket & path & query & Hparts & Hb & Hk & H); exists bucket, path, query; (split; [exact Hparts|]); rewrite headers_routed_iff, operation_routed_iff in *.
  - destruct H as [Hop ->]. rewrite !route_headers_fields. simpl. split_and!; (lia || done).
  - destruct H as (Hbucket & Hkey & [Hop Ho] & Hl & Ht & Ha & Hh & Hd). split_and!; [lia..|done|].
    rewrite route_headers_fields in *. simpl in *. destruct request'. simpl in *. by subst.
Qed.

(** ** Signatures *)

(** The check looks at the form of the header only. *)
Lemma sigv4_validate_ok auth_header :
  sigv4_validate auth_header = SIGV4_OK ↔
  SIGV4_ALGORITHM `prefix_of` auth_header ∧ (∃ a b, auth_header = a ++ CREDENTIAL_PREFIX ++ b) ∧
  ∃ a b, auth_header = a ++ cs "Signature=" ++ b.
Proof.
  rewrite <-!strstr_Some. unfold sigv4_validate.
  assert (strncmp auth_header SIGV4_ALGORITHM 16 = Eq ↔ SIGV4_ALGORITHM `prefix_of` auth_header) as <-.
  { unfold strncmp. rewrite strcmp_eq. change (take 16 SIGV4_ALGORITHM) with SIGV4_ALGORITHM. split.
    - intros H. exists (drop 16 auth_header). by rewrite <-H, take_drop.
    - intros [rest ->]. by change 16 with (length SIGV4_ALGORITHM); rewrite take_app_length. }
  case_decide as H.
  - split; [done|]. by intros [? _].
  - rewrite H. repeat case_match; split; try done; naive_solver.
Qed.

(** The access key has at most 63 bytes. *)
Lemma copy_key_length i s : i ≤ 63 → i + length (copy_key i s) ≤ 63.
Proof.
  revert i. induction s as [|c s IH]; intros i Hi; simpl; [lia|]. case_decide; simpl; [|lia].
  specialize (IH (S i)). lia.
Qed.
