(* ===== verification/HttpResponse.v ===== *)
(** * Responses: XML bodies, handlers and the bytes on the wire
    ([src/access/s3_xml.c], [access_handlers.c], [http_response.c])

    A response's headers and body are slices of static buffers that the next response
    reuses, so a slice is a reference and the buffers are a state. *)
From S2P Require Import Prelude HttpText AccessRoutes.
From stdpp Require Import options.

Definition CRLF : bytes := [Byte.x0d; Byte.x0a].
Definition NL : bytes := [Byte.x0a].
Definition DQ : bytes := [Byte.x22].

(** ** XML ([s3_xml.c]) *)

(** The buffer so far and the room that is left, and one [snprintf] into it: the failing call
    leaves what fits. *)
Definition xml_put (text : bytes) (st : bytes * Z) : option (bytes * Z) :=
  let '(out, remaining) := st in
  if decide (remaining ≤ Z.of_nat (length text))%Z then None
  else Some (out ++ text, (remaining - Z.of_nat (length text))%Z).

Definition xml_list_head (bucket prefix marker : bytes) (max_keys : Z) : bytes :=
  cs "<?xml version=" ++ DQ ++ cs "1.0" ++ DQ ++ cs " encoding=" ++ DQ ++ cs "UTF-8" ++ DQ ++ cs "?>" ++ NL ++
  cs "<ListBucketResult xmlns=" ++ DQ ++ cs "http://s3.amazonaws.com/doc/2006-03-01/" ++ DQ ++ cs ">" ++ NL ++
  cs "<Name>" ++ bucket ++ cs "</Name><Prefix>" ++ prefix ++ cs "</Prefix><Marker>" ++ marker ++
  cs "</Marker><MaxKeys>" ++ fmt_d max_keys ++ cs "</MaxKeys>".

Definition xml_truncated (marker : bytes) (is_truncated : bool) : bytes :=
  if is_truncated then cs "<IsTruncated>true</IsTruncated><NextMarker>" ++ marker ++ cs "</NextMarker>"
  else cs "<IsTruncated>false</IsTruncated>".

Definition xml_contents (key : bytes) : bytes := cs "<Contents><Key>" ++ key ++ cs "</Key></Contents>".
Definition xml_list_tail : bytes := cs "</ListBucketResult>" ++ NL.

Fixpoint xml_keys (keys : list bytes) (st : bytes * Z) : option (bytes * Z) :=
  match keys with
  | [] => Some st
  | key :: keys => st ← xml_put (xml_contents key) st; xml_keys keys st
  end.

(** The text written, whose length is the result; [None] is -1. *)
Definition s3_xml_serialize_list_objects (buffer_size : Z) (bucket prefix marker : bytes) (max_keys : Z)
    (keys : list bytes) (is_truncated : bool) : option bytes :=
  if decide (buffer_size ≤ 0)%Z then None
  else
    st ← xml_put (xml_list_head bucket prefix marker max_keys) ([], buffer_size);
    st ← xml_put (xml_truncated marker is_truncated) st;
    st ← xml_keys keys st;
    st ← xml_put xml_list_tail st;
    Some st.1.

Definition xml_error (code message : bytes) : bytes :=
  cs "<?xml version=" ++ DQ ++ cs "1.0" ++ DQ ++ cs " encoding=" ++ DQ ++ cs "UTF-8" ++ DQ ++ cs "?>" ++ NL ++
  cs "<Error><Code>" ++ code ++ cs "</Code><Message>" ++ message ++ cs "</Message></Error>" ++ NL.

(** The result of [snprintf] and the buffer. *)
Definition s3_xml_serialize_error (buffer_size : nat) (code message : bytes) : nat * bytes :=
  snprintf_s buffer_size (xml_error code message).

(** ** Responses *)

(** The static buffers: [response_buffer] of the list handler, [err_buf] of the server, and
    the scratch buffers of [http_response.c]. *)
Record statics := Statics {
  st_response_buffer : bytes;
  st_err_buf : bytes;
  st_etag_buf : bytes;
  st_cl_buf : bytes;
  st_ct_buf : bytes
}.

Definition statics_zero : statics := Statics [] [] [] [] [].

(** What a pointer into static memory refers to. *)
Inductive static_ref :=
  | Literal (s : bytes)
  | ResponseBuffer
  | ErrBuf
  | EtagBuf
  | ClBuf
  | CtBuf.

Definition read_static (r : static_ref) (s : statics) : bytes :=
  match r with
  | Literal b => b
  | ResponseBuffer => st_response_buffer s
  | ErrBuf => st_err_buf s
  | EtagBuf => st_etag_buf s
  | ClBuf => st_cl_buf s
  | CtBuf => st_ct_buf s
  end.

Record s3_response := S3Response {
  rs_http_status : Z;
  rs_content_type : option bytes;
  rs_body : option static_ref;
  rs_body_length : nat;
  rs_etag : bytes
}.
Definition s3_response_zero : s3_response := S3Response 0 None None 0 [].

(** ** Handlers ([access_handlers.c]) *)

Definition ETAG_SIZE : nat := Z.to_nat 257.
Definition PLACEHOLDER : bytes := cs "placeholder_response_data".
Definition RESPONSE_BUFFER_SIZE : Z := 4096.

Definition s3_handler_put (request : s3_request) (body_length : Z) (response : s3_response) : Z * s3_response :=
  (0%Z, S3Response 200 (Some (cs "application/xml")) (rs_body response) (rs_body_length response)
          (snprintf_s ETAG_SIZE (DQ ++ cs "d41d8cd98f00b204e9800998ecf8427e" ++ DQ)).2).

Definition s3_handler_get (request : s3_request) (response : s3_response) : Z * s3_response :=
  (0%Z, S3Response 200 (Some (cs "binary/octet-stream")) (Some (Literal PLACEHOLDER)) (length PLACEHOLDER) (rs_etag response)).

Definition s3_handler_delete (request : s3_request) (response : s3_response) : Z * s3_response :=
  (0%Z, S3Response 204 (rs_content_type response) None 0 (rs_etag response)).

Definition s3_handler_list (request : s3_request) (response : s3_response) (s : statics) : Z * s3_response * statics :=
  match s3_xml_serialize_list_objects RESPONSE_BUFFER_SIZE (rq_bucket request) [] [] 1000
          [cs "example1.txt"; cs "example2.txt"] false with
  | None => ((-1)%Z, response, s)
  | Some text =>
      (0%Z, S3Response 200 (Some (cs "application/xml")) (Some ResponseBuffer) (length text) (rs_etag response),
       Statics text (st_err_buf s) (st_etag_buf s) (st_cl_buf s) (st_ct_buf s))
  end.

(** ** Serialisation ([http_response.c]) *)

Record iovec := Iovec { iov_base : static_ref; iov_len : nat }.
Definition literal (s : bytes) : iovec := Iovec (Literal s) (length s).

Definition HTTP_IOV_MAX : nat := 16.
Definition IOV_HTTP_1_1 : iovec := literal (cs "HTTP/1.1 ").
Definition IOV_CRLF : iovec := literal CRLF.
Definition IOV_CT_XML : iovec := literal (cs "Content-Type: application/xml" ++ CRLF).
Definition IOV_CONN_KA : iovec := literal (cs "Connection: keep-alive" ++ CRLF).
Definition IOV_CONN_CLOSE : iovec := literal (cs "Connection: close" ++ CRLF).

(** The texts and the lengths written next to them. *)
Definition status_table : list (Z * (bytes * nat)) :=
  [(200%Z, (cs "200 OK" ++ CRLF, 9));
   (204%Z, (cs "204 No Content" ++ CRLF, 17));
   (206%Z, (cs "206 Partial Content" ++ CRLF, 22));
   (400%Z, (cs "400 Bad Request" ++ CRLF, 18));
   (403%Z, (cs "403 Forbidden" ++ CRLF, 16));
   (404%Z, (cs "404 Not Found" ++ CRLF, 16));
   (405%Z, (cs "405 Method Not Allowed" ++ CRLF, 25));
   (413%Z, (cs "413 Payload Too Large" ++ CRLF, 24));
   (500%Z, (cs "500 Internal Server Error" ++ CRLF, 27));
   (503%Z, (cs "503 Service Unavailable" ++ CRLF, 25))].

Definition status_line (status : Z) : iovec :=
  match list_find (λ e, e.1 = status) status_table with
  | Some (_, (_, (text, len))) => Iovec (Literal text) len
  | None => Iovec (Literal (cs "500 Internal Server Error" ++ CRLF)) 27
  end.

Definition ETAG_BUF_SIZE : nat := Z.to_nat (256 + 16).
Definition CL_BUF_SIZE : nat := 64.
Definition CT_BUF_SIZE : nat := Z.to_nat (256 + 32).

(** Append an entry unless the array is full. *)
Definition push_iov (max_iov : nat) (v : iovec) (iov : list iovec) : option (list iovec) :=
  if decide (max_iov - length iov < 1) then None else Some (iov ++ [v]).

Definition has_body (response : s3_response) : bool :=
  match rs_body response with Some _ => bool_decide (0 < rs_body_length response) | None => false end.

Definition set_ct_buf (b : bytes) (s : statics) : statics :=
  Statics (st_response_buffer s) (st_err_buf s) (st_etag_buf s) (st_cl_buf s) b.
Definition set_cl_buf (b : bytes) (s : statics) : statics :=
  Statics (st_response_buffer s) (st_err_buf s) (st_etag_buf s) b (st_ct_buf s).
Definition set_etag_buf (b : bytes) (s : statics) : statics :=
  Statics (st_response_buffer s) (st_err_buf s) b (st_cl_buf s) (st_ct_buf s).

(** Each part with the entries so far; [None] in the first component is -1. *)
Definition content_type_part (max_iov : nat) (response : s3_response) (iov : list iovec) (s : statics)
    : option (list iovec) * statics :=
  if decide (max_iov - length iov < 1) then (None, s)
  else match rs_content_type response with
       | Some ((_ :: _) as ct) =>
           let '(w, buf) := snprintf_s CT_BUF_SIZE (cs "Content-Type: " ++ ct ++ CRLF) in
           (Some (iov ++ [Iovec CtBuf w]), set_ct_buf buf s)
       | _ => (Some (if has_body response then iov ++ [IOV_CT_XML] else iov), s)
       end.

Definition etag_part (max_iov : nat) (response : s3_response) (iov : list iovec) (s : statics)
    : option (list iovec) * statics :=
  match rs_etag response with
  | [] => (Some iov, s)
  | etag =>
      if decide (max_iov - length iov < 1) then (None, s)
      else
        let '(w, buf) := snprintf_s ETAG_BUF_SIZE (cs "ETag: " ++ etag ++ CRLF) in
        (Some (iov ++ [Iovec EtagBuf w]), set_etag_buf buf s)
  end.

Definition content_length_part (max_iov : nat) (response : s3_response) (iov : list iovec) (s : statics)
    : option (list iovec) * statics :=
  if has_body response then
    if decide (max_iov - length iov < 1) then (None, s)
    else
      let '(w, buf) := snprintf_s CL_BUF_SIZE (cs "Content-Length: " ++ fmt_u (Z.of_nat (rs_body_length response)) ++ CRLF) in
      (Some (iov ++ [Iovec ClBuf w]), set_cl_buf buf s)
  else (Some iov, s).

Definition body_part (max_iov : nat) (response : s3_response) (iov : list iovec) : option (list iovec) :=
  match rs_body response with
  | Some b => if has_body response then push_iov max_iov (Iovec b (rs_body_length response)) iov else Some iov
  | None => Some iov
  end.

Definition http_response_serialize (response : s3_response) (keep_alive : bool) (max_iov : nat) (s : statics)
    : option (list iovec) * statics :=
  if decide (max_iov < 2) then (None, s)
  else
    match content_type_part max_iov response [IOV_HTTP_1_1; status_line (rs_http_status response)] s with
    | (None, s) => (None, s)
    | (Some iov, s) =>
        match etag_part max_iov response iov s with
        | (None, s) => (None, s)
        | (Some iov, s) =>
            match content_length_part max_iov response iov s with
            | (None, s) => (None, s)
            | (Some iov, s) =>
                (iov ← push_iov max_iov (if keep_alive then IOV_CONN_KA else IOV_CONN_CLOSE) iov;
                 iov ← push_iov max_iov IOV_CRLF iov;
                 body_part max_iov response iov, s)
            end
        end
    end.

(** What the socket sends for an entry: [iov_len] bytes from the buffer, in which a string is
    followed by its NUL. *)
Definition gather_one (s : statics) (v : iovec) : bytes := take (iov_len v) (read_static (iov_base v) s ++ [NUL]).
Definition gather (s : statics) (iov : list iovec) : bytes := concat (gather_one s <$> iov).

Example get_head :
  let '(iov, s) := http_response_serialize (s3_handler_get s3_request_zero s3_response_zero).2 true HTTP_IOV_MAX statics_zero in
  gather s (default [] iov) =
    cs "HTTP/1.1 200 OK" ++ CRLF ++ [NUL] ++ cs "Content-Type: binary/octet-stream" ++ CRLF ++
    cs "Content-Length: 25" ++ CRLF ++ cs "Connection: keep-alive" ++ CRLF ++ CRLF ++ PLACEHOLDER.
Proof. by vm_compute. Qed.

(** ** The XML of a listing *)

(** The document a listing is meant to be. *)
Definition xml_listing (bucket prefix marker : bytes) (max_keys : Z) (keys : list bytes) (is_truncated : bool) : bytes :=
  xml_list_head bucket prefix marker max_keys ++ xml_truncated marker is_truncated ++
  concat (xml_contents <$> keys) ++ xml_list_tail.

(** Writing in pieces is writing the whole. *)
Lemma xml_put_app a b st : xml_put a st ≫= xml_put b = xml_put (a ++ b) st.
Proof.
  destruct st as [out remaining]. unfold xml_put at 2. case_decide as H; cbn [mbind option_bind]; unfold xml_put.
  - rewrite decide_True; [done|]. rewrite length_app. lia.
  - rewrite length_app, (assoc_L (++)).
    destruct (decide (remaining ≤ Z.of_nat (length a + length b))%Z).
    + by rewrite decide_True by lia.
    + rewrite decide_False by lia. do 2 f_equal. lia.
Qed.

Lemma xml_keys_put keys rest st : xml_keys keys st ≫= xml_put rest = xml_put (concat (xml_contents <$> keys) ++ rest) st.
Proof.
  revert st. induction keys as [|key keys IH]; intros st; [done|]. cbn [xml_keys].
  rewrite fmap_cons. cbn [concat]. rewrite <-(assoc_L (++)), <-xml_put_app, option_bind_assoc.
  by apply option_bind_ext_fun.
Qed.

Lemma list_objects_fits buffer_size bucket prefix marker max_keys keys is_truncated :
  s3_xml_serialize_list_objects buffer_size bucket prefix marker max_keys keys is_truncated =
  let doc := xml_listing bucket prefix marker max_keys keys is_truncated in
  if decide (Z.of_nat (length doc) < buffer_size)%Z then Some doc else None.
Proof.
  unfold s3_xml_serialize_list_objects. cbn zeta. case_decide as H0.
  { rewrite decide_False; [done|]. lia. }
  set (h := xml_list_head _ _ _ _). set (t := xml_truncated _ _).
  transitivity (fst <$> xml_put (h ++ t ++ concat (xml_contents <$> keys) ++ xml_list_tail) ([], buffer_size)).
  - rewrite <-!xml_put_app. destruct (xml_put h _) as [st|]; [|done]. cbn [mbind option_bind].
    rewrite <-xml_put_app. destruct (xml_put t st) as [st'|]; [|done]. cbn [mbind option_bind].
    rewrite <-xml_keys_put. destruct (xml_keys keys st') as [st''|]; [|done]. cbn [mbind option_bind].
    by destruct (xml_put xml_list_tail st'').
  - change (h ++ t ++ concat (xml_contents <$> keys) ++ xml_list_tail) with (xml_listing bucket prefix marker max_keys keys is_truncated).
    unfold xml_put. destruct (decide (buffer_size ≤ _)%Z); [rewrite decide_False by lia|rewrite decide_True by lia]; done.
Qed.

(** The listing of the handler always fits. *)
Lemma handler_list_ok request response s : length (rq_bucket request) ≤ S3_MAX_BUCKET_LENGTH →
  ∃ text, s3_handler_list request response s =
    (0%Z, S3Response 200 (Some (cs "application/xml")) (Some ResponseBuffer) (length text) (rs_etag response),
     Statics text (st_err_buf s) (st_etag_buf s) (st_cl_buf s) (st_ct_buf s)) ∧
    text = xml_listing (rq_bucket request) [] [] 1000 [cs "example1.txt"; cs "example2.txt"] false.
Proof.
  intros Hb. unfold s3_handler_list. rewrite list_objects_fits. cbn zeta. rewrite decide_True; [by eexists|].
  unfold xml_listing, xml_list_head. rewrite !length_app. unfold S3_MAX_BUCKET_LENGTH, RESPONSE_BUFFER_SIZE in *.
  repeat match goal with |- context [length ?l] => lazymatch l with context [rq_bucket] => fail | _ =>
    let n := eval vm_compute in (length l) in change (length l) with n end end.
  lia.
Qed.

(** ** The bytes on the wire *)

(** The status line, with the byte that the lengths of all but two lines add to it. *)
Definition status_text (status : Z) : bytes :=
  match list_find (λ e, e.1 = status) status_table with
  | Some (_, (_, (text, _))) => text
  | None => cs "500 Internal Server Error" ++ CRLF
  end.
Definition stray (status : Z) : bytes :=
  if decide (status ∈ [200; 204; 206; 400; 403; 404; 405; 413]%Z) then [NUL] else [].

Definition body_text (response : s3_response) (s : statics) : bytes :=
  if has_body response then take (rs_body_length response) (from_option (λ r, read_static r s) [] (rs_body response)) else [].

Definition headers_text (response : s3_response) (keep_alive : bool) : bytes :=
  match rs_content_type response with
  | Some ((_ :: _) as ct) => cs "Content-Type: " ++ ct ++ CRLF
  | _ => if has_body response then cs "Content-Type: application/xml" ++ CRLF else []
  end ++
  match rs_etag response with [] => [] | etag => cs "ETag: " ++ etag ++ CRLF end ++
  (if has_body response then cs "Content-Length: " ++ fmt_u (Z.of_nat (rs_body_length response)) ++ CRLF else []) ++
  cs "Connection: " ++ (if keep_alive then cs "keep-alive" else cs "close") ++ CRLF ++ CRLF.

(** The body is not in a scratch buffer and is all there; the strings are those of the
    program's responses. *)
Record response_ok (response : s3_response) (s : statics) : Prop := ResponseOk {
  ro_body r : rs_body response = Some r →
    r ∉ [EtagBuf; ClBuf; CtBuf] ∧ rs_body_length response ≤ length (read_static r s);
  ro_type ct : rs_content_type response = Some ct → length ct ≤ Z.to_nat 256;
  ro_etag : length (rs_etag response) ≤ Z.to_nat 256;
  ro_length : fits 32 (Z.of_nat (rs_body_length response))
}.

Lemma gather_app s a b : gather s (a ++ b) = gather s a ++ gather s b.
Proof. unfold gather. by rewrite fmap_app, concat_app. Qed.

Lemma gather_literal s t : gather s [literal t] = t.
Proof. unfold gather, gather_one. simpl. by rewrite app_nil_r, take_app_length. Qed.

Lemma gather_status s status : gather s [status_line status] = status_text status ++ stray status.
Proof.
  unfold status_line, status_text, stray. destruct (list_find _ status_table) as [[i [z [text len]]]|] eqn:E.
  - apply list_find_Some in E as (Hi & <- & _). simpl in *.
    repeat (destruct i as [|i]; [by injection Hi as <- <- <-|]). done.
  - rewrite decide_False; [done|]. intros Hin.
    repeat (apply elem_of_cons in Hin as [->|Hin]; [done|]). by apply elem_of_nil in Hin.
Qed.

Lemma gather_printed s r cap t : read_static r s = (snprintf_s cap t).2 → length t < cap →
  gather s [Iovec r (snprintf_s cap t).1] = t.
Proof.
  intros Hr Hlen. unfold gather, gather_one. cbn [fmap list_fmap concat iov_base iov_len snprintf_s fst].
  rewrite Hr. cbn [snprintf_s snd]. by rewrite app_nil_r, (take_ge t) by lia; rewrite take_app_length.
Qed.

Lemma gather_slice s r n : n ≤ length (read_static r s) → gather s [Iovec r n] = take n (read_static r s).
Proof. intros Hn. unfold gather, gather_one. simpl. by rewrite app_nil_r, take_app_le. Qed.

(** The entries of each part and what becomes of the scratch buffers. *)
Definition type_text (response : s3_response) : option bytes :=
  match rs_content_type response with
  | Some ((_ :: _) as ct) => Some (cs "Content-Type: " ++ ct ++ CRLF)
  | _ => None
  end.
Definition etag_text (response : s3_response) : option bytes :=
  match rs_etag response with [] => None | etag => Some (cs "ETag: " ++ etag ++ CRLF) end.
Definition length_text (response : s3_response) : option bytes :=
  if has_body response then Some (cs "Content-Length: " ++ fmt_u (Z.of_nat (rs_body_length response)) ++ CRLF) else None.

Definition scratch_iov (r : static_ref) (cap : nat) (text : option bytes) : list iovec :=
  match text with Some t => [Iovec r (snprintf_s cap t).1] | None => [] end.

Definition entries (response : s3_response) (keep_alive : bool) : list iovec :=
  [IOV_HTTP_1_1; status_line (rs_http_status response)] ++
  (match type_text response with
   | Some _ => scratch_iov CtBuf CT_BUF_SIZE (type_text response)
   | None => if has_body response then [IOV_CT_XML] else []
   end) ++
  scratch_iov EtagBuf ETAG_BUF_SIZE (etag_text response) ++
  scratch_iov ClBuf CL_BUF_SIZE (length_text response) ++
  [if keep_alive then IOV_CONN_KA else IOV_CONN_CLOSE] ++ [IOV_CRLF] ++
  match rs_body response with
  | Some b => if has_body response then [Iovec b (rs_body_length response)] else []
  | None => []
  end.

Definition scratch_after (response : s3_response) (s : statics) : statics :=
  Statics (st_response_buffer s) (st_err_buf s)
    (from_option (λ t, (snprintf_s ETAG_BUF_SIZE t).2) (st_etag_buf s) (etag_text response))
    (from_option (λ t, (snprintf_s CL_BUF_SIZE t).2) (st_cl_buf s) (length_text response))
    (from_option (λ t, (snprintf_s CT_BUF_SIZE t).2) (st_ct_buf s) (type_text response)).

Lemma serialize_entries response keep_alive max_iov s : 8 ≤ max_iov →
  http_response_serialize response keep_alive max_iov s = (Some (entries response keep_alive), scratch_after response s).
Proof.
  intros Hmax. unfold http_response_serialize, content_type_part, etag_part, content_length_part, body_part, push_iov,
    entries, scratch_after, type_text, etag_text, length_text, has_body.
  rewrite decide_False by lia.
  destruct (rs_content_type response) as [[|c ct]|], (rs_etag response) as [|e etag], (rs_body response) as [b|];
    cbn [length app]; rewrite ?decide_False by lia;
    try (destruct (bool_decide (0 < rs_body_length response)));
    cbn [snprintf_s app length scratch_iov fst snd from_option mbind option_bind];
    repeat (rewrite decide_False by (cbn [length]; lia); cbn [app length mbind option_bind]); by destruct s.
Qed.

Lemma gather_scratch s r cap text d :
  (∀ t, text = Some t → length t < cap) → read_static r s = from_option (λ t, (snprintf_s cap t).2) d text →
  gather s (scratch_iov r cap text) = default [] text.
Proof. intros Hlen Hr. destruct text as [t|]; [|done]. by apply gather_printed; [|apply Hlen]. Qed.

Lemma texts_short response s : response_ok response s →
  (∀ t, type_text response = Some t → length t < CT_BUF_SIZE) ∧
  (∀ t, etag_text response = Some t → length t < ETAG_BUF_SIZE) ∧
  (∀ t, length_text response = Some t → length t < CL_BUF_SIZE).
Proof.
  intros [_ Htype Hetag [_ Hlen]]. unfold type_text, etag_text, length_text, CT_BUF_SIZE, ETAG_BUF_SIZE, CL_BUF_SIZE.
  split_and!; intros t Ht.
  - destruct (rs_content_type response) as [[|c ct]|]; try done. injection Ht as <-.
    specialize (Htype _ eq_refl). simpl in *. rewrite ?length_app. simpl. lia.
  - destruct (rs_etag response) as [|e etag]; [done|]. injection Ht as <-. cbn [length app cs]. rewrite ?length_app. simpl in *. rewrite ?length_app. simpl. lia.
  - case_match; [|done]. injection Ht as <-. pose proof (fmt_u_length 32 _ Hlen). simpl in *. rewrite ?length_app. simpl. lia.
Qed.

Lemma gather_body response s s' : response_ok response s →
  (∀ r, r ∉ [EtagBuf; ClBuf; CtBuf] → read_static r s' = read_static r s) →
  gather s' match rs_body response with
            | Some b => if has_body response then [Iovec b (rs_body_length response)] else []
            | None => []
            end = body_text response s.
Proof.
  intros [Hbody _ _ _] Hread. unfold body_text, has_body. destruct (rs_body response) as [b|]; [|done].
  destruct (Hbody b eq_refl) as [Hb Hn]. case_bool_decide; [|done]. simpl. rewrite <-Hread by done.
  by rewrite gather_slice by (by rewrite Hread).
Qed.

(** The entries name, in order, the status line, the headers, the empty line and the body. *)
Lemma entries_wire response keep_alive s :
  response_ok response s →
  gather (scratch_after response s) (entries response keep_alive) =
    cs "HTTP/1.1 " ++ status_text (rs_http_status response) ++ stray (rs_http_status response) ++
      headers_text response keep_alive ++ body_text response s.
Proof.
  intros Hok.
  destruct (texts_short response s Hok) as (Ht & He & Hl). unfold entries. rewrite !gather_app.
  rewrite (gather_body response s) by (done || (intros []; set_solver)).
  erewrite (gather_scratch _ EtagBuf), (gather_scratch _ ClBuf) by done.
  change (gather ?s [IOV_HTTP_1_1; ?v]) with (cs "HTTP/1.1 " ++ gather s [v]). rewrite gather_status.
  unfold headers_text. rewrite <-!(assoc_L (++)). do 3 f_equal. f_equal; [|f_equal; [|f_equal]].
  - destruct (type_text response) as [t|] eqn:Et.
    + rewrite (gather_scratch _ CtBuf _ _ (st_ct_buf s)) by (done || simpl; by rewrite Et).
      unfold type_text in Et. repeat case_match; try done. by injection Et as <-.
    + unfold type_text in Et. repeat case_match; done.
  - unfold etag_text. by destruct (rs_etag response).
  - unfold length_text. by destruct (has_body response).
  - by destruct keep_alive.
Qed.

(** C20. Serialising a response of the program needs at most 8 of the 16 entries, so it never
    fails, and what the socket then sends is the status line, the headers, the empty line and
    the body, except that for the eight statuses of the table other than 500 and 503 a NUL
    byte follows the status line.  An empty body gets no Content-Length. *)
Theorem http_response_wire response keep_alive max_iov s :
  8 ≤ max_iov → response_ok response s →
  ∃ iov s', http_response_serialize response keep_alive max_iov s = (Some iov, s') ∧ length iov ≤ 8 ∧
    gather s' iov = cs "HTTP/1.1 " ++ status_text (rs_http_status response) ++ stray (rs_http_status response) ++
      headers_text response keep_alive ++ body_text response s.
Proof.
  intros Hmax Hok. eexists _, _. split; [by apply serialize_entries|]. split; [|by apply entries_wire].
  unfold entries, scratch_iov. repeat case_match; simpl; lia.
Qed.

Lemma http_response_wire_witness :
  ∃ iov s', http_response_serialize (s3_handler_put s3_request_zero 0 s3_response_zero).2 false HTTP_IOV_MAX statics_zero = (Some iov, s') ∧
  length iov ≤ 8 ∧
  gather s' iov = cs "HTTP/1.1 200 OK" ++ CRLF ++ [NUL] ++ cs "Content-Type: application/xml" ++ CRLF ++
    cs "ETag: " ++ DQ ++ cs "d41d8cd98f00b204e9800998ecf8427e" ++ DQ ++ CRLF ++ cs "Connection: close" ++ CRLF ++ CRLF.
Proof.
  destruct (http_response_wire (s3_handler_put s3_request_zero 0 s3_response_zero).2 false HTTP_IOV_MAX statics_zero)
    as (iov & s' & Hr & Hlen & Hg).
  - unfold HTTP_IOV_MAX. lia.
  - split; simpl; [done|intros ct [= <-]; simpl; lia|lia|unfold fits; lia].
  - exists iov, s'. split; [exact Hr|]. split; [exact Hlen|]. rewrite Hg. by vm_compute.
Defined.

(** The buffers are static: when two listings of buckets with names of the same length are
    prepared before the first is sent, the first client is sent the second client's
    listing. *)
Theorem responses_share_buffers q1 q2 keep_alive s :
  length (rq_bucket q1) ≤ S3_MAX_BUCKET_LENGTH → length (rq_bucket q2) = length (rq_bucket q1) →
  let '(_, r1, s1) := s3_handler_list q1 s3_response_zero s in
  let '(iov1, s2) := http_response_serialize r1 keep_alive HTTP_IOV_MAX s1 in
  let '(_, r2, s3) := s3_handler_list q2 s3_response_zero s2 in
  let '(iov2, s4) := http_response_serialize r2 keep_alive HTTP_IOV_MAX s3 in
  iov1 = iov2 ∧ read_static ResponseBuffer s4 =
    xml_listing (rq_bucket q2) [] [] 1000 [cs "example1.txt"; cs "example2.txt"] false.
Proof.
  intros H1 H2. destruct (handler_list_ok q1 s3_response_zero s H1) as (t1 & -> & Ht1).
  rewrite serialize_entries by (unfold HTTP_IOV_MAX; lia).
  match goal with |- context [s3_handler_list q2 _ ?st] => destruct (handler_list_ok q2 s3_response_zero st) as (t2 & -> & Ht2) end;
    [by rewrite H2|].
  rewrite serialize_entries by (unfold HTTP_IOV_MAX; lia). split; [|done].
  assert (length t1 = length t2) as ->; [|done].
  subst t1 t2. unfold xml_listing, xml_list_head. rewrite !length_app. by rewrite H2.
Qed.
