(* ===== verification/HttpParser.v ===== *)
(** * The HTTP parser ([src/access/http_parser.c])

    The callbacks that collect a request while llhttp runs over the received bytes, in an
    explicit memory of buffers.  llhttp is not part of the repository: [Llhttp] is what the
    parser calls, a run being the callbacks it makes, each with what it does on every answer,
    and [LlhttpLaws] its documented order of callbacks. *)
From S2P Require Import Prelude Memory Triples HttpText AccessRoutes.
From stdpp Require Import options.

(** ** Buffers *)

(** A heap block of [buf_size] bytes and the bytes written to it so far. *)
Record buffer := Buffer { buf_size : Z; buf_data : bytes }.

(** ** llhttp *)

Inductive llhttp_errno := HPE_OK | HPE_PAUSED | HPE_USER | HPE_OTHER (code : Z).
#[export] Instance llhttp_errno_eq_dec : EqDecision llhttp_errno.
Proof. solve_decision. Defined.

Inductive llhttp_event :=
  | MessageBegin
  | Url (data : bytes)
  | HeaderField (data : bytes)
  | HeaderValue (data : bytes)
  (** with what [llhttp_method_name], [llhttp_should_keep_alive] and [content_length] say *)
  | HeadersComplete (method_name : bytes) (should_keep_alive : bool) (content_length : Z)
  | Body (data : bytes)
  | MessageComplete.

Inductive cb_result := CbOk | CbError | CbPaused.

(** The rest of an execution: its result with the error position, or a callback and what
    follows each answer. *)
Inductive llhttp_run (S : Type) :=
  | Finished (err : llhttp_errno) (error_pos : option nat) (parser : S)
  | Callback (e : llhttp_event) (k : cb_result → llhttp_run S).
Arguments Finished {S}.
Arguments Callback {S}.

Class Llhttp := {
  llhttp_t : Type;
  llhttp_init : llhttp_t;
  llhttp_reset : llhttp_t → llhttp_t;
  llhttp_execute : llhttp_t → bytes → llhttp_run llhttp_t
}.

(** Where in a message the parser is; it is stopped by an error or a pause. *)
Inductive phase := Idle | InHeaders | InBody | Stopped.

Definition next_phase (ph : phase) (e : llhttp_event) (r : cb_result) : phase :=
  match r with
  | CbOk =>
      match e with
      | MessageBegin => InHeaders
      | HeadersComplete _ _ _ => InBody
      | MessageComplete => Idle
      | _ => ph
      end
  | _ => Stopped
  end.

Definition allowed (ph : phase) (e : llhttp_event) : Prop :=
  match ph, e with
  | Idle, MessageBegin => True
  | InHeaders, (Url d | HeaderField d | HeaderValue d) => c_ok d
  | InHeaders, HeadersComplete method_name _ content_length => c_ok method_name ∧ (0 ≤ content_length)%Z
  (* the trailers of a chunked body *)
  | InBody, (HeaderField d | HeaderValue d) => c_ok d
  | InBody, Body d => (Z.of_nat (length d) < 2 ^ 32)%Z
  | InBody, MessageComplete => True
  | _, _ => False
  end.

(** A run over [n] bytes that keeps the order and ends in the phase it reached. *)
Inductive run_ok {S} (phase_of : S → phase) (n : nat) : phase → llhttp_run S → Prop :=
  | run_ok_finished ph err error_pos s :
      phase_of s = ph → (∀ p, error_pos = Some p → p ≤ n) → run_ok phase_of n ph (Finished err error_pos s)
  | run_ok_callback ph e k :
      allowed ph e → (∀ r, run_ok phase_of n (next_phase ph e r) (k r)) → run_ok phase_of n ph (Callback e k).

Class LlhttpLaws (L : Llhttp) := {
  llhttp_phase : llhttp_t → phase;
  llhttp_init_phase : llhttp_phase llhttp_init = Idle;
  llhttp_reset_phase s : llhttp_phase (llhttp_reset s) = Idle;
  llhttp_execute_ok s data : run_ok llhttp_phase (length data) (llhttp_phase s) (llhttp_execute s data)
}.

(** ** The state of a parser ([http_parser.h]) *)

Definition HTTP_MAX_HEADERS : nat := 64.
Definition HTTP_MAX_URI : nat := Z.to_nat 4096.
Definition HTTP_METHOD_MAX : nat := 16.
Definition HTTP_DEFAULT_BODY_BUF : Z := 65536.

Record http_request := HttpRequest {
  hr_s3 : s3_request;
  hr_method : bytes;
  hr_uri : bytes;
  hr_body : option nat;
  hr_body_len : Z;
  hr_body_capacity : Z;
  hr_complete : bool;
  hr_keep_alive : bool
}.

Definition http_request_zero : http_request := HttpRequest s3_request_zero [] [] None 0 0 false false.

Section ctx.
Context {L : Llhttp}.

Record http_parser_ctx := ParserCtx {
  hp_parser : llhttp_t;
  hp_request : http_request;
  hp_header_names : list bytes;
  hp_header_values : list bytes;
  hp_header_count : nat;
  hp_cur_header_name : bytes;
  hp_parsing_header_value : bool;
  hp_error_flag : bool;
  hp_last_error : llhttp_errno;
  hp_max_body_size : Z
}.

Definition with_request (c : http_parser_ctx) (q : http_request) : http_parser_ctx :=
  ParserCtx (hp_parser c) q (hp_header_names c) (hp_header_values c) (hp_header_count c) (hp_cur_header_name c)
    (hp_parsing_header_value c) (hp_error_flag c) (hp_last_error c) (hp_max_body_size c).
Definition with_parser (c : http_parser_ctx) (p : llhttp_t) : http_parser_ctx :=
  ParserCtx p (hp_request c) (hp_header_names c) (hp_header_values c) (hp_header_count c) (hp_cur_header_name c)
    (hp_parsing_header_value c) (hp_error_flag c) (hp_last_error c) (hp_max_body_size c).
Definition with_error (c : http_parser_ctx) (err : llhttp_errno) : http_parser_ctx :=
  ParserCtx (hp_parser c) (hp_request c) (hp_header_names c) (hp_header_values c) (hp_header_count c) (hp_cur_header_name c)
    (hp_parsing_header_value c) true err (hp_max_body_size c).
Definition with_headers (c : http_parser_ctx) (names values : list bytes) (count : nat) (cur : bytes) (parsing : bool)
    : http_parser_ctx :=
  ParserCtx (hp_parser c) (hp_request c) names values count cur parsing (hp_error_flag c) (hp_last_error c)
    (hp_max_body_size c).
End ctx.

(** ** The callbacks *)

(** The doubling loop of [on_body] in [size_t]; [None] after [fuel] rounds. *)
Fixpoint grow (fuel : nat) (needed new_cap : Z) : option Z :=
  if decide (new_cap < needed)%Z then
    match fuel with 0 => None | S fuel => grow fuel needed (u64 (new_cap * 2)) end
  else Some new_cap.

(** More rounds than a [size_t] can double. *)
Definition GROW_FUEL : nat := 64.

Section callbacks.
Context {L : Llhttp} {O : AllocOracle}.
Implicit Types (c : http_parser_ctx) (q : http_request).

Definition on_message_begin c : M buffer (cb_result * http_parser_ctx) :=
  let q := hp_request c in
  let c := ParserCtx (hp_parser c) (HttpRequest (hr_s3 q) [] [] None 0 0 false false) (hp_header_names c)
    (hp_header_values c) 0 (hp_cur_header_name c) false false (hp_last_error c) (hp_max_body_size c) in
  mret (CbOk, c).

Definition on_url (data : bytes) c : M buffer (cb_result * http_parser_ctx) :=
  let q := hp_request c in
  mret (CbOk, with_request c (HttpRequest (hr_s3 q) (hr_method q) (cstr (take (HTTP_MAX_URI - 1) data)) (hr_body q)
    (hr_body_len q) (hr_body_capacity q) (hr_complete q) (hr_keep_alive q))).

(** The count after a value that is over. *)
Definition count_value c : nat :=
  if hp_parsing_header_value c then
    if decide (hp_header_count c < HTTP_MAX_HEADERS) then S (hp_header_count c) else hp_header_count c
  else hp_header_count c.

Definition on_header_field (data : bytes) c : M buffer (cb_result * http_parser_ctx) :=
  mret (CbOk, with_headers c (hp_header_names c) (hp_header_values c) (count_value c)
    (cstr (take S3_MAX_HEADER_LENGTH data)) false).

Definition on_header_value (data : bytes) c : M buffer (cb_result * http_parser_ctx) :=
  let i := hp_header_count c in
  if decide (HTTP_MAX_HEADERS ≤ i) then mret (CbOk, c)
  else
    match hp_header_names c !! i, hp_header_values c !! i with
    | Some name, Some val =>
        let '(name, val) := if hp_parsing_header_value c then (name, val) else (hp_cur_header_name c, []) in
        let val := cstr (val ++ take (S3_MAX_HEADER_LENGTH - length val) data) in
        mret (CbOk, with_headers c (<[i := name]> (hp_header_names c)) (<[i := val]> (hp_header_values c)) i
          (hp_cur_header_name c) true)
    | _, _ => undefined
    end.

(** The allocation is not checked. *)
Definition on_headers_complete (method_str : bytes) (keep_alive : bool) (content_length : Z) c
    : M buffer (cb_result * http_parser_ctx) :=
  let c := with_headers c (hp_header_names c) (hp_header_values c) (count_value c) (hp_cur_header_name c)
    (hp_parsing_header_value c) in
  let q := hp_request c in
  let q := HttpRequest (hr_s3 q) (take (HTTP_METHOD_MAX - 1) method_str) (hr_uri q) (hr_body q) (hr_body_len q)
    (hr_body_capacity q) (hr_complete q) keep_alive in
  if decide (0 < content_length)%Z then
    let alloc_size := if decide (content_length < HTTP_DEFAULT_BODY_BUF)%Z then content_length else HTTP_DEFAULT_BODY_BUF in
    body ← malloc (Buffer alloc_size []);
    mret (CbOk, with_request c (HttpRequest (hr_s3 q) (hr_method q) (hr_uri q) body (hr_body_len q) alloc_size
      (hr_complete q) (hr_keep_alive q)))
  else mret (CbOk, with_request c q).

(** [realloc] of glibc: the new block, holding what fits of the old one, which is freed unless
    there is no memory; a size of 0 frees. *)
Definition realloc (p : option nat) (size : Z) : M buffer (option nat) :=
  match p with
  | None => malloc (Buffer size [])
  | Some l =>
      if decide (size = 0)%Z then _ ← mfree (Some l); mret None else
      b ← mload l;
      p' ← malloc (Buffer size (take (Z.to_nat size) (buf_data b)));
      match p' with
      | None => mret None
      | Some l' => _ ← mfree (Some l); mret (Some l')
      end
  end.

(** [memcpy] to offset [off] of a block: undefined outside of it, and past the bytes written
    so far. *)
Definition write_buffer (p : nat) (off : Z) (data : bytes) : M buffer unit :=
  b ← mload p;
  if decide (off + Z.of_nat (length data) ≤ buf_size b ∧ 0 ≤ off ≤ Z.of_nat (length (buf_data b)))%Z then
    mstore p (Buffer (buf_size b) (take (Z.to_nat off) (buf_data b) ++ data ++
      drop (Z.to_nat off + length data) (buf_data b)))
  else undefined.

Definition set_body q (body : option nat) (len cap : Z) : http_request :=
  HttpRequest (hr_s3 q) (hr_method q) (hr_uri q) body len cap (hr_complete q) (hr_keep_alive q).

(** Making room for [needed] bytes: the request, or [None] without memory. *)
Definition reserve_body (needed : Z) q : M buffer (option http_request) :=
  if decide (hr_body q = None ∨ (hr_body_capacity q < needed)%Z) then
    let new_cap := if decide (hr_body_capacity q ≠ 0)%Z then u32 (hr_body_capacity q * 2) else HTTP_DEFAULT_BODY_BUF in
    match grow GROW_FUEL needed new_cap with
    | None => undefined
    | Some new_cap =>
        new_buf ← realloc (hr_body q) new_cap;
        match new_buf with
        | None => mret None
        | Some _ => mret (Some (set_body q new_buf (hr_body_len q) (u32 new_cap)))
        end
    end
  else mret (Some q).

Definition on_body (data : bytes) c : M buffer (cb_result * http_parser_ctx) :=
  let q := hp_request c in
  let needed := (hr_body_len q + Z.of_nat (length data))%Z in
  if decide (0 < hp_max_body_size c ∧ hp_max_body_size c < needed)%Z then mret (CbError, with_error c HPE_USER)
  else
    r ← reserve_body needed q;
    match r with
    | None => mret (CbError, with_error c (hp_last_error c))
    | Some q =>
        match hr_body q with
        | None => undefined
        | Some p =>
            _ ← write_buffer p (hr_body_len q) data;
            mret (CbOk, with_request c (set_body q (Some p) (u32 (hr_body_len q + Z.of_nat (length data))) (hr_body_capacity q)))
        end
    end.

(** One header into the request. *)
Definition complete_header (name val : bytes) (s3 : s3_request) : s3_request :=
  if decide (strcasecmp name (cs "content-length") = Eq) then set_content_length (strtoull val) s3
  else if decide (strcasecmp name (cs "content-type") = Eq) then set_content_type (take S3_MAX_HEADER_LENGTH val) s3
  else if decide (strcasecmp name (cs "authorization") = Eq) then set_authorization (take S3_MAX_HEADER_LENGTH val) s3
  else if decide (strcasecmp name (cs "host") = Eq) then set_host (take S3_MAX_HEADER_LENGTH val) s3
  else if decide (strcasecmp name (cs "x-amz-date") = Eq) then set_date (take S3_MAX_HEADER_LENGTH val) s3
  else s3.

(** The headers up to the count. *)
Definition headers_of c : list (bytes * bytes) :=
  take (hp_header_count c) (zip (hp_header_names c) (hp_header_values c)).

(** What [header_ptrs] points to up to twice the count. *)
Definition header_ptrs c : list bytes := concat ((λ '(name, val), [name; val]) <$> headers_of c).

Definition on_message_complete c : M buffer (cb_result * http_parser_ctx) :=
  let q := hp_request c in
  let s3 := foldl (λ s3 '(name, val), complete_header name val s3) (hr_s3 q) (headers_of c) in
  mret (CbPaused, with_request c (HttpRequest s3 (hr_method q) (hr_uri q) (hr_body q) (hr_body_len q)
    (hr_body_capacity q) true (hr_keep_alive q))).

Definition run_event (e : llhttp_event) c : M buffer (cb_result * http_parser_ctx) :=
  match e with
  | MessageBegin => on_message_begin c
  | Url data => on_url data c
  | HeaderField data => on_header_field data c
  | HeaderValue data => on_header_value data c
  | HeadersComplete m k n => on_headers_complete m k n c
  | Body data => on_body data c
  | MessageComplete => on_message_complete c
  end.

(** ** Feeding ([http_parser_init], [http_parser_feed], [http_parser_reset]) *)

Definition http_parser_init : http_parser_ctx :=
  ParserCtx llhttp_init http_request_zero (replicate HTTP_MAX_HEADERS []) (replicate HTTP_MAX_HEADERS []) 0 [] false false
    HPE_OK 0.

Fixpoint execute (r : llhttp_run llhttp_t) c : M buffer (llhttp_errno * option nat * http_parser_ctx) :=
  match r with
  | Finished err pos p => mret (err, pos, with_parser c p)
  | Callback e k => '(res, c) ← run_event e c; execute (k res) c
  end.

(** The number of bytes consumed, cut to an [int], or -1. *)
Definition http_parser_feed (c : http_parser_ctx) (data : bytes) : M buffer (Z * http_parser_ctx) :=
  '(err, pos, c) ← execute (llhttp_execute (hp_parser c) data) c;
  if decide (err ≠ HPE_OK ∧ err ≠ HPE_PAUSED) then mret ((-1)%Z, with_error c err)
  else match pos with
       | Some pos => mret (i32 (Z.of_nat pos), c)
       | None => mret (0%Z, c)
       end.

Definition http_request_destroy q : M buffer http_request :=
  _ ← mfree (hr_body q); mret (set_body q None 0 0).

Definition http_parser_reset c : M buffer http_parser_ctx :=
  q ← http_request_destroy (hp_request c);
  mret (ParserCtx (llhttp_reset (hp_parser c)) q (hp_header_names c) (hp_header_values c) 0 (hp_cur_header_name c) false
    false (hp_last_error c) (hp_max_body_size c)).
End callbacks.

(** ** The doubling loop *)

Lemma grow_zero fuel needed : (0 < needed)%Z → grow fuel needed 0 = None.
Proof. intros Hn. induction fuel as [|fuel IH]; simpl; by rewrite decide_True by lia. Qed.

Lemma grow_spec fuel needed cap :
  (0 < cap < 2 ^ 64)%Z → (needed ≤ 2 ^ 63)%Z → (needed ≤ cap * 2 ^ Z.of_nat fuel)%Z →
  ∃ r, grow fuel needed cap = Some r ∧ (needed ≤ r)%Z ∧ (cap ≤ r < 2 ^ 64)%Z ∧ (r = cap ∨ r < 2 * needed)%Z.
Proof.
  revert cap. induction fuel as [|fuel IH]; intros cap Hcap Hn Hf; simpl; case_decide as Hlt.
  - simpl in Hf. lia.
  - exists cap. split_and!; auto; lia.
  - assert (u64 (cap * 2) = cap * 2)%Z as -> by (apply wrap_small; unfold fits; lia).
    destruct (IH (cap * 2)%Z) as (r & -> & ? & ? & Hr); [lia|done| |].
    { rewrite Nat2Z.inj_succ, Z.pow_succ_r in Hf by lia. lia. }
    exists r. split_and!; [done|lia..|]. right. destruct Hr; lia.
  - exists cap. split_and!; auto; lia.
Qed.

Lemma grow_fuel needed cap : (0 < cap < 2 ^ 64)%Z → (needed ≤ 2 ^ 63)%Z →
  ∃ r, grow GROW_FUEL needed cap = Some r ∧ (needed ≤ r)%Z ∧ (cap ≤ r < 2 ^ 64)%Z ∧ (r = cap ∨ r < 2 * needed)%Z.
Proof. intros ??. apply grow_spec; [done..|]. unfold GROW_FUEL. change (2 ^ Z.of_nat 64)%Z with (2 ^ 64)%Z. lia. Qed.

(** C34. The loop that makes room for a body ends exactly when it does not start from 0, within
    64 rounds and with less than twice what is needed or the capacity it started from; and
    since a capacity is doubled in 32 bits first, it starts from 0 exactly for a buffer of
    2 GiB, where a further byte of body makes it run forever. *)
Theorem body_growth_terminates needed cap :
  (0 < needed ≤ 2 ^ 63)%Z → (0 ≤ cap < 2 ^ 32)%Z →
  let start := (if decide (cap ≠ 0) then u32 (cap * 2) else HTTP_DEFAULT_BODY_BUF)%Z in
  ((∃ fuel r, grow fuel needed start = Some r) ↔ cap ≠ 2 ^ 31)%Z ∧
  (cap ≠ 2 ^ 31 → ∃ r, grow GROW_FUEL needed start = Some r ∧ needed ≤ r ∧ (r = start ∨ r < 2 * needed))%Z.
Proof.
  intros Hn Hcap start.
  assert (cap ≠ 2 ^ 31 → 0 < start < 2 ^ 64)%Z as Hstart.
  { intros Hne. subst start. case_decide; [|unfold HTTP_DEFAULT_BODY_BUF; lia].
    unfold wrap. destruct (decide (cap < 2 ^ 31)%Z).
    - rewrite Z.mod_small by lia. lia.
    - replace (cap * 2)%Z with (cap * 2 - 2 ^ 32 + 1 * 2 ^ 32)%Z by lia. rewrite Z.mod_add, Z.mod_small by lia. lia. }
  assert (cap = 2 ^ 31 → start = 0)%Z as Hzero by (by intros ->).
  assert (cap ≠ 2 ^ 31 → ∃ r, grow GROW_FUEL needed start = Some r ∧ needed ≤ r ∧ (r = start ∨ r < 2 * needed))%Z as Hgrow.
  { intros Hne. destruct (grow_fuel needed start (Hstart Hne)) as (r & ? & ? & ? & ?); [lia|eauto]. }
  split; [|done]. split.
  - intros (fuel & r & Hr) Heq. rewrite (Hzero Heq), grow_zero in Hr by lia. done.
  - intros Hne. destruct (Hgrow Hne) as (r & ? & _). eauto.
Qed.

Lemma body_growth_terminates_witness :
  (∃ r, grow GROW_FUEL 100000 (u32 (40000 * 2)) = Some r ∧ 100000 ≤ r)%Z ∧ ¬ ∃ fuel r, grow fuel 3000000000 (u32 (2 ^ 31 * 2)) = Some r.
Proof.
  split.
  - destruct (body_growth_terminates 100000 40000) as [_ H]; [lia..|]. destruct H as (r & Hr & Hle & _); [lia|].
    exists r. by split.
  - destruct (body_growth_terminates 3000000000 (2 ^ 31)) as [H _]; [lia..|]. intros Hex. by apply H in Hex.
Defined.

(** ** Safety of the callbacks *)

#[local] Set Default Proof Using "Type*".

Section safety.
Context {L : Llhttp} {O : AllocOracle}.
Implicit Types (c : http_parser_ctx) (q : http_request) (P : gmap nat buffer).

(** The body of a request is the one block it owns, in which [data] is written. *)
Definition body_data q P (data : bytes) : Prop :=
  hr_body_len q = Z.of_nat (length data) ∧
  match hr_body q with
  | None => P = ∅ ∧ data = [] ∧ (0 ≤ hr_body_capacity q ≤ HTTP_DEFAULT_BODY_BUF)%Z
  | Some p => P = {[p := Buffer (hr_body_capacity q) data]} ∧
      (Z.of_nat (length data) ≤ hr_body_capacity q)%Z ∧ (0 < hr_body_capacity q < 2 ^ 32)%Z
  end.
Definition body_own q P : Prop := ∃ data, body_data q P data.

(** The largest [max_body_size] for which a capacity can always be doubled. *)
Definition MAX_SAFE_BODY : Z := 2 ^ 31.

Record parser_inv (ph : phase) c P : Prop := ParserInv {
  pi_method : length (hr_method (hp_request c)) < HTTP_METHOD_MAX;
  pi_uri : length (hr_uri (hp_request c)) < HTTP_MAX_URI;
  pi_names : length (hp_header_names c) = HTTP_MAX_HEADERS;
  pi_values : length (hp_header_values c) = HTTP_MAX_HEADERS;
  pi_names_short : Forall (λ s, length s ≤ S3_MAX_HEADER_LENGTH) (hp_header_names c);
  pi_values_short : Forall (λ s, length s ≤ S3_MAX_HEADER_LENGTH) (hp_header_values c);
  pi_count : hp_header_count c ≤ HTTP_MAX_HEADERS;
  pi_cur : length (hp_cur_header_name c) ≤ S3_MAX_HEADER_LENGTH;
  pi_max : (0 < hp_max_body_size c ≤ MAX_SAFE_BODY)%Z;
  pi_body : body_own (hp_request c) P;
  pi_body_max : (hr_body_len (hp_request c) ≤ hp_max_body_size c)%Z;
  pi_idle : ph = Idle ∨ ph = InHeaders → hr_body (hp_request c) = None
}.

Lemma triple_realloc p size data old P (Q : option nat → gmap nat buffer → Prop) :
  P = (match p with Some l => {[l := Buffer old data]} | None => ∅ end) →
  (0 < size)%Z → (Z.of_nat (length data) ≤ size)%Z → (p = None → data = []) →
  (∀ l', Q (Some l') {[l' := Buffer size data]}) → ((∃ n, alloc_ok n = false) → Q None P) → triple P (realloc p size) Q.
Proof.
  intros -> Hpos Hsize Hnone Hs Hn. destruct p as [l|]; cbn [realloc].
  - rewrite decide_False by lia. eapply (triple_bind _ _ _ (λ b P', b = Buffer old data ∧ P' = {[l := Buffer old data]})).
    { eapply triple_load; [by rewrite lookup_singleton_eq|done]. }
    intros ? ? [-> ->]. cbn [buf_data]. rewrite take_ge by lia.
    eapply (triple_bind _ _ _ (λ p' P', (p' = None ∧ (∃ n, alloc_ok n = false) ∧ P' = {[l := Buffer old data]}) ∨
      ∃ l', p' = Some l' ∧ l' ≠ l ∧ P' = <[l' := Buffer size data]> {[l := Buffer old data]})).
    { apply triple_malloc_fail; [|auto]. intros l' ?%lookup_singleton_None. right. eauto. }
    intros ? ? [(-> & ? & ->)|(l' & -> & Hne & ->)]; [apply triple_ret; auto|].
    eapply (triple_bind _ _ _ (λ _ P', P' = {[l' := Buffer size data]})).
    { apply triple_free; [by rewrite lookup_insert_ne, lookup_singleton_eq by done|].
      rewrite delete_insert_ne, delete_singleton_eq by done. done. }
    intros _ ? ->. by apply triple_ret.
  - specialize (Hnone eq_refl). subst data. apply triple_malloc_fail; [|done]. intros l _. apply Hs.
Qed.

Lemma reserve_body_triple needed q P data :
  body_data q P data → (hr_body_len q ≤ needed ≤ MAX_SAFE_BODY)%Z →
  triple P (reserve_body needed q) (λ r P',
    match r with
    | None => P' = P ∧ ∃ n, alloc_ok n = false
    | Some q' => ∃ p cap, q' = set_body q (Some p) (hr_body_len q) cap ∧ body_data q' P' data ∧ (needed ≤ cap)%Z
    end).
Proof.
  intros [Hlen Hown] Hn. unfold reserve_body, MAX_SAFE_BODY in *. case_decide as Hgrow.
  - assert (P = match hr_body q with Some l => {[l := Buffer (hr_body_capacity q) data]} | None => ∅ end ∧
      (hr_body q = None → data = []) ∧ (0 ≤ hr_body_capacity q < 2 ^ 31)%Z) as (HP & Hnil & Hcap).
    { unfold HTTP_DEFAULT_BODY_BUF in Hown. destruct (hr_body q) as [p|].
      - destruct Hown as (-> & ? & ?). destruct Hgrow; [done|]. split_and!; [done..|lia|lia].
      - destruct Hown as (-> & ? & ?). split_and!; [done..|lia|lia]. }
    set (start := if decide (hr_body_capacity q ≠ 0%Z) then u32 (hr_body_capacity q * 2) else HTTP_DEFAULT_BODY_BUF).
    assert (0 < start < 2 ^ 32)%Z as Hstart.
    { subst start. case_decide; [|unfold HTTP_DEFAULT_BODY_BUF; lia]. unfold wrap. rewrite Z.mod_small by lia. lia. }
    destruct (grow_fuel needed start) as (r & -> & Hr & Hcap' & Hleast); [lia..|].
    assert (r < 2 ^ 32)%Z as Hr32 by lia.
    eapply (triple_bind _ _ _ (λ p P', match p with None => P' = P ∧ ∃ n, alloc_ok n = false | Some l => P' = {[l := Buffer r data]} end)).
    { by eapply triple_realloc; [exact HP|lia|lia|done|done|]. }
    intros [l|] ? H; apply triple_ret; [|done]. subst. exists l, r.
    assert (u32 r = r) as -> by (apply wrap_small; unfold fits; lia).
    split_and!; [done| |done]. split; simpl; [done|]. split_and!; [done|lia..].
  - apply Decidable.not_or in Hgrow as [Hbody Hcap]. destruct (hr_body q) as [p|] eqn:Hp; [|done].
    apply triple_ret. exists p, (hr_body_capacity q).
    assert (q = set_body q (Some p) (hr_body_len q) (hr_body_capacity q)) as <-.
    { destruct q. simpl in *. by subst. }
    split_and!; [done| |lia]. split; [done|]. by rewrite Hp.
Qed.

Lemma write_buffer_triple p cap data more (Q : unit → gmap nat buffer → Prop) :
  (Z.of_nat (length data + length more) ≤ cap)%Z → Q tt {[p := Buffer cap (data ++ more)]} →
  triple {[p := Buffer cap data]} (write_buffer p (Z.of_nat (length data)) more) Q.
Proof.
  intros Hlen HQ. unfold write_buffer.
  eapply (triple_bind _ _ _ (λ b P', b = Buffer cap data ∧ P' = {[p := Buffer cap data]})).
  { eapply triple_load; [by rewrite lookup_singleton_eq|done]. }
  intros ? ? [-> ->]. cbn [buf_size buf_data]. rewrite decide_True by lia.
  apply triple_store; [by rewrite lookup_singleton_eq|]. rewrite insert_singleton_eq, Nat2Z.id.
  rewrite take_ge, (drop_ge data) by lia. by rewrite app_nil_r.
Qed.

Lemma cstr_take_length n s : length (cstr (take n s)) ≤ n.
Proof. etrans; [apply cstr_length|]. rewrite length_take. lia. Qed.

Lemma count_value_le c : hp_header_count c ≤ HTTP_MAX_HEADERS → count_value c ≤ HTTP_MAX_HEADERS.
Proof. intros ?. unfold count_value. repeat case_match; lia. Qed.

Lemma parser_inv_error ph c P err : parser_inv ph c P → parser_inv Stopped (with_error c err) P.
Proof. intros []. split; simpl; try done. by intros [?|?]. Qed.

(** A piece of body is appended, unless the limit or the memory forbids it. *)
Lemma on_body_data c P old data : parser_inv InBody c P → body_data (hp_request c) P old → (Z.of_nat (length data) < 2 ^ 32)%Z →
  triple P (on_body data c) (λ '(r, c') P', parser_inv (next_phase InBody (Body data) r) c' P' ∧
    (r = CbOk ∧ (∃ p cap, c' = with_request c (set_body (hp_request c) (Some p) (Z.of_nat (length (old ++ data))) cap)) ∧
       body_data (hp_request c') P' (old ++ data) ∨
     r = CbError ∧ ((hp_max_body_size c < Z.of_nat (length (old ++ data)))%Z ∨ ∃ n, alloc_ok n = false))).
Proof.
  intros Hinv Hown Hdata. unfold on_body. pose proof (proj1 Hown) as Hlen. rewrite length_app.
  case_decide as Hmax.
  { apply triple_ret. split; [by apply (parser_inv_error InBody)|]. right. split; [done|left; lia]. }
  pose proof (pi_max _ _ _ Hinv) as Hm. pose proof (pi_body_max _ _ _ Hinv) as Hbm.
  set (q := hp_request c) in *. set (needed := (hr_body_len q + Z.of_nat (length data))%Z) in *.
  assert (needed ≤ hp_max_body_size c)%Z as Hneeded by lia.
  eapply triple_bind; [apply reserve_body_triple; [done|unfold MAX_SAFE_BODY in *; lia]|].
  intros [q'|] P'.
  - intros (p & cap & -> & [_ (-> & Hle & Hcap32)] & Hcap). cbn [hr_body hr_body_len hr_body_capacity set_body] in *.
    eapply (triple_bind _ _ _ (λ _ P, P = {[p := Buffer cap (old ++ data)]})).
    { rewrite Hlen. apply write_buffer_triple; [subst needed; lia|done]. }
    intros _ ? ->. apply triple_ret.
    assert (u32 (hr_body_len q + Z.of_nat (length data)) = Z.of_nat (length old + length data)) as Heq.
    { unfold MAX_SAFE_BODY in Hm. rewrite wrap_small by (unfold fits; lia). lia. }
    assert (body_data (set_body q (Some p) (Z.of_nat (length old + length data)) cap) {[p := Buffer cap (old ++ data)]} (old ++ data)).
    { split; simpl; rewrite length_app; [done|]. split_and!; [done|lia..]. }
    rewrite Heq. split; [|left; split_and!; [done|by exists p, cap|done]].
    destruct Hinv. split; simpl; try done; [by eexists|lia|by intros [?|?]].
  - intros [-> ?]. apply triple_ret. split; [by apply (parser_inv_error InBody)|]. right. auto.
Qed.

Lemma on_body_triple c P data : parser_inv InBody c P → (Z.of_nat (length data) < 2 ^ 32)%Z →
  triple P (on_body data c) (λ '(r, c') P', parser_inv (next_phase InBody (Body data) r) c' P').
Proof.
  intros Hinv ?. destruct (pi_body _ _ _ Hinv) as [old Hold].
  eapply triple_mono; [by eapply on_body_data|]. intros [r c'] P' [? _]. done.
Qed.

Lemma run_event_triple ph e c P : parser_inv ph c P → allowed ph e →
  triple P (run_event e c) (λ '(r, c') P', parser_inv (next_phase ph e r) c' P').
Proof.
  intros Hinv Hall. pose proof (count_value_le c (pi_count _ _ _ Hinv)) as Hcount.
  destruct e as [|d|d|d|method_name ka len|d|]; cbn [run_event].
  - apply triple_ret. destruct ph; try done. destruct Hinv. split; simpl; try done; try (unfold HTTP_METHOD_MAX, HTTP_MAX_URI; lia).
    destruct pi_body0 as (data & Hlen & Hb). rewrite pi_idle0 in Hb by auto. destruct Hb as (-> & -> & _).
    exists []. split; simpl; [done|]. split_and!; [done..|unfold HTTP_DEFAULT_BODY_BUF; lia].
  - apply triple_ret. assert (ph = InHeaders) as -> by (by destruct ph).
    assert (length (cstr (take (HTTP_MAX_URI - 1) d)) < HTTP_MAX_URI) as Huri.
    { eapply Nat.le_lt_trans; [apply cstr_take_length|]. unfold HTTP_MAX_URI. lia. }
    destruct Hinv. by split.
  - apply triple_ret. assert (next_phase ph (HeaderField d) CbOk = ph) as -> by done. destruct Hinv. split; simpl; try done.
    apply cstr_take_length.
  - unfold on_header_value. assert (next_phase ph (HeaderValue d) CbOk = ph) as Hph by done.
    case_decide as Hfull; [apply triple_ret; by rewrite Hph|].
    destruct (lookup_lt_is_Some_2 (hp_header_names c) (hp_header_count c)) as [name Hname]; [rewrite (pi_names _ _ _ Hinv); lia|].
    destruct (lookup_lt_is_Some_2 (hp_header_values c) (hp_header_count c)) as [val Hval]; [rewrite (pi_values _ _ _ Hinv); lia|].
    rewrite Hname, Hval.
    destruct (if hp_parsing_header_value c then _ else _) as [name' val'] eqn:Hnv.
    assert (length name' ≤ S3_MAX_HEADER_LENGTH ∧ length val' ≤ S3_MAX_HEADER_LENGTH) as [Hn' Hv'].
    { pose proof (proj1 (Forall_lookup _ _) (pi_names_short _ _ _ Hinv) _ _ Hname).
      pose proof (proj1 (Forall_lookup _ _) (pi_values_short _ _ _ Hinv) _ _ Hval).
      pose proof (pi_cur _ _ _ Hinv). destruct (hp_parsing_header_value c); injection Hnv as <- <-; simpl; auto with lia. }
    apply triple_ret. rewrite Hph. destruct Hinv. split; simpl; rewrite ?length_insert; try done.
    + by apply Forall_insert.
    + apply Forall_insert; [done|]. etrans; [apply cstr_length|]. rewrite length_app, length_take. lia.
  - unfold on_headers_complete. destruct ph; try done. destruct Hall as [_ Hlen].
    pose proof (pi_idle _ _ _ Hinv ltac:(auto)) as Hnone.
    assert (length (take (HTTP_METHOD_MAX - 1) method_name) < HTTP_METHOD_MAX) as Hm.
    { rewrite length_take. unfold HTTP_METHOD_MAX. lia. }
    destruct (pi_body _ _ _ Hinv) as (data & Hlen' & Hown). rewrite Hnone in Hown. destruct Hown as (-> & -> & Hcap).
    case_decide as Hpos.
    + set (size := if decide (len < HTTP_DEFAULT_BODY_BUF)%Z then len else HTTP_DEFAULT_BODY_BUF).
      assert (0 < size ≤ HTTP_DEFAULT_BODY_BUF)%Z as Hsize by (subst size; unfold HTTP_DEFAULT_BODY_BUF; case_decide; lia).
      eapply (triple_bind _ _ _ (λ body P', match body with None => P' = ∅ | Some p => P' = {[p := Buffer size []]} end)).
      { by apply triple_malloc. }
      intros body P' HP. apply triple_ret. destruct Hinv. split; simpl; try done; [|by intros [?|?]].
      exists []. split; simpl; [done|]. unfold HTTP_DEFAULT_BODY_BUF in *.
      destruct body as [p|]; subst P'; (split_and!; first [done|lia]).
    + apply triple_ret. destruct Hinv. by split.
  - destruct ph; try done. by apply on_body_triple.
  - apply triple_ret. destruct ph; try done. destruct Hinv. split; simpl; try done. by intros [?|?].
Qed.

Lemma run_event_max e c : ∀ h r c' h', run_event e c h = Some ((r, c'), h') → hp_max_body_size c' = hp_max_body_size c.
Proof.
  intros h r c' h'. destruct e; cbn [run_event]; unfold on_message_begin, on_url, on_header_field, on_header_value,
    on_headers_complete, on_body, on_message_complete, mbind, M_bind, mret, M_ret, undefined; intros H;
    repeat case_match; by simplify_eq.
Qed.

Lemma run_event_max_triple ph e c P : parser_inv ph c P → allowed ph e →
  triple P (run_event e c) (λ '(r, c') P', parser_inv (next_phase ph e r) c' P' ∧ hp_max_body_size c' = hp_max_body_size c).
Proof.
  intros Hinv Hall h F Hwf Hc Hd. destruct (run_event_triple ph e c P Hinv Hall h F Hwf Hc Hd) as ([r c'] & h' & P' & Hr & H).
  exists (r, c'), h', P'. split_and!; try apply H; [done|]. by eapply run_event_max.
Qed.

Section laws.
Context {LL : LlhttpLaws L}.

(** The invariant of a parser between calls. *)
Definition parser_ok c P : Prop := parser_inv (llhttp_phase (hp_parser c)) c P.

Lemma execute_triple n ph r c P : run_ok llhttp_phase n ph r → parser_inv ph c P →
  triple P (execute r c) (λ '(_, pos, c') P', parser_ok c' P' ∧ hp_max_body_size c' = hp_max_body_size c ∧
    ∀ p, pos = Some p → p ≤ n).
Proof.
  intros Hr. revert c P. induction Hr as [ph err pos s Hs Hpos|ph e k Hall _ IH]; intros c P Hinv; cbn [execute].
  - apply triple_ret. split; [|done]. unfold parser_ok. simpl. rewrite Hs. by destruct Hinv.
  - eapply triple_bind; [by apply run_event_max_triple|]. intros [res c'] P' [Hinv' <-]. by apply IH.
Qed.

Lemma parser_ok_error c P err : parser_ok c P → parser_ok (with_error c err) P.
Proof. unfold parser_ok. simpl. by intros []. Qed.

Lemma feed_triple c data P : parser_ok c P →
  triple P (http_parser_feed c data) (λ '(n, c') P', parser_ok c' P' ∧ hp_max_body_size c' = hp_max_body_size c ∧
    (n ≤ Z.of_nat (length data))%Z).
Proof.
  intros Hok. unfold http_parser_feed. eapply triple_bind; [by eapply execute_triple; [apply llhttp_execute_ok|]|].
  intros [[err pos] c'] P' (Hok' & Hmax & Hpos). case_decide; [apply triple_ret; split_and!; [by apply parser_ok_error|done|lia]|].
  destruct pos as [p|]; apply triple_ret; (split_and!; [done|done|]); [|lia].
  specialize (Hpos p eq_refl). pose proof (i32_le (Z.of_nat p)). lia.
Qed.

Lemma destroy_triple q P : body_own q P → triple P (http_request_destroy q) (λ q' P', q' = set_body q None 0 0 ∧ P' = ∅).
Proof.
  intros (data & _ & Hown). unfold http_request_destroy. destruct (hr_body q) as [p|].
  - destruct Hown as (-> & _). eapply (triple_bind _ _ _ (λ _ P, P = ∅)).
    + apply triple_free; [by rewrite lookup_singleton_eq|apply delete_singleton_eq].
    + intros _ ? ->. by apply triple_ret.
  - destruct Hown as (-> & _). eapply (triple_bind _ _ _ (λ _ P, P = ∅)); [by apply triple_free_null|].
    intros _ ? ->. by apply triple_ret.
Qed.

Lemma reset_triple c P : parser_ok c P → triple P (http_parser_reset c) (λ c' P', parser_ok c' P' ∧ hp_max_body_size c' = hp_max_body_size c ∧
  hr_s3 (hp_request c') = hr_s3 (hp_request c) ∧ P' = ∅).
Proof.
  intros Hok. unfold http_parser_reset. eapply triple_bind; [apply destroy_triple, (pi_body _ _ _ Hok)|].
  intros ? ? [-> ->]. apply triple_ret. split_and!; [|done..]. unfold parser_ok. cbn [hp_parser].
  rewrite llhttp_reset_phase. pose proof (pi_max _ _ _ Hok) as [Hm _].
  destruct Hok. split; simpl; try done; try lia.
  exists []. split; simpl; [done|]. split_and!; [done..|unfold HTTP_DEFAULT_BODY_BUF; lia].
Qed.

Definition with_max_body (n : Z) c : http_parser_ctx :=
  ParserCtx (hp_parser c) (hp_request c) (hp_header_names c) (hp_header_values c) (hp_header_count c)
    (hp_cur_header_name c) (hp_parsing_header_value c) (hp_error_flag c) (hp_last_error c) n.

Lemma init_ok n : (0 < n ≤ MAX_SAFE_BODY)%Z → parser_ok (with_max_body n http_parser_init) ∅.
Proof.
  intros Hn. unfold parser_ok. cbn [hp_parser with_max_body http_parser_init]. rewrite llhttp_init_phase.
  split; cbn -[replicate]; rewrite ?length_replicate; try done; try lia; try (by apply Forall_replicate; simpl; lia).
  - unfold HTTP_METHOD_MAX. lia.
  - unfold HTTP_MAX_URI. lia.
  - exists []. split; simpl; [done|]. split_and!; [done..|unfold HTTP_DEFAULT_BODY_BUF; lia].
Qed.
End laws.
End safety.

(** ** Sequences of calls *)

Inductive parser_call := Feed (data : bytes) | Reset.

Section calls.
Context {L : Llhttp} {LL : LlhttpLaws L} {O : AllocOracle}.
Implicit Types (c : http_parser_ctx) (q : http_request) (P : gmap nat buffer).

Fixpoint run_calls (calls : list parser_call) c : M buffer http_parser_ctx :=
  match calls with
  | [] => mret c
  | Feed data :: calls => '(_, c) ← http_parser_feed c data; run_calls calls c
  | Reset :: calls => c ← http_parser_reset c; run_calls calls c
  end.

Lemma run_calls_triple calls : ∀ c P, parser_ok c P → triple P (run_calls calls c) (λ c' P', parser_ok c' P' ∧ hp_max_body_size c' = hp_max_body_size c).
Proof.
  induction calls as [|[data|] calls IH]; intros c P Hok; cbn [run_calls].
  - by apply triple_ret.
  - eapply triple_bind; [by apply feed_triple|]. intros [n c'] P' (Hok' & <- & _). by apply IH.
  - eapply triple_bind; [by apply reset_triple|]. intros c' P' (Hok' & <- & _). by apply IH.
Qed.
End calls.


(** ** A message *)

(** The run that delivers [es], stops at an error or a pause, and has then consumed [n]
    bytes; [st] is the parser left in a phase. *)
Fixpoint drive {S} (st : phase → S) (n : nat) (ph : phase) (es : list llhttp_event) : llhttp_run S :=
  match es with
  | [] => Finished HPE_OK None (st ph)
  | e :: es => Callback e (λ r,
      match r with
      | CbOk => drive st n (next_phase ph e CbOk) es
      | CbError => Finished HPE_USER (Some n) (st Stopped)
      | CbPaused => Finished HPE_PAUSED (Some n) (st Stopped)
      end)
  end.

Definition message (method uri : bytes) (headers : list (bytes * bytes)) (keep_alive : bool) (content_length : Z)
    (chunks : list bytes) : list llhttp_event :=
  [MessageBegin; Url uri] ++ concat ((λ '(name, val), [HeaderField name; HeaderValue val]) <$> headers) ++
  [HeadersComplete method keep_alive content_length] ++ (Body <$> chunks) ++ [MessageComplete].

Fixpoint events_ok (ph : phase) (es : list llhttp_event) : Prop :=
  match es with [] => True | e :: es => allowed ph e ∧ events_ok (next_phase ph e CbOk) es end.

Lemma drive_ok {S} (phase_of : S → phase) st n m ph es : (∀ ph, phase_of (st ph) = ph) →
  m ≤ n → events_ok ph es → run_ok phase_of n ph (drive st m ph es).
Proof.
  intros Hst Hm. revert ph. induction es as [|e es IH]; intros ph Hes; simpl.
  - by constructor.
  - destruct Hes as [Hall Hes]. constructor; [done|]. intros []; [by apply IH|constructor; naive_solver..].
Qed.

(** An llhttp that takes whatever it is given for the same small message. *)
Definition small_message (data : bytes) : list llhttp_event :=
  message (cs "PUT") (cs "/bucket/key") [(cs "Host", cs "example"); (cs "Content-Type", cs "text/plain")] true
    (Z.of_nat (length (take 100 data))) [take 100 data].

#[export] Instance small_llhttp : Llhttp := {|
  llhttp_t := phase;
  llhttp_init := Idle;
  llhttp_reset _ := Idle;
  llhttp_execute ph data := match ph with Idle => drive id (length data) Idle (small_message data) | _ => Finished (HPE_OTHER 1) None ph end
|}.

Lemma small_message_ok data : events_ok Idle (small_message data).
Proof.
  unfold small_message, message. simpl. rewrite length_take. split_and!; try done; try lia; by apply (bool_decide_unpack _).
Qed.

#[export] Program Instance small_laws : LlhttpLaws small_llhttp := {| llhttp_phase := id |}.
Next Obligation. done. Qed.
Next Obligation. done. Qed.
Next Obligation.
  intros ph data. destruct ph; [|by constructor..]. apply (drive_ok id id _ _ Idle); [done|done|apply small_message_ok].
Qed.


(** ** What a request parses to *)

Section parse.
Context {L : Llhttp} {O : AllocOracle}.
Hypothesis all_ok : ∀ n, alloc_ok n = true.
Implicit Types (c : http_parser_ctx) (q : http_request) (P : gmap nat buffer) (hs : list (bytes * bytes)).

(** The headers [hs] are in, the last one perhaps not counted yet. *)
Record headers_in c hs : Prop := HeadersIn {
  hi_names : length (hp_header_names c) = HTTP_MAX_HEADERS;
  hi_values : length (hp_header_values c) = HTTP_MAX_HEADERS;
  hi_room : length hs ≤ HTTP_MAX_HEADERS;
  hi_count : count_value c = length hs;
  hi_held : take (length hs) (zip (hp_header_names c) (hp_header_values c)) = hs
}.

Lemma take_zip_insert (names values : list bytes) k n v : k < length names → k < length values →
  take (S k) (zip (<[k := n]> names) (<[k := v]> values)) = take k (zip names values) ++ [(n, v)].
Proof.
  intros Hn Hv. rewrite (take_S_r _ _ (n, v)).
  - f_equal. apply list_eq. intros i. rewrite !lookup_take. case_decide; [|done].
    rewrite !lookup_zip_with, !list_lookup_insert_ne by lia. done.
  - by rewrite lookup_zip_with, !list_lookup_insert_eq by done.
Qed.

Lemma drive_step st n ph e es c P (I : http_parser_ctx → gmap nat buffer → Prop) Q :
  triple P (run_event e c) (λ '(r, c') P', r = CbOk ∧ I c' P') →
  (∀ c' P', I c' P' → triple P' (execute (drive st n (next_phase ph e CbOk) es) c') Q) →
  triple P (execute (drive st n ph (e :: es)) c) Q.
Proof. intros He Hes. cbn [drive execute]. eapply triple_bind; [exact He|]. intros [? c'] P' [-> HI]. by apply Hes. Qed.

Lemma inv_no_body ph c P : parser_inv ph c P → ph = Idle ∨ ph = InHeaders → P = ∅.
Proof. intros Hinv Hph. destruct (pi_body _ _ _ Hinv) as (data & _ & H). rewrite (pi_idle _ _ _ Hinv Hph) in H. by destruct H. Qed.

(** A callback before the body, with what it makes of the parser. *)
Lemma drive_early st n ph e es c c' Q :
  parser_inv ph c ∅ → allowed ph e → ph = Idle ∨ ph = InHeaders →
  (∀ h : mem buffer, run_event e c h = Some ((CbOk, c'), h)) →
  (parser_inv (next_phase ph e CbOk) c' ∅ → triple ∅ (execute (drive st n (next_phase ph e CbOk) es) c') Q) →
  triple ∅ (execute (drive st n ph (e :: es)) c) Q.
Proof.
  intros Hinv Hall Hph Hrun Hk.
  assert (parser_inv (next_phase ph e CbOk) c' ∅) as Hinv'.
  { destruct (run_event_triple ph e c ∅ Hinv Hall mem_empty ∅) as ([r c''] & h' & P' & Hr & _ & Hc & _ & Hinv');
      [apply mem_wf_empty|done|apply map_disjoint_empty_l|].
    rewrite Hrun in Hr. injection Hr as <- <- <-. simpl in Hc. rewrite (right_id_L ∅ (∪)) in Hc. by subst P'. }
  apply (drive_step _ _ _ _ _ _ _ (λ c1 P1, c1 = c' ∧ P1 = ∅)).
  - intros h F Hwf Hc Hd. exists (CbOk, c'), h, ∅. by rewrite Hrun.
  - intros ? ? [-> ->]. by apply Hk.
Qed.

(** The headers of a message, one callback for each name and value. *)
Lemma drive_headers st n hs es : ∀ done c Q,
  parser_inv InHeaders c ∅ → headers_in c done → length (done ++ hs) ≤ HTTP_MAX_HEADERS →
  Forall (λ '(name, val), c_ok name ∧ c_ok val ∧ length name ≤ S3_MAX_HEADER_LENGTH ∧ length val ≤ S3_MAX_HEADER_LENGTH) hs →
  (∀ c', hp_request c' = hp_request c → hp_parser c' = hp_parser c → hp_max_body_size c' = hp_max_body_size c →
     parser_inv InHeaders c' ∅ → headers_in c' (done ++ hs) → triple ∅ (execute (drive st n InHeaders es) c') Q) →
  triple ∅ (execute (drive st n InHeaders (concat ((λ '(name, val), [HeaderField name; HeaderValue val]) <$> hs) ++ es)) c) Q.
Proof.
  induction hs as [|[name val] hs IH]; intros done c Q Hinv Hin Hroom Hhs Hk.
  { apply Hk; [done..|]. by rewrite app_nil_r. }
  apply Forall_cons in Hhs as [(Hn & Hv & Hnl & Hvl) Hhs]. rewrite length_app in Hroom. simpl in Hroom.
  rewrite fmap_cons. cbn [concat]. rewrite <-(assoc_L (++)). cbn [app].
  assert (cstr (take S3_MAX_HEADER_LENGTH name) = name) as Hcn by (by rewrite take_ge, cstr_id).
  assert (cstr ([] ++ take (S3_MAX_HEADER_LENGTH - length (@nil byte)) val) = val) as Hcv.
  { change (length (@nil byte)) with 0. rewrite Nat.sub_0_r, take_ge by done. by rewrite app_nil_l, cstr_id. }
  destruct Hin as [Hnames Hvalues Hr Hcount Hheld]. set (k := length done) in *.
  eapply (drive_early _ _ _ _ _ _ (with_headers c (hp_header_names c) (hp_header_values c) k name false)); [done|done|auto| |].
  { intros h. cbn [run_event]. unfold on_header_field. by rewrite Hcn, Hcount. }
  intros Hinv1. cbn [next_phase] in *.
  eapply (drive_early _ _ _ _ _ _ (with_headers c (<[k := name]> (hp_header_names c))
    (<[k := val]> (hp_header_values c)) k name true)); [done|done|auto| |].
  { intros h. unfold run_event, on_header_value. cbn [hp_header_count hp_header_names hp_header_values with_headers].
    rewrite decide_False by lia.
    destruct (lookup_lt_is_Some_2 (hp_header_names c) k) as [? ->]; [lia|].
    destruct (lookup_lt_is_Some_2 (hp_header_values c) k) as [? ->]; [lia|].
    change (hp_parsing_header_value _) with false. cbv iota beta. by rewrite Hcv. }
  intros Hinv2. cbn [next_phase] in *.
  apply (IH (done ++ [(name, val)])); [done| |by rewrite <-(assoc_L (++)), length_app; simpl; lia|done|].
  - split; cbn [hp_header_names hp_header_values with_headers]; rewrite ?length_insert, ?length_app; simpl; try lia.
    + unfold count_value. simpl. rewrite decide_True by lia. fold k. lia.
    + fold k. replace (k + 1) with (S k) by lia. rewrite take_zip_insert by lia. by rewrite Hheld.
  - intros c' Hq Hp Hm Hi Hin. apply Hk; [done..|]. by rewrite <-(assoc_L (++)) in Hin.
Qed.

(** Only the body of the request differs. *)
Definition same_but_body c c' : Prop := ∃ b len cap, c' = with_request c (set_body (hp_request c) b len cap).

(** The pieces of a body, as many and as large as the limit allows. *)
Lemma drive_bodies st n chunks es : ∀ old c P Q,
  parser_inv InBody c P → body_data (hp_request c) P old →
  (Z.of_nat (length (old ++ concat chunks)) ≤ hp_max_body_size c)%Z →
  (∀ c' P', same_but_body c c' → body_data (hp_request c') P' (old ++ concat chunks) →
     triple P' (execute (drive st n InBody es) c') Q) →
  triple P (execute (drive st n InBody ((Body <$> chunks) ++ es)) c) Q.
Proof.
  induction chunks as [|chunk chunks IH]; intros old c P Q Hinv Hdata Hmax Hk.
  { apply Hk; [|by rewrite app_nil_r]. exists (hr_body (hp_request c)), (hr_body_len (hp_request c)), (hr_body_capacity (hp_request c)).
    by destruct c as [? [] ? ? ? ? ? ? ? ?]. }
  cbn [concat] in Hmax. rewrite fmap_cons, <-app_comm_cons. pose proof (pi_max _ _ _ Hinv) as Hm. unfold MAX_SAFE_BODY in Hm.
  rewrite !length_app in Hmax.
  eapply (drive_step _ _ _ _ _ _ _ (λ c' P', parser_inv InBody c' P' ∧ same_but_body c c' ∧
    body_data (hp_request c') P' (old ++ chunk))).
  { eapply triple_mono; [apply on_body_data; [done|done|lia]|]. intros [r c'] P' [Hinv' [(-> & (p & cap & ->) & Hd)|(-> & [Hlt|[i Hi]])]].
    - split_and!; [done|done|by eexists _, _, _|done].
    - rewrite length_app in Hlt. lia.
    - by rewrite all_ok in Hi. }
  intros c' P' (Hinv' & (b & len & cap & ->) & Hd). cbn [next_phase].
  apply (IH (old ++ chunk)); [done|done|simpl; rewrite !length_app; lia|].
  intros c'' P'' (b' & len' & cap' & ->) Hd'. apply Hk; [by exists b', len', cap'|].
  cbn [concat]. by rewrite (assoc_L (++)).
Qed.

Lemma body_data_empty q P : body_own q P → hr_body_len q = 0%Z → body_data q P [].
Proof.
  intros (data & Hlen & H) Hz. assert (data = []) as -> by (destruct data; [done|simpl in Hlen; lia]). by split.
Qed.

Lemma headers_complete_triple c method keep_alive len : parser_inv InHeaders c ∅ → c_ok method → (0 ≤ len)%Z →
  triple ∅ (run_event (HeadersComplete method keep_alive len) c) (λ '(r, c') P', r = CbOk ∧ parser_inv InBody c' P' ∧
    hp_header_names c' = hp_header_names c ∧ hp_header_values c' = hp_header_values c ∧ hp_header_count c' = count_value c ∧
    hp_max_body_size c' = hp_max_body_size c ∧ body_data (hp_request c') P' [] ∧
    ∃ b k, hp_request c' = HttpRequest (hr_s3 (hp_request c)) (take (HTTP_METHOD_MAX - 1) method) (hr_uri (hp_request c))
      b 0 k (hr_complete (hp_request c)) keep_alive).
Proof.
  intros Hinv Hm Hlen. pose proof (pi_idle _ _ _ Hinv ltac:(auto)) as Hnone.
  destruct (pi_body _ _ _ Hinv) as (data & Hbl & Hown). rewrite Hnone in Hown. destruct Hown as (_ & -> & _). simpl in Hbl.
  eapply triple_mono.
  - apply (triple_and _ _ _ (λ '(r, c'), r = CbOk ∧
      hp_header_names c' = hp_header_names c ∧ hp_header_values c' = hp_header_values c ∧ hp_header_count c' = count_value c ∧
      hp_max_body_size c' = hp_max_body_size c ∧
      ∃ b k, hp_request c' = HttpRequest (hr_s3 (hp_request c)) (take (HTTP_METHOD_MAX - 1) method) (hr_uri (hp_request c))
        b 0 k (hr_complete (hp_request c)) keep_alive) (run_event_triple InHeaders (HeadersComplete method keep_alive len) c ∅ Hinv (conj Hm Hlen))).
    intros h [r c'] h' Hr. cbn [run_event] in Hr. unfold on_headers_complete, mbind, M_bind, mret, M_ret, malloc in Hr.
    repeat case_match; simplify_eq; simpl; rewrite ?Hbl; eauto 10.
  - intros [r c'] P' (Hinv' & -> & ? & ? & ? & ? & b & k & Hq). split_and!; [done..| |by exists b, k].
    apply body_data_empty; [apply (pi_body _ _ _ Hinv')|by rewrite Hq].
Qed.
(** The events of a message, one after the other. *)
Lemma message_run st n c method uri hs keep_alive len chunks :
  parser_inv Idle c ∅ →
  c_ok method → length method < HTTP_METHOD_MAX → c_ok uri → length uri < HTTP_MAX_URI →
  length hs ≤ HTTP_MAX_HEADERS →
  Forall (λ '(name, val), c_ok name ∧ c_ok val ∧ length name ≤ S3_MAX_HEADER_LENGTH ∧ length val ≤ S3_MAX_HEADER_LENGTH) hs →
  (0 ≤ len)%Z → (Z.of_nat (length (concat chunks)) ≤ hp_max_body_size c)%Z →
  triple ∅ (execute (drive st n Idle (message method uri hs keep_alive len chunks)) c) (λ '(err, pos, c') P',
    err = HPE_PAUSED ∧ pos = Some n ∧ hp_parser c' = st Stopped ∧ headers_of c' = hs ∧
    body_data (hp_request c') P' (concat chunks) ∧
    ∃ b k, hp_request c' = HttpRequest (foldl (λ s3 '(name, val), complete_header name val s3) (hr_s3 (hp_request c)) hs)
      method uri b (Z.of_nat (length (concat chunks))) k true keep_alive).
Proof.
  intros Hinv Hmc Hml Huc Hul Hhs Hall Hlen Hbody. unfold message. cbn [app].
  eapply drive_early; [done|done|auto|intros h; reflexivity|]. cbn [next_phase]. intros Hinv1.
  eapply drive_early; [done|done|auto|intros h; reflexivity|]. cbn [next_phase]. intros Hinv2.
  eapply (drive_headers _ _ _ _ []); [done| |done|done|].
  { by split; cbn -[zip]; try apply Hinv; try lia. }
  intros c3 Hq3 _ Hm3 Hinv3 [Hnames Hvalues _ Hcount Hheld]. cbn in Hq3, Hm3.
  eapply drive_step.
  { eapply triple_mono; [by apply headers_complete_triple|]. intros [r c'] P' [-> H]. split; [done|exact H]. }
  intros c4 P4 (Hinv4 & Hn4 & Hv4 & Hc4 & Hm4 & Hd4 & b4 & k4 & Hq4). cbn [next_phase].
  eapply (drive_bodies _ _ _ _ []); [done|done|by rewrite Hm4, Hm3|].
  intros c5 P5 (b5 & len5 & k5 & ->) Hd5. cbn [drive execute run_event].
  assert (headers_of c4 = hs) as Hhs4 by (unfold headers_of; by rewrite Hn4, Hv4, Hc4, Hcount, Hheld).
  assert (take (HTTP_METHOD_MAX - 1) method = method) as Hmethod by (apply take_ge; unfold HTTP_METHOD_MAX in *; simpl; lia).
  assert (hr_uri (hp_request c3) = uri) as Huri.
  { rewrite Hq3. cbn [hr_uri]. rewrite take_ge by (unfold HTTP_MAX_URI in *; lia). by apply cstr_id. }
  eapply (triple_bind _ _ _ (λ '(r, c') P', r = CbPaused ∧ P' = P5 ∧
    c' = with_request c4 (HttpRequest (foldl (λ s3 '(name, val), complete_header name val s3) (hr_s3 (hp_request c)) hs)
      method uri b5 (Z.of_nat (length (concat chunks))) k5 true keep_alive))).
  { apply triple_ret. split_and!; [done..|]. change (headers_of _) with (headers_of c4). rewrite Hhs4.
    destruct Hd5 as [Hlen5 _]. simpl in Hlen5. cbn [hp_request with_request set_body hr_body_len hr_s3 hr_method hr_uri hr_body
      hr_body_capacity hr_keep_alive]. rewrite Hlen5, Hq4. cbn [hr_s3 hr_method hr_uri hr_keep_alive].
    by rewrite Hmethod, Huri, Hq3. }
  intros [? ?] ? (-> & -> & ->). apply triple_ret. split_and!; [done..| | |by exists b5, k5].
  - by change (headers_of _) with (headers_of c4).
  - destruct Hd5 as [Hlen5 H5]. simpl in *. by split.
Qed.
End parse.

(** C7. When the allocator answers, a message whose parts fit their buffers is parsed to what it
    says: the method, the URI, its headers in order, the connection flag, and the body, which
    is the concatenation of the pieces however it was cut; the fields of the S3 request are
    those of its recognised headers over what the request held before. *)
Theorem parse_message {L : Llhttp} {O : AllocOracle} st n c data method uri hs keep_alive len chunks :
  (∀ i, alloc_ok i = true) → llhttp_execute (hp_parser c) data = drive st n Idle (message method uri hs keep_alive len chunks) →
  parser_inv Idle c ∅ →
  c_ok method → length method < HTTP_METHOD_MAX → c_ok uri → length uri < HTTP_MAX_URI →
  length hs ≤ HTTP_MAX_HEADERS →
  Forall (λ '(name, val), c_ok name ∧ c_ok val ∧ length name ≤ S3_MAX_HEADER_LENGTH ∧ length val ≤ S3_MAX_HEADER_LENGTH) hs →
  (0 ≤ len)%Z → (Z.of_nat (length (concat chunks)) ≤ hp_max_body_size c)%Z →
  triple ∅ (http_parser_feed c data) (λ '(consumed, c') P',
    consumed = i32 (Z.of_nat n) ∧ hp_parser c' = st Stopped ∧ headers_of c' = hs ∧
    body_data (hp_request c') P' (concat chunks) ∧
    ∃ b k, hp_request c' = HttpRequest (foldl (λ s3 '(name, val), complete_header name val s3) (hr_s3 (hp_request c)) hs)
      method uri b (Z.of_nat (length (concat chunks))) k true keep_alive).
Proof.
  intros Hok Hexec Hinv Hmc Hml Huc Hul Hhs Hall Hlen Hbody. unfold http_parser_feed. rewrite Hexec.
  eapply triple_bind; [by apply message_run|]. intros [[err pos] c'] P' (-> & -> & H).
  rewrite decide_False by naive_solver. by apply triple_ret.
Qed.

Lemma parse_message_witness :
  ∃ c h', http_parser_feed (L := small_llhttp) (O := no_oom) (with_max_body 100 http_parser_init) (cs "abcd") mem_empty = Some ((4%Z, c), h') ∧
    headers_of c = [(cs "Host", cs "example"); (cs "Content-Type", cs "text/plain")] ∧ hr_body_len (hp_request c) = 4%Z ∧
    from_option (λ p, buf_data <$> mem_cells h' !! p) None (hr_body (hp_request c)) = Some (cs "abcd").
Proof.
  destruct (parse_message (L := small_llhttp) (O := no_oom) id 4 (with_max_body 100 http_parser_init) (cs "abcd") (cs "PUT") (cs "/bucket/key")
    [(cs "Host", cs "example"); (cs "Content-Type", cs "text/plain")] true 4 [cs "abcd"])
    with (h := mem_empty (A := buffer)) (F := ∅ : gmap nat buffer) as ([r c] & h' & P & Hr & _ & Hc & _ & -> & _ & Hh & [_ Hd] & b & k & Hq).
  - done.
  - done.
  - apply (init_ok (LL := small_laws) 100). unfold MAX_SAFE_BODY. lia.
  - by apply (bool_decide_unpack _).
  - unfold HTTP_METHOD_MAX. simpl. lia.
  - by apply (bool_decide_unpack _).
  - unfold HTTP_MAX_URI. simpl. lia.
  - unfold HTTP_MAX_HEADERS. simpl. lia.
  - repeat constructor; try by apply (bool_decide_unpack _); simpl; lia.
  - lia.
  - simpl. lia.
  - apply mem_wf_empty.
  - done.
  - apply map_disjoint_empty_l.
  - exists c, h'. split; [exact Hr|]. split; [exact Hh|]. rewrite Hq. split; [done|]. simpl in Hc.
    rewrite (right_id_L ∅ (∪)) in Hc. rewrite Hq in Hd. simpl in *. destruct b as [p|].
    + destruct Hd as [-> _]. rewrite Hc. simpl. by rewrite lookup_singleton_eq.
    + by destruct Hd as (_ & ? & _).
Defined.

(** ** What the parser gets wrong *)

Section findings.
Context {L : Llhttp} {O : AllocOracle}.
Implicit Types c : http_parser_ctx.

(** llhttp reports a URL that arrives in two pieces by two callbacks; the second replaces
    the first. *)
Theorem split_url_lost a b c h c1 h1 r1 r2 c2 h2 :
  on_url a c h = Some ((r1, c1), h1) → on_url b c1 h1 = Some ((r2, c2), h2) →
  hr_uri (hp_request c2) = cstr (take (HTTP_MAX_URI - 1) b).
Proof. unfold on_url, mret, M_ret. intros ??. by simplify_eq. Qed.

(** A reset forgets neither that a request is complete nor the headers it carried. *)
Theorem reset_keeps_request c h c' h' :
  http_parser_reset c h = Some (c', h') →
  hr_complete (hp_request c') = hr_complete (hp_request c) ∧ hr_s3 (hp_request c') = hr_s3 (hp_request c) ∧
  hr_method (hp_request c') = hr_method (hp_request c) ∧ hr_uri (hp_request c') = hr_uri (hp_request c).
Proof.
  unfold http_parser_reset, http_request_destroy, mbind, M_bind, mret, M_ret. intros H. repeat case_match; by simplify_eq.
Qed.

(** Without a header of that name the next request keeps the authorisation of the last. *)
Theorem authorization_kept (hs : list (bytes * bytes)) s3 :
  Forall (λ '(name, _), strcasecmp name (cs "authorization") ≠ Eq) hs →
  rq_authorization (foldl (λ s3 '(name, val), complete_header name val s3) s3 hs) = rq_authorization s3.
Proof.
  revert s3. induction hs as [|[name val] hs IH]; intros s3 H; [done|]. apply Forall_cons in H as [Hn H].
  cbn [foldl]. rewrite IH by done. unfold complete_header. rewrite (decide_False (P := strcasecmp name (cs "authorization") = Eq)) by done.
  by repeat case_decide.
Qed.
End findings.

(** The value of the last header stays marked as being read, so a header after the body counts
    a slot that nothing filled: the header is lost and one of an earlier request shows up. *)
Theorem trailer_shows_stale_header :
  let c0 := with_headers (L := small_llhttp) (with_max_body 100 http_parser_init)
    (<[1 := cs "Authorization"]> (replicate HTTP_MAX_HEADERS [])) (<[1 := cs "old"]> (replicate HTTP_MAX_HEADERS [])) 0 [] false in
  ∃ c h, execute (L := small_llhttp) (O := no_oom) (drive id 10 Idle ([MessageBegin; Url (cs "/b"); HeaderField (cs "Host"); HeaderValue (cs "h");
      HeadersComplete (cs "GET") true 0; HeaderField (cs "Trailer"); HeaderValue (cs "t"); MessageComplete])) c0
      (mem_empty (A := buffer)) = Some ((HPE_PAUSED, Some 10, c), h) ∧
    headers_of c = [(cs "Host", cs "h"); (cs "Authorization", cs "old")] ∧
    rq_authorization (hr_s3 (hp_request c)) = cs "old".
Proof. eexists _, _. split; [by vm_compute|]. split; by vm_compute. Qed.
