(* ===== verification/HttpServer.v ===== *)
(** * The HTTP server ([src/access/http_server.c], [access_server.c])

    Connections as a state machine over an explicit memory, the poller that drives them, and
    the life of the server.  What the sockets and the clock do is an argument: the bytes a
    receive finds, the connections that wait, the writes that have completed.  A write request
    belongs to the socket layer from [spdk_sock_writev_async] until its callback. *)
From S2P Require Import Prelude Memory Triples HttpText AccessRoutes HttpResponse HttpParser.
From stdpp Require Import options.

Definition DEFAULT_MAX_CONNECTIONS : Z := 1024.
Definition DEFAULT_KEEP_ALIVE_TIMEOUT : Z := 5000.
Definition DEFAULT_REQUEST_TIMEOUT : Z := 30000.
Definition DEFAULT_MAX_REQUEST_BODY : Z := 64 * 1024 * 1024.
Definition DEFAULT_RECV_BUF_SIZE : Z := 65536.

(** The sizes of the blocks, on a 64-bit machine: a connection's is never looked at. *)
Definition CONN_SIZE : Z := 1.
Definition SOCK_REQUEST_SIZE : Z := 64.
Definition IOVEC_SIZE : Z := 16.

Inductive conn_state := CONN_IDLE | CONN_READING | CONN_DISPATCHING | CONN_WRITING | CONN_CLOSING.
#[export] Instance conn_state_eq_dec : EqDecision conn_state.
Proof. solve_decision. Defined.

(** The calls of the socket layer that the server makes. *)
Inductive sock_call :=
  | SockClose (sock : nat)
  | GroupAdd (sock : nat)
  | GroupRemove (sock : nat)
  | GroupClose
  | Writev (sock : nat) (iov : list iovec).

(** The static buffers, [last_timeout_check], and the calls made so far. *)
Record world := World { w_statics : statics; w_last_timeout_check : Z; w_calls : list sock_call }.
Definition call (c : sock_call) (w : world) : world := World (w_statics w) (w_last_timeout_check w) (w_calls w ++ [c]).
Definition set_statics (s : statics) (w : world) : world := World s (w_last_timeout_check w) (w_calls w).

Section server.
Context {L : Llhttp} {O : AllocOracle}.

(** [http_conn_t]; [hc_self] is its address. *)
Record http_conn := HttpConn {
  hc_self : nat;
  hc_sock : nat;
  hc_parser_ctx : http_parser_ctx;
  hc_recv_buf : option nat;
  hc_recv_buf_size : Z;
  hc_recv_len : Z;
  hc_state : conn_state;
  hc_write_req : option nat;
  hc_last_active_ts : Z
}.

Definition set_state (st : conn_state) (c : http_conn) : http_conn :=
  HttpConn (hc_self c) (hc_sock c) (hc_parser_ctx c) (hc_recv_buf c) (hc_recv_buf_size c) (hc_recv_len c) st
    (hc_write_req c) (hc_last_active_ts c).
Definition set_parser (p : http_parser_ctx) (c : http_conn) : http_conn :=
  HttpConn (hc_self c) (hc_sock c) p (hc_recv_buf c) (hc_recv_buf_size c) (hc_recv_len c) (hc_state c)
    (hc_write_req c) (hc_last_active_ts c).
Definition set_recv (buf : option nat) (size len : Z) (c : http_conn) : http_conn :=
  HttpConn (hc_self c) (hc_sock c) (hc_parser_ctx c) buf size len (hc_state c) (hc_write_req c) (hc_last_active_ts c).
Definition set_write_req (r : option nat) (c : http_conn) : http_conn :=
  HttpConn (hc_self c) (hc_sock c) (hc_parser_ctx c) (hc_recv_buf c) (hc_recv_buf_size c) (hc_recv_len c) (hc_state c)
    r (hc_last_active_ts c).
Definition set_active (now : Z) (c : http_conn) : http_conn :=
  HttpConn (hc_self c) (hc_sock c) (hc_parser_ctx c) (hc_recv_buf c) (hc_recv_buf_size c) (hc_recv_len c) (hc_state c)
    (hc_write_req c) now.

(** ** Writing a response *)

Definition ERR_BUF_SIZE : nat := Z.to_nat 512.

Definition fill_error_response (status : Z) (code msg : bytes) (s : statics) : s3_response * statics :=
  let '(w, buf) := s3_xml_serialize_error ERR_BUF_SIZE code msg in
  (S3Response status (Some (cs "application/xml")) (Some ErrBuf) w [],
   Statics (st_response_buffer s) buf (st_etag_buf s) (st_cl_buf s) (st_ct_buf s)).

Definition http_conn_on_write_done (c : http_conn) : M buffer http_conn :=
  if decide (hr_keep_alive (hp_request (hc_parser_ctx c)) = true ∧ hc_state c ≠ CONN_CLOSING) then
    p ← http_parser_reset (hc_parser_ctx c); mret (set_state CONN_READING (set_parser p c))
  else mret (set_state CONN_CLOSING c).

Definition on_write_complete (c : http_conn) : M buffer http_conn :=
  let req := hc_write_req c in
  c ← http_conn_on_write_done (set_write_req None c);
  _ ← mfree req;
  mret c.

(** [inline]: the write completes before the call returns. *)
Definition conn_write_response (inline : bool) (c : http_conn) (resp : s3_response) (w : world) : M buffer (http_conn * world) :=
  let '(iov, s) := http_response_serialize resp (hr_keep_alive (hp_request (hc_parser_ctx c))) HTTP_IOV_MAX (w_statics w) in
  let w := set_statics s w in
  match iov with
  | None => mret (set_state CONN_CLOSING c, w)
  | Some iov =>
      req ← malloc (Buffer (SOCK_REQUEST_SIZE + Z.of_nat (length iov) * IOVEC_SIZE) []);
      match req with
      | None => mret (set_state CONN_CLOSING c, w)
      | Some _ =>
          let c := set_state CONN_WRITING (set_write_req req c) in
          let w := call (Writev (hc_sock c) iov) w in
          if inline then c ← on_write_complete c; mret (c, w) else mret (c, w)
      end
  end.

(** ** Dispatch *)

Definition conn_error_response (inline : bool) (status : Z) (code msg : string) (c : http_conn) (w : world)
    : M buffer (http_conn * world) :=
  let '(resp, s) := fill_error_response status (cs code) (cs msg) (w_statics w) in
  conn_write_response inline c resp (set_statics s w).

(** The handler of an operation: its result, the response and the static buffers. *)
Definition run_handler (q : http_request) (s : statics) : Z * s3_response * statics :=
  match rq_operation (hr_s3 q) with
  | S3_OPERATION_PUT_OBJECT => let '(r, resp) := s3_handler_put (hr_s3 q) (hr_body_len q) s3_response_zero in (r, resp, s)
  | S3_OPERATION_GET_OBJECT => let '(r, resp) := s3_handler_get (hr_s3 q) s3_response_zero in (r, resp, s)
  | S3_OPERATION_HEAD_OBJECT =>
      let '(r, resp) := s3_handler_get (hr_s3 q) s3_response_zero in
      (r, S3Response (rs_http_status resp) (rs_content_type resp) None 0 (rs_etag resp), s)
  | S3_OPERATION_DELETE_OBJECT => let '(r, resp) := s3_handler_delete (hr_s3 q) s3_response_zero in (r, resp, s)
  | S3_OPERATION_LIST_OBJECTS => s3_handler_list (hr_s3 q) s3_response_zero s
  | _ => let '(resp, s) := fill_error_response 405 (cs "MethodNotAllowed") [] s in (0%Z, resp, s)
  end.

Definition set_s3 (s3 : s3_request) (q : http_request) : http_request :=
  HttpRequest s3 (hr_method q) (hr_uri q) (hr_body q) (hr_body_len q) (hr_body_capacity q) (hr_complete q) (hr_keep_alive q).

Definition http_conn_dispatch (inline : bool) (c : http_conn) (w : world) : M buffer (http_conn * world) :=
  let p := hc_parser_ctx c in
  let q := hp_request p in
  let '(result, s3) := s3_route_parse (hr_method q) (hr_uri q) (header_ptrs p) (hr_s3 q) in
  let q := set_s3 s3 q in
  let c := set_parser (with_request p q) (set_state CONN_DISPATCHING c) in
  if decide (result ≠ 0)%Z then conn_error_response inline 400 "InvalidRequest" "Could not parse request" c w
  else if decide (rq_authorization s3 ≠ [] ∧ sigv4_validate (rq_authorization s3) ≠ SIGV4_OK) then
    conn_error_response inline 403 "SignatureDoesNotMatch" "The request signature does not match" c w
  else
    let '(result, response, s) := run_handler q (w_statics w) in
    let '(response, s) := if decide (result ≠ 0)%Z then fill_error_response 500 (cs "InternalError") (cs "Handler failed") s
                          else (response, s) in
    conn_write_response inline c response (set_statics s w).

(** ** Reading *)

(** Room for 4096 more bytes, and how much room there is; [None] when the buffer could not be
    enlarged. *)
Definition ensure_space (c : http_conn) : M buffer (http_conn * option Z) :=
  let space := u32 (hc_recv_buf_size c - hc_recv_len c) in
  if decide (space < 4096)%Z then
    let size := u32 (hc_recv_buf_size c * 2) in
    buf ← realloc (hc_recv_buf c) size;
    let c := set_recv buf size (hc_recv_len c) c in
    mret (c, match buf with None => None | Some _ => Some (u32 (size - hc_recv_len c)) end)
  else mret (c, Some space).

Definition recv_buffer (c : http_conn) : M buffer (nat * buffer) :=
  match hc_recv_buf c with
  | None => undefined
  | Some p => b ← mload p; mret (p, b)
  end.

(** The bytes [consumed] leave the front of the buffer. *)
Definition discard (consumed : Z) (c : http_conn) : M buffer http_conn :=
  let rest := u32 (hc_recv_len c - consumed) in
  '(p, b) ← recv_buffer c;
  _ ← (if decide (consumed < hc_recv_len c)%Z then
         mstore p (Buffer (buf_size b) (drop (Z.to_nat consumed) (take (Z.to_nat (hc_recv_len c)) (buf_data b)) ++
           drop (Z.to_nat rest) (buf_data b)))
       else mret tt);
  mret (set_recv (hc_recv_buf c) (hc_recv_buf_size c) rest c).

Definition drop_keep_alive (c : http_conn) : http_conn :=
  let q := hp_request (hc_parser_ctx c) in
  set_parser (with_request (hc_parser_ctx c) (HttpRequest (hr_s3 q) (hr_method q) (hr_uri q) (hr_body q) (hr_body_len q)
    (hr_body_capacity q) (hr_complete q) false)) c.

(** The [data] that was received goes behind what the buffer holds, and all of it to the parser. *)
Definition http_conn_receive (inline : bool) (data : bytes) (c : http_conn) (w : world) : M buffer (http_conn * world) :=
  '(p, _) ← recv_buffer c;
  _ ← write_buffer p (hc_recv_len c) data;
  let c := set_recv (hc_recv_buf c) (hc_recv_buf_size c) (u32 (hc_recv_len c + Z.of_nat (length data))) c in
  '(_, b) ← recv_buffer c;
  '(result, ctx) ← http_parser_feed (hc_parser_ctx c) (take (Z.to_nat (hc_recv_len c)) (buf_data b));
  let c := set_parser ctx c in
  if decide (result < 0)%Z then
    conn_error_response inline 400 "InvalidRequest" "HTTP parse error" (drop_keep_alive c) w
  else
    c ← discard result c;
    if hr_complete (hp_request (hc_parser_ctx c)) then http_conn_dispatch inline c w else mret (c, w).

(** [incoming]: what the socket holds; nothing, an end or an error makes the receive return 0
    or less. *)
Definition http_conn_on_readable (now : Z) (incoming : bytes) (inline : bool) (c : http_conn) (w : world)
    : M buffer (http_conn * world) :=
  '(c, space) ← ensure_space (set_active now c);
  match space with
  | None => mret (set_state CONN_CLOSING c, w)
  | Some space =>
      match take (Z.to_nat space) incoming with
      | [] => mret (set_state CONN_CLOSING c, w)
      | data => http_conn_receive inline data c w
      end
  end.

(** ** Closing *)

(** [aborts]: closing the socket calls back the write that is pending. *)
Definition http_conn_close (aborts : bool) (c : http_conn) (w : world) : M buffer world :=
  let w := call (SockClose (hc_sock c)) (call (GroupRemove (hc_sock c)) w) in
  c ← match hc_write_req c with
      | Some _ => if aborts then on_write_complete c else mret c
      | None => mret c
      end;
  _ ← http_request_destroy (hp_request (hc_parser_ctx c));
  _ ← mfree (hc_write_req c);
  _ ← mfree (hc_recv_buf c);
  _ ← mfree (Some (hc_self c));
  mret w.

(** ** The server *)

Record http_server := HttpServer {
  hs_self : nat;
  hs_listen_sock : nat;
  hs_conn_list : list http_conn;
  hs_conn_count : Z;
  hs_max_connections : Z;
  hs_keep_alive_timeout_ms : Z;
  hs_request_timeout_ms : Z;
  hs_max_request_body : Z;
  hs_running : bool
}.

Definition set_conns (cs : list http_conn) (n : Z) (s : http_server) : http_server :=
  HttpServer (hs_self s) (hs_listen_sock s) cs n (hs_max_connections s) (hs_keep_alive_timeout_ms s)
    (hs_request_timeout_ms s) (hs_max_request_body s) (hs_running s).

Definition http_conn_accept (sock : nat) (now : Z) (s : http_server) (w : world) : M buffer (http_server * world) :=
  if decide (hs_max_connections s ≤ hs_conn_count s)%Z then mret (s, call (SockClose sock) w)
  else
    conn ← malloc (Buffer CONN_SIZE []);
    match conn with
    | None => mret (s, w)
    | Some self =>
        recv_buf ← malloc (Buffer DEFAULT_RECV_BUF_SIZE []);
        match recv_buf with
        | None => _ ← mfree (Some self); mret (s, w)
        | Some _ =>
            let c := HttpConn self sock (with_max_body (hs_max_request_body s) http_parser_init) recv_buf
              DEFAULT_RECV_BUF_SIZE 0 CONN_READING None now in
            mret (set_conns (hs_conn_list s ++ [c]) (u32 (hs_conn_count s + 1)) s, call (GroupAdd sock) w)
        end
    end.

(** What one poll finds: the connections whose writes have completed, the sockets that wait
    to be accepted, what each connection's socket holds, whether its write completes at
    once, and the readings of the clock. *)
Record poll_env := PollEnv {
  pe_completed : nat → bool;
  pe_waiting : list (nat * Z);
  pe_incoming : nat → bytes;
  pe_inline : nat → bool;
  pe_aborts : bool;
  pe_now : nat → Z;
  pe_end : Z;
  pe_check : Z
}.

(** [spdk_sock_group_poll] calls back the writes that have completed. *)
Fixpoint complete_writes (completed : nat → bool) (cs : list http_conn) : M buffer (list http_conn) :=
  match cs with
  | [] => mret []
  | c :: cs =>
      c ← match hc_write_req c with
          | Some _ => if completed (hc_sock c) then on_write_complete c else mret c
          | None => mret c
          end;
      cs ← complete_writes completed cs;
      mret (c :: cs)
  end.

Fixpoint accept_all (waiting : list (nat * Z)) (s : http_server) (w : world) : M buffer (http_server * world) :=
  match waiting with
  | [] => mret (s, w)
  | (sock, now) :: waiting => '(s, w) ← http_conn_accept sock now s w; accept_all waiting s w
  end.

(** The loop over the connections: those that stay, and their number. *)
Fixpoint poll_conns (e : poll_env) (cs : list http_conn) (n : Z) (w : world) : M buffer (list http_conn * Z * world) :=
  match cs with
  | [] => mret ([], n, w)
  | c :: cs =>
      '(c, w) ← (if decide (hc_state c = CONN_READING ∨ hc_state c = CONN_IDLE) then
                   http_conn_on_readable (pe_now e (hc_sock c)) (pe_incoming e (hc_sock c)) (pe_inline e (hc_sock c)) c w
                 else mret (c, w));
      if decide (hc_state c = CONN_CLOSING) then
        w ← http_conn_close (pe_aborts e) c w;
        poll_conns e cs (u32 (n - 1)) w
      else
        '(cs, n, w) ← poll_conns e cs n w;
        mret (c :: cs, n, w)
  end.

Definition timed_out (s : http_server) (now : Z) (c : http_conn) : bool :=
  let idle := u64 (now - hc_last_active_ts c) in
  bool_decide (hc_state c = CONN_READING ∧ hs_request_timeout_ms s < idle)%Z
  || bool_decide (hc_state c = CONN_IDLE ∧ hs_keep_alive_timeout_ms s < idle)%Z.

Fixpoint check_timeouts (aborts : bool) (s : http_server) (now : Z) (cs : list http_conn) (n : Z) (w : world)
    : M buffer (list http_conn * Z * world) :=
  match cs with
  | [] => mret ([], n, w)
  | c :: cs =>
      if timed_out s now c then
        w ← http_conn_close aborts c w;
        check_timeouts aborts s now cs (u32 (n - 1)) w
      else
        '(cs, n, w) ← check_timeouts aborts s now cs n w;
        mret (c :: cs, n, w)
  end.

Definition http_server_poll (e : poll_env) (s : http_server) (w : world) : M buffer (http_server * world) :=
  if negb (hs_running s) then mret (s, w)
  else
    cs ← complete_writes (pe_completed e) (hs_conn_list s);
    '(s, w) ← accept_all (pe_waiting e) (set_conns cs (hs_conn_count s) s) w;
    '(cs, n, w) ← poll_conns e (hs_conn_list s) (hs_conn_count s) w;
    let s := set_conns cs n s in
    if decide (1000 ≤ u64 (pe_end e - w_last_timeout_check w))%Z then
      '(cs, n, w) ← check_timeouts (pe_aborts e) s (pe_check e) (hs_conn_list s) (hs_conn_count s) w;
      mret (set_conns cs n s, World (w_statics w) (pe_end e) (w_calls w))
    else mret (s, w).

(** ** Life of the server *)

Definition SERVER_SIZE : Z := 1.

Record http_server_config := ServerConfig {
  sc_listen_host : bytes;
  sc_listen_port : Z;
  sc_max_connections : Z;
  sc_keep_alive_timeout_ms : Z;
  sc_request_timeout_ms : Z;
  sc_max_request_body : Z
}.

Definition or_default (v d : Z) : Z := if decide (0 < v)%Z then v else d.

(** With the listening socket, or [None], and whether a socket group can be created. *)
Definition http_server_create (config : http_server_config) (listen : option nat) (group_ok : bool) (w : world)
    : M buffer (option http_server * world) :=
  server ← malloc (Buffer SERVER_SIZE []);
  match server with
  | None => mret (None, w)
  | Some self =>
      match listen with
      | None => _ ← mfree (Some self); mret (None, w)
      | Some sock =>
          if negb group_ok then _ ← mfree (Some self); mret (None, call (SockClose sock) w)
          else
            mret (Some (HttpServer self sock [] 0 (or_default (sc_max_connections config) DEFAULT_MAX_CONNECTIONS)
              (or_default (sc_keep_alive_timeout_ms config) DEFAULT_KEEP_ALIVE_TIMEOUT)
              (or_default (sc_request_timeout_ms config) DEFAULT_REQUEST_TIMEOUT)
              (or_default (sc_max_request_body config) DEFAULT_MAX_REQUEST_BODY) true), call (GroupAdd sock) w)
      end
  end.

Fixpoint close_all (aborts : bool) (cs : list http_conn) (w : world) : M buffer world :=
  match cs with
  | [] => mret w
  | c :: cs => w ← http_conn_close aborts c w; close_all aborts cs w
  end.

Definition http_server_destroy (aborts : bool) (s : option http_server) (w : world) : M buffer world :=
  match s with
  | None => mret w
  | Some s =>
      w ← close_all aborts (hs_conn_list s) w;
      let w := call GroupClose (call (SockClose (hs_listen_sock s)) (call (GroupRemove (hs_listen_sock s)) w)) in
      _ ← mfree (Some (hs_self s));
      mret w
  end.

Definition http_server_start (config : http_server_config) (listen : option nat) (group_ok : bool) (w : world)
    : M buffer (Z * option http_server * world) :=
  '(s, w) ← http_server_create config listen group_ok w;
  mret (match s with Some _ => 0%Z | None => (-1)%Z end, s, w).

Definition http_server_stop : bool → option http_server → world → M buffer world := http_server_destroy.

(** [access_server.c]: [g_server] is the state. *)
Definition access_server_start (config : option http_server_config) (listen : option nat) (group_ok : bool)
    (g_server : option http_server) (w : world) : M buffer (Z * option http_server * world) :=
  match config with
  | None => mret ((-1)%Z, g_server, w)
  | Some config =>
      '(result, g_server, w) ← http_server_start config listen group_ok w;
      mret (if decide (result ≠ 0)%Z then (-1)%Z else 0%Z, g_server, w)
  end.

Definition access_server_stop (aborts : bool) (g_server : option http_server) (w : world)
    : M buffer (option http_server * world) :=
  w ← http_server_stop aborts g_server w; mret (None, w).
End server.

(** ** What a connection owns *)

#[local] Set Default Proof Using "Type*".

Section conns.
Context {L : Llhttp} {LL : LlhttpLaws L} {O : AllocOracle}.
Implicit Types (c : http_conn) (w : world) (P : gmap nat buffer) (ms rest : list (gmap nat buffer)).

Definition recv_ok c (R : gmap nat buffer) : Prop :=
  match hc_recv_buf c with
  | None => R = ∅
  | Some p => ∃ b, R = {[p := b]} ∧ buf_size b = hc_recv_buf_size c ∧
      (0 ≤ hc_recv_len c ≤ Z.of_nat (length (buf_data b)))%Z ∧ (Z.of_nat (length (buf_data b)) ≤ buf_size b)%Z ∧
      ∃ k : nat, k ≤ 15 ∧ hc_recv_buf_size c = (DEFAULT_RECV_BUF_SIZE * 2 ^ Z.of_nat k)%Z
  end.

(** The connection itself, its receive buffer and the body of its request. *)
Definition conn_base c ms : Prop := ∃ R B,
  ms = [{[hc_self c := Buffer CONN_SIZE []]}; R; B] ∧ recv_ok c R ∧ parser_ok (hc_parser_ctx c) B.

(** And the write request, exactly while it is writing. *)
Definition conn_res c ms : Prop := ∃ W ms',
  ms = W :: ms' ∧ conn_base c ms' ∧ (hc_recv_buf c = None → hc_state c = CONN_CLOSING) ∧
  match hc_write_req c with
  | Some r => hc_state c = CONN_WRITING ∧ ∃ b, W = {[r := b]}
  | None => hc_state c ∈ [CONN_READING; CONN_CLOSING] ∧ W = ∅
  end.

(** Only the state, the parser and the write request may differ. *)
Definition same_conn c c' : Prop :=
  hc_self c' = hc_self c ∧ hc_sock c' = hc_sock c ∧ hc_recv_buf c' = hc_recv_buf c ∧
  hc_recv_buf_size c' = hc_recv_buf_size c ∧ hc_recv_len c' = hc_recv_len c.

Lemma recv_ok_same c c' R : same_conn c c' → recv_ok c R → recv_ok c' R.
Proof. unfold recv_ok. by intros (_ & _ & -> & -> & ->). Qed.

Lemma conn_base_same c c' ms : same_conn c c' → hc_parser_ctx c' = hc_parser_ctx c → conn_base c ms → conn_base c' ms.
Proof.
  intros Hs Hp (R & B & -> & HR & HB). pose proof (recv_ok_same _ _ _ Hs HR). exists R, B. rewrite Hp.
  destruct Hs as (-> & _). by split_and!.
Qed.

(** ** Each operation gives back what it took *)

Lemma write_done_triple c ms rest P : conn_base c ms → sep (ms ++ rest) P →
  triple P (http_conn_on_write_done c) (λ c' P', ∃ ms', conn_base c' ms' ∧ sep (ms' ++ rest) P' ∧ same_conn c c' ∧
    hc_write_req c' = hc_write_req c ∧
    hc_state c' = if decide (hr_keep_alive (hp_request (hc_parser_ctx c)) = true ∧ hc_state c ≠ CONN_CLOSING)
                  then CONN_READING else CONN_CLOSING).
Proof.
  intros (R & B & -> & HR & HB) Hsep. unfold http_conn_on_write_done. case_decide as Hka.
  - eapply triple_bind.
    { eapply triple_sep; [by eapply (sep_pull 2 _ B); [|exact Hsep]|by apply reset_triple]. }
    intros p' P' (B' & Hs & Hok & _ & _ & ->). apply triple_ret.
    exists [{[hc_self c := Buffer CONN_SIZE []]}; R; ∅]. split_and!; [|by eapply (sep_put 2 _ ∅)|done..].
    exists R, ∅. by split_and!.
  - apply triple_ret. exists [{[hc_self c := Buffer CONN_SIZE []]}; R; B]. split_and!; [|done..].
    exists R, B. by split_and!.
Qed.

Lemma write_complete_triple c r b ms rest P :
  hc_write_req c = Some r → hc_recv_buf c ≠ None → conn_base c ms → sep ({[r := b]} :: ms ++ rest) P →
  triple P (on_write_complete c) (λ c' P', ∃ ms', conn_res c' ms' ∧ sep (ms' ++ rest) P' ∧ same_conn c c' ∧
    hc_write_req c' = None ∧
    hc_state c' = if decide (hr_keep_alive (hp_request (hc_parser_ctx c)) = true ∧ hc_state c ≠ CONN_CLOSING)
                  then CONN_READING else CONN_CLOSING).
Proof.
  intros Hr Hrecv Hbase Hsep. unfold on_write_complete. rewrite Hr.
  eapply triple_bind.
  { apply (write_done_triple _ ms ({[r := b]} :: rest)); [by eapply conn_base_same; [| |exact Hbase]|].
    eapply sep_perm; [|exact Hsep]. by rewrite Permutation_middle. }
  intros c' P' (ms' & Hbase' & Hs & Hsame & Hwr & Hst).
  eapply triple_bind.
  { apply (triple_sep_free _ b (ms' ++ rest)). eapply sep_perm; [|exact Hs]. by rewrite Permutation_middle. }
  intros ? P'' Hs'. apply triple_ret. exists (∅ :: ms'). simpl in Hwr, Hst.
  split_and!; [|by apply sep_empty|done..]. exists ∅, ms'. split_and!; [done..| |].
  - intros Hnone. destruct Hsame as (_ & _ & Heq & _). by rewrite Heq in Hnone.
  - rewrite Hwr, Hst. split; [|done]. case_decide; set_solver.
Qed.

Lemma write_response_triple inline c resp w ms rest P :
  hc_write_req c = None → hc_recv_buf c ≠ None → conn_base c ms → sep (ms ++ rest) P →
  triple P (conn_write_response inline c resp w) (λ '(c', w') P', ∃ ms', conn_res c' ms' ∧ sep (ms' ++ rest) P' ∧ same_conn c c').
Proof.
  intros Hwr Hrecv Hbase Hsep. unfold conn_write_response.
  destruct (http_response_serialize _ _ _ _) as [[iov|] s].
  - eapply triple_bind; [by apply triple_sep_malloc|]. intros [r|] P'.
    + intros Hs. set (c1 := set_state CONN_WRITING (set_write_req (Some r) c)).
      assert (conn_base c1 ms) as Hb1 by (by eapply conn_base_same; [| |exact Hbase]).
      destruct inline.
      * eapply triple_bind; [by eapply (write_complete_triple c1 r)|].
        intros c' P'' (ms' & Hres & Hs' & Hsame & _). apply triple_ret. exists ms'. by split_and!.
      * apply triple_ret. eexists (_ :: ms). split_and!; [|exact Hs|done]. eexists _, ms.
        split_and!; [done|done|by intros ?%Hrecv|split; [done|by eexists]].
    + intros [Hs _]. apply triple_ret. exists (∅ :: ms). split_and!; [|by apply sep_empty|done].
      exists ∅, ms. split_and!; [done| |done|].
      * by eapply conn_base_same; [| |exact Hbase].
      * simpl. rewrite Hwr. split; [set_solver|done].
  - apply triple_ret. exists (∅ :: ms). split_and!; [|by apply sep_empty|done].
    exists ∅, ms. split_and!; [done| |done|].
    + by eapply conn_base_same; [| |exact Hbase].
    + simpl. rewrite Hwr. split; [set_solver|done].
Qed.

Lemma error_response_triple inline status code msg c w ms rest P :
  hc_write_req c = None → hc_recv_buf c ≠ None → conn_base c ms → sep (ms ++ rest) P →
  triple P (conn_error_response inline status code msg c w)
    (λ '(c', w') P', ∃ ms', conn_res c' ms' ∧ sep (ms' ++ rest) P' ∧ same_conn c c').
Proof. intros ????. unfold conn_error_response. case_match. by apply (write_response_triple _ _ _ _ ms). Qed.

Lemma parser_ok_request p q B : parser_ok p B →
  hr_method q = hr_method (hp_request p) → hr_uri q = hr_uri (hp_request p) → hr_body q = hr_body (hp_request p) →
  hr_body_len q = hr_body_len (hp_request p) → hr_body_capacity q = hr_body_capacity (hp_request p) →
  parser_ok (with_request p q) B.
Proof.
  unfold parser_ok. intros [] Hm Hu Hb Hl Hc. split; simpl; rewrite ?Hm, ?Hu, ?Hl; try done; [|by rewrite Hb].
  destruct pi_body as (data & Hd). exists data. unfold body_data in *. by rewrite Hl, Hb, Hc.
Qed.

Lemma dispatch_triple inline c w ms rest P :
  hc_write_req c = None → hc_recv_buf c ≠ None → conn_base c ms → sep (ms ++ rest) P →
  triple P (http_conn_dispatch inline c w) (λ '(c', w') P', ∃ ms', conn_res c' ms' ∧ sep (ms' ++ rest) P' ∧ same_conn c c').
Proof.
  intros Hwr Hrecv (R & B & -> & HR & HB) Hsep. unfold http_conn_dispatch.
  destruct (s3_route_parse _ _ _ _) as [result s3]. set (c1 := set_parser _ _).
  assert (conn_base c1 [{[hc_self c := Buffer CONN_SIZE []]}; R; B]) as Hb1.
  { exists R, B. split_and!; [done|done|]. by apply parser_ok_request. }
  repeat case_decide; [apply (error_response_triple _ _ _ _ c1 _ _ rest P Hwr Hrecv Hb1 Hsep)..|].
  destruct (run_handler _ _) as [[r resp] s]. destruct (if decide (r ≠ 0%Z) then _ else _) as [resp' s'].
  apply (write_response_triple _ c1 _ _ _ rest P Hwr Hrecv Hb1 Hsep).
Qed.

Lemma realloc_zero_triple l b : triple {[l := b]} (realloc (Some l) 0) (λ p P', p = None ∧ P' = ∅).
Proof.
  unfold realloc. rewrite decide_True by done. eapply (triple_bind _ _ _ (λ _ P, P = ∅)).
  - apply triple_free; [by rewrite lookup_singleton_eq|apply delete_singleton_eq].
  - intros _ ? ->. by apply triple_ret.
Qed.

(** Everything but the receive buffer is as before. *)
Definition only_recv c c' : Prop :=
  hc_self c' = hc_self c ∧ hc_sock c' = hc_sock c ∧ hc_parser_ctx c' = hc_parser_ctx c ∧ hc_state c' = hc_state c ∧
  hc_write_req c' = hc_write_req c.

(** A receive buffer that was too full to receive more. *)
Definition full_recv_buffer (b : buffer) : Prop :=
  (∃ k : nat, k ≤ 15 ∧ buf_size b = (DEFAULT_RECV_BUF_SIZE * 2 ^ Z.of_nat k)%Z) ∧
  (buf_size b - 4096 < Z.of_nat (length (buf_data b)) ≤ buf_size b)%Z.

(** A leak happens only when an allocation fails, and loses only such buffers. *)
Definition leak_ok (leak : list (gmap nat buffer)) : Prop :=
  (leak = [] ∨ ∃ n, alloc_ok n = false) ∧ Forall (λ N, ∃ p b, N = {[p := b]} ∧ full_recv_buffer b) leak.

Lemma leak_nil : leak_ok [].
Proof. split; [by left|by constructor]. Qed.

Lemma leak_blocks leak P : leak_ok leak → sep leak P → map_Forall (λ _, full_recv_buffer) P.
Proof.
  intros [_ Hall]. revert P. induction Hall as [|N leak (p & b & -> & Hb) _ IH]; intros P; [intros ->; apply map_Forall_empty|].
  intros (R & -> & Hd & Hs). apply map_Forall_union_2; [by apply map_Forall_singleton|by apply IH].
Qed.

Lemma recv_size_bounds (k : nat) size : k ≤ 15 → size = (DEFAULT_RECV_BUF_SIZE * 2 ^ Z.of_nat k)%Z → (65536 ≤ size ≤ 2 ^ 31)%Z.
Proof.
  intros Hk ->. unfold DEFAULT_RECV_BUF_SIZE. change (2 ^ 31)%Z with (65536 * 2 ^ Z.of_nat 15)%Z.
  assert (2 ^ 0 ≤ 2 ^ Z.of_nat k ≤ 2 ^ Z.of_nat 15)%Z by (split; apply Z.pow_le_mono_r; lia). lia.
Qed.

Lemma ensure_space_triple c ms rest P :
  conn_base c ms → hc_recv_buf c ≠ None → sep (ms ++ rest) P →
  triple P (ensure_space c) (λ '(c', space) P', ∃ ms' leak,
    conn_base c' ms' ∧ sep (ms' ++ leak ++ rest) P' ∧ leak_ok leak ∧ only_recv c c' ∧
    match space with
    | None => hc_recv_buf c' = None
    | Some n => hc_recv_buf c' ≠ None ∧ n = (hc_recv_buf_size c' - hc_recv_len c')%Z ∧ (0 ≤ n)%Z
    end).
Proof.
  intros (R & B & -> & HR & HB) Hrecv Hsep. unfold ensure_space.
  pose proof HR as HR0. unfold recv_ok in HR0. destruct (hc_recv_buf c) as [p|] eqn:Hp; [|done].
  destruct HR0 as ([bs data] & -> & Hsize & Hlen & Hle & k & Hk & Hpow). cbn [buf_size buf_data] in *.
  destruct (recv_size_bounds _ _ Hk Hpow) as [Hmin Hmax].
  assert (u32 (hc_recv_buf_size c - hc_recv_len c) = hc_recv_buf_size c - hc_recv_len c)%Z as Hspace
    by (apply wrap_small; unfold fits; lia).
  rewrite Hspace. case_decide as Hfull.
  - destruct (decide (k = 15)) as [->|Hk15].
    + assert (u32 (hc_recv_buf_size c * 2) = 0)%Z as -> by (rewrite Hpow; done).
      eapply triple_bind; [eapply triple_sep; [by eapply (sep_pull 1 _ {[p := Buffer bs data]}); [|exact Hsep]|apply realloc_zero_triple]|].
      intros buf P' (N & Hs & -> & ->). apply triple_ret.
      exists [{[hc_self c := Buffer CONN_SIZE []]}; ∅; B], []. split_and!; try done; [|by eapply (sep_put 1 _ ∅)|apply leak_nil].
      exists ∅, B. by split_and!.
    + assert (u32 (hc_recv_buf_size c * 2) = DEFAULT_RECV_BUF_SIZE * 2 ^ Z.of_nat (S k))%Z as Hdouble.
      { rewrite Nat2Z.inj_succ, Z.pow_succ_r by lia. rewrite Hpow. unfold DEFAULT_RECV_BUF_SIZE.
        assert (0 < 2 ^ Z.of_nat k ≤ 2 ^ Z.of_nat 14)%Z by (split; [lia|apply Z.pow_le_mono_r; lia]).
        change (2 ^ Z.of_nat 14)%Z with 16384%Z in *. rewrite wrap_small by (unfold fits; lia). lia. }
      set (size := u32 (hc_recv_buf_size c * 2)) in *.
      assert (size = 2 * hc_recv_buf_size c)%Z as Hsize2.
      { rewrite Hdouble, Hpow, Nat2Z.inj_succ, Z.pow_succ_r by lia. lia. }
      eapply triple_bind.
      { eapply triple_sep; [by eapply (sep_pull 1 _ {[p := Buffer bs data]}); [|exact Hsep]|].
        apply (triple_realloc (Some p) size data bs _ (λ p' N,
          (∃ l', p' = Some l' ∧ N = {[l' := Buffer size data]}) ∨
          p' = None ∧ N = {[p := Buffer bs data]} ∧ ∃ n, alloc_ok n = false)); [done|lia|lia|done|eauto|eauto]. }
      intros buf P' (N & Hs & [(l' & -> & ->)|(-> & -> & Hoom)]); apply triple_ret.
      * exists [{[hc_self c := Buffer CONN_SIZE []]}; {[l' := Buffer size data]}; B], [].
        split_and!; try done; [|by eapply (sep_put 1 _ {[l' := _]})|apply leak_nil| |].
        -- eexists _, B. split_and!; [done| |done]. exists (Buffer size data). simpl. split_and!; [done|done|lia|lia|lia|].
           exists (S k). split; [lia|done].
        -- simpl. apply wrap_small. unfold fits. lia.
        -- simpl. rewrite wrap_small by (unfold fits; lia). lia.
      * exists [{[hc_self c := Buffer CONN_SIZE []]}; ∅; B], [{[p := Buffer bs data]}]. split_and!; try done; [| |split; [by right|constructor; [|done]]].
        -- exists ∅, B. by split_and!.
        -- apply (sep_put 1 _ ∅); [done|]. apply sep_empty.
           eapply sep_perm; [|exact Hs]. apply (Permutation_middle [_; _]).
        -- exists p, (Buffer bs data). split; [done|]. split; simpl; [exists k; by rewrite Hsize|lia].
  - apply triple_ret. exists [{[hc_self c := Buffer CONN_SIZE []]}; {[p := Buffer bs data]}; B], [].
    split_and!; try done; [|apply leak_nil|by rewrite Hp|lia].
    exists {[p := Buffer bs data]}, B. by split_and!.
Qed.

Lemma recv_buffer_triple c p b ms P (Q : nat * buffer → gmap nat buffer → Prop) :
  hc_recv_buf c = Some p → ms !! 1 = Some {[p := b]} → sep ms P → Q (p, b) P → triple P (recv_buffer c) Q.
Proof.
  intros Hp Hms Hsep HQ. unfold recv_buffer. rewrite Hp.
  eapply (triple_bind _ _ _ (λ x P', x = b ∧ P' = P)).
  - eapply triple_load; [|done]. by eapply sep_lookup, sep_pull.
  - intros ? ? [-> ->]. by apply triple_ret.
Qed.

Lemma set_recv_base c p b B : hc_recv_buf c = Some p → parser_ok (hc_parser_ctx c) B → buf_size b = hc_recv_buf_size c →
  (∃ k : nat, k ≤ 15 ∧ hc_recv_buf_size c = (DEFAULT_RECV_BUF_SIZE * 2 ^ Z.of_nat k)%Z) →
  (Z.of_nat (length (buf_data b)) ≤ buf_size b)%Z → (0 ≤ hc_recv_len c ≤ Z.of_nat (length (buf_data b)))%Z →
  conn_base c [{[hc_self c := Buffer CONN_SIZE []]}; {[p := b]}; B].
Proof.
  intros Hp HB Hs Hk Hle Hlen. exists {[p := b]}, B. split_and!; [done| |done]. unfold recv_ok. rewrite Hp.
  exists b. split_and!; (done || lia).
Qed.

Lemma conn_base_inv c p b B : hc_recv_buf c = Some p → conn_base c [{[hc_self c := Buffer CONN_SIZE []]}; {[p := b]}; B] →
  buf_size b = hc_recv_buf_size c ∧ (0 ≤ hc_recv_len c ≤ Z.of_nat (length (buf_data b)))%Z ∧
  (Z.of_nat (length (buf_data b)) ≤ buf_size b)%Z ∧ (65536 ≤ hc_recv_buf_size c ≤ 2 ^ 31)%Z ∧
  (∃ k : nat, k ≤ 15 ∧ hc_recv_buf_size c = (DEFAULT_RECV_BUF_SIZE * 2 ^ Z.of_nat k)%Z) ∧ parser_ok (hc_parser_ctx c) B.
Proof.
  intros Hp (R & B' & Heq & HR & HB). injection Heq as <- <-. unfold recv_ok in HR. rewrite Hp in HR.
  destruct HR as (b0 & Hb0 & Hsize & Hlen & Hle & k & Hk & Hpow).
  assert (b0 = b) as -> by (by apply (f_equal (.!! p)) in Hb0; rewrite !lookup_singleton_eq in Hb0; simplify_eq).
  pose proof (recv_size_bounds _ _ Hk Hpow). eauto 10.
Qed.

(** Received bytes go behind those already there. *)
Lemma write_recv_triple c p b B rest P data : hc_recv_buf c = Some p →
  conn_base c [{[hc_self c := Buffer CONN_SIZE []]}; {[p := b]}; B] →
  (Z.of_nat (length data) ≤ hc_recv_buf_size c - hc_recv_len c)%Z →
  sep ([{[hc_self c := Buffer CONN_SIZE []]}; {[p := b]}; B] ++ rest) P →
  triple P (write_buffer p (hc_recv_len c) data) (λ _ P', ∃ b',
    let c' := set_recv (hc_recv_buf c) (hc_recv_buf_size c) (u32 (hc_recv_len c + Z.of_nat (length data))) c in
    conn_base c' [{[hc_self c := Buffer CONN_SIZE []]}; {[p := b']}; B] ∧
    sep ([{[hc_self c := Buffer CONN_SIZE []]}; {[p := b']}; B] ++ rest) P' ∧
    take (Z.to_nat (hc_recv_len c')) (buf_data b') = take (Z.to_nat (hc_recv_len c)) (buf_data b) ++ data).
Proof.
  intros Hp Hbase Hroom Hsep. destruct (conn_base_inv _ _ _ _ Hp Hbase) as (Hsize & Hlen & Hle & [Hmin Hmax] & Hk & HB).
  set (off := Z.to_nat (hc_recv_len c)).
  set (b' := Buffer (buf_size b) (take off (buf_data b) ++ data ++ drop (off + length data) (buf_data b))).
  eapply triple_mono.
  - eapply triple_sep; [by eapply (sep_pull 1 _ {[p := b]}); [|exact Hsep]|].
    apply (triple_bind _ _ _ (λ x N, x = b ∧ N = {[p := b]})); [by eapply triple_load; [apply lookup_singleton_eq|]|].
    intros ? ? [-> ->]. rewrite decide_True by lia.
    apply (triple_store _ _ _ (λ _ N, N = {[p := b']})); [by rewrite lookup_singleton_eq|apply insert_singleton_eq].
  - intros [] P' (N & Hs & ->). exists b'. cbv zeta.
    assert (u32 (hc_recv_len c + Z.of_nat (length data)) = hc_recv_len c + Z.of_nat (length data))%Z as -> by (apply wrap_small; unfold fits; lia).
    split_and!; [|by eapply (sep_put 1 _ {[p := b']})|].
    2: { cbn [b' buf_data hc_recv_len set_recv]. rewrite (assoc_L (++)). apply take_app_length'.
      rewrite length_app, length_take. unfold off. lia. }
    assert (length (buf_data b') = (off + length data) `max` length (buf_data b)) as Hlen'.
    { simpl. rewrite !length_app, length_take, length_drop. lia. }
    apply (set_recv_base (set_recv _ _ _ c)); [done|done|done|eauto| |]; rewrite Hlen'; simpl; lia.
Qed.

Lemma discard_triple consumed c p b B rest P : hc_recv_buf c = Some p →
  conn_base c [{[hc_self c := Buffer CONN_SIZE []]}; {[p := b]}; B] → (0 ≤ consumed ≤ hc_recv_len c)%Z →
  sep ([{[hc_self c := Buffer CONN_SIZE []]}; {[p := b]}; B] ++ rest) P →
  triple P (discard consumed c) (λ c' P', ∃ ms', conn_base c' ms' ∧ sep (ms' ++ rest) P' ∧
    c' = set_recv (hc_recv_buf c) (hc_recv_buf_size c) (hc_recv_len c - consumed) c).
Proof.
  intros Hp Hbase Hcons Hsep. destruct (conn_base_inv _ _ _ _ Hp Hbase) as (Hsize & Hlen & Hle & [Hmin Hmax] & Hk & HB).
  unfold discard. assert (u32 (hc_recv_len c - consumed) = hc_recv_len c - consumed)%Z as -> by (apply wrap_small; unfold fits; lia).
  eapply (triple_bind _ _ _ (λ x P', x = (p, b) ∧ P' = P)); [by eapply recv_buffer_triple; [exact Hp| |exact Hsep|]|].
  intros ? ? [-> ->]. cbv iota beta. case_decide as Hlt.
  - set (b' := Buffer _ _).
    eapply triple_bind.
    { eapply triple_sep; [by eapply (sep_pull 1 _ {[p := b]}); [|exact Hsep]|].
      apply (triple_store _ _ _ (λ _ N, N = {[p := b']})); [by rewrite lookup_singleton_eq|apply insert_singleton_eq]. }
    intros [] P' (N & Hs & ->). apply triple_ret. exists [{[hc_self c := Buffer CONN_SIZE []]}; {[p := b']}; B].
    split_and!; [|by eapply (sep_put 1 _ {[p := b']})|done].
    assert (length (buf_data b') = length (buf_data b)) as Hlen'.
    { simpl. rewrite length_app, !length_drop, length_take. lia. }
    apply (set_recv_base (set_recv _ _ _ c)); [done|done|done|eauto| |]; rewrite Hlen'; simpl; lia.
  - eapply (triple_bind _ _ _ (λ _ P', P' = P)); [by apply triple_ret|]. intros _ ? ->. apply triple_ret.
    eexists. split_and!; [|exact Hsep|done]. apply (set_recv_base (set_recv _ _ _ c)); simpl; (done || eauto || lia).
Qed.

Lemma conn_res_reading c ms : conn_res c ms → hc_state c = CONN_READING ∨ hc_state c = CONN_IDLE →
  hc_state c = CONN_READING ∧ hc_write_req c = None ∧ hc_recv_buf c ≠ None ∧ ∃ ms', ms = ∅ :: ms' ∧ conn_base c ms'.
Proof.
  intros (W & ms' & -> & Hbase & Hnone & Hreq) Hst.
  destruct (hc_write_req c); [destruct Hreq as [Heq _]; rewrite Heq in Hst; by destruct Hst|].
  destruct Hreq as [Hin ->].
  assert (hc_state c = CONN_READING) as Hr.
  { rewrite !elem_of_cons, elem_of_nil in Hin. destruct Hin as [?|[Heq|[]]]; [done|]. rewrite Heq in Hst. by destruct Hst. }
  split_and!; [done|done| |eauto]. intros H. by rewrite (Hnone H) in Hr.
Qed.

(** A connection that is to be closed. *)
Lemma conn_res_closing c ms : conn_base c ms → hc_write_req c = None → conn_res (set_state CONN_CLOSING c) (∅ :: ms).
Proof.
  intros Hbase Hwr. exists ∅, ms. split_and!; [done| |done|].
  - by eapply conn_base_same; [| |exact Hbase].
  - simpl. rewrite Hwr. split; [set_solver|done].
Qed.

(** The bytes that arrived are parsed, and a complete request is answered. *)
Lemma receive_triple inline data c w p ms rest P :
  hc_state c = CONN_READING → hc_write_req c = None → hc_recv_buf c = Some p → conn_base c ms →
  (Z.of_nat (length data) ≤ hc_recv_buf_size c - hc_recv_len c)%Z → sep (ms ++ rest) P →
  triple P (http_conn_receive inline data c w) (λ '(c', w') P', ∃ ms', conn_res c' ms' ∧ sep (ms' ++ rest) P' ∧
    hc_self c' = hc_self c ∧ hc_sock c' = hc_sock c).
Proof.
  intros Hrd Hwr Hp (R & B & -> & HR & HB) Hlen Hsep. unfold http_conn_receive.
  assert (∃ b, R = {[p := b]}) as [b ->] by (unfold recv_ok in HR; rewrite Hp in HR; destruct HR as (b & -> & _); eauto).
  assert (conn_base c [{[hc_self c := Buffer CONN_SIZE []]}; {[p := b]}; B]) as Hbase by (eexists _, _; by split_and!).
  eapply (triple_bind _ _ _ (λ x P', x = (p, b) ∧ P' = P)); [by eapply recv_buffer_triple; [exact Hp| |exact Hsep|]|].
  intros ? ? [-> ->].
  eapply triple_bind; [by eapply (write_recv_triple _ _ _ _ rest)|]. cbv iota beta.
  intros _ P2 (b2 & Hbase2 & Hsep2 & _). cbn zeta in Hbase2. rewrite Hp in Hbase2 |- *. set (c2 := set_recv _ _ _ c) in *.
  assert (hc_recv_buf c2 = Some p) as Hp2 by done.
  eapply (triple_bind _ _ _ (λ x P', x = (p, b2) ∧ P' = P2)); [by eapply recv_buffer_triple; [exact Hp2| |exact Hsep2|]|].
  intros ? ? [-> ->]. cbv iota beta.
  destruct (conn_base_inv _ _ _ _ Hp2 Hbase2) as (Hsize2 & Hlen2 & Hle2 & _ & Hk2 & HB2).
  eapply triple_bind.
  { eapply triple_sep; [by eapply (sep_pull 2 _ B); [|exact Hsep2]|by apply feed_triple]. }
  intros [result ctx] P3 (B' & Hsep3 & HB' & _ & Hresult). rewrite length_take in Hresult.
  assert (sep ([{[hc_self c := Buffer CONN_SIZE []]}; {[p := b2]}; B'] ++ rest) P3) as Hsep3' by (by eapply (sep_put 2 _ B')).
  set (c3 := set_parser ctx c2).
  assert (hc_recv_buf c3 = Some p) as Hp3 by done.
  assert (conn_base c3 [{[hc_self c := Buffer CONN_SIZE []]}; {[p := b2]}; B']) as Hbase3.
  { apply (set_recv_base c3 p b2 B'); done. }
  case_decide as Hneg.
  - assert (conn_base (drop_keep_alive c3) [{[hc_self c := Buffer CONN_SIZE []]}; {[p := b2]}; B']) as Hbase3'.
    { apply (set_recv_base (drop_keep_alive c3) p b2 B'); try done. by apply parser_ok_request. }
    eapply triple_mono; [by eapply (error_response_triple _ _ _ _ (drop_keep_alive c3) _ _ rest)|].
    intros [c' w'] P' (ms' & Hr & Hs & Hself & Hsock & _). by exists ms'.
  - assert (0 ≤ result ≤ hc_recv_len c3)%Z as Hcons by (change (hc_recv_len c3) with (hc_recv_len c2); lia).
    eapply triple_bind; [by apply (discard_triple result c3 p b2 B' rest)|].
    intros c4 P4 (ms4 & Hbase4 & Hsep4 & ->). set (c4 := set_recv _ _ _ c3) in *.
    destruct (hr_complete _).
    + eapply triple_mono; [by eapply (dispatch_triple _ c4 _ _ rest)|].
      intros [c' w'] P' (ms' & Hr & Hs & Hself & Hsock & _). by exists ms'.
    + apply triple_ret. exists (∅ :: ms4). split_and!; [|by apply sep_empty|done|done].
      exists ∅, ms4. split_and!; [done|done|done|]. change (hc_write_req c4) with (hc_write_req c). rewrite Hwr.
      split; [|done]. change (hc_state c4) with (hc_state c). rewrite Hrd. set_solver.
Qed.

Lemma readable_triple now incoming inline c w ms rest P :
  conn_res c ms → hc_state c = CONN_READING ∨ hc_state c = CONN_IDLE → sep (ms ++ rest) P →
  triple P (http_conn_on_readable now incoming inline c w) (λ '(c', w') P', ∃ ms' leak,
    conn_res c' ms' ∧ sep (ms' ++ leak ++ rest) P' ∧ leak_ok leak ∧ hc_self c' = hc_self c ∧ hc_sock c' = hc_sock c ∧
    (incoming = [] → hc_state c' = CONN_CLOSING ∧ w' = w)).
Proof.
  intros Hres Hst Hsep. destruct (conn_res_reading _ _ Hres Hst) as (Hrd & Hwr & Hrecv & ms' & -> & Hbase).
  apply sep_drop_empty in Hsep. unfold http_conn_on_readable.
  eapply triple_bind.
  { apply (ensure_space_triple _ ms' rest); [by eapply conn_base_same; [| |exact Hbase]|done|done]. }
  intros [c1 space] P1 (ms1 & leak & Hbase1 & Hsep1 & Hleak & (Hself & Hsock & Hctx & Hst1 & Hwr1) & Hspace).
  simpl in Hself, Hsock, Hctx, Hst1, Hwr1. rewrite Hwr in Hwr1. rewrite Hrd in Hst1.
  assert (∀ w', triple P1 (mret (set_state CONN_CLOSING c1, w')) (λ '(c', w'') P', ∃ ms' leak,
    conn_res c' ms' ∧ sep (ms' ++ leak ++ rest) P' ∧ leak_ok leak ∧ hc_self c' = hc_self c ∧ hc_sock c' = hc_sock c ∧
    (incoming = [] → hc_state c' = CONN_CLOSING ∧ w'' = w'))) as Hclose.
  { intros w'. apply triple_ret. exists (∅ :: ms1), leak. split_and!; [by apply conn_res_closing|by apply sep_empty|done..]. }
  destruct space as [space|]; [|apply Hclose]. destruct Hspace as (Hrecv1 & -> & Hpos).
  destruct (take _ incoming) as [|x data0] eqn:Htake; [apply Hclose|].
  destruct (hc_recv_buf c1) as [p|] eqn:Hp; [|done].
  eapply triple_mono.
  - apply (receive_triple _ _ _ _ p ms1 (leak ++ rest)); try done. rewrite <-Htake, length_take. lia.
  - intros [c' w'] P' (ms2 & Hr & Hs & Hself' & Hsock'). exists ms2, leak. split_and!; [done..|congruence|congruence|].
    intros ->. by rewrite take_nil in Htake.
Qed.

Lemma free_opt_triple (p : option nat) N rest P :
  match p with Some l => ∃ b, N = {[l := b]} | None => N = ∅ end → sep (N :: rest) P →
  triple P (mfree p) (λ _ P', sep rest P').
Proof.
  destruct p as [l|]; [intros [b ->]|intros ->]; intros Hsep.
  - by eapply triple_sep_free.
  - apply triple_free_null. by apply sep_drop_empty.
Qed.

Lemma recv_piece c R : recv_ok c R → match hc_recv_buf c with Some p => ∃ b, R = {[p := b]} | None => R = ∅ end.
Proof. unfold recv_ok. destruct (hc_recv_buf c); naive_solver. Qed.

(** Closing frees all the connection owns. *)
Lemma close_triple aborts c w ms rest P : conn_res c ms → sep (ms ++ rest) P →
  triple P (http_conn_close aborts c w) (λ w' P', sep rest P' ∧
    w' = call (SockClose (hc_sock c)) (call (GroupRemove (hc_sock c)) w)).
Proof.
  intros Hres Hsep. unfold http_conn_close.
  eapply (triple_bind _ _ _ (λ c' P', ∃ W ms', conn_base c' ms' ∧ sep ((W :: ms') ++ rest) P' ∧
    match hc_write_req c' with Some l => ∃ b, W = {[l := b]} | None => W = ∅ end)).
  { pose proof Hres as (W & ms' & -> & Hbase & Hnone & Hreq).
    assert (∀ r, hc_write_req c = Some r → hc_state c = CONN_WRITING ∧ ∃ b, W = {[r := b]}) as Hw by (intros r Hr; by rewrite Hr in Hreq).
    assert (triple P (mret c) (λ c' P', ∃ W ms', conn_base c' ms' ∧ sep ((W :: ms') ++ rest) P' ∧
      match hc_write_req c' with Some l => ∃ b, W = {[l := b]} | None => W = ∅ end)) as Hret.
    { apply triple_ret. exists W, ms'. split_and!; [done..|]. destruct (hc_write_req c); naive_solver. }
    destruct (hc_write_req c) as [r|] eqn:Hr; [|done]. destruct aborts; [|done].
    destruct (Hw r eq_refl) as [Hst [b ->]].
    eapply triple_mono; [eapply (write_complete_triple c r b ms' rest)|]; [done| |done|done|].
    - intros H. rewrite (Hnone H) in Hst. done.
    - intros c' P' (ms'' & (W' & ms3 & -> & Hb & _ & Hq) & Hs & _ & Hnr & _). rewrite Hnr in Hq. exists W', ms3.
      rewrite Hnr. split_and!; [done..|by destruct Hq]. }
  intros c' P' (W & ms' & (R & B & -> & HR & HB) & Hs & HW).
  eapply triple_bind.
  { eapply triple_sep; [by eapply (sep_pull 3 _ B); [|exact Hs]|by apply destroy_triple, (pi_body _ _ _ HB)]. }
  intros q P1 (N & Hs1 & _ & ->). apply sep_drop_empty in Hs1.
  eapply triple_bind; [exact (free_opt_triple _ W ([{[hc_self c' := Buffer CONN_SIZE []]}; R] ++ rest) P1 HW Hs1)|].
  intros ? P2 Hs2. cbv beta in Hs2.
  eapply triple_bind; [eapply (free_opt_triple _ R); [by apply recv_piece|by eapply (sep_pull 1 _ R); [|exact Hs2]]|].
  intros ? P3 Hs3. cbv beta in Hs3.
  eapply triple_bind; [exact (triple_sep_free _ _ rest P3 Hs3)|]. intros ? P4 Hs4. cbv beta in Hs4. by apply triple_ret.
Qed.

(** ** The connections of a server *)

Fixpoint conns_res (cs : list http_conn) ms : Prop :=
  match cs with
  | [] => ms = []
  | c :: cs => ∃ m1 m2, ms = m1 ++ m2 ∧ conn_res c m1 ∧ conns_res cs m2
  end.

Lemma conns_res_app cs1 cs2 m1 m2 : conns_res cs1 m1 → conns_res cs2 m2 → conns_res (cs1 ++ cs2) (m1 ++ m2).
Proof.
  revert m1. induction cs1 as [|c cs1 IH]; intros m1; simpl; [by intros ->|].
  intros (a & b & -> & Hc & Hcs) H2. exists a, (b ++ m2). rewrite (assoc_L (++)). eauto.
Qed.

Lemma conn_res_not c ms : conn_res c ms → hc_state c ∈ [CONN_READING; CONN_WRITING; CONN_CLOSING].
Proof. intros (W & ms' & _ & _ & _ & H). destruct (hc_write_req c); [destruct H as [-> _]; set_solver|destruct H; set_solver]. Qed.

Lemma complete_writes_triple completed cs : ∀ ms rest P, conns_res cs ms → sep (ms ++ rest) P →
  triple P (complete_writes completed cs) (λ cs' P', ∃ ms', conns_res cs' ms' ∧ sep (ms' ++ rest) P' ∧
    hc_sock <$> cs' = hc_sock <$> cs).
Proof.
  induction cs as [|c cs IH]; intros ms rest P Hres Hsep; cbn [complete_writes].
  - apply triple_ret. simpl in Hres. subst ms. by exists [].
  - destruct Hres as (m1 & m2 & -> & Hc & Hcs). rewrite <-(assoc_L (++)) in Hsep.
    eapply (triple_bind _ _ _ (λ c' P', ∃ m1', conn_res c' m1' ∧ sep (m1' ++ m2 ++ rest) P' ∧ hc_sock c' = hc_sock c)).
    { pose proof Hc as (W & ms' & -> & Hbase & Hnone & Hreq).
      assert (triple P (mret c) (λ c' P', ∃ m1', conn_res c' m1' ∧ sep (m1' ++ m2 ++ rest) P' ∧ hc_sock c' = hc_sock c)) as Hret
        by (apply triple_ret; eauto).
      destruct (hc_write_req c) as [r|] eqn:Hr; [|done]. destruct (completed _); [|done]. destruct Hreq as [Hst [b ->]].
      eapply triple_mono; [eapply (write_complete_triple c r b ms' (m2 ++ rest))|]; [done| |done|done|].
      - intros H. rewrite (Hnone H) in Hst. done.
      - intros c' P' (ms'' & Hr' & Hs & (_ & Hsock & _) & _). eauto. }
    intros c' P' (m1' & Hc' & Hs & Hsock).
    eapply triple_bind; [apply (IH m2 (m1' ++ rest)); [done|]|].
    { sep_reorder Hs. }
    intros cs' P'' (m2' & Hcs' & Hs' & Hsocks). apply triple_ret. exists (m1' ++ m2'). split_and!.
    + by exists m1', m2'.
    + sep_reorder Hs'.
    + by rewrite !fmap_cons, Hsock, Hsocks.
Qed.

Lemma leak_app leak leak' : leak_ok leak → leak_ok leak' → leak_ok (leak ++ leak').
Proof. intros [[->|?] ?] [[->|?] ?]; (split; [|by apply Forall_app]); [left|right..]; done. Qed.

(** Of [n] connections, those of [cs], the ones of [cs'] stayed. *)
Definition stayed (cs : list http_conn) (n : Z) (cs' : list http_conn) (n' : Z) : Prop :=
  length cs' ≤ length cs ∧ n' = (n - Z.of_nat (length cs - length cs'))%Z.

(** What a poll leaves of a connection: it is writing, or its socket had bytes. *)
Definition settled (e : poll_env) c : Prop :=
  hc_state c = CONN_WRITING ∨ hc_state c = CONN_READING ∧ pe_incoming e (hc_sock c) ≠ [].

Lemma poll_conns_triple e cs : ∀ n w ms rest P, conns_res cs ms → sep (ms ++ rest) P →
  (Z.of_nat (length cs) ≤ n < 2 ^ 32)%Z →
  triple P (poll_conns e cs n w) (λ '(cs', n', w') P', ∃ ms' leak, conns_res cs' ms' ∧ sep (ms' ++ leak ++ rest) P' ∧
    leak_ok leak ∧ stayed cs n cs' n' ∧ Forall (settled e) cs').
Proof.
  induction cs as [|c cs IH]; intros n w ms rest P Hres Hsep Hn; cbn [poll_conns].
  - apply triple_ret. simpl in Hres. subst ms. exists [], []. split_and!; try done; [apply leak_nil|].
    split; simpl; [lia|lia].
  - destruct Hres as (m1 & m2 & -> & Hc & Hcs). rewrite <-(assoc_L (++)) in Hsep. simpl length in Hn.
    eapply (triple_bind _ _ _ (λ '(c', w') P', ∃ m1' leak, conn_res c' m1' ∧ sep (m1' ++ leak ++ m2 ++ rest) P' ∧ leak_ok leak ∧
      (hc_state c' = CONN_CLOSING ∨ settled e c'))).
    { case_decide as Hst.
      - eapply triple_mono; [by eapply readable_triple|]. intros [c' w'] P' (m1' & leak & Hc' & Hs & Hleak & Hself & Hsock & Hempty).
        exists m1', leak. split_and!; [done..|]. unfold settled. rewrite Hsock.
        pose proof (conn_res_not _ _ Hc') as Hstates. rewrite !elem_of_cons, elem_of_nil in Hstates.
        destruct Hstates as [Hr|[Hr|[Hr|[]]]]; [|by auto..]. right. right. split; [done|]. intros Hnil.
        destruct (Hempty Hnil) as [Hcl _]. congruence.
      - apply triple_ret. exists m1, []. split_and!; [done..|apply leak_nil|].
        pose proof (conn_res_not _ _ Hc) as Hstates. rewrite !elem_of_cons, elem_of_nil in Hstates. unfold settled. naive_solver. }
    intros [c' w'] P' (m1' & leak & Hc' & Hs & Hleak & Hsettled). cbv beta iota.
    case_decide as Hclosing.
    + eapply triple_bind; [by eapply close_triple|]. intros w'' P'' [Hs' _].
      assert (u32 (n - 1) = n - 1)%Z as -> by (apply wrap_small; unfold fits; lia).
      eapply triple_mono; [apply (IH (n - 1)%Z w'' m2 (leak ++ rest)); [done| |lia]|].
      { sep_reorder Hs'. }
      intros [[cs' n'] w3] P3 (ms' & leak' & Hcs' & Hs3 & Hleak' & [Hle Hn'] & Hall). exists ms', (leak' ++ leak).
      rewrite <-(assoc_L (++) leak'). split_and!; [done|done|by apply leak_app| |done]. split; simpl; [lia|lia].
    + eapply triple_bind; [apply (IH n w' m2 (m1' ++ leak ++ rest)); [done| |lia]|].
      { sep_reorder Hs. }
      intros [[cs' n'] w3] P3 (ms' & leak' & Hcs' & Hs3 & Hleak' & [Hle Hn'] & Hall). apply triple_ret.
      exists (m1' ++ ms'), (leak' ++ leak). split_and!.
      * by exists m1', ms'.
      * sep_reorder Hs3.
      * by apply leak_app.
      * split; simpl; lia.
      * constructor; [|done]. by destruct Hsettled.
Qed.

Lemma check_timeouts_triple aborts s now cs : ∀ n w ms rest P, conns_res cs ms → sep (ms ++ rest) P →
  (Z.of_nat (length cs) ≤ n < 2 ^ 32)%Z →
  triple P (check_timeouts aborts s now cs n w) (λ '(cs', n', w') P', ∃ ms', conns_res cs' ms' ∧ sep (ms' ++ rest) P' ∧
    stayed cs n cs' n' ∧ ∀ c, c ∈ cs' → c ∈ cs ∧ timed_out s now c = false).
Proof.
  induction cs as [|c cs IH]; intros n w ms rest P Hres Hsep Hn; cbn [check_timeouts].
  - apply triple_ret. exists ms. split_and!; [done|done|split; simpl; lia|by intros ? ?%elem_of_nil].
  - destruct Hres as (m1 & m2 & -> & Hc & Hcs). rewrite <-(assoc_L (++)) in Hsep. simpl length in Hn.
    destruct (timed_out s now c) eqn:Hout.
    + eapply triple_bind; [by eapply close_triple|]. intros w'' P'' [Hs' _].
      assert (u32 (n - 1) = n - 1)%Z as -> by (apply wrap_small; unfold fits; lia).
      eapply triple_mono; [apply (IH (n - 1)%Z w'' m2 rest); [done|done|lia]|].
      intros [[cs' n'] w3] P3 (ms' & Hcs' & Hs3 & [Hle Hn'] & Hall). exists ms'.
      split_and!; [done|done|split; simpl; lia|]. intros c' Hc'%Hall. rewrite elem_of_cons. naive_solver.
    + eapply triple_bind; [apply (IH n w m2 (m1 ++ rest)); [done| |lia]|].
      { sep_reorder Hsep. }
      intros [[cs' n'] w3] P3 (ms' & Hcs' & Hs3 & [Hle Hn'] & Hall). apply triple_ret.
      exists (m1 ++ ms'). split_and!; [by exists m1, ms'|sep_reorder Hs3|split; simpl; lia|].
      intros c' [->|Hc']%elem_of_cons; [by rewrite elem_of_cons; auto|]. apply Hall in Hc'. rewrite elem_of_cons. naive_solver.
Qed.

Record server_ok (s : http_server) ms : Prop := ServerOk {
  so_conns : conns_res (hs_conn_list s) ms;
  so_count : hs_conn_count s = Z.of_nat (length (hs_conn_list s));
  so_room : (hs_conn_count s ≤ hs_max_connections s)%Z;
  so_max : (0 < hs_max_connections s < 2 ^ 32)%Z;
  so_body : (0 < hs_max_request_body s ≤ MAX_SAFE_BODY)%Z
}.

(** Only the connections differ. *)
Definition same_server (s s' : http_server) : Prop := s' = set_conns (hs_conn_list s') (hs_conn_count s') s.

(** A connection that was just accepted, and what it owns. *)
Definition accepted (self buf sock : nat) (max now : Z) : http_conn :=
  HttpConn self sock (with_max_body max http_parser_init) (Some buf) DEFAULT_RECV_BUF_SIZE 0 CONN_READING None now.
Definition accepted_pieces (self buf : nat) : list (gmap nat buffer) :=
  [∅; {[self := Buffer CONN_SIZE []]}; {[buf := Buffer DEFAULT_RECV_BUF_SIZE []]}; ∅].

Lemma accepted_res self buf sock max now : (0 < max ≤ MAX_SAFE_BODY)%Z →
  conn_res (accepted self buf sock max now) (accepted_pieces self buf).
Proof.
  intros Hmax. exists ∅, (tail (accepted_pieces self buf)). split_and!; [done| |done|simpl; split; [set_solver|done]].
  exists {[buf := Buffer DEFAULT_RECV_BUF_SIZE []]}, ∅. split_and!; [done| |by apply init_ok].
  exists (Buffer DEFAULT_RECV_BUF_SIZE []). unfold DEFAULT_RECV_BUF_SIZE. simpl. split_and!; [done|done|lia|lia|lia|].
  exists 0. split; [lia|done].
Qed.

Lemma accepted_sep self buf ms P :
  sep ({[buf := Buffer DEFAULT_RECV_BUF_SIZE []]} :: {[self := Buffer CONN_SIZE []]} :: ms) P → sep (accepted_pieces self buf ++ ms) P.
Proof.
  intros Hs. do 2 apply sep_empty in Hs. eapply sep_perm; [|exact Hs]. unfold accepted_pieces. simpl. apply perm_skip.
  exact (Permutation_app_tail ms (Permutation_rev [∅; {[buf := Buffer DEFAULT_RECV_BUF_SIZE []]}; {[self := Buffer CONN_SIZE []]}])).
Qed.

(** Either the connection is refused, or it is at the end of the list. *)
Lemma accept_cases sock now s w conns ms P : server_ok s conns → sep ms P →
  triple P (http_conn_accept sock now s w) (λ '(s', w') P',
    (sep ms P' ∧ s' = s ∧ w' = (if decide (hs_max_connections s ≤ hs_conn_count s)%Z then call (SockClose sock) w else w) ∧
      ((hs_max_connections s ≤ hs_conn_count s)%Z ∨ ∃ n, alloc_ok n = false)) ∨
    (hs_conn_count s < hs_max_connections s)%Z ∧ w' = call (GroupAdd sock) w ∧
      ∃ self buf, sep (accepted_pieces self buf ++ ms) P' ∧
        s' = set_conns (hs_conn_list s ++ [accepted self buf sock (hs_max_request_body s) now]) (hs_conn_count s + 1) s).
Proof.
  intros [_ Hcount Hroom Hmax _] Hsep. unfold http_conn_accept.
  case_decide as Hfull; [apply triple_ret; left; by auto|].
  eapply triple_bind; [by apply triple_sep_malloc|]. intros [self|] P1; [|intros [Hs Hn]; apply triple_ret; left; by auto].
  intros Hs1. eapply triple_bind; [by apply triple_sep_malloc|]. intros [buf|] P2.
  - intros Hs2. apply triple_ret. right. assert (u32 (hs_conn_count s + 1) = hs_conn_count s + 1)%Z as ->
      by (apply wrap_small; unfold fits; lia).
    split_and!; [lia|done|]. exists self, buf. split; [by apply accepted_sep|done].
  - intros [Hs2 Hn]. eapply triple_bind; [exact (triple_sep_free _ _ _ _ Hs2)|]. intros ? P3 Hs3. apply triple_ret. left. by auto.
Qed.

Lemma accept_triple sock now s w ms rest P : server_ok s ms → sep (ms ++ rest) P →
  triple P (http_conn_accept sock now s w) (λ '(s', w') P', ∃ ms', server_ok s' ms' ∧ sep (ms' ++ rest) P' ∧ same_server s s').
Proof.
  intros Hok Hsep. pose proof Hok as [Hconns Hcount Hroom Hmax Hbody].
  assert (same_server s s) as Hrefl by (by destruct s).
  eapply triple_mono; [by eapply accept_cases|]. intros [s' w'] P' [(Hs & -> & _)|(Hlt & _ & self & buf & Hs & ->)]; [by exists ms|].
  exists (ms ++ accepted_pieces self buf). split_and!; [|..|done].
  - split; simpl; [|rewrite length_app; simpl; lia|lia|done|done].
    apply conns_res_app; [done|]. exists (accepted_pieces self buf), []. split_and!; [by rewrite app_nil_r|by apply accepted_res|done].
  - sep_reorder Hs.
Qed.

Lemma accept_all_triple waiting : ∀ s w ms rest P, server_ok s ms → sep (ms ++ rest) P →
  triple P (accept_all waiting s w) (λ '(s', w') P', ∃ ms', server_ok s' ms' ∧ sep (ms' ++ rest) P' ∧ same_server s s').
Proof.
  induction waiting as [|[sock now] waiting IH]; intros s w ms rest P Hok Hsep; cbn [accept_all].
  - apply triple_ret. exists ms. split_and!; [done..|by destruct s].
  - eapply triple_bind; [by eapply accept_triple|]. intros [s' w'] P' (ms' & Hok' & Hs & Hsame).
    eapply triple_mono; [by eapply IH|]. intros [s'' w''] P'' (ms'' & ? & ? & Hsame'). exists ms''. split_and!; [done..|].
    unfold same_server in *. rewrite Hsame', Hsame. by destruct s.
Qed.

(** One poll: the server stays well-formed, nothing else is touched, and nothing is lost
    while allocations succeed. *)
Lemma poll_triple e s w ms rest P : server_ok s ms → sep (ms ++ rest) P → 
  triple P (http_server_poll e s w) (λ '(s', w') P', ∃ ms' leak, server_ok s' ms' ∧ sep (ms' ++ leak ++ rest) P' ∧ leak_ok leak ∧
    same_server s s' ∧ (hs_running s = true → Forall (settled e) (hs_conn_list s'))).
Proof.
  intros Hok Hsep. unfold http_server_poll. destruct (hs_running s) eqn:Hrun; cbn [negb].
  2: { apply triple_ret. exists ms, []. split_and!; [done|done|apply leak_nil|by destruct s|done]. }
  eapply triple_bind; [by eapply complete_writes_triple; [apply Hok|]|].
  intros cs1 P1 (ms1 & Hres1 & Hs1 & Hsocks).
  assert (length cs1 = length (hs_conn_list s)) as Hlen by (by rewrite <-(length_fmap hc_sock cs1), Hsocks, length_fmap).
  destruct Hok as [_ Hcount Hroom Hmax Hbody].
  eapply triple_bind; [eapply (accept_all_triple _ _ _ ms1); [|exact Hs1]|].
  { split; simpl; [done|by rewrite Hlen|done..]. }
  intros [s2 w2] P2 (ms2 & [Hconns2 Hcount2 Hroom2 Hmax2 Hbody2] & Hs2 & Hsame2).
  eapply triple_bind; [eapply poll_conns_triple; [exact Hconns2|exact Hs2|lia]|].
  intros [[cs3 n3] w3] P3 (ms3 & leak & Hconns3 & Hs3 & Hleak & [Hle3 Hn3] & Hsettled).
  assert (server_ok (set_conns cs3 n3 s2) ms3) as Hok3.
  { split; simpl; [done|lia|lia|done|done]. }
  assert (same_server s (set_conns cs3 n3 s2)) as Hsame3 by (unfold same_server in *; rewrite Hsame2; by destruct s).
  case_decide.
  - eapply triple_bind; [eapply check_timeouts_triple; [apply Hok3|exact Hs3|]|].
    { destruct Hok3. simpl in *. lia. }
    intros [[cs4 n4] w4] P4 (ms4 & Hconns4 & Hs4 & [Hle4 Hn4] & Hall). apply triple_ret. exists ms4, leak.
    simpl in Hle4, Hn4, Hall.
    split_and!; [|done|done|unfold same_server in *; rewrite Hsame2; by destruct s|].
    + split; simpl; [done|destruct Hok3; simpl in *; lia|destruct Hok3; simpl in *; lia|done|done].
    + intros _. apply Forall_forall. intros c [Hc _]%Hall. by eapply Forall_forall in Hsettled.
  - apply triple_ret. exists ms3, leak. by split_and!.
Qed.

(** ** The life of the server *)

Fixpoint run_polls (es : list poll_env) (s : http_server) w : M buffer (http_server * world) :=
  match es with
  | [] => mret (s, w)
  | e :: es => '(s, w) ← http_server_poll e s w; run_polls es s w
  end.

(** Starting and polling the server behind [g_server]. *)
Definition serve (config : http_server_config) (listen : option nat) (group_ok : bool) (es : list poll_env) w
    : M buffer (option http_server * world) :=
  '(_, g_server, w) ← access_server_start (Some config) listen group_ok None w;
  match g_server with
  | None => mret (None, w)
  | Some s => '(s, w) ← run_polls es s w; mret (Some s, w)
  end.

(** The limits a configuration can have: 0 asks for the default. *)
Definition config_ok (config : http_server_config) : Prop :=
  fits 32 (sc_max_connections config) ∧ (0 ≤ sc_max_request_body config ≤ MAX_SAFE_BODY)%Z.

Lemma run_polls_triple es : ∀ s w ms rest P, server_ok s ms → sep (ms ++ rest) P →
  triple P (run_polls es s w) (λ '(s', w') P', ∃ ms' leak, server_ok s' ms' ∧ sep (ms' ++ leak ++ rest) P' ∧ leak_ok leak ∧
    same_server s s' ∧ (es = [] → s' = s) ∧
    (hs_running s = true → ∀ e, last es = Some e → Forall (settled e) (hs_conn_list s'))).
Proof.
  induction es as [|e es IH]; intros s w ms rest P Hok Hsep; cbn [run_polls].
  - apply triple_ret. exists ms, []. split_and!; [done|done|apply leak_nil|by destruct s|done|done].
  - eapply triple_bind; [by eapply poll_triple|]. intros [s1 w1] P1 (ms1 & leak1 & Hok1 & Hs1 & Hl1 & Hsame1 & Hset1).
    eapply triple_mono; [by eapply IH|]. intros [s2 w2] P2 (ms2 & leak2 & Hok2 & Hs2 & Hl2 & Hsame2 & Hnil & Hset2).
    exists ms2, (leak2 ++ leak1). rewrite <-(assoc_L (++) leak2). split_and!; [done|done|by apply leak_app| |done|].
    + unfold same_server in *. rewrite Hsame2, Hsame1. by destruct s.
    + intros Hrun e' He'. assert (hs_running s1 = true) as Hrun1 by (unfold same_server in Hsame1; by rewrite Hsame1).
      destruct es as [|e2 es]; [|by apply Hset2].
      simpl in He'. injection He' as <-. rewrite (Hnil eq_refl). by apply Hset1.
Qed.

Lemma create_triple config listen group_ok w rest P : config_ok config → sep rest P →
  triple P (http_server_create config listen group_ok w) (λ '(s, w') P',
    match s with
    | None => sep rest P'
    | Some s => sep ({[hs_self s := Buffer SERVER_SIZE []]} :: rest) P' ∧ hs_running s = true ∧ server_ok s [] ∧ hs_conn_list s = []
    end).
Proof.
  intros [[Hmc0 Hmc] Hmb] Hsep. unfold http_server_create.
  eapply triple_bind; [by apply triple_sep_malloc|]. intros [self|] P1; [|intros [Hs _]; by apply triple_ret].
  intros Hs. destruct listen as [sock|].
  - destruct group_ok; cbn [negb].
    + apply triple_ret. split_and!; [done|done| |done]. unfold MAX_SAFE_BODY in *.
      split; simpl; unfold or_default, DEFAULT_MAX_CONNECTIONS, DEFAULT_MAX_REQUEST_BODY, MAX_SAFE_BODY;
        repeat case_decide; (done || lia).
    + eapply triple_bind; [exact (triple_sep_free _ _ _ _ Hs)|]. intros ? P2 Hs2. by apply triple_ret.
  - eapply triple_bind; [exact (triple_sep_free _ _ _ _ Hs)|]. intros ? P2 Hs2. by apply triple_ret.
Qed.

Lemma close_all_triple aborts cs : ∀ w ms rest P, conns_res cs ms → sep (ms ++ rest) P →
  triple P (close_all aborts cs w) (λ _ P', sep rest P').
Proof.
  induction cs as [|c cs IH]; intros w ms rest P Hres Hsep; cbn [close_all].
  - simpl in Hres. subst ms. by apply triple_ret.
  - destruct Hres as (m1 & m2 & -> & Hc & Hcs). rewrite <-(assoc_L (++)) in Hsep.
    eapply triple_bind; [by eapply close_triple|]. intros w' P' [Hs _]. by eapply IH.
Qed.

Lemma server_destroy_triple aborts s w ms rest P : server_ok s ms →
  sep (ms ++ {[hs_self s := Buffer SERVER_SIZE []]} :: rest) P →
  triple P (http_server_destroy aborts (Some s) w) (λ _ P', sep rest P').
Proof.
  intros Hok Hsep. unfold http_server_destroy. eapply triple_bind; [by eapply close_all_triple; [apply Hok|]|].
  intros w' P' Hs. cbv beta in Hs. eapply triple_bind; [exact (triple_sep_free _ _ _ _ Hs)|]. intros ? P2 Hs2. by apply triple_ret.
Qed.

Lemma serve_triple config listen group_ok es w rest P : config_ok config → sep rest P →
  triple P (serve config listen group_ok es w) (λ '(g_server, w') P', ∃ leak, leak_ok leak ∧
    match g_server with
    | None => sep (leak ++ rest) P'
    | Some s => ∃ ms, server_ok s ms ∧ sep (ms ++ {[hs_self s := Buffer SERVER_SIZE []]} :: leak ++ rest) P' ∧
        ∀ e, last es = Some e → Forall (settled e) (hs_conn_list s)
    end).
Proof.
  intros Hconf Hsep. unfold serve, access_server_start, http_server_start.
  eapply (triple_bind _ _ _ (λ '(_, s, w') P', match s with
    | None => sep rest P'
    | Some s => sep ({[hs_self s := Buffer SERVER_SIZE []]} :: rest) P' ∧ hs_running s = true ∧ server_ok s [] ∧ hs_conn_list s = []
    end)).
  { eapply (triple_bind _ _ _ (λ '(_, s, w') P', match s with
      | None => sep rest P'
      | Some s => sep ({[hs_self s := Buffer SERVER_SIZE []]} :: rest) P' ∧ hs_running s = true ∧ server_ok s [] ∧ hs_conn_list s = []
      end)).
    - eapply triple_bind; [by eapply create_triple|]. intros [s w'] P' Hpost. by apply triple_ret.
    - intros [[r s] w'] P' Hpost. by apply triple_ret. }
  intros [[r [s|]] w1] P1; [|intros Hs; apply triple_ret; exists []; split; [apply leak_nil|done]].
  intros (Hs & Hrun & Hok & _).
  eapply triple_bind; [by eapply (run_polls_triple es s w1 [])|].
  intros [s' w'] P' (ms & leak & Hok' & Hs' & Hleak & Hsame & _ & Hset). apply triple_ret. exists leak. split; [done|].
  exists ms. split_and!; [done| |by apply Hset].
  assert (hs_self s' = hs_self s) as -> by (unfold same_server in Hsame; by rewrite Hsame).
  eapply sep_perm; [|exact Hs']. apply Permutation_app_head. symmetry. apply Permutation_middle.
Qed.
End conns.


(** A server of two connections; in the first poll one client connects and sends a request. *)
Definition small_config : http_server_config := ServerConfig (cs "0.0.0.0") 80 2 0 0 1000.
Definition small_poll (waiting : list (nat * Z)) (incoming : bytes) (inline : bool) : poll_env :=
  PollEnv (λ _, true) waiting (λ _, incoming) (λ _, inline) false (λ _, 5%Z) 10 10.
Definition world_zero : world := World statics_zero 0 [].

Lemma small_config_ok : config_ok small_config.
Proof. unfold config_ok, fits, MAX_SAFE_BODY. simpl. lia. Qed.


(** C14. A poll always ends, and it settles every connection: one that the last poll leaves is
    writing its response, or the poll read bytes from it.  So a connection whose socket has
    nothing to read in a poll, whether its request is still on the way or it is kept alive
    between requests, is closed by that poll, long before any timeout. *)
Theorem poll_settles {L : Llhttp} {LL : LlhttpLaws L} {O : AllocOracle} config listen group_ok es e w (h : mem buffer) :
  config_ok config → mem_wf h →
  ∃ g_server w1 h1, serve config listen group_ok (es ++ [e]) w h = Some ((g_server, w1), h1) ∧
  ∀ s c, g_server = Some s → c ∈ hs_conn_list s →
    hc_state c = CONN_WRITING ∨ hc_state c = CONN_READING ∧ pe_incoming e (hc_sock c) ≠ [].
Proof.
  intros Hconf Hwf.
  destruct (serve_triple config listen group_ok (es ++ [e]) w [] ∅ Hconf eq_refl h (mem_cells h))
    as ([g w1] & h1 & P1 & Hrun & _ & _ & _ & leak & _ & Hpost).
  { done. } { by rewrite (left_id_L ∅ (∪)). } { apply map_disjoint_empty_l. }
  exists g, w1, h1. split; [done|]. intros s c -> Hc. destruct Hpost as (_ & _ & _ & Hset).
  eapply Forall_forall in Hset; [exact Hset|apply last_snoc|done].
Qed.

Lemma poll_settles_witness :
  ∃ s w1 h1, serve (L := small_llhttp) (O := no_oom) small_config (Some 7) true ([small_poll [(8, 5%Z)] (cs "data") false] ++ [small_poll [] [] false])
      world_zero mem_empty = Some ((Some s, w1), h1) ∧
    Forall (λ c, hc_state c = CONN_WRITING) (hs_conn_list s).
Proof.
  destruct (poll_settles (L := small_llhttp) (LL := small_laws) (O := no_oom) small_config (Some 7) true
    [small_poll [(8, 5%Z)] (cs "data") false] (small_poll [] [] false) world_zero mem_empty) as (g & w1 & h1 & Hr & Hset);
    [apply small_config_ok|apply mem_wf_empty|].
  assert (match serve (L := small_llhttp) (O := no_oom) small_config (Some 7) true ([small_poll [(8, 5%Z)] (cs "data") false] ++ [small_poll [] [] false])
      world_zero mem_empty with Some ((Some s, _), _) => true | _ => false end = true) as Hs by (by vm_compute).
  rewrite Hr in Hs. destruct g as [s|]; [|done].
  exists s, w1, h1. split; [exact Hr|]. apply Forall_forall. intros c Hc.
  destruct (Hset s c eq_refl Hc) as [?|[_ []]]; done.
Defined.

(** ** The answer to a request *)

Section answers.
Context {L : Llhttp} {O : AllocOracle}.
Implicit Types (c : http_conn) (q : http_request).

(** The status a request should get. *)
Definition answer_status (p : http_parser_ctx) : Z :=
  let q := hp_request p in
  let '(result, s3) := s3_route_parse (hr_method q) (hr_uri q) (header_ptrs p) (hr_s3 q) in
  if decide (result ≠ 0)%Z then 400
  else if decide (rq_authorization s3 ≠ [] ∧ sigv4_validate (rq_authorization s3) ≠ SIGV4_OK) then 403
  else match rq_operation s3 with S3_OPERATION_DELETE_OBJECT => 204 | _ => 200 end.

Lemma write_response_sends c resp w h : alloc_ok (mem_next h) = true →
  ∃ c' w' h', conn_write_response false c resp w h = Some ((c', w'), h') ∧ hc_state c' = CONN_WRITING ∧
    is_Some (hc_write_req c') ∧
    w_calls w' = w_calls w ++ [Writev (hc_sock c) (entries resp (hr_keep_alive (hp_request (hc_parser_ctx c))))].
Proof.
  intros Hok. unfold conn_write_response. rewrite serialize_entries by (unfold HTTP_IOV_MAX; lia).
  unfold mbind, M_bind, malloc. rewrite Hok. eexists _, _, _. split_and!; [done|done|by eexists|done].
Qed.

Lemma fill_error_status status code msg s : rs_http_status (fill_error_response status code msg s).1 = status.
Proof. done. Qed.

Lemma run_handler_ok q s : length (rq_bucket (hr_s3 q)) ≤ S3_MAX_BUCKET_LENGTH →
  rq_operation (hr_s3 q) ∈ [S3_OPERATION_PUT_OBJECT; S3_OPERATION_GET_OBJECT; S3_OPERATION_DELETE_OBJECT;
    S3_OPERATION_HEAD_OBJECT; S3_OPERATION_LIST_OBJECTS] →
  ∃ resp s', run_handler q s = (0%Z, resp, s') ∧
    rs_http_status resp = match rq_operation (hr_s3 q) with S3_OPERATION_DELETE_OBJECT => 204%Z | _ => 200%Z end.
Proof.
  intros Hb Hop. unfold run_handler. rewrite !elem_of_cons, elem_of_nil in Hop.
  destruct Hop as [Hop|[Hop|[Hop|[Hop|[Hop|[]]]]]]; rewrite Hop.
  1-4: eexists _, _; by split.
  destruct (handler_list_ok (hr_s3 q) s3_response_zero s Hb) as (text & -> & _). eexists _, _. by split.
Qed.

Lemma route_operation_in method path query : method_to_operation method ≠ S3_OPERATION_UNKNOWN →
  route_operation method path query ∈ [S3_OPERATION_PUT_OBJECT; S3_OPERATION_GET_OBJECT; S3_OPERATION_DELETE_OBJECT;
    S3_OPERATION_HEAD_OBJECT; S3_OPERATION_LIST_OBJECTS].
Proof.
  intros Hop. unfold route_operation.
  assert (method_to_operation method ∈ [S3_OPERATION_PUT_OBJECT; S3_OPERATION_GET_OBJECT; S3_OPERATION_DELETE_OBJECT;
    S3_OPERATION_HEAD_OBJECT; S3_OPERATION_LIST_OBJECTS]) by (unfold method_to_operation in *; repeat case_decide; set_solver).
  repeat case_match; set_solver.
Qed.
End answers.

(** A complete request is answered at once by one response: 400 when it cannot be routed,
    403 when it carries an authorisation that does not have the right form, 204 for a
    deletion and 200 for everything else; no routed request gets 405 or 500.  A request that
    carries no authorisation is served. *)
Theorem dispatch_answers {L : Llhttp} {O : AllocOracle} (c : http_conn) w (h : mem buffer) :
  alloc_ok (mem_next h) = true →
  ∃ c' w' h' resp, http_conn_dispatch false c w h = Some ((c', w'), h') ∧ hc_state c' = CONN_WRITING ∧
    w_calls w' = w_calls w ++ [Writev (hc_sock c) (entries resp (hr_keep_alive (hp_request (hc_parser_ctx c))))] ∧
    rs_http_status resp = answer_status (hc_parser_ctx c).
Proof.
  intros Hok. unfold http_conn_dispatch, answer_status. set (p := hc_parser_ctx c). set (q := hp_request p).
  destruct (s3_route_parse _ _ _ _) as [result s3] eqn:Hroute. set (c1 := set_parser _ _).
  assert (∀ resp w1, w_calls w1 = w_calls w → rs_http_status resp = answer_status p →
    ∃ c' w' h' resp', conn_write_response false c1 resp w1 h = Some ((c', w'), h') ∧ hc_state c' = CONN_WRITING ∧
    w_calls w' = w_calls w ++ [Writev (hc_sock c) (entries resp' (hr_keep_alive (hp_request p)))] ∧
    rs_http_status resp' = answer_status p) as Hsend.
  { intros resp w1 Hw Hst. destruct (write_response_sends c1 resp w1 h Hok) as (c' & w' & h' & Hr & Hs & _ & Hc).
    exists c', w', h', resp. rewrite Hw in Hc. split_and!; [done|done|exact Hc|done]. }
  unfold answer_status in Hsend. fold q in Hsend. rewrite Hroute in Hsend.
  case_decide as Hres; [by apply Hsend|]. case_decide as Hauth; [by apply Hsend|].
  subst result. apply s3_route_parse_ok in Hroute as (bucket & path & query & _ & Hb & _ & Hop & ->).
  pose proof (route_headers_path (header_ptrs p) (set_operation (route_operation (hr_method q) path query)
    (set_path bucket (drop 1 path) (hr_s3 q)))) as (Hbk & _ & Ho).
  destruct (run_handler_ok (set_s3 (route_headers (header_ptrs p) (set_operation (route_operation (hr_method q) path query)
    (set_path bucket (drop 1 path) (hr_s3 q)))) q) (w_statics w)) as (resp & s' & -> & Hst).
  - simpl. by rewrite Hbk.
  - simpl. rewrite Ho. by apply route_operation_in.
  - rewrite decide_False by (by intros []). by apply Hsend.
Qed.

Lemma dispatch_answers_witness :
  ∃ c' w' h' resp, http_conn_dispatch (L := small_llhttp) (O := no_oom) false
      (HttpConn (L := small_llhttp) 0 7 http_parser_init None 0 0 CONN_READING None 0) world_zero mem_empty = Some ((c', w'), h') ∧
    w_calls w' = [Writev 7 (entries resp false)] ∧ rs_http_status resp = 400%Z.
Proof.
  destruct (dispatch_answers (L := small_llhttp) (O := no_oom)
    (HttpConn (L := small_llhttp) 0 7 http_parser_init None 0 0 CONN_READING None 0) world_zero mem_empty) as (c' & w' & h' & resp & Hr & _ & Hc & Hst);
    [done|].
  exists c', w', h', resp. split; [exact Hr|]. split; [exact Hc|]. rewrite Hst. by vm_compute.
Defined.

(** ** What the server gets wrong *)

(** A connection that has received nothing yet, and the memory with its buffer. *)
Definition fresh_conn {L : Llhttp} : http_conn :=
  HttpConn 1 7 (with_max_body 100 http_parser_init) (Some 0) DEFAULT_RECV_BUF_SIZE 0 CONN_READING None 0.
Definition fresh_mem : mem buffer := Mem 1 {[0 := Buffer DEFAULT_RECV_BUF_SIZE []]}.

(** An llhttp that only remembers the bytes it was given, and waits for more. *)
Definition logging_llhttp : Llhttp := {|
  llhttp_t := bytes;
  llhttp_init := [];
  llhttp_reset _ := [];
  llhttp_execute s data := Finished HPE_OK None (s ++ data)
|}.

(** A request that arrives in two pieces reaches llhttp with its first piece twice: when llhttp
    waits for more, [http_parser_feed] says that it consumed nothing. *)
Theorem partial_request_fed_twice :
  match ('(c, w) ← http_conn_on_readable (L := logging_llhttp) (O := no_oom) 0 (cs "GET ") false fresh_conn world_zero;
         http_conn_on_readable (L := logging_llhttp) (O := no_oom) 0 (cs "/b") false c w) fresh_mem with
  | Some ((c, _), _) => hp_parser (hc_parser_ctx c) = cs "GET GET /b"
  | None => False
  end.
Proof. by vm_compute. Qed.

(** An llhttp that skips line ends before a message, as the real one does. *)
Definition skipping_llhttp : Llhttp := {|
  llhttp_t := phase;
  llhttp_init := Idle;
  llhttp_reset _ := Idle;
  llhttp_execute ph data := if decide (data = [Byte.x0d; Byte.x0a]) then Finished HPE_OK None ph else drive id (length data) Idle (small_message data)
|}.

(** A line end after an answered request is answered like that request once more: the reset
    leaves [complete] set and no message begins. *)
Theorem line_end_replays_request :
  match ('(c, w) ← http_conn_on_readable (L := skipping_llhttp) (O := no_oom) 0 (cs "request") true fresh_conn world_zero;
         http_conn_on_readable (L := skipping_llhttp) (O := no_oom) 0 [Byte.x0d; Byte.x0a] true c w) fresh_mem with
  | Some ((_, w), _) => ∃ iov, w_calls w = [Writev 7 iov; Writev 7 iov] ∧ 0 < length iov
  | None => False
  end.
Proof. vm_compute. eexists. split; [done|]. repeat constructor. Qed.
