(* ===== verification/HttpSession.v ===== *)
(** * A client's session with the HTTP server: bytes in, bytes out
      ([src/access/http_server.c], [http_parser.c], [http_response.c], [access_handlers.c])

    The parser, the router, the handlers, the serialiser and the connection's state machine
    together.  A session is a list of requests on one connection, each of which arrives in one
    receive and is answered before the next; the write of an answer completes in between, as
    in the server's next poll. *)
From S2P Require Import Prelude Memory Triples HttpText AccessRoutes HttpResponse HttpParser HttpServer.
From stdpp Require Import options.

#[local] Set Default Proof Using "Type*".

(** ** Requests and their answers *)

Record http_message := HttpMessage {
  m_method : bytes;
  m_uri : bytes;
  m_headers : list (bytes * bytes);
  m_keep_alive : bool;
  m_body : bytes
}.

(** The parts fit the parser's arrays, the body its limit. *)
Definition message_ok (max_body : Z) (m : http_message) : Prop :=
  c_ok (m_method m) ∧ length (m_method m) < HTTP_METHOD_MAX ∧ c_ok (m_uri m) ∧ length (m_uri m) < HTTP_MAX_URI ∧
  length (m_headers m) ≤ HTTP_MAX_HEADERS ∧
  Forall (λ '(name, val), c_ok name ∧ c_ok val ∧ length name ≤ S3_MAX_HEADER_LENGTH ∧ length val ≤ S3_MAX_HEADER_LENGTH) (m_headers m) ∧
  (Z.of_nat (length (m_body m)) ≤ max_body)%Z.

(** What the socket sends for a response with a body. *)
Definition wire (resp : s3_response) (body : bytes) (keep_alive : bool) : bytes :=
  cs "HTTP/1.1 " ++ status_text (rs_http_status resp) ++ stray (rs_http_status resp) ++ headers_text resp keep_alive ++ body.

Definition XML : option bytes := Some (cs "application/xml").
Definition error_answer (status : Z) (code msg : string) (keep_alive : bool) : bytes :=
  let body := xml_error (cs code) (cs msg) in
  wire (S3Response status XML (Some ErrBuf) (length body) []) body keep_alive.

Definition operation_answer (s3 : s3_request) (keep_alive : bool) : bytes :=
  match rq_operation s3 with
  | S3_OPERATION_PUT_OBJECT => wire (S3Response 200 XML None 0 (DQ ++ cs "d41d8cd98f00b204e9800998ecf8427e" ++ DQ)) [] keep_alive
  | S3_OPERATION_GET_OBJECT =>
      wire (S3Response 200 (Some (cs "binary/octet-stream")) (Some (Literal PLACEHOLDER)) (length PLACEHOLDER) []) PLACEHOLDER keep_alive
  | S3_OPERATION_HEAD_OBJECT => wire (S3Response 200 (Some (cs "binary/octet-stream")) None 0 []) [] keep_alive
  | S3_OPERATION_DELETE_OBJECT => wire (S3Response 204 None None 0 []) [] keep_alive
  | S3_OPERATION_LIST_OBJECTS =>
      let text := xml_listing (rq_bucket s3) [] [] 1000 [cs "example1.txt"; cs "example2.txt"] false in
      wire (S3Response 200 XML (Some ResponseBuffer) (length text) []) text keep_alive
  | _ => []
  end.

(** The answer to a parsed request, and the S3 request that routing makes of it. *)
Definition respond (method uri : bytes) (headers : list bytes) (keep_alive : bool) (s3 : s3_request) : s3_request * bytes :=
  let '(result, s3) := s3_route_parse method uri headers s3 in
  (s3, if decide (result ≠ 0)%Z then error_answer 400 "InvalidRequest" "Could not parse request" keep_alive
       else if decide (rq_authorization s3 ≠ [] ∧ sigv4_validate (rq_authorization s3) ≠ SIGV4_OK)
       then error_answer 403 "SignatureDoesNotMatch" "The request signature does not match" keep_alive
       else operation_answer s3 keep_alive).

(** The answer to a message, when [s3] is what the requests before have left. *)
Definition answer (s3 : s3_request) (m : http_message) : s3_request * bytes :=
  respond (m_method m) (m_uri m) (concat ((λ '(name, val), [name; val]) <$> m_headers m)) (m_keep_alive m)
    (foldl (λ s3 '(name, val), complete_header name val s3) s3 (m_headers m)).

Fixpoint answers (s3 : s3_request) (ms : list http_message) : list bytes :=
  match ms with
  | [] => []
  | m :: ms => let '(s3, text) := answer s3 m in text :: answers s3 ms
  end.

(** ** What the code sends *)

Section sending.
Context {L : Llhttp} {O : AllocOracle}.
Implicit Types (c : http_conn) (q : http_request) (h : mem buffer).

Lemma response_sent c resp w h : alloc_ok (mem_next h) = true → response_ok resp (w_statics w) →
  ∃ c' w' h' iov, conn_write_response false c resp w h = Some ((c', w'), h') ∧ hc_state c' = CONN_WRITING ∧
    is_Some (hc_write_req c') ∧ hc_parser_ctx c' = hc_parser_ctx c ∧ w_calls w' = w_calls w ++ [Writev (hc_sock c) iov] ∧
    gather (w_statics w') iov = wire resp (body_text resp (w_statics w)) (hr_keep_alive (hp_request (hc_parser_ctx c))).
Proof.
  intros Hok Hresp. unfold conn_write_response. rewrite serialize_entries by (unfold HTTP_IOV_MAX; lia).
  unfold mbind, M_bind, malloc. rewrite Hok. eexists _, _, _, _. split_and!; [done|done|by eexists|done|done|].
  cbn [w_statics call set_statics]. rewrite entries_wire by done. reflexivity.
Qed.

(** A document in a static buffer. *)
Lemma body_sent status ref text s keep_alive :
  ref ∉ [EtagBuf; ClBuf; CtBuf] → read_static ref s = text → 0 < length text → fits 32 (Z.of_nat (length text)) →
  ∀ ct, from_option length 0 ct ≤ Z.to_nat 256 →
  let resp := S3Response status ct (Some ref) (length text) [] in
  response_ok resp s ∧ wire resp (body_text resp s) keep_alive = wire resp text keep_alive.
Proof.
  intros Href Hread Hpos Hfits ct Hct resp. split.
  - split; simpl; [|by intros ? ->|lia|done]. intros ? [= <-]. by rewrite Hread.
  - unfold body_text, has_body. simpl. rewrite bool_decide_true by done. by rewrite Hread, take_ge.
Qed.

Lemma error_sent status code msg s keep_alive : length (xml_error (cs code) (cs msg)) < ERR_BUF_SIZE →
  let '(resp, s) := fill_error_response status (cs code) (cs msg) s in
  response_ok resp s ∧ wire resp (body_text resp s) keep_alive = error_answer status code msg keep_alive.
Proof.
  intros Hlen. unfold fill_error_response, s3_xml_serialize_error, snprintf_s.
  apply (body_sent status ErrBuf (xml_error (cs code) (cs msg))).
  - set_solver.
  - cbn [read_static st_err_buf]. apply take_ge. lia.
  - unfold xml_error. rewrite length_app. apply Nat.add_pos_l, (bool_decide_unpack _). by vm_compute.
  - unfold ERR_BUF_SIZE in Hlen. unfold fits. lia.
  - simpl. lia.
Qed.

(** The handlers never fail on a routed request. *)
Lemma operation_sent q s keep_alive : length (rq_bucket (hr_s3 q)) ≤ S3_MAX_BUCKET_LENGTH →
  rq_operation (hr_s3 q) ∈ [S3_OPERATION_PUT_OBJECT; S3_OPERATION_GET_OBJECT; S3_OPERATION_DELETE_OBJECT;
    S3_OPERATION_HEAD_OBJECT; S3_OPERATION_LIST_OBJECTS] →
  ∃ resp s', run_handler q s = (0%Z, resp, s') ∧ response_ok resp s' ∧
    wire resp (body_text resp s') keep_alive = operation_answer (hr_s3 q) keep_alive.
Proof.
  intros Hb Hop. unfold run_handler, operation_answer. rewrite !elem_of_cons, elem_of_nil in Hop.
  assert (∀ resp, rs_body resp = None → length (rs_etag resp) ≤ Z.to_nat 256 → from_option length 0 (rs_content_type resp) ≤ Z.to_nat 256 →
    rs_body_length resp = 0 → response_ok resp s ∧ wire resp (body_text resp s) keep_alive = wire resp [] keep_alive) as Hnone.
  { intros resp Hbody Hetag Hct Hlen. split; [split; [by rewrite Hbody|by intros ? Heq; rewrite Heq in Hct|done|by rewrite Hlen]|].
    unfold body_text, has_body. by rewrite Hbody. }
  destruct Hop as [Hop|[Hop|[Hop|[Hop|[Hop|[]]]]]]; rewrite Hop.
  - eexists _, _. split; [done|]. apply Hnone; [done|by apply (bool_decide_unpack _)|by apply (bool_decide_unpack _)|done].
  - eexists _, _. split; [done|]. apply (body_sent 200 (Literal PLACEHOLDER) PLACEHOLDER);
      [set_solver|done|by apply (bool_decide_unpack _)|by apply (bool_decide_unpack _)|by apply (bool_decide_unpack _)].
  - eexists _, _. split; [done|]. apply Hnone; [done|by apply (bool_decide_unpack _)..|done].
  - eexists _, _. split; [done|]. apply Hnone; [done|by apply (bool_decide_unpack _)..|done].
  - destruct (handler_list_ok (hr_s3 q) s3_response_zero s Hb) as (text & -> & Htext). eexists _, _. split; [done|]. cbv zeta.
    rewrite <-Htext. pose proof (f_equal length Htext) as Hlen. unfold xml_listing, xml_list_head in Hlen. rewrite !length_app in Hlen.
    unfold S3_MAX_BUCKET_LENGTH in Hb.
    repeat match type of Hlen with context [length ?l] => lazymatch l with context [rq_bucket] => fail | text => fail | _ =>
      let n := eval vm_compute in (length l) in change (length l) with n in Hlen end end.
    apply (body_sent 200 ResponseBuffer text); [set_solver|done|lia|unfold fits; lia|by apply (bool_decide_unpack _)].
Qed.

(** A parsed request gets its answer. *)
Lemma dispatch_sent c w h : alloc_ok (mem_next h) = true →
  let p := hc_parser_ctx c in let q := hp_request p in
  let '(s3, text) := respond (hr_method q) (hr_uri q) (header_ptrs p) (hr_keep_alive q) (hr_s3 q) in
  ∃ c' w' h' iov, http_conn_dispatch false c w h = Some ((c', w'), h') ∧ hc_state c' = CONN_WRITING ∧
    is_Some (hc_write_req c') ∧ hc_parser_ctx c' = with_request p (set_s3 s3 q) ∧
    w_calls w' = w_calls w ++ [Writev (hc_sock c) iov] ∧ gather (w_statics w') iov = text.
Proof.
  intros Hok p q. unfold respond, http_conn_dispatch. fold p q.
  destruct (s3_route_parse _ _ _ _) as [result s3] eqn:Hroute. set (c1 := set_parser _ _).
  assert (∀ resp s text, response_ok resp s → wire resp (body_text resp s) (hr_keep_alive q) = text →
    ∃ c' w' h' iov, conn_write_response false c1 resp (set_statics s w) h = Some ((c', w'), h') ∧ hc_state c' = CONN_WRITING ∧
      is_Some (hc_write_req c') ∧ hc_parser_ctx c' = with_request p (set_s3 s3 q) ∧
      w_calls w' = w_calls w ++ [Writev (hc_sock c) iov] ∧ gather (w_statics w') iov = text) as Hsend.
  { intros resp s text Hresp <-. by apply (response_sent c1 resp (set_statics s w) h). }
  unfold conn_error_response. case_decide as Hres; [|case_decide as Hauth].
  - pose proof (error_sent 400 "InvalidRequest" "Could not parse request" (w_statics w) (hr_keep_alive q)) as He.
    destruct (fill_error_response _ _ _ _) as [resp s]. apply Hsend; apply He; by apply (bool_decide_unpack _).
  - pose proof (error_sent 403 "SignatureDoesNotMatch" "The request signature does not match" (w_statics w) (hr_keep_alive q)) as He.
    destruct (fill_error_response _ _ _ _) as [resp s]. apply Hsend; apply He; by apply (bool_decide_unpack _).
  - subst result. apply s3_route_parse_ok in Hroute as (bucket & path & query & _ & Hb & _ & Hop & ->).
    pose proof (route_headers_path (header_ptrs p) (set_operation (route_operation (hr_method q) path query)
      (set_path bucket (drop 1 path) (hr_s3 q)))) as (Hbk & _ & Ho).
    set (s3 := route_headers _ _) in *.
    destruct (operation_sent (set_s3 s3 q) (w_statics w) (hr_keep_alive q)) as (resp & s' & -> & Hresp & Hwire).
    + simpl. by rewrite Hbk.
    + simpl. rewrite Ho. by apply route_operation_in.
    + rewrite decide_False by (by intros []). by apply Hsend.
Qed.
End sending.

(** ** One exchange *)

Section exchange.
Context {L : Llhttp} {LL : LlhttpLaws L} {O : AllocOracle}.
Hypothesis all_ok : ∀ n, alloc_ok n = true.
Implicit Types (c : http_conn) (w : world) (m : http_message) (P : gmap nat buffer) (ms rest : list (gmap nat buffer)).

(** The bytes are those of the message: llhttp, at the start of one, reports its parts in
    order, the body in pieces, and stops behind it when it is told to pause. *)
Definition spells (data : bytes) m : Prop :=
  ∀ s, llhttp_phase s = Idle → ∃ st len chunks, (0 ≤ len)%Z ∧ concat chunks = m_body m ∧
    llhttp_execute s data = drive st (length data) Idle (message (m_method m) (m_uri m) (m_headers m) (m_keep_alive m) len chunks).

(** A connection between two requests, with the blocks it owns. *)
Definition ready c ms : Prop :=
  conn_res c ms ∧ hc_state c = CONN_READING ∧ hc_recv_len c = 0%Z ∧ llhttp_phase (hp_parser (hc_parser_ctx c)) = Idle.

(** The parser holds the message. *)
Definition holds m (s3 : s3_request) (p : http_parser_ctx) : Prop :=
  let q := hp_request p in
  header_ptrs p = concat ((λ '(name, val), [name; val]) <$> m_headers m) ∧ hr_method q = m_method m ∧ hr_uri q = m_uri m ∧
  hr_keep_alive q = m_keep_alive m ∧ hr_complete q = true ∧
  hr_s3 q = foldl (λ s3 '(name, val), complete_header name val s3) s3 (m_headers m).

Lemma feed_message p data m B :
  parser_ok p B → llhttp_phase (hp_parser p) = Idle → message_ok (hp_max_body_size p) m → spells data m →
  (Z.of_nat (length data) < 2 ^ 31)%Z →
  triple B (http_parser_feed p data) (λ '(n, p') B', n = Z.of_nat (length data) ∧ parser_ok p' B' ∧
    hp_max_body_size p' = hp_max_body_size p ∧ holds m (hr_s3 (hp_request p)) p').
Proof.
  intros Hp Hidle (Hmc & Hml & Huc & Hul & Hhs & Hall & Hbody) Hspells Hdata.
  destruct (Hspells _ Hidle) as (st & len & chunks & Hlen & Hchunks & Hexec).
  pose proof Hp as Hinv. unfold parser_ok in Hinv. rewrite Hidle in Hinv.
  assert (B = ∅) as -> by (by eapply inv_no_body; [|left]).
  eapply triple_mono.
  - apply triple_conj; [by apply feed_triple|]. unfold http_parser_feed. rewrite Hexec.
    eapply triple_bind; [apply (message_run all_ok); try done; by rewrite Hchunks|].
    intros [[err pos] p'] P' (-> & -> & _ & Hof & _ & b & k & Hq). rewrite decide_False by naive_solver.
    apply (triple_ret _ _ (λ '(n, p') P', n = Z.of_nat (length data) ∧ holds m (hr_s3 (hp_request p)) p')).
    split; [apply i32_small; lia|]. unfold holds, header_ptrs. rewrite Hof, Hq. by split_and!.
  - intros [n p'] B' [(Hok & Hmax & _) [-> Hholds]]. by split_and!.
Qed.

(** The answer of [m] is on its way on the socket, and nothing of the request is left in the
    receive buffer. *)
Definition answering (s3 : s3_request) m (sock : nat) (max_body : Z) w c' w' : Prop :=
  let '(s3', text) := answer s3 m in
  hc_state c' = CONN_WRITING ∧ is_Some (hc_write_req c') ∧ is_Some (hc_recv_buf c') ∧ hc_recv_len c' = 0%Z ∧ hc_sock c' = sock ∧
  hr_s3 (hp_request (hc_parser_ctx c')) = s3' ∧ hr_keep_alive (hp_request (hc_parser_ctx c')) = m_keep_alive m ∧
  hp_max_body_size (hc_parser_ctx c') = max_body ∧
  ∃ iov, w_calls w' = w_calls w ++ [Writev sock iov] ∧ gather (w_statics w') iov = text.

Lemma dispatch_message c w m s3 ms rest P :
  holds m s3 (hc_parser_ctx c) → conn_base c ms → hc_write_req c = None → is_Some (hc_recv_buf c) → hc_recv_len c = 0%Z →
  sep (ms ++ rest) P →
  triple P (http_conn_dispatch false c w) (λ '(c', w') P', (∃ ms', conn_res c' ms' ∧ sep (ms' ++ rest) P') ∧
    answering s3 m (hc_sock c) (hp_max_body_size (hc_parser_ctx c)) w c' w').
Proof.
  intros (Hptrs & Hm & Hu & Hka & _ & Hs3) Hbase Hwr Hrecv Hlen Hsep.
  assert (∀ h, _) as Hsent by (intros h; exact (dispatch_sent c w h (all_ok _))). cbv zeta in Hsent.
  rewrite Hptrs, Hm, Hu, Hka, Hs3 in Hsent. fold (answer s3 m) in Hsent. unfold answering. destruct (answer s3 m) as [s3' text].
  eapply triple_mono; [apply (triple_and _ _ _ (λ '(c', w'), hc_state c' = CONN_WRITING ∧ is_Some (hc_write_req c') ∧
      hc_parser_ctx c' = with_request (hc_parser_ctx c) (set_s3 s3' (hp_request (hc_parser_ctx c))) ∧
      ∃ iov, w_calls w' = w_calls w ++ [Writev (hc_sock c) iov] ∧ gather (w_statics w') iov = text)
    (dispatch_triple false c w ms rest P Hwr ltac:(by intros Heq; rewrite Heq in Hrecv; destruct Hrecv) Hbase Hsep))|].
  - intros h [c' w'] h' Hr. destruct (Hsent h) as (c1 & w1 & h1 & iov & Hr1 & Hst & Hreq & Hctx & Hcalls & Hg).
    rewrite Hr1 in Hr. injection Hr as <- <- <-. split_and!; [done|done|done|by exists iov].
  - intros [c' w'] P' [(ms' & Hres & Hs & _ & Hsock & Hrb & _ & Hrl) (Hst & Hreq & Hctx & Hiov)].
    split; [by exists ms'|]. rewrite Hctx, Hrb, Hrl. by split_and!.
Qed.

Lemma receive_message c w m data p b B rest P :
  hc_state c = CONN_READING → hc_write_req c = None → hc_recv_buf c = Some p → hc_recv_len c = 0%Z →
  conn_base c [{[hc_self c := Buffer CONN_SIZE []]}; {[p := b]}; B] → llhttp_phase (hp_parser (hc_parser_ctx c)) = Idle →
  message_ok (hp_max_body_size (hc_parser_ctx c)) m → spells data m → (Z.of_nat (length data) ≤ DEFAULT_RECV_BUF_SIZE)%Z →
  sep ([{[hc_self c := Buffer CONN_SIZE []]}; {[p := b]}; B] ++ rest) P →
  triple P (http_conn_receive false data c w) (λ '(c', w') P', (∃ ms', conn_res c' ms' ∧ sep (ms' ++ rest) P') ∧
    answering (hr_s3 (hp_request (hc_parser_ctx c))) m (hc_sock c) (hp_max_body_size (hc_parser_ctx c)) w c' w').
Proof.
  intros Hrd Hwr Hp Hlen Hbase Hidle Hm Hspells Hdata Hsep. unfold http_conn_receive.
  destruct (conn_base_inv _ _ _ _ Hp Hbase) as (Hsize & _ & Hle & [Hmin Hmax] & Hk & HB). unfold DEFAULT_RECV_BUF_SIZE in Hdata.
  eapply (triple_bind _ _ _ (λ x P', x = (p, b) ∧ P' = P)); [by eapply recv_buffer_triple; [exact Hp| |exact Hsep|]|].
  intros ? ? [-> ->].
  eapply triple_bind; [apply (write_recv_triple c p b B rest _ data Hp Hbase ltac:(lia) Hsep)|]. cbv iota beta.
  intros _ P2 (b2 & Hbase2 & Hsep2 & Hheld). cbn zeta in Hbase2, Hheld. rewrite Hp in Hbase2, Hheld |- *.
  assert (u32 (hc_recv_len c + Z.of_nat (length data)) = Z.of_nat (length data)) as Hnew by (rewrite Hlen; apply wrap_small; unfold fits; lia).
  rewrite Hnew in *. set (c2 := set_recv _ _ _ c) in *.
  eapply (triple_bind _ _ _ (λ x P', x = (p, b2) ∧ P' = P2)); [by eapply (recv_buffer_triple c2); [| |exact Hsep2|]|].
  intros ? ? [-> ->]. cbv iota beta. rewrite Hheld, Hlen. change (take (Z.to_nat 0) (buf_data b) ++ data) with data.
  destruct (conn_base_inv c2 p b2 B eq_refl Hbase2) as (Hsize2 & Hlen2 & Hle2 & _ & Hk2 & HB2).
  eapply triple_bind.
  { eapply triple_sep; [by eapply (sep_pull 2 _ B); [|exact Hsep2]|]. apply (feed_message _ _ m); [exact HB2|exact Hidle|exact Hm|exact Hspells|lia]. }
  intros [result ctx] P3 (B' & Hsep3 & -> & HB' & Hmaxb & Hholds).
  assert (sep ([{[hc_self c := Buffer CONN_SIZE []]}; {[p := b2]}; B'] ++ rest) P3) as Hsep3' by (by eapply (sep_put 2 _ B')).
  rewrite decide_False by lia. set (c3 := set_parser ctx c2).
  assert (conn_base c3 [{[hc_self c := Buffer CONN_SIZE []]}; {[p := b2]}; B']) as Hbase3 by (by apply (set_recv_base c3 p b2 B')).
  eapply triple_bind; [apply (discard_triple _ c3 p b2 B' rest); [done|exact Hbase3| |exact Hsep3']; simpl; lia|].
  intros c4 P4 (ms4 & Hbase4 & Hsep4 & ->). set (c4 := set_recv _ _ _ c3) in *.
  pose proof Hholds as (_ & _ & _ & _ & Hcomplete & _). change (hc_parser_ctx c4) with ctx. rewrite Hcomplete.
  eapply triple_mono; [apply (dispatch_message c4 w m (hr_s3 (hp_request (hc_parser_ctx c))) ms4 rest); [exact Hholds|done|done|by eexists|simpl; lia|done]|].
  intros [c' w'] P' [Hres Hans]. split; [done|]. change (hc_parser_ctx c4) with ctx in Hans. by rewrite Hmaxb in Hans.
Qed.

(** A message that arrives whole on a connection between two requests is answered. *)
Lemma readable_message now c w m data ms rest P :
  ready c ms → message_ok (hp_max_body_size (hc_parser_ctx c)) m → spells data m → data ≠ [] →
  (Z.of_nat (length data) ≤ DEFAULT_RECV_BUF_SIZE)%Z → sep (ms ++ rest) P →
  triple P (http_conn_on_readable now data false c w) (λ '(c', w') P', (∃ ms', conn_res c' ms' ∧ sep (ms' ++ rest) P') ∧
    answering (hr_s3 (hp_request (hc_parser_ctx c))) m (hc_sock c) (hp_max_body_size (hc_parser_ctx c)) w c' w').
Proof.
  intros (Hres & Hrd & Hlen & Hidle) Hm Hspells Hne Hdata Hsep.
  destruct (conn_res_reading _ _ Hres (or_introl Hrd)) as (_ & Hwr & Hrecv & ms' & -> & R & B & -> & HR & HB).
  apply sep_drop_empty in Hsep. destruct (hc_recv_buf c) as [p|] eqn:Hp; [|done].
  assert (∃ b, R = {[p := b]}) as [b ->] by (unfold recv_ok in HR; rewrite Hp in HR; destruct HR as (b & -> & _); eauto).
  assert (conn_base (set_active now c) [{[hc_self c := Buffer CONN_SIZE []]}; {[p := b]}; B]) as Hbase by (eexists _, _; by split_and!).
  destruct (conn_base_inv (set_active now c) p b B Hp Hbase) as (_ & _ & _ & [Hmin Hmax] & _). cbn [hc_recv_buf_size set_active] in Hmin, Hmax.
  unfold http_conn_on_readable, ensure_space. cbn [hc_recv_buf_size hc_recv_len set_active]. rewrite Hlen.
  assert (u32 (hc_recv_buf_size c - 0) = hc_recv_buf_size c) as -> by (rewrite Z.sub_0_r; apply wrap_small; unfold fits; lia).
  rewrite decide_False by lia. unfold DEFAULT_RECV_BUF_SIZE in Hdata.
  eapply (triple_bind _ _ _ (λ x P', x = (set_active now c, Some (hc_recv_buf_size c)) ∧ P' = P)); [by apply triple_ret|].
  intros ? ? [-> ->]. cbv iota beta. rewrite take_ge by lia.
  eapply triple_mono; [destruct data; [done|]; by apply (receive_message (set_active now c) w m _ p b B rest)|done].
Qed.

(** The write completes: a kept connection is between two requests again, any other is to be
    closed. *)
Lemma complete_message c ms rest P :
  conn_res c ms → is_Some (hc_write_req c) → is_Some (hc_recv_buf c) → hc_recv_len c = 0%Z → sep (ms ++ rest) P →
  triple P (on_write_complete c) (λ c' P', ∃ ms', conn_res c' ms' ∧ sep (ms' ++ rest) P' ∧ hc_sock c' = hc_sock c ∧
    hr_s3 (hp_request (hc_parser_ctx c')) = hr_s3 (hp_request (hc_parser_ctx c)) ∧
    hp_max_body_size (hc_parser_ctx c') = hp_max_body_size (hc_parser_ctx c) ∧
    if hr_keep_alive (hp_request (hc_parser_ctx c)) then ready c' ms' else hc_state c' = CONN_CLOSING).
Proof.
  intros (W & ms' & -> & Hbase & _ & Hreq) [r Hr] [p Hp] Hlen Hsep. rewrite Hr in Hreq. destruct Hreq as (Hst & b & ->).
  eapply triple_mono; [apply (triple_and _ _ _ (λ c',
      (hr_keep_alive (hp_request (hc_parser_ctx c)) = true → hp_parser (hc_parser_ctx c') = llhttp_reset (hp_parser (hc_parser_ctx c))) ∧
      hr_s3 (hp_request (hc_parser_ctx c')) = hr_s3 (hp_request (hc_parser_ctx c)) ∧
      hp_max_body_size (hc_parser_ctx c') = hp_max_body_size (hc_parser_ctx c))
    (write_complete_triple c r b ms' rest P Hr ltac:(by rewrite Hp) Hbase Hsep))|].
  - intros h c' h' Hrun. unfold on_write_complete, http_conn_on_write_done, http_parser_reset, http_request_destroy in Hrun.
    unfold mbind, M_bind, mret, M_ret in Hrun. simpl in Hrun. rewrite Hst in Hrun.
    destruct (hr_keep_alive (hp_request (hc_parser_ctx c))) eqn:Hka; [rewrite decide_True in Hrun by done|rewrite decide_False in Hrun by (by intros [])];
      repeat case_match; by simplify_eq.
  - intros c' P' [(ms1 & Hres & Hs & (_ & Hsock & _ & _ & Hl) & Hwr & Hst') (Hpar & Hs3 & Hmax)]. exists ms1.
    split_and!; [done..|]. rewrite Hst in Hst'. destruct (hr_keep_alive _).
    + rewrite decide_True in Hst' by done.
      split_and!; [done|done|congruence|]. rewrite Hpar by done. apply llhttp_reset_phase.
    + by rewrite decide_False in Hst' by (by intros []).
Qed.
End exchange.

(** ** Sessions *)

Section session.
Context {L : Llhttp} {LL : LlhttpLaws L} {O : AllocOracle}.
Implicit Types (c : http_conn) (w : world) (ms : list http_message).

(** What the socket has sent between two moments. *)
Definition sent_since w w' : bytes :=
  concat ((λ call, match call with Writev _ iov => gather (w_statics w') iov | _ => [] end) <$> drop (length (w_calls w)) (w_calls w')).

(** The requests arrive one after the other, each with the time it arrives. *)
Fixpoint session (rs : list (Z * bytes)) c w : M buffer (http_conn * world * list bytes) :=
  match rs with
  | [] => mret (c, w, [])
  | (now, data) :: rs =>
      '(c, w1) ← http_conn_on_readable now data false c w;
      c ← on_write_complete c;
      '(c, w2, sent) ← session rs c w1;
      mret (c, w2, sent_since w w1 :: sent)
  end.

(** The client closes with its last request, if at all. *)
Fixpoint persistent ms : Prop :=
  match ms with [] | [_] => True | m :: ms => m_keep_alive m = true ∧ persistent ms end.

(** A request as it arrives. *)
Definition arrives (r : Z * bytes) (m : http_message) : Prop :=
  spells r.2 m ∧ r.2 ≠ [] ∧ (Z.of_nat (length r.2) ≤ DEFAULT_RECV_BUF_SIZE)%Z.
End session.

(** Bytes in, bytes out, for a whole session: when the allocator answers, requests that
    arrive one by one on a connection are each answered by one response, whose bytes on the
    wire are the status line, the headers and the document that the message calls for; the
    connection is then ready for the next request, or is to be closed when the last one said
    so, and owns the blocks it owned before.  What an earlier request left in the S3 request is
    still there for the next. *)
Theorem http_session {L : Llhttp} {LL : LlhttpLaws L} {O : AllocOracle} rs ms c w blocks P :
  (∀ n, alloc_ok n = true) → ready c blocks → sep blocks P →
  Forall2 arrives rs ms → Forall (message_ok (hp_max_body_size (hc_parser_ctx c))) ms → persistent ms →
  triple P (session rs c w) (λ '(c', w', sent) P',
    sent = answers (hr_s3 (hp_request (hc_parser_ctx c))) ms ∧
    (∃ blocks', conn_res c' blocks' ∧ sep blocks' P') ∧ hc_sock c' = hc_sock c ∧
    hc_state c' = (if forallb m_keep_alive ms then CONN_READING else CONN_CLOSING)).
Proof.
  intros Hok Hready Hsep Hrs. revert c w blocks P Hready Hsep.
  induction Hrs as [|[now data] m rs ms (Hspells & Hne & Hdata) Hrs IH]; intros c w blocks P Hready Hsep Hall Hper; cbn [session].
  { apply triple_ret. split_and!; [done|exists blocks; by split; [apply Hready|]|done|apply Hready]. }
  apply Forall_cons in Hall as [Hm Hall].
  assert (sep (blocks ++ []) P) as Hsep0 by (by rewrite (right_id_L [] (++))).
  eapply triple_bind; [by eapply (readable_message Hok now c w m data blocks [])|].
  intros [c1 w1] P1 [(blocks1 & Hres1 & Hsep1) Hans]. unfold answering in Hans. cbn [answers].
  destruct (answer _ m) as [s3 text] eqn:Ha. destruct Hans as (_ & Hreq & Hrecv & Hlen & Hsock & Hs3 & Hka & Hmax & iov & Hcalls & Hg).
  eapply triple_bind; [by apply (complete_message c1 blocks1 [])|].
  intros c2 P2 (blocks2 & Hres2 & Hsep2 & Hsock2 & Hs32 & Hmax2 & Hnext). rewrite (right_id_L [] (++)) in Hsep2.
  assert (sent_since w w1 = text) as Hsent.
  { unfold sent_since. rewrite Hcalls, drop_app_length. simpl. by rewrite (right_id_L [] (++)). }
  rewrite Hka in Hnext. cbn [forallb]. destruct (m_keep_alive m) eqn:Hmk; cbn [andb].
  - eapply triple_bind; [apply (IH c2 w1 blocks2); [done|done|by rewrite Hmax2, Hmax|by destruct ms; [|apply Hper]]|].
    intros [[c3 w3] sent] P3 (-> & Hblocks & Hsock3 & Hst). apply triple_ret. rewrite Hsent, Hs32, Hs3.
    split_and!; [done|done|congruence|done].
  - destruct ms as [|m' ms]; [|destruct Hper as [Hper _]; congruence]. apply Forall2_nil_inv_r in Hrs as ->. cbn [session].
    eapply (triple_bind _ _ _ (λ x P', x = (c2, w1, []) ∧ P' = P2)); [by apply triple_ret|].
    intros ? ? [-> ->]. apply triple_ret. rewrite Hsent. split_and!; [done|by exists blocks2|congruence|done].
Qed.

(** ** A concrete session *)

(** A connection that was just accepted, and the memory that then is. *)
Definition accepted_conn {L : Llhttp} (max : Z) : http_conn := accepted 1 0 7 max 0.
Definition accepted_mem : mem buffer := Mem 2 ({[1 := Buffer CONN_SIZE []]} ∪ {[0 := Buffer DEFAULT_RECV_BUF_SIZE []]}).

Lemma accepted_ready {L : Llhttp} {LL : LlhttpLaws L} self buf sock max now : (0 < max ≤ MAX_SAFE_BODY)%Z →
  ready (accepted self buf sock max now) (accepted_pieces self buf).
Proof. intros Hmax. split_and!; [by apply accepted_res|done|done|apply llhttp_init_phase]. Qed.

Lemma accepted_mem_sep : sep (accepted_pieces 1 0) (mem_cells accepted_mem).
Proof.
  apply sep_empty. exists {[0 := Buffer DEFAULT_RECV_BUF_SIZE []]}. split_and!; [done|by apply map_disjoint_singleton_l|].
  apply (sep_perm [∅; {[0 := Buffer DEFAULT_RECV_BUF_SIZE []]}]); [constructor|]. apply sep_empty, sep_single.
Qed.

(** What [small_llhttp] makes of the bytes it is given. *)
Definition small_put (data : bytes) : http_message :=
  HttpMessage (cs "PUT") (cs "/bucket/key") [(cs "Host", cs "example"); (cs "Content-Type", cs "text/plain")] true (take 100 data).

Lemma small_arrives data : data ≠ [] → length data ≤ 100 → arrives (LL := small_laws) (0%Z, data) (small_put data).
Proof.
  intros Hne Hlen. split_and!; [|done|unfold DEFAULT_RECV_BUF_SIZE; simpl; lia].
  intros s Hs. assert (s = Idle) as -> by exact Hs. exists id, (Z.of_nat (length (take 100 data))), [take 100 data].
  split_and!; [lia|simpl; by rewrite (right_id_L [] (++))|done].
Qed.

Lemma small_ok data : message_ok 100 (small_put data).
Proof.
  unfold message_ok. cbn [m_method m_uri m_headers m_body small_put]. split_and!.
  - by apply (bool_decide_unpack _).
  - unfold HTTP_METHOD_MAX. simpl. lia.
  - by apply (bool_decide_unpack _).
  - unfold HTTP_MAX_URI. simpl. lia.
  - unfold HTTP_MAX_HEADERS. simpl. lia.
  - apply Forall_cons. split; [|apply Forall_singleton];
      (split_and!; [by apply (bool_decide_unpack _)..|unfold S3_MAX_HEADER_LENGTH; simpl; lia|unfold S3_MAX_HEADER_LENGTH; simpl; lia]).
  - rewrite length_take. lia.
Qed.

Lemma http_session_witness :
  ∃ c w sent h', session (O := no_oom) [(0%Z, cs "abc"); (0%Z, cs "defg")] (accepted_conn 100) world_zero accepted_mem = Some ((c, w, sent), h') ∧
    sent = replicate 2 (cs "HTTP/1.1 200 OK" ++ CRLF ++ [NUL] ++ cs "Content-Type: application/xml" ++ CRLF ++ cs "ETag: " ++ DQ ++
      cs "d41d8cd98f00b204e9800998ecf8427e" ++ DQ ++ CRLF ++ cs "Connection: keep-alive" ++ CRLF ++ CRLF) ∧ hc_state c = CONN_READING.
Proof.
  destruct (http_session (LL := small_laws) (O := no_oom) [(0%Z, cs "abc"); (0%Z, cs "defg")] [small_put (cs "abc"); small_put (cs "defg")]
    (accepted_conn 100) world_zero (accepted_pieces 1 0) (mem_cells accepted_mem))
    with (h := accepted_mem) (F := ∅ : gmap nat buffer)
    as ([[c w] sent] & h' & P & Hr & _ & _ & _ & -> & _ & _ & Hst).
  - done.
  - apply accepted_ready. unfold MAX_SAFE_BODY. lia.
  - apply accepted_mem_sep.
  - constructor; [by apply small_arrives; simpl; [|lia]|]. constructor; [by apply small_arrives; simpl; [|lia]|constructor].
  - constructor; [apply small_ok|]. constructor; [apply small_ok|constructor].
  - by split.
  - apply mem_wf_bool. by vm_compute.
  - by rewrite (right_id_L ∅ (∪)).
  - apply map_disjoint_empty_r.
  - eexists c, w, _, h'. split; [exact Hr|]. split; [by vm_compute|]. exact Hst.
Defined.
