(* ===== verification/HttpClients.v ===== *)
(** * Many clients of the HTTP server ([src/access/http_server.c], [http_server_poll])

    The polled server as its clients see it.  The specification knows of a client only its
    socket, what its requests have left in the S3 request, and which answer is on the way to
    it; a poll completes writes, accepts, and answers the requests that have arrived.  The
    code, with its connections, parsers and buffers in an explicit memory, refines it.

    The socket layer may read the buffers of a write at any time from the write to its
    callback, and they are static: what they hold is looked at after every poll for as long as
    the write is pending.  A poll that answers nobody does not touch them. *)
From S2P Require Import Prelude Memory Triples HttpText AccessRoutes HttpResponse HttpParser HttpServer HttpSession.
From stdpp Require Import options.

#[local] Set Default Proof Using "Type*".

(** ** The specification *)

(** An answer is on the way (and whether it stays after it); between two requests; to be
    closed. *)
Inductive phase := Busy (keep : bool) (text : bytes) | Waiting | Leaving.
Record client := Client { cl_sock : nat; cl_s3 : s3_request; cl_phase : phase }.

Definition complete_client (completed : nat → bool) (k : client) : client :=
  match cl_phase k with
  | Busy keep _ => if completed (cl_sock k) then Client (cl_sock k) (cl_s3 k) (if keep then Waiting else Leaving) else k
  | _ => k
  end.

Fixpoint accept_clients (max : Z) (waiting : list (nat * Z)) (ks : list client) : list client :=
  match waiting with
  | [] => ks
  | (sock, _) :: waiting =>
      accept_clients max waiting
        (if decide (max ≤ Z.of_nat (length ks))%Z then ks else ks ++ [Client sock s3_request_zero Waiting])
  end.

(** The clients that stay and the answers, in the order of the connections; [req] is the
    request that has arrived from a socket. A client that waits and sends nothing is
    dropped. *)
Fixpoint serve_clients (req : nat → option http_message) (ks : list client) : list client * list (nat * bytes) :=
  match ks with
  | [] => ([], [])
  | k :: ks =>
      let '(ks', out) := serve_clients req ks in
      match cl_phase k, req (cl_sock k) with
      | Busy _ _, _ => (k :: ks', out)
      | Waiting, Some m =>
          let '(s3, text) := answer (cl_s3 k) m in
          (Client (cl_sock k) s3 (Busy (m_keep_alive m) text) :: ks', (cl_sock k, text) :: out)
      | _, _ => (ks', out)
      end
  end.

Definition poll_clients (max : Z) (e : poll_env) (req : nat → option http_message) (ks : list client)
    : list client * list (nat * bytes) :=
  serve_clients req (accept_clients max (pe_waiting e) (complete_client (pe_completed e) <$> ks)).

(** The clients and the answers of each poll. *)
Fixpoint run_clients (max : Z) (ps : list (poll_env * (nat → option http_message))) (ks : list client)
    : list (list client * list (nat * bytes)) :=
  match ps with
  | [] => []
  | (e, req) :: ps => let '(ks, out) := poll_clients max e req ks in (ks, out) :: run_clients max ps ks
  end.

(** Only one answer is on the way at a time: a poll that answers leaves no other pending. *)
Definition busy (k : client) : bool := match cl_phase k with Busy _ _ => true | _ => false end.
Definition alone (step : list client * list (nat * bytes)) : Prop := step.2 ≠ [] → length (filter busy step.1) = 1.

(** ** What the server writes *)

(** The writes among the calls, with the bytes that their buffers hold. *)
Definition written (s : statics) (calls : list sock_call) : list (nat * bytes) :=
  omap (λ call, match call with Writev sock iov => Some (sock, gather s iov) | _ => None end) calls.

(** The writes since [w], and the newest write of all, with what their buffers hold now. *)
Definition writes_since (w w' : world) : list (nat * bytes) := written (w_statics w') (drop (length (w_calls w)) (w_calls w')).
Definition newest_write (w : world) : option (nat * bytes) := last (written (w_statics w) (w_calls w)).

Section running.
Context {L : Llhttp} {O : AllocOracle}.

(** Polls; after each, what it wrote and the newest write. *)
Fixpoint run_watched (es : list poll_env) (s : http_server) (w : world)
    : M buffer (http_server * world * list (list (nat * bytes) * option (nat * bytes))) :=
  match es with
  | [] => mret (s, w, [])
  | e :: es =>
      '(s, w1) ← http_server_poll e s w;
      '(s, w2, seen) ← run_watched es s w1;
      mret (s, w2, (writes_since w w1, newest_write w1) :: seen)
  end.
End running.

Lemma written_app s calls calls' : written s (calls ++ calls') = written s calls ++ written s calls'.
Proof. apply omap_app. Qed.

Lemma writes_since_calls w w' calls : w_calls w' = w_calls w ++ calls → writes_since w w' = written (w_statics w') calls.
Proof. intros H. unfold writes_since. by rewrite H, drop_app_length. Qed.

(** The writes of a poll: to the clients to whom an answer was due, in order, and the buffers of the
    last hold the right one. *)
Definition answered (out written : list (nat * bytes)) : Prop := written.*1 = out.*1 ∧ last written = last out.

(** Every client to whom an answer is on the way is the one that was written to last, and the
    buffers of that write hold its answer. *)
Definition pending_right (ks : list client) (newest : option (nat * bytes)) : Prop :=
  ∀ k keep text, k ∈ ks → cl_phase k = Busy keep text → newest = Some (cl_sock k, text).

(** A client that is served is busy with its answer. *)
Lemma serve_clients_busy req ks sock text : (sock, text) ∈ (serve_clients req ks).2 →
  ∃ k keep, k ∈ (serve_clients req ks).1 ∧ cl_sock k = sock ∧ cl_phase k = Busy keep text.
Proof.
  induction ks as [|k ks IH]; [by simpl; intros []%elem_of_nil|]. cbn [serve_clients]. destruct (serve_clients req ks) as [ks' out].
  cbn [fst snd] in IH.
  assert ((sock, text) ∈ out → ∃ k0 keep, k0 ∈ k :: ks' ∧ cl_sock k0 = sock ∧ cl_phase k0 = Busy keep text) as IH'.
  { intros (k0 & keep & ? & ?)%IH. exists k0, keep. split; [by right|done]. }
  destruct (cl_phase k); [exact IH'|destruct (req (cl_sock k)) as [m|]; [|exact IH]|exact IH].
  destruct (answer (cl_s3 k) m) as [s3 t]. intros [[= -> ->]|Hin]%elem_of_cons.
  - eexists _, (m_keep_alive m). split; [by left|done].
  - destruct (IH Hin) as (k0 & keep & ? & ?). exists k0, keep. split; [by right|done].
Qed.

(** When nobody is served, those that are busy were so before. *)
Lemma serve_clients_idle req ks k : (serve_clients req ks).2 = [] → k ∈ (serve_clients req ks).1 → k ∈ ks ∧ busy k = true.
Proof.
  induction ks as [|k0 ks IH]; [by simpl; intros _ []%elem_of_nil|]. unfold busy in *. cbn [serve_clients]. destruct (serve_clients req ks) as [ks' out]. cbn [fst snd] in IH.
  destruct (cl_phase k0) eqn:Hk0; [|destruct (req (cl_sock k0)) as [m|]; [by destruct (answer _ _)|]|]; intros Hout Hin.
  - apply elem_of_cons in Hin as [->|Hin]; [split; [by left|by rewrite Hk0]|]. destruct (IH Hout Hin). split; [by right|done].
  - destruct (IH Hout Hin). split; [by right|done].
  - destruct (IH Hout Hin). split; [by right|done].
Qed.

Lemma accept_clients_in max waiting ks k : k ∈ accept_clients max waiting ks → k ∈ ks ∨ cl_phase k = Waiting.
Proof.
  revert ks. induction waiting as [|[sock now] waiting IH]; intros ks; cbn [accept_clients]; [by left|].
  intros [Hin|]%IH; [|by right]. case_decide; [by left|]. apply elem_of_app in Hin as [|Hin]; [by left|].
  apply list_elem_of_singleton in Hin as ->. by right.
Qed.

(** A poll keeps the pending answers as they are when it answers nobody, or only one client
    when no other answer is pending. *)
Lemma poll_pending max e req ks newest newest' :
  let '(ks', out) := poll_clients max e req ks in
  pending_right ks newest → alone (ks', out) → (out = [] → newest' = newest) → (out ≠ [] → newest' = last out) → pending_right ks' newest'.
Proof.
  destruct (poll_clients max e req ks) as [ks' out] eqn:Hpoll. intros Hold Halone Hnil Hcons k keep text Hk Hbusy.
  unfold poll_clients in Hpoll. set (ks1 := accept_clients _ _ _) in Hpoll. destruct out as [|o out].
  - rewrite (Hnil eq_refl). pose proof (serve_clients_idle req ks1 k) as Hidle. rewrite Hpoll in Hidle.
    destruct (Hidle eq_refl Hk) as [Hin _]. apply accept_clients_in in Hin as [Hin|]; [|congruence].
    apply list_elem_of_fmap in Hin as (k0 & -> & Hin). unfold complete_client in Hbusy |- *.
    destruct (cl_phase k0) as [keep0 text0| |] eqn:Hk0; [|congruence..].
    destruct (pe_completed e (cl_sock k0)); [by destruct keep0|]. by eapply Hold.
  - rewrite Hcons by done. destruct (last (o :: out)) as [[sock t]|] eqn:Hlast; [|by apply last_None in Hlast].
    pose proof (serve_clients_busy req ks1 sock t) as Hserved. rewrite Hpoll in Hserved.
    destruct Hserved as (k1 & keep1 & Hk1 & <- & Hbusy1); [by apply last_Some_elem_of|].
    specialize (Halone ltac:(done)). cbn [fst] in Halone.
    destruct (filter busy ks') as [|k2 [|]] eqn:Hf; [done| |done].
    assert (∀ k0 keep0 text0, k0 ∈ ks' → cl_phase k0 = Busy keep0 text0 → k0 = k2) as Hone.
    { intros k0 keep0 text0 H0 H1. apply list_elem_of_singleton. rewrite <-Hf. apply list_elem_of_filter.
      split; [unfold busy; by rewrite H1|done]. }
    assert (k = k1) as -> by (by rewrite (Hone _ _ _ Hk Hbusy), (Hone _ _ _ Hk1 Hbusy1)).
    rewrite Hbusy in Hbusy1. by injection Hbusy1 as <- <-.
Qed.

Lemma answered_one out written : length out ≤ 1 → answered out written → written = out.
Proof.
  intros Hlen [Hfst Hlast]. destruct out as [|x [|]]; simpl in *; [by destruct written|..|lia].
  destruct written as [|y [|]]; [done| |done]. simpl in Hlast. congruence.
Qed.

Lemma answered_cons x out sent : answered out sent → answered (x :: out) (x :: sent).
Proof.
  intros [Hfst Hlast]. split; [by rewrite !fmap_cons, Hfst|]. rewrite !last_cons, Hlast. done.
Qed.

Lemma answered_more sock text text' out sent : out ≠ [] → answered out sent →
  answered ((sock, text) :: out) ((sock, text') :: sent).
Proof.
  intros Hne [Hfst Hlast]. split; [by rewrite !fmap_cons, Hfst|]. rewrite !last_cons, Hlast.
  destruct (last out) eqn:Hl; [done|]. by apply last_None in Hl.
Qed.

(** ** The refinement *)

Section refinement.
Context {L : Llhttp} {LL : LlhttpLaws L} {O : AllocOracle}.
Hypothesis all_ok : ∀ n, alloc_ok n = true.
Implicit Types (c : http_conn) (k : client) (w : world) (P : gmap nat buffer) (ms rest : list (gmap nat buffer)).

(** The connection of a client, when a body may have [mb] bytes, and the blocks it owns. *)
Definition client_rel (mb : Z) k c ms : Prop :=
  conn_res c ms ∧ hc_sock c = cl_sock k ∧ hr_s3 (hp_request (hc_parser_ctx c)) = cl_s3 k ∧
  hp_max_body_size (hc_parser_ctx c) = mb ∧
  match cl_phase k with
  | Busy keep _ => hc_state c = CONN_WRITING ∧ is_Some (hc_write_req c) ∧ is_Some (hc_recv_buf c) ∧ hc_recv_len c = 0%Z ∧
      hr_keep_alive (hp_request (hc_parser_ctx c)) = keep
  | Waiting => ready c ms
  | Leaving => hc_state c = CONN_CLOSING
  end.

Fixpoint clients_rel (mb : Z) (ks : list client) (cs : list http_conn) ms : Prop :=
  match ks, cs with
  | [], [] => ms = []
  | k :: ks, c :: cs => ∃ m1 m2, ms = m1 ++ m2 ∧ client_rel mb k c m1 ∧ clients_rel mb ks cs m2
  | _, _ => False
  end.

Lemma clients_rel_length mb ks cs ms : clients_rel mb ks cs ms → length ks = length cs.
Proof using.
  revert cs ms. induction ks as [|k ks IH]; intros [|c cs] ms; simpl; [done..|].
  intros (m1 & m2 & _ & _ & H%IH). by rewrite H.
Qed.

Lemma clients_rel_app mb ks1 ks2 cs1 cs2 m1 m2 :
  clients_rel mb ks1 cs1 m1 → clients_rel mb ks2 cs2 m2 → clients_rel mb (ks1 ++ ks2) (cs1 ++ cs2) (m1 ++ m2).
Proof using.
  revert cs1 m1. induction ks1 as [|k ks1 IH]; intros [|c cs1] m1; simpl; [by intros ->|done..|].
  intros (a & b & -> & Hc & Hcs) H2. exists a, (b ++ m2). rewrite (assoc_L (++)). eauto.
Qed.

Lemma clients_conns mb ks cs ms : clients_rel mb ks cs ms → conns_res cs ms.
Proof using.
  revert cs ms. induction ks as [|k ks IH]; intros [|c cs] ms; simpl; [done..|].
  intros (m1 & m2 & -> & [Hc _] & H%IH). eauto.
Qed.

(** A write that completes. *)
Lemma complete_client_triple (completed : nat → bool) mb k c ms rest P :
  client_rel mb k c ms → sep (ms ++ rest) P →
  triple P (match hc_write_req c with Some _ => if completed (hc_sock c) then on_write_complete c else mret c | None => mret c end)
    (λ c' P', ∃ ms', client_rel mb (complete_client completed k) c' ms' ∧ sep (ms' ++ rest) P').
Proof using Type* all_ok.
  intros Hrel Hsep. pose proof Hrel as (Hres & Hsock & Hs3 & Hmb & Hphase). unfold complete_client.
  assert (hc_write_req c = None → cl_phase k ∈ [Waiting; Leaving]) as Hnone.
  { intros Hn. destruct (cl_phase k); [|set_solver..]. destruct Hphase as (_ & [? Hw] & _). congruence. }
  destruct (hc_write_req c) as [r|] eqn:Hr.
  - assert (hc_state c = CONN_WRITING) as Hst by (destruct Hres as (W & ms' & _ & _ & _ & Hq); rewrite Hr in Hq; by destruct Hq).
    destruct (cl_phase k) as [keep text| |] eqn:Hk.
    2: { destruct Hphase as (_ & Hrd & _). congruence. }
    2: congruence.
    destruct Hphase as (_ & Hwr & Hrecv & Hlen & Hka). rewrite Hsock. destruct (completed (cl_sock k)).
    + eapply triple_mono; [apply (complete_message c ms rest P); try done; by eexists|].
      intros c' P' (ms' & Hres' & Hs & Hsock' & Hs3' & Hmb' & Hnext). exists ms'. split; [|done]. rewrite Hka in Hnext.
      split_and!; simpl; [done|congruence..|]. by destruct keep.
    + apply triple_ret. exists ms. split; [|done]. unfold client_rel. rewrite Hk. by split_and!.
  - apply triple_ret. exists ms. split; [|done]. specialize (Hnone eq_refl). rewrite !elem_of_cons, elem_of_nil in Hnone.
    destruct (cl_phase k) eqn:Hk; [naive_solver|unfold client_rel; rewrite Hk; by split_and!..].
Qed.

Lemma complete_clients_triple completed mb ks : ∀ cs ms rest P, clients_rel mb ks cs ms → sep (ms ++ rest) P →
  triple P (complete_writes completed cs) (λ cs' P', ∃ ms', clients_rel mb (complete_client completed <$> ks) cs' ms' ∧
    sep (ms' ++ rest) P').
Proof using Type* all_ok.
  induction ks as [|k ks IH]; intros [|c cs] ms rest P Hrel Hsep; simpl in Hrel; try done.
  - apply triple_ret. subst ms. by exists [].
  - destruct Hrel as (m1 & m2 & -> & Hc & Hcs). rewrite <-(assoc_L (++)) in Hsep. cbn [complete_writes].
    eapply triple_bind; [by eapply complete_client_triple|]. intros c' P' (m1' & Hc' & Hs). cbv beta in Hs.
    eapply triple_bind; [apply (IH cs m2 (m1' ++ rest)); [done|sep_reorder Hs]|].
    intros cs' P'' (m2' & Hcs' & Hs'). apply triple_ret. exists (m1' ++ m2'). split; [by exists m1', m2'|sep_reorder Hs'].
Qed.

(** The server as its clients see it. *)
Record serves (s : http_server) (ks : list client) ms : Prop := Serves {
  sv_conns : clients_rel (hs_max_request_body s) ks (hs_conn_list s) ms;
  sv_server : server_ok s ms;
  sv_running : hs_running s = true
}.

Lemma accept_clients_triple waiting : ∀ s w ks ms rest P, serves s ks ms → sep (ms ++ rest) P →
  triple P (accept_all waiting s w) (λ '(s', w') P', ∃ ms' calls, serves s' (accept_clients (hs_max_connections s) waiting ks) ms' ∧
    sep (ms' ++ rest) P' ∧ same_server s s' ∧ w_statics w' = w_statics w ∧ w_calls w' = w_calls w ++ calls ∧
    ∀ st, written st calls = []).
Proof.
  induction waiting as [|[sock now] waiting IH]; intros s w ks ms rest P Hsv Hsep; cbn [accept_all accept_clients].
  { apply triple_ret. exists ms, []. split_and!; [done..|by destruct s|done|by rewrite (right_id_L [] (++))|done]. }
  pose proof Hsv as [Hconns Hok Hrun]. pose proof (clients_rel_length _ _ _ _ Hconns) as Hlen. pose proof Hok as [Hres Hcount Hroom Hmax Hbody].
  rewrite Hlen, <-Hcount. eapply triple_bind; [by eapply accept_cases|].
  intros [s' w'] P' [(Hs & -> & -> & [Hfull|[n Hn]])|(Hlt & -> & self & buf & Hs & ->)]; [|by rewrite all_ok in Hn|].
  - rewrite !decide_True by done. eapply triple_mono; [by eapply IH|].
    intros [s' w'] P'' (ms' & calls & ? & ? & ? & ? & Hcalls & Hw). exists ms', (SockClose sock :: calls). simpl in *.
    rewrite <-(assoc_L (++)) in Hcalls. by split_and!.
  - rewrite decide_False by lia. set (s1 := set_conns _ _ s). set (c := accepted _ _ _ _ _) in *.
    eapply triple_mono; [apply (IH s1 _ (ks ++ [Client sock s3_request_zero Waiting]) (ms ++ accepted_pieces self buf) rest); [|sep_reorder Hs]|].
    + split; [|split; simpl; [|rewrite length_app; simpl; lia|lia|done|done]|done].
      * simpl. apply clients_rel_app; [done|]. exists (accepted_pieces self buf), [].
        split_and!; [by rewrite (right_id_L [] (++))|split_and!; [by apply accepted_res|done..|by apply accepted_ready]|done].
      * apply conns_res_app; [done|]. exists (accepted_pieces self buf), []. split_and!; [by rewrite app_nil_r|by apply accepted_res|done].
    + intros [s' w'] P'' (ms' & calls & ? & ? & Hsame & ? & Hcalls & Hw). exists ms', (GroupAdd sock :: calls). simpl in *.
      rewrite <-(assoc_L (++)) in Hcalls. by split_and!.
Qed.

(** What arrives in a poll: from every socket nothing, or a whole request that fits; and writes
    do not complete before the poll is over. *)
Definition poll_ok (mb : Z) (e : poll_env) (req : nat → option http_message) : Prop := ∀ sock,
  pe_inline e sock = false ∧
  match req sock with
  | Some m => arrives (0%Z, pe_incoming e sock) m ∧ message_ok mb m
  | None => pe_incoming e sock = []
  end.

(** What the loop over the connections does for the clients behind them. *)
Definition served mb (req : nat → option http_message) ks cs (n : Z) w rest
    (r : list http_conn * Z * world) (P' : gmap nat buffer) : Prop :=
  let '(cs', n', w') := r in let '(ks', out) := serve_clients req ks in
  ∃ ms' calls, clients_rel mb ks' cs' ms' ∧ sep (ms' ++ rest) P' ∧ stayed cs n cs' n' ∧
    Forall (λ c, hc_state c = CONN_WRITING) cs' ∧ w_calls w' = w_calls w ++ calls ∧
    (out = [] → w_statics w' = w_statics w) ∧ answered out (written (w_statics w') calls).

(** A connection that is closed. *)
Lemma serve_close mb req k ks c cs aborts e n w m m2 rest P :
  (∀ n w P rest, sep (m2 ++ rest) P → (Z.of_nat (length cs) ≤ n < 2 ^ 32)%Z →
     triple P (poll_conns e cs n w) (served mb req ks cs n w rest)) →
  serve_clients req (k :: ks) = serve_clients req ks →
  conn_res c m → sep (m ++ m2 ++ rest) P → (Z.of_nat (length (c :: cs)) ≤ n < 2 ^ 32)%Z →
  triple P (w ← http_conn_close aborts c w; poll_conns e cs (u32 (n - 1)) w) (served mb req (k :: ks) (c :: cs) n w rest).
Proof using Type*.
  intros IH Hk Hc Hs Hn. simpl length in Hn. eapply triple_bind; [by eapply close_triple|]. intros w' P' [Hs' ->]. cbv beta.
  assert (u32 (n - 1) = n - 1)%Z as -> by (apply wrap_small; unfold fits; lia).
  eapply triple_mono; [apply IH; [exact Hs'|lia]|]. intros [[cs' n'] w2] P2. unfold served. rewrite Hk.
  destruct (serve_clients req ks) as [ks' out]. intros (ms' & calls & Hrel & Hsep & [Hle Hn'] & Hw & Hcalls & Hst & Hans).
  exists ms', ([GroupRemove (hc_sock c); SockClose (hc_sock c)] ++ calls). simpl in Hcalls. rewrite <-!(assoc_L (++)) in Hcalls.
  split_and!; try done. split; simpl; lia.
Qed.

Lemma serve_clients_triple mb e req ks : poll_ok mb e req → ∀ cs n w ms rest P, clients_rel mb ks cs ms → sep (ms ++ rest) P →
  (Z.of_nat (length cs) ≤ n < 2 ^ 32)%Z → triple P (poll_conns e cs n w) (served mb req ks cs n w rest).
Proof using Type*.
  intros He. induction ks as [|k ks IH]; intros [|c cs] n w ms rest P Hrel Hsep Hn; simpl in Hrel; try done; cbn [poll_conns].
  { apply triple_ret. exists ms, []. split_and!; [done|done|split; simpl; lia|done|by rewrite (right_id_L [] (++))|done|done]. }
  destruct Hrel as (m1 & m2 & -> & (Hres & Hsock & Hs3 & Hmb & Hphase) & Hcs). rewrite <-(assoc_L (++)) in Hsep.
  assert (∀ n w P rest, sep (m2 ++ rest) P → (Z.of_nat (length cs) ≤ n < 2 ^ 32)%Z →
     triple P (poll_conns e cs n w) (served mb req ks cs n w rest)) as IH' by (intros; by eapply IH).
  destruct (He (cl_sock k)) as [Hinline Hreq].
  destruct (cl_phase k) as [keep text| |] eqn:Hk.
  - destruct Hphase as (Hst & Hwr & Hrecv & Hlen & Hka). rewrite Hst. rewrite decide_False by (by intros [|]).
    eapply (triple_bind _ _ _ (λ x P', x = (c, w) ∧ P' = P)); [by apply triple_ret|]. intros ? ? [-> ->]. cbv beta iota.
    rewrite decide_False by congruence. simpl length in Hn.
    eapply triple_bind; [apply (IH' n w P (m1 ++ rest)); [sep_reorder Hsep|lia]|]. intros [[cs' n'] w'] P'. unfold served. cbn [serve_clients].
    destruct (serve_clients req ks) as [ks' out]. intros (ms' & calls & Hrel & Hs' & [Hle Hn'] & Hall & Hcalls & Hstat & Hans).
    rewrite Hk. apply triple_ret. exists (m1 ++ ms'), calls.
    split_and!; [|sep_reorder Hs'|split; simpl; lia|by constructor|done..].
    exists m1, ms'. split_and!; [done| |done]. unfold client_rel. rewrite Hk. by split_and!.
  - pose proof Hphase as (_ & Hrd & _ & _). rewrite decide_True by (by left). rewrite Hsock, Hinline.
    destruct (req (cl_sock k)) as [m|] eqn:Hm.
    + destruct Hreq as [(Hspells & Hne & Hlen) Hok].
      eapply triple_bind; [apply (readable_message all_ok (pe_now e (cl_sock k)) c w m _ m1 (m2 ++ rest)); try done; by rewrite Hmb|].
      intros [c' w1] P1 [(m1' & Hres' & Hs1) Hans]. unfold answering in Hans. rewrite Hs3, Hsock, Hmb in Hans. cbv beta iota.
      destruct (answer (cl_s3 k) m) as [s3 text] eqn:Ha.
      destruct Hans as (Hst & Hwr & Hrecv & Hlen' & Hsock' & Hs3' & Hka & Hmax & iov & Hcalls & Hg).
      rewrite decide_False by congruence. simpl length in Hn.
      eapply triple_bind; [apply (IH' n w1 P1 (m1' ++ rest)); [sep_reorder Hs1|lia]|]. intros [[cs' n'] w'] P'. unfold served. cbn [serve_clients].
      destruct (serve_clients req ks) as [ks' out]. intros (ms' & calls & Hrel & Hs' & [Hle Hn'] & Hall & Hcalls' & Hstat & Hans).
      rewrite Hk, Hm, Ha. apply triple_ret. exists (m1' ++ ms'), (Writev (cl_sock k) iov :: calls).
      split_and!; [|sep_reorder Hs'|split; simpl; lia|by constructor|by rewrite Hcalls', Hcalls, <-(assoc_L (++))|done|].
      * exists m1', ms'. by split_and!.
      * simpl. destruct out as [|o out]; [|by apply answered_more].
        rewrite Hstat by done. rewrite Hg. by apply answered_cons; rewrite <-Hstat.
    + rewrite Hreq.
      eapply triple_bind; [by apply (readable_triple _ [] false c w m1 (m2 ++ rest)); [|left|]|].
      intros [c' w'] P1 (m1' & leak & Hres' & Hs1 & Hleak & _ & Hsock' & Hclosed). destruct (Hclosed eq_refl) as [Hcl ->].
      destruct Hleak as [[->|[j Hj]] _]; [|by rewrite all_ok in Hj]. cbv beta iota. rewrite decide_True by done.
      change (served mb req (k :: ks) (c :: cs) n w rest) with (served mb req (k :: ks) (c' :: cs) n w rest).
      eapply serve_close; try done. simpl. rewrite Hk, Hm. by destruct (serve_clients req ks).
  - rewrite decide_False by (by rewrite Hphase; intros []).
    eapply (triple_bind _ _ _ (λ x P', x = (c, w) ∧ P' = P)); [by apply triple_ret|]. intros ? ? [-> ->]. cbv beta iota.
    rewrite decide_True by done. eapply serve_close; try done. simpl. rewrite Hk. by destruct (serve_clients req ks).
Qed.

(** What a poll writes, from the calls it makes. *)
Lemma watched_writes w w' out :
  (∃ calls, w_calls w' = w_calls w ++ calls ∧ answered out (written (w_statics w') calls)) →
  (out = [] → w_statics w' = w_statics w) →
  answered out (writes_since w w') ∧ (out = [] → newest_write w' = newest_write w) ∧ (out ≠ [] → newest_write w' = last out).
Proof using.
  intros (calls & Hcalls & Hans) Hst. rewrite (writes_since_calls _ _ _ Hcalls). split; [done|].
  unfold newest_write. rewrite Hcalls, written_app. destruct Hans as [Hfst Hlast]. split; intros Hout.
  - subst out. apply fmap_nil_inv in Hfst. by rewrite Hfst, Hst, (right_id_L [] (++)).
  - rewrite <-Hlast, last_app. destruct (last (written (w_statics w') calls)) eqn:Hl; [done|]. exfalso. by apply Hout, last_None.
Qed.

(** No connection is left that could time out. *)
Lemma no_timeouts aborts s now cs n w P : Forall (λ c, hc_state c = CONN_WRITING) cs →
  triple P (check_timeouts aborts s now cs n w) (λ r P', r = (cs, n, w) ∧ P' = P).
Proof using.
  induction 1 as [|c cs Hst Hall IH]; cbn [check_timeouts]; [by apply triple_ret|].
  unfold timed_out. rewrite Hst, !bool_decide_eq_false_2 by (by intros []). cbn [orb].
  eapply triple_bind; [exact IH|]. intros ? ? [-> ->]. by apply triple_ret.
Qed.

(** One poll. *)
Lemma poll_clients_triple e req s w ks ms rest P : serves s ks ms → sep (ms ++ rest) P → poll_ok (hs_max_request_body s) e req →
  triple P (http_server_poll e s w) (λ '(s', w') P', let '(ks', out) := poll_clients (hs_max_connections s) e req ks in
    ∃ ms', serves s' ks' ms' ∧ sep (ms' ++ rest) P' ∧ same_server s s' ∧ answered out (writes_since w w') ∧
      (out = [] → newest_write w' = newest_write w) ∧ (out ≠ [] → newest_write w' = last out)).
Proof using Type*.
  intros [Hconns Hok Hrun] Hsep He. unfold http_server_poll. rewrite Hrun. cbn [negb].
  pose proof Hok as [Hres Hcount Hroom Hmax Hbody]. pose proof (clients_rel_length _ _ _ _ Hconns) as Hlen.
  eapply triple_bind; [by apply (complete_clients_triple (pe_completed e) (hs_max_request_body s) ks _ ms rest)|].
  intros cs1 P1 (ms1 & Hrel1 & Hs1). pose proof (clients_rel_length _ _ _ _ Hrel1) as Hlen1. rewrite length_fmap in Hlen1.
  eapply triple_bind; [eapply (accept_clients_triple (pe_waiting e) _ _ (complete_client (pe_completed e) <$> ks) ms1); [|exact Hs1]|].
  { split; simpl; [done| |done]. split; simpl; [by eapply clients_conns|by rewrite <-Hlen1, Hlen|done..]. }
  intros [s2 w2] P2 (ms2 & calls2 & [Hrel2 Hok2 Hrun2] & Hs2 & Hsame2 & Hst2 & Hcalls2 & Hwr2). simpl in Hrel2, Hsame2.
  assert (hs_max_request_body s2 = hs_max_request_body s ∧ hs_max_connections s2 = hs_max_connections s) as [Hmb2 Hmc2]
    by (unfold same_server in Hsame2; by rewrite Hsame2). rewrite Hmb2 in Hrel2.
  pose proof Hok2 as [_ Hcount2 Hroom2 Hmax2 Hbody2].
  eapply triple_bind; [eapply (serve_clients_triple _ e req _ He _ _ w2 ms2 rest); [exact Hrel2|exact Hs2|lia]|].
  intros [[cs3 n3] w3] P3. unfold served, poll_clients. simpl hs_max_connections.
  destruct (serve_clients req _) as [ks' out]. intros (ms3 & calls3 & Hrel3 & Hs3 & [Hle3 Hn3] & Hall3 & Hcalls3 & Hst3 & Hans).
  assert (∀ w', w_statics w' = w_statics w3 → w_calls w' = w_calls w3 →
    answered out (writes_since w w') ∧ (out = [] → newest_write w' = newest_write w) ∧ (out ≠ [] → newest_write w' = last out)) as Hsent.
  { intros w' Hst' Hcalls'. apply watched_writes; [|intros Hout; by rewrite Hst', (Hst3 Hout)]. exists (calls2 ++ calls3).
    rewrite Hcalls', Hcalls3, Hcalls2, <-(assoc_L (++)), written_app, Hwr2, Hst'. by split. }
  assert (serves (set_conns cs3 n3 s2) ks' ms3 ∧ same_server s (set_conns cs3 n3 s2)) as [Hserves Hsame3].
  { split; [|unfold same_server in *; rewrite Hsame2; by destruct s]. split; simpl; [by rewrite Hmb2| |done].
    split; simpl; [by eapply clients_conns|lia|lia|done|done]. }
  case_decide.
  - eapply triple_bind; [by apply no_timeouts|]. intros ? ? [-> ->]. apply triple_ret. exists ms3.
    do 3 (split; [done|]). by apply Hsent.
  - apply triple_ret. exists ms3. do 3 (split; [done|]). by apply Hsent.
Qed.
End refinement.

(** C6. Clients are served as if each had the server for itself. Any number of clients connect,
    send requests and wait, in any interleaving over any number of polls, each request arriving
    whole and the allocator answering: then the server accepts and keeps the connections that
    the specification does, up to its limit, and in every poll it starts exactly one write to each
    client whose request arrived, in order. The bytes are another matter, since the socket layer
    may read them until the write is done and all writes share static buffers: after a poll
    only the buffers of its last write are sure to hold the right answer. When there is never
    more than one answer on the way, then after every poll, for as long as a client's answer is on the
    way, the buffers of its write hold the bytes that the client's own requests call for. *)
Theorem http_clients {L : Llhttp} {LL : LlhttpLaws L} {O : AllocOracle} ps s w ks ms P :
  (∀ n, alloc_ok n = true) → serves s ks ms → sep ms P →
  Forall (λ '(e, req), poll_ok (hs_max_request_body s) e req) ps →
  triple P (run_watched (fst <$> ps) s w) (λ '(s', w', seen) P',
    let steps := run_clients (hs_max_connections s) ps ks in
    Forall2 answered (snd <$> steps) (fst <$> seen) ∧
    (pending_right ks (newest_write w) → Forall alone steps → Forall2 pending_right (fst <$> steps) (snd <$> seen)) ∧
    ∃ ms', serves s' (default ks (last (fst <$> steps))) ms' ∧ sep ms' P').
Proof.
  intros Hall Hsv Hsep Hps. revert s w ks ms P Hsv Hsep Hps.
  induction ps as [|[e req] ps IH]; intros s w ks ms P Hsv Hsep Hps; cbn [run_watched run_clients fmap list_fmap fst].
  { apply triple_ret. split_and!; [done|done|by exists ms]. }
  apply Forall_cons in Hps as [He Hps]. rewrite <-(right_id_L [] (++) ms) in Hsep.
  eapply triple_bind; [by eapply (poll_clients_triple Hall e req)|]. intros [s1 w1] P1.
  pose proof (poll_pending (hs_max_connections s) e req ks (newest_write w) (newest_write w1)) as Hpend.
  destruct (poll_clients _ e req ks) as [ks1 out]. intros (ms1 & Hsv1 & Hs1 & Hsame & Hans & Hnil & Hcons). rewrite (right_id_L [] (++)) in Hs1.
  assert (hs_max_request_body s1 = hs_max_request_body s ∧ hs_max_connections s1 = hs_max_connections s) as [Hmb Hmc]
    by (unfold same_server in Hsame; by rewrite Hsame).
  eapply triple_bind; [apply (IH s1 w1 ks1 ms1); [done..|by rewrite Hmb]|]. intros [[s2 w2] seen] P2. rewrite Hmc.
  cbv zeta. intros (Hwrites & Hright & ms2 & Hsv2 & Hs2). apply triple_ret. cbn [fmap list_fmap fst snd]. split_and!.
  - by constructor.
  - intros Hpr [Halone Halones]%Forall_cons. constructor; [by apply Hpend|]. apply Hright; [by apply Hpend|done].
  - exists ms2. split; [|done]. revert Hsv2. rewrite last_cons. by destruct (last (run_clients (hs_max_connections s) ps ks1).*1).
Qed.

(** ** Two clients *)

(** An llhttp that reads whatever it is given as a request to list the bucket of that name. *)
Definition list_message (data : bytes) : http_message :=
  HttpMessage (cs "GET") (cs "/" ++ cstr (take 20 data) ++ cs "/?list-type=2") [] true [].

Definition listing_llhttp : Llhttp := {|
  llhttp_t := HttpParser.phase;
  llhttp_init := Idle;
  llhttp_reset _ := Idle;
  llhttp_execute ph data :=
    match ph with
    | Idle => drive id (length data) Idle (message (cs "GET") (m_uri (list_message data)) [] true 0 [])
    | _ => HttpParser.Finished (HPE_OTHER 1) None ph
    end
|}.

Lemma list_uri_ok data : c_ok (m_uri (list_message data)) ∧ length (m_uri (list_message data)) ≤ 40.
Proof.
  unfold list_message. cbn [m_uri]. split.
  - rewrite !c_ok_app. split_and!; [by apply (bool_decide_unpack _)|apply cstr_ok|by apply (bool_decide_unpack _)].
  - rewrite !length_app. pose proof (cstr_length (take 20 data)) as H. rewrite length_take in H. simpl. lia.
Qed.

#[local] Program Instance listing_laws : LlhttpLaws listing_llhttp := {| llhttp_phase := id |}.
Next Obligation. done. Qed.
Next Obligation. done. Qed.
Next Obligation.
  intros ph data. destruct ph; [|by constructor..]. apply (drive_ok id id _ _ Idle); [done|done|].
  pose proof (list_uri_ok data) as [? _]. unfold message. simpl. split_and!; (done || lia || by apply (bool_decide_unpack _)).
Qed.

Lemma list_arrives data : data ≠ [] → length data ≤ 100 → arrives (LL := listing_laws) (0%Z, data) (list_message data).
Proof.
  intros Hne Hlen. split_and!; [|done|unfold DEFAULT_RECV_BUF_SIZE; simpl; lia].
  intros s Hs. assert (s = Idle) as -> by exact Hs. exists id, 0%Z, []. by split_and!.
Qed.

Lemma list_message_ok data : message_ok 100 (list_message data).
Proof.
  destruct (list_uri_ok data) as [Hok Hlen]. unfold message_ok, HTTP_METHOD_MAX, HTTP_MAX_URI, HTTP_MAX_HEADERS.
  split_and!; [by apply (bool_decide_unpack _)|simpl; lia|exact Hok|lia|simpl; lia|by constructor|simpl; lia].
Qed.

(** A poll in which the socket [from] has [data], new clients connect, and the writes to the
    sockets [completed] are over. *)
Definition one_request (from : nat) (data : bytes) (completed : list nat) (waiting : list (nat * Z))
    : poll_env * (nat → option http_message) :=
  (PollEnv (λ sock, bool_decide (sock ∈ completed)) waiting (λ sock, if decide (sock = from) then data else []) (λ _, false) false
     (λ _, 5%Z) 10 10,
   λ sock, if decide (sock = from) then Some (list_message data) else None).

Lemma one_request_ok from data completed waiting : data ≠ [] → length data ≤ 100 →
  poll_ok (LL := listing_laws) 100 (one_request from data completed waiting).1 (one_request from data completed waiting).2.
Proof.
  intros Hne Hlen sock. split; [done|]. simpl. case_decide; [|done]. split; [by apply list_arrives|apply list_message_ok].
Qed.

Definition listed (name : string) : bytes :=
  let text := xml_listing (cs name) [] [] 1000 [cs "example1.txt"; cs "example2.txt"] false in
  wire (S3Response 200 XML (Some ResponseBuffer) (length text) []) text true.

Definition empty_server {L : Llhttp} : http_server := HttpServer 0 9 [] 0 2 5000 30000 100 true.

(** What is seen when every poll answers the only client there is. *)
Lemma one_by_one (steps : list (client * bytes)) seen :
  Forall2 answered ((λ '(k, text), [(cl_sock k, text)]) <$> steps) (fst <$> seen) →
  Forall2 pending_right ((λ '(k, _), [k]) <$> steps) (snd <$> seen) →
  Forall (λ '(k, text), cl_phase k = Busy true text) steps →
  seen = (λ '(k, text), ([(cl_sock k, text)], Some (cl_sock k, text))) <$> steps.
Proof.
  revert seen. induction steps as [|[k text] steps IH]; intros [|[w n] seen] Hw Hn Hk; [done|by inversion Hw..|].
  apply Forall2_cons in Hw as [Hw Hws]. apply Forall2_cons in Hn as [Hn Hns]. apply Forall_cons in Hk as [Hk Hks].
  apply answered_one in Hw; [|simpl; lia]. cbn [fmap list_fmap fst snd] in *. rewrite Hw, (Hn k true text (list_elem_of_here _ _) Hk).
  f_equal. by apply IH.
Qed.

Lemma nobody_pending newest : pending_right [] newest.
Proof. by intros k ? ? ?%elem_of_nil. Qed.

(** A client sends two requests, the second when its first answer is there, and is dropped
    when it sends no third; then another client is served. No two answers are pending at once. *)
Definition example_polls : list (poll_env * (nat → option http_message)) :=
  [one_request 7 (cs "photos") [] [(7, 5%Z)]; one_request 7 (cs "backup") [7] []; one_request 8 (cs "logs") [7] [(8, 5%Z)]].

Definition example_client (sock : nat) (name : string) : client :=
  Client sock (answer s3_request_zero (list_message (cs name))).1 (Busy true (listed name)).
Definition example_steps : list (client * bytes) :=
  [(example_client 7 "photos", listed "photos"); (example_client 7 "backup", listed "backup"); (example_client 8 "logs", listed "logs")].

Lemma example_run :
  run_clients (hs_max_connections (empty_server (L := listing_llhttp))) example_polls [] =
    (λ '(k, text), ([k], [(cl_sock k, text)])) <$> example_steps.
Proof. vm_compute. reflexivity. Qed.

Lemma http_clients_witness :
  ∃ s w h', run_watched (L := listing_llhttp) (O := no_oom) (fst <$> example_polls) empty_server world_zero mem_empty
      = Some ((s, w, (λ '(k, text), ([(cl_sock k, text)], Some (cl_sock k, text))) <$> example_steps), h') ∧
    length (hs_conn_list s) = 1.
Proof.
  destruct (http_clients (L := listing_llhttp) (LL := listing_laws) (O := no_oom) example_polls empty_server world_zero [] [] ∅)
    with (h := mem_empty (A := buffer)) (F := ∅ : gmap nat buffer) as ([[s w] seen] & h' & P & Hr & _ & _ & _ & Hpost).
  - done.
  - split; [done| |done]. split; simpl; [done|done|lia|lia|unfold MAX_SAFE_BODY; lia].
  - done.
  - repeat (constructor; [by apply one_request_ok; simpl; [|lia]|]). constructor.
  - apply mem_wf_empty.
  - done.
  - apply map_disjoint_empty_r.
  - cbv zeta in Hpost. rewrite example_run in Hpost. destruct Hpost as (Hwrites & Hright & ms' & [Hrel _ _] & _).
    rewrite <-list_fmap_compose in Hwrites, Hright, Hrel.
    assert (seen = (λ '(k, text), ([(cl_sock k, text)], Some (cl_sock k, text))) <$> example_steps) as Heq.
    { apply one_by_one; [exact Hwrites| |repeat constructor].
      apply Hright; [apply nobody_pending|]. repeat (constructor; [intros _; reflexivity|]). constructor. }
    rewrite Heq in Hr. exists s, w, h'. split; [exact Hr|]. symmetry. apply (clients_rel_length _ _ _ _ Hrel).
Defined.

(** When the second client is answered before the write to the first is done, the buffers of
    the first write hold the second client's listing behind the first one's status line. *)
Lemma overlapping_writes_mix :
  match run_watched (L := listing_llhttp) (O := no_oom)
      (fst <$> [one_request 7 (cs "photos") [] [(7, 5%Z)]; one_request 8 (cs "albums") [] [(8, 5%Z)]]) empty_server world_zero mem_empty with
  | Some ((_, w, _), _) => written (w_statics w) (w_calls w) = [(7, listed "albums"); (8, listed "albums")]
  | None => False
  end.
Proof. by vm_compute. Qed.
