(* ===== verification/StressTest.v ===== *)
(** * The engine's stress test ([src/engine/test/test_main.c])

    A program that drives the engine: it creates objects, sends generated operations one
    after the other, reads back what it wrote, and stops the process with its verdict.  Its
    callbacks are the steps of a process; the engine, which is not in the repository, answers
    each request as it likes: it accepts the request or not, and calls back once, later, when
    it has accepted it.  A block holds what the code keeps in it: a wrapper its fields,
    a buffer its bytes, the context its fields with the contents of the two arrays, whose own
    blocks are only there to be freed. *)
From S2P Require Import Prelude Memory Triples StorageServer EngineConfig EngineBdev EngineMkfs StorageEngine StorageLifecycle.
From stdpp Require Import options.
Local Open Scope Z_scope.

(** ** Tunables and data *)

(** The compile-time tunables, and what the arithmetic on them needs. *)
Class Tunables := {
  STRESS_NUM_OBJECTS : nat;
  STRESS_NUM_OPS : nat;
  STRESS_DATA_SIZE : Z;
  STRESS_MAX_INFLIGHT : Z
}.
Class TunablesOk (T : Tunables) := {
  num_objects_ok : (0 < STRESS_NUM_OBJECTS)%nat;
  counters_ok : Z.of_nat STRESS_NUM_OBJECTS + Z.of_nat STRESS_NUM_OPS < 2 ^ 31;
  data_size_ok : 2 <= STRESS_DATA_SIZE /\ STRESS_DATA_SIZE * 3 < 2 ^ 31;
  max_inflight_ok : 1 <= STRESS_MAX_INFLIGHT
}.
Definition default_tunables : Tunables :=
  {| STRESS_NUM_OBJECTS := 64; STRESS_NUM_OPS := 512; STRESS_DATA_SIZE := 4096; STRESS_MAX_INFLIGHT := 4 |}.

(** The deterministic byte pattern. *)
Definition gen_byte (oid off gen : Z) : byte :=
  let s := u64 (oid * 6364136223846793005 + off * 1442695040888963407 + gen * 0x5bd1e995) in
  let s := Z.lxor s (Z.shiftr s 33) in
  let s := u64 (s * 0xff51afd7ed558ccd) in
  let s := Z.lxor s (Z.shiftr s 33) in
  byte.of_Z (Z.land s 0xff).

(** [deleted] is an [int] that is 0 or 1. *)
Record obj_state := ObjState { os_size : Z; os_generation : Z; os_deleted : bool }.

Inductive op_kind := OP_WRITE | OP_PUNCH | OP_TRUNCATE | OP_DELETE | OP_RECREATE.

Record stress_op := StressOp { op_kind_of : op_kind; op_oid : Z; op_off : Z; op_len : Z }.

(** [w_ctx] is the address of the context, [w_buf] of the buffer. *)
Record stress_cb_wrap := Wrap { w_ctx : nat; w_op : stress_op; w_buf : option nat; w_gen : Z }.

(** [num_ops] is the number of operations in the array. *)
Record stress_ctx := StressCtx {
  t_states_at : nat;
  t_ops_at : nat;
  t_states : list obj_state;
  t_ops : list stress_op;
  t_op_idx : nat;
  t_in_flight : Z;
  t_errors : Z;
  t_ops_done : Z
}.

Record shutdown_ctx := ShutdownCtx { sd_ops : nat; sd_states : nat; sd_ctx : nat; sd_rc : Z }.

Inductive cell :=
  | CWrap (w : stress_cb_wrap)
  | CBuf (data : bytes)
  | CStates
  | COps
  | CStress (ctx : stress_ctx)
  | CShutdown (s : shutdown_ctx).

Inductive stress_cb := CreateCb | OpCb | VerifyCb.

(** What the process waits for once a callback has returned: the engine, with a request, the
    callback and its wrapper; the event that shuts it down; nothing, since it was told to
    stop; or nothing at all, although it was not. *)
Inductive waiting :=
  | InEngine (rq : obj_request) (cb : stress_cb) (w : nat)
  | ShutdownQueued (s : nat)
  | Stopped (rc : Z)
  | Idle.

(** ** Generating the operations *)

Definition stress_lcg (seed : Z) : Z := Z.land (u32 (seed * 1103515245 + 12345)) 0x7fffffff.

Fixpoint generate_ops {T : Tunables} (num_ops : nat) (num_objects seed : Z) : list stress_op :=
  match num_ops with
  | O => []
  | S num_ops =>
      let seed := stress_lcg seed in
      let oid := seed mod num_objects + 1 in
      let seed := stress_lcg seed in
      let bucket := seed mod 100 in
      if decide (bucket < 40) then
        let seed := stress_lcg seed in
        StressOp OP_WRITE oid (seed mod (STRESS_DATA_SIZE * 2)) STRESS_DATA_SIZE :: generate_ops num_ops num_objects seed
      else if decide (bucket < 60) then
        let seed := stress_lcg seed in
        let off := seed mod STRESS_DATA_SIZE in
        let seed := stress_lcg seed in
        StressOp OP_PUNCH oid off (seed mod (STRESS_DATA_SIZE / 2) + 1) :: generate_ops num_ops num_objects seed
      else if decide (bucket < 80) then
        let seed := stress_lcg seed in
        StressOp OP_TRUNCATE oid 0 (seed mod (STRESS_DATA_SIZE * 3) + 1) :: generate_ops num_ops num_objects seed
      else if decide (bucket < 92) then StressOp OP_DELETE oid 0 0 :: generate_ops num_ops num_objects seed
      else StressOp OP_RECREATE oid 0 STRESS_DATA_SIZE :: generate_ops num_ops num_objects seed
  end.

(** ** Updates of the context *)

Definition flight (d : Z) (ctx : stress_ctx) : stress_ctx :=
  StressCtx (t_states_at ctx) (t_ops_at ctx) (t_states ctx) (t_ops ctx) (t_op_idx ctx) (t_in_flight ctx + d) (t_errors ctx) (t_ops_done ctx).
Definition add_error (ctx : stress_ctx) : stress_ctx :=
  StressCtx (t_states_at ctx) (t_ops_at ctx) (t_states ctx) (t_ops ctx) (t_op_idx ctx) (t_in_flight ctx) (t_errors ctx + 1) (t_ops_done ctx).
Definition op_done (ctx : stress_ctx) : stress_ctx :=
  StressCtx (t_states_at ctx) (t_ops_at ctx) (t_states ctx) (t_ops ctx) (t_op_idx ctx) (t_in_flight ctx) (t_errors ctx) (t_ops_done ctx + 1).
Definition set_op_idx (i : nat) (ctx : stress_ctx) : stress_ctx :=
  StressCtx (t_states_at ctx) (t_ops_at ctx) (t_states ctx) (t_ops ctx) i (t_in_flight ctx) (t_errors ctx) (t_ops_done ctx).
Definition next_op (ctx : stress_ctx) : stress_ctx := set_op_idx (S (t_op_idx ctx)) ctx.

(** The object of an operation, and the array with its state replaced. *)
Definition state_idx (op : stress_op) : nat := Z.to_nat (op_oid op - 1).
Definition state_of (op : stress_op) (ctx : stress_ctx) : option obj_state :=
  if decide (op_oid op < 1) then None else t_states ctx !! state_idx op.
Definition set_state (op : stress_op) (st : obj_state) (ctx : stress_ctx) : stress_ctx :=
  StressCtx (t_states_at ctx) (t_ops_at ctx) (<[state_idx op := st]> (t_states ctx)) (t_ops ctx) (t_op_idx ctx)
    (t_in_flight ctx) (t_errors ctx) (t_ops_done ctx).

(** ** Buffers *)

(** The pattern of a range. *)
Definition gen_bytes (oid off len gen : Z) : bytes :=
  (λ i, gen_byte oid (u64 (off + Z.of_nat i)) gen) <$> seq 0 (Z.to_nat len).

(** The comparison of [n] bytes from the [i]-th; a read past the buffer is undefined. *)
Fixpoint verify_from (w : stress_cb_wrap) (expect_zero : bool) (buf : bytes) (n i : nat) : option Z :=
  match n with
  | O => Some 0
  | S n =>
      let expected := if expect_zero then NUL else gen_byte (op_oid (w_op w)) (u64 (op_off (w_op w) + Z.of_nat i)) (w_gen w) in
      match buf !! i with
      | None => None
      | Some got => if decide (got ≠ expected) then Some (-1) else verify_from w expect_zero buf n (S i)
      end
  end.

Section handlers.
Context {E : StorageEnv} {O : AllocOracle} {T : Tunables}.
(** The engine's answer to a submission, and whether an event can be allocated. *)
Context (obj_submit : obj_request → Z) (spdk_event_allocate : bool).

Definition load_wrap (p : nat) : M cell stress_cb_wrap :=
  c ← mload p; match c with CWrap w => mret w | _ => undefined end.
Definition load_buf (p : option nat) : M cell bytes :=
  match p with
  | None => undefined
  | Some p => c ← mload p; match c with CBuf data => mret data | _ => undefined end
  end.
Definition load_ctx (p : nat) : M cell stress_ctx :=
  c ← mload p; match c with CStress ctx => mret ctx | _ => undefined end.

Definition free_wrap (p : nat) : M cell unit :=
  w ← load_wrap p;
  _ ← mfree (w_buf w);
  mfree (Some p).

Definition verify_buffer (w : stress_cb_wrap) (expect_zero : bool) : M cell Z :=
  buf ← load_buf (w_buf w);
  match verify_from w expect_zero buf (Z.to_nat (op_len (w_op w))) 0 with
  | Some rc => mret rc
  | None => undefined
  end.

(** ** Finishing *)

(** The statistics it prints are output only. *)
Definition finish_test (self : nat) (ctx : stress_ctx) : M cell (stress_ctx * waiting) :=
  let rc := if decide (t_errors ctx > 0) then -1 else 0 in
  s ← malloc (CShutdown (ShutdownCtx (t_ops_at ctx) (t_states_at ctx) self rc));
  match s with
  | None => mret (ctx, Stopped (-1))
  | Some s => mret (ctx, if spdk_event_allocate then ShutdownQueued s else Stopped (-1))
  end.

(** ** Dispatching *)

(** The common end of the cases: count the operation, submit it, and take it back when the
    engine refuses it. *)
Definition dispatch_submit (rq : obj_request) (p : nat) (free : M cell unit) (ctx : stress_ctx) : M cell (stress_ctx * waiting) :=
  let ctx := next_op (flight 1 ctx) in
  if decide (obj_submit rq ≠ IO_SUCCESS) then
    _ ← free;
    mret (add_error (flight (-1) ctx), Idle)
  else mret (ctx, InEngine rq OpCb p).

(** The end of the loop. *)
Definition dispatch_end (self : nat) (ctx : stress_ctx) : M cell (stress_ctx * waiting) :=
  if decide (t_in_flight ctx = 0) then finish_test self ctx else mret (ctx, Idle).

(** The loop, on the operations left. *)
Fixpoint dispatch_loop (k : nat) (self : nat) (ctx : stress_ctx) : M cell (stress_ctx * waiting) :=
  match k with
  | 0%nat => dispatch_end self ctx
  | S k =>
      if decide (STRESS_MAX_INFLIGHT <= t_in_flight ctx) then dispatch_end self ctx else
      match t_ops ctx !! t_op_idx ctx with
      | None => undefined
      | Some op =>
          w ← malloc (CWrap (Wrap self op None 0));
          match w with
          | None => dispatch_loop k self (next_op (add_error ctx))
          | Some p =>
              match state_of op ctx with
              | None => undefined
              | Some st =>
                  match op_kind_of op with
                  | OP_WRITE =>
                      buf ← malloc (CBuf (gen_bytes (op_oid op) (op_off op) (op_len op) (os_generation st)));
                      match buf with
                      | None => _ ← mfree (Some p); dispatch_loop k self (next_op (add_error ctx))
                      | Some b =>
                          _ ← mstore p (CWrap (Wrap self op (Some b) (os_generation st)));
                          dispatch_submit (ObjWrite (op_oid op) (op_off op) (op_len op)
                            (gen_bytes (op_oid op) (op_off op) (op_len op) (os_generation st))) p (free_wrap p) ctx
                      end
                  | OP_PUNCH =>
                      buf ← malloc (CBuf (replicate (Z.to_nat (op_len op)) NUL));
                      match buf with
                      | None => _ ← mfree (Some p); dispatch_loop k self (next_op (add_error ctx))
                      | Some b =>
                          _ ← mstore p (CWrap (Wrap self op (Some b) 0));
                          dispatch_submit (ObjPunch (op_oid op) (op_off op) (op_len op)) p (free_wrap p) ctx
                      end
                  | OP_TRUNCATE => dispatch_submit (ObjTruncate (op_oid op) (op_len op)) p (mfree (Some p)) ctx
                  | OP_DELETE => dispatch_submit (ObjDelete (op_oid op)) p (mfree (Some p)) ctx
                  | OP_RECREATE => dispatch_submit (ObjCreate (op_oid op)) p (mfree (Some p)) ctx
                  end
              end
          end
      end
  end.

Definition stress_dispatch_next (self : nat) (ctx : stress_ctx) : M cell (stress_ctx * waiting) :=
  dispatch_loop (length (t_ops ctx) - t_op_idx ctx) self ctx.

(** What the callbacks end with. *)
Definition dispatch (self : nat) (ctx : stress_ctx) : M cell (stress_ctx * waiting) :=
  if decide ((length (t_ops ctx) <= t_op_idx ctx)%nat ∧ t_in_flight ctx = 0) then finish_test self ctx
  else stress_dispatch_next self ctx.

(** ** Callbacks *)

(** A callback works on the context its wrapper points to. *)
Definition with_ctx (self : nat) (f : stress_ctx → M cell (stress_ctx * waiting)) : M cell waiting :=
  ctx ← load_ctx self;
  '(ctx, wt) ← f ctx;
  _ ← mstore self (CStress ctx);
  mret wt.

(** Stage 2: the read-back, once the wrapper and the context are at hand. *)
Definition verify_done (p : nat) (r : Z) (w : stress_cb_wrap) (ctx : stress_ctx) : M cell (stress_ctx * waiting) :=
  let ctx := flight (-1) ctx in
  ctx ← (if decide (r ≠ IO_SUCCESS) then
           mret (match op_kind_of (w_op w) with OP_PUNCH => ctx | _ => add_error ctx end)
         else match op_kind_of (w_op w) with
              | OP_WRITE => rc ← verify_buffer w false; mret (if decide (rc ≠ 0) then add_error ctx else ctx)
              | _ => _ ← verify_buffer w true; mret ctx
              end);
  _ ← free_wrap p;
  dispatch (w_ctx w) (op_done ctx).

Definition stress_verify_cb (p : nat) (r : Z) : M cell waiting :=
  w ← load_wrap p;
  with_ctx (w_ctx w) (verify_done p r w).

(** The read-back of a range; [refused] is what a refusal counts as. *)
Definition read_back (p : nat) (w : stress_cb_wrap) (refused : stress_ctx → stress_ctx) (ctx : stress_ctx)
    : M cell (stress_ctx * waiting) :=
  match w_buf w with
  | None => undefined
  | Some b =>
      let rq := ObjRead (op_oid (w_op w)) (op_off (w_op w)) (op_len (w_op w)) b in
      let ctx := flight 1 ctx in
      if decide (obj_submit rq ≠ IO_SUCCESS) then
        _ ← free_wrap p;
        mret (refused (flight (-1) ctx), Idle)
      else mret (ctx, InEngine rq VerifyCb p)
  end.

(** The write that follows a creation. *)
Definition companion_write (self p : nat) (w : stress_cb_wrap) (st : obj_state) (ctx : stress_ctx) : M cell (stress_ctx * waiting) :=
  let op := StressOp OP_WRITE (op_oid (w_op w)) 0 (op_len (w_op w)) in
  let data := gen_bytes (op_oid (w_op w)) 0 (op_len (w_op w)) (os_generation st) in
  w2 ← malloc (CWrap (Wrap self op None (os_generation st)));
  match w2 with
  | None => _ ← free_wrap p; dispatch self (op_done (add_error ctx))
  | Some p2 =>
      buf ← malloc (CBuf data);
      match buf with
      | None => _ ← mfree (Some p2); _ ← free_wrap p; dispatch self (op_done (add_error ctx))
      | Some b =>
          _ ← mstore p2 (CWrap (Wrap self op (Some b) (os_generation st)));
          _ ← free_wrap p;
          let rq := ObjWrite (op_oid op) 0 (op_len op) data in
          let ctx := flight 1 ctx in
          if decide (obj_submit rq ≠ IO_SUCCESS) then
            _ ← free_wrap p2;
            mret (add_error (flight (-1) ctx), Idle)
          else mret (ctx, InEngine rq OpCb p2)
      end
  end.

(** Stage 1: the operation itself. *)
Definition operation_done (p : nat) (r : Z) (w : stress_cb_wrap) (ctx : stress_ctx) : M cell (stress_ctx * waiting) :=
  let self := w_ctx w in
  let op := w_op w in
  match state_of op ctx with
  | None => undefined
  | Some st =>
      let ctx := flight (-1) ctx in
      if decide (r ≠ IO_SUCCESS) then
        _ ← free_wrap p;
        dispatch self (op_done ctx)
      else
        match op_kind_of op with
        | OP_WRITE =>
            let wend := u64 (op_off op + op_len op) in
            let size := if decide (wend > os_size st) then wend else os_size st in
            read_back p w add_error (set_state op (ObjState size (os_generation st) (os_deleted st)) ctx)
        | OP_PUNCH => read_back p w id ctx
        | OP_TRUNCATE =>
            _ ← free_wrap p;
            dispatch self (op_done (set_state op (ObjState (op_len op) (os_generation st) (os_deleted st)) ctx))
        | OP_DELETE =>
            _ ← free_wrap p;
            dispatch self (op_done (set_state op (ObjState 0 (os_generation st) true) ctx))
        | OP_RECREATE =>
            let st := ObjState (op_len op) (u64 (os_generation st + 1)) false in
            companion_write self p w st (set_state op st ctx)
        end
  end.

Definition stress_op_cb (p : nat) (r : Z) : M cell waiting :=
  w ← load_wrap p;
  with_ctx (w_ctx w) (operation_done p r w).

(** ** Phase 0: creating the objects *)

(** On the objects left; [op_idx] counts the objects. *)
Fixpoint stress_create_dispatch (k : nat) (self : nat) (ctx : stress_ctx) : M cell (stress_ctx * waiting) :=
  match k with
  | 0%nat => stress_dispatch_next self (set_op_idx 0 ctx)
  | S k =>
      let oid := Z.of_nat (t_op_idx ctx) + 1 in
      w ← malloc (CWrap (Wrap self (StressOp OP_WRITE oid 0 0) None 0));
      match w with
      | None => stress_create_dispatch k self (next_op (add_error ctx))
      | Some p =>
          if decide (obj_submit (ObjCreate oid) ≠ IO_SUCCESS) then
            _ ← mfree (Some p);
            stress_create_dispatch k self (next_op (add_error ctx))
          else mret (ctx, InEngine (ObjCreate oid) CreateCb p)
      end
  end.

(** The result is ignored. *)
Definition creation_done (p : nat) (w : stress_cb_wrap) (ctx : stress_ctx) : M cell (stress_ctx * waiting) :=
  _ ← mfree (Some p);
  let ctx := next_op ctx in
  stress_create_dispatch (STRESS_NUM_OBJECTS - t_op_idx ctx) (w_ctx w) ctx.

Definition stress_create_cb (p : nat) (r : Z) : M cell waiting :=
  w ← load_wrap p;
  with_ctx (w_ctx w) (creation_done p w).

Definition stress_create_objects (self : nat) (ctx : stress_ctx) : M cell (stress_ctx * waiting) :=
  stress_create_dispatch STRESS_NUM_OBJECTS self (set_op_idx 0 ctx).

(** ** Start *)

Definition stress_test_start : M cell waiting :=
  let ops := generate_ops STRESS_NUM_OPS (Z.of_nat STRESS_NUM_OBJECTS) 42 in
  ctx ← malloc (CStress (StressCtx 0 0 [] [] 0 0 0 0));
  match ctx with
  | None => mret (Stopped (-1))
  | Some self =>
      states ← malloc CStates;
      ops_at ← malloc COps;
      match states, ops_at with
      | Some s, Some o =>
          _ ← mstore self (CStress (StressCtx s o (replicate STRESS_NUM_OBJECTS (ObjState 0 0 false)) ops 0 0 0 0));
          with_ctx self (stress_create_objects self)
      | _, _ =>
          _ ← mfree states;
          _ ← mfree ops_at;
          _ ← mfree (Some self);
          mret (Stopped (-1))
      end
  end.

(** ** Shutdown *)

Definition shutdown_complete (s : nat) : M cell waiting :=
  c ← mload s;
  match c with
  | CShutdown sd =>
      _ ← mfree (Some (sd_ops sd));
      _ ← mfree (Some (sd_states sd));
      _ ← mfree (Some (sd_ctx sd));
      _ ← mfree (Some s);
      mret (Stopped (sd_rc sd))
  | _ => undefined
  end.

(** The engine's calls while it stops, its callback among them. *)
Fixpoint run_stop (s : nat) (calls : list engine_call) (wt : waiting) : M cell waiting :=
  match calls with
  | [] => mret wt
  | StopCallback :: calls => wt ← shutdown_complete s; run_stop s calls wt
  | _ :: calls => run_stop s calls wt
  end.

(** The stop, and the end of it once the shards are closed. *)
Definition shutdown_fn (so : stop_answers) (s : nat) (engine : engine_ctx) : M cell (engine_ctx * waiting) :=
  let '(engine, calls, later) := storage_engine_stop_async (so_stop_ctx so) true engine in
  wt ← run_stop s calls Idle;
  if later then
    let '(engine, calls, _) := storage_engine_stop_async_shards_done (so_inflight so) (so_io_thread so) (so_thread so) true engine in
    wt ← run_stop s calls wt;
    mret (engine, wt)
  else mret (engine, wt).
End handlers.

(** ** The process *)

(** A request that the engine completed, with the data of a read. *)
Record completion := Completion { co_rq : obj_request; co_result : Z; co_data : bytes }.

(** What is answered during a step: to submissions, to the allocation of an event, and by the
    engine to the request it holds; and what stopping finds. *)
Record answers := Answers {
  an_submit : obj_request → Z;
  an_event : bool;
  an_result : obj_request → Z;
  an_data : obj_request → bytes;
  an_stop : stop_answers
}.

(** A read fills its buffer, which must be large enough, and nothing else does. *)
Definition read_data (rq : obj_request) (data : bytes) : bytes :=
  match rq with ObjRead _ _ len _ => resize (Z.to_nat len) NUL data | _ => [] end.
Definition fill_buffer (rq : obj_request) (data : bytes) : M cell unit :=
  match rq with
  | ObjRead _ _ len buf =>
      old ← load_buf (Some buf);
      if decide (Z.of_nat (length old) < len) then undefined else mstore buf (CBuf (read_data rq data))
  | _ => mret tt
  end.

Section process.
Context {E : StorageEnv} {O : AllocOracle} {T : Tunables}.

Definition callback (a : answers) (cb : stress_cb) : nat → Z → M cell waiting :=
  match cb with
  | CreateCb => stress_create_cb (an_submit a) (an_event a)
  | OpCb => stress_op_cb (an_submit a) (an_event a)
  | VerifyCb => stress_verify_cb (an_submit a) (an_event a)
  end.

(** The engine, what the process waits for, and the completions so far, the last one first. *)
Definition process : Type := engine_ctx * waiting * list completion.

(** What is waited for happens. *)
Definition stress_step (a : answers) (pr : process) : M cell process :=
  let '(engine, wt, log) := pr in
  match wt with
  | InEngine rq cb p =>
      _ ← fill_buffer rq (an_data a rq);
      wt ← callback a cb p (an_result a rq);
      mret (engine, wt, Completion rq (an_result a rq) (read_data rq (an_data a rq)) :: log)
  | ShutdownQueued s =>
      '(engine, wt) ← shutdown_fn (an_stop a) s engine;
      mret (engine, wt, log)
  | Stopped _ | Idle => mret pr
  end.

(** The answers may depend on all that was completed before. *)
Context (env : list completion → answers).

Fixpoint stress_run (n : nat) (pr : process) : M cell process :=
  match n with
  | 0%nat => mret pr
  | S n => pr ← stress_step (env pr.2) pr; stress_run n pr
  end.

Definition stress_test (n : nat) (engine : engine_ctx) : M cell process :=
  wt ← stress_test_start (an_submit (env [])) (an_event (env []));
  stress_run n (engine, wt, []).

(** The callback of [spdk_app_start]: after formatting the process is done. *)
Definition test_engine_start {J : JsonLib} {C : CpuSets} {G : SegmentEnv} (ie : init_env) (args : engine_args)
    (n : nat) (engine : engine_ctx) : M cell (list init_call * process) :=
  match storage_engine_init ie args engine with
  | None => undefined
  | Some (rc, _, engine, calls) =>
      if decide (rc ≠ 0) then mret (calls, (engine, Stopped (-1), []))
      else if force_mkfs args then mret (calls, (engine, Stopped 0, []))
      else pr ← stress_test n engine; mret (calls, pr)
  end.
End process.

(** [main] is that of the storage server, with [test_engine_start] for the start. *)
Definition main {J : JsonLib} {C : CpuSets} (files : bytes → file) (allocs : allocations)
    (engine_log_init : engine_log_sink_mode → bytes → Z → Z) (engine_log_install_crash_handlers : Z)
    (spdk_app_start : bytes → reactor_mask → config → Z) (argv : list bytes)
    : Z * option (engine_log_sink_mode * bytes * reactor_mask) :=
  StorageLifecycle.main files allocs engine_log_init engine_log_install_crash_handlers spdk_app_start argv.

(** ** Reading back *)

Section verified.
Context {E : StorageEnv}.

(** A successful write is followed at once by a read of the same range, which succeeds and
    returns what was written; [next] is the completion after [a], if there is one. *)
Definition read_back_ok (a : completion) (next : option completion) : Prop :=
  match co_rq a with
  | ObjWrite oid off len data =>
      co_result a = IO_SUCCESS →
      match next with
      | Some (Completion (ObjRead oid' off' len' _) result data') =>
          oid' = oid ∧ off' = off ∧ len' = len ∧ result = IO_SUCCESS ∧ data' = data
      | _ => False
      end
  | _ => True
  end.

(** Every write of a log, whose last completion is first and which [next] follows. *)
Fixpoint verified (next : option completion) (log : list completion) : Prop :=
  match log with
  | [] => True
  | a :: log => read_back_ok a next ∧ verified (Some a) log
  end.

Definition is_read (c : completion) : Prop := match co_rq c with ObjRead _ _ _ _ => True | _ => False end.
Definition is_write (c : completion) : Prop := match co_rq c with ObjWrite _ _ _ _ => True | _ => False end.

Lemma read_back_ok_other a next : ¬ is_write a → read_back_ok a next.
Proof. unfold read_back_ok, is_write. by destruct (co_rq a). Qed.

(** What is not a read after a write leaves the judgement of the log as it was. *)
Lemma verified_next b log :
  ¬ is_read b ∨ (∃ a log', log = a :: log' ∧ ¬ is_write a) → (verified (Some b) log ↔ verified None log).
Proof.
  destruct log as [|a log]; [done|]. simpl. intros [Hb|(? & ? & [= <- <-] & Ha)].
  - unfold read_back_ok, is_read in *. destruct b as [[] ? ?], (co_rq a); simpl in *; tauto.
  - pose proof (read_back_ok_other a (Some b) Ha). pose proof (read_back_ok_other a None Ha). tauto.
Qed.

Lemma verified_push b log :
  (is_write b → co_result b ≠ IO_SUCCESS) → (¬ is_read b ∨ (∃ a log', log = a :: log' ∧ ¬ is_write a)) →
  (verified None (b :: log) ↔ verified None log).
Proof.
  intros Hb Hl. simpl. rewrite verified_next by done. enough (read_back_ok b None) by tauto.
  unfold read_back_ok, is_write in *. destruct (co_rq b); naive_solver.
Qed.
End verified.

(** ** The buffers *)

Lemma gen_bytes_length oid off len gen : length (gen_bytes oid off len gen) = Z.to_nat len.
Proof. unfold gen_bytes. by rewrite length_fmap, length_seq. Qed.

(** What a buffer is compared with. *)
Definition pattern (w : stress_cb_wrap) (expect_zero : bool) : bytes :=
  if expect_zero then replicate (Z.to_nat (op_len (w_op w))) NUL
  else gen_bytes (op_oid (w_op w)) (op_off (w_op w)) (op_len (w_op w)) (w_gen w).

Lemma pattern_lookup w z i : (i < Z.to_nat (op_len (w_op w)))%nat →
  pattern w z !! i = Some (if z then NUL else gen_byte (op_oid (w_op w)) (u64 (op_off (w_op w) + Z.of_nat i)) (w_gen w)).
Proof.
  intros Hi. destruct z; simpl; [by apply lookup_replicate_2|]. unfold gen_bytes.
  by rewrite list_lookup_fmap, lookup_seq_lt.
Qed.

Lemma verify_from_spec w z buf n i :
  length buf = Z.to_nat (op_len (w_op w)) → length buf = (i + n)%nat →
  verify_from w z buf n i = Some (if decide (drop i buf = drop i (pattern w z)) then 0 else -1).
Proof.
  intros Hlen. revert i. induction n as [|n IH]; intros i Hi; simpl.
  - assert (length (pattern w z) = length buf) as Hp.
    { rewrite Hlen. destruct z; simpl; [apply length_replicate|apply gen_bytes_length]. }
    rewrite !drop_ge by lia. by rewrite decide_True.
  - destruct (lookup_lt_is_Some_2 buf i) as [got Hgot]; [lia|]. rewrite Hgot.
    pose proof (pattern_lookup w z i ltac:(lia)) as Hp.
    rewrite (drop_S _ _ _ Hgot), (drop_S _ _ _ Hp).
    case_decide as Hne; [rewrite decide_False; [done|]; by intros [= ? _]|].
    subst got. rewrite IH by lia.
    apply f_equal. do 2 case_decide; congruence.
Qed.

(** ** What a process owns while it waits *)

Section owns.
Context {E : StorageEnv} {T : Tunables}.
(** That submissions are accepted; and that nothing fails but operations: allocations and
    events succeed as well; and that the engine returns what was just written. *)
Variables accepts smooth faithful : Prop.

Definition op_ok (op : stress_op) : Prop := 1 <= op_oid op <= Z.of_nat STRESS_NUM_OBJECTS.

(** The arrays, at their addresses. *)
Record ctx_ok (sa oa : nat) (ctx : stress_ctx) : Prop := CtxOk {
  ck_states_at : t_states_at ctx = sa;
  ck_ops_at : t_ops_at ctx = oa;
  ck_states : length (t_states ctx) = STRESS_NUM_OBJECTS;
  ck_num_ops : length (t_ops ctx) = STRESS_NUM_OPS;
  ck_ops : Forall op_ok (t_ops ctx)
}.

(** The counters while objects are created, and once [n] operations are in flight: each
    operation is counted once, and has at most one error. *)
Definition creating (ctx : stress_ctx) : Prop :=
  t_in_flight ctx = 0 ∧ 0 <= t_errors ctx <= Z.of_nat (t_op_idx ctx) ∧ (t_op_idx ctx <= STRESS_NUM_OBJECTS)%nat ∧ t_ops_done ctx = 0.
Definition busy (n : Z) (ctx : stress_ctx) : Prop :=
  t_in_flight ctx = n ∧ (t_op_idx ctx <= STRESS_NUM_OPS)%nat ∧
  0 <= t_errors ctx <= Z.of_nat STRESS_NUM_OBJECTS + Z.of_nat (t_op_idx ctx) - n ∧
  0 <= t_ops_done ctx <= Z.of_nat (t_op_idx ctx) - n.

(** The errors counted so far tell whether [ok], and a faithful engine keeps to it. *)
Definition judged (ok : Prop) (ctx : stress_ctx) : Prop :=
  (t_errors ctx = 0 → ok) ∧ (smooth → ok → t_errors ctx = 0) ∧ (faithful → ok).

(** How often the process will still be called at most. *)
Definition ops_left (ctx : stress_ctx) : nat := 3 * (STRESS_NUM_OPS - t_op_idx ctx) + 1.
Definition op_steps (kind : op_kind) : nat := match kind with OP_WRITE | OP_PUNCH => 2 | OP_RECREATE => 3 | _ => 1 end.

Definition wrap_own (p : nat) (w : stress_cb_wrap) (data : bytes) (N : gmap nat cell) : Prop :=
  sep [{[p := CWrap w]}; match w_buf w with Some b => {[b := CBuf data]} | None => ∅ end] N.

(** The request an operation makes, and the data in its buffer when there is one. *)
Definition op_request (w : stress_cb_wrap) (data : bytes) : obj_request :=
  let op := w_op w in
  match op_kind_of op with
  | OP_WRITE => ObjWrite (op_oid op) (op_off op) (op_len op) data
  | OP_PUNCH => ObjPunch (op_oid op) (op_off op) (op_len op)
  | OP_TRUNCATE => ObjTruncate (op_oid op) (op_len op)
  | OP_DELETE => ObjDelete (op_oid op)
  | OP_RECREATE => ObjCreate (op_oid op)
  end.
Definition has_buffer (kind : op_kind) : bool := match kind with OP_WRITE | OP_PUNCH => true | _ => false end.

(** Operation, wrapper and buffer of a callback that is under way, and what was completed. *)
Inductive under_way (ctx : stress_ctx) (p : nat) (w : stress_cb_wrap) (data : bytes) (log : list completion) :
    obj_request → stress_cb → nat → Prop :=
  | creation_under_way k :
      creating ctx → (t_op_idx ctx < STRESS_NUM_OBJECTS)%nat → w_buf w = None → judged (verified None log) ctx →
      (STRESS_NUM_OBJECTS - t_op_idx ctx + (3 * STRESS_NUM_OPS + 1) <= k)%nat →
      under_way ctx p w data log (ObjCreate (Z.of_nat (t_op_idx ctx) + 1)) CreateCb k
  | operation_under_way k :
      busy 1 ctx → op_ok (w_op w) → is_Some (w_buf w) ↔ has_buffer (op_kind_of (w_op w)) = true →
      (op_kind_of (w_op w) = OP_WRITE → data = pattern w false) →
      (has_buffer (op_kind_of (w_op w)) = true → length data = Z.to_nat (op_len (w_op w))) → judged (verified None log) ctx →
      (ops_left ctx + op_steps (op_kind_of (w_op w)) <= k)%nat →
      under_way ctx p w data log (op_request w data) OpCb k
  | write_read_back b a log' k :
      busy 1 ctx → op_kind_of (w_op w) = OP_WRITE → w_buf w = Some b → length data = Z.to_nat (op_len (w_op w)) →
      log = a :: log' → co_rq a = op_request w (pattern w false) → co_result a = IO_SUCCESS →
      judged (verified (Some a) log') ctx → (ops_left ctx + 1 <= k)%nat →
      under_way ctx p w data log (ObjRead (op_oid (w_op w)) (op_off (w_op w)) (op_len (w_op w)) b) VerifyCb k
  | punch_read_back b a log' k :
      busy 1 ctx → op_kind_of (w_op w) = OP_PUNCH → w_buf w = Some b → length data = Z.to_nat (op_len (w_op w)) →
      log = a :: log' → ¬ is_write a → judged (verified None log) ctx → (ops_left ctx + 1 <= k)%nat →
      under_way ctx p w data log (ObjRead (op_oid (w_op w)) (op_off (w_op w)) (op_len (w_op w)) b) VerifyCb k.

(** The verdict [rc]. *)
Definition verdict (rc : Z) (log : list completion) : Prop :=
  (rc = 0 ∨ rc = -1) ∧ (rc = 0 → verified None log) ∧ (smooth → verified None log → rc = 0) ∧ (faithful → verified None log).

(** Besides the context and its arrays, in at most [k] more steps. *)
Definition extra_own (self : nat) (ctx : stress_ctx) (wt : waiting) (log : list completion) (k : nat) (N : gmap nat cell) : Prop :=
  match wt with
  | InEngine rq cb p => ∃ w data, w_ctx w = self ∧ wrap_own p w data N ∧ under_way ctx p w data log rq cb k
  | ShutdownQueued s =>
      ∃ rc, N = {[s := CShutdown (ShutdownCtx (t_ops_at ctx) (t_states_at ctx) self rc)]} ∧ verdict rc log ∧ busy 0 ctx ∧ (1 <= k)%nat
  | Stopped rc => ¬ smooth ∧ rc = -1 ∧ busy 0 ctx ∧ (N = ∅ ∨ ∃ s sd, N = {[s := CShutdown sd]})
  | Idle => ¬ accepts ∧ ¬ smooth ∧ busy 0 ctx ∧ N = ∅
  end.

Definition ctx_blocks (self : nat) (ctx : stress_ctx) : list (gmap nat cell) :=
  [{[self := CStress ctx]}; {[t_states_at ctx := CStates]}; {[t_ops_at ctx := COps]}].

(** All of it: the context, its arrays and what the operation under way or the shutdown
    takes; nothing once the shutdown is complete. *)
Definition process_owns (wt : waiting) (log : list completion) (k : nat) (N : gmap nat cell) : Prop :=
  (∃ self ctx N', sep (N' :: ctx_blocks self ctx) N ∧ ctx_ok (t_states_at ctx) (t_ops_at ctx) ctx ∧ extra_own self ctx wt log k N') ∨
  (∃ rc, wt = Stopped rc ∧ N = ∅ ∧ verdict rc log).
(** ** Inverting what is under way *)

Lemma creation_inv ctx p w data log rq k : under_way ctx p w data log rq CreateCb k →
  rq = ObjCreate (Z.of_nat (t_op_idx ctx) + 1) ∧ creating ctx ∧ (t_op_idx ctx < STRESS_NUM_OBJECTS)%nat ∧ w_buf w = None ∧
  judged (verified None log) ctx ∧ (STRESS_NUM_OBJECTS - t_op_idx ctx + (3 * STRESS_NUM_OPS + 1) <= k)%nat.
Proof. by inversion 1. Qed.

Lemma op_request_not_read w data r : ¬ is_read (Completion (op_request w data) r []).
Proof. unfold is_read, op_request. cbn. destruct (op_kind_of (w_op w)); intros []. Qed.

Lemma op_request_not_write w data r : op_kind_of (w_op w) ≠ OP_WRITE → ¬ is_write (Completion (op_request w data) r []).
Proof. unfold is_write, op_request. cbn. intros Hk. destruct (op_kind_of (w_op w)); [done|intros []..]. Qed.

(** What is known when an operation completes. *)
Lemma operation_inv ctx p w data log rq k : under_way ctx p w data log rq OpCb k →
  rq = op_request w data ∧ busy 1 ctx ∧ op_ok (w_op w) ∧ (is_Some (w_buf w) ↔ has_buffer (op_kind_of (w_op w)) = true) ∧
  (op_kind_of (w_op w) = OP_WRITE → data = pattern w false) ∧
  (has_buffer (op_kind_of (w_op w)) = true → length data = Z.to_nat (op_len (w_op w))) ∧ judged (verified None log) ctx ∧
  (ops_left ctx + op_steps (op_kind_of (w_op w)) <= k)%nat.
Proof. by inversion 1. Qed.

(** The two kinds of read-backs. *)
Lemma read_back_inv ctx p w data log rq k : under_way ctx p w data log rq VerifyCb k →
  busy 1 ctx ∧ (ops_left ctx + 1 <= k)%nat ∧ length data = Z.to_nat (op_len (w_op w)) ∧ ∃ b a log', w_buf w = Some b ∧ log = a :: log' ∧
  rq = ObjRead (op_oid (w_op w)) (op_off (w_op w)) (op_len (w_op w)) b ∧
  (op_kind_of (w_op w) = OP_WRITE ∧ co_rq a = op_request w (pattern w false) ∧ co_result a = IO_SUCCESS ∧
     judged (verified (Some a) log') ctx ∨
   op_kind_of (w_op w) = OP_PUNCH ∧ ¬ is_write a ∧ judged (verified None log) ctx).
Proof. inversion 1; subst; (split; [done|]); (split; [done|]); (split; [done|]); eexists _, _, _; split_and!; eauto. Qed.

(** A write whose read-back has come. *)
Lemma written_back w a log b r data :
  op_kind_of (w_op w) = OP_WRITE → co_rq a = op_request w (pattern w false) → co_result a = IO_SUCCESS →
  verified None (Completion (ObjRead (op_oid (w_op w)) (op_off (w_op w)) (op_len (w_op w)) b) r data :: a :: log) ↔
  (r = IO_SUCCESS ∧ data = pattern w false) ∧ verified (Some a) log.
Proof.
  intros Hk Ha Hr. simpl. unfold read_back_ok at 1 2. rewrite Ha. unfold op_request. rewrite Hk. simpl. naive_solver.
Qed.

End owns.

(** ** Buffers and the shutdown by the blocks they own *)

(** A buffer is read and written through its wrapper. *)
Lemma load_buf_triple p w b data N : w_buf w = Some b → wrap_own p w data N →
  triple N (load_buf (Some b)) (λ data' N', data' = data ∧ N' = N).
Proof.
  unfold wrap_own, load_buf. intros -> Hw. eapply (triple_bind _ _ _ (λ c N', c = CBuf data ∧ N' = N)); [|intros ? ? [-> ->]; by apply triple_ret].
  eapply triple_load; [exact (sep_lookup _ _ _ _ (sep_pull 1 [_; {[b := CBuf data]}] _ _ eq_refl Hw))|done].
Qed.

Lemma store_buf_triple p w b data data' N : w_buf w = Some b → wrap_own p w data N →
  triple N (mstore b (CBuf data')) (λ _ N', wrap_own p w data' N').
Proof.
  unfold wrap_own. intros -> Hw. eapply triple_mono.
  - eapply triple_sep; [exact (sep_pull 1 [_; {[b := CBuf data]}] _ _ eq_refl Hw)|].
    apply (triple_store _ _ _ (λ _ M, M = {[b := CBuf data']})); [by rewrite lookup_singleton_eq|apply insert_singleton_eq].
  - intros ? N' (M & Hs & ->). by apply (sep_put 1 [_; {[b := CBuf data']}] {[b := CBuf data']}).
Qed.

Lemma shutdown_complete_triple self ctx s rc N :
  sep ({[s := CShutdown (ShutdownCtx (t_ops_at ctx) (t_states_at ctx) self rc)]} :: ctx_blocks self ctx) N →
  triple N (shutdown_complete s) (λ wt N', wt = Stopped rc ∧ N' = ∅).
Proof.
  intros Hs. unfold shutdown_complete. set (sd := ShutdownCtx _ _ _ _) in *.
  eapply (triple_bind _ _ _ (λ c N', c = CShutdown sd ∧ N' = N)).
  { eapply triple_load; [exact (sep_lookup _ _ _ _ Hs)|done]. }
  intros ? ? [-> ->]. simpl.
  eapply triple_bind; [exact (triple_sep_free _ _ _ _ (sep_pull 3 (_ :: ctx_blocks self ctx) _ _ eq_refl Hs))|]. intros ? N1 H1.
  eapply triple_bind; [exact (triple_sep_free _ _ _ _ (sep_pull 2 [_; _; _] _ _ eq_refl H1))|]. intros ? N2 H2.
  eapply triple_bind; [exact (triple_sep_free _ _ _ _ (sep_pull 1 [_; _] _ _ eq_refl H2))|]. intros ? N3 H3.
  eapply triple_bind; [exact (triple_sep_free _ _ [] _ H3)|]. intros ? N4 ->. by apply triple_ret.
Qed.

Lemma run_stop_quiet s calls rest wt : StopCallback ∉ calls → run_stop s (calls ++ rest) wt = run_stop s rest wt.
Proof.
  induction calls as [|c calls IH]; [done|]. intros [Hc Hcalls]%not_elem_of_cons. rewrite <-IH by done. by destruct c.
Qed.

(** The engine calls back once, whether it stops or cannot. *)
Lemma shutdown_fn_triple so engine self ctx s rc N :
  sep ({[s := CShutdown (ShutdownCtx (t_ops_at ctx) (t_states_at ctx) self rc)]} :: ctx_blocks self ctx) N →
  triple N (shutdown_fn so s engine) (λ '(_, wt) N', wt = Stopped rc ∧ N' = ∅).
Proof.
  intros Hs. unfold shutdown_fn.
  destruct (stop_async_like_stop (so_io_thread so) (so_thread so) (so_inflight so) engine)
    as [(e1 & c1 & c2 & c3 & e2 & _ & Hasync & Hdone & Hno & _) Hfail].
  destruct (so_stop_ctx so).
  - rewrite Hasync, Hdone. assert (StopCallback ∉ c1 ++ [ShardManagerCloseAsync]) as Hq by set_solver.
    rewrite <-(app_nil_r (c1 ++ _)), (run_stop_quiet s _ [] Idle Hq).
    eapply (triple_bind _ _ _ (λ wt N', N' = N)); [by apply triple_ret|]. intros wt ? ->.
    rewrite run_stop_quiet by set_solver. simpl. eapply triple_bind.
    { eapply triple_bind; [by eapply shutdown_complete_triple|]. intros ? ? H. cbv beta in H. apply triple_ret. exact H. }
    intros ? ? [-> ->]. by apply triple_ret.
  - rewrite Hfail. simpl. eapply triple_bind.
    { eapply triple_bind; [by eapply shutdown_complete_triple|]. intros ? ? H. cbv beta in H. apply triple_ret. exact H. }
    intros ? ? [-> ->]. by apply triple_ret.
Qed.

(** ** The handlers by the blocks they own *)

Section triples.
#[local] Set Default Proof Using "Type*".
Context {E : StorageEnv} {O : AllocOracle} {T : Tunables} `{!TunablesOk T}.
Context (obj_submit : obj_request → Z) (event : bool) (accepts smooth faithful : Prop).
Hypothesis smooth_alloc : smooth → ∀ n, alloc_ok n = true.
Hypothesis accepts_submit : accepts → ∀ rq, obj_submit rq = IO_SUCCESS.
Hypothesis smooth_accepts : smooth → accepts.
Hypothesis smooth_event : smooth → event = true.
Implicit Types (ctx : stress_ctx) (w : stress_cb_wrap) (log : list completion) (N : gmap nat cell).

Lemma no_memory : (∃ n, alloc_ok n = false) → ¬ smooth.
Proof. intros [n Hn] Hs. by rewrite smooth_alloc in Hn. Qed.
Lemma refused_rough rq : obj_submit rq ≠ IO_SUCCESS → ¬ accepts.
Proof. intros Hr Hs. by rewrite accepts_submit in Hr. Qed.
Lemma refused_smooth rq : obj_submit rq ≠ IO_SUCCESS → ¬ smooth.
Proof. intros Hr%refused_rough Hs. by apply Hr, smooth_accepts. Qed.

(** What a handler leaves besides the context and its arrays. *)
Definition leaves (sa oa self : nat) log (k : nat) (res : stress_ctx * waiting) N : Prop :=
  ctx_ok sa oa res.1 ∧ extra_own accepts smooth faithful self res.1 res.2 log k N.

(** Ready to dispatch, with [k] more steps. *)
Definition ready (sa oa : nat) log (k : nat) ctx : Prop :=
  ctx_ok sa oa ctx ∧ busy 0 ctx ∧ judged smooth faithful (verified None log) ctx ∧ (ops_left ctx <= k)%nat.

(** An error makes the verdict negative whatever the log. *)
Lemma judged_error (ok : Prop) ctx ctx' :
  ¬ smooth → 0 <= t_errors ctx → t_errors ctx' = t_errors ctx + 1 → judged smooth faithful ok ctx → judged smooth faithful ok ctx'.
Proof. intros Hn H0 He (_ & _ & ?). split_and!; [lia|done|done]. Qed.

Lemma judged_iff (ok ok' : Prop) ctx ctx' : (ok ↔ ok') → t_errors ctx' = t_errors ctx → judged smooth faithful ok ctx → judged smooth faithful ok' ctx'.
Proof. intros Hi He. unfold judged. rewrite He. tauto. Qed.

Lemma ready_error sa oa log k ctx : ¬ smooth → (t_op_idx ctx < STRESS_NUM_OPS)%nat →
  ready sa oa log k ctx → ready sa oa log k (next_op (add_error ctx)).
Proof.
  intros Hn Hi ([] & (? & ? & ? & ?) & Hj & Hk). unfold ops_left in Hk.
  split_and!; [by split|unfold busy; simpl; lia|by apply (judged_error _ ctx); [|lia|..]|unfold ops_left; simpl; lia].
Qed.

Lemma load_wrap_triple p w data N : wrap_own p w data N → triple N (load_wrap p) (λ w' N', w' = w ∧ N' = N).
Proof.
  unfold wrap_own. intros Hs. eapply (triple_bind _ _ _ (λ c N', c = CWrap w ∧ N' = N)); [|intros ? ? [-> ->]; by apply triple_ret].
  eapply triple_load; [exact (sep_lookup _ _ _ _ Hs)|done].
Qed.

Lemma free_wrap_triple p w data ms N :
  sep ({[p := CWrap w]} :: match w_buf w with Some b => {[b := CBuf data]} | None => ∅ end :: ms) N →
  triple N (free_wrap p) (λ _ N', sep ms N').
Proof.
  intros Hs. unfold free_wrap. eapply (triple_bind _ _ _ (λ w' N', w' = w ∧ N' = N)).
  { unfold load_wrap. eapply (triple_bind _ _ _ (λ c N', c = CWrap w ∧ N' = N)); [|intros ? ? [-> ->]; by apply triple_ret].
    eapply triple_load; [exact (sep_lookup _ _ _ _ Hs)|done]. }
  intros ? ? [-> ->]. eapply (triple_bind _ _ _ (λ _ N', sep ({[p := CWrap w]} :: ms) N')).
  - destruct (w_buf w) as [b|].
    + exact (triple_sep_free _ _ _ _ (sep_pull 1 (_ :: _ :: ms) _ _ eq_refl Hs)).
    + apply triple_free_null. by apply sep_drop_empty, (sep_perm ({[p := CWrap w]} :: ∅ :: ms)); [apply Permutation_swap|].
  - intros ? N' Hs'. exact (triple_sep_free _ _ _ _ Hs').
Qed.

Lemma free_own_triple p w data N : wrap_own p w data N → triple N (free_wrap p) (λ _ N', N' = ∅).
Proof. apply (free_wrap_triple p w data []). Qed.

(** A wrapper and its buffer, made piece by piece. *)
Lemma wrap_own_none p w data N : w_buf w = None → sep [{[p := CWrap w]}] N → wrap_own p w data N.
Proof. intros Hb Hs. unfold wrap_own. rewrite Hb. by apply sep_second_empty. Qed.

Lemma store_wrap_triple p w w' b data N : w_buf w' = Some b →
  sep [{[b := CBuf data]}; {[p := CWrap w]}] N → triple N (mstore p (CWrap w')) (λ _ N', wrap_own p w' data N').
Proof.
  intros Hb Hs. eapply triple_mono.
  - eapply triple_sep; [exact (sep_pull 1 [_; {[p := CWrap w]}] _ _ eq_refl Hs)|].
    apply (triple_store _ _ _ (λ _ N', N' = {[p := CWrap w']})); [by rewrite lookup_singleton_eq|apply insert_singleton_eq].
  - intros ? N' (M & Hs' & ->). unfold wrap_own. by rewrite Hb.
Qed.

(** ** Finishing and dispatching *)

Lemma finish_test_triple sa oa self log k ctx :
  ready sa oa log k ctx → triple ∅ (finish_test event self ctx) (leaves sa oa self log k).
Proof.
  intros (Hok & Hb & (Hj1 & Hj2 & Hj3) & Hk). unfold finish_test.
  assert (verdict smooth faithful (if decide (t_errors ctx > 0) then -1 else 0) log) as Hv.
  { destruct Hb as (_ & _ & ? & _). case_decide; (split; [lia|]); (split; [intros; by apply Hj1; lia|]); split; try done.
    intros Hs Hl. specialize (Hj2 Hs Hl). lia. }
  eapply triple_bind; [by apply (triple_sep_malloc [])|]. intros [s|] N.
  - intros Hs. assert (N = {[s := CShutdown (ShutdownCtx (t_ops_at ctx) (t_states_at ctx) self (if decide (t_errors ctx > 0) then -1 else 0))]}) as ->.
    { destruct Hs as (R & -> & _ & ->). by rewrite (right_id_L ∅ (∪)). }
    apply triple_ret. split; [done|]. destruct event eqn:He; simpl.
    + eexists. split_and!; [done..|]. unfold ops_left in Hk. lia.
    + split_and!; [|done|done|right; eauto]. intros Hsm. by specialize (smooth_event Hsm).
  - intros [-> Hn]. apply triple_ret. split; [done|]. split_and!; [by apply no_memory|done|done|by left].
Qed.

Lemma dispatch_submit_triple sa oa self log k ctx p w data free N :
  ready sa oa log k ctx → (t_op_idx ctx < STRESS_NUM_OPS)%nat → w_ctx w = self → op_ok (w_op w) →
  is_Some (w_buf w) ↔ has_buffer (op_kind_of (w_op w)) = true → (op_kind_of (w_op w) = OP_WRITE → data = pattern w false) →
  (has_buffer (op_kind_of (w_op w)) = true → length data = Z.to_nat (op_len (w_op w))) →
  wrap_own p w data N → triple N free (λ _ N', N' = ∅) →
  triple N (dispatch_submit obj_submit (op_request w data) p free ctx) (leaves sa oa self log k).
Proof.
  intros (Hok & (Hf & Hi' & He & Hd) & Hj & Hk) Hi Hself Hop Hbuf Hdata Hlen Hown Hfree. unfold dispatch_submit. case_decide as Hr.
  - eapply triple_bind; [exact Hfree|]. intros ? ? ->. apply triple_ret. destruct Hok. split; [by split|].
    split_and!; [by eapply refused_rough|by eapply refused_smooth|unfold busy; simpl; lia|done].
  - apply triple_ret. destruct Hok. split; [by split|]. exists w, data. split_and!; [done..|].
    constructor; try done.
    + unfold busy. simpl. split_and!; lia.
    + unfold ops_left in *. simpl. destruct (op_kind_of (w_op w)); simpl; lia.
Qed.

(** The cases with a buffer; [next] goes on without the operation. *)
Lemma buffered_triple sa oa self log k ctx p op gen data next N :
  ready sa oa log k ctx → (t_op_idx ctx < STRESS_NUM_OPS)%nat → op_ok op → has_buffer (op_kind_of op) = true →
  (op_kind_of op = OP_WRITE → data = pattern (Wrap self op None gen) false) → length data = Z.to_nat (op_len op) →
  sep [{[p := CWrap (Wrap self op None 0)]}] N → (¬ smooth → triple ∅ next (leaves sa oa self log k)) →
  triple N (buf ← malloc (CBuf data);
            match buf with
            | None => _ ← mfree (Some p); next
            | Some b =>
                _ ← mstore p (CWrap (Wrap self op (Some b) gen));
                dispatch_submit obj_submit (op_request (Wrap self op (Some b) gen) data) p (free_wrap p) ctx
            end) (leaves sa oa self log k).
Proof.
  intros Hr Hi Hop Hbuf Hdata Hlen Hp Hnext. eapply triple_bind; [by apply triple_sep_malloc|]. intros [b|] N1.
  - intros Hs. eapply triple_bind; [by eapply (store_wrap_triple p _ (Wrap self op (Some b) gen))|]. intros ? N2 Hw. cbv beta in Hw.
    eapply dispatch_submit_triple; try done. by eapply free_own_triple.
  - intros [Hs Hm]. eapply triple_bind; [exact (triple_sep_free _ _ [] _ Hs)|]. intros ? N2 ->.
    by apply Hnext, no_memory.
Qed.

(** The cases without. *)
Lemma unbuffered_triple sa oa self log k ctx p op N :
  ready sa oa log k ctx → (t_op_idx ctx < STRESS_NUM_OPS)%nat → op_ok op → has_buffer (op_kind_of op) = false →
  sep [{[p := CWrap (Wrap self op None 0)]}] N →
  triple N (dispatch_submit obj_submit (op_request (Wrap self op None 0) []) p (mfree (Some p)) ctx) (leaves sa oa self log k).
Proof.
  intros Hr Hi Hop Hbuf Hp. eapply (dispatch_submit_triple _ _ _ _ _ _ _ _ []); try done.
  - simpl. rewrite Hbuf. split; [by intros []|done].
  - simpl. intros Hk. by rewrite Hk in Hbuf.
  - simpl. by rewrite Hbuf.
  - by apply wrap_own_none.
  - exact (triple_sep_free _ _ [] _ Hp).
Qed.

Lemma state_of_ok sa oa op ctx : ctx_ok sa oa ctx → op_ok op → ∃ st, state_of op ctx = Some st.
Proof.
  intros [] Hop. unfold state_of, state_idx, op_ok in *. rewrite decide_False by lia. apply lookup_lt_is_Some_2. lia.
Qed.

Lemma dispatch_loop_triple sa oa self log k n ctx :
  ready sa oa log k ctx → (n + t_op_idx ctx)%nat = STRESS_NUM_OPS →
  triple ∅ (dispatch_loop obj_submit event n self ctx) (leaves sa oa self log k).
Proof.
  revert ctx. induction n as [|n IH]; intros ctx Hr Hn; simpl.
  { unfold dispatch_end. rewrite decide_True; [by apply finish_test_triple|]. by destruct Hr as (? & (Hf & ?) & ?). }
  pose proof Hr as (Hok & (Hf & _) & _). pose proof max_inflight_ok. rewrite decide_False by lia.
  assert (¬ smooth → triple ∅ (dispatch_loop obj_submit event n self (next_op (add_error ctx))) (leaves sa oa self log k)) as Hnext.
  { intros Hs. apply IH; [apply ready_error; [done|lia|done]|simpl; lia]. }
  destruct (lookup_lt_is_Some_2 (t_ops ctx) (t_op_idx ctx)) as [op Hop]; [rewrite (ck_num_ops _ _ _ Hok); lia|]. rewrite Hop.
  assert (op_ok op) as Hopok by (eapply Forall_lookup_1; [apply (ck_ops _ _ _ Hok)|done]).
  destruct (state_of_ok _ _ _ _ Hok Hopok) as [st Hst].
  eapply triple_bind; [by apply (triple_sep_malloc [])|]. intros [p|] N.
  2: { intros [-> Hm]. by apply Hnext, no_memory. }
  intros Hp. rewrite Hst. assert (t_op_idx ctx < STRESS_NUM_OPS)%nat as Hi by lia. destruct op as [[] oid off len]; simpl op_kind_of.
  - apply (buffered_triple _ _ _ _ _ _ p (StressOp OP_WRITE oid off len)); try done; apply gen_bytes_length.
  - apply (buffered_triple _ _ _ _ _ _ p (StressOp OP_PUNCH oid off len)); try done; apply length_replicate.
  - by apply (unbuffered_triple _ _ _ _ _ _ p (StressOp OP_TRUNCATE oid off len)).
  - by apply (unbuffered_triple _ _ _ _ _ _ p (StressOp OP_DELETE oid off len)).
  - by apply (unbuffered_triple _ _ _ _ _ _ p (StressOp OP_RECREATE oid off len)).
Qed.

Lemma dispatch_next_triple sa oa self log k ctx :
  ready sa oa log k ctx → triple ∅ (stress_dispatch_next obj_submit event self ctx) (leaves sa oa self log k).
Proof.
  intros Hr. pose proof Hr as (Hok & (_ & ? & _) & _). apply dispatch_loop_triple; [done|].
  rewrite (ck_num_ops _ _ _ Hok). lia.
Qed.

Lemma carry_on_triple sa oa self log k ctx :
  ready sa oa log k ctx → triple ∅ (dispatch obj_submit event self ctx) (leaves sa oa self log k).
Proof. intros Hr. unfold dispatch. case_decide; [by apply finish_test_triple|by apply dispatch_next_triple]. Qed.

(** ** Callbacks *)

Lemma with_ctx_triple self ctx log k f N' N :
  sep (N' :: ctx_blocks self ctx) N → triple N' (f ctx) (leaves (t_states_at ctx) (t_ops_at ctx) self log k) →
  triple N (with_ctx self f) (λ wt N, process_owns accepts smooth faithful wt log k N).
Proof.
  intros Hs Hf. unfold with_ctx, load_ctx.
  pose proof (sep_pull 1 (N' :: ctx_blocks self ctx) _ _ eq_refl Hs) as Hs'.
  eapply (triple_bind _ _ _ (λ ctx' N'', ctx' = ctx ∧ N'' = N)).
  { eapply (triple_bind _ _ _ (λ c N'', c = CStress ctx ∧ N'' = N)); [|intros ? ? [-> ->]; by apply triple_ret].
    eapply triple_load; [exact (sep_lookup _ _ _ _ Hs')|done]. }
  intros ? ? [-> ->]. eapply triple_bind; [eapply triple_sep; [exact Hs|exact Hf]|].
  intros [ctx' wt] N1 (N1' & Hs1 & Hok & Hown). simpl in *.
  eapply triple_bind.
  - eapply triple_sep; [exact (sep_pull 1 (N1' :: ctx_blocks self ctx) _ _ eq_refl Hs1)|].
    apply (triple_store _ _ _ (λ _ N2, N2 = {[self := CStress ctx']})); [by rewrite lookup_singleton_eq|apply insert_singleton_eq].
  - intros ? N2 (M & Hs2 & ->). apply triple_ret. left. exists self, ctx', N1'. destruct Hok as [Hsa Hoa ? ? ?]. split_and!; [|by split|done].
    unfold ctx_blocks. rewrite Hsa, Hoa. revert Hs2. apply sep_perm. simpl. apply Permutation_swap.
Qed.

Lemma callback_triple p w data ctx log k f N' N :
  sep (N' :: ctx_blocks (w_ctx w) ctx) N → wrap_own p w data N' →
  triple N' (f w ctx) (leaves (t_states_at ctx) (t_ops_at ctx) (w_ctx w) log k) →
  triple N (w ← load_wrap p; with_ctx (w_ctx w) (f w)) (λ wt N, process_owns accepts smooth faithful wt log k N).
Proof.
  intros Hs Hw Hf. eapply triple_bind; [eapply triple_sep; [exact Hs|by eapply load_wrap_triple]|].
  intros ? N1 (? & Hs1 & -> & ->). by eapply with_ctx_triple.
Qed.

(** An operation that is over, with its object in some state. *)
Lemma landed sa oa log k ctx op st :
  ctx_ok sa oa ctx → busy 1 ctx → judged smooth faithful (verified None log) ctx → (ops_left ctx <= k)%nat →
  ready sa oa log k (op_done (set_state op st (flight (-1) ctx))).
Proof.
  intros [] (? & ? & ? & ?) Hj Hk. split_and!; [split; simpl; try done; by rewrite length_insert| |done|done].
  unfold busy. simpl. lia.
Qed.
Lemma landed_same sa oa log k ctx :
  ctx_ok sa oa ctx → busy 1 ctx → judged smooth faithful (verified None log) ctx → (ops_left ctx <= k)%nat →
  ready sa oa log k (op_done (flight (-1) ctx)).
Proof. intros [] (? & ? & ? & ?) Hj Hk. split_and!; [by split| |done|done]. unfold busy. simpl. lia. Qed.
Lemma landed_error sa oa log k ctx :
  ctx_ok sa oa ctx → busy 1 ctx → judged smooth faithful (verified None log) (add_error ctx) → (ops_left ctx <= k)%nat →
  ready sa oa log k (op_done (add_error (flight (-1) ctx))).
Proof. intros [] (? & ? & ? & ?) Hj Hk. split_and!; [by split| |done|done]. unfold busy. simpl. lia. Qed.

(** The wrapper is freed and the next operation dispatched. *)
Lemma free_dispatch_triple sa oa log k ctx p w data N self :
  wrap_own p w data N → ready sa oa log k ctx →
  triple N (_ ← free_wrap p; dispatch obj_submit event self ctx) (leaves sa oa self log k).
Proof.
  intros Hw Hr. eapply triple_bind; [by eapply free_own_triple|]. intros ? ? ->. by apply carry_on_triple.
Qed.

(** The state of the object and the order of the updates do not matter. *)
Definition settled (sa oa : nat) ctx ctx' : Prop :=
  ctx_ok sa oa ctx' ∧ t_in_flight ctx' = t_in_flight ctx - 1 ∧ t_errors ctx' = t_errors ctx ∧
  t_op_idx ctx' = t_op_idx ctx ∧ t_ops_done ctx' = t_ops_done ctx.

Lemma settled_same sa oa ctx : ctx_ok sa oa ctx → settled sa oa ctx (flight (-1) ctx).
Proof. intros []. by repeat split. Qed.
Lemma settled_state sa oa ctx op st : ctx_ok sa oa ctx → settled sa oa ctx (set_state op st (flight (-1) ctx)).
Proof. intros []. repeat split; simpl; try done. by rewrite length_insert. Qed.

Lemma read_back_triple sa oa log k ctx ctx' p w b data refused N :
  settled sa oa ctx ctx' → busy 1 ctx → w_buf w = Some b → wrap_own p w data N →
  (refused = add_error ∨ refused = id) →
  under_way smooth faithful (flight 1 ctx') p w data log (ObjRead (op_oid (w_op w)) (op_off (w_op w)) (op_len (w_op w)) b) VerifyCb k →
  triple N (read_back obj_submit p w refused ctx') (leaves sa oa (w_ctx w) log k).
Proof.
  intros ([] & Hf & He & Hi & Hd) (? & ? & ? & ?) Hb Hw Href Hu. unfold read_back. rewrite Hb. case_decide as Hr.
  - eapply triple_bind; [by eapply free_own_triple|]. intros ? ? ->. apply triple_ret.
    split; [destruct Href as [->| ->]; by split|]. split_and!; [by eapply refused_rough|by eapply refused_smooth| |done].
    unfold busy. destruct Href as [->| ->]; simpl; lia.
  - apply triple_ret. split; [by split|]. by exists w, data.
Qed.

Lemma companion_write_triple sa oa log k ctx p w st data N :
  ctx_ok sa oa ctx → busy 1 ctx → op_ok (w_op w) → judged smooth faithful (verified None log) ctx → (ops_left ctx + 2 <= k)%nat → wrap_own p w data N →
  triple N (companion_write obj_submit event (w_ctx w) p w st (set_state (w_op w) st (flight (-1) ctx))) (leaves sa oa (w_ctx w) log k).
Proof.
  intros Hok Hb Hop Hj Hk Hw. unfold companion_write. set (ctx' := set_state _ _ _).
  assert (¬ smooth → ready sa oa log k (op_done (add_error ctx'))) as Herr.
  { intros Hn. destruct Hok, Hb as (? & ? & ? & ?). split_and!; [split; simpl; try done; by rewrite length_insert|unfold busy; simpl; lia| |unfold ops_left in *; simpl; lia].
    by apply (judged_error _ ctx); [|lia|..]. }
  eapply triple_bind; [by apply triple_sep_malloc|]. intros [p2|] N1.
  2: { intros [Hs Hm]. eapply free_dispatch_triple; [exact Hs|]. by apply Herr, no_memory. }
  intros Hs1. eapply triple_bind; [by apply triple_sep_malloc|]. intros [b|] N2.
  2: { intros [Hs Hm]. eapply triple_bind; [exact (triple_sep_free _ _ _ _ Hs)|]. intros ? N3 Hs3.
       eapply free_dispatch_triple; [exact Hs3|]. by apply Herr, no_memory. }
  intros Hs2. set (w2 := Wrap _ _ (Some b) _). set (data2 := gen_bytes _ _ _ _) in *.
  eapply (triple_bind _ _ _ (λ _ N3, sep ({[p2 := CWrap w2]} :: {[b := CBuf data2]} :: [{[p := CWrap w]}; match w_buf w with Some b => {[b := CBuf data]} | None => ∅ end]) N3)).
  { eapply triple_mono.
    - eapply triple_sep; [exact (sep_pull 1 (_ :: _ :: [_; _]) _ _ eq_refl Hs2)|].
      apply (triple_store _ _ _ (λ _ M, M = {[p2 := CWrap w2]})); [by rewrite lookup_singleton_eq|apply insert_singleton_eq].
    - intros ? N3 (M & Hs3 & ->). exact Hs3. }
  intros ? N3 Hs3. cbv beta in Hs3. eapply triple_bind.
  { eapply (free_wrap_triple p w data [{[p2 := CWrap w2]}; {[b := CBuf data2]}]). revert Hs3. apply sep_perm.
    apply (Permutation_app_comm [_; _] [_; _]). }
  intros ? N4 Hs4. cbv beta in Hs4. case_decide as Hr.
  - eapply triple_bind; [by apply (free_wrap_triple p2 w2 data2 [])|]. intros ? ? ->. apply triple_ret.
    destruct Hok, Hb as (? & ? & ? & ?). split; [split; simpl; try done; by rewrite length_insert|].
    split_and!; [by eapply refused_rough|by eapply refused_smooth|unfold busy; simpl; lia|done].
  - apply triple_ret. destruct Hok, Hb as (? & ? & ? & ?). split; [split; simpl; try done; by rewrite length_insert|].
    exists w2, data2. split_and!; [done..|]. apply (operation_under_way _ _ _ _ w2 data2); try done.
    + unfold busy. simpl. lia.
    + intros _. apply gen_bytes_length.
Qed.

(** The log after an operation that is not a successful write. *)
Lemma judged_push ctx log b :
  ¬ is_read b → (is_write b → co_result b ≠ IO_SUCCESS) → judged smooth faithful (verified None log) ctx → judged smooth faithful (verified None (b :: log)) ctx.
Proof. intros Hr Hw. apply judged_iff; [|done]. symmetry. apply verified_push; [done|by left]. Qed.

Lemma operation_done_triple sa oa log k ctx p w data rq r N :
  under_way smooth faithful ctx p w data log rq OpCb (S k) → ctx_ok sa oa ctx → wrap_own p w data N →
  triple N (operation_done obj_submit event p r w ctx) (leaves sa oa (w_ctx w) (Completion rq r [] :: log) k).
Proof.
  intros (-> & Hb & Hop & Hbuf & Hdata & Hlen & Hj & Hk)%operation_inv Hok Hw. unfold operation_done.
  destruct (state_of_ok _ _ _ _ Hok Hop) as [st Hst]. rewrite Hst. cbn zeta.
  pose proof (op_request_not_read w data r) as Hnr.
  assert (1 <= op_steps (op_kind_of (w_op w)))%nat as Hpos by (destruct (op_kind_of (w_op w)); simpl; lia).
  case_decide as Hr.
  { eapply free_dispatch_triple; [done|]. apply landed_same; [done..|by apply judged_push|lia]. }
  subst r. clear Hpos. destruct (op_kind_of (w_op w)) eqn:Hkind; simpl in Hk, Hbuf, Hlen.
  - destruct (proj2 Hbuf eq_refl) as [b Hwb].
    eapply (read_back_triple _ _ _ _ ctx); [by apply settled_state|done..|by left|].
    eapply write_read_back; try done; [|by apply Hlen|..]; simpl.
    + destruct Hb as (? & ? & ? & ?). unfold busy. simpl. lia.
    + by rewrite Hdata.
    + revert Hj. apply judged_iff; [|done]. symmetry. apply verified_next. by left.
    + unfold ops_left in *. simpl. lia.
  - destruct (proj2 Hbuf eq_refl) as [b Hwb].
    eapply (read_back_triple _ _ _ _ ctx); [by apply settled_same|done..|by right|].
    pose proof (op_request_not_write w data IO_SUCCESS ltac:(by rewrite Hkind)) as Hnw.
    eapply punch_read_back; try done; [|by apply Hlen|..].
    + destruct Hb as (? & ? & ? & ?). unfold busy. simpl. lia.
    + by apply judged_push.
    + unfold ops_left in *. simpl. lia.
  - eapply free_dispatch_triple; [done|]. apply landed; [done..| |lia]. apply judged_push; [done| |done].
    intros []%op_request_not_write. by rewrite Hkind.
  - eapply free_dispatch_triple; [done|]. apply landed; [done..| |lia]. apply judged_push; [done| |done].
    intros []%op_request_not_write. by rewrite Hkind.
  - eapply companion_write_triple; try done; [|lia]. apply judged_push; [done| |done].
    intros []%op_request_not_write. by rewrite Hkind.
Qed.

Lemma verify_buffer_triple p w b data z N :
  w_buf w = Some b → length data = Z.to_nat (op_len (w_op w)) → wrap_own p w data N →
  triple N (verify_buffer w z) (λ rc N', rc = (if decide (data = pattern w z) then 0 else -1) ∧ N' = N).
Proof.
  intros Hb Hlen Hw. unfold verify_buffer. rewrite Hb.
  eapply triple_bind; [by eapply load_buf_triple|].
  intros ? ? [-> ->]. rewrite verify_from_spec by lia. rewrite !drop_0. by apply triple_ret.
Qed.

Lemma verify_done_triple sa oa log k ctx p w data0 data rq r N :
  under_way smooth faithful ctx p w data0 log rq VerifyCb (S k) → ctx_ok sa oa ctx → length data = Z.to_nat (op_len (w_op w)) → wrap_own p w data N →
  (faithful → ∀ a log', log = a :: log' → co_rq a = op_request w (pattern w false) → co_result a = IO_SUCCESS →
     op_kind_of (w_op w) = OP_WRITE → r = IO_SUCCESS ∧ data = pattern w false) →
  triple N (verify_done obj_submit event p r w ctx) (leaves sa oa (w_ctx w) (Completion rq r data :: log) k).
Proof.
  intros (Hb & Hk & _ & b & a & log' & Hbuf & -> & -> & Hcase)%read_back_inv Hok Hlen Hw Hfaith. unfold verify_done. cbn zeta.
  eapply (triple_bind _ _ _ (λ ctx' N', N' = N ∧ ready sa oa (Completion _ r data :: a :: log') k (op_done ctx'))).
  2: { intros ctx' ? [-> Hr]. by eapply free_dispatch_triple. }
  destruct Hcase as [(Hkind & Ha & Hra & Hj)|(Hkind & Hnw & Hj)]; rewrite Hkind.
  - pose proof (written_back w a log' b r data Hkind Ha Hra) as Hwb.
    assert (ready sa oa (Completion (ObjRead (op_oid (w_op w)) (op_off (w_op w)) (op_len (w_op w)) b) r data :: a :: log') k
      (op_done (if decide (r = IO_SUCCESS ∧ data = pattern w false) then flight (-1) ctx else add_error (flight (-1) ctx)))) as Hready.
    { case_decide as Hd.
      - apply landed_same; [done..| |lia]. revert Hj. apply judged_iff; [|done]. rewrite Hwb. tauto.
      - apply landed_error; [done..| |lia]. destruct Hb as (_ & _ & ? & _). split; [simpl; lia|]. rewrite Hwb. split; [tauto|].
        intros Hf. by destruct Hd, (Hfaith Hf a log'). }
    destruct (decide (r ≠ IO_SUCCESS)) as [Hr|Hr].
    + rewrite decide_False in Hready by tauto. by apply triple_ret.
    + apply dec_stable in Hr. subst r. eapply triple_bind; [by eapply verify_buffer_triple|]. intros ? ? [-> ->]. apply triple_ret. split; [done|].
      destruct (decide (data = pattern w false)); [rewrite decide_True in Hready by done|rewrite decide_False in Hready by tauto]; done.
  - assert (ready sa oa (Completion (ObjRead (op_oid (w_op w)) (op_off (w_op w)) (op_len (w_op w)) b) r data :: a :: log') k
      (op_done (flight (-1) ctx))) as Hready.
    { apply landed_same; [done..| |lia]. revert Hj. apply judged_iff; [|done]. symmetry. apply verified_push; [by intros []|]. right. by exists a, log'. }
    case_decide; [by apply triple_ret|]. eapply triple_bind; [by eapply verify_buffer_triple|]. intros ? ? [_ ->]. by apply triple_ret.
Qed.

(** ** Creating the objects, and the start *)

Lemma create_dispatch_triple sa oa self log k n ctx :
  ctx_ok sa oa ctx → creating ctx → judged smooth faithful (verified None log) ctx → (n + t_op_idx ctx)%nat = STRESS_NUM_OBJECTS →
  (n + (3 * STRESS_NUM_OPS + 1) <= k)%nat →
  triple ∅ (stress_create_dispatch obj_submit event n self ctx) (leaves sa oa self log k).
Proof.
  revert ctx. induction n as [|n IH]; intros ctx Hok Hc Hj Hn Hk; simpl.
  { destruct Hok, Hc as (? & ? & ? & ?). apply dispatch_next_triple. split_and!; [by split|unfold busy; simpl; lia|done|unfold ops_left; simpl; lia]. }
  assert (¬ smooth → triple ∅ (stress_create_dispatch obj_submit event n self (next_op (add_error ctx))) (leaves sa oa self log k)) as Hnext.
  { intros Hs. destruct Hok, Hc as (? & ? & ? & ?). apply IH; [by split|unfold creating; simpl; lia| |simpl; lia|lia].
    by apply (judged_error _ ctx); [|lia|..]. }
  eapply triple_bind; [by apply (triple_sep_malloc [])|]. intros [p|] N.
  2: { intros [-> Hm]. by apply Hnext, no_memory. }
  intros Hp. case_decide as Hr.
  - eapply triple_bind; [exact (triple_sep_free _ _ [] _ Hp)|]. intros ? ? ->. by eapply Hnext, refused_smooth.
  - apply triple_ret. split; [done|]. exists (Wrap self (StressOp OP_WRITE (Z.of_nat (t_op_idx ctx) + 1) 0 0) None 0), [].
    split; [done|]. split; [by apply wrap_own_none|]. apply creation_under_way; [done|lia|done|done|lia].
Qed.

Lemma creation_done_triple sa oa log k ctx p w data rq r N :
  under_way smooth faithful ctx p w data log rq CreateCb (S k) → ctx_ok sa oa ctx → wrap_own p w data N →
  triple N (creation_done obj_submit event p w ctx) (leaves sa oa (w_ctx w) (Completion rq r [] :: log) k).
Proof.
  intros (-> & Hc & Hi & Hb & Hj & Hk)%creation_inv Hok Hw. unfold creation_done, wrap_own in *. rewrite Hb in Hw.
  apply sep_second_empty in Hw. eapply triple_bind; [exact (triple_sep_free _ _ [] _ Hw)|]. intros ? ? ->.
  destruct Hok, Hc as (? & ? & ? & ?). apply create_dispatch_triple; [by split|unfold creating; simpl; lia| |simpl; lia|simpl; lia].
  revert Hj. apply judged_iff; [|done]. symmetry. apply verified_push; [intros []|left; intros []].
Qed.

Lemma generate_ops_ok n num_objects seed : 0 < num_objects <= Z.of_nat STRESS_NUM_OBJECTS →
  Forall op_ok (generate_ops n num_objects seed) ∧ length (generate_ops n num_objects seed) = n.
Proof.
  intros Hn. revert seed. induction n as [|n IH]; intros seed; simpl; [by split|].
  assert (∀ s kind off len, op_ok (StressOp kind (s mod num_objects + 1) off len)) as Hop.
  { intros s kind off len. unfold op_ok. simpl. pose proof (Z.mod_pos_bound s num_objects). lia. }
  repeat case_decide; simpl; split; try (apply Forall_cons; split; [done|]); try apply f_equal; apply IH.
Qed.

(** A block that may be missing. *)
Definition maybe_block (a : cell) (p : option nat) : gmap nat cell := match p with Some p => {[p := a]} | None => ∅ end.

Lemma malloc_maybe ms N a : sep ms N →
  triple N (malloc a) (λ p N', sep (maybe_block a p :: ms) N' ∧ (p = None → ¬ smooth)).
Proof.
  intros Hs. eapply triple_mono; [by apply triple_sep_malloc|]. intros [p|] N'; [by split|].
  intros [Hs' Hn]. split; [by apply sep_empty|]. intros _. by apply no_memory.
Qed.

Lemma free_maybe ms N a p : sep (maybe_block a p :: ms) N → triple N (mfree p) (λ _ N', sep ms N').
Proof.
  destruct p as [p|]; simpl; intros Hs; [exact (triple_sep_free _ _ _ _ Hs)|].
  by apply triple_free_null, sep_drop_empty.
Qed.

Lemma start_triple k : (STRESS_NUM_OBJECTS + (3 * STRESS_NUM_OPS + 1) <= k)%nat →
  triple ∅ (stress_test_start obj_submit event) (λ wt N, process_owns accepts smooth faithful wt [] k N).
Proof.
  intros Hk. assert (¬ smooth → process_owns accepts smooth faithful (Stopped (-1)) [] k ∅) as Hfail.
  { intros Hn. right. exists (-1). split_and!; [done..|]. split; [by right|]. by split. }
  unfold stress_test_start. eapply triple_bind; [by apply (malloc_maybe [])|]. intros [self|] N [Hself Hn].
  2: { apply sep_drop_empty in Hself as ->. by apply triple_ret, Hfail, Hn. }
  clear Hn. eapply triple_bind; [by apply malloc_maybe|]. intros states N1 [H1 Hn1].
  eapply triple_bind; [by apply malloc_maybe|]. intros ops_at N2 [H2 Hn2].
  assert (states = None ∨ ops_at = None → triple N2 (_ ← mfree states; _ ← mfree ops_at; _ ← mfree (Some self); mret (Stopped (-1)))
    (λ wt N, process_owns accepts smooth faithful wt [] k N)) as Hclean.
  { intros Hno. eapply triple_bind; [exact (free_maybe _ _ _ _ (sep_pull 1 [_; maybe_block CStates states; _] _ _ eq_refl H2))|]. intros ? N3 H3.
    eapply triple_bind; [exact (free_maybe _ _ _ _ H3)|]. intros ? N4 H4.
    eapply triple_bind; [exact (free_maybe [] _ _ (Some self) H4)|]. intros ? N5 ->. apply triple_ret, Hfail. tauto. }
  destruct states as [sa|], ops_at as [oa|]; try (apply Hclean; tauto). clear Hclean Hn1 Hn2.
  set (ctx := StressCtx sa oa _ _ _ _ _ _).
  eapply (triple_bind _ _ _ (λ _ N3, sep (∅ :: ctx_blocks self ctx) N3)).
  { eapply triple_mono.
    - eapply triple_sep; [exact (sep_pull 2 [_; _; maybe_block _ (Some self)] _ _ eq_refl H2)|]. simpl.
      apply (triple_store _ _ _ (λ _ M, M = {[self := CStress ctx]})); [by rewrite lookup_singleton_eq|apply insert_singleton_eq].
    - intros ? N3 (M & H3 & ->). apply sep_empty. revert H3. apply sep_perm. apply (Permutation_cons eq_refl), Permutation_swap. }
  intros ? N3 H3. cbv beta in H3. pose proof num_objects_ok.
  destruct (generate_ops_ok STRESS_NUM_OPS (Z.of_nat STRESS_NUM_OBJECTS) 42) as [Hops Hnum]; [lia|].
  eapply with_ctx_triple; [exact H3|]. apply create_dispatch_triple; simpl; try lia.
  - split; try done. apply length_replicate.
  - unfold creating. simpl. lia.
  - by split.
Qed.
End triples.

(** ** The process *)

Section process_triples.
#[local] Set Default Proof Using "Type*".
Context {E : StorageEnv} {O : AllocOracle} {T : Tunables} `{!TunablesOk T}.
Context (env : list completion → answers).

(** Every submission is accepted; nothing fails but operations. *)
Definition accepting : Prop := ∀ log rq, an_submit (env log) rq = IO_SUCCESS.
Definition smooth : Prop := (∀ n, alloc_ok n = true) ∧ accepting ∧ (∀ log, an_event (env log) = true).

(** The engine returns what was just written. *)
Definition faithful : Prop := ∀ oid off len data d log buf,
  let answer := env (Completion (ObjWrite oid off len data) IO_SUCCESS d :: log) in
  let rq := ObjRead oid off len buf in
  length data = Z.to_nat len → an_result answer rq = IO_SUCCESS ∧ read_data rq (an_data answer rq) = data.

(** The most steps a process takes: the creations, three for an operation, and the shutdown. *)
Definition max_steps : nat := STRESS_NUM_OBJECTS + (3 * STRESS_NUM_OPS + 1).

Definition owns_process (k : nat) (pr : process) (N : gmap nat cell) : Prop :=
  let '(_, wt, log) := pr in process_owns accepting smooth faithful wt log k N.

(** The engine fills the buffer of a read. *)
Lemma fill_buffer_triple ctx p w data log rq cb k N raw :
  under_way smooth faithful ctx p w data log rq cb k → wrap_own p w data N →
  triple N (fill_buffer rq raw) (λ _ N', match cb with
    | VerifyCb => wrap_own p w (read_data rq raw) N' ∧ length (read_data rq raw) = Z.to_nat (op_len (w_op w))
    | _ => N' = N ∧ read_data rq raw = [] end).
Proof.
  intros Hu Hw. destruct cb.
  - apply creation_inv in Hu as (-> & _). by apply triple_ret.
  - apply operation_inv in Hu as (-> & _). unfold op_request, fill_buffer, read_data.
    destruct (op_kind_of (w_op w)); by apply triple_ret.
  - apply read_back_inv in Hu as (_ & _ & Hlen & b & ? & ? & Hb & _ & -> & _). unfold fill_buffer.
    eapply triple_bind; [by eapply load_buf_triple|].
    intros ? ? [-> ->]. rewrite decide_False by lia. eapply triple_mono; [by eapply store_buf_triple|].
    intros ? N' HN. split; [done|apply length_resize].
Qed.

Lemma step_triple engine wt log k N :
  process_owns accepting smooth faithful wt log k N →
  triple N (stress_step (env log) (engine, wt, log)) (owns_process (k - 1)).
Proof.
  assert (smooth → ∀ n, alloc_ok n = true) as Ha by (by intros (? & _)).
  assert (accepting → ∀ rq, an_submit (env log) rq = IO_SUCCESS) as Hsub by (intros H rq; apply H).
  assert (smooth → accepting) as Hacc by (by intros (_ & ? & _)).
  assert (smooth → an_event (env log) = true) as Hev by (intros (_ & _ & ?); auto).
  intros [(self & ctx & N' & Hs & Hok & Hown)|(rc & -> & -> & Hv)]; unfold stress_step; cbv beta iota.
  2: { apply triple_ret. right. by exists rc. }
  destruct wt as [rq cb p|s|rc|]; cbn [extra_own] in Hown.
  - destruct Hown as (w & data & <- & Hw & Hu).
    eapply triple_bind; [eapply triple_sep; [exact Hs|by eapply fill_buffer_triple]|]. intros ? N1 (N1' & Hs1 & Hfill).
    eapply (triple_bind _ _ _ (λ wt N2, process_owns accepting smooth faithful wt (Completion rq (an_result (env log) rq) (read_data rq (an_data (env log) rq)) :: log) (k - 1) N2)).
    2: { intros wt N2 H2. by apply triple_ret. }
    destruct k as [|k]; [exfalso; inversion Hu; unfold ops_left in *; lia|]. rewrite Nat.sub_succ, Nat.sub_0_r.
    destruct cb; simpl.
    + destruct Hfill as [-> ->]. eapply (callback_triple (an_submit (env log)) (an_event (env log)) accepting smooth faithful Ha Hsub Hacc Hev); [exact Hs1|exact Hw|]. by eapply creation_done_triple.
    + destruct Hfill as [-> ->]. eapply (callback_triple (an_submit (env log)) (an_event (env log)) accepting smooth faithful Ha Hsub Hacc Hev); [exact Hs1|exact Hw|]. by eapply operation_done_triple.
    + destruct Hfill as [Hw1 Hlen]. eapply (callback_triple (an_submit (env log)) (an_event (env log)) accepting smooth faithful Ha Hsub Hacc Hev); [exact Hs1|exact Hw1|].
      eapply verify_done_triple; [done..|]. intros Hf a log' -> Hw2 Hr Hk. apply read_back_inv in Hu as (_ & _ & _ & b & ? & ? & _ & _ & -> & _).
      destruct a as [rqa ra da]. simpl in Hw2, Hr. subst ra rqa. unfold op_request. rewrite Hk. apply Hf, gen_bytes_length.
  - destruct Hown as (rc & -> & Hv & _). eapply triple_bind; [by eapply shutdown_fn_triple|].
    intros [engine' wt] ? [-> ->]. apply triple_ret. right. by exists rc.
  - apply triple_ret. left. by exists self, ctx, N'.
  - apply triple_ret. left. by exists self, ctx, N'.
Qed.

Lemma run_triple n k pr N : owns_process k pr N → triple N (stress_run env n pr) (owns_process (k - n)).
Proof.
  revert k pr N. induction n as [|n IH]; intros k [[engine wt] log] N Hp; simpl.
  - rewrite Nat.sub_0_r. by apply triple_ret.
  - eapply triple_bind; [by apply step_triple|]. intros pr N' Hp'. cbv beta in Hp'.
    replace (k - S n)%nat with (k - 1 - n)%nat by lia. by apply IH.
Qed.

Lemma stress_test_triple n engine : triple ∅ (stress_test env n engine) (owns_process (max_steps - n)).
Proof.
  unfold stress_test. eapply triple_bind.
  - apply (start_triple (an_submit (env [])) (an_event (env [])) accepting smooth faithful) with (k := max_steps);
      [by intros (? & _)|intros H rq; apply H|by intros (_ & ? & _)|by intros (_ & _ & ?)|done].
  - intros wt N Hwt. by apply run_triple.
Qed.
End process_triples.

(** ** Theorems *)

Section theorems.
#[local] Set Default Proof Using "Type*".
Context {E : StorageEnv} {O : AllocOracle} {T : Tunables} `{!TunablesOk T}.
Implicit Types (env : list completion → answers) (h : mem cell) (log : list completion).

(** A run next to any other blocks. *)
Lemma stress_test_run env n engine h : mem_wf h →
  ∃ engine' wt log h' N, stress_test env n engine h = Some ((engine', wt, log), h') ∧ mem_wf h' ∧
    mem_cells h' = N ∪ mem_cells h ∧ N ##ₘ mem_cells h ∧ process_owns (accepting env) (smooth env) (faithful env) wt log (max_steps - n) N.
Proof.
  intros Hwf. destruct (stress_test_triple env n engine h (mem_cells h)) as ([[engine' wt] log] & h' & N & Hr & ? & ? & ? & Hown).
  - done.
  - by rewrite (left_id_L ∅ (∪)).
  - apply map_disjoint_empty_l.
  - by exists engine', wt, log, h', N.
Qed.

(** The counters of a context that waits. *)
Definition counted (flying : Z) (ctx : stress_ctx) : Prop :=
  t_in_flight ctx = flying ∧ 0 <= t_errors ctx < 2 ^ 31 ∧ 0 <= t_ops_done ctx < 2 ^ 31.

Lemma busy_counted n ctx : 0 <= n → busy n ctx → counted n ctx.
Proof. intros Hn (? & ? & ? & ?). pose proof counters_ok. unfold counted. lia. Qed.
Lemma creating_counted ctx : creating ctx → counted 0 ctx.
Proof. intros (? & ? & ? & ?). pose proof counters_ok. unfold counted. lia. Qed.

Lemma under_way_counted P Q ctx p w data log rq cb k :
  under_way P Q ctx p w data log rq cb k → counted (match cb with CreateCb => 0 | _ => 1 end) ctx.
Proof. by inversion 1; subst; first [apply creating_counted|apply busy_counted]. Qed.

(** C33. The stress test is memory safe, whatever the engine answers to its requests and puts in
    its read buffers, whatever memory and events it is refused, and however often it is called:
    no call is undefined, no counter overflows, and the blocks it has are known exactly. While
    an operation is with the engine they are the context with its two arrays and the wrapper
    with its buffer, and the operation is the only one in flight; while the shutdown is queued
    the context and the shutdown's own; after the shutdown none at all. *)
Theorem stress_test_safe env n engine h : mem_wf h →
  ∃ engine' wt log h' N, stress_test env n engine h = Some ((engine', wt, log), h') ∧ mem_wf h' ∧
    mem_cells h' = N ∪ mem_cells h ∧ N ##ₘ mem_cells h ∧
    ((∃ rc, wt = Stopped rc) ∧ N = ∅ ∨
     ∃ self ctx N', sep (N' :: ctx_blocks self ctx) N ∧
       match wt with
       | InEngine rq cb p => counted (match cb with CreateCb => 0 | _ => 1 end) ctx ∧ ∃ w data, wrap_own p w data N'
       | ShutdownQueued s =>
           counted 0 ctx ∧ ∃ rc, N' = {[s := CShutdown (ShutdownCtx (t_ops_at ctx) (t_states_at ctx) self rc)]}
       | Stopped rc => counted 0 ctx ∧ rc = -1 ∧ (N' = ∅ ∨ ∃ s sd, N' = {[s := CShutdown sd]})
       | Idle => counted 0 ctx ∧ N' = ∅
       end).
Proof.
  intros Hwf. destruct (stress_test_run env n engine h Hwf) as (engine' & wt & log & h' & N & Hr & Hwf' & Hc & Hd & Hown).
  exists engine', wt, log, h', N. split_and!; [done..|].
  destruct Hown as [(self & ctx & N' & Hs & _ & Hown)|(rc & -> & -> & _)]; [|left; eauto].
  right. exists self, ctx, N'. split; [done|]. pose proof (busy_counted 0 ctx ltac:(lia)). destruct wt as [rq cb p|s|rc|]; cbn [extra_own] in Hown.
  - destruct Hown as (w & data & _ & Hw & Hu). split; [by eapply under_way_counted|by eexists _, _].
  - naive_solver.
  - naive_solver.
  - naive_solver.
Qed.

(** After the last step the process was told to stop, or nothing will ever call it again. *)
Lemma stress_test_end env n engine h : mem_wf h → (max_steps <= n)%nat →
  ∃ engine' wt log h', stress_test env n engine h = Some ((engine', wt, log), h') ∧
    (wt = Idle ∧ ¬ accepting env ∨
     ∃ rc, wt = Stopped rc ∧ (rc = 0 ∨ rc = -1) ∧ (rc = 0 → verified None log ∧ mem_cells h' = mem_cells h) ∧
       (smooth env → mem_cells h' = mem_cells h ∧ (verified None log → rc = 0) ∧ (faithful env → rc = 0))).
Proof.
  intros Hwf Hn. destruct (stress_test_run env n engine h Hwf) as (engine' & wt & log & h' & N & Hr & _ & Hc & _ & Hown).
  exists engine', wt, log, h'. split; [done|]. replace (max_steps - n)%nat with 0%nat in Hown by lia.
  destruct Hown as [(self & ctx & N' & Hs & _ & Hown)|(rc & -> & -> & Hrc & Hv & Hs & Hf)].
  - destruct wt as [rq cb p|s|rc|]; cbn [extra_own] in Hown.
    + destruct Hown as (w & data & _ & _ & Hu). exfalso. inversion Hu; unfold ops_left in *; lia.
    + destruct Hown as (? & _ & _ & _ & ?). lia.
    + destruct Hown as (Hno & -> & _). right. exists (-1). split_and!; [done|by right|done|by intros ?%Hno].
    + left. by destruct Hown.
  - rewrite (left_id_L ∅ (∪)) in Hc. right. exists rc. split_and!; [done..|auto|]. intros Hsm. split_and!; auto.
Qed.

(** C32. The stress test ends, and its exit code is the verdict it is meant to give. When the
    engine accepts what is submitted, whatever it completes it with and whatever memory there
    is, the process is told to stop within [STRESS_NUM_OBJECTS + 3 * STRESS_NUM_OPS + 1]
    further calls; 0 means that every write the engine reported durable was read back at once,
    with success and byte for byte, and that everything was freed. When nothing but operations
    fails, the exit code is 0 exactly then, and the memory is always freed; so an engine that
    returns what was just written passes, whatever else it does. *)
Theorem stress_test_verdict env n engine h : mem_wf h → (max_steps <= n)%nat → accepting env →
  ∃ engine' rc log h', stress_test env n engine h = Some ((engine', Stopped rc, log), h') ∧ (rc = 0 ∨ rc = -1) ∧
    (rc = 0 → verified None log ∧ mem_cells h' = mem_cells h) ∧
    (smooth env → mem_cells h' = mem_cells h ∧ (verified None log → rc = 0) ∧ (faithful env → rc = 0)).
Proof.
  intros Hwf Hn Hacc. destruct (stress_test_end env n engine h Hwf Hn) as (engine' & wt & log & h' & Hr & [[_ ?]|(rc & -> & ?)]); [done|].
  by exists engine', rc, log, h'.
Qed.

(** Every completion of a run has a result the engine gave. *)
Lemma stress_run_results env (P : completion → Prop) n pr pr' h h' :
  (∀ log rq data, P (Completion rq (an_result (env log) rq) data)) →
  stress_run env n pr h = Some (pr', h') → Forall P pr.2 → Forall P pr'.2.
Proof.
  intros HP. revert pr h. induction n as [|n IH]; intros [[engine wt] log] h; [by intros [= <- <-]|].
  cbn [stress_run snd]. unfold mbind at 1, M_bind at 1. destruct (stress_step (env log) (engine, wt, log) h) as [[pr1 h1]|] eqn:Hs; [|done].
  intros Hr Hl. apply (IH _ _ Hr). revert Hs. unfold stress_step. destruct wt as [rq cb p|s|rc|]; m_simpl.
  - destruct (fill_buffer _ _ _) as [[? h2]|]; [|done]. destruct (callback _ _ _ _ _) as [[? h3]|]; [|done].
    intros [= <- <-]. by constructor.
  - destruct (shutdown_fn _ _ _ _) as [[[? ?] ?]|]; [|done]. by intros [= <- <-].
  - by intros [= <- <-].
  - by intros [= <- <-].
Qed.

(** An engine that fails every operation passes the test: failed operations are not errors,
    and nothing that was not written is read back. *)
Theorem failing_engine_passes env n engine h :
  mem_wf h → (max_steps <= n)%nat → smooth env → (∀ log rq, an_result (env log) rq ≠ IO_SUCCESS) →
  ∃ engine' log h', stress_test env n engine h = Some ((engine', Stopped 0, log), h').
Proof.
  intros Hwf Hn Hsm Hfail. destruct (stress_test_end env n engine h Hwf Hn) as (engine' & wt & log & h' & Hr & [[_ Hno]|(rc & -> & _ & _ & Hv)]).
  { exfalso. apply Hno. by destruct Hsm as (_ & ? & _). }
  assert (Forall (λ c, co_result c ≠ IO_SUCCESS) log) as Hlog.
  { unfold stress_test in Hr. unfold mbind, M_bind in Hr. destruct (stress_test_start _ _ _) as [[wt h1]|]; [|done].
    exact (stress_run_results _ (λ c, co_result c ≠ IO_SUCCESS) _ _ _ _ _ (λ log rq data, Hfail log rq) Hr (Forall_nil_2 _)). }
  assert (∀ next, verified next log) as Hver.
  { clear -Hlog. induction Hlog as [|a log Ha _ IH]; intros next; simpl; [done|]. split; [|apply IH]. unfold read_back_ok. by destruct (co_rq a). }
  destruct (Hv Hsm) as (_ & Hrc & _). rewrite (Hrc (Hver None)) in Hr. by eexists _, _, _.
Qed.
End theorems.

(** ** Examples *)

#[export] Instance default_tunables_ok : TunablesOk default_tunables.
Proof. constructor; simpl; lia. Qed.

Definition small_tunables : Tunables :=
  {| STRESS_NUM_OBJECTS := 4; STRESS_NUM_OPS := 20; STRESS_DATA_SIZE := 8; STRESS_MAX_INFLIGHT := 4 |}.

(** An engine that remembers the last write, and one that takes no writes. *)
Definition echo_engine {E : StorageEnv} (log : list completion) : answers := {|
  an_submit := λ _, IO_SUCCESS;
  an_event := true;
  an_result := λ _, IO_SUCCESS;
  an_data := λ _, match log with Completion (ObjWrite _ _ _ data) _ _ :: _ => data | _ => [] end;
  an_stop := all_stop_answers
|}.
Definition read_only_engine {E : StorageEnv} (log : list completion) : answers := {|
  an_submit := λ rq, match rq with ObjWrite _ _ _ _ => IO_ERROR | _ => IO_SUCCESS end;
  an_event := true;
  an_result := λ _, IO_SUCCESS;
  an_data := λ _, [];
  an_stop := all_stop_answers
|}.

Lemma echo_faithful {E : StorageEnv} : faithful echo_engine.
Proof. intros oid off len data d log buf answer rq Hlen. split; [done|]. simpl. by rewrite resize_all_alt. Qed.

(** A write that the engine refuses ends the test without an end: nothing is under way, the
    process was not told to stop, and the context and its arrays are still there. *)
Lemma refused_write_hangs :
  (λ r, (r.1.1.2, size (mem_cells r.2))) <$>
    stress_test (E := example_env) (O := no_oom) (T := small_tunables) (read_only_engine (E := example_env)) 200 example_ctx mem_empty
  = Some (Idle, 3%nat).
Proof. vm_compute. reflexivity. Qed.

Lemma stress_test_safe_witness :
  ∃ engine' wt log h', stress_test (E := example_env) (O := λ n, bool_decide (n ≠ 7%nat)) (T := default_tunables)
    (read_only_engine (E := example_env)) 1000 example_ctx mem_empty = Some ((engine', wt, log), h') ∧ mem_wf h'.
Proof.
  destruct (stress_test_safe (E := example_env) (O := λ n, bool_decide (n ≠ 7%nat)) (T := default_tunables)
    (read_only_engine (E := example_env)) 1000 example_ctx mem_empty mem_wf_empty) as (engine' & wt & log & h' & N & Hr & Hwf & _).
  exists engine', wt, log, h'. split; [exact Hr|exact Hwf].
Defined.

Lemma stress_test_verdict_witness :
  ∃ engine' log h', stress_test (E := example_env) (O := no_oom) (T := default_tunables) (echo_engine (E := example_env)) 1601 example_ctx mem_empty
    = Some ((engine', Stopped 0, log), h') ∧ verified (E := example_env) None log ∧ mem_cells h' = ∅.
Proof.
  destruct (stress_test_verdict (E := example_env) (O := no_oom) (T := default_tunables) (echo_engine (E := example_env)) 1601 example_ctx mem_empty)
    as (engine' & rc & log & h' & Hr & _ & Hzero & Hsmooth); [apply mem_wf_empty|vm_compute; lia|done|].
  destruct Hsmooth as (_ & _ & Hf); [by repeat split|]. specialize (Hf (echo_faithful (E := example_env))). subst rc.
  destruct (Hzero eq_refl) as [Hv Hc]. exists engine', log, h'. split; [exact Hr|]. split; [exact Hv|exact Hc].
Defined.
